(* ===== verification/_CoqProject ===== *)
-Q . S2P
Prelude.v
Trace.v
Errors.v
Paths.v
Shell.v
Validate.v
Patch.v
Job.v
Registry.v
TransferTypes.v
TransferJob.v
Utf8.v
Channel.v
Marker.v
Stream.v
Spooler.v
FileEdit.v
ApplyPatch.v
Output.v
Exec.v
CheckProcess.v
Identification.v
Connection.v
Config.v
SshConfig.v
HostKeys.v
Route.v
TarHeader.v
Tar.v
TarTree.v
ToolArgs.v
RouterOs.v
LocalRoot.v
Destination.v
Staging.v
RawStream.v
LocalInstall.v
RemoteScript.v
PutRemote.v
PutDir.v
Clients.v
Walk.v
ClientTransfers.v
Engine.v
Environment.v
Response.v
Launch.v
Jobs.v
Startup.v
Handlers.v
Server.v
Service.v
Elevation.v
Main.v
