(* ===== verification/Prelude.v ===== *)
(** * SeSSHion: verification development

    SeSSHion (src/) is an MCP server that runs commands on remote hosts over
    SSH. This library models its core logic and proves that it is correct.
    Rust code becomes functions: a [Result] is [result] (below), a bounded
    integer is a [Z] with its bounds or its wrap-around written out, bytes are
    [list Z] (or [list Byte.byte] where text is decoded), a path is the string
    it displays, shared state is a store with references, and the outside
    world (channel events, answers of the remote host, the clock, the file
    system's faults) is an argument. Asynchronous code is modelled by its
    critical sections or by the list of events it waits for.

    ** Files and the code they model

    Foundations: this file (results, strings, decimal numbers, byte lists,
    automation, hint databases), Trace (computations that record their actions
    and a logic of protocol automata), Utf8 and Paths (the parts of Rust's
    standard library the program relies on), Channel (what a channel
    delivers).

    - Commands as text. Shell: shell_escape.rs, ssh/sanitize.rs,
      ssh/elevation.rs, background/wrapper.rs. What is quoted reaches the
      program as one word, for every reader that obeys POSIX quoting
      ([ShellQuoting], with an executable instance), and the script of a
      background job reads as its four commands for every reader that also
      expands parameters ([ShellExpansion], with an executable instance).
      Validate:
      validate.rs and server/validation/. Errors: error.rs.
    - Settings. Config: config.rs. SshConfig: ssh/config.rs and the
      constructor of server.rs. ToolArgs: server/args.rs.
    - Connections. Connection: the manager of ssh/connection.rs as a
      transition system of critical sections; Route: one connection attempt of
      ssh/connection.rs ([do_connect]) against an automaton of the handles it
      may hold; Elevation: opening channels, detecting the timeout utility and
      making the elevated shell, as runs of that transition system; HostKeys:
      ssh/handler.rs; Identification: ssh/identification.rs.
    - Execution. Exec: [exec_command] of ssh/command.rs over the connection's
      answers; Output: the collectors of ssh/command.rs; RouterOs:
      ssh/routeros.rs and server/handlers/routeros.rs.
    - Background jobs. Job, Registry: background/job.rs and registry.rs;
      Marker: background/marker.rs; Stream: background/stream.rs; Spooler:
      background/spooler.rs; CheckProcess: [check_process] of ssh/command.rs.
      A job is started through Shell's wrapper, recognised by Marker, copied
      by Stream, recorded by Job, kept by Registry, persisted by Spooler and
      reconciled by CheckProcess. Launch: server/exec.rs, which puts these
      together for one command, and [check_process] over the server's job
      state; Response: background/response.rs; Jobs: these operations as runs
      of the critical sections on that state.
    - Files. Patch: patch.rs; FileEdit: server/handlers/file_edit_common.rs
      with its remote scripts as functions on the remote file system;
      ApplyPatch: server/handlers/apply_patch.rs, proved against the interface
      [RemoteFiles] that FileEdit implements.
    - Transfers. TransferTypes: transfer/types.rs; TransferJob:
      background/transfer.rs and the guard in server.rs; LocalRoot:
      transfer/local_root.rs and walk.rs; Destination: the busy destinations
      of transfer/mod.rs; TarHeader, Tar, TarTree: transfer/tar.rs; Staging:
      transfer/staging.rs and the answers of exec_raw.rs's scripts;
      LocalInstall: the receiving half of transfer/exec_raw.rs; RawStream: the
      two tasks of [exec_raw_streaming] in ssh/command.rs; RemoteScript: the
      commands of the upload scripts on a remote file system; PutRemote and
      PutDir: the sending half of exec_raw.rs and the scripts of staging.rs;
      Clients: the command lines of transfer/openssh.rs, rsync.rs and
      process.rs, read back through the interface [WordReader];
      ClientTransfers: transfer/skeleton.rs around such a client; Walk:
      transfer/walk.rs; Engine: one run of transfer/mod.rs over the interface
      [TransportOps].
    - The server. Environment: the parser of ssh/environment.rs; Startup:
      transfer/startup.rs; Handlers: the handlers of server.rs and
      server/handlers/; Server: the dispatch, the tool lists and schemas, and
      the end of server.rs, over the interface [ToolHandlers]; Service: the
      handlers put together over one state as the instance of that interface,
      and the steps of a server over time; Main: main.rs, logging.rs and the
      making of the server.
      Main makes a server, Server routes a call to Handlers, Handlers to Launch,
      CheckProcess, Engine or RouterOs, and these to the connection.

    ** What the theorems show

    - Remote edits change a file only if its hash is the expected one, and
      leave the edited or the old content, whatever happens in between
      (FileEdit); a patch report tells which files changed (ApplyPatch);
      hunks are applied where they match and nowhere else, and a printed patch
      is parsed back (Patch).
    - The connection manager's invariant holds on every interleaving; a stale
      generation changes nothing; shutdown is final (Connection). An attempt
      opens and closes its handles in the order of the protocol and leaks none
      (Route). A command is sent at most once (Exec, RouterOs), but Exec sends
      it again when its output carries the message of a missing timeout
      utility. Accepted host keys are kept and removal is exact (HostKeys). Identification does not
      depend on how bytes are cut into chunks.
    - A job's life is monotone, ends in one terminal state, survives its
      round trip through the spool directory and never leaves it (Job,
      Stream, Spooler, CheckProcess, Marker, Registry). Output is bounded and
      faithful (Output).
    - A directory survives the trip through a tar stream, extraction stays
      below its root (Tar, TarTree); local paths stay below the local root
      (LocalRoot); two puts never write one remote destination at a time, nor
      two gets one local path as it is spelled (Destination); a local
      destination holds the old or the whole new content, but for the way out
      that [replace_gap] names (LocalInstall); every transfer ends in a terminal state (TransferJob).
    - An upload leaves the old or the whole new file, and a directory in place
      or under its backup name, wherever its script is interrupted (PutRemote,
      PutDir); a transfer by a client does the same (ClientTransfers); nothing
      a path or a host name holds becomes an option or a second word of a
      client's command line (Clients); the engine starts at most one
      transport, after every check, and frees the destination also when it is
      cancelled or times out (Engine); raw streams arrive whole and in
      order (RawStream).
    - A command is wrapped, queued at most once, registered exactly when it is
      answered as a job, and answered with exactly its output and status
      (Launch); the tools run only sanitized commands (Handlers); what is listed
      is what can be called, and a disabled or unsupported tool runs nothing
      (Server); the probes of the start-up are parsed from any chunking and
      their text is inert (Environment, Startup).
    - Whatever calls arrive and whatever goes on beside them, the registered
      jobs stay sound, distinct and themselves, no id is both a command job and
      a transfer, and every command slot is given back; a job that a call reports as started is found again by any later
      check (Jobs, Service).
    - The su password is written at most once, to a shell on the route it was
      meant for (Elevation); the process serves only a ready connection and
      always leaves through its shutdown (Main).
    - Accepted configurations are valid and arrive unchanged in the connection
      settings, and a refusal names every violated condition (Config,
      SshConfig, ToolArgs).

    Each property's theorem carries its number (C1, C2, ...), and where it
    has hypotheses a witness shows them satisfiable.

    ** Fuel and bounds

    Loops over a list of events or chunks recurse on the list. Where the
    source loops on something else the model has fuel that its bound allows:
    the tar reader takes the number of bytes that remain and the extractor
    the length of the stream plus one (each round consumes a byte), the tar
    writer the number of nodes of the tree, the log tail the number of its
    chunks plus one, the identification the number of bytes, a hunk parser the
    number of lines, a decimal number the number of bits, the walk of a tree
    the number of its directories, the candidates of a
    staging name MAX_ATTEMPTS (128, as in the source). The theorems that need
    it prove that the fuel suffices ([tar_roundtrip], [parse_print_patch],
    [identify_any_chunking], [check_process_total], [walk_counts]); retries and turns of an event loop recurse on
    the list of what happens, and [connect_with_retry_attempts] bounds them.
    Integers that the source keeps at machine width (tar sizes and checksums,
    limits, counters, ports, exit codes) are kept in their range by the
    operations themselves (checked, saturating or wrapping as written).

    ** Not modelled

    Code that only moves bytes between the process and the operating system,
    the SSH library (russh), the JSON and MCP libraries, tokio's scheduler and
    the POSIX shell are arguments or interfaces with their documented laws.
    The JSON of tool arguments is a value: the parsers that serde derives are
    arguments. The text of the start-up probe's shell script, the values of
    platform.rs, the module list of lib.rs, the entry points for tests
    (server/testing.rs, src/tests/) and the protocol negotiation of rmcp are
    left out: they have no behaviour of their own here, or belong to a
    library. In Service the calls of one server follow each other, each with
    what other tasks do during it as an argument; the remote files are reached
    through the interface [RemoteFiles] and the transports through
    [TransportOps]. A call draws its job id from the counter and the clock; that
    the id is not registered yet is assumed of each call (the counter is 64 bits
    wide and the clock is not modelled). The spool directory's creation fails
    only because it exists. Two concurrent checks of one lost job may each recover it;
    Jobs takes the look-up, the load and the insertion as one section. *)

From Stdlib Require Import ZArith String Ascii Lia.
From stdpp Require Import base list gmap.

#[global] Open Scope Z_scope.

(** ** Results

    Rust's [Result<T, E>]; the [?] operator is the bind notation [let?]. *)
Inductive result (T E : Type) : Type :=
  | Ok (v : T)
  | Err (e : E).
Arguments Ok {T E} v.
Arguments Err {T E} e.

Definition rbind {T U E} (m : result T E) (k : T -> result U E) : result U E :=
  match m with Ok v => k v | Err e => Err e end.

Definition rmap_err {T E F} (f : E -> F) (m : result T E) : result T F :=
  match m with Ok v => Ok v | Err e => Err (f e) end.

Definition ok_or {T E} (m : option T) (e : E) : result T E :=
  match m with Some v => Ok v | None => Err e end.

Definition is_ok {T E} (m : result T E) : bool :=
  match m with Ok _ => true | Err _ => false end.

(** A guard of the code: [if cond { return Err(e); }]. *)
Definition reject {E} (cond : bool) (e : E) : result unit E :=
  if cond then Err e else Ok tt.

Declare Scope res_scope.
Delimit Scope res_scope with res.
Notation "'let?' x := m 'in' k" := (rbind m (fun x => k))
  (at level 10, x binder, m at level 100, k at level 200,
   format "'let?'  x  :=  m  'in' '//' k") : res_scope.
Notation "m ';?' k" := (rbind m (fun _ => k))
  (at level 199, right associativity) : res_scope.
#[global] Open Scope res_scope.

#[global] Instance result_eq_dec {T E} `{EqDecision T} `{EqDecision E} :
  EqDecision (result T E).
Proof. solve_decision. Defined.

(** ** Characters and strings

    A [char] is a Unicode scalar value, a [String] the list of its
    characters; [str_len] is Rust's [len()], the number of UTF-8 bytes. *)
Notation char := Z (only parsing).
Notation str := (list Z) (only parsing).
Notation bytes := (list Z) (only parsing).

(** Strings are keys of maps and members of sets. *)
#[global] Instance str_eq_dec : EqDecision (list Z) | 0 := list_eq_dec.
#[global] Instance str_countable : Countable (list Z) | 0 := list_countable.

Definition chr (a : ascii) : char := Z.of_N (N_of_ascii a).
Fixpoint lit (s : string) : str :=
  match s with
  | EmptyString => []
  | String a s' => chr a :: lit s'
  end.

#[global] Arguments lit : simpl never.

(** Characters that a Rocq string literal cannot carry conveniently. *)
Definition NL : char := 10.
Definition CR : char := 13.
Definition TAB : char := 9.
Definition NUL : char := 0.
Definition DQ : char := 34.
Definition SQ : char := 39.
Definition BSL : char := 92.
Definition SLASH : char := 47.

Definition utf8_len (c : char) : Z :=
  if c <? 128 then 1 else if c <? 2048 then 2 else if c <? 65536 then 3 else 4.

Definition str_len (s : str) : Z := foldr (fun c n => utf8_len c + n) 0 s.

Definition valid_char (c : char) : bool :=
  ((0 <=? c) && (c <? 55296)) || ((57344 <=? c) && (c <? 1114112)).

(** [char::is_whitespace] (the Unicode [White_Space] property). *)
Definition is_whitespace (c : char) : bool :=
  ((9 <=? c) && (c <=? 13)) || (c =? 32) || (c =? 133) || (c =? 160) ||
  (c =? 5760) || ((8192 <=? c) && (c <=? 8202)) || (c =? 8232) || (c =? 8233) ||
  (c =? 8239) || (c =? 8287) || (c =? 12288).

(** [char::is_control] (the Unicode category Cc). *)
Definition is_control (c : char) : bool :=
  ((0 <=? c) && (c <? 32)) || ((127 <=? c) && (c <? 160)).

Definition is_ascii_digit (c : char) : bool := (48 <=? c) && (c <=? 57).
Definition is_ascii_lower (c : char) : bool := (97 <=? c) && (c <=? 122).
Definition is_ascii_upper (c : char) : bool := (65 <=? c) && (c <=? 90).
Definition is_ascii_alpha (c : char) : bool := is_ascii_lower c || is_ascii_upper c.
Definition is_ascii_alnum (c : char) : bool := is_ascii_alpha c || is_ascii_digit c.

Definition str_eqb (a b : str) : bool := bool_decide (a = b).
Definition contains_char (c : char) (s : str) : bool := existsb (Z.eqb c) s.

Fixpoint starts_with (p s : str) : bool :=
  match p, s with
  | [], _ => true
  | _ :: _, [] => false
  | a :: p', b :: s' => (a =? b) && starts_with p' s'
  end.

Fixpoint strip_prefix (p s : str) : option str :=
  match p, s with
  | [], _ => Some s
  | _ :: _, [] => None
  | a :: p', b :: s' => if a =? b then strip_prefix p' s' else None
  end.

Definition ends_with (p s : str) : bool := starts_with (rev p) (rev s).
Definition strip_suffix (p s : str) : option str :=
  match strip_prefix (rev p) (rev s) with Some r => Some (rev r) | None => None end.

(** [str::contains] with a string pattern. *)
Fixpoint contains (p s : str) : bool :=
  starts_with p s || match s with [] => false | _ :: s' => contains p s' end.

Fixpoint drop_while (f : char -> bool) (s : str) : str :=
  match s with
  | [] => []
  | c :: s' => if f c then drop_while f s' else s
  end.

Definition trim_start (s : str) : str := drop_while is_whitespace s.
Definition trim_end (s : str) : str := rev (drop_while is_whitespace (rev s)).
Definition trim (s : str) : str := trim_end (trim_start s).

(** [str::replace] of one character by a string. *)
Definition replace_char (c : char) (r : str) (s : str) : str :=
  flat_map (fun x => if x =? c then r else [x]) s.

(** [str::split] on one character: always at least one piece. *)
Fixpoint split_char (c : char) (s : str) : list str :=
  match s with
  | [] => [[]]
  | x :: s' =>
      if x =? c then [] :: split_char c s'
      else match split_char c s' with
           | [] => [[x]]
           | p :: ps => (x :: p) :: ps
           end
  end.

(** [str::split_once] on one character. *)
Fixpoint split_once_char (c : char) (s : str) : option (str * str) :=
  match s with
  | [] => None
  | x :: s' =>
      if x =? c then Some ([], s')
      else match split_once_char c s' with
           | Some (a, b) => Some (x :: a, b)
           | None => None
           end
  end.

Fixpoint join (sep : str) (l : list str) : str :=
  match l with
  | [] => []
  | [x] => x
  | x :: l' => x ++ sep ++ join sep l'
  end.

(** [str::lines]: pieces ended by a line feed, which is dropped together with
    a carriage return just before it; a last piece without line feed is kept
    as it is, and an empty last piece is not a line. *)
Fixpoint lines_raw (s : str) : list (str * bool) :=
  match s with
  | [] => []
  | x :: s' =>
      if x =? NL then ([], true) :: lines_raw s'
      else match lines_raw s' with
           | [] => [([x], false)]
           | (p, t) :: ps => (x :: p, t) :: ps
           end
  end.

Definition strip_cr (p : str) : str := default p (strip_suffix [CR] p).
Definition str_lines (s : str) : list str :=
  (fun '(p, t) => if (t : bool) then strip_cr p else p) <$> lines_raw s.

(** [str::split] on a non-empty string pattern; the fuel is the length. *)
Fixpoint split_once (p s : str) : option (str * str) :=
  match strip_prefix p s with
  | Some r => Some ([], r)
  | None =>
      match s with
      | [] => None
      | x :: s' =>
          match split_once p s' with
          | Some (a, b) => Some (x :: a, b)
          | None => None
          end
      end
  end.

(** ** Numbers

    [u16::from_str], [u64::from_str], ...: an optional plus sign, at least one
    ASCII digit, digits only, and no overflow of the type's maximum. *)
Definition digit_val (c : char) : option Z :=
  if is_ascii_digit c then Some (c - 48) else None.

Fixpoint parse_digits (max acc : Z) (s : str) : option Z :=
  match s with
  | [] => Some acc
  | c :: s' =>
      d ← digit_val c;
      let acc' := acc * 10 + d in
      if max <? acc' then None else parse_digits max acc' s'
  end.

Definition parse_uint (max : Z) (s : str) : option Z :=
  match default s (strip_prefix [43] s) with
  | [] => None
  | d => parse_digits max 0 d
  end.

Definition parse_int (min max : Z) (s : str) : option Z :=
  match strip_prefix [45] s with
  | Some [] => None
  | Some d => Z.opp <$> parse_digits (- min) 0 d
  | None => parse_uint max s
  end.

(** The text of the [ParseIntError] of an unsigned parse that failed. *)
Fixpoint digits_error (max acc : Z) (s : str) : str :=
  match s with
  | [] => []
  | c :: s' =>
      match digit_val c with
      | None => lit "invalid digit found in string"
      | Some d =>
          if max <? acc * 10 + d then lit "number too large to fit in target type"
          else digits_error max (acc * 10 + d) s'
      end
  end.

Definition parse_uint_error (max : Z) (s : str) : str :=
  match s with
  | [] => lit "cannot parse integer from empty string"
  | _ =>
      match default s (strip_prefix [43] s) with
      | [] => lit "invalid digit found in string"
      | d => digits_error max 0 d
      end
  end.

Definition U8_MAX : Z := 255.
Definition U16_MAX : Z := 65535.
Definition U32_MAX : Z := 4294967295.
Definition U64_MAX : Z := 18446744073709551615.
Definition USIZE_MAX : Z := U64_MAX.
Definition I32_MAX : Z := 2147483647.
Definition I32_MIN : Z := -2147483648.
Definition I64_MAX : Z := 9223372036854775807.

Definition parse_u16 := parse_uint U16_MAX.
Definition parse_u32 := parse_uint U32_MAX.
Definition parse_u64 := parse_uint U64_MAX.
Definition parse_usize := parse_uint USIZE_MAX.
Definition parse_i32 := parse_int I32_MIN I32_MAX.

Definition saturating_sub (a b : Z) : Z := Z.max 0 (a - b).
Definition saturating_add (max a b : Z) : Z := Z.min max (a + b).
Definition saturating_mul (max a b : Z) : Z := Z.min max (a * b).

(** [Display] of an unsigned integer. *)
Fixpoint show_digits (fuel : nat) (n : Z) (acc : str) : str :=
  match fuel with
  | O => acc
  | S f =>
      let acc' := (48 + n mod 10) :: acc in
      if n <? 10 then acc' else show_digits f (n / 10) acc'
  end.
Definition show_uint (n : Z) : str := show_digits (S (Z.to_nat (Z.log2 n))) n [].
Definition show_int (n : Z) : str :=
  if n <? 0 then 45 :: show_uint (- n) else show_uint n.

(** ** Tactics *)

(** Splits boolean conjunctions and disjunctions in the context. *)
Ltac bool_hyps :=
  repeat match goal with
  | H : andb _ _ = true |- _ => apply andb_true_iff in H as [? ?]
  | H : orb _ _ = false |- _ => apply orb_false_iff in H as [? ?]
  | H : negb _ = true |- _ => apply negb_true_iff in H
  | H : negb _ = false |- _ => apply negb_false_iff in H
  | H : bool_decide _ = true |- _ => apply bool_decide_eq_true_1 in H
  | H : bool_decide _ = false |- _ => apply bool_decide_eq_false_1 in H
  | H : (_ =? _)%Z = true |- _ => apply Z.eqb_eq in H
  | H : (_ =? _)%Z = false |- _ => apply Z.eqb_neq in H
  | H : (_ <? _)%Z = true |- _ => apply Z.ltb_lt in H
  | H : (_ <? _)%Z = false |- _ => apply Z.ltb_ge in H
  | H : (_ <=? _)%Z = true |- _ => apply Z.leb_le in H
  | H : (_ <=? _)%Z = false |- _ => apply Z.leb_gt in H
  end.

(** Walks through the binds and guards of a fallible computation that is
    known to have succeeded (or failed). *)
Ltac res_inv :=
  repeat first
    [ progress simplify_eq/=
    | match goal with v : unit |- _ => destruct v end
    | match goal with
      | H : rbind ?m _ = _ |- _ => destruct m eqn:?; cbn [rbind] in H
      | H : reject ?b _ = _ |- _ => unfold reject in H
      | H : ok_or ?o _ = _ |- _ => destruct o eqn:?; cbn [ok_or] in H
      | H : rmap_err _ ?m = _ |- _ => destruct m eqn:?; cbn [rmap_err] in H
      | H : (if ?b then _ else _) = Ok _ |- _ => destruct b eqn:?
      | H : (if ?b then _ else _) = Err _ |- _ => destruct b eqn:?
      | H : (match ?x with _ => _ end) = Ok _ |- _ => destruct x eqn:?
      end ].

(** ** Lemmas on strings *)

Lemma starts_with_spec p s : starts_with p s = true <-> exists r, s = p ++ r.
Proof.
  revert s; induction p as [|a p IH]; intros [|b s]; simpl; split; intros H;
    try done; try (by eexists); try (by destruct H).
  - bool_hyps; subst. apply IH in H0 as [r ->]. by exists r.
  - destruct H as [r [= -> ->]]. rewrite Z.eqb_refl. apply IH. by exists r.
Qed.

Lemma starts_with_app p r : starts_with p (p ++ r) = true.
Proof. apply starts_with_spec. by exists r. Qed.

Lemma strip_prefix_Some p s r : strip_prefix p s = Some r <-> s = p ++ r.
Proof.
  revert s; induction p as [|a p IH]; intros [|b s]; simpl; split; intros H;
    simplify_eq/=; try done.
  - destruct (a =? b) eqn:E; [|done]. bool_hyps; subst. by apply IH in H as ->.
  - rewrite Z.eqb_refl. by apply IH.
Qed.

Lemma strip_prefix_app p r : strip_prefix p (p ++ r) = Some r.
Proof. by apply strip_prefix_Some. Qed.

Lemma strip_prefix_None p s : strip_prefix p s = None <-> starts_with p s = false.
Proof.
  destruct (strip_prefix p s) eqn:E; destruct (starts_with p s) eqn:F; split; try done.
  - apply strip_prefix_Some in E as ->. by rewrite starts_with_app in F.
  - apply starts_with_spec in F as [r ->]. by rewrite strip_prefix_app in E.
Qed.

Lemma strip_suffix_Some p s r : strip_suffix p s = Some r <-> s = r ++ p.
Proof.
  unfold strip_suffix. destruct (strip_prefix (rev p) (rev s)) eqn:E.
  - apply strip_prefix_Some in E. apply (f_equal (@rev Z)) in E.
    rewrite rev_involutive, rev_app_distr, rev_involutive in E. subst.
    split; [by intros [= <-]|]. intros H.
    by apply app_inv_tail in H as ->.
  - split; [done|]. intros ->. rewrite rev_app_distr, strip_prefix_app in E. done.
Qed.

Lemma ends_with_spec p s : ends_with p s = true <-> exists r, s = r ++ p.
Proof.
  unfold ends_with. rewrite starts_with_spec. split; intros [r H].
  - exists (rev r). apply (f_equal (@rev Z)) in H.
    by rewrite rev_involutive, rev_app_distr, rev_involutive in H.
  - exists (rev r). by rewrite H, rev_app_distr.
Qed.

Lemma contains_char_spec c s : contains_char c s = true <-> c ∈ s.
Proof.
  unfold contains_char. rewrite existsb_exists, list_elem_of_In. split.
  - intros (x & Hx & E). bool_hyps. by subst.
  - intros H. exists c. by rewrite Z.eqb_refl.
Qed.

Lemma contains_char_false c s : contains_char c s = false <-> c ∉ s.
Proof.
  rewrite <- contains_char_spec. by destruct (contains_char c s).
Qed.

Lemma contains_spec p s :
  contains p s = true <-> exists a b, s = a ++ p ++ b.
Proof.
  induction s as [|x s IH]; simpl.
  - rewrite orb_false_r, starts_with_spec. split.
    + intros [r H]. exists [], r. done.
    + intros (a & b & H). symmetry in H. apply app_eq_nil in H as [-> H]. by exists b.
  - rewrite orb_true_iff, starts_with_spec, IH. split.
    + intros [[r H]|(a & b & ->)]; [by exists [], r | by exists (x :: a), b].
    + intros (a & b & H). destruct a as [|y a]; simpl in H; [left; by exists b|].
      simplify_eq. right. by exists a, b.
Qed.

Lemma str_eqb_spec a b : str_eqb a b = true <-> a = b.
Proof. apply bool_decide_eq_true. Qed.
Lemma str_eqb_refl a : str_eqb a a = true.
Proof. by apply str_eqb_spec. Qed.

Lemma str_len_app a b : str_len (a ++ b) = str_len a + str_len b.
Proof. unfold str_len. induction a; simpl; lia. Qed.

Lemma utf8_len_bounds c : 1 <= utf8_len c <= 4.
Proof. unfold utf8_len. repeat case_match; lia. Qed.

Lemma str_len_nonneg s : 0 <= str_len s.
Proof.
  unfold str_len; induction s as [|c s IH]; simpl; [lia|].
  pose proof (utf8_len_bounds c). lia.
Qed.

Lemma str_len_length s : Z.of_nat (length s) <= str_len s <= 4 * Z.of_nat (length s).
Proof.
  unfold str_len; induction s as [|c s IH]; [simpl; lia|].
  pose proof (utf8_len_bounds c). cbn [length foldr]. lia.
Qed.

Lemma replace_char_app c r a b :
  replace_char c r (a ++ b) = replace_char c r a ++ replace_char c r b.
Proof. apply flat_map_app. Qed.

Lemma replace_char_id c r s : c ∉ s -> replace_char c r s = s.
Proof.
  induction s as [|x s IH]; [done|]. rewrite not_elem_of_cons. intros [Hx Hs]. simpl.
  destruct (x =? c) eqn:E; bool_hyps; [congruence|]. simpl. f_equal. by apply IH.
Qed.

(** [split_char] and [join] are inverse of each other. *)
Lemma split_char_ne c s : split_char c s <> [].
Proof. destruct s as [|x s]; simpl; [done|]. repeat case_match; done. Qed.

Lemma join_split_char c s : join [c] (split_char c s) = s.
Proof.
  induction s as [|x s IH]; [done|]. simpl.
  pose proof (split_char_ne c s) as Hne.
  destruct (x =? c) eqn:E; destruct (split_char c s) as [|p ps] eqn:Hs; try done; simpl in *.
  - bool_hyps; subst. f_equal.
  - destruct ps; simpl in *; by f_equal.
Qed.

Lemma split_char_no_sep c s p : p ∈ split_char c s -> c ∉ p.
Proof.
  revert p; induction s as [|x s IH]; simpl; intros p.
  - rewrite list_elem_of_singleton. intros ->. by apply not_elem_of_nil.
  - pose proof (split_char_ne c s). destruct (x =? c) eqn:E.
    + rewrite elem_of_cons. intros [->|Hp]; [by apply not_elem_of_nil | by apply IH].
    + destruct (split_char c s) as [|q qs]; [done|].
      rewrite elem_of_cons. bool_hyps. intros [->|Hp].
      * apply not_elem_of_cons. split; [congruence|]. apply IH. by left.
      * apply IH. by right.
Qed.

Lemma split_char_app c a b :
  c ∉ a -> split_char c (a ++ c :: b) = a :: split_char c b.
Proof.
  induction a as [|x a IH]; simpl; [by rewrite Z.eqb_refl|].
  rewrite not_elem_of_cons. intros [Hx Ha].
  destruct (x =? c) eqn:E; bool_hyps; [congruence|]. by rewrite IH.
Qed.

Lemma split_char_id c s : c ∉ s -> split_char c s = [s].
Proof.
  induction s as [|x s IH]; [done|]. rewrite not_elem_of_cons. intros [Hx Hs]. simpl.
  destruct (x =? c) eqn:E; bool_hyps; [congruence|]. by rewrite IH.
Qed.

Lemma split_char_join c l :
  l <> [] -> (forall p, p ∈ l -> c ∉ p) -> split_char c (join [c] l) = l.
Proof.
  induction l as [|p [|q l] IH]; intros Hne H; [done| |].
  - simpl. apply split_char_id, H. by left.
  - change (join [c] (p :: q :: l)) with (p ++ c :: join [c] (q :: l)).
    rewrite split_char_app by (apply H; by left). f_equal.
    apply IH; [done|]. intros r Hr. apply H. by right.
Qed.

(** ** Trimming *)

Lemma drop_while_suffix f s : exists p, s = p ++ drop_while f s /\ Forall (fun c => f c = true) p.
Proof.
  induction s as [|c s (p & E & F)]; simpl; [by exists []|].
  destruct (f c) eqn:Hc; [|by exists []].
  exists (c :: p). split; [simpl; congruence | by constructor].
Qed.

Lemma drop_while_head f s c r : drop_while f s = c :: r -> f c = false.
Proof.
  induction s as [|x s IH]; simpl; [done|].
  destruct (f x) eqn:Hx; [done|]. intros [= -> _]. done.
Qed.

Lemma drop_while_nil f s : drop_while f s = [] <-> Forall (fun c => f c = true) s.
Proof.
  split.
  - intros H. destruct (drop_while_suffix f s) as (p & E & F). rewrite H in E.
    rewrite app_nil_r in E. by subst.
  - induction 1 as [|c s Hc _ IH]; simpl; [done|]. by rewrite Hc.
Qed.

Lemma drop_while_id f c s : f c = false -> drop_while f (c :: s) = c :: s.
Proof. intros H. simpl. by rewrite H. Qed.

(** A trimmed string has no white space at either end. *)
Lemma trim_decompose s :
  exists a b, s = a ++ trim s ++ b /\
    Forall (fun c => is_whitespace c = true) a /\ Forall (fun c => is_whitespace c = true) b.
Proof.
  unfold trim, trim_start, trim_end.
  destruct (drop_while_suffix is_whitespace s) as (a & E & Fa).
  set (t := drop_while is_whitespace s) in *.
  destruct (drop_while_suffix is_whitespace (rev t)) as (b & E' & Fb).
  exists a, (rev b). split_and!; [|done|].
  - rewrite E at 1. f_equal. rewrite <- (rev_involutive t) at 1.
    rewrite E' at 1. by rewrite rev_app_distr.
  - by apply Forall_rev.
Qed.

Lemma trim_nil s : trim s = [] <-> Forall (fun c => is_whitespace c = true) s.
Proof.
  split.
  - intros H. destruct (trim_decompose s) as (a & b & E & Fa & Fb).
    rewrite H in E. simpl in E. rewrite E. by apply Forall_app.
  - intros H. unfold trim, trim_start. apply drop_while_nil in H. by rewrite H.
Qed.

Lemma trim_id c d s :
  is_whitespace c = false -> is_whitespace d = false ->
  trim (c :: s ++ [d]) = c :: s ++ [d].
Proof.
  intros Hc Hd. unfold trim, trim_start, trim_end.
  rewrite drop_while_id by done.
  change (c :: s ++ [d]) with ((c :: s) ++ [d]).
  rewrite rev_app_distr. change (rev [d] ++ rev (c :: s)) with (d :: rev (c :: s)).
  rewrite drop_while_id by done.
  change (d :: rev (c :: s)) with (rev [d] ++ rev (c :: s)).
  by rewrite <- rev_app_distr, rev_involutive.
Qed.

Lemma trim_head s c r : trim s = c :: r -> is_whitespace c = false.
Proof.
  unfold trim, trim_start, trim_end.
  set (t := drop_while is_whitespace s). intros H.
  destruct t as [|x t'] eqn:Ht; [done|].
  pose proof (drop_while_head _ _ _ _ Ht) as Hx.
  destruct (drop_while_suffix is_whitespace (rev (x :: t'))) as (b & E & Fb).
  apply (f_equal (@rev Z)) in E. rewrite rev_involutive, rev_app_distr, H in E.
  simpl in E. by injection E as -> _.
Qed.

Lemma trim_last s c r : trim s = r ++ [c] -> is_whitespace c = false.
Proof.
  unfold trim, trim_end. intros H. apply (f_equal (@rev Z)) in H.
  rewrite rev_involutive, rev_app_distr in H. simpl in H.
  by apply drop_while_head in H.
Qed.

Lemma trim_trim s : trim (trim s) = trim s.
Proof.
  destruct (trim s) as [|c r] eqn:E; [done|].
  pose proof (trim_head _ _ _ E) as Hc.
  destruct r as [|d r] using rev_ind.
  - unfold trim, trim_start, trim_end. simpl. rewrite Hc. simpl. by rewrite Hc.
  - apply trim_id; [done|]. apply (trim_last s d (c :: r)). by rewrite E.
Qed.

(** ** Printing and parsing numbers *)

Lemma digit_val_digit d : 0 <= d < 10 -> digit_val (48 + d) = Some d.
Proof.
  intros H. unfold digit_val, is_ascii_digit.
  replace ((48 <=? 48 + d) && (48 + d <=? 57)) with true by (symmetry; apply andb_true_iff; split; apply Z.leb_le; lia).
  f_equal. lia.
Qed.

Lemma parse_digits_app max acc a b :
  parse_digits max acc (a ++ b) =
  (v ← parse_digits max acc a; parse_digits max v b).
Proof.
  revert acc; induction a as [|c a IH]; intros acc; simpl; [done|].
  destruct (digit_val c); simpl; [|done]. destruct (max <? acc * 10 + z); [done|]. apply IH.
Qed.

Lemma show_digits_app fuel n acc : show_digits fuel n acc = show_digits fuel n [] ++ acc.
Proof.
  revert n acc; induction fuel as [|f IH]; intros n acc; [done|].
  cbn [show_digits]. destruct (n <? 10); [done|].
  rewrite IH, (IH (n / 10) [_]), <- app_assoc. done.
Qed.

Lemma log2_div10 n : 10 <= n -> 0 <= Z.log2 (n / 10) < Z.log2 n.
Proof.
  intros H. split; [apply Z.log2_nonneg|].
  assert (1 <= n / 10) by (apply Z.div_le_lower_bound; lia).
  assert (n / 10 * 2 <= n) by (pose proof (Z.mul_div_le n 10); lia).
  enough (Z.log2 (n / 10) + 1 <= Z.log2 n) by lia.
  replace (Z.log2 (n / 10) + 1) with (Z.log2 (n / 10 * 2)).
  - by apply Z.log2_le_mono.
  - rewrite Z.mul_comm, Z.log2_double by lia. lia.
Qed.

Lemma parse_show_digits max fuel n acc :
  0 <= n -> (Z.to_nat (Z.log2 n) < fuel)%nat -> n <= max ->
  parse_digits max 0 (show_digits fuel n acc) = parse_digits max n acc.
Proof.
  revert n acc; induction fuel as [|f IH]; intros n acc Hn Hf Hmax; [lia|].
  cbn [show_digits]. destruct (n <? 10) eqn:E; bool_hyps.
  - cbn [parse_digits]. rewrite Z.mod_small, digit_val_digit by lia. simpl.
    replace (0 * 10 + n) with n by lia. destruct (max <? n) eqn:F; bool_hyps; [lia | done].
  - pose proof (log2_div10 n E).
    assert (Hd : 0 <= n / 10) by (apply Z.div_pos; lia).
    assert (n / 10 <= n) by (pose proof (Z.mul_div_le n 10); lia).
    rewrite IH by lia. cbn [parse_digits].
    pose proof (Z.mod_pos_bound n 10). rewrite digit_val_digit by lia. simpl.
    replace (n / 10 * 10 + n mod 10) with n by (pose proof (Z.div_mod n 10); lia).
    destruct (max <? n) eqn:F; bool_hyps; [lia | done].
Qed.

Lemma show_digits_head fuel n acc :
  fuel <> O -> 0 <= n -> exists d r, show_digits fuel n acc = d :: r /\ is_ascii_digit d = true.
Proof.
  revert n acc; induction fuel as [|f IH]; intros n acc Hf Hn; [done|].
  cbn [show_digits]. pose proof (Z.mod_pos_bound n 10).
  assert (is_ascii_digit (48 + n mod 10) = true).
  { unfold is_ascii_digit. apply andb_true_iff; split; apply Z.leb_le; lia. }
  destruct (n <? 10); [by eexists _, _|].
  destruct f as [|f']; [by eexists _, _|].
  apply (IH (n / 10)); [done|]. apply Z.div_pos; lia.
Qed.

(** Printing an unsigned integer and parsing it back. *)
Lemma parse_show_uint max n : 0 <= n <= max -> parse_uint max (show_uint n) = Some n.
Proof.
  intros H. unfold parse_uint, show_uint.
  destruct (show_digits_head (S (Z.to_nat (Z.log2 n))) n []) as (d & r & E & Hd); [done|lia|].
  assert (strip_prefix [43] (show_digits (S (Z.to_nat (Z.log2 n))) n []) = None) as ->.
  { rewrite E. cbn [strip_prefix]. unfold is_ascii_digit in Hd. bool_hyps.
    destruct (43 =? d) eqn:F; bool_hyps; [lia|done]. }
  cbn [default]. pose proof (parse_show_digits max (S (Z.to_nat (Z.log2 n))) n []) as P.
  rewrite E in *. apply P; lia.
Qed.

Lemma parse_digits_bounds max acc s v :
  0 <= acc <= max -> parse_digits max acc s = Some v -> 0 <= v <= max.
Proof.
  revert acc; induction s as [|c s IH]; simpl; intros acc H E; [by simplify_eq|].
  destruct (digit_val c) as [d|] eqn:D; simpl in E; [|done].
  destruct (max <? acc * 10 + d) eqn:F; [done|]. bool_hyps.
  apply (IH (acc * 10 + d)); [|done]. unfold digit_val in D.
  destruct (is_ascii_digit c) eqn:G; simplify_eq. unfold is_ascii_digit in G. bool_hyps. lia.
Qed.

Lemma parse_uint_bounds max s v : 0 <= max -> parse_uint max s = Some v -> 0 <= v <= max.
Proof.
  intros Hm. unfold parse_uint. destruct (default _ _); [done|].
  apply parse_digits_bounds. lia.
Qed.

(** ** Automation *)
Create HintDb str discriminated.
#[export] Hint Rewrite str_len_app replace_char_app starts_with_app strip_prefix_app
  str_eqb_refl trim_trim join_split_char : str.
#[export] Hint Resolve str_len_nonneg split_char_ne : str.

(** ** [Debug] formatting

    [{:?}] of a string and of a character. ASCII is escaped as Rust does;
    characters above U+007F are taken to be printable (Rust also escapes the
    unassigned, private-use and combining ones). *)
Definition hex_digit (d : Z) : char := if d <? 10 then 48 + d else 87 + d.
Definition unicode_escape (c : char) : str :=
  lit "\u{" ++ (if c <? 16 then [hex_digit c] else [hex_digit (c / 16); hex_digit (c mod 16)]) ++ lit "}".
Definition debug_char_in (quote c : char) : str :=
  if c =? NUL then lit "\0"
  else if c =? TAB then lit "\t"
  else if c =? CR then lit "\r"
  else if c =? NL then lit "\n"
  else if (c =? BSL) || (c =? quote) then [BSL; c]
  else if is_control c then unicode_escape c
  else [c].
Definition debug_str (s : str) : str := [DQ] ++ flat_map (debug_char_in DQ) s ++ [DQ].
Definition debug_char (c : char) : str := [SQ] ++ debug_char_in SQ c ++ [SQ].

#[global] Arguments starts_with : simpl never.
#[global] Arguments strip_prefix : simpl never.
#[global] Arguments strip_suffix : simpl never.
#[global] Arguments ends_with : simpl never.
#[global] Arguments contains : simpl never.
#[global] Arguments contains_char : simpl never.
#[global] Arguments str_len : simpl never.

(** ** Lines *)

Lemma lines_raw_line l r : NL ∉ l -> lines_raw (l ++ NL :: r) = (l, true) :: lines_raw r.
Proof.
  induction l as [|x l IH]; [done|]. rewrite not_elem_of_cons. intros [Hx Hl]. cbn [app lines_raw].
  destruct (x =? NL) eqn:E; bool_hyps; [congruence|]. by rewrite IH.
Qed.

Lemma strip_cr_id l : (forall a, l <> a ++ [CR]) -> strip_cr l = l.
Proof.
  intros H. unfold strip_cr. destruct (strip_suffix [CR] l) as [a|] eqn:E; [|done].
  apply strip_suffix_Some in E. by destruct (H a).
Qed.

Lemma str_lines_line l r :
  NL ∉ l -> (forall a, l <> a ++ [CR]) -> str_lines (l ++ NL :: r) = l :: str_lines r.
Proof.
  intros H1 H2. unfold str_lines. rewrite lines_raw_line by done. cbn [fmap list_fmap].
  by rewrite strip_cr_id.
Qed.

Lemma show_digits_Forall fuel n acc :
  0 <= n -> Forall (fun c => is_ascii_digit c = true) acc ->
  Forall (fun c => is_ascii_digit c = true) (show_digits fuel n acc).
Proof.
  revert n acc; induction fuel as [|f IH]; intros n acc Hn Ha; [done|]. cbn [show_digits].
  pose proof (Z.mod_pos_bound n 10).
  assert (is_ascii_digit (48 + n mod 10) = true).
  { unfold is_ascii_digit. apply andb_true_iff; split; apply Z.leb_le; lia. }
  destruct (n <? 10); [by constructor|]. apply IH; [apply Z.div_pos; lia|by constructor].
Qed.

Lemma show_uint_digits n : 0 <= n -> Forall (fun c => is_ascii_digit c = true) (show_uint n).
Proof. intros H. apply show_digits_Forall; [done|constructor]. Qed.

(** ** Parts of a list: Rust's [l[start..stop]] *)
Definition slice {A} (start stop : nat) (l : list A) : list A := take (stop - start) (drop start l).

Lemma slice_app {A} (a b c : list A) : slice (length a) (length a + length b) (a ++ b ++ c) = b.
Proof.
  unfold slice. rewrite drop_app_length. replace (length a + length b - length a)%nat with (length b) by lia.
  apply take_app_length.
Qed.
