(* ===== verification/Trace.v ===== *)
(** * Traced computations

    A computation that records what it does to the outside world, and a logic
    for it: [obeys] says that the recorded events are a run of an automaton
    and relates the answer to the automaton's last state. *)
From stdpp Require Import base list.
From S2P Require Import Prelude.

(** A computation with the events so far. *)
Definition traced (E A : Type) : Type := list E -> A * list E.
Definition tret {E A} (a : A) : traced E A := fun t => (a, t).
Definition tbind {E A B} (m : traced E A) (k : A -> traced E B) : traced E B := fun t => let '(a, t) := m t in k a t.
Definition act {E} (a : E) : traced E unit := fun t => (tt, t ++ [a]).
Notation "'let!' x := m 'in' k" := (tbind m (fun x => k))
  (at level 200, x binder, m at level 100, k at level 200, only parsing).

Section automaton.
Context {E S : Type} (step : S -> E -> option S).

Fixpoint run (s : S) (t : list E) : option S :=
  match t with [] => Some s | e :: t => s' ← step s e; run s' t end.

Lemma run_app s t u : run s (t ++ u) = s' ← run s t; run s' u.
Proof. revert s. induction t as [|e t IH]; intros s; [done|]. cbn. by destruct (step s e); cbn. Qed.

(** From state [s] the events of [m] are a run to a state that [Q] relates to the answer. *)
Definition obeys {A} (s : S) (m : traced E A) (Q : A -> S -> Prop) : Prop :=
  forall t, exists a u s', m t = (a, t ++ u) /\ run s u = Some s' /\ Q a s'.

Lemma obeys_ret {A} s (a : A) (Q : A -> S -> Prop) : Q a s -> obeys s (tret a) Q.
Proof. intros H t. exists a, [], s. by rewrite app_nil_r. Qed.

Lemma obeys_bind {A B} s (m : traced E A) (k : A -> traced E B) (Q : B -> S -> Prop) :
  obeys s m (fun a s' => obeys s' (k a) Q) -> obeys s (tbind m k) Q.
Proof.
  intros H t. destruct (H t) as (a & u & s1 & Hm & Hr & Hk).
  destruct (Hk (t ++ u)) as (b & v & s2 & Hm' & Hr' & HQ).
  exists b, (u ++ v), s2. unfold tbind. rewrite Hm, Hm', <- app_assoc, run_app, Hr. done.
Qed.

Lemma obeys_act {A} s s' (e : E) (k : traced E A) (Q : A -> S -> Prop) :
  step s e = Some s' -> obeys s' k Q -> obeys s (tbind (act e) (fun _ => k)) Q.
Proof.
  intros Hs H. apply obeys_bind. intros t. exists tt, [e], s'. cbn. by rewrite Hs.
Qed.

Lemma obeys_last s s' (e : E) (Q : unit -> S -> Prop) : step s e = Some s' -> Q tt s' -> obeys s (act e) Q.
Proof. intros Hs H t. exists tt, [e], s'. cbn. by rewrite Hs. Qed.

Lemma obeys_mono {A} s (m : traced E A) (P Q : A -> S -> Prop) :
  obeys s m P -> (forall a s', P a s' -> Q a s') -> obeys s m Q.
Proof. intros H HPQ t. destruct (H t) as (a & u & s' & ? & ? & ?). exists a, u, s'. eauto. Qed.
End automaton.
