(* ===== verification/Errors.v ===== *)
(** * Errors

    [SshMcpError] of src/error.rs with its [Display], and the protocol errors
    of the tool handlers. An [std::io::Error] is represented by the text it
    displays. *)
From Stdlib Require Import ZArith String.
From stdpp Require Import base list gmap.
From S2P Require Import Prelude.

Inductive SshMcpError : Type :=
  | Connection (msg : str)
  | Authentication (msg : str)
  | Timeout (ms : Z)
  | InvalidParams (msg : str)
  | ElevationFailed (msg : str)
  | ConfigError (msg : str)
  | Io (msg : str)
  | SshKey (msg : str).

#[global] Instance SshMcpError_eq_dec : EqDecision SshMcpError.
Proof. solve_decision. Defined.

Definition error_display (e : SshMcpError) : str :=
  match e with
  | Connection m => lit "SSH connection error: " ++ m
  | Authentication m => lit "Authentication failed: " ++ m
  | Timeout ms => lit "Command timeout after " ++ show_uint ms ++ lit "ms"
  | InvalidParams m => lit "Invalid parameters: " ++ m
  | ElevationFailed m => lit "Elevation failed: " ++ m
  | ConfigError m => lit "Configuration error: " ++ m
  | Io m => lit "IO error: " ++ m
  | SshKey m => lit "SSH key error: " ++ m
  end.

(** [BackgroundError] (src/background/mod.rs); a [SystemTimeError] is never
    produced by the modelled code. *)
Inductive BackgroundError : Type :=
  | BgIo (msg : str)
  | InvalidJobId (job_id : str)
  | JobNotFound (job_id : str)
  | InvalidState (message : str)
  | BgTime (msg : str).

#[global] Instance BackgroundError_eq_dec : EqDecision BackgroundError.
Proof. solve_decision. Defined.

Definition background_error_display (e : BackgroundError) : str :=
  match e with
  | BgIo m => lit "io error: " ++ m
  | InvalidJobId id => lit "invalid job id: " ++ id
  | JobNotFound id => lit "job not found: " ++ id
  | InvalidState m => lit "invalid job state: " ++ m
  | BgTime m => lit "time error: " ++ m
  end.
