(* ===== verification/Paths.v ===== *)
(** * Paths

    The part of [std::path] (Unix) the program uses: components, absolute
    paths, parent, file name, extension and join, over strings. Two paths are
    equal in Rust when their components are. *)
From Stdlib Require Import ZArith String.
From stdpp Require Import base list gmap.
From S2P Require Import Prelude.

Inductive component : Type :=
  | RootDir
  | CurDir
  | ParentDir
  | Normal (name : str).

#[global] Instance component_eq_dec : EqDecision component.
Proof. solve_decision. Defined.

Definition is_absolute (p : str) : bool := starts_with [SLASH] p.

Definition body_component (piece : str) : option component :=
  if str_eqb piece [] then None
  else if str_eqb piece (lit ".") then None
  else if str_eqb piece (lit "..") then Some ParentDir
  else Some (Normal piece).

(** [Path::components]: empty pieces and interior [.] are skipped; a leading
    [.] of a relative path is kept. *)
Definition components (p : str) : list component :=
  let pieces := split_char SLASH p in
  if is_absolute p then RootDir :: omap body_component pieces
  else match pieces with
       | first :: rest =>
           (if str_eqb first (lit ".") then [CurDir] else option_list (body_component first))
             ++ omap body_component rest
       | [] => []
       end.

(** [Path::parent], as components: every component but the last, none for the
    root and for the empty path. *)
Definition parent_components (p : str) : option (list component) :=
  match rev (components p) with
  | [] => None
  | RootDir :: _ => None
  | _ :: r => Some (rev r)
  end.

Definition file_name (p : str) : option str :=
  match rev (components p) with
  | Normal n :: _ => Some n
  | _ => None
  end.

(** The last dot splits a file name into stem and extension, unless nothing
    precedes it. *)
Definition split_last_dot (n : str) : option (str * str) :=
  match split_once_char 46 (rev n) with
  | Some (ext, stem) => Some (rev stem, rev ext)
  | None => None
  end.

Definition extension (p : str) : option str :=
  n ← file_name p;
  '(stem, ext) ← split_last_dot n;
  if str_eqb stem [] then None else Some ext.

Definition path_join (base rel : str) : str :=
  if is_absolute rel then rel
  else if str_eqb base [] then rel
  else if ends_with [SLASH] base then base ++ rel
  else base ++ [SLASH] ++ rel.

(** A name that is one ordinary path component. *)
Definition plain_name (n : str) : Prop :=
  n <> [] /\ n <> lit "." /\ n <> lit ".." /\ SLASH ∉ n.

(** ** Lemmas *)

Lemma body_component_Normal x n : body_component x = Some (Normal n) -> x = n /\ n <> [] /\ n <> lit "." /\ n <> lit "..".
Proof.
  unfold body_component, str_eqb. repeat case_bool_decide; intros; simplify_eq; done.
Qed.

Lemma body_component_kind x c : body_component x = Some c -> c = ParentDir \/ c = Normal x.
Proof. unfold body_component. repeat case_match; intros; simplify_eq; auto. Qed.

Lemma body_component_plain n : plain_name n -> body_component n = Some (Normal n).
Proof.
  intros (H1 & H2 & H3 & _). unfold body_component, str_eqb.
  by rewrite !bool_decide_eq_false_2.
Qed.

Lemma components_Normal_plain p n : Normal n ∈ components p -> plain_name n.
Proof.
  assert (Hb : forall x, SLASH ∉ x -> body_component x = Some (Normal n) -> plain_name n).
  { intros x Hx H. apply body_component_Normal in H as (-> & ? & ? & ?). by repeat split. }
  assert (Hp : forall q, q ∈ split_char SLASH p -> SLASH ∉ q) by (intros; by eapply split_char_no_sep).
  unfold components. destruct (is_absolute p).
  - rewrite elem_of_cons. intros [?|H]; [done|]. apply list_elem_of_omap in H as (x & Hx & E). eauto.
  - destruct (split_char SLASH p) as [|f r]; [by rewrite elem_of_nil|].
    rewrite elem_of_app. intros [H|H].
    + destruct (str_eqb f (lit ".")); [by apply list_elem_of_singleton in H|].
      destruct (body_component f) eqn:E; simpl in H; [|by apply elem_of_nil in H].
      apply list_elem_of_singleton in H as <-. apply (Hb f); [|done]. apply Hp. by left.
    + apply list_elem_of_omap in H as (x & Hx & E). apply (Hb x); [|done]. apply Hp. by right.
Qed.

Lemma components_absolute p : is_absolute p = true -> exists r, components p = RootDir :: r /\ CurDir ∉ r /\ RootDir ∉ r.
Proof.
  intros H. unfold components. rewrite H. eexists; split_and!; [done| |];
    intros [x [_ [?|?]%body_component_kind]]%list_elem_of_omap; congruence.
Qed.

Lemma components_root_absolute p : RootDir ∈ components p -> is_absolute p = true.
Proof.
  unfold components. destruct (is_absolute p); [done|].
  assert (Hb : forall x, body_component x <> Some RootDir)
    by (intros x [?|?]%body_component_kind; congruence).
  destruct (split_char SLASH p) as [|f r]; [by rewrite elem_of_nil|].
  rewrite elem_of_app. intros [H|[x [_ E]]%list_elem_of_omap]; [|by destruct (Hb x)].
  destruct (str_eqb f (lit ".")); [by apply list_elem_of_singleton in H|].
  destruct (body_component f) eqn:E; simpl in H; [|by apply elem_of_nil in H].
  apply list_elem_of_singleton in H. subst. by destruct (Hb f).
Qed.

Lemma split_char_suffix c a b :
  exists l p q, split_char c (a ++ c :: b) = l ++ [p] ++ split_char c b /\ split_char c a = l ++ [p] /\ q = p.
Proof.
  induction a as [|x a (l & p & q & E1 & E2 & ->)]; simpl.
  - rewrite Z.eqb_refl. by exists [], [], [].
  - destruct (x =? c) eqn:E.
    + exists ([] :: l), p, p. by rewrite E1, E2.
    + rewrite E1, E2. destruct l as [|y l]; simpl; [by exists [], (x :: p), (x :: p)|].
      by exists ((x :: y) :: l), p, p.
Qed.

Lemma split_char_cat c a b : split_char c (a ++ c :: b) = split_char c a ++ split_char c b.
Proof. destruct (split_char_suffix c a b) as (l & p & q & -> & -> & _). by rewrite <- app_assoc. Qed.

(** Appending a plain name to an absolute directory adds one component. *)
Lemma components_join_plain base n :
  is_absolute base = true -> plain_name n ->
  components (path_join base n) = components base ++ [Normal n].
Proof.
  intros Hb Hn. pose proof Hn as (H1 & _ & _ & H4).
  assert (Hrel : is_absolute n = false).
  { apply not_true_iff_false. intros [r ->]%starts_with_spec. apply H4. by left. }
  assert (Hcat : components (base ++ SLASH :: n) = components base ++ [Normal n]).
  { unfold components. rewrite Hb.
    assert (is_absolute (base ++ SLASH :: n) = true) as ->.
    { apply starts_with_spec in Hb as [r ->]. apply starts_with_spec. by eexists. }
    rewrite split_char_cat, (split_char_id SLASH n) by done.
    rewrite omap_app. simpl. by rewrite body_component_plain. }
  unfold path_join. rewrite Hrel.
  destruct (str_eqb base []) eqn:E; [apply str_eqb_spec in E as ->; done|].
  destruct (ends_with [SLASH] base) eqn:F; [|exact Hcat].
  apply ends_with_spec in F as [r ->]. rewrite <- app_assoc.
  change ([SLASH] ++ n) with (SLASH :: n).
  unfold components. rewrite Hb.
  assert (is_absolute (r ++ SLASH :: n) = true) as ->.
  { destruct r as [|c r]; [done|]. exact Hb. }
  rewrite split_char_cat, (split_char_id SLASH n) by done.
  rewrite split_char_cat. cbn [split_char]. rewrite !omap_app. simpl.
  by rewrite body_component_plain, app_nil_r.
Qed.

Lemma parent_components_Some p d n :
  parent_components p = Some d -> file_name p = Some n -> components p = d ++ [Normal n].
Proof.
  unfold parent_components, file_name.
  destruct (rev (components p)) as [|[]] eqn:E; intros; simplify_eq.
  apply (f_equal (@rev component)) in E. by rewrite rev_involutive in E.
Qed.

Lemma split_once_char_Some c s a b : split_once_char c s = Some (a, b) <-> s = a ++ c :: b /\ c ∉ a.
Proof.
  revert a; induction s as [|x s IH]; intros a; simpl.
  - split; [done|]. intros [H _]. by destruct a.
  - destruct (x =? c) eqn:E; bool_hyps; subst.
    + split; [intros [= <- <-]; split; [done|by apply not_elem_of_nil]|].
      intros [H Ha]. destruct a as [|y a]; simpl in H; simplify_eq; [done|].
      destruct Ha. by left.
    + destruct (split_once_char c s) as [[a' b']|]; split.
      * intros [= <- <-]. destruct (proj1 (IH a') eq_refl) as [-> ?].
        split; [done|]. apply not_elem_of_cons. split; [congruence|done].
      * intros [H Ha]. destruct a as [|y a]; simpl in H; simplify_eq.
        apply not_elem_of_cons in Ha as [_ Ha].
        assert (Some (a', b') = Some (a, b)) as [= -> ->] by (by apply IH). done.
      * done.
      * intros [H Ha]. destruct a as [|y a]; simpl in H; simplify_eq.
        apply not_elem_of_cons in Ha as [_ Ha]. assert (None = Some (a, b)) by (by apply IH). done.
Qed.

Lemma extension_file_name p e :
  extension p = Some e -> exists n stem, file_name p = Some n /\ n = stem ++ [46] ++ e /\ stem <> [] /\ 46 ∉ e.
Proof.
  unfold extension, split_last_dot. destruct (file_name p) as [n|] eqn:En; simpl; [|done].
  destruct (split_once_char 46 (rev n)) as [[x y]|] eqn:E; simpl; [|done].
  unfold str_eqb. case_bool_decide; [done|]. intros [= <-].
  apply split_once_char_Some in E as [E Hx]. exists n, (rev y). split_and!; try done.
  - apply (f_equal (@rev Z)) in E. rewrite rev_involutive, rev_app_distr in E. simpl in E.
    by rewrite <- app_assoc in E.
  - by rewrite list_elem_of_In, <- in_rev, <- list_elem_of_In.
Qed.

Lemma split_last_dot_app stem e : 46 ∉ e -> split_last_dot (stem ++ 46 :: e) = Some (stem, e).
Proof.
  intros H. unfold split_last_dot.
  assert (split_once_char 46 (rev (stem ++ 46 :: e)) = Some (rev e, rev stem)) as ->.
  { apply split_once_char_Some. split.
    - rewrite rev_app_distr. simpl. by rewrite <- app_assoc.
    - by rewrite list_elem_of_In, <- in_rev, <- list_elem_of_In. }
  by rewrite !rev_involutive.
Qed.
