(* ===== verification/Shell.v ===== *)
(** * Shell text

    The command strings the server builds: src/shell_escape.rs,
    src/ssh/sanitize.rs, src/ssh/elevation.rs, src/background/wrapper.rs and
    the timeout wrapper of src/ssh/command.rs. The POSIX shell itself is not
    code of this repository: [ShellQuoting] states its quoting rules
    (POSIX.1-2017, XCU 2.2), and [posix_lexer] is an executable reader that
    satisfies them; [ShellExpansion] and [posix_expander] add the parameters,
    assignments and command lists that the background wrapper needs. *)
From Stdlib Require Import ZArith String.
From stdpp Require Import base list gmap.
From S2P Require Import Prelude Errors Paths.

(** ** src/shell_escape.rs *)

Definition escape_for_shell (s : str) : str := replace_char SQ [SQ; DQ; SQ; DQ; SQ] s.

(** ** src/ssh/sanitize.rs *)

Definition sanitize_command (command : str) (max_chars : option Z) : result str SshMcpError :=
  let trimmed := trim command in
  if str_eqb trimmed [] then Err (InvalidParams (lit "Command cannot be empty"))
  else match max_chars with
       | Some max =>
           if max <? str_len trimmed then
             Err (InvalidParams (lit "Command is too long (max " ++ show_uint max ++
                    lit " characters, got " ++ show_uint (str_len trimmed) ++ lit ")"))
           else Ok trimmed
       | None => Ok trimmed
       end.

Definition escape_with_backslash (c : char) (s : str) : str := replace_char c [BSL; c] s.

Definition escape_command_for_shell (command : str) : str :=
  escape_for_shell
    (escape_with_backslash 124
      (escape_with_backslash 41
        (escape_with_backslash 40
          (escape_with_backslash 96
            (escape_with_backslash 36
              (escape_with_backslash BSL command)))))).

Definition escape_for_timeout_wrapper (command : str) : str := escape_for_shell command.

Definition wrap_in_posix_shell (command : str) (login : bool) : str :=
  let escaped := escape_for_timeout_wrapper command in
  if login then lit "sh -lc '" ++ escaped ++ [SQ]
  else lit "sh -c '" ++ escaped ++ [SQ].

(** ** src/ssh/elevation.rs *)

Definition wrap_sudo_command (command : str) (password : option str) : str :=
  let escaped_command := escape_for_shell command in
  match password with
  | None => lit "sudo -n sh -c '" ++ escaped_command ++ [SQ]
  | Some pwd =>
      let escaped_pwd := escape_for_shell pwd in
      lit "printf '%s\n' '" ++ escaped_pwd ++ lit "' | sudo -S -p '' sh -c '"
        ++ escaped_command ++ [SQ]
  end.

Definition is_valid_password (password : str) : bool :=
  negb (str_eqb (trim password) []) && negb (contains_char NUL password).

Definition sanitize_password (password : option str) : option str :=
  p ← trim <$> password;
  if str_eqb p [] then None else Some p.

(** ** src/background/wrapper.rs *)

Definition remote_job_log_path (job_id : str) : str :=
  lit "/tmp/.ssh-mcp-job-" ++ job_id ++ lit ".log".

(** The script up to the final [exec]; the line feeds inside the [printf]
    formats are real line feeds, as in the source's string literal. *)
Definition wrapper_marker_part (job_id log_path : str) : str :=
  lit "LOG='" ++ escape_for_shell log_path ++ lit "'; " ++
  lit "printf '%s" ++ [NL; SQ; 32; DQ] ++ lit "__SSH_MCP_JOB_ID=" ++ job_id ++ [DQ] ++ lit "; " ++
  lit "printf '%s" ++ [NL; SQ; 32; DQ] ++ lit "__SSH_MCP_PID=$$" ++ [DQ] ++ lit "; " ++
  lit "printf '%s" ++ [NL; SQ; 32; DQ] ++ lit "__SSH_MCP_LOG=$LOG" ++ [DQ] ++ lit "; ".

Definition build_background_wrapper_script (job_id user_command log_path : str) : str :=
  wrapper_marker_part job_id log_path ++
  lit "exec sh -c 'set +m; " ++ escape_for_shell user_command ++ [SQ].

(** ** src/ssh/command.rs: the timeout wrapper

    [duration_secs] is the text Rust displays for the [f64] of seconds. *)
Definition TIMEOUT_KILL_AFTER_SECS : Z := 2.

Definition wrap_command_with_timeout (command duration_secs : str) : str :=
  lit "timeout -k " ++ show_uint TIMEOUT_KILL_AFTER_SECS ++ lit "s " ++ duration_secs ++
  lit "s sh -lc '" ++ escape_for_timeout_wrapper command ++ [SQ].

Definition wrap_command_for_channel_exec (command : str) : str := wrap_in_posix_shell command false.

(** The duration is a number of nanoseconds; [as_secs_f64] of a [Duration] is
    finite and is positive exactly when the duration is not zero. *)
Definition validate_timeout_duration (nanos : Z) : result Z SshMcpError :=
  if nanos <=? 0 then Err (InvalidParams (lit "duration must be finite and > 0")) else Ok nanos.

(** ** The shell's quoting rules *)

(** Characters that end an unquoted word. *)
Definition word_end_char (c : char) : bool :=
  existsb (Z.eqb c) [32; 9; 10; 124; 59; 38; 60; 62; 40; 41].
Definition at_word_end (s : str) : bool :=
  match s with [] => true | c :: _ => word_end_char c end.

(** Characters with no special meaning anywhere in an unquoted word. *)
Definition bare_char (c : char) : bool :=
  is_ascii_alnum c || existsb (Z.eqb c) [45; 95; 47; 46; 37; 43; 58; 44; 64].

(** Characters that stand for themselves between double quotes. *)
Definition dq_char (c : char) : bool :=
  negb (existsb (Z.eqb c) [DQ; 36; 96; BSL]).

(** [word s v r]: reading one shell word at the head of [s] yields the value
    [v] and leaves [r]. *)
Class ShellQuoting (word : str -> str -> str -> Prop) : Prop := {
  word_stop s : at_word_end s = true -> word s [] s;
  word_bare c s v r : bare_char c = true -> word s v r -> word (c :: s) (c :: v) r;
  word_squote t s v r : SQ ∉ t -> word s v r -> word (SQ :: t ++ SQ :: s) (t ++ v) r;
  word_dquote t s v r :
    forallb dq_char t = true -> word s v r -> word (DQ :: t ++ DQ :: s) (t ++ v) r;
  word_fun s v r v' r' : word s v r -> word s v' r' -> v = v' /\ r = r'
}.

(** The end of a simple command: the end of the text, a pipe or a semicolon. *)
Definition at_command_end (s : str) : bool :=
  match s with [] => true | c :: _ => (c =? 124) || (c =? 59) end.

(** [argv word s ws r]: [s] starts with a simple command of words [ws]. *)
Inductive argv (word : str -> str -> str -> Prop) : str -> list str -> str -> Prop :=
  | argv_end s : at_command_end s = true -> argv word s [] s
  | argv_blank s ws r : argv word s ws r -> argv word (32 :: s) ws r
  | argv_word s v r ws r' :
      at_word_end s = false -> word s v r -> at_word_end r = true ->
      argv word r ws r' -> argv word s (v :: ws) r'.

(** ** An executable reader of the quoting rules *)

Inductive lex_mode : Type := Bare | InSingle | InDouble.

Fixpoint lex_word (m : lex_mode) (s : str) : option (str * str) :=
  match s with
  | [] => match m with Bare => Some ([], []) | _ => None end
  | c :: s' =>
      let keep m' := '(v, r) ← lex_word m' s'; Some (c :: v, r) in
      match m with
      | Bare =>
          if c =? SQ then lex_word InSingle s'
          else if c =? DQ then lex_word InDouble s'
          else if word_end_char c then Some ([], s)
          else if bare_char c then keep Bare else None
      | InSingle => if c =? SQ then lex_word Bare s' else keep InSingle
      | InDouble =>
          if c =? DQ then lex_word Bare s' else if dq_char c then keep InDouble else None
      end
  end.

Definition posix_lexer (s v r : str) : Prop := lex_word Bare s = Some (v, r).

Lemma lex_single t s v r :
  SQ ∉ t -> lex_word Bare s = Some (v, r) -> lex_word InSingle (t ++ SQ :: s) = Some (t ++ v, r).
Proof.
  intros Ht Hs. induction t as [|c t IH]; [exact Hs|].
  apply not_elem_of_cons in Ht as [Hc Ht]. cbn [lex_word app].
  destruct (c =? SQ) eqn:E; [bool_hyps; congruence|]. by rewrite (IH Ht).
Qed.

Lemma lex_double t s v r :
  forallb dq_char t = true -> lex_word Bare s = Some (v, r) ->
  lex_word InDouble (t ++ DQ :: s) = Some (t ++ v, r).
Proof.
  intros Ht Hs. induction t as [|c t IH]; [exact Hs|].
  cbn [forallb] in Ht. apply andb_true_iff in Ht as [Hc Ht]. cbn [lex_word app].
  rewrite Hc. destruct (c =? DQ) eqn:E; [|by rewrite (IH Ht)].
  bool_hyps. subst. done.
Qed.

Lemma bare_char_ordinary c :
  bare_char c = true -> (c =? SQ) = false /\ (c =? DQ) = false /\ word_end_char c = false.
Proof.
  unfold bare_char, is_ascii_alnum, is_ascii_alpha, is_ascii_lower, is_ascii_upper, is_ascii_digit,
    word_end_char, SQ, DQ. cbn [existsb].
  rewrite !orb_true_iff, !andb_true_iff, !Z.leb_le, !Z.eqb_eq, !orb_false_iff, !Z.eqb_neq.
  intuition (try done; lia).
Qed.

#[export] Instance posix_lexer_quoting : ShellQuoting posix_lexer.
Proof.
  unfold posix_lexer. split.
  - intros [|c s]; [done|]. cbn [at_word_end lex_word]. intros H.
    assert ((c =? SQ) = false /\ (c =? DQ) = false) as [-> ->].
    { unfold word_end_char in H. cbn [existsb] in H. unfold SQ, DQ.
      rewrite !Z.eqb_neq. rewrite !orb_true_iff, !Z.eqb_eq in H. split; intuition (try done; lia). }
    by rewrite H.
  - intros c s v r Hc Hs. destruct (bare_char_ordinary c Hc) as (E1 & E2 & E3).
    cbn [lex_word]. by rewrite E1, E2, E3, Hc, Hs.
  - intros t s v r Ht Hs. cbn [lex_word]. rewrite Z.eqb_refl. by apply lex_single.
  - intros t s v r Ht Hs. cbn [lex_word]. by apply lex_double.
  - intros; simplify_eq. done.
Qed.

(** ** Quoting lemmas *)

Lemma escape_no_quote s : SQ ∉ s -> escape_for_shell s = s.
Proof. apply replace_char_id. Qed.

Lemma escape_at_quote t s :
  SQ ∉ t ->
  escape_for_shell (t ++ SQ :: s) = t ++ SQ :: DQ :: [SQ] ++ DQ :: SQ :: escape_for_shell s.
Proof.
  intros Ht. unfold escape_for_shell. rewrite replace_char_app, replace_char_id by done. done.
Qed.

Lemma split_at_char c (s : str) : c ∉ s \/ exists t r, s = t ++ c :: r /\ c ∉ t.
Proof.
  destruct (decide (c ∈ s)) as [H|H]; [right|by left].
  by apply list_elem_of_split_l in H as (t & r & -> & ?); exists t, r.
Qed.

Section Quoting.
Context `{Q : ShellQuoting word}.

(** An escaped string between single quotes is read back as itself. *)
Lemma quoted_word s rest v r :
  word rest v r -> word (SQ :: escape_for_shell s ++ SQ :: rest) (s ++ v) r.
Proof.
  intros Hr. remember (length s) as n eqn:Hn. revert s Hn.
  induction n as [n IH] using lt_wf_ind. intros s ->.
  destruct (split_at_char SQ s) as [Hs|(t & u & -> & Ht)].
  - rewrite escape_no_quote by done. by apply word_squote.
  - rewrite escape_at_quote by done.
    replace ((t ++ SQ :: u) ++ v) with (t ++ [SQ] ++ (u ++ v)) by (by rewrite <- app_assoc).
    replace (SQ :: (t ++ SQ :: DQ :: [SQ] ++ DQ :: SQ :: escape_for_shell u) ++ SQ :: rest)
      with (SQ :: t ++ SQ :: DQ :: [SQ] ++ DQ :: SQ :: escape_for_shell u ++ SQ :: rest)
      by (rewrite <- app_assoc; done).
    apply word_squote; [done|]. apply word_dquote; [done|].
    apply (IH (length u)); [|done]. rewrite length_app. simpl. lia.
Qed.

Lemma quoted_word_end s rest :
  at_word_end rest = true -> word (SQ :: escape_for_shell s ++ SQ :: rest) s rest.
Proof.
  intros H. rewrite <- (app_nil_r s) at 2. by apply quoted_word, word_stop.
Qed.

Lemma bare_word t rest :
  forallb bare_char t = true -> at_word_end rest = true -> word (t ++ rest) t rest.
Proof.
  intros Ht Hr. induction t as [|c t IH]; [by apply word_stop|].
  cbn [forallb] in Ht. apply andb_true_iff in Ht as [Hc Ht]. apply word_bare; auto.
Qed.

Lemma argv_quoted s rest ws r :
  at_word_end rest = true -> argv word rest ws r ->
  argv word (SQ :: escape_for_shell s ++ SQ :: rest) (s :: ws) r.
Proof. intros H1 H2. eapply argv_word; eauto using quoted_word_end. Qed.

Lemma argv_bare t rest ws r :
  forallb bare_char t = true -> t <> [] -> at_word_end rest = true -> argv word rest ws r ->
  argv word (t ++ rest) (t :: ws) r.
Proof.
  intros Ht Hne H1 H2. eapply argv_word; eauto using bare_word.
  destruct t as [|c t]; [done|]. cbn [forallb] in Ht. apply andb_true_iff in Ht as [Hc _].
  by apply bare_char_ordinary in Hc as (_ & _ & ?).
Qed.

(** A command text has one reading only. *)
Lemma argv_fun s ws r ws' r' : argv word s ws r -> argv word s ws' r' -> ws = ws' /\ r = r'.
Proof.
  intros H. revert ws' r'.
  assert (Hend : forall s, at_command_end s = true -> at_word_end s = false -> False).
  { intros [|c s0] E F; [done|]. simpl in E, F. apply orb_true_iff in E as [E|E]; bool_hyps; by subst. }
  induction H as [s E|s ws r H IH|s v r ws r1 E1 Hw E2 H IH]; intros ws' r' H'.
  - inversion H'; subst; try done. exfalso; eauto.
  - inversion H'; subst; eauto; done.
  - inversion H' as [? E|? ? ? ?|? v2 r2 ? ? ? Hw2 ? H2]; subst; try done; [exfalso; eauto|].
    destruct (word_fun _ _ _ _ _ Hw Hw2) as [-> ->].
    by destruct (IH _ _ H2) as [-> ->].
Qed.
End Quoting.

Section Wrappers.
Context `{Q : ShellQuoting word}.

Lemma argv_space t rest ws r :
  forallb bare_char t = true -> t <> [] -> argv word rest ws r ->
  argv word (t ++ 32 :: rest) (t :: ws) r.
Proof. intros. by apply argv_bare, argv_blank. Qed.

Lemma argv_squoted t rest ws r :
  SQ ∉ t -> at_word_end rest = true -> argv word rest ws r ->
  argv word (SQ :: t ++ SQ :: rest) (t :: ws) r.
Proof. intros Ht. rewrite <- (escape_no_quote t Ht) at 1. apply argv_quoted. Qed.

Lemma argv_last_quoted s : argv word (SQ :: escape_for_shell s ++ [SQ]) [s] [].
Proof. apply argv_quoted; [done|]. by apply argv_end. Qed.

(** [sh -c '...'] with an optional prefix of bare words. *)
Lemma argv_sh_c flag s :
  forallb bare_char flag = true -> flag <> [] ->
  argv word (lit "sh " ++ flag ++ lit " '" ++ escape_for_shell s ++ [SQ]) [lit "sh"; flag; s] [].
Proof.
  intros Hf Hne. apply (argv_space (lit "sh")); [done|done|].
  change (lit " '" ++ escape_for_shell s ++ [SQ]) with (32 :: SQ :: escape_for_shell s ++ [SQ]).
  apply argv_space; [done..|]. apply argv_last_quoted.
Qed.
End Wrappers.

(** C9. Privilege elevation cannot be subverted by quoting. Under the POSIX
    quoting rules, the text [wrap_sudo_command] builds is exactly
    [sudo -n sh -c COMMAND] with the command as one argument, whatever
    characters it has; with a password it is the pipeline of
    [printf '%s\n' PASSWORD] and [sudo -S -p "" sh -c COMMAND], each string
    one argument, and neither can end its argument early. *)
Theorem wrap_sudo_command_argv word (Q : ShellQuoting word) (command : str) (password : option str) :
  match password with
  | None =>
      argv word (wrap_sudo_command command None)
        [lit "sudo"; lit "-n"; lit "sh"; lit "-c"; command] []
  | Some pwd =>
      exists rest,
        argv word (wrap_sudo_command command (Some pwd)) [lit "printf"; lit "%s\n"; pwd] (124 :: rest) /\
        argv word rest [lit "sudo"; lit "-S"; lit "-p"; []; lit "sh"; lit "-c"; command] []
  end.
Proof.
  destruct password as [pwd|]; simpl wrap_sudo_command.
  - exists (lit " sudo -S -p '' sh -c '" ++ escape_for_shell command ++ [SQ]). split.
    + apply (argv_space (lit "printf")); [done..|].
      apply (argv_squoted (lit "%s\n")); [by apply contains_char_false|done|].
      apply argv_blank.
      change (39 :: ?x ++ lit "' | sudo -S -p '' sh -c '" ++ ?y)
        with (SQ :: x ++ SQ :: 32 :: 124 :: lit " sudo -S -p '' sh -c '" ++ y).
      apply argv_quoted; [done|]. by apply argv_blank, argv_end.
    + apply argv_blank, (argv_space (lit "sudo")), (argv_space (lit "-S")),
        (argv_space (lit "-p")); try done.
      apply (argv_squoted []); [by apply not_elem_of_nil|done|].
      by apply argv_blank, (argv_sh_c (lit "-c")).
  - apply (argv_space (lit "sudo")), (argv_space (lit "-n")); try done.
    by apply (argv_sh_c (lit "-c")).
Qed.

Lemma wrap_sudo_command_argv_witness :
  exists rest,
    argv posix_lexer (wrap_sudo_command (lit "echo 'a'; id") (Some (lit "p'w")))
      [lit "printf"; lit "%s\n"; lit "p'w"] (124 :: rest) /\
    argv posix_lexer rest
      [lit "sudo"; lit "-S"; lit "-p"; []; lit "sh"; lit "-c"; lit "echo 'a'; id"] [].
Proof.
  exact (wrap_sudo_command_argv posix_lexer posix_lexer_quoting (lit "echo 'a'; id") (Some (lit "p'w"))).
Defined.

(** ** Parameters and lists of commands

    The part of the shell that the background wrapper needs beyond quoting:
    parameters between double quotes (XCU 2.6.2), assignments (XCU 2.9.1) and
    commands separated by semicolons (XCU 2.9.3). *)

Definition name_start (c : char) : bool := is_ascii_alpha c || (c =? 95).
Definition name_char (c : char) : bool := is_ascii_alnum c || (c =? 95).
Definition is_name (n : str) : bool := match n with [] => false | c :: n' => name_start c && forallb name_char n' end.
Definition at_name_char (s : str) : bool := match s with [] => false | c :: _ => name_char c end.

(** The parameter [$$], the shell's process id, and the variables. *)
Definition PID_PARAMETER : str := [36].

(** [dq_text env t v]: between double quotes [t] stands for [v]. *)
Inductive dq_text (env : str -> str) : str -> str -> Prop :=
  | dq_nil : dq_text env [] []
  | dq_plain c t v : dq_char c = true -> dq_text env t v -> dq_text env (c :: t) (c :: v)
  | dq_pid t v : dq_text env t v -> dq_text env (36 :: 36 :: t) (env PID_PARAMETER ++ v)
  | dq_variable n t v : is_name n = true -> at_name_char t = false -> dq_text env t v ->
      dq_text env (36 :: n ++ t) (env n ++ v).

(** A reader of words for every value of the parameters. *)
Class ShellExpansion (word : (str -> str) -> str -> str -> str -> Prop) : Prop := {
  expansion_quoting env :: ShellQuoting (word env);
  word_dquote_text env t v' s v r : dq_text env t v' -> word env s v r -> word env (DQ :: t ++ DQ :: s) (v' ++ v) r
}.

(** The text before an equals sign, if it is a name, and what follows. *)
Definition assignment (s : str) : option (str * str) :=
  match split_once_char 61 s with
  | Some (n, r) => if is_name n then Some (n, r) else None
  | None => None
  end.

Definition at_blank (s : str) : bool := match s with [] => false | c :: _ => c =? 32 end.

Definition assign (env : str -> str) (n v : str) : str -> str := fun m => if str_eqb m n then v else env m.

(** [script word env s cmds]: [s] is a list of assignments and simple commands,
    and those commands, in their order and with their words expanded, are
    [cmds]. *)
Inductive script (word : (str -> str) -> str -> str -> str -> Prop) (env : str -> str) : str -> list (list str) -> Prop :=
  | script_blank s cmds : script word env s cmds -> script word env (32 :: s) cmds
  | script_assign s n t v r cmds :
      assignment s = Some (n, t) -> word env t v (59 :: r) -> script word (assign env n v) r cmds -> script word env s cmds
  | script_command s ws r cmds :
      assignment s = None -> at_blank s = false -> ws <> [] -> argv (word env) s ws (59 :: r) ->
      script word env r cmds -> script word env s (ws :: cmds)
  | script_last s ws :
      assignment s = None -> at_blank s = false -> ws <> [] -> argv (word env) s ws [] -> script word env s [ws].

Lemma not_name_char c n : c ∈ n -> name_char c = false -> is_name n = false.
Proof.
  intros Hin Hc. destruct n as [|d n]; [done|]. cbn [is_name]. apply not_true_iff_false. rewrite andb_true_iff, forallb_forall.
  intros [H1 H2]. apply elem_of_cons in Hin as [->|Hin%list_elem_of_In]; [|by rewrite (H2 c Hin) in Hc].
  revert H1 Hc. unfold name_start, name_char, is_ascii_alnum. by destruct (is_ascii_alpha d), (d =? 95), (is_ascii_digit d).
Qed.

Lemma no_assignment n s : 61 ∉ n -> assignment (n ++ 32 :: s) = None.
Proof.
  intros Hn. unfold assignment. destruct (split_once_char 61 (n ++ 32 :: s)) as [[a b]|] eqn:E; [|done].
  apply split_once_char_Some in E as [E Ha]. assert (Hin : 32 ∈ a).
  { apply app_eq_app in E as (l & [[-> E2]|[-> E2]]).
    - destruct l as [|c l]; [by injection E2|]. exfalso. apply Hn. injection E2 as ->.  set_solver.
    - destruct l as [|c l]; [by injection E2|]. injection E2 as -> _. set_solver. }
  by rewrite (not_name_char 32 a).
Qed.

Lemma assignment_blank s : assignment (32 :: s) = None.
Proof. apply (no_assignment [] s), not_elem_of_nil. Qed.

Lemma assignment_name n s : is_name n = true -> assignment (n ++ 61 :: s) = Some (n, s).
Proof.
  intros Hn. unfold assignment. rewrite (proj2 (split_once_char_Some 61 (n ++ 61 :: s) n s)); [by rewrite Hn|].
  split; [done|]. intros Hin. by rewrite (not_name_char 61 n) in Hn.
Qed.

(** A script has one reading only. *)
Lemma script_fun word (Q : ShellExpansion word) env s cmds :
  script word env s cmds -> forall cmds', script word env s cmds' -> cmds = cmds'.
Proof.
  induction 1 as [env s cmds H IH|env s n t v r cmds Ha Hw H IH|env s ws r cmds Ha Hb Hne Hv H IH|env s ws Ha Hb Hne Hv];
    intros cmds' H'; inversion H' as [? ? H2|? ? ? ? ? ? Ha2 Hw2 H2|? ? ? ? Ha2 Hb2 Hne2 Hv2 H2|? ? Ha2 Hb2 Hne2 Hv2]; subst;
    rewrite ?assignment_blank in *; try congruence; try done.
  - by apply IH.
  - rewrite Ha in Ha2. injection Ha2 as <- <-. destruct (word_fun _ _ _ _ _ Hw Hw2) as [<- [= <-]]. by apply IH.
  - destruct (argv_fun _ _ _ _ _ Hv Hv2) as [<- [= <-]]. f_equal. by apply IH.
  - by destruct (argv_fun _ _ _ _ _ Hv Hv2) as [_ [=]].
  - by destruct (argv_fun _ _ _ _ _ Hv Hv2) as [_ [=]].
  - by destruct (argv_fun _ _ _ _ _ Hv Hv2) as [-> _].
Qed.

(** *** An executable reader *)

Inductive exp_mode : Type := XBare | XSingle | XDouble | XDollar | XName (name : str).

Fixpoint exp_word (env : str -> str) (m : exp_mode) (s : str) : option (str * str) :=
  match s with
  | [] => match m with XBare => Some ([], []) | _ => None end
  | c :: s' =>
      let keep x m' := '(v, r) ← exp_word env m' s'; Some (x ++ v, r) in
      match m with
      | XBare =>
          if c =? SQ then exp_word env XSingle s'
          else if c =? DQ then exp_word env XDouble s'
          else if word_end_char c then Some ([], s)
          else if bare_char c then keep [c] XBare else None
      | XSingle => if c =? SQ then exp_word env XBare s' else keep [c] XSingle
      | XDouble =>
          if c =? DQ then exp_word env XBare s'
          else if c =? 36 then exp_word env XDollar s'
          else if dq_char c then keep [c] XDouble else None
      | XDollar =>
          if c =? 36 then keep (env PID_PARAMETER) XDouble
          else if name_start c then exp_word env (XName [c]) s' else None
      | XName n =>
          if name_char c then exp_word env (XName (n ++ [c])) s'
          else if c =? DQ then keep (env n) XBare
          else if c =? 36 then keep (env n) XDollar
          else if dq_char c then keep (env n ++ [c]) XDouble else None
      end
  end.

Definition posix_expander (env : str -> str) (s v r : str) : Prop := exp_word env XBare s = Some (v, r).

Lemma exp_single env t s v r :
  SQ ∉ t -> exp_word env XBare s = Some (v, r) -> exp_word env XSingle (t ++ SQ :: s) = Some (t ++ v, r).
Proof.
  intros Ht Hs. induction t as [|c t IH]; [exact Hs|]. apply not_elem_of_cons in Ht as [Hc Ht]. cbn [exp_word app].
  destruct (c =? SQ) eqn:E; [bool_hyps; congruence|]. by rewrite (IH Ht).
Qed.

Lemma dq_char_plain c : dq_char c = true -> (c =? DQ) = false /\ (c =? 36) = false.
Proof. unfold dq_char. cbn [existsb]. rewrite negb_true_iff, !orb_false_iff. tauto. Qed.

Lemma exp_name_end env n c s :
  name_char c = false -> exp_word env (XName n) (c :: s) = '(v, r) ← exp_word env XDouble (c :: s); Some (env n ++ v, r).
Proof.
  intros Hc. cbn [exp_word]. rewrite Hc. destruct (c =? DQ); [done|]. destruct (c =? 36); [done|]. destruct (dq_char c); [|done].
  destruct (exp_word env XDouble s) as [[v r]|]; [|done]. cbn. by rewrite <- app_assoc.
Qed.

Lemma exp_name env n m t : forallb name_char n = true -> exp_word env (XName m) (n ++ t) = exp_word env (XName (m ++ n)) t.
Proof.
  revert m. induction n as [|c n IH]; intros m H; [by rewrite app_nil_r|]. cbn [forallb] in H. apply andb_true_iff in H as [Hc H].
  cbn [app exp_word]. rewrite Hc, IH by done. by rewrite <- app_assoc.
Qed.

Lemma exp_double env t v' s v r :
  dq_text env t v' -> exp_word env XBare s = Some (v, r) -> exp_word env XDouble (t ++ DQ :: s) = Some (v' ++ v, r).
Proof.
  intros H Hs. induction H as [|c t v' Hc H IH|t v' H IH|n t v' Hn Ht H IH].
  - exact Hs.
  - destruct (dq_char_plain c Hc) as [E1 E2]. cbn [exp_word app]. by rewrite E1, E2, Hc, IH.
  - cbn [app exp_word]. rewrite IH. cbn. by rewrite <- app_assoc.
  - destruct n as [|c n]; [done|]. cbn [is_name] in Hn. apply andb_true_iff in Hn as [Hc Hn].
    assert (c =? 36 = false) as E by (apply not_true_iff_false; intros ->%Z.eqb_eq; done).
    rewrite <- !app_assoc. cbn [app exp_word]. rewrite <- !app_assoc. cbn [exp_word]. rewrite E, Hc, exp_name by done. cbn [app].
    assert (Hx : exists d u, t ++ DQ :: s = d :: u /\ name_char d = false) by (destruct t as [|d t]; cbn; eauto).
    destruct Hx as (d & u & Ed & Hd). rewrite Ed in *. by rewrite exp_name_end, IH.
Qed.

Lemma dq_text_plain env t : forallb dq_char t = true -> dq_text env t t.
Proof. induction t as [|c t IH]; [constructor|]. intros [Hc Ht]%andb_true_iff. by constructor; auto. Qed.

#[export] Instance posix_expander_expansion : ShellExpansion posix_expander.
Proof.
  unfold posix_expander. split; [intros env; split|].
  - intros [|c s]; [done|]. cbn [at_word_end exp_word]. intros H.
    assert ((c =? SQ) = false /\ (c =? DQ) = false) as [-> ->].
    { unfold word_end_char in H. cbn [existsb] in H. unfold SQ, DQ.
      rewrite !Z.eqb_neq. rewrite !orb_true_iff, !Z.eqb_eq in H. split; intuition (try done; lia). }
    by rewrite H.
  - intros c s v r Hc Hs. destruct (bare_char_ordinary c Hc) as (E1 & E2 & E3). cbn [exp_word]. by rewrite E1, E2, E3, Hc, Hs.
  - intros t s v r Ht Hs. cbn [exp_word]. rewrite Z.eqb_refl. by apply exp_single.
  - intros t s v r Ht Hs. cbn [exp_word]. apply exp_double; [by apply dq_text_plain|done].
  - intros; simplify_eq. done.
  - intros env t v' s v r Ht Hs. cbn [exp_word]. by apply exp_double.
Qed.

(** *** The wrapper *)

Section background.
Context `{Q : ShellExpansion word}.

Lemma dq_app env t v t' v' : forallb dq_char t = true -> dq_text env t' v' -> v = t -> dq_text env (t ++ t') (v ++ v').
Proof. intros Ht H ->. induction t as [|c t IH]; [done|]. cbn [forallb] in Ht. apply andb_true_iff in Ht as [Hc Ht]. constructor; auto. Qed.

(** [printf '%s<LF>' "TEXT"; REST] *)
Lemma script_printf env text v rest cmds :
  dq_text env text v -> script word env rest cmds ->
  script word env (lit "printf '%s" ++ [NL; SQ; 32; DQ] ++ text ++ DQ :: 59 :: rest)
    ([lit "printf"; lit "%s" ++ [NL]; v] :: cmds).
Proof.
  intros Ht H. apply script_command with rest; [|done|done| |done].
  - apply (no_assignment (lit "printf")). by apply contains_char_false.
  - apply (argv_space (lit "printf")); [done..|].
    apply (argv_squoted (word := word env) (lit "%s" ++ [NL]) (32 :: DQ :: text ++ DQ :: 59 :: rest)); [by apply contains_char_false|done|]. apply argv_blank.
    eapply argv_word; [done|rewrite <- (app_nil_r v); apply word_dquote_text; [exact Ht|by apply word_stop]|done|by apply argv_end].
Qed.

(** The commands of the wrapper. *)
Definition background_commands (pid job_id command log_path : str) : list (list str) :=
  let line text := [lit "printf"; lit "%s" ++ [NL]; text] in
  [line (lit "__SSH_MCP_JOB_ID=" ++ job_id); line (lit "__SSH_MCP_PID=" ++ pid); line (lit "__SSH_MCP_LOG=" ++ log_path);
   [lit "exec"; lit "sh"; lit "-c"; lit "set +m; " ++ command]].

Lemma exec_reads env command :
  script word env (lit "exec sh -c 'set +m; " ++ escape_for_shell command ++ [SQ])
    [[lit "exec"; lit "sh"; lit "-c"; lit "set +m; " ++ command]].
Proof.
  apply script_last; [|done|done|].
  - apply (no_assignment (lit "exec")). by apply contains_char_false.
  - apply (argv_space (lit "exec")); [done..|]. apply (argv_space (lit "sh")); [done..|]. apply (argv_space (lit "-c")); [done..|].
    pose proof (argv_last_quoted (word := word env) (lit "set +m; " ++ command)) as H.
    unfold escape_for_shell in H. rewrite replace_char_app in H. exact H.
Qed.

Lemma background_wrapper_reads env job_id command log_path :
  forallb dq_char job_id = true ->
  script word env (build_background_wrapper_script job_id command log_path)
    (background_commands (env PID_PARAMETER) job_id command log_path).
Proof.
  intros Hid. unfold build_background_wrapper_script, wrapper_marker_part, background_commands. rewrite <- !app_assoc.
  set (last := lit "exec sh -c 'set +m; " ++ _). set (env2 := assign env (lit "LOG") log_path).
  set (p := lit "printf '%s"). set (q := [NL; SQ; 32; DQ]).
  apply script_assign with (lit "LOG") (SQ :: escape_for_shell log_path ++ SQ :: 59 :: 32 :: p ++ q ++
      (lit "__SSH_MCP_JOB_ID=" ++ job_id) ++ DQ :: 59 :: 32 :: p ++ q ++ lit "__SSH_MCP_PID=$$" ++ DQ :: 59 :: 32 :: p ++ q ++
      lit "__SSH_MCP_LOG=$LOG" ++ DQ :: 59 :: 32 :: last) log_path
    (32 :: p ++ q ++ (lit "__SSH_MCP_JOB_ID=" ++ job_id) ++ DQ :: 59 :: 32 :: p ++ q ++ lit "__SSH_MCP_PID=$$" ++
       DQ :: 59 :: 32 :: p ++ q ++ lit "__SSH_MCP_LOG=$LOG" ++ DQ :: 59 :: 32 :: last).
  - rewrite <- (assignment_name (lit "LOG")) by done. f_equal.
  - by apply quoted_word_end.
  - apply script_blank, script_printf; [apply dq_text_plain; by rewrite forallb_app, Hid|].
    apply script_blank, script_printf.
    { change (env PID_PARAMETER) with (env2 PID_PARAMETER).
      apply (dq_app env2 (lit "__SSH_MCP_PID=") _ [36; 36]); [done| |done].
      rewrite <- (app_nil_r (env2 PID_PARAMETER)). apply dq_pid, dq_nil. }
    apply script_blank, script_printf.
    { apply (dq_app env2 (lit "__SSH_MCP_LOG=") _ (36 :: lit "LOG" ++ [])); [done| |done].
      change log_path with (env2 (lit "LOG")). rewrite <- (app_nil_r (env2 (lit "LOG"))). by apply dq_variable, dq_nil. }
    apply script_blank, exec_reads.
Qed.
End background.

(** C10. A background job runs the user's command and nothing else: executed
    over the channel, the wrapper script is the single argument of [sh -c]; that
    script reads as exactly four commands, and in no other way: three [printf]s
    of one line each, the markers with the job's id, the shell's process id and
    the log path, and then [exec sh -c "set +m; COMMAND"] with the user's command
    carried through both levels of quoting unchanged; the inner shell reads
    [set +m] and goes on with the user's command. The job id holds no double
    quote, dollar sign, backquote or backslash, as those that the server makes
    ([make_job_id_plain] of Launch). *)
Theorem background_wrapper_argv word (Q : ShellExpansion word) (env : str -> str) (job_id command log_path : str)
    (Hid : forallb dq_char job_id = true) :
  let text := build_background_wrapper_script job_id command log_path in
  argv (word env) (wrap_command_for_channel_exec text) [lit "sh"; lit "-c"; text] [] /\
  (forall cmds, script word env text cmds <-> cmds = background_commands (env PID_PARAMETER) job_id command log_path) /\
  argv (word env) (lit "set +m; " ++ command) [lit "set"; lit "+m"] (59 :: 32 :: command).
Proof.
  intros text. split_and!.
  - by apply (argv_sh_c (lit "-c")).
  - pose proof (background_wrapper_reads env job_id command log_path Hid) as H. intros cmds. split; [|by intros ->].
    intros H'. by apply (script_fun word Q _ _ _ H').
  - apply (argv_space (lit "set")); [done..|].
    apply (argv_bare (lit "+m")); [done..|by apply argv_end].
Qed.

Lemma background_wrapper_argv_witness :
  let text := build_background_wrapper_script (lit "j1") (lit "echo 'x'") (lit "/tmp/j1.log") in
  let env := fun n => if str_eqb n PID_PARAMETER then lit "77" else [] in
  script posix_expander env text
    [[lit "printf"; lit "%s" ++ [NL]; lit "__SSH_MCP_JOB_ID=j1"]; [lit "printf"; lit "%s" ++ [NL]; lit "__SSH_MCP_PID=77"];
     [lit "printf"; lit "%s" ++ [NL]; lit "__SSH_MCP_LOG=/tmp/j1.log"]; [lit "exec"; lit "sh"; lit "-c"; lit "set +m; echo 'x'"]].
Proof.
  intros text env.
  destruct (background_wrapper_argv posix_expander posix_expander_expansion env (lit "j1") (lit "echo 'x'") (lit "/tmp/j1.log") eq_refl)
    as (_ & H & _). apply H. reflexivity.
Defined.

(** ** Command sanitisation *)

Lemma sanitize_command_ok c m t :
  sanitize_command c m = Ok t <->
  t = trim c /\ t <> [] /\ (forall max, m = Some max -> str_len t <= max).
Proof.
  unfold sanitize_command, str_eqb. case_bool_decide as E; [naive_solver|].
  destruct m as [max|]; [|naive_solver].
  destruct (max <? str_len (trim c)) eqn:F; bool_hyps.
  - split; [done|]. intros (-> & _ & H). specialize (H max eq_refl). lia.
  - split; [intros [= <-]; split_and!; [done..|by intros ? [= <-]]|]. by intros (-> & _).
Qed.

(** Sanitising a sanitised command changes nothing. *)
Lemma sanitize_command_idem c m t : sanitize_command c m = Ok t -> sanitize_command t m = Ok t.
Proof.
  rewrite !sanitize_command_ok. intros (-> & H1 & H2). by rewrite trim_trim.
Qed.

(** ** The [pkill -f] pattern *)

Definition pattern_special (c : char) : bool := existsb (Z.eqb c) [BSL; 36; 96; 40; 41; 124].
Definition pattern_escape (s : str) : str :=
  flat_map (fun c => if pattern_special c then [BSL; c] else [c]) s.

(** Reads a pattern in which a backslash takes the next character literally. *)
Fixpoint pattern_unescape (s : str) : str :=
  match s with
  | [] => []
  | c :: s' =>
      if c =? BSL then match s' with [] => [c] | d :: s'' => d :: pattern_unescape s'' end
      else c :: pattern_unescape s'
  end.

Lemma replace_char_cons c r x s :
  replace_char c r (x :: s) = (if x =? c then r else [x]) ++ replace_char c r s.
Proof. done. Qed.

Lemma escape_command_pattern s : escape_command_for_shell s = escape_for_shell (pattern_escape s).
Proof.
  unfold escape_command_for_shell. f_equal. unfold escape_with_backslash.
  induction s as [|x s IH]; [done|].
  rewrite (replace_char_cons BSL), !replace_char_app, IH. cbn [pattern_escape flat_map]. f_equal.
  unfold pattern_special. cbn [existsb].
  destruct (x =? BSL) eqn:E1; [bool_hyps; by subst|].
  destruct (x =? 36) eqn:E2; [bool_hyps; by subst|].
  destruct (x =? 96) eqn:E3; [bool_hyps; by subst|].
  destruct (x =? 40) eqn:E4; [bool_hyps; by subst|].
  destruct (x =? 41) eqn:E5; [bool_hyps; by subst|].
  destruct (x =? 124) eqn:E6; [bool_hyps; by subst|].
  assert (H : forall c r, (x =? c) = false -> replace_char c r [x] = [x]).
  { intros c r Hc. cbn. by rewrite Hc. }
  by rewrite !H.
Qed.

Lemma pattern_unescape_escape s : pattern_unescape (pattern_escape s) = s.
Proof.
  induction s as [|c s IH]; [done|]. cbn [pattern_escape flat_map].
  destruct (pattern_special c) eqn:E.
  - cbn. by f_equal.
  - cbn [app pattern_unescape]. destruct (c =? BSL) eqn:F; [|by f_equal].
    bool_hyps. by subst.
Qed.

(** The pattern given to [pkill -f] when a command is aborted names the
    command: between single quotes it is one shell word, and that word, read
    with backslash escapes, is the command itself; no [$], backquote,
    parenthesis, bar or backslash of the command is left unescaped. *)
Theorem escape_command_for_shell_word word (Q : ShellQuoting word) (command rest : str)
    (Hrest : at_word_end rest = true) :
  exists pattern,
    word (SQ :: escape_command_for_shell command ++ SQ :: rest) pattern rest /\
    pattern_unescape pattern = command.
Proof.
  exists (pattern_escape command). split; [|apply pattern_unescape_escape].
  rewrite escape_command_pattern. by apply quoted_word_end.
Qed.

Lemma escape_command_for_shell_word_witness :
  exists pattern,
    posix_lexer (SQ :: escape_command_for_shell (lit "a'b|$(c)") ++ SQ :: lit " ;") pattern (lit " ;") /\
    pattern_unescape pattern = lit "a'b|$(c)".
Proof.
  apply (escape_command_for_shell_word posix_lexer posix_lexer_quoting). reflexivity.
Defined.
