(* ===== verification/Validate.v ===== *)
(** * Validation of user-provided paths and of remote diagnostics

    src/validate.rs, src/server/validation/common.rs and
    src/server/validation/file_edit.rs. *)
From Stdlib Require Import ZArith String.
From stdpp Require Import base list gmap.
From S2P Require Import Prelude Paths.

(** ** src/validate.rs *)

Definition validate_basic_path_str (path field : str) : result unit str :=
  if str_eqb path [] then Err (field ++ lit " cannot be empty")
  else if str_eqb (trim path) [] then Err (field ++ lit " must not be whitespace-only")
  else if negb (str_eqb path (trim path)) then
    Err (field ++ lit " must not have leading or trailing whitespace")
  else if contains_char NUL path then Err (field ++ lit " must not contain NUL")
  else if existsb is_control path then Err (field ++ lit " must not contain control characters")
  else if starts_with (lit "-") path then Err (field ++ lit " must not start with '-'")
  else Ok tt.

(** ** src/server/validation/common.rs *)

Definition validate_background_log_path (base_dir log_path : str) : result unit str :=
  let? _ := validate_basic_path_str log_path (lit "log_path") in
  if negb (is_absolute log_path) then Err (lit "log_path must be an absolute path")
  else if existsb (fun c => bool_decide (c = CurDir \/ c = ParentDir)) (components log_path) then
    Err (lit "log_path must not contain '.' or '..' path components")
  else if bool_decide (parent_components log_path <> Some (components base_dir)) then
    Err (lit "log_path must be directly under " ++ base_dir)
  else if bool_decide (extension log_path <> Some (lit "log")) then
    Err (lit "log_path must have a .log extension")
  else Ok tt.

(** ** src/server/validation/file_edit.rs *)

Definition FILE_EDIT_ERROR_MARKER : str := lit "__SSH_MCP_FILE_EDIT_ERR__".
Definition FILE_EDIT_CONFLICT_MARKER : str := lit "__SSH_MCP_FILE_EDIT_CONFLICT__".
Definition FILE_EDIT_MISSING_SHA256 : str :=
  lit "0000000000000000000000000000000000000000000000000000000000000000".
Definition FILE_EDIT_HARD_MAX_BYTES : Z := 1024 * 1024.
Definition FILE_EDIT_LOCK_MAX_SPINS : Z := 20.
Definition FILE_EDIT_LOCK_STALE_AFTER_SECS : Z := 120.
Definition FILE_EDIT_STDERR_SNIPPET_LIMIT_CHARS : Z := 256.

Fixpoint find_map {A B} (f : A -> option B) (l : list A) : option B :=
  match l with
  | [] => None
  | x :: l' => match f x with Some y => Some y | None => find_map f l' end
  end.

Definition parse_file_edit_marker_value (stderr prefix : str) : option str :=
  find_map (fun line =>
    value ← trim <$> strip_prefix prefix (trim line);
    if str_eqb value [] then None else Some value) (str_lines stderr).

Definition parse_file_edit_error_marker (stderr : str) : option str :=
  parse_file_edit_marker_value stderr FILE_EDIT_ERROR_MARKER.

Definition has_file_edit_conflict_marker (stderr : str) : bool :=
  existsb (fun line => str_eqb (trim line) FILE_EDIT_CONFLICT_MARKER) (str_lines stderr).

(** The loop of [sanitize_file_edit_stderr_snippet]: the snippet so far,
    whether its last character is a space the loop wrote, and the number of
    characters written; the result tells whether input was left over. *)
Fixpoint snippet_loop (input snippet : str) (prev_space : bool) (char_count : Z) : str * bool :=
  match input with
  | [] => (snippet, false)
  | ch :: rest =>
      if FILE_EDIT_STDERR_SNIPPET_LIMIT_CHARS <=? char_count then (snippet, true)
      else
        let normalized := if is_control ch then 32 else ch in
        if is_whitespace normalized then
          if prev_space then snippet_loop rest snippet true char_count
          else snippet_loop rest (snippet ++ [32]) true
                 (saturating_add USIZE_MAX char_count 1)
        else snippet_loop rest (snippet ++ [normalized]) false
               (saturating_add USIZE_MAX char_count 1)
  end.

Definition sanitize_file_edit_stderr_snippet (stderr : str) : option str :=
  let '(snippet, truncated) := snippet_loop (trim stderr) [] false 0 in
  let normalized := trim snippet in
  if str_eqb normalized [] then None
  else Some (if truncated then normalized ++ lit "..." else normalized).

(** ** Properties *)

Lemma validate_basic_ok path field :
  validate_basic_path_str path field = Ok tt <->
  path <> [] /\ path = trim path /\ Forall (fun c => is_control c = false) path /\
  starts_with (lit "-") path = false.
Proof.
  unfold validate_basic_path_str, str_eqb. case_bool_decide as E1; [naive_solver|].
  case_bool_decide as E2.
  { split; [done|]. intros (_ & H & _). congruence. }
  case_bool_decide as E3; cbn [negb]; [|naive_solver].
  destruct (existsb is_control path) eqn:E4.
  - destruct (contains_char NUL path); (split; [done|]); intros (_ & _ & H & _);
      apply existsb_exists in E4 as (c & Hc & E); rewrite Forall_forall in H;
      rewrite H in E by (by apply list_elem_of_In); done.
  - assert (Hall : Forall (fun c => is_control c = false) path).
    { apply Forall_forall. intros c Hc. destruct (is_control c) eqn:E; [|done].
      rewrite <- E4. symmetry. apply existsb_exists. exists c. by rewrite <- list_elem_of_In. }
    assert (contains_char NUL path = false) as ->.
    { apply contains_char_false. intros H. rewrite Forall_forall in Hall. by apply Hall in H. }
    destruct (starts_with (lit "-") path) eqn:E5; naive_solver.
Qed.

Lemma absolute_not_option p : is_absolute p = true -> starts_with (lit "-") p = false.
Proof.
  intros H. by apply starts_with_spec in H as [r ->].
Qed.

(** The name of an accepted log file: an ordinary component with a non-empty
    stem and the extension [.log]. *)
Definition log_file_name (n : str) : Prop :=
  plain_name n /\ exists stem, n = stem ++ lit ".log" /\ stem <> [].

Lemma log_file_name_intro stem :
  SLASH ∉ stem -> stem <> [] -> log_file_name (stem ++ lit ".log").
Proof.
  intros H1 H2. assert (Hlen : (4 < length (stem ++ lit ".log"))%nat).
  { rewrite length_app. destruct stem; [done|]. simpl. lia. }
  split; [|by exists stem]. repeat split; try (intros E; rewrite E in Hlen; simpl in Hlen; lia).
  rewrite elem_of_app. intros [?|H]; [done|]. by apply contains_char_spec in H.
Qed.

(** A caller-supplied log path that is accepted names a file directly in
    the spool directory: its components are those of the directory followed by
    one ordinary name with a non-empty stem and extension [.log], and it has
    no control character. Conversely every such name of an absolute spool
    directory without [..] is accepted, so the check rejects nothing it should
    serve. *)
Theorem validate_background_log_path_confined (base_dir : str) :
  (forall log_path, validate_background_log_path base_dir log_path = Ok tt ->
     is_absolute log_path = true /\ Forall (fun c => is_control c = false) log_path /\
     exists n, components log_path = components base_dir ++ [Normal n] /\ log_file_name n) /\
  (forall n, is_absolute base_dir = true -> ParentDir ∉ components base_dir -> log_file_name n ->
     trim (path_join base_dir n) = path_join base_dir n ->
     Forall (fun c => is_control c = false) (path_join base_dir n) ->
     validate_background_log_path base_dir (path_join base_dir n) = Ok tt).
Proof.
  split.
  - intros p. unfold validate_background_log_path. intros H. res_inv.
    apply validate_basic_ok in Heqr as (_ & _ & Hc & _). bool_hyps.
    apply dec_stable in Heqb1, Heqb2. split_and!; [done..|].
    apply extension_file_name in Heqb2 as (n & stem & Hn & -> & Hs & _).
    exists (stem ++ [46] ++ lit "log"). split; [by apply parent_components_Some|].
    split; [|by exists stem]. apply (components_Normal_plain p).
    rewrite (parent_components_Some _ _ _ Heqb1 Hn), elem_of_app. right. by left.
  - intros n Hb Hpd [Hn (stem & -> & Hs)] Ht Hc. set (p := path_join base_dir _) in *.
    assert (Hp : components p = components base_dir ++ [Normal (stem ++ lit ".log")])
      by (by apply components_join_plain).
    assert (Habs : is_absolute p = true).
    { apply components_root_absolute. rewrite Hp, elem_of_app. left.
      destruct (components_absolute _ Hb) as (r & -> & _). by left. }
    unfold validate_background_log_path.
    assert (validate_basic_path_str p (lit "log_path") = Ok tt) as ->.
    { apply validate_basic_ok. split_and!; [|done..|by apply absolute_not_option].
      intros E. by rewrite E in Habs. }
    cbn [rbind]. rewrite Habs. cbn [negb].
    assert (existsb (fun c => bool_decide (c = CurDir \/ c = ParentDir)) (components p) = false) as ->.
    { apply not_true_iff_false. rewrite existsb_exists. intros (c & Hin & E). bool_hyps.
      apply list_elem_of_In in Hin. destruct (components_absolute _ Habs) as (r & Er & HC & _).
      destruct E as [-> | ->].
      - rewrite Er, elem_of_cons in Hin. by destruct Hin.
      - rewrite Hp, elem_of_app, list_elem_of_singleton in Hin. by destruct Hin. }
    assert (parent_components p = Some (components base_dir)) as ->.
    { unfold parent_components. rewrite Hp, rev_app_distr. simpl. by rewrite rev_involutive. }
    assert (extension p = Some (lit "log")) as ->.
    { unfold extension, file_name. rewrite Hp, rev_app_distr. cbn [rev app mbind option_bind].
      change (stem ++ lit ".log") with (stem ++ 46 :: lit "log").
      rewrite split_last_dot_app by (by apply contains_char_false). cbn.
      unfold str_eqb. by rewrite bool_decide_eq_false_2. }
    rewrite !bool_decide_eq_false_2 by (intros H; by apply H). done.
Qed.

Lemma validate_background_log_path_confined_witness :
  exists n, components (lit "/var/spool/job.log") = components (lit "/var/spool") ++ [Normal n] /\ log_file_name n.
Proof.
  exact (proj2 (proj2 (proj1 (validate_background_log_path_confined (lit "/var/spool"))
    (lit "/var/spool/job.log") ltac:(vm_compute; reflexivity)))).
Defined.

(** *** The diagnostic snippet *)

Definition snippet_char (c : char) : Prop :=
  is_control c = false /\ (is_whitespace c = true -> c = 32).
Definition no_double_space (s : str) : Prop := forall a b, s <> a ++ [32; 32] ++ b.

Lemma no_double_space_snoc s c :
  no_double_space s -> (c = 32 -> forall a, s <> a ++ [32]) -> no_double_space (s ++ [c]).
Proof.
  intros Hs Hc a b E. destruct b as [|y b] using rev_ind.
  - change (a ++ [32; 32] ++ []) with (a ++ [32] ++ [32]) in E.
    rewrite app_assoc in E. apply app_inj_tail in E as [E ->]. by apply (Hc eq_refl a).
  - rewrite !app_assoc in E. apply app_inj_tail in E as [E _].
    apply (Hs a b). by rewrite E, <- !app_assoc.
Qed.

Lemma no_double_space_sub a s b : no_double_space (a ++ s ++ b) -> no_double_space s.
Proof. intros H x y ->. apply (H (a ++ x) (y ++ b)). by rewrite <- !app_assoc. Qed.

Lemma is_control_normalised c : is_control (if is_control c then 32 else c) = false.
Proof. by destruct (is_control c) eqn:E. Qed.

Lemma saturating_add_small max a : 0 <= a -> a + 1 <= max -> saturating_add max a 1 = a + 1.
Proof. unfold saturating_add. lia. Qed.

Lemma snippet_loop_inv input acc ps cnt out t :
  snippet_loop input acc ps cnt = (out, t) ->
  Z.of_nat (length acc) = cnt -> cnt <= FILE_EDIT_STDERR_SNIPPET_LIMIT_CHARS ->
  Forall snippet_char acc -> no_double_space acc ->
  (ps = false -> forall a, acc <> a ++ [32]) ->
  Z.of_nat (length out) <= FILE_EDIT_STDERR_SNIPPET_LIMIT_CHARS /\
  Forall snippet_char out /\ no_double_space out.
Proof.
  revert acc ps cnt; induction input as [|ch input IH]; cbn [snippet_loop];
    intros acc ps cnt H Hlen Hmax Hok Hds Hps; [by simplify_eq|].
  destruct (FILE_EDIT_STDERR_SNIPPET_LIMIT_CHARS <=? cnt) eqn:E; [by simplify_eq|]. bool_hyps.
  pose proof (is_control_normalised ch) as Hnorm.
  set (n := if is_control ch then 32 else ch) in *.
  assert (Hsat : saturating_add USIZE_MAX cnt 1 = cnt + 1).
  { apply saturating_add_small; [lia|].
    unfold FILE_EDIT_STDERR_SNIPPET_LIMIT_CHARS in E. unfold USIZE_MAX, U64_MAX. lia. }
  rewrite Hsat in H. destruct (is_whitespace n) eqn:W; [destruct ps|].
  - by apply IH in H.
  - apply IH in H; [done|rewrite length_app; simpl; lia|lia| | |done].
    + apply Forall_app. split; [done|]. by apply Forall_singleton.
    + apply no_double_space_snoc; auto.
  - apply IH in H; [done|rewrite length_app; simpl; lia|lia| | |].
    + apply Forall_app. split; [done|]. apply Forall_singleton. split; [done|congruence].
    + apply no_double_space_snoc; [done|]. intros ->. done.
    + intros _ a [_ ->]%app_inj_tail. done.
Qed.

(** Remote standard error is never echoed raw: the snippet kept for an
    error message is at most 256 characters (259 with the ellipsis that marks
    truncation), it is not empty, it has no control character, its only white
    space is single spaces, and it does not start with one. *)
Theorem sanitize_file_edit_stderr_snippet_safe (stderr r : str)
    (H : sanitize_file_edit_stderr_snippet stderr = Some r) :
  exists body, (r = body \/ r = body ++ lit "...") /\
    body <> [] /\ trim body = body /\
    Z.of_nat (length body) <= FILE_EDIT_STDERR_SNIPPET_LIMIT_CHARS /\
    Forall snippet_char body /\ no_double_space body.
Proof.
  unfold sanitize_file_edit_stderr_snippet in H.
  destruct (snippet_loop (trim stderr) [] false 0) as [out t] eqn:E.
  unfold str_eqb in H. case_bool_decide as Hne; [done|].
  apply snippet_loop_inv in E as (Hlen & Hok & Hds);
    [|done|done|by apply Forall_nil|by intros [] b|by intros _ []].
  destruct (trim_decompose out) as (a & b & Eo & _ & _).
  exists (trim out). rewrite Eo in Hlen, Hok, Hds. split_and!.
  - destruct t; simplify_eq; auto.
  - done.
  - apply trim_trim.
  - rewrite !length_app in Hlen. lia.
  - by apply Forall_app in Hok as [_ [? _]%Forall_app].
  - by apply no_double_space_sub in Hds.
Qed.

Lemma sanitize_file_edit_stderr_snippet_safe_witness :
  exists body, (lit "mv: denied" = body \/ lit "mv: denied" = body ++ lit "...") /\
    body <> [] /\ trim body = body /\
    Z.of_nat (length body) <= FILE_EDIT_STDERR_SNIPPET_LIMIT_CHARS /\
    Forall snippet_char body /\ no_double_space body.
Proof.
  apply (sanitize_file_edit_stderr_snippet_safe (lit "mv:" ++ [27; 9] ++ lit "denied ")).
  vm_compute. reflexivity.
Defined.

(** *** Markers *)

Lemma find_map_Some {A B} (f : A -> option B) l y :
  find_map f l = Some y -> exists x, x ∈ l /\ f x = Some y.
Proof.
  induction l as [|x l IH]; simpl; [done|]. destruct (f x) eqn:E.
  - intros [= ->]. exists x. split; [by left|done].
  - intros H. destruct (IH H) as (z & ? & ?). exists z. split; [by right|done].
Qed.

Lemma parse_marker_sound stderr prefix v :
  parse_file_edit_marker_value stderr prefix = Some v ->
  v <> [] /\ exists line w, line ∈ str_lines stderr /\ trim line = prefix ++ w /\ v = trim w.
Proof.
  intros (line & Hin & E)%find_map_Some.
  destruct (strip_prefix prefix (trim line)) as [w|] eqn:F; simpl in E; [|done].
  apply strip_prefix_Some in F. unfold str_eqb in E. case_bool_decide; simplify_eq.
  split; [done|]. by exists line, w.
Qed.
