(* ===== verification/Patch.v ===== *)
(** * Patches (src/patch.rs)

    The text format of file patches: parser, hunk application and the plan of
    one file. *)
From Stdlib Require Import ZArith String.
From stdpp Require Import base list gmap.
From S2P Require Import Prelude Validate.

Definition BEGIN_PATCH : str := lit "*** Begin Patch".
Definition END_PATCH : str := lit "*** End Patch".
Definition ADD_FILE : str := lit "*** Add File: ".
Definition UPDATE_FILE : str := lit "*** Update File: ".
Definition DELETE_FILE : str := lit "*** Delete File: ".
Definition MOVE_TO : str := lit "*** Move to:".
Definition SECTION_MARK : str := lit "*** ".

Inductive PatchOperationKind : Type := KAdd | KUpdate | KDelete.

Definition kind_as_str (k : PatchOperationKind) : str :=
  match k with KAdd => lit "add" | KUpdate => lit "update" | KDelete => lit "delete" end.

Record PatchHunk : Type := {
  anchor : option str;
  old_lines : list str;
  new_lines : list str
}.

Inductive PatchOperation : Type :=
  | Add (content : str)
  | Update (hunks : list PatchHunk)
  | Delete.

Record FilePatch : Type := { path : str; operation : PatchOperation }.

Record PlannedPatch : Type := {
  planned_path : str;
  new_content : option str;
  changed : bool
}.

Inductive PatchError : Type :=
  | InvalidEnvelope (msg : str)
  | InvalidSection (msg : str)
  | DuplicatePath (p : str)
  | UnsupportedOperation (msg : str)
  | InvalidPath (msg : str)
  | InvalidHunk (msg : str)
  | AlreadyExists (p : str)
  | NotFound (p : str)
  | ContextNotFound (hunk : Z)
  | AmbiguousContext (hunk : Z).

#[global] Instance PatchHunk_eq_dec : EqDecision PatchHunk.
Proof. solve_decision. Defined.
#[global] Instance PatchOperation_eq_dec : EqDecision PatchOperation.
Proof. solve_decision. Defined.
#[global] Instance FilePatch_eq_dec : EqDecision FilePatch.
Proof. solve_decision. Defined.

Definition error_kind (e : PatchError) : str :=
  match e with
  | InvalidEnvelope _ | InvalidSection _ | InvalidHunk _ => lit "invalid_patch"
  | DuplicatePath _ => lit "duplicate_path"
  | UnsupportedOperation _ => lit "unsupported_operation"
  | InvalidPath _ => lit "invalid_path"
  | AlreadyExists _ => lit "already_exists"
  | NotFound _ => lit "not_found"
  | ContextNotFound _ => lit "context_not_found"
  | AmbiguousContext _ => lit "ambiguous_context"
  end.

Definition patch_error_display (e : PatchError) : str :=
  match e with
  | InvalidEnvelope m => lit "invalid patch envelope: " ++ m
  | InvalidSection m => lit "invalid patch section: " ++ m
  | DuplicatePath p => lit "patch contains more than one section for path: " ++ p
  | UnsupportedOperation m => lit "unsupported patch operation: " ++ m
  | InvalidPath m => lit "invalid patch path: " ++ m
  | InvalidHunk m => lit "invalid update hunk: " ++ m
  | AlreadyExists p => lit "file already exists: " ++ p
  | NotFound p => lit "file does not exist: " ++ p
  | ContextNotFound h => lit "update hunk " ++ show_uint h ++ lit " context was not found"
  | AmbiguousContext h => lit "update hunk " ++ show_uint h ++ lit " context is ambiguous"
  end.

Definition section_tail_error (line : str) : PatchError :=
  if starts_with MOVE_TO line then UnsupportedOperation (lit "Move File") else InvalidSection line.

Definition validate_path (p : str) : result unit PatchError :=
  let? _ := rmap_err InvalidPath (validate_basic_path_str p (lit "patch path")) in
  if negb (starts_with [SLASH] p) then Err (InvalidPath (lit "patch path must be absolute"))
  else if ends_with [SLASH] p then Err (InvalidPath (lit "patch path must identify a file"))
  else Ok tt.

(** ** Sections *)

Fixpoint add_content_lines (lines : list str) : result (list str) PatchError :=
  match lines with
  | [] => Ok []
  | line :: rest =>
      match strip_prefix (lit "+") line with
      | None => Err (section_tail_error line)
      | Some content => let? more := add_content_lines rest in Ok (content :: more)
      end
  end.

Definition parse_add (lines : list str) : result str PatchError :=
  let? content_lines := add_content_lines lines in
  match content_lines with
  | [] => Ok []
  | _ => Ok (join [NL] content_lines ++ [NL])
  end.

Definition parse_anchor (marker : str) : result (option str) PatchError :=
  if starts_with SECTION_MARK marker then Err (section_tail_error marker)
  else if str_eqb marker (lit "@@") then Ok None
  else match strip_prefix (lit "@@ ") marker with
       | Some a => if str_eqb a [] then Err (InvalidHunk (lit "hunk anchor cannot be empty")) else Ok (Some a)
       | None => Err (InvalidHunk (lit "expected @@ marker, got " ++ debug_str marker))
       end.

(** The inner loop of [parse_update]: the lines of one hunk, up to the next
    line that starts with [@@]. *)
Fixpoint parse_hunk_lines (lines old new : list str) (has_change : bool) :
    result (list str * list str * bool * list str) PatchError :=
  match lines with
  | [] => Ok (old, new, has_change, [])
  | line :: rest =>
      if starts_with (lit "@@") line then Ok (old, new, has_change, lines)
      else if starts_with SECTION_MARK line then Err (section_tail_error line)
      else match line with
           | [] => Err (InvalidHunk (lit "every hunk line needs a space, +, or - prefix"))
           | prefix :: text =>
               if prefix =? 32 then parse_hunk_lines rest (old ++ [text]) (new ++ [text]) has_change
               else if prefix =? 45 then parse_hunk_lines rest (old ++ [text]) new true
               else if prefix =? 43 then parse_hunk_lines rest old (new ++ [text]) true
               else Err (InvalidHunk (lit "invalid hunk line prefix " ++ debug_char prefix))
           end
  end.

(** The outer loop; every turn consumes the marker, so the number of lines is
    enough fuel ([parse_update_fuel_enough]). *)
Fixpoint parse_update_loop (fuel : nat) (lines : list str) (hunks : list PatchHunk) :
    result (list PatchHunk) PatchError :=
  match lines, fuel with
  | [], _ => Ok hunks
  | _ :: _, O => Ok hunks
  | marker :: body, S f =>
      let? a := parse_anchor marker in
      let? '(old, new, has_change, rest) := parse_hunk_lines body [] [] false in
      if bool_decide (old = []) then
        Err (InvalidHunk (lit "a hunk must include context or a removed line"))
      else if negb has_change then
        Err (InvalidHunk (lit "a hunk must contain a + or - line"))
      else parse_update_loop f rest
             (hunks ++ [{| anchor := a; old_lines := old; new_lines := new |}])
  end.

Definition parse_update (lines : list str) : result (list PatchHunk) PatchError :=
  match lines with
  | [] => Err (InvalidHunk (lit "at least one hunk is required"))
  | _ => parse_update_loop (length lines) lines []
  end.

Definition parse_operation (header : str) (body : list str) : result (str * PatchOperation) PatchError :=
  match strip_prefix ADD_FILE header with
  | Some p => let? content := parse_add body in Ok (p, Add content)
  | None =>
  match strip_prefix UPDATE_FILE header with
  | Some p => let? hunks := parse_update body in Ok (p, Update hunks)
  | None =>
  match strip_prefix DELETE_FILE header with
  | Some p => match body with extra :: _ => Err (section_tail_error extra) | [] => Ok (p, Delete) end
  | None =>
      if starts_with MOVE_TO header then Err (UnsupportedOperation (lit "Move File"))
      else Err (InvalidSection header)
  end end end.

(** [FilePatch::parse_section]. [section] is never empty: it is
    [lines[start..end]] with [start < end]. *)
Definition parse_section (section : list str) : result FilePatch PatchError :=
  let header := default [] (head section) in
  let body := tail section in
  let? '(p, op) := parse_operation header body in
  let? _ := validate_path p in
  Ok {| path := p; operation := op |}.

Definition is_file_header (line : str) : bool :=
  starts_with ADD_FILE line || starts_with UPDATE_FILE line || starts_with DELETE_FILE line.


(** The loop [for end in 2..lines.len()] of [parse_patch]. *)
Fixpoint section_loop (lines : list str) (ends : list nat) (start : nat) (paths : gset str)
    (patches : list FilePatch) : result (list FilePatch) PatchError :=
  match ends with
  | [] => Ok patches
  | e :: ends' =>
      let line := default [] (lines !! e) in
      if bool_decide (e = length lines - 1)%nat || is_file_header line then
        let? patch := parse_section (slice start e lines) in
        if bool_decide (path patch ∈ paths) then Err (DuplicatePath (path patch))
        else section_loop lines ends' e ({[path patch]} ∪ paths) (patches ++ [patch])
      else section_loop lines ends' start paths patches
  end.

Definition parse_patch (input : str) : result (list FilePatch) PatchError :=
  let input := default input (strip_suffix [NL] input) in
  let lines := split_char NL input in
  if bool_decide (head lines <> Some BEGIN_PATCH) then
    Err (InvalidEnvelope (lit "first line must be " ++ debug_str BEGIN_PATCH))
  else if bool_decide (last lines <> Some END_PATCH) then
    Err (InvalidEnvelope (lit "last line must be " ++ debug_str END_PATCH))
  else if bool_decide (length lines < 3)%nat then
    Err (InvalidEnvelope (lit "a file section is required"))
  else section_loop lines (seq 2 (length lines - 2)) 1 ∅ [].

(** ** Application *)

Definition lines_eqb (a b : list str) : bool := bool_decide (a = b).

(** One start position of a hunk: the old lines are there, and the anchor, if
    any, occurs in a line up to the end of the old lines. *)
Definition is_candidate (lines : list str) (hunk : PatchHunk) (start : nat) : bool :=
  let old_len := length (old_lines hunk) in
  lines_eqb (slice start (start + old_len) lines) (old_lines hunk) &&
  match anchor hunk with
  | None => true
  | Some a => existsb (contains a) (take (start + old_len) lines)
  end.

Definition candidates (lines : list str) (hunk : PatchHunk) : list nat :=
  let old_len := length (old_lines hunk) in
  if bool_decide (old_len <= length lines)%nat
  then List.filter (is_candidate lines hunk) (seq 0 (length lines - old_len + 1))
  else [].

Definition splice (lines : list str) (start old_len : nat) (new : list str) : list str :=
  take start lines ++ new ++ drop (start + old_len) lines.

Fixpoint apply_hunks_loop (index : Z) (lines : list str) (hunks : list PatchHunk) :
    result (list str) PatchError :=
  match hunks with
  | [] => Ok lines
  | hunk :: rest =>
      match candidates lines hunk with
      | [] => Err (ContextNotFound (index + 1))
      | [start] =>
          apply_hunks_loop (index + 1)
            (splice lines start (length (old_lines hunk)) (new_lines hunk)) rest
      | _ => Err (AmbiguousContext (index + 1))
      end
  end.

Definition content_lines (content : str) : list str :=
  if str_eqb content [] then []
  else split_char NL (default content (strip_suffix [NL] content)).

Definition lines_content (had_final_newline : bool) (lines : list str) : str :=
  join [NL] lines ++ (if had_final_newline && negb (bool_decide (lines = [])) then [NL] else []).

Definition apply_hunks (content : str) (hunks : list PatchHunk) : result str PatchError :=
  let had_final_newline := ends_with [NL] content in
  let? lines := apply_hunks_loop 0 (content_lines content) hunks in
  Ok (lines_content had_final_newline lines).

Definition operation_kind (p : FilePatch) : PatchOperationKind :=
  match operation p with Add _ => KAdd | Update _ => KUpdate | Delete => KDelete end.

Definition plan (p : FilePatch) (current : option str) : result PlannedPatch PatchError :=
  let? '(new, chg) :=
    match operation p, current with
    | Add _, Some _ => Err (AlreadyExists (path p))
    | Add content, None => Ok (Some content, true)
    | Update _, None | Delete, None => Err (NotFound (path p))
    | Update hunks, Some content =>
        let? updated := apply_hunks content hunks in
        Ok (Some updated, negb (str_eqb updated content))
    | Delete, Some _ => Ok (None, true)
    end in
  Ok {| planned_path := path p; new_content := new; changed := chg |}.

(** ** Lines of a parsed file *)

Definition no_nl (l : str) : Prop := NL ∉ l.

Lemma Forall_split_no_nl s : Forall no_nl (split_char NL s).
Proof. apply Forall_forall. intros p. apply split_char_no_sep. Qed.

(** Splitting a text into lines and putting it back together. *)
Lemma lines_content_lines content :
  lines_content (ends_with [NL] content) (content_lines content) = content.
Proof.
  unfold content_lines, lines_content, str_eqb. case_bool_decide as E; [by subst|].
  rewrite join_split_char, bool_decide_eq_false_2 by apply split_char_ne.
  rewrite andb_true_r.
  destruct (ends_with [NL] content) eqn:F.
  - apply ends_with_spec in F as [r ->].
    by rewrite (proj2 (strip_suffix_Some [NL] (r ++ [NL]) r) eq_refl).
  - destruct (strip_suffix [NL] content) as [r|] eqn:G; [|by rewrite app_nil_r].
    apply strip_suffix_Some in G as ->.
    assert (ends_with [NL] (r ++ [NL]) = true) by (apply ends_with_spec; eauto). congruence.
Qed.

(** ** Application: specification *)

(** The hunk matches [lines] after the lines [before]. *)
Definition hunk_at (lines : list str) (h : PatchHunk) (before after : list str) : Prop :=
  lines = before ++ old_lines h ++ after /\
  match anchor h with
  | None => True
  | Some a => exists l, l ∈ before ++ old_lines h /\ contains a l = true
  end.

(** [applied lines hunks r]: every hunk in turn matches at exactly one
    position, where its old lines are replaced by its new lines. *)
Inductive applied : list str -> list PatchHunk -> list str -> Prop :=
  | applied_nil lines : applied lines [] lines
  | applied_cons lines h before after hs r :
      hunk_at lines h before after ->
      (forall b a, hunk_at lines h b a -> b = before) ->
      applied (before ++ new_lines h ++ after) hs r ->
      applied lines (h :: hs) r.

Lemma slice_decompose {A} (start n : nat) (l : list A) :
  (start + n <= length l)%nat ->
  l = take start l ++ slice start (start + n) l ++ drop (start + n) l.
Proof.
  intros H. unfold slice. replace (start + n - start)%nat with n by lia.
  by rewrite <- drop_drop, !take_drop.
Qed.

Lemma is_candidate_spec lines h start :
  (start + length (old_lines h) <= length lines)%nat ->
  is_candidate lines h start = true <->
  hunk_at lines h (take start lines) (drop (start + length (old_lines h)) lines).
Proof.
  intros Hlen. unfold is_candidate, hunk_at, lines_eqb.
  pose proof (slice_decompose start _ lines Hlen) as Hd.
  assert (Htl : length (take start lines) = start) by (rewrite length_take; lia).
  rewrite andb_true_iff, bool_decide_eq_true. split.
  - intros [E Ha]. rewrite E in Hd. split; [done|]. destruct (anchor h) as [a|]; [|done].
    apply existsb_exists in Ha as (l & Hin & Hc). exists l. split; [|done].
    apply list_elem_of_In in Hin. rewrite Hd in Hin.
    rewrite app_assoc, <- Htl in Hin at 1. rewrite <- length_app, take_app_length in Hin. done.
  - intros [E Ha]. split.
    { rewrite E at 1. rewrite <- Htl at 1 2. apply slice_app. }
    destruct (anchor h) as [a|]; [|done]. destruct Ha as (l & Hin & Hc).
    apply existsb_exists. exists l. split; [|done]. apply list_elem_of_In.
    rewrite E, app_assoc. rewrite <- Htl at 1. rewrite <- length_app, take_app_length. done.
Qed.

Lemma candidates_spec lines h start :
  start ∈ candidates lines h <->
  (start + length (old_lines h) <= length lines)%nat /\ is_candidate lines h start = true.
Proof.
  unfold candidates. case_bool_decide as E.
  - rewrite list_elem_of_In, filter_In, in_seq. split; intros [? ?]; (split; [lia|done]).
  - rewrite elem_of_nil. split; [done|]. lia.
Qed.

Lemma hunk_at_candidate lines h before after :
  hunk_at lines h before after -> length before ∈ candidates lines h /\ before = take (length before) lines.
Proof.
  intros [-> Ha]. rewrite take_app_length. split; [|done].
  apply candidates_spec. assert (Hlen : (length before + length (old_lines h) <= length (before ++ old_lines h ++ after))%nat)
    by (rewrite !length_app; lia).
  split; [done|]. apply is_candidate_spec; [done|]. rewrite take_app_length.
  split; [|done]. by rewrite app_assoc, <- length_app, drop_app_length, <- app_assoc.
Qed.

Lemma candidate_hunk_at lines h start :
  start ∈ candidates lines h ->
  hunk_at lines h (take start lines) (drop (start + length (old_lines h)) lines) /\
  length (take start lines) = start.
Proof.
  intros [Hlen Hc]%candidates_spec. split; [by apply is_candidate_spec|].
  rewrite length_take. lia.
Qed.

Lemma NoDup_candidates lines h : NoDup (candidates lines h).
Proof.
  unfold candidates. case_bool_decide; [|constructor].
  apply NoDup_ListNoDup, List.NoDup_filter, seq_NoDup.
Qed.

Lemma hunk_at_fun lines h b a a' : hunk_at lines h b a -> hunk_at lines h b a' -> a = a'.
Proof. intros [-> _] [E _]. by apply app_inv_head, app_inv_head in E. Qed.

Lemma candidates_unique lines h start :
  candidates lines h = [start] ->
  let before := take start lines in
  let after := drop (start + length (old_lines h)) lines in
  hunk_at lines h before after /\ (forall b a, hunk_at lines h b a -> b = before).
Proof.
  intros E before after. assert (Hin : start ∈ candidates lines h) by (rewrite E; by left).
  split; [by apply candidate_hunk_at|].
  intros b a H. apply hunk_at_candidate in H as [Hb Heq].
  rewrite E, list_elem_of_singleton in Hb. by rewrite Heq, Hb.
Qed.

Lemma candidates_of_unique lines h before after :
  hunk_at lines h before after -> (forall b a, hunk_at lines h b a -> b = before) ->
  candidates lines h = [length before].
Proof.
  intros H Hu. destruct (hunk_at_candidate _ _ _ _ H) as [Hin _].
  pose proof (NoDup_candidates lines h) as Hnd.
  assert (Hall : forall s, s ∈ candidates lines h -> s = length before).
  { intros s [Hs Hl]%candidate_hunk_at. by rewrite <- Hl, (Hu _ _ Hs). }
  destruct (candidates lines h) as [|x [|y l]]; [by apply elem_of_nil in Hin| |].
  - f_equal. apply Hall. by left.
  - assert (x = y) as -> by (rewrite (Hall x), (Hall y); set_solver).
    apply NoDup_cons in Hnd as [[] _]. by left.
Qed.

Lemma splice_take_drop lines start h :
  splice lines start (length (old_lines h)) (new_lines h) =
  take start lines ++ new_lines h ++ drop (start + length (old_lines h)) lines.
Proof. done. Qed.

(** What the loop answers, for the hunks from number [index + 1] on. *)
Definition apply_outcome (index : Z) (lines : list str) (hunks : list PatchHunk)
    (res : result (list str) PatchError) : Prop :=
  match res with
  | Ok r => applied lines hunks r
  | Err e =>
      exists pre h post ls, hunks = pre ++ h :: post /\ applied lines pre ls /\
        let k := index + Z.of_nat (length pre) + 1 in
        (e = ContextNotFound k /\ forall b a, ~ hunk_at ls h b a) \/
        (e = AmbiguousContext k /\ exists b a b' a', hunk_at ls h b a /\ hunk_at ls h b' a' /\ b <> b')
  end.

Lemma apply_hunks_loop_spec index lines hunks :
  apply_outcome index lines hunks (apply_hunks_loop index lines hunks).
Proof.
  revert index lines; induction hunks as [|h hs IH]; intros index lines; [constructor|].
  cbn [apply_hunks_loop]. destruct (candidates lines h) as [|s [|s' l]] eqn:E.
  - exists [], h, hs, lines. split_and!; [done|constructor|]. left. simpl. split; [f_equal; lia|].
    intros b a [Hin _]%hunk_at_candidate. rewrite E in Hin. by apply elem_of_nil in Hin.
  - destruct (candidates_unique _ _ _ E) as [Hat Hu].
    specialize (IH (index + 1) (splice lines s (length (old_lines h)) (new_lines h))).
    destruct (apply_hunks_loop _ _ hs) as [r|e]; simpl in *.
    + econstructor; eauto.
    + destruct IH as (pre & h' & post & ls & -> & Hap & Hk).
      exists (h :: pre), h', post, ls. split_and!; [done|econstructor; eauto|].
      replace (index + Z.of_nat (length (h :: pre)) + 1) with (index + 1 + Z.of_nat (length pre) + 1)
        by (simpl; lia). done.
  - exists [], h, hs, lines. split_and!; [done|constructor|]. right. simpl. split; [f_equal; lia|].
    assert (Hs : s ∈ candidates lines h) by (rewrite E; by left).
    assert (Hs' : s' ∈ candidates lines h) by (rewrite E; right; by left).
    apply candidate_hunk_at in Hs as [H1 L1]. apply candidate_hunk_at in Hs' as [H2 L2].
    do 4 eexists. split_and!; [exact H1|exact H2|]. intros Heq.
    pose proof (NoDup_candidates lines h) as Hnd. rewrite E in Hnd.
    apply NoDup_cons in Hnd as [[] _]. rewrite <- L1, <- L2, Heq. by left.
Qed.

Lemma applied_loop index lines hunks r :
  applied lines hunks r -> apply_hunks_loop index lines hunks = Ok r.
Proof.
  intros H. revert index. induction H as [|lines h before after hs r Hat Hu _ IH]; intros index; [done|].
  cbn [apply_hunks_loop]. rewrite (candidates_of_unique _ _ _ _ Hat Hu), splice_take_drop.
  destruct Hat as [-> _]. rewrite take_app_length.
  assert (drop (length before + length (old_lines h)) (before ++ old_lines h ++ after) = after) as ->
    by (by rewrite app_assoc, <- length_app, drop_app_length).
  apply IH.
Qed.

(** C11. An update changes exactly what its hunks say. [apply_hunks] succeeds
    if and only if each hunk in turn has exactly one position where its old
    lines (and its anchor) match, and the result is then the text with those
    lines replaced and every other line, and the final line feed, kept; with
    no hunk the text is unchanged byte for byte. Otherwise it fails with the
    number of the first hunk that has no position, or more than one. *)
Theorem apply_hunks_correct (content : str) (hunks : list PatchHunk) :
  (forall r, apply_hunks content hunks = Ok r <->
     exists ls, applied (content_lines content) hunks ls /\
       r = lines_content (ends_with [NL] content) ls) /\
  (forall e, apply_hunks content hunks = Err e ->
     apply_outcome 0 (content_lines content) hunks (Err e)) /\
  apply_hunks content [] = Ok content.
Proof.
  pose proof (apply_hunks_loop_spec 0 (content_lines content) hunks) as Hspec.
  unfold apply_hunks. split_and!.
  - intros r. split.
    + intros H. res_inv. eauto.
    + intros (ls & Hap & ->). by rewrite (applied_loop 0 _ _ _ Hap).
  - intros e H. res_inv. done.
  - cbn [apply_hunks_loop rbind]. by rewrite lines_content_lines.
Qed.

Lemma apply_hunks_correct_witness :
  exists ls, applied (content_lines (lit "a" ++ [NL] ++ lit "b" ++ [NL]))
      [{| anchor := None; old_lines := [lit "b"]; new_lines := [lit "c"; lit "d"] |}] ls /\
    lit "a" ++ [NL] ++ lit "c" ++ [NL] ++ lit "d" ++ [NL] =
      lines_content (ends_with [NL] (lit "a" ++ [NL] ++ lit "b" ++ [NL])) ls.
Proof.
  apply (proj1 (apply_hunks_correct _ _)). vm_compute. reflexivity.
Defined.

(** A plan tells the truth about its file: it is for the patched path, it
    is marked unchanged exactly when the planned content is the current one,
    it deletes exactly for a delete section, an add section plans its own
    content and only where no file is, and update and delete plan only where
    there is one. *)
Theorem plan_sound (p : FilePatch) (current : option str) (pl : PlannedPatch)
    (H : plan p current = Ok pl) :
  planned_path pl = path p /\
  (changed pl = false <-> new_content pl = current) /\
  (new_content pl = None <-> operation p = Delete) /\
  (current = None <-> exists content, operation p = Add content /\ new_content pl = Some content) /\
  (forall hs old, operation p = Update hs -> current = Some old ->
     exists new, new_content pl = Some new /\ apply_hunks old hs = Ok new).
Proof.
  unfold plan in H. destruct (operation p) as [content|hunks|] eqn:Eop, current as [old|]; simpl in H; try done.
  - simplify_eq/=. naive_solver.
  - res_inv. unfold str_eqb. split_and!; [done| |naive_solver..].
    rewrite negb_false_iff, bool_decide_eq_true. naive_solver.
  - simplify_eq/=. naive_solver.
Qed.

Lemma plan_sound_witness :
  let p := {| path := lit "/f"; operation := Update [{| anchor := None; old_lines := [lit "x"]; new_lines := [lit "x"] |}] |} in
  exists pl, plan p (Some (lit "x")) = Ok pl /\ (changed pl = false <-> new_content pl = Some (lit "x")).
Proof.
  intros p. eexists. split; [vm_compute; reflexivity|].
  exact (proj1 (proj2 (plan_sound p (Some (lit "x")) _ ltac:(vm_compute; reflexivity)))).
Defined.

(** ** The text format *)

Definition wf_hunk (h : PatchHunk) : Prop :=
  old_lines h <> [] /\ Forall no_nl (old_lines h) /\ Forall no_nl (new_lines h) /\
  (forall a, anchor h = Some a -> a <> [] /\ no_nl a).

Definition wf_operation (op : PatchOperation) : Prop :=
  match op with
  | Add content => content = [] \/ ends_with [NL] content = true
  | Update hunks => hunks <> [] /\ Forall wf_hunk hunks
  | Delete => True
  end.

Definition wf_patch (p : FilePatch) : Prop :=
  validate_path (path p) = Ok tt /\ wf_operation (operation p).

(** *** Rendering *)

Definition print_hunk (h : PatchHunk) : list str :=
  (match anchor h with None => lit "@@" | Some a => lit "@@ " ++ a end)
    :: (cons 45 <$> old_lines h) ++ (cons 43 <$> new_lines h).

Definition print_hunks (hs : list PatchHunk) : list str := mjoin (print_hunk <$> hs).

Definition print_section (p : FilePatch) : list str :=
  match operation p with
  | Add content => (ADD_FILE ++ path p) :: (cons 43 <$> content_lines content)
  | Update hunks => (UPDATE_FILE ++ path p) :: print_hunks hunks
  | Delete => [DELETE_FILE ++ path p]
  end.

Definition print_patch (ps : list FilePatch) : str :=
  join [NL] (BEGIN_PATCH :: mjoin (print_section <$> ps) ++ [END_PATCH]).

(** *** Sections *)

Lemma add_content_lines_print ls : add_content_lines (cons 43 <$> ls) = Ok ls.
Proof.
  induction ls as [|l ls IH]; [done|]. cbn [fmap list_fmap add_content_lines].
  change (strip_prefix (lit "+") (43 :: l)) with (Some l). by rewrite IH.
Qed.

Lemma add_content_lines_inv lines ls : add_content_lines lines = Ok ls -> lines = cons 43 <$> ls.
Proof.
  revert ls; induction lines as [|l lines IH]; intros ls H; cbn [add_content_lines] in H; res_inv; [done|].
  apply strip_prefix_Some in Heqo as ->. cbn. f_equal. by apply IH.
Qed.

Lemma content_lines_join ls :
  ls <> [] -> Forall no_nl ls -> content_lines (join [NL] ls ++ [NL]) = ls.
Proof.
  intros Hne Hnl. unfold content_lines, str_eqb.
  rewrite bool_decide_eq_false_2 by (intros [_ ?]%app_eq_nil; done).
  rewrite (proj2 (strip_suffix_Some [NL] _ _) eq_refl). cbn [default].
  apply split_char_join; [done|]. intros p Hp. rewrite Forall_forall in Hnl. by apply Hnl.
Qed.

Lemma parse_add_print content :
  wf_operation (Add content) -> parse_add (cons 43 <$> content_lines content) = Ok content.
Proof.
  unfold parse_add. rewrite add_content_lines_print. cbn [rbind].
  intros [->|He]; [done|].
  pose proof (lines_content_lines content) as Hl. rewrite He in Hl.
  unfold lines_content in Hl. destruct (content_lines content) as [|l ls]; [|exact (f_equal Ok Hl)].
  exact (f_equal Ok Hl).
Qed.

Lemma parse_add_wf lines content : parse_add lines = Ok content -> wf_operation (Add content).
Proof.
  unfold parse_add. intros H. destruct (add_content_lines lines) as [[|l ls]|]; simplify_eq/=; [by left|].
  right. apply ends_with_spec. by eexists.
Qed.

(** *** Hunks *)

Lemma parse_hunk_minus os tl old new b :
  parse_hunk_lines ((cons 45 <$> os) ++ tl) old new b =
  parse_hunk_lines tl (old ++ os) new (b || negb (bool_decide (os = []))).
Proof.
  revert old b; induction os as [|o os IH]; intros old b.
  - simpl. by rewrite app_nil_r, orb_false_r.
  - change ((cons 45 <$> o :: os) ++ tl) with ((45 :: o) :: (cons 45 <$> os) ++ tl).
    transitivity (parse_hunk_lines ((cons 45 <$> os) ++ tl) (old ++ [o]) new true); [done|].
    rewrite IH, <- app_assoc. simpl. by rewrite orb_true_r.
Qed.

Lemma parse_hunk_plus ns tl old new :
  parse_hunk_lines ((cons 43 <$> ns) ++ tl) old new true =
  parse_hunk_lines tl old (new ++ ns) true.
Proof.
  revert new; induction ns as [|n ns IH]; intros new; [by rewrite app_nil_r|].
  change ((cons 43 <$> n :: ns) ++ tl) with ((43 :: n) :: (cons 43 <$> ns) ++ tl).
  transitivity (parse_hunk_lines ((cons 43 <$> ns) ++ tl) old (new ++ [n]) true); [done|].
  by rewrite IH, <- app_assoc.
Qed.

Definition hunk_boundary (rest : list str) : Prop :=
  match rest with [] => True | l :: _ => starts_with (lit "@@") l = true end.

Lemma parse_hunk_stop rest old new b :
  hunk_boundary rest -> parse_hunk_lines rest old new b = Ok (old, new, b, rest).
Proof. destruct rest as [|l rest]; [done|]. intros H. cbn [parse_hunk_lines]. simpl in H. by rewrite H. Qed.

Lemma parse_anchor_print a :
  (forall x, a = Some x -> x <> [] /\ no_nl x) ->
  parse_anchor (match a with None => lit "@@" | Some x => lit "@@ " ++ x end) = Ok a.
Proof.
  destruct a as [x|]; [|done]. intros H. destruct (H x eq_refl) as [Hx _].
  unfold parse_anchor. rewrite strip_prefix_app.
  change (starts_with SECTION_MARK (lit "@@ " ++ x)) with false. cbn iota.
  assert (str_eqb (lit "@@ " ++ x) (lit "@@") = false) as ->.
  { apply bool_decide_eq_false_2. done. }
  unfold str_eqb. by rewrite bool_decide_eq_false_2.
Qed.

Lemma print_hunks_boundary hs : hunk_boundary (print_hunks hs).
Proof.
  destruct hs as [|h hs]; [done|]. cbn [print_hunks fmap list_fmap mjoin list_join print_hunk app hunk_boundary].
  by destruct (anchor h).
Qed.

Lemma parse_update_loop_print fuel hs acc :
  (length (print_hunks hs) <= fuel)%nat -> Forall wf_hunk hs ->
  parse_update_loop fuel (print_hunks hs) acc = Ok (acc ++ hs).
Proof.
  revert fuel acc; induction hs as [|h hs IH]; intros fuel acc Hf Hwf.
  - simpl. destruct fuel; simpl; by rewrite app_nil_r.
  - apply Forall_cons in Hwf as [(Hold & _ & _ & Ha) Hwf].
    unfold print_hunks in *. cbn [fmap list_fmap mjoin list_join] in *.
    unfold print_hunk at 1 in Hf. unfold print_hunk at 1. cbn [app length] in *.
    destruct fuel as [|f]; [lia|]. cbn [parse_update_loop]. rewrite parse_anchor_print by done.
    cbn [rbind]. rewrite <- app_assoc, parse_hunk_minus.
    rewrite bool_decide_eq_false_2 by done. cbn [negb orb app].
    rewrite parse_hunk_plus, parse_hunk_stop by apply print_hunks_boundary. cbn [rbind app negb].
    rewrite bool_decide_eq_false_2 by done.
    rewrite IH; [| |done].
    2: { apply le_S_n in Hf. eapply Nat.le_trans; [|exact Hf]. rewrite length_app. apply Nat.le_add_l. }
    rewrite <- app_assoc. by destruct h.
Qed.

Lemma parse_update_print hs : wf_operation (Update hs) -> parse_update (print_hunks hs) = Ok hs.
Proof.
  intros [Hne Hwf]. unfold parse_update.
  pose proof (parse_update_loop_print (length (print_hunks hs)) hs [] ltac:(done) Hwf) as H.
  destruct (print_hunks hs) eqn:E; [|done]. by destruct hs.
Qed.

Lemma parse_hunk_lines_inv lines old new b old' new' b' rest :
  parse_hunk_lines lines old new b = Ok (old', new', b', rest) ->
  Forall no_nl lines -> Forall no_nl old -> Forall no_nl new ->
  Forall no_nl old' /\ Forall no_nl new' /\ exists used, lines = used ++ rest.
Proof.
  revert old new b; induction lines as [|l lines IH]; intros old new b H Hl Ho Hn;
    cbn [parse_hunk_lines] in H; [simplify_eq; split_and!; by try exists []|].
  apply Forall_cons in Hl as [Hl Hls].
  destruct (starts_with (lit "@@") l); [simplify_eq; split_and!; by try exists []|].
  destruct (starts_with SECTION_MARK l); [done|]. destruct l as [|c text]; [done|].
  assert (Ht : no_nl text) by (unfold no_nl in *; set_solver).
  repeat case_match; try done; apply IH in H as (? & ? & used & ->);
    rewrite ?Forall_app, ?Forall_singleton; try done; (split_and!; [done..|]);
    by exists ((c :: text) :: used).
Qed.

Lemma parse_anchor_wf marker a :
  parse_anchor marker = Ok a -> no_nl marker -> forall x, a = Some x -> x <> [] /\ no_nl x.
Proof.
  unfold parse_anchor, str_eqb. intros H Hm x ->. res_inv. bool_hyps.
  apply strip_prefix_Some in Heqo as ->. split; [done|]. unfold no_nl in *. set_solver.
Qed.

Lemma parse_update_loop_wf fuel lines acc hs :
  parse_update_loop fuel lines acc = Ok hs -> Forall no_nl lines -> Forall wf_hunk acc ->
  Forall wf_hunk hs /\ exists more, hs = acc ++ more /\ (lines <> [] -> fuel <> O -> more <> []).
Proof.
  revert lines acc; induction fuel as [|f IH]; intros lines acc H Hl Hacc.
  - destruct lines; simpl in H; simplify_eq; (split; [done|]); exists []; by rewrite app_nil_r.
  - destruct lines as [|m body]; cbn [parse_update_loop] in H.
    { simplify_eq. split; [done|]. exists []. by rewrite app_nil_r. }
    apply Forall_cons in Hl as [Hm Hl].
    destruct (parse_anchor m) as [a|] eqn:Ea; cbn [rbind] in H; [|done].
    destruct (parse_hunk_lines body [] [] false) as [[[[old new] chg] rest]|] eqn:Eh; cbn [rbind] in H; [|done].
    case_bool_decide as Hold; [done|]. destruct chg; cbn [negb] in H; [|done].
    apply parse_hunk_lines_inv in Eh as (Ho & Hn & used & ->); [|done|by constructor..].
    apply Forall_app in Hl as [_ Hrest].
    apply IH in H as (Hwf & more & -> & _); [|done|].
    + split; [done|]. eexists. rewrite <- app_assoc. split; [reflexivity|done].
    + apply Forall_app. split; [done|]. apply Forall_singleton. split_and!; [done..|].
      exact (parse_anchor_wf _ _ Ea Hm).
Qed.

Lemma parse_hunk_lines_length lines old new b old' new' b' rest :
  parse_hunk_lines lines old new b = Ok (old', new', b', rest) -> (length rest <= length lines)%nat.
Proof.
  revert old new b; induction lines as [|l lines IH]; intros old new b E;
    cbn [parse_hunk_lines] in E; [by simplify_eq|].
  repeat case_match; simplify_eq; try (simpl; lia); apply IH in E; simpl; lia.
Qed.

(** The fuel of the outer loop is enough: more never changes the answer. *)
Lemma parse_update_fuel_enough fuel lines acc :
  (length lines <= fuel)%nat ->
  parse_update_loop fuel lines acc = parse_update_loop (length lines) lines acc.
Proof.
  revert lines acc; induction fuel as [fuel IH] using lt_wf_ind; intros lines acc Hf.
  destruct lines as [|m body]; [by destruct fuel|]. destruct fuel as [|f]; [simpl in Hf; lia|].
  cbn [length parse_update_loop]. destruct (parse_anchor m); [|done]. cbn [rbind].
  destruct (parse_hunk_lines body [] [] false) as [[[[old new] chg] rest]|] eqn:E; [|done]. cbn [rbind].
  case_bool_decide; [done|]. destruct (negb chg); [done|].
  assert (Hr : (length rest <= length body)%nat)
    by (by apply parse_hunk_lines_length in E).
  simpl in Hf. rewrite IH by lia. destruct (decide (length body < S f)%nat).
  - by rewrite (IH (length body)) by lia.
  - replace (length body) with f in * by lia. by rewrite (IH f) by lia.
Qed.

Lemma parse_update_wf lines hs :
  parse_update lines = Ok hs -> Forall no_nl lines -> wf_operation (Update hs).
Proof.
  unfold parse_update. destruct lines as [|m body]; [done|]. intros H Hl.
  apply parse_update_loop_wf in H as (Hwf & more & -> & Hne); [|done|constructor].
  split; [|done]. apply Hne; done.
Qed.

Lemma parse_section_wf section p :
  parse_section section = Ok p -> Forall no_nl section -> wf_patch p.
Proof.
  intros H Hl. unfold parse_section in H.
  assert (Hb : Forall no_nl (tail section)) by (destruct section; [constructor|by apply Forall_cons in Hl as []]).
  destruct (parse_operation _ _) as [[q op]|] eqn:E; cbn [rbind] in H; [|done].
  destruct (validate_path q) as [[]|] eqn:V; simplify_eq/=. split; [done|]. simpl.
  revert Hb E. generalize (tail section) as body, (default [] (head section)) as header.
  intros body header Hb E. unfold parse_operation in E.
  destruct (strip_prefix ADD_FILE header); [res_inv; by eapply parse_add_wf|].
  destruct (strip_prefix UPDATE_FILE header); [res_inv; by eapply parse_update_wf|].
  destruct (strip_prefix DELETE_FILE header); [|by destruct (starts_with MOVE_TO header)].
  destruct body; by simplify_eq/=.
Qed.

Lemma parse_section_print p : wf_patch p -> parse_section (print_section p) = Ok p.
Proof.
  intros [V Hop]. destruct p as [q [content|hunks|]]; simpl in V, Hop; unfold print_section, parse_section, parse_operation;
    cbn [path operation hd_error tail from_option id].
  - rewrite strip_prefix_app, parse_add_print by done. cbn [rbind]. by rewrite V.
  - change (strip_prefix ADD_FILE (UPDATE_FILE ++ q)) with (@None str).
    rewrite strip_prefix_app, parse_update_print by done. cbn [rbind]. by rewrite V.
  - change (strip_prefix ADD_FILE (DELETE_FILE ++ q)) with (@None str).
    change (strip_prefix UPDATE_FILE (DELETE_FILE ++ q)) with (@None str).
    rewrite strip_prefix_app. cbn [rbind]. by rewrite V.
Qed.

(** *** The section loop *)

Lemma section_loop_skip lines es es' start paths acc :
  Forall (fun e => e <> (length lines - 1)%nat /\ is_file_header (default [] (lines !! e)) = false) es ->
  section_loop lines (es ++ es') start paths acc = section_loop lines es' start paths acc.
Proof.
  induction 1 as [|e es [Hl Hh] _ IH]; [done|]. cbn [section_loop app].
  by rewrite bool_decide_eq_false_2, Hh.
Qed.

Lemma body_not_header c l : c <> 42 -> is_file_header (c :: l) = false.
Proof.
  intros Hc. unfold is_file_header.
  assert (H : forall p, head p = Some 42 -> starts_with p (c :: l) = false).
  { intros [|d p] [= ->]. apply not_true_iff_false. intros [r [= E _]]%starts_with_spec. done. }
  by rewrite !H.
Qed.

Lemma print_section_shape p :
  wf_patch p ->
  exists h body, print_section p = h :: body /\ is_file_header h = true /\
    Forall (fun l => is_file_header l = false) body /\ Forall no_nl (h :: body).
Proof.
  intros [V Hop].
  assert (Hp : no_nl (path p)).
  { unfold validate_path in V. res_inv. apply validate_basic_ok in Heqr0 as (_ & _ & Hc & _).
    intros Hin. rewrite Forall_forall in Hc. by apply Hc in Hin. }
  assert (Happ : forall s, contains_char NL s = false -> no_nl (s ++ path p)).
  { intros s Hs. unfold no_nl. rewrite elem_of_app. apply contains_char_false in Hs. by intros [?|?]. }
  assert (Hcons : forall c ls, c <> 42 -> c <> NL -> Forall no_nl ls ->
    Forall (fun l => is_file_header l = false) (cons c <$> ls) /\ Forall no_nl (cons c <$> ls)).
  { intros c ls H1 H2 H. split; apply Forall_fmap.
    - apply Forall_true. intros l. by apply body_not_header.
    - eapply Forall_impl; [exact H|]. intros l Hl. unfold no_nl; simpl. by rewrite elem_of_cons; intros [|]. }
  unfold print_section. destruct (operation p) as [content|hunks|]; do 2 eexists.
  - assert (Forall no_nl (content_lines content)) as Hc.
    { unfold content_lines. case_match; [constructor|apply Forall_split_no_nl]. }
    destruct (Hcons 43 _ ltac:(done) ltac:(done) Hc).
    split_and!; [reflexivity| |done|constructor; [|done]]; [by unfold is_file_header; rewrite starts_with_app|].
    by apply Happ.
  - destruct Hop as [_ Hh]. split_and!; [reflexivity| | |constructor; [by apply Happ|]].
    + unfold is_file_header. by rewrite starts_with_app, orb_true_r.
    + apply Forall_join, Forall_fmap. eapply Forall_impl; [exact Hh|].
      intros h (_ & Ho & Hn & _). simpl. unfold print_hunk. constructor.
      { destruct (anchor h); by apply body_not_header. }
      apply Forall_app. split; by apply Hcons.
    + apply Forall_join, Forall_fmap. eapply Forall_impl; [exact Hh|].
      intros h (_ & Ho & Hn & Ha). simpl. unfold print_hunk. constructor.
      { destruct (anchor h) as [a|]; [|by apply contains_char_false].
        destruct (Ha a eq_refl) as [_ Hna]. unfold no_nl. rewrite elem_of_app. intros [H|?]; [|done].
        by apply contains_char_spec in H. }
      apply Forall_app. split; by apply Hcons.
  - split_and!; [reflexivity| |constructor|repeat constructor; by apply Happ].
    unfold is_file_header. by rewrite starts_with_app, orb_true_r.
Qed.

(** One section of a printed patch is parsed and the loop stands at the next. *)
Lemma section_loop_step (p : FilePatch) (h : str) (body pre rest : list str) (acc : list FilePatch) (paths : gset str) :
  parse_section (h :: body) = Ok p -> path p ∉ paths ->
  Forall (fun l => is_file_header l = false) body ->
  (length rest = 1%nat \/ exists h' r', rest = h' :: r' /\ is_file_header h' = true) ->
  let lines := pre ++ (h :: body) ++ rest in
  let start' := length (pre ++ h :: body) in
  section_loop lines (seq (length pre + 1) (length lines - length pre - 1)) (length pre) paths acc =
  section_loop lines (seq (start' + 1) (length lines - start' - 1)) start' ({[path p]} ∪ paths) (acc ++ [p]).
Proof.
  intros Hparse Hfresh Hbody Hrest lines start'.
  assert (Hs : start' = (length pre + S (length body))%nat) by (unfold start'; rewrite length_app; done).
  assert (Hr : exists r, length rest = S r)
    by (destruct Hrest as [->|(h' & r' & -> & _)]; eexists; reflexivity).
  destruct Hr as [r Hr].
  assert (Hlen : length lines = (length pre + S (length body) + S r)%nat)
    by (unfold lines; rewrite !length_app; simpl; lia).
  replace (length lines - length pre - 1)%nat with (length body + S r)%nat by lia.
  rewrite seq_app, section_loop_skip.
  2: { apply Forall_forall. intros e He%elem_of_seq. split; [lia|].
       unfold lines. rewrite lookup_app_r by lia.
       replace (e - length pre)%nat with (S (e - length pre - 1)) by lia. simpl.
       rewrite lookup_app_l by lia.
       destruct (lookup_lt_is_Some_2 body (e - length pre - 1)) as [l Hl]; [lia|].
       rewrite Hl. simpl. rewrite Forall_lookup in Hbody. by eapply Hbody. }
  cbn [seq section_loop]. replace (length pre + 1 + length body)%nat with start' by lia.
  assert (lines !! start' = head rest) as ->.
  { unfold lines, start'. rewrite app_assoc, lookup_app_r, Nat.sub_diag by lia. by destruct rest. }
  assert (bool_decide (start' = (length lines - 1)%nat) || is_file_header (default [] (head rest)) = true) as ->.
  { apply orb_true_iff. destruct Hrest as [Hl|(h' & r' & -> & Hh)]; [left; apply bool_decide_eq_true; lia|by right]. }
  assert (slice (length pre) start' lines = h :: body) as ->.
  { rewrite Hs. unfold lines. change (S (length body)) with (length (h :: body)). apply slice_app. }
  rewrite Hparse. cbn [rbind]. rewrite bool_decide_eq_false_2 by done.
  f_equal; f_equal; lia.
Qed.

Lemma section_loop_print (ps : list FilePatch) (pre : list str) (acc : list FilePatch) (paths : gset str) :
  Forall wf_patch ps -> NoDup (path <$> ps) -> (forall p, p ∈ ps -> path p ∉ paths) ->
  let lines := pre ++ mjoin (print_section <$> ps) ++ [END_PATCH] in
  section_loop lines (seq (length pre + 1) (length lines - length pre - 1)) (length pre) paths acc =
  Ok (acc ++ ps).
Proof.
  revert pre acc paths; induction ps as [|p ps IH]; intros pre acc paths Hwf Hnd Hfresh lines.
  - unfold lines. simpl. rewrite length_app. simpl.
    replace (length pre + 1 - length pre - 1)%nat with O by lia. by rewrite app_nil_r.
  - apply Forall_cons in Hwf as [Hp Hwf]. cbn [fmap list_fmap] in Hnd. apply NoDup_cons in Hnd as [Hn Hnd].
    pose proof (parse_section_print p Hp) as Hparse.
    destruct (print_section_shape p Hp) as (h & body & Es & Hh & Hbody & _).
    rewrite Es in Hparse.
    assert (El : lines = pre ++ (h :: body) ++ mjoin (print_section <$> ps) ++ [END_PATCH]).
    { unfold lines. cbn [fmap list_fmap mjoin list_join]. rewrite Es. by rewrite <- app_assoc. }
    assert (Hnext : length (mjoin (print_section <$> ps) ++ [END_PATCH]) = 1%nat \/
      exists h' r', mjoin (print_section <$> ps) ++ [END_PATCH] = h' :: r' /\ is_file_header h' = true).
    { destruct ps as [|p' ps]; [by left|right]. apply Forall_cons in Hwf as [Hp' _].
      destruct (print_section_shape p' Hp') as (h' & b' & Es' & Hh' & _).
      cbn [fmap list_fmap mjoin list_join]. rewrite Es'. by do 2 eexists. }
    clearbody lines. subst lines.
    rewrite (section_loop_step p) by (done || (apply Hfresh; by left)).
    specialize (IH (pre ++ h :: body) (acc ++ [p]) ({[path p]} ∪ paths) Hwf Hnd).
    rewrite <- !app_assoc in IH. apply IH.
    intros q Hq. rewrite not_elem_of_union, not_elem_of_singleton. split.
    + intros E. apply Hn. rewrite <- E. by apply list_elem_of_fmap_2.
    + apply Hfresh. by right.
Qed.

Lemma section_loop_wf lines ends start paths acc ps :
  section_loop lines ends start paths acc = Ok ps ->
  Forall no_nl lines -> Forall wf_patch acc -> NoDup (path <$> acc) ->
  (forall p, p ∈ acc -> path p ∈ paths) ->
  Forall wf_patch ps /\ NoDup (path <$> ps) /\
  exists more, ps = acc ++ more /\ ((length lines - 1)%nat ∈ ends -> more <> []).
Proof.
  revert start paths acc; induction ends as [|e ends IH]; intros start paths acc H Hl Hwf Hnd Hin;
    cbn [section_loop] in H.
  { simplify_eq. split_and!; [done..|]. exists []. rewrite app_nil_r. split; [done|]. by intros ?%elem_of_nil. }
  destruct (bool_decide (e = (length lines - 1)%nat) || _) eqn:E.
  - destruct (parse_section _) as [p|] eqn:Ep; cbn [rbind] in H; [|done].
    case_bool_decide as Hd; [done|].
    apply parse_section_wf in Ep; [|by apply Forall_take, Forall_drop].
    assert (Hfresh : path p ∉ path <$> acc).
    { intros (q & Eq & Hq)%list_elem_of_fmap. apply Hd. rewrite Eq. by apply Hin. }
    apply IH in H as (H1 & H2 & more & -> & _); [|done| | |].
    + split_and!; [done..|]. exists (p :: more). split; [by rewrite <- app_assoc|done].
    + apply Forall_app. split; [done|by apply Forall_singleton].
    + rewrite fmap_app. apply NoDup_app. split_and!; [done| |apply NoDup_singleton].
      intros q Hq ->%list_elem_of_singleton. done.
    + intros q. rewrite elem_of_app, list_elem_of_singleton. intros [Hq| ->]; [|set_solver].
      apply elem_of_union_r. by apply Hin.
  - apply IH in H as (H1 & H2 & more & -> & Hm); [|done..].
    split_and!; [done..|]. exists more. split; [done|].
    intros [He|?]%elem_of_cons; [|by apply Hm].
    by rewrite bool_decide_eq_true_2 in E by (symmetry; exact He).
Qed.

Lemma parse_patch_inv input ps :
  parse_patch input = Ok ps -> ps <> [] /\ NoDup (path <$> ps) /\ Forall wf_patch ps.
Proof.
  unfold parse_patch. set (lines := split_char NL _). intros H.
  repeat (case_bool_decide; [done|]).
  apply section_loop_wf in H as (Hw & Hd & more & -> & Hm);
    [|apply Forall_split_no_nl|constructor|constructor|by intros p ?%elem_of_nil].
  split_and!; [|done..]. apply Hm, elem_of_seq. lia.
Qed.

(** Every accepted patch is well formed: it has at least one section; no
    path occurs twice; each path is an absolute file path that passed
    [validate_path]; added content is empty or ends with a line feed; each
    update has at least one hunk, each hunk at least one old line, no anchor
    is empty, and no line of a hunk contains a line feed. *)
Theorem parse_patch_wf (input : str) (ps : list FilePatch) (H : parse_patch input = Ok ps) :
  ps <> [] /\ NoDup (path <$> ps) /\ Forall wf_patch ps.
Proof. by apply parse_patch_inv in H. Qed.

Lemma parse_patch_wf_witness :
  let p := {| path := lit "/etc/x"; operation := Delete |} in
  [p] <> [] /\ NoDup (path <$> [p]) /\ Forall wf_patch [p].
Proof.
  apply (parse_patch_wf (BEGIN_PATCH ++ [NL] ++ lit "*** Delete File: /etc/x" ++ [NL] ++ END_PATCH ++ [NL])).
  vm_compute. reflexivity.
Defined.

Lemma print_patch_last ps : exists q, print_patch ps = q ++ END_PATCH.
Proof.
  unfold print_patch. generalize (mjoin (print_section <$> ps)), BEGIN_PATCH.
  intros l. induction l as [|x l IH]; intros b; [by exists (b ++ [NL]); rewrite <- app_assoc|].
  destruct (IH x) as [q Hq]. exists (b ++ [NL] ++ q). cbn [app].
  change (join [NL] (b :: x :: l ++ [END_PATCH])) with (b ++ [NL] ++ join [NL] (x :: l ++ [END_PATCH])).
  by rewrite Hq, <- !app_assoc.
Qed.

Lemma strip_print_patch ps (final : bool) :
  default (print_patch ps ++ (if final then [NL] else []))
    (strip_suffix [NL] (print_patch ps ++ (if final then [NL] else []))) = print_patch ps.
Proof.
  destruct final; [by rewrite (proj2 (strip_suffix_Some [NL] _ _) eq_refl)|].
  rewrite app_nil_r. destruct (strip_suffix [NL] (print_patch ps)) as [r|] eqn:E; [|done].
  apply strip_suffix_Some in E. destruct (print_patch_last ps) as [q Hq]. rewrite Hq in E.
  change END_PATCH with (lit "*** End Patc" ++ lit "h") in E. rewrite app_assoc in E.
  by apply app_inj_tail in E as [_ E].
Qed.

(** C12. Printing and parsing: any non-empty list of well-formed patches with
    distinct paths is the parse of its rendering, with or without a final line
    feed. So the format can express every plan the types allow, and no
    rendered content can be mistaken for a section header or a hunk marker. *)
Theorem parse_print_patch (ps : list FilePatch) (final : bool)
    (Hne : ps <> []) (Hnd : NoDup (path <$> ps)) (Hwf : Forall wf_patch ps) :
  parse_patch (print_patch ps ++ (if final then [NL] else [])) = Ok ps.
Proof.
  set (lines := BEGIN_PATCH :: mjoin (print_section <$> ps) ++ [END_PATCH]).
  assert (Hlast : last lines = Some END_PATCH).
  { unfold lines. rewrite app_comm_cons. apply last_snoc. }
  assert (Hnl : Forall no_nl lines).
  { constructor; [by apply contains_char_false|]. apply Forall_app. split.
    - apply Forall_join, Forall_fmap. eapply Forall_impl; [exact Hwf|]. intros p Hp. simpl.
      by destruct (print_section_shape p Hp) as (h & b & -> & _ & _ & ?).
    - apply Forall_singleton. by apply contains_char_false. }
  unfold parse_patch. rewrite strip_print_patch.
  assert (split_char NL (print_patch ps) = lines) as ->.
  { apply split_char_join; [done|]. intros p Hp. rewrite Forall_forall in Hnl. by apply Hnl. }
  rewrite bool_decide_eq_false_2 by (intros E; by apply E).
  rewrite bool_decide_eq_false_2 by (intros E; by apply E).
  assert (Hlen : (3 <= length lines)%nat).
  { destruct ps as [|p ps]; [done|]. apply Forall_cons in Hwf as [Hp _].
    destruct (print_section_shape p Hp) as (h & b & Es & _).
    unfold lines. cbn [fmap list_fmap mjoin list_join]. rewrite Es. cbn [app length]. rewrite !length_app. cbn [length]. lia. }
  rewrite bool_decide_eq_false_2 by lia.
  pose proof (section_loop_print ps [BEGIN_PATCH] [] ∅ Hwf Hnd ltac:(by intros ? _ ?%elem_of_empty)) as Hloop.
  cbn [app length] in Hloop. fold lines in Hloop.
  replace (length lines - 2)%nat with (length lines - 1 - 1)%nat by lia. exact Hloop.
Qed.

Lemma parse_print_patch_witness :
  let ps := [ {| path := lit "/a"; operation := Add (lit "x" ++ [NL]) |};
              {| path := lit "/b"; operation :=
                   Update [{| anchor := Some (lit "fn"); old_lines := [lit "@@"]; new_lines := [] |}] |};
              {| path := lit "/c"; operation := Delete |} ] in
  parse_patch (print_patch ps ++ [NL]) = Ok ps.
Proof.
  apply (parse_print_patch _ true); [done| |].
  - apply (bool_decide_unpack _). vm_compute. exact I.
  - apply Forall_cons; split; [split; [vm_compute; reflexivity|right; vm_compute; reflexivity]|].
    apply Forall_cons; split; [split; [vm_compute; reflexivity|split; [done|]]|].
    + apply Forall_singleton. split_and!; [done| |constructor|].
      * apply Forall_singleton. by apply contains_char_false.
      * intros a [= <-]. split; [done|]. by apply contains_char_false.
    + apply Forall_singleton. split; [vm_compute; reflexivity|exact I].
Defined.
