(* ===== verification/Job.v ===== *)
(** * Background jobs (src/background/job.rs)

    The state of one job. A [SystemTime] is its signed distance from the Unix
    epoch in nanoseconds; the clock's reading is an argument of the operations
    that call [SystemTime::now]. A path is the string it displays. *)
From Stdlib Require Import ZArith String.
From stdpp Require Import base list gmap.
From S2P Require Import Prelude.

Inductive JobStatus : Type := Running | Completed | Failed | StateLost.

#[global] Instance JobStatus_eq_dec : EqDecision JobStatus.
Proof. solve_decision. Defined.

Definition status_as_str (s : JobStatus) : str :=
  match s with
  | Running => lit "running"
  | Completed => lit "completed"
  | Failed => lit "failed"
  | StateLost => lit "state_lost"
  end.

Record JobState : Type := {
  job_id : str;
  pid : Z;
  log_path : str;
  exit_code : option Z;
  status : JobStatus;
  state_reason : option str;
  start_time : Z;
  completed_at : option Z;
  command : str;
  connection_id : str
}.

Record PersistedJobState : Type := {
  version : Z;
  p_job_id : str;
  p_pid : Z;
  p_log_path : str;
  p_exit_code : option Z;
  p_status : JobStatus;
  p_state_reason : option str;
  start_time_unix_ms : Z;
  completed_at_unix_ms : option Z;
  p_command : str;
  p_connection_id : str
}.

#[global] Instance JobState_eq_dec : EqDecision JobState.
Proof. solve_decision. Defined.
#[global] Instance PersistedJobState_eq_dec : EqDecision PersistedJobState.
Proof. solve_decision. Defined.

Record NewRunningJob : Type := {
  n_job_id : str;
  n_pid : Z;
  n_log_path : str;
  n_command : str;
  n_connection_id : str
}.

(** [{:02}] *)
Definition pad2 (n : Z) : str := if n <? 10 then 48 :: show_uint n else show_uint n.

Definition format_ps_elapsed (elapsed : Z) : str :=
  let total_secs := elapsed / 1000000000 in
  let days := total_secs / 86400 in
  let hours := (total_secs mod 86400) / 3600 in
  let minutes := (total_secs mod 3600) / 60 in
  let seconds := total_secs mod 60 in
  if 0 <? days then
    show_uint days ++ lit "-" ++ pad2 hours ++ lit ":" ++ pad2 minutes ++ lit ":" ++ pad2 seconds
  else if 0 <? hours then
    pad2 hours ++ lit ":" ++ pad2 minutes ++ lit ":" ++ pad2 seconds
  else pad2 minutes ++ lit ":" ++ pad2 seconds.

Definition new_running (opts : NewRunningJob) (now : Z) : JobState := {|
  job_id := n_job_id opts;
  pid := n_pid opts;
  log_path := n_log_path opts;
  exit_code := None;
  status := Running;
  state_reason := None;
  start_time := now;
  completed_at := None;
  command := n_command opts;
  connection_id := n_connection_id opts
|}.

Definition is_terminal (j : JobState) : bool :=
  match status j with Completed | Failed | StateLost => true | Running => false end.

(** [SystemTime::duration_since]: an error when the other time is later. *)
Definition duration_since (t earlier : Z) : option Z :=
  if earlier <=? t then Some (t - earlier) else None.

Definition elapsed_time (j : JobState) (now : Z) : str :=
  let end_time := default now (completed_at j) in
  format_ps_elapsed (default 0 (duration_since end_time (start_time j))).

Definition get_or_insert (o : option Z) (now : Z) : option Z :=
  match o with Some t => Some t | None => Some now end.

Definition mark_exit (code now : Z) (j : JobState) : JobState := {|
  job_id := job_id j; pid := pid j; log_path := log_path j;
  exit_code := Some code;
  status := if code =? 0 then Completed else Failed;
  state_reason := None;
  start_time := start_time j;
  completed_at := get_or_insert (completed_at j) now;
  command := command j; connection_id := connection_id j
|}.

Definition mark_state_lost (reason : str) (now : Z) (j : JobState) : JobState := {|
  job_id := job_id j; pid := pid j; log_path := log_path j;
  exit_code := None;
  status := StateLost;
  state_reason := Some reason;
  start_time := start_time j;
  completed_at := get_or_insert (completed_at j) now;
  command := command j; connection_id := connection_id j
|}.

Definition system_time_to_unix_ms (value : Z) : Z :=
  Z.min (default 0 (duration_since value 0) / 1000000) U64_MAX.

Definition unix_ms_to_system_time (value : Z) : Z := value * 1000000.

Definition to_persisted (j : JobState) : PersistedJobState := {|
  version := 1;
  p_job_id := job_id j;
  p_pid := pid j;
  p_log_path := log_path j;
  p_exit_code := exit_code j;
  p_status := status j;
  p_state_reason := state_reason j;
  start_time_unix_ms := system_time_to_unix_ms (start_time j);
  completed_at_unix_ms := system_time_to_unix_ms <$> completed_at j;
  p_command := command j;
  p_connection_id := connection_id j
|}.

Definition from_persisted (p : PersistedJobState) : result JobState str :=
  if negb (version p =? 1) then Err (lit "unsupported persisted job state version")
  else Ok {|
    job_id := p_job_id p;
    pid := p_pid p;
    log_path := p_log_path p;
    exit_code := p_exit_code p;
    status := p_status p;
    state_reason := p_state_reason p;
    start_time := unix_ms_to_system_time (start_time_unix_ms p);
    completed_at := unix_ms_to_system_time <$> completed_at_unix_ms p;
    command := p_command p;
    connection_id := p_connection_id p
  |}.

(** ** The life of a job *)

(** What can happen to a job: its exit code arrives, or its state is lost. *)
Inductive job_event : Type :=
  | Exited (code now : Z)
  | Lost (reason : str) (now : Z).

Definition job_step (j : JobState) (e : job_event) : JobState :=
  match e with
  | Exited code now => mark_exit code now j
  | Lost reason now => mark_state_lost reason now j
  end.

Definition event_time (e : job_event) : Z :=
  match e with Exited _ now | Lost _ now => now end.

(** The fields agree with the status. *)
Definition job_wf (j : JobState) : Prop :=
  match status j with
  | Running => exit_code j = None /\ state_reason j = None /\ completed_at j = None
  | Completed => exit_code j = Some 0 /\ state_reason j = None /\ is_Some (completed_at j)
  | Failed => (exists c, exit_code j = Some c /\ c <> 0) /\ state_reason j = None /\ is_Some (completed_at j)
  | StateLost => exit_code j = None /\ is_Some (state_reason j) /\ is_Some (completed_at j)
  end.

Lemma new_running_wf opts now : job_wf (new_running opts now).
Proof. done. Qed.

Lemma job_step_wf j e : job_wf (job_step j e).
Proof.
  destruct e as [code now|reason now]; unfold job_wf; simpl.
  - destruct (code =? 0) eqn:E; bool_hyps; destruct (completed_at j); naive_solver.
  - destruct (completed_at j); naive_solver.
Qed.

Lemma job_step_terminal j e : is_terminal (job_step j e) = true.
Proof. destruct e as [code now|reason now]; simpl; [|done]. unfold is_terminal. simpl. by destruct (code =? 0). Qed.

Lemma job_wf_terminal j : job_wf j -> is_terminal j = true <-> is_Some (completed_at j).
Proof.
  unfold job_wf, is_terminal. destruct (status j); intros H; split; try done; try tauto.
  destruct H as (_ & _ & ->). by intros [? ?].
Qed.

Lemma foldl_completed_at es j t :
  completed_at j = Some t -> completed_at (foldl job_step j es) = Some t.
Proof.
  revert j; induction es as [|e es IH]; intros j H; [done|]. simpl. apply IH.
  destruct e; simpl; by rewrite H.
Qed.

Lemma foldl_job_wf es j : job_wf j -> job_wf (foldl job_step j es).
Proof. revert j; induction es as [|e es IH]; intros j H; [done|]. apply IH, job_step_wf. Qed.

Lemma foldl_identity es j :
  let j' := foldl job_step j es in
  job_id j' = job_id j /\ pid j' = pid j /\ log_path j' = log_path j /\
  start_time j' = start_time j /\ command j' = command j /\ connection_id j' = connection_id j.
Proof. revert j; induction es as [|e es IH]; intros j; [done|].
  destruct e as [c n|r n]; [exact (IH (mark_exit c n j))|exact (IH (mark_state_lost r n j))].
Qed.

(** A job's life. Whatever exits and losses are reported for a job, in
    any order, its fields agree with its status at every point: a running job
    has no exit code, reason or completion time; a completed one has exit code
    0, a failed one a non-zero exit code; a lost one a reason and no exit
    code. The completion time is that of the first report and no later report
    moves it, the latest report decides the status, and the identity of the
    job never changes. *)
Theorem job_life (opts : NewRunningJob) (start : Z) (es : list job_event) :
  let j := foldl job_step (new_running opts start) es in
  job_wf j /\
  (is_terminal j = true <-> es <> []) /\
  completed_at j = event_time <$> head es /\
  (job_id j, pid j, start_time j) = (n_job_id opts, n_pid opts, start) /\
  (forall es' code now, es = es' ++ [Exited code now] ->
     exit_code j = Some code /\ (status j = Completed <-> code = 0)) /\
  (forall es' reason now, es = es' ++ [Lost reason now] ->
     status j = StateLost /\ state_reason j = Some reason).
Proof.
  intros j. assert (Hc : completed_at j = event_time <$> head es).
  { destruct es as [|e es]; [done|]. unfold j. simpl. apply foldl_completed_at. by destruct e. }
  split_and!.
  - by apply foldl_job_wf.
  - rewrite job_wf_terminal by (by apply foldl_job_wf). rewrite Hc.
    destruct es; simpl; split; done.
  - done.
  - destruct (foldl_identity es (new_running opts start)) as (H1 & H2 & _ & H4 & _).
    unfold j. by rewrite H1, H2, H4.
  - intros es' code now ->. unfold j. rewrite foldl_app. simpl. split; [done|].
    destruct (code =? 0) eqn:E; bool_hyps; naive_solver.
  - intros es' reason now ->. unfold j. by rewrite foldl_app.
Qed.

(** ** Persistence *)

(** A time as the persisted form keeps it: whole milliseconds from the epoch. *)
Definition to_ms (t : Z) : Z := unix_ms_to_system_time (system_time_to_unix_ms t).

Definition round_to_ms (j : JobState) : JobState := {|
  job_id := job_id j; pid := pid j; log_path := log_path j;
  exit_code := exit_code j; status := status j; state_reason := state_reason j;
  start_time := to_ms (start_time j);
  completed_at := to_ms <$> completed_at j;
  command := command j; connection_id := connection_id j
|}.

Lemma ms_roundtrip v : 0 <= v <= U64_MAX -> system_time_to_unix_ms (unix_ms_to_system_time v) = v.
Proof.
  intros H. unfold system_time_to_unix_ms, unix_ms_to_system_time, duration_since.
  destruct (0 <=? v * 1000000) eqn:E; bool_hyps; [|lia]. simpl.
  rewrite Z.sub_0_r, Z.div_mul by lia. lia.
Qed.

Lemma system_time_to_unix_ms_range t : 0 <= system_time_to_unix_ms t <= U64_MAX.
Proof.
  unfold system_time_to_unix_ms, duration_since. destruct (0 <=? t) eqn:E; bool_hyps; simpl.
  - assert (0 <= (t - 0) / 1000000) by (apply Z.div_pos; lia). unfold U64_MAX. lia.
  - unfold U64_MAX. done.
Qed.

Lemma to_ms_close t : 0 <= t -> t / 1000000 <= U64_MAX -> to_ms t <= t < to_ms t + 1000000.
Proof.
  intros H0 H1. unfold to_ms, system_time_to_unix_ms, unix_ms_to_system_time, duration_since.
  destruct (0 <=? t) eqn:E; bool_hyps; [|lia]. simpl. rewrite Z.sub_0_r, Z.min_l by done.
  pose proof (Z.div_mod t 1000000). pose proof (Z.mod_pos_bound t 1000000). lia.
Qed.

Lemma omap_ms_roundtrip o :
  (forall v, o = Some v -> 0 <= v <= U64_MAX) ->
  (system_time_to_unix_ms <$> (unix_ms_to_system_time <$> o)) = o.
Proof. destruct o as [v|]; intros H; [|done]. simpl. rewrite ms_roundtrip; auto. Qed.

Lemma persisted_roundtrip_job j : from_persisted (to_persisted j) = Ok (round_to_ms j) /\ job_id (round_to_ms j) = job_id j.
Proof.
  split; [|done]. unfold from_persisted, round_to_ms, to_ms. simpl. f_equal. f_equal.
  by destruct (completed_at j).
Qed.

(** Persisting a job and loading it back gives the job with its times
    cut to whole milliseconds (less than one millisecond early for any time
    after the epoch), so the status, exit code and reason survive a restart
    and stay consistent; persisting a loaded record gives the record back; and
    a record of another version is refused. *)
Theorem persisted_roundtrip :
  (forall j, from_persisted (to_persisted j) = Ok (round_to_ms j)) /\
  (forall j, job_wf j -> job_wf (round_to_ms j)) /\
  (forall t, 0 <= t -> t / 1000000 <= U64_MAX -> to_ms t <= t < to_ms t + 1000000) /\
  (forall p j, from_persisted p = Ok j -> 0 <= start_time_unix_ms p <= U64_MAX ->
     (forall v, completed_at_unix_ms p = Some v -> 0 <= v <= U64_MAX) -> to_persisted j = p) /\
  (forall p, (exists e, from_persisted p = Err e) <-> version p <> 1).
Proof.
  split_and!.
  - intros j. apply persisted_roundtrip_job.
  - intros j. unfold job_wf, round_to_ms. simpl. destruct (status j), (completed_at j); naive_solver.
  - apply to_ms_close.
  - intros p j H Hs Hc. unfold from_persisted in H.
    destruct (version p =? 1) eqn:E; simplify_eq/=. bool_hyps. destruct p; simpl in *. subst.
    unfold to_persisted; simpl. rewrite ms_roundtrip by done. f_equal.
    by apply omap_ms_roundtrip.
  - intros p. unfold from_persisted. destruct (version p =? 1) eqn:E; simpl; bool_hyps; naive_solver.
Qed.

Lemma persisted_roundtrip_witness :
  let j := mark_exit 3 1999999999 (new_running {| n_job_id := lit "a"; n_pid := 7; n_log_path := lit "/l";
             n_command := lit "ls"; n_connection_id := lit "c" |} 1000000001) in
  job_wf (round_to_ms j) /\ to_ms 1999999999 <= 1999999999 < to_ms 1999999999 + 1000000 /\
  to_persisted (round_to_ms j) = to_persisted j.
Proof.
  destruct persisted_roundtrip as (H1 & H2 & H3 & H4 & _). intros j. split_and!.
  - apply H2. exact (job_step_wf _ (Exited 3 1999999999)).
  - by apply H3.
  - by apply H3.
  - apply (H4 (to_persisted j)); [apply H1|vm_compute; split; discriminate|].
    intros v [= <-]. vm_compute; split; discriminate.
Defined.

(** *** Elapsed time *)

Lemma format_ps_elapsed_fields elapsed :
  0 <= elapsed ->
  let s := elapsed / 1000000000 in
  0 <= s mod 60 < 60 /\ 0 <= (s mod 3600) / 60 < 60 /\ 0 <= (s mod 86400) / 3600 < 24 /\
  s = s / 86400 * 86400 + (s mod 86400) / 3600 * 3600 + (s mod 3600) / 60 * 60 + s mod 60.
Proof.
  intros H s. assert (0 <= s) by (apply Z.div_pos; lia).
  pose proof (Z.mod_pos_bound s 60). pose proof (Z.mod_pos_bound s 3600).
  pose proof (Z.mod_pos_bound s 86400).
  assert (0 <= s mod 3600 / 60 < 60).
  { split; [apply Z.div_pos; lia|apply Z.div_lt_upper_bound; lia]. }
  assert (0 <= s mod 86400 / 3600 < 24).
  { split; [apply Z.div_pos; lia|apply Z.div_lt_upper_bound; lia]. }
  split_and!; try lia. Z.to_euclidean_division_equations. lia.
Qed.
