(* ===== verification/Registry.v ===== *)
(** * Job registry (src/background/registry.rs)

    The registry maps job ids to shared job states. A shared state
    ([Arc<Mutex<JobState>>]) is a reference into a store of states, so that two
    entries, or an entry and a task that still holds the state, can be the same
    object; [Arc::ptr_eq] compares references. *)
From Stdlib Require Import ZArith String.
From stdpp Require Import base list gmap fin_maps.
From S2P Require Import Prelude Job.

Notation job_ref := nat (only parsing).

Record JobRegistry : Type := {
  jobs : gmap str job_ref;
  completed_retention : Z
}.

Definition registry_new (retention : Z) : JobRegistry :=
  {| jobs := ∅; completed_retention := retention |}.

Definition registry_insert (r : JobRegistry) (id : str) (job : job_ref) : JobRegistry :=
  {| jobs := <[id := job]> (jobs r); completed_retention := completed_retention r |}.

Definition registry_get (r : JobRegistry) (id : str) : option job_ref := jobs r !! id.

Definition registry_remove (r : JobRegistry) (id : str) : JobRegistry * option job_ref :=
  ({| jobs := delete id (jobs r); completed_retention := completed_retention r |}, jobs r !! id).

(** ** Pruning *)

(** The completion time of a job that has outlived the retention window. *)
Definition expired_at (now retention : Z) (j : JobState) : option Z :=
  if is_terminal j then
    t ← completed_at j;
    age ← duration_since now t;
    if retention <? age then Some t else None
  else None.

(** First pass: each job of the snapshot is locked in turn and inspected;
    [observed] is what it shows at that moment. *)
Definition expired_candidates (now retention : Z) (observed : job_ref -> JobState)
    (snapshot : list (str * job_ref)) : list (str * job_ref * Z) :=
  omap (fun '(id, job) => t ← expired_at now retention (observed job); Some (id, job, t)) snapshot.

(** One candidate of the second pass, under the registry's write lock.
    [locked] are the states some task holds at that moment ([try_lock] fails);
    [current] is the store. *)
Definition sweep_one (now retention : Z) (locked : job_ref -> bool) (current : job_ref -> JobState)
    (acc : gmap str job_ref * Z) (candidate : str * job_ref * Z) : gmap str job_ref * Z :=
  let '(guard, removed) := acc in
  let '(id, job, t) := candidate in
  match guard !! id with
  | None => acc
  | Some cur =>
      if negb (Nat.eqb cur job) then acc
      else if locked cur then acc
      else if negb (is_terminal (current cur)) then acc
      else if bool_decide (completed_at (current cur) <> Some t) then acc
      else match duration_since now t with
           | None => acc
           | Some age => if age <=? retention then acc else (delete id guard, removed + 1)
           end
  end.

(** [prune_expired]: the registry is read once ([jobs r]); by the time the
    write lock is taken its content is [later] and the states are [current]. *)
Definition prune_expired (now : Z) (r : JobRegistry) (observed : job_ref -> JobState)
    (later : gmap str job_ref) (locked : job_ref -> bool) (current : job_ref -> JobState) :
    gmap str job_ref * Z :=
  match expired_candidates now (completed_retention r) observed (map_to_list (jobs r)) with
  | [] => (later, 0)
  | expired => foldl (sweep_one now (completed_retention r) locked current) (later, 0) expired
  end.

(** ** Properties *)

Lemma expired_at_Some now retention j t :
  expired_at now retention j = Some t <->
  is_terminal j = true /\ completed_at j = Some t /\ retention < now - t /\ t <= now.
Proof.
  unfold expired_at, duration_since. destruct (is_terminal j); [|naive_solver].
  destruct (completed_at j) as [t'|]; simpl; [|naive_solver].
  destruct (t' <=? now) eqn:E; simpl; bool_hyps.
  - destruct (retention <? now - t') eqn:F; bool_hyps; split; intros H;
      [simplify_eq; split_and!; auto; lia|destruct H as (_ & [= <-] & _); done|done|].
    destruct H as (_ & [= <-] & ? & _). lia.
  - split; [done|]. intros (_ & [= <-] & _ & ?). lia.
Qed.

(** A candidate is removed exactly when its entry is still the same job, not
    held by anyone, and still expired with the same completion time. *)
Lemma sweep_one_spec now retention locked current guard removed id (job : job_ref) t :
  sweep_one now retention locked current (guard, removed) (id, job, t) =
  if bool_decide (guard !! id = Some job /\ locked job = false /\
       expired_at now retention (current job) = Some t)
  then (delete id guard, removed + 1) else (guard, removed).
Proof.
  case_bool_decide as H.
  - destruct H as (H1 & H2 & (H3 & H4 & H5 & H6)%expired_at_Some). unfold sweep_one.
    rewrite H1, Nat.eqb_refl, H2, H3, H4. cbn [negb]. rewrite bool_decide_eq_false_2 by (intros E; by apply E).
    unfold duration_since. rewrite (proj2 (Z.leb_le _ _) H6).
    by rewrite (proj2 (Z.leb_gt _ _) H5).
  - unfold sweep_one. destruct (guard !! id) as [cur|] eqn:E1; [|done].
    destruct (Nat.eqb cur job) eqn:E2; [|done]. apply Nat.eqb_eq in E2 as ->. cbn [negb].
    destruct (locked job) eqn:E3; [done|]. destruct (is_terminal (current job)) eqn:E4; [|done]. cbn [negb].
    case_bool_decide as E5; [done|].
    destruct (duration_since now t) as [age|] eqn:E6; [|done].
    destruct (age <=? retention) eqn:E7; [done|]. destruct H. split_and!; [done..|].
    apply expired_at_Some. unfold duration_since in E6.
    destruct (t <=? now) eqn:E8; simplify_eq. bool_hyps. auto.
Qed.

Section Prune.
Context (now retention : Z) (locked : job_ref -> bool) (current : job_ref -> JobState).

(** The second pass removes the entry [id -> job] on account of [c]. *)
Definition removes (id : str) (job : job_ref) (c : str * job_ref * Z) : bool :=
  bool_decide (c.1 = (id, job)) && negb (locked job) &&
  bool_decide (expired_at now retention (current job) = Some c.2).

Lemma removes_true id (job : job_ref) id' (job' : job_ref) t :
  removes id job (id', job', t) = true <->
  id' = id /\ job' = job /\ locked job = false /\ expired_at now retention (current job) = Some t.
Proof.
  unfold removes. rewrite !andb_true_iff, negb_true_iff, !bool_decide_eq_true. simpl. naive_solver.
Qed.

Lemma sweep_lookup cs guard n id :
  NoDup (fst ∘ fst <$> cs) ->
  (foldl (sweep_one now retention locked current) (guard, n) cs).1 !! id =
  match guard !! id with
  | Some job => if existsb (removes id job) cs then None else Some job
  | None => None
  end.
Proof.
  revert guard n; induction cs as [|[[id' job'] t] cs IH]; intros guard n Hnd; cbn [foldl existsb].
  - simpl. by destruct (guard !! id).
  - apply NoDup_cons in Hnd as [Hn Hnd]. rewrite sweep_one_spec.
    assert (Hother : forall job, existsb (removes id' job) cs = false).
    { intros job. apply not_true_iff_false. intros ([[i j] u] & Hc & (-> & _)%removes_true)%existsb_exists.
      apply Hn. apply list_elem_of_fmap. exists (id', j, u). by rewrite list_elem_of_In. }
    case_bool_decide as H; rewrite IH by done.
    + destruct H as (H1 & H2 & H3). destruct (decide (id = id')) as [->|Hid].
      * rewrite lookup_delete_eq, H1. by rewrite (proj2 (removes_true id' job' id' job' t)).
      * rewrite lookup_delete_ne by done. destruct (guard !! id) as [job|]; [|done].
        destruct (removes id job (id', job', t)) eqn:E; [|done].
        apply removes_true in E as (-> & _). done.
    + destruct (guard !! id) as [job|] eqn:E; [|done].
      destruct (removes id job (id', job', t)) eqn:F; [|done].
      apply removes_true in F as (-> & -> & ?). by destruct H.
Qed.

Lemma sweep_count cs guard n :
  let res := foldl (sweep_one now retention locked current) (guard, n) cs in
  res.2 + Z.of_nat (size res.1) = n + Z.of_nat (size guard).
Proof.
  revert guard n; induction cs as [|[[id job] t] cs IH]; intros guard n; [done|].
  cbn [foldl]. rewrite sweep_one_spec. case_bool_decide as H; [|apply IH].
  destruct H as [H _]. specialize (IH (delete id guard) (n + 1)). simpl in IH.
  assert (size (delete id guard) = pred (size guard)) by (by apply map_size_delete_Some; eexists).
  assert (size guard <> O) by (intros Hs; apply map_size_empty_iff in Hs; subst; by rewrite lookup_empty in H).
  simpl in *. lia.
Qed.

End Prune.

Lemma expired_candidates_keys now retention observed (m : gmap str job_ref) :
  NoDup (fst ∘ fst <$> expired_candidates now retention observed (map_to_list m)).
Proof.
  pose proof (NoDup_fst_map_to_list m) as H. unfold expired_candidates.
  induction (map_to_list m) as [|[id job] l IH]; [constructor|].
  cbn [fmap list_fmap fst] in H. apply NoDup_cons in H as [Hn Hl]. cbn [omap list_omap].
  destruct (expired_at now retention (observed job)) as [t|]; simpl; [|by apply IH].
  constructor; [|by apply IH]. intros ([[i j] u] & E & ([i' j'] & Hc & Hu)%list_elem_of_omap)%list_elem_of_fmap.
  simpl in *. destruct (expired_at _ _ _); simplify_eq/=. apply Hn. by apply (list_elem_of_fmap_2 fst _ (i, j)).
Qed.

Lemma elem_of_expired_candidates now retention observed (m : gmap str job_ref) id (job : job_ref) t :
  (id, job, t) ∈ expired_candidates now retention observed (map_to_list m) <->
  m !! id = Some job /\ expired_at now retention (observed job) = Some t.
Proof.
  unfold expired_candidates. rewrite list_elem_of_omap. split.
  - intros ([i j] & Hin & E). apply elem_of_map_to_list in Hin.
    destruct (expired_at now retention (observed j)) eqn:Ej; simplify_eq/=. done.
  - intros [Hm He]. exists (id, job). rewrite elem_of_map_to_list. by rewrite He.
Qed.

Lemma prune_expired_fold now r observed later locked current :
  prune_expired now r observed later locked current =
  foldl (sweep_one now (completed_retention r) locked current) (later, 0)
    (expired_candidates now (completed_retention r) observed (map_to_list (jobs r))).
Proof. unfold prune_expired. by destruct (expired_candidates _ _ _ _). Qed.

(** Pruning is safe under concurrency. Whatever happens between the
    snapshot and the write lock, and whatever the jobs showed when they were
    inspected, an entry disappears only if it still refers to the very job of
    the snapshot, nobody holds that job, and the job is at that moment terminal
    and completed longer ago than the retention window; so a running job, a job
    registered again under the same id, and a job completed recently are never
    removed. Every other entry is kept as it is, and the number returned is the
    number of entries removed. *)
Theorem prune_expired_safe (now : Z) (r : JobRegistry) (observed : job_ref -> JobState)
    (later : gmap str job_ref) (locked : job_ref -> bool) (current : job_ref -> JobState) (id : str) :
  let res := prune_expired now r observed later locked current in
  (res.1 !! id = later !! id \/
   res.1 !! id = None /\ exists job t,
     later !! id = Some job /\ jobs r !! id = Some job /\ locked job = false /\
     is_terminal (current job) = true /\ completed_at (current job) = Some t /\
     completed_retention r < now - t) /\
  res.2 + Z.of_nat (size res.1) = Z.of_nat (size later).
Proof.
  intros res. unfold res. rewrite prune_expired_fold. split; [|by rewrite sweep_count].
  rewrite sweep_lookup by apply expired_candidates_keys.
  destruct (later !! id) as [job|]; [|by left].
  destruct (existsb _ _) eqn:E; [right|by left]. split; [done|].
  apply existsb_exists in E as ([[i j] t] & Hin & (-> & -> & Hl & He)%removes_true).
  apply list_elem_of_In, elem_of_expired_candidates in Hin as [Hj _].
  apply expired_at_Some in He as (? & ? & ? & _). by exists job, t.
Qed.

(** Pruning is complete: when nothing changes between the two passes and
    no job is held, the registry keeps exactly the jobs that are not expired. *)
Theorem prune_expired_complete (now : Z) (r : JobRegistry) (state : job_ref -> JobState) :
  (prune_expired now r state (jobs r) (fun _ => false) state).1 =
  filter (fun '(_, job) => expired_at now (completed_retention r) (state job) = None) (jobs r).
Proof.
  apply map_eq. intros id. rewrite prune_expired_fold, sweep_lookup by apply expired_candidates_keys.
  destruct (jobs r !! id) as [job|] eqn:Ej.
  - destruct (expired_at now (completed_retention r) (state job)) as [t|] eqn:Ee.
    + assert (existsb (removes now (completed_retention r) (fun _ => false) state id job)
        (expired_candidates now (completed_retention r) state (map_to_list (jobs r))) = true) as ->.
      { apply existsb_exists. exists (id, job, t). split; [|by apply removes_true].
        apply list_elem_of_In, elem_of_expired_candidates. done. }
      symmetry. apply map_lookup_filter_None. right. intros x Hx. simplify_eq. by rewrite Ee.
    + assert (existsb (removes now (completed_retention r) (fun _ => false) state id job)
        (expired_candidates now (completed_retention r) state (map_to_list (jobs r))) = false) as ->.
      { apply not_true_iff_false. intros ([[i j] t] & _ & (_ & -> & _ & E)%removes_true)%existsb_exists.
        congruence. }
      symmetry. by apply map_lookup_filter_Some.
  - symmetry. apply map_lookup_filter_None. by left.
Qed.
