(* ===== verification/TransferTypes.v ===== *)
(** * Transfer data types (src/transfer/types.rs)

    A path is the string it displays. *)
From Stdlib Require Import ZArith String.
From stdpp Require Import base list gmap.
From S2P Require Import Prelude.

Inductive TransferOperation : Type := Put | Get.
Inductive TransferTransport : Type := ExecRaw | Sftp | Scp | Rsync.
Inductive TransferKind : Type := File | Directory.

#[global] Instance TransferOperation_eq_dec : EqDecision TransferOperation.
Proof. solve_decision. Defined.
#[global] Instance TransferTransport_eq_dec : EqDecision TransferTransport.
Proof. solve_decision. Defined.
#[global] Instance TransferKind_eq_dec : EqDecision TransferKind.
Proof. solve_decision. Defined.

Record RsyncOptions : Type := {
  checksum : bool;
  compress : bool;
  delete_extra : bool;
  inplace : bool;
  partial : bool;
  bwlimit : option Z
}.

Definition rsync_options_default : RsyncOptions := {|
  checksum := true; compress := false; delete_extra := false;
  inplace := true; partial := true; bwlimit := None
|}.

Record TransferParams : Type := {
  t_operation : TransferOperation;
  local_path : str;
  remote_path : str;
  transport : TransferTransport;
  kind : option TransferKind;
  overwrite : bool;
  timeout_ms : option Z;
  background : bool;
  verbose : bool;
  rsync_options : RsyncOptions
}.

Definition transfer_params_default : TransferParams := {|
  t_operation := Put; local_path := []; remote_path := []; transport := ExecRaw;
  kind := None; overwrite := false; timeout_ms := None; background := false;
  verbose := false; rsync_options := rsync_options_default
|}.

Inductive TransferProgressTarget : Type :=
  | Local (path : str)
  | Remote (path : str).

Inductive TransferEvent : Type :=
  | EvPreparing
  | EvTransferring (transport : TransferTransport)
  | EvFileStage (target : TransferProgressTarget) (total_bytes : option Z)
  | EvFinalizing.

Record TransferCounts : Type := { c_bytes : Z; c_files : Z; c_directories : Z }.
Definition counts_zero : TransferCounts := {| c_bytes := 0; c_files := 0; c_directories := 0 |}.

Record StagingLocal : Type := {
  sl_staging_path : str; sl_backup_path : option str; sl_final_path : str
}.
Record StagingRemote : Type := {
  sr_staging_path : str; sr_backup_path : option str; sr_final_path : str; sr_staging_base_home : str
}.
Record TransferStaging : Type := {
  staging_local : option StagingLocal; staging_remote : option StagingRemote
}.

Record TransferResponse : Type := {
  ok : bool;
  error : option str;
  params : TransferParams;
  r_kind : option TransferKind;
  transport_used : TransferTransport;
  remote_home : option str;
  local_root : str;
  resolved_local_path : option str;
  staging : option TransferStaging;
  counts : option TransferCounts;
  elapsed_ms : option Z;
  semantics : option str
}.

Definition response_ok_stub (p : TransferParams) (used : TransferTransport) (home root : str) : TransferResponse := {|
  ok := false; error := None; params := p; r_kind := None; transport_used := used;
  remote_home := Some home; local_root := root; resolved_local_path := None; staging := None;
  counts := None; elapsed_ms := None; semantics := None
|}.

Definition response_error (p : TransferParams) (root msg : str) : TransferResponse := {|
  ok := false; error := Some msg; params := p; r_kind := None; transport_used := transport p;
  remote_home := None; local_root := root; resolved_local_path := None; staging := None;
  counts := None; elapsed_ms := None; semantics := None
|}.

Definition set_error (r : TransferResponse) (msg : str) : TransferResponse := {|
  ok := false; error := Some msg; params := params r; r_kind := r_kind r; transport_used := transport_used r;
  remote_home := remote_home r; local_root := local_root r; resolved_local_path := resolved_local_path r;
  staging := staging r; counts := counts r; elapsed_ms := elapsed_ms r; semantics := semantics r
|}.

Record CompactTransferResponse : Type := {
  co_ok : bool;
  co_error : option str;
  co_kind : option TransferKind;
  co_transport_used : TransferTransport;
  co_local_path : str;
  co_remote_path : str;
  co_counts : option TransferCounts;
  co_elapsed_ms : option Z
}.

Definition to_compact (r : TransferResponse) : CompactTransferResponse := {|
  co_ok := ok r;
  co_error := error r;
  co_kind := r_kind r;
  co_transport_used := transport_used r;
  co_local_path := local_path (params r);
  co_remote_path := remote_path (params r);
  co_counts := counts r;
  co_elapsed_ms := elapsed_ms r
|}.
