(* ===== verification/TransferJob.v ===== *)
(** * Background transfers (src/background/transfer.rs, src/server.rs)

    The in-memory state of a background transfer, its registry, and the guard
    that makes every transfer task end in a terminal state. An [Instant] is a
    number of nanoseconds on a monotonic clock. Shared states are references
    into a store; a poisoned mutex (a panic while it is held) is not modelled,
    no code panics while holding one. *)
From Stdlib Require Import ZArith String.
From stdpp Require Import base list gmap fin_maps.
From S2P Require Import Prelude TransferTypes.

Inductive TransferJobPhase : Type :=
  | Queued | Preparing | Transferring | Finalizing | Completed | Failed.

#[global] Instance TransferJobPhase_eq_dec : EqDecision TransferJobPhase.
Proof. solve_decision. Defined.

Definition phase_as_str (p : TransferJobPhase) : str :=
  match p with
  | Queued => lit "queued"
  | Preparing => lit "preparing"
  | Transferring => lit "transferring"
  | Finalizing => lit "finalizing"
  | Completed => lit "completed"
  | Failed => lit "failed"
  end.

Record TransferJobState : Type := {
  job_id : str;
  started_at : Z;
  completed_at : option Z;
  phase : TransferJobPhase;
  transport : option TransferTransport;
  progress_target : option TransferProgressTarget;
  total_bytes : option Z;
  outcome : option CompactTransferResponse
}.

Definition new (id : str) (now : Z) : TransferJobState := {|
  job_id := id; started_at := now; completed_at := None; phase := Queued;
  transport := None; progress_target := None; total_bytes := None; outcome := None
|}.

Definition apply_event (j : TransferJobState) (event : TransferEvent) : TransferJobState :=
  if bool_decide (is_Some (completed_at j)) then j
  else
    let upd ph tr tgt total := {|
      job_id := job_id j; started_at := started_at j; completed_at := completed_at j;
      phase := ph; transport := tr; progress_target := tgt; total_bytes := total;
      outcome := outcome j |} in
    match event with
    | EvPreparing => upd Preparing (transport j) (progress_target j) (total_bytes j)
    | EvTransferring t => upd Transferring (Some t) None None
    | EvFileStage target total => upd Transferring (transport j) (Some target) total
    | EvFinalizing => upd Finalizing (transport j) (progress_target j) (total_bytes j)
    end.

Definition finish (j : TransferJobState) (response : TransferResponse) (now : Z) : TransferJobState := {|
  job_id := job_id j; started_at := started_at j;
  completed_at := Some now;
  phase := if ok response then Completed else Failed;
  transport := transport j;
  progress_target := None;
  total_bytes := total_bytes j;
  outcome := Some (to_compact response)
|}.

Definition is_terminal (j : TransferJobState) : bool := bool_decide (is_Some (completed_at j)).

Record TransferJobSnapshot : Type := {
  s_job_id : str;
  s_state : str;
  s_running : bool;
  s_phase : TransferJobPhase;
  s_elapsed_ms : Z;
  s_transport : option TransferTransport;
  s_progress_target : option TransferProgressTarget;
  s_total_bytes : option Z;
  s_result : option CompactTransferResponse
}.

(** The cast [as u64] keeps the low 64 bits. *)
Definition snapshot (j : TransferJobState) (now : Z) : TransferJobSnapshot := {|
  s_job_id := job_id j;
  s_state := if is_terminal j then phase_as_str (phase j) else lit "running";
  s_running := negb (is_terminal j);
  s_phase := phase j;
  s_elapsed_ms := ((now - started_at j) / 1000000) mod (U64_MAX + 1);
  s_transport := transport j;
  s_progress_target := progress_target j;
  s_total_bytes := total_bytes j;
  s_result := outcome j
|}.

(** ** Registry *)

Record TransferJobRegistry : Type := {
  jobs : gmap str nat;
  store : gmap nat TransferJobState;
  retention : Z
}.

Definition keep (r : TransferJobRegistry) (now : Z) (ref : nat) : bool :=
  match store r !! ref with
  | Some j => match completed_at j with None => true | Some t => now - t <=? retention r end
  | None => true
  end.

Definition prune_expired (r : TransferJobRegistry) (now : Z) : TransferJobRegistry := {|
  jobs := filter (fun '(_, ref) => keep r now ref = true) (jobs r);
  store := store r;
  retention := retention r
|}.

Definition register (r : TransferJobRegistry) (id : str) (now : Z) : TransferJobRegistry * nat :=
  let r := prune_expired r now in
  let ref := fresh (dom (store r)) in
  ({| jobs := <[id := ref]> (jobs r); store := <[ref := new id now]> (store r); retention := retention r |}, ref).

Definition registry_snapshot (r : TransferJobRegistry) (id : str) (now : Z) :
    TransferJobRegistry * option TransferJobSnapshot :=
  let r := prune_expired r now in
  (r, ref ← jobs r !! id; j ← store r !! ref; Some (snapshot j now)).

Definition registry_contains (r : TransferJobRegistry) (id : str) (now : Z) : TransferJobRegistry * bool :=
  let r := prune_expired r now in (r, bool_decide (is_Some (jobs r !! id))).

(** ** The transfer task *)

Record TransferTerminalGuard : Type := { g_job : nat; fallback : option TransferResponse }.

Definition guard_new (job : nat) (fb : TransferResponse) : TransferTerminalGuard :=
  {| g_job := job; fallback := Some fb |}.

Definition guard_finish (g : TransferTerminalGuard) (response : TransferResponse) (now : Z)
    (st : gmap nat TransferJobState) : TransferTerminalGuard * gmap nat TransferJobState :=
  ({| g_job := g_job g; fallback := None |}, alter (fun j => finish j response now) (g_job g) st).

Definition guard_drop (g : TransferTerminalGuard) (now : Z) (st : gmap nat TransferJobState) :
    gmap nat TransferJobState :=
  match fallback g with
  | None => st
  | Some fb => alter (fun j => if is_terminal j then j else finish j fb now) (g_job g) st
  end.

(** How the body of the task ends: with a response, or early (a panic, or the
    task is aborted), in which case only the guard's [Drop] runs. *)
Inductive task_end : Type :=
  | Responds (response : TransferResponse)
  | Dies.

(** The spawned task of [execute_background_transfer], from the guard on: the
    progress events it emits, then its end, then the drop of the guard. *)
Definition transfer_task (job : nat) (fb : TransferResponse) (events : list TransferEvent)
    (e : task_end) (now : Z) (st : gmap nat TransferJobState) : gmap nat TransferJobState :=
  let g := guard_new job fb in
  let st := alter (fun j => foldl apply_event j events) job st in
  match e with
  | Responds response => let '(g, st) := guard_finish g response now st in guard_drop g now st
  | Dies => guard_drop g now st
  end.

(** ** Properties *)

(** A job's fields agree: it has an outcome exactly when it is terminal, and
    its phase is then the one of the outcome. *)
Definition transfer_wf (j : TransferJobState) : Prop :=
  match completed_at j with
  | None => outcome j = None /\ phase j <> Completed /\ phase j <> Failed
  | Some _ => exists o, outcome j = Some o /\ phase j = (if co_ok o then Completed else Failed) /\
                progress_target j = None
  end.

Lemma apply_event_wf j e : transfer_wf j -> transfer_wf (apply_event j e).
Proof.
  intros H. unfold apply_event. case_bool_decide as Ht; [done|].
  unfold transfer_wf in *. destruct (completed_at j) as [t|] eqn:E; [by destruct Ht|].
  destruct e; simpl; naive_solver.
Qed.

Lemma finish_wf j r now : transfer_wf (finish j r now).
Proof. unfold transfer_wf. simpl. by exists (to_compact r). Qed.

Lemma new_wf id now : transfer_wf (new id now).
Proof. done. Qed.

Lemma apply_events_wf es j : transfer_wf j -> transfer_wf (foldl apply_event j es).
Proof. revert j; induction es as [|e es IH]; intros j H; [done|]. by apply IH, apply_event_wf. Qed.

Lemma apply_event_terminal j e : is_terminal j = true -> apply_event j e = j.
Proof. unfold is_terminal, apply_event. by intros ->. Qed.

Lemma apply_events_terminal es j : is_terminal j = true -> foldl apply_event j es = j.
Proof.
  intros H. induction es as [|e es IH]; [done|]. simpl. by rewrite apply_event_terminal.
Qed.

Lemma apply_events_running es j :
  completed_at j = None -> completed_at (foldl apply_event j es) = None /\ job_id (foldl apply_event j es) = job_id j.
Proof.
  revert j; induction es as [|e es IH]; intros j H; [done|]. simpl.
  assert (He : completed_at (apply_event j e) = None /\ job_id (apply_event j e) = job_id j).
  { unfold apply_event. case_bool_decide; [done|]. by destruct e. }
  destruct He as [H1 H2]. destruct (IH _ H1) as [H3 H4]. by rewrite H4.
Qed.

(** A background transfer always ends. Whatever progress events its task
    emits and however the task ends, the job is terminal afterwards: with the
    task's response if there was one, and otherwise with the prepared failure;
    its phase tells which; no other job changes; and a progress event that
    arrives late changes nothing. *)
Theorem transfer_task_terminal (job : nat) (fb : TransferResponse) (events late : list TransferEvent)
    (e : task_end) (now : Z) (st : gmap nat TransferJobState) (j : TransferJobState)
    (Hj : st !! job = Some j) (Hrun : completed_at j = None) (Hfb : ok fb = false) :
  let st' := transfer_task job fb events e now st in
  (exists j', st' !! job = Some j' /\ transfer_wf j' /\ completed_at j' = Some now /\
     job_id j' = job_id j /\
     outcome j' = Some (to_compact (match e with Responds r => r | Dies => fb end)) /\
     phase j' = (match e with Responds r => if ok r then Completed else Failed | Dies => Failed end) /\
     foldl apply_event j' late = j') /\
  forall other, other <> job -> st' !! other = st !! other.
Proof.
  intros st'. destruct (apply_events_running events j Hrun) as [Hc Hid]. split.
  - unfold st', transfer_task. destruct e as [r|].
    + unfold guard_drop. cbn [guard_new guard_finish g_job fallback].
      eexists. rewrite !lookup_alter_eq, Hj. cbn [fmap option_fmap option_map].
      split_and!; [reflexivity|apply finish_wf|done..|by apply apply_events_terminal].
    + unfold guard_drop. cbn [guard_new g_job fallback].
      eexists. rewrite !lookup_alter_eq, Hj. cbn [fmap option_fmap option_map].
      assert (is_terminal (foldl apply_event j events) = false) as ->.
      { unfold is_terminal. rewrite Hc. by apply bool_decide_eq_false_2; intros []. }
      split_and!; [reflexivity|apply finish_wf|done..| |by apply apply_events_terminal].
      simpl. by rewrite Hfb.
  - intros o Ho. unfold st', transfer_task, guard_finish, guard_drop. destruct e; simpl;
      by rewrite !lookup_alter_ne.
Qed.

Lemma transfer_task_terminal_witness :
  let st := {[ 0%nat := new (lit "transfer-1") 5 ]} in
  let fb := response_error transfer_params_default (lit "/root") (lit "background transfer stopped unexpectedly") in
  exists j', transfer_task 0 fb [EvPreparing; EvTransferring Sftp] Dies 9 st !! 0%nat = Some j' /\
    transfer_wf j' /\ completed_at j' = Some 9 /\ phase j' = Failed.
Proof.
  intros st fb.
  destruct (transfer_task_terminal 0 fb [EvPreparing; EvTransferring Sftp] [] Dies 9 st (new (lit "transfer-1") 5)
    eq_refl eq_refl eq_refl) as [(j' & H1 & H2 & H3 & _ & _ & H4 & _) _].
  by exists j'.
Defined.

Lemma keep_spec r now ref :
  keep r now ref = true <->
  forall j t, store r !! ref = Some j -> completed_at j = Some t -> now - t <= retention r.
Proof.
  unfold keep. destruct (store r !! ref) as [j|]; [|naive_solver].
  destruct (completed_at j) as [t|] eqn:E; [|naive_solver]. rewrite Z.leb_le. naive_solver.
Qed.

Lemma prune_lookup r now id ref :
  jobs (prune_expired r now) !! id = Some ref <-> jobs r !! id = Some ref /\ keep r now ref = true.
Proof. unfold prune_expired. simpl. by rewrite map_lookup_filter_Some. Qed.

(** The registry's references point into the store. *)
Definition registry_wf (r : TransferJobRegistry) : Prop :=
  forall id ref, jobs r !! id = Some ref -> exists j, store r !! ref = Some j /\ job_id j = id.

(** The transfer registry. Registering an id gives a new state that no
    other entry shares, visible at once as a running, queued job without a
    result; the entries of all other ids stay, except those whose job completed
    longer ago than the retention window; a job that has not completed is never
    dropped; and every entry keeps pointing to the state of its own id. *)
Theorem register_fresh (r : TransferJobRegistry) (id : str) (now : Z) (Hwf : registry_wf r) :
  let '(r', ref) := register r id now in
  registry_wf r' /\
  store r !! ref = None /\ store r' !! ref = Some (new id now) /\
  (0 <= retention r -> exists s, (registry_snapshot r' id now).2 = Some s /\
     s_running s = true /\ s_phase s = Queued /\ s_result s = None) /\
  (forall id' ref', id' <> id -> jobs r !! id' = Some ref' ->
     (forall j t, store r !! ref' = Some j -> completed_at j = Some t -> now - t <= retention r) ->
     jobs r' !! id' = Some ref' /\ ref' <> ref /\ store r' !! ref' = store r !! ref').
Proof.
  unfold register. set (ref := fresh _). cbn.
  assert (Hfresh : store r !! ref = None) by (apply not_elem_of_dom, is_fresh).
  assert (Hne : forall id' ref', jobs r !! id' = Some ref' -> ref' <> ref).
  { intros id' ref' H ->. destruct (Hwf _ _ H) as (j & Hj & _). congruence. }
  split_and!; [|done|by rewrite lookup_insert_eq| |].
  - intros id' ref'. cbn. destruct (decide (id' = id)) as [->|Hid].
    + rewrite lookup_insert_eq. intros [= <-]. rewrite lookup_insert_eq. by eexists.
    + rewrite lookup_insert_ne by done. intros [H _]%map_lookup_filter_Some.
      rewrite lookup_insert_ne by (intros E; by apply (Hne _ _ H)). by apply Hwf.
  - intros Hret. unfold registry_snapshot. cbn.
    assert (jobs (prune_expired {| jobs := <[id:=ref]> (jobs (prune_expired r now));
      store := <[ref:=new id now]> (store r); retention := retention r |} now) !! id = Some ref) as Hl.
    { apply prune_lookup. cbn. rewrite lookup_insert_eq. split; [done|]. apply keep_spec. cbn.
      rewrite lookup_insert_eq. by intros j t [= <-]. }
    cbn in Hl. rewrite Hl. cbn. rewrite lookup_insert_eq. cbn. by eexists.
  - intros id' ref' Hid H Hk. pose proof (Hne _ _ H).
    rewrite !lookup_insert_ne by done. split_and!; [|done..].
    apply map_lookup_filter_Some. split; [done|]. by apply keep_spec.
Qed.

Lemma register_fresh_witness :
  let r := {| jobs := ∅; store := ∅; retention := 10 |} in
  let '(r', ref) := register r (lit "t") 3 in
  registry_wf r' /\ store r !! ref = None /\ store r' !! ref = Some (new (lit "t") 3).
Proof.
  intros r. assert (H : registry_wf r) by (intros id ref E; by apply (lookup_empty_Some id ref) in E).
  pose proof (register_fresh r (lit "t") 3 H) as P. destruct (register r (lit "t") 3) as [r' ref].
  destruct P as (P1 & P2 & P3 & _). auto.
Defined.
