(* ===== verification/Utf8.v ===== *)
(** * UTF-8

    [str::as_bytes], [str::from_utf8] with its error, and
    [String::from_utf8_lossy]. A byte sequence is cut into chunks: a decoded
    character, or a maximal invalid part. *)
From Stdlib Require Import ZArith String.
From stdpp Require Import base list.
From S2P Require Import Prelude.

Definition utf8_char (c : char) : bytes :=
  if c <? 128 then [c]
  else if c <? 2048 then [192 + c / 64; 128 + c mod 64]
  else if c <? 65536 then [224 + c / 4096; 128 + (c / 64) mod 64; 128 + c mod 64]
  else [240 + c / 262144; 128 + (c / 4096) mod 64; 128 + (c / 64) mod 64; 128 + c mod 64].

Definition utf8_encode (s : str) : bytes := flat_map utf8_char s.

Inductive chunk : Type :=
  | Good (c : char)
  | Bad (len : Z) (incomplete : bool).

Definition in_range (lo hi b : Z) : bool := (lo <=? b) && (b <=? hi).
Definition is_cont (b : Z) : bool := in_range 128 191 b.

(** The second byte a three- or four-byte sequence may have. *)
Definition second3 (b0 b1 : Z) : bool :=
  if b0 =? 224 then in_range 160 191 b1
  else if b0 =? 237 then in_range 128 159 b1
  else is_cont b1.
Definition second4 (b0 b1 : Z) : bool :=
  if b0 =? 240 then in_range 144 191 b1
  else if b0 =? 244 then in_range 128 143 b1
  else is_cont b1.

Fixpoint utf8_chunks (l : bytes) : list chunk :=
  match l with
  | [] => []
  | b0 :: r0 =>
      if in_range 0 127 b0 then Good b0 :: utf8_chunks r0
      else if in_range 194 223 b0 then
        match r0 with
        | [] => [Bad 1 true]
        | b1 :: r1 =>
            if is_cont b1 then Good ((b0 - 192) * 64 + (b1 - 128)) :: utf8_chunks r1
            else Bad 1 false :: utf8_chunks r0
        end
      else if in_range 224 239 b0 then
        match r0 with
        | [] => [Bad 1 true]
        | b1 :: r1 =>
            if second3 b0 b1 then
              match r1 with
              | [] => [Bad 2 true]
              | b2 :: r2 =>
                  if is_cont b2 then
                    Good ((b0 - 224) * 4096 + (b1 - 128) * 64 + (b2 - 128)) :: utf8_chunks r2
                  else Bad 2 false :: utf8_chunks r1
              end
            else Bad 1 false :: utf8_chunks r0
        end
      else if in_range 240 244 b0 then
        match r0 with
        | [] => [Bad 1 true]
        | b1 :: r1 =>
            if second4 b0 b1 then
              match r1 with
              | [] => [Bad 2 true]
              | b2 :: r2 =>
                  if is_cont b2 then
                    match r2 with
                    | [] => [Bad 3 true]
                    | b3 :: r3 =>
                        if is_cont b3 then
                          Good ((b0 - 240) * 262144 + (b1 - 128) * 4096 + (b2 - 128) * 64 + (b3 - 128))
                            :: utf8_chunks r3
                        else Bad 3 false :: utf8_chunks r2
                    end
                  else Bad 2 false :: utf8_chunks r1
              end
            else Bad 1 false :: utf8_chunks r0
        end
      else Bad 1 false :: utf8_chunks r0
  end.

Definition REPLACEMENT : char := 65533.

Definition from_utf8_lossy (l : bytes) : str :=
  (fun k => match k with Good c => c | Bad _ _ => REPLACEMENT end) <$> utf8_chunks l.

(** [Utf8Error]: the number of valid bytes, and the length of the invalid part
    unless the input ends inside a sequence. *)
Record Utf8Error : Type := { valid_up_to : Z; error_len : option Z }.

Fixpoint good_chunks (ks : list chunk) (offset : Z) : result str Utf8Error :=
  match ks with
  | [] => Ok []
  | Good c :: ks' => let? s := good_chunks ks' (offset + utf8_len c) in Ok (c :: s)
  | Bad n incomplete :: _ =>
      Err {| valid_up_to := offset; error_len := if incomplete then None else Some n |}
  end.

Definition from_utf8 (l : bytes) : result str Utf8Error := good_chunks (utf8_chunks l) 0.

Definition utf8_error_display (e : Utf8Error) : str :=
  match error_len e with
  | Some n => lit "invalid utf-8 sequence of " ++ show_uint n ++ lit " bytes from index " ++ show_uint (valid_up_to e)
  | None => lit "incomplete utf-8 byte sequence from index " ++ show_uint (valid_up_to e)
  end.

(** ** Round trip *)

Lemma in_range_true lo hi b : in_range lo hi b = true <-> lo <= b <= hi.
Proof. unfold in_range. rewrite andb_true_iff, !Z.leb_le. done. Qed.
Lemma in_range_false lo hi b : in_range lo hi b = false <-> b < lo \/ hi < b.
Proof. unfold in_range. rewrite andb_false_iff, !Z.leb_gt. done. Qed.

Ltac range_case :=
  match goal with
  | |- context [in_range ?lo ?hi ?b] =>
      let E := fresh "E" in
      destruct (in_range lo hi b) eqn:E;
      [apply in_range_true in E | apply in_range_false in E]; try lia
  end.

Lemma utf8_chunks_char c l : valid_char c = true -> utf8_chunks (utf8_char c ++ l) = Good c :: utf8_chunks l.
Proof.
  unfold valid_char. intros H.
  assert (Hc : 0 <= c < 55296 \/ 57344 <= c < 1114112).
  { apply orb_true_iff in H as [H|H]; bool_hyps; lia. }
  unfold utf8_char.
  pose proof (Z.div_mod c 64). pose proof (Z.mod_pos_bound c 64).
  pose proof (Z.div_mod (c / 64) 64). pose proof (Z.mod_pos_bound (c / 64) 64).
  pose proof (Z.div_mod (c / 4096) 64). pose proof (Z.mod_pos_bound (c / 4096) 64).
  assert (c / 64 / 64 = c / 4096) by (rewrite Z.div_div by lia; done).
  assert (c / 4096 / 64 = c / 262144) by (rewrite Z.div_div by lia; done).
  destruct (c <? 128) eqn:E1; bool_hyps; [cbn [app utf8_chunks]; by range_case|].
  destruct (c <? 2048) eqn:E2; bool_hyps.
  { cbn [app utf8_chunks]. unfold is_cont. repeat range_case. f_equal. f_equal. lia. }
  destruct (c <? 65536) eqn:E3; bool_hyps.
  { cbn [app utf8_chunks]. unfold second3, is_cont.
    destruct (224 + c / 4096 =? 224) eqn:F1; bool_hyps;
      [|destruct (224 + c / 4096 =? 237) eqn:F2; bool_hyps]; repeat range_case; f_equal; f_equal; lia. }
  cbn [app utf8_chunks]. unfold second4, is_cont.
  destruct (240 + c / 262144 =? 240) eqn:F1; bool_hyps;
    [|destruct (240 + c / 262144 =? 244) eqn:F2; bool_hyps]; repeat range_case; f_equal; f_equal; lia.
Qed.

Lemma utf8_chunks_encode s l :
  forallb valid_char s = true -> utf8_chunks (utf8_encode s ++ l) = (Good <$> s) ++ utf8_chunks l.
Proof.
  induction s as [|c s IH]; [done|]. cbn [forallb]. intros [Hc Hs]%andb_true_iff.
  cbn [utf8_encode flat_map]. rewrite <- app_assoc, utf8_chunks_char by done. simpl. f_equal. by apply IH.
Qed.

Lemma good_chunks_good s o : good_chunks (Good <$> s) o = Ok s.
Proof. revert o; induction s as [|c s IH]; intros o; [done|]. simpl. by rewrite IH. Qed.

(** Decoding what was encoded. *)
Lemma from_utf8_encode s : forallb valid_char s = true -> from_utf8 (utf8_encode s) = Ok s.
Proof.
  intros H. unfold from_utf8. rewrite <- (app_nil_r (utf8_encode s)), utf8_chunks_encode by done.
  by rewrite app_nil_r, good_chunks_good.
Qed.

Lemma from_utf8_lossy_encode s : forallb valid_char s = true -> from_utf8_lossy (utf8_encode s) = s.
Proof.
  intros H. unfold from_utf8_lossy. rewrite <- (app_nil_r (utf8_encode s)), utf8_chunks_encode by done.
  rewrite app_nil_r, <- list_fmap_compose. apply list_fmap_id.
Qed.

Lemma utf8_char_length c : Z.of_nat (length (utf8_char c)) = utf8_len c.
Proof. unfold utf8_char, utf8_len. by repeat case_match. Qed.

Lemma utf8_encode_length s : Z.of_nat (length (utf8_encode s)) = str_len s.
Proof.
  induction s as [|c s IH]; [done|]. cbn [utf8_encode flat_map]. rewrite length_app.
  unfold str_len in *. cbn [foldr]. pose proof (utf8_char_length c). unfold utf8_encode in IH. lia.
Qed.

Lemma utf8_encode_app a b : utf8_encode (a ++ b) = utf8_encode a ++ utf8_encode b.
Proof. apply flat_map_app. Qed.

Lemma utf8_encode_ascii s : Forall (fun c => 0 <= c < 128) s -> utf8_encode s = s.
Proof.
  induction 1 as [|c s Hc _ IH]; [done|]. cbn [utf8_encode flat_map]. fold (utf8_encode s). rewrite IH.
  unfold utf8_char. by rewrite (proj2 (Z.ltb_lt c 128)) by lia.
Qed.

(** Encoding what was decoded: valid bytes are kept as they are. *)
Lemma utf8_two b0 b1 : 194 <= b0 <= 223 -> 128 <= b1 <= 191 ->
  utf8_char ((b0 - 192) * 64 + (b1 - 128)) = [b0; b1].
Proof.
  intros H0 H1. set (c := (b0 - 192) * 64 + (b1 - 128)). unfold utf8_char.
  rewrite (proj2 (Z.ltb_ge c 128)), (proj2 (Z.ltb_lt c 2048)) by lia.
  assert (c / 64 = b0 - 192) as -> by (symmetry; apply (Z.div_unique c 64 _ (b1 - 128)); lia).
  assert (c mod 64 = b1 - 128) as -> by (symmetry; apply (Z.mod_unique c 64 (b0 - 192)); lia).
  repeat (f_equal; [lia|]). f_equal. lia.
Qed.

Lemma utf8_three b0 b1 b2 :
  224 <= b0 <= 239 -> 128 <= b1 <= 191 -> (b0 = 224 -> 160 <= b1) -> 128 <= b2 <= 191 ->
  utf8_char ((b0 - 224) * 4096 + (b1 - 128) * 64 + (b2 - 128)) = [b0; b1; b2].
Proof.
  intros H0 H1 H1' H2. set (c := (b0 - 224) * 4096 + (b1 - 128) * 64 + (b2 - 128)). unfold utf8_char.
  rewrite (proj2 (Z.ltb_ge c 128)), (proj2 (Z.ltb_ge c 2048)), (proj2 (Z.ltb_lt c 65536)) by lia.
  assert (Hd : c / 64 = (b0 - 224) * 64 + (b1 - 128)) by (symmetry; apply (Z.div_unique c 64 _ (b2 - 128)); lia).
  assert (c / 4096 = b0 - 224) as ->
    by (symmetry; apply (Z.div_unique c 4096 _ ((b1 - 128) * 64 + (b2 - 128))); lia).
  assert (c mod 64 = b2 - 128) as -> by (symmetry; apply (Z.mod_unique c 64 (c / 64)); lia).
  assert ((c / 64) mod 64 = b1 - 128) as -> by (symmetry; apply (Z.mod_unique (c / 64) 64 (b0 - 224)); lia).
  repeat (f_equal; [lia|]). f_equal. lia.
Qed.

Lemma utf8_four b0 b1 b2 b3 :
  240 <= b0 <= 244 -> 128 <= b1 <= 191 -> (b0 = 240 -> 144 <= b1) -> 128 <= b2 <= 191 -> 128 <= b3 <= 191 ->
  utf8_char ((b0 - 240) * 262144 + (b1 - 128) * 4096 + (b2 - 128) * 64 + (b3 - 128)) = [b0; b1; b2; b3].
Proof.
  intros H0 H1 H1' H2 H3.
  set (c := (b0 - 240) * 262144 + (b1 - 128) * 4096 + (b2 - 128) * 64 + (b3 - 128)). unfold utf8_char.
  rewrite (proj2 (Z.ltb_ge c 128)), (proj2 (Z.ltb_ge c 2048)), (proj2 (Z.ltb_ge c 65536)) by lia.
  assert (Hd : c / 64 = (b0 - 240) * 4096 + (b1 - 128) * 64 + (b2 - 128))
    by (symmetry; apply (Z.div_unique c 64 _ (b3 - 128)); lia).
  assert (Hd2 : c / 4096 = (b0 - 240) * 64 + (b1 - 128))
    by (symmetry; apply (Z.div_unique c 4096 _ ((b2 - 128) * 64 + (b3 - 128))); lia).
  assert (c / 262144 = b0 - 240) as ->
    by (symmetry; apply (Z.div_unique c 262144 _ ((b1 - 128) * 4096 + (b2 - 128) * 64 + (b3 - 128))); lia).
  assert (c mod 64 = b3 - 128) as -> by (symmetry; apply (Z.mod_unique c 64 (c / 64)); lia).
  assert ((c / 64) mod 64 = b2 - 128) as ->
    by (symmetry; apply (Z.mod_unique (c / 64) 64 ((b0 - 240) * 64 + (b1 - 128))); lia).
  assert ((c / 4096) mod 64 = b1 - 128) as ->
    by (symmetry; apply (Z.mod_unique (c / 4096) 64 (b0 - 240)); lia).
  repeat (f_equal; [lia|]). f_equal. lia.
Qed.

Lemma good_chunks_cons c ks o s :
  good_chunks (Good c :: ks) o = Ok s -> exists s' o', s = c :: s' /\ good_chunks ks o' = Ok s'.
Proof.
  cbn [good_chunks]. destruct (good_chunks ks (o + utf8_len c)) as [s'|] eqn:E; cbn [rbind]; [|done].
  intros [= <-]. by exists s', (o + utf8_len c).
Qed.

Ltac ranges :=
  repeat match goal with
  | H : in_range _ _ _ = true |- _ => apply in_range_true in H
  | H : in_range _ _ _ = false |- _ => apply in_range_false in H
  end.

Lemma utf8_encode_cons c s : utf8_encode (c :: s) = utf8_char c ++ utf8_encode s.
Proof. done. Qed.

Lemma valid_char_spec c : 0 <= c < 55296 \/ 57344 <= c < 1114112 -> valid_char c = true.
Proof. intros H. unfold valid_char. rewrite orb_true_iff, !andb_true_iff, !Z.leb_le, !Z.ltb_lt. lia. Qed.

(** One more good character in front. *)
Lemma decoded_cons c s r l :
  utf8_encode s = r /\ forallb valid_char s = true -> utf8_char c ++ r = l -> 0 <= c < 55296 \/ 57344 <= c < 1114112 ->
  utf8_encode (c :: s) = l /\ forallb valid_char (c :: s) = true.
Proof. intros [<- Hs] <- Hc. split; [done|]. cbn [forallb]. by rewrite valid_char_spec. Qed.

Lemma good_chunks_encode n l o s :
  (length l <= n)%nat -> good_chunks (utf8_chunks l) o = Ok s -> utf8_encode s = l /\ forallb valid_char s = true.
Proof.
  revert l o s; induction n as [|n IH]; intros l o s Hn H.
  { destruct l; [|simpl in Hn; lia]. simpl in H. by simplify_eq. }
  destruct l as [|b0 r0]; [simpl in H; by simplify_eq|]. cbn [utf8_chunks] in H. simpl in Hn.
  destruct (in_range 0 127 b0) eqn:E0.
  { apply good_chunks_cons in H as (s' & o' & -> & H). ranges. apply IH in H; [|lia].
    eapply decoded_cons; [exact H| |lia]. unfold utf8_char. by rewrite (proj2 (Z.ltb_lt b0 128)) by lia. }
  destruct (in_range 194 223 b0) eqn:E1.
  { destruct r0 as [|b1 r1]; [done|]. destruct (is_cont b1) eqn:F1; [|done]. unfold is_cont in *. ranges.
    apply good_chunks_cons in H as (s' & o' & -> & H). simpl in Hn. apply IH in H; [|lia].
    eapply decoded_cons; [exact H|by rewrite utf8_two by lia|lia]. }
  destruct (in_range 224 239 b0) eqn:E2.
  { destruct r0 as [|b1 r1]; [done|]. destruct (second3 b0 b1) eqn:F1; [|done].
    destruct r1 as [|b2 r2]; [done|]. destruct (is_cont b2) eqn:F2; [|done].
    apply good_chunks_cons in H as (s' & o' & -> & H). simpl in Hn. apply IH in H; [|lia].
    assert (128 <= b1 <= 191 /\ (b0 = 224 -> 160 <= b1) /\ (b0 = 237 -> b1 <= 159)).
    { unfold second3, is_cont in F1. repeat case_match; bool_hyps; ranges; lia. }
    unfold is_cont in F2. ranges. eapply decoded_cons; [exact H|by rewrite utf8_three by (lia || tauto)|lia]. }
  destruct (in_range 240 244 b0) eqn:E3; [|done].
  destruct r0 as [|b1 r1]; [done|]. destruct (second4 b0 b1) eqn:F1; [|done].
  destruct r1 as [|b2 r2]; [done|]. destruct (is_cont b2) eqn:F2; [|done].
  destruct r2 as [|b3 r3]; [done|]. destruct (is_cont b3) eqn:F3; [|done].
  apply good_chunks_cons in H as (s' & o' & -> & H). simpl in Hn. apply IH in H; [|lia].
  assert (128 <= b1 <= 191 /\ (b0 = 240 -> 144 <= b1) /\ (b0 = 244 -> b1 <= 143)).
  { unfold second4, is_cont in F1. repeat case_match; bool_hyps; ranges; lia. }
  unfold is_cont in F2, F3. ranges. eapply decoded_cons; [exact H|by rewrite utf8_four by (lia || tauto)|lia].
Qed.

Lemma utf8_encode_from l s : from_utf8 l = Ok s -> utf8_encode s = l.
Proof. intros H. by apply (good_chunks_encode (length l) l 0). Qed.

Lemma from_utf8_valid l s : from_utf8 l = Ok s -> forallb valid_char s = true.
Proof. intros H. by eapply (good_chunks_encode (length l) l 0). Qed.

Lemma utf8_encode_inj a b : forallb valid_char a = true -> forallb valid_char b = true -> utf8_encode a = utf8_encode b -> a = b.
Proof. intros Ha Hb E. apply from_utf8_encode in Ha, Hb. congruence. Qed.

(** ** Decoding line by line *)

(** A line feed always ends a sequence, so decoding works line by line. *)
Lemma from_utf8_lossy_line a b : from_utf8_lossy (a ++ NL :: b) = from_utf8_lossy a ++ NL :: from_utf8_lossy b.
Proof.
  assert (H2 : is_cont NL = false) by done.
  assert (H3 : forall x, second3 x NL = false) by (intros x; unfold second3; by repeat case_match).
  assert (H4 : forall x, second4 x NL = false) by (intros x; unfold second4; by repeat case_match).
  assert (H0 : from_utf8_lossy (NL :: b) = NL :: from_utf8_lossy b) by done.
  remember (length a) as n eqn:En. revert a En. induction n as [n IH] using lt_wf_ind. intros a ->.
  unfold from_utf8_lossy in *. destruct a as [|b0 r0]; [done|]. cbn [app utf8_chunks].
  destruct (in_range 0 127 b0); [cbn; f_equal; apply (IH (length r0)); cbn; lia|].
  assert (Hr : forall x r, (length r < S (length r0))%nat ->
    (fun k => match k with Good c => c | Bad _ _ => REPLACEMENT end) <$> (x :: utf8_chunks (r ++ NL :: b)) =
    ((fun k => match k with Good c => c | Bad _ _ => REPLACEMENT end) <$> (x :: utf8_chunks r)) ++
      NL :: ((fun k => match k with Good c => c | Bad _ _ => REPLACEMENT end) <$> utf8_chunks b)).
  { intros x r Hlen. cbn [fmap list_fmap app]. f_equal. apply (IH (length r)); [done|done]. }
  destruct (in_range 194 223 b0).
  { destruct r0 as [|b1 r1]; [done|]. cbn [app].
    destruct (is_cont b1); [apply (Hr _ r1)|apply (Hr _ (b1 :: r1))]; cbn; lia. }
  destruct (in_range 224 239 b0).
  { destruct r0 as [|b1 r1]; [cbn [app]; by rewrite H3|]. cbn [app].
    destruct (second3 b0 b1); [|apply (Hr _ (b1 :: r1)); cbn; lia].
    destruct r1 as [|b2 r2]; [done|]. cbn [app].
    destruct (is_cont b2); [apply (Hr _ r2)|apply (Hr _ (b2 :: r2))]; cbn; lia. }
  destruct (in_range 240 244 b0); [|apply (Hr _ r0); cbn; lia].
  destruct r0 as [|b1 r1]; [cbn [app]; by rewrite H4|]. cbn [app].
  destruct (second4 b0 b1); [|apply (Hr _ (b1 :: r1)); cbn; lia].
  destruct r1 as [|b2 r2]; [done|]. cbn [app].
  destruct (is_cont b2); [|apply (Hr _ (b2 :: r2)); cbn; lia].
  destruct r2 as [|b3 r3]; [done|]. cbn [app].
  destruct (is_cont b3); [apply (Hr _ r3)|apply (Hr _ (b3 :: r3))]; cbn; lia.
Qed.

Lemma lossy_len_fuel n l : (length l <= n)%nat -> str_len (from_utf8_lossy l) <= 3 * Z.of_nat (length l).
Proof.
  revert l; induction n as [|n IH]; intros l Hl; [by destruct l; [|cbn in Hl; lia]|].
  assert (Hcons : forall c k r used, utf8_len c <= 3 * Z.of_nat used -> (length r + used = length l)%nat -> (0 < used)%nat ->
    k = c -> str_len (k :: from_utf8_lossy r) <= 3 * Z.of_nat (length l)).
  { intros c k r used Hc Hr Hu ->. change (str_len (c :: from_utf8_lossy r)) with (utf8_len c + str_len (from_utf8_lossy r)). specialize (IH r ltac:(lia)). lia. }
  unfold from_utf8_lossy in *. destruct l as [|b0 r0]; [done|]. cbn [utf8_chunks].
  assert (Hbad : forall r used, (length r + used = length (b0 :: r0))%nat -> (0 < used)%nat ->
     str_len (REPLACEMENT :: ((fun k => match k with Good c => c | Bad _ _ => REPLACEMENT end) <$> utf8_chunks r)) <= 3 * Z.of_nat (length (b0 :: r0))).
  { intros r used H1 H2. eapply (Hcons REPLACEMENT); [|exact H1|done|done]. cbn. lia. }
  assert (H4 : forall c, utf8_len c <= 4) by (intros c; pose proof (utf8_len_bounds c); lia).
  destruct (in_range 0 127 b0) eqn:E0.
  { apply in_range_true in E0. eapply (Hcons b0 b0 r0 1%nat); [|cbn; lia|lia|done]. unfold utf8_len. destruct (b0 <? 128) eqn:E; bool_hyps; lia. }
  repeat case_match; cbn [fmap list_fmap]; subst;
   try (eapply Hbad; [cbn [length]; rewrite Nat.add_1_r; reflexivity|lia]);
   try (eapply (Hbad _ 2%nat); [cbn [length]; lia|lia]);
   try (eapply (Hbad _ 3%nat); [cbn [length]; lia|lia]);
   try (eapply (Hcons _ _ _ 2%nat); [etrans; [apply H4|lia]|cbn [length]; lia|lia|done]);
   try (eapply (Hcons _ _ _ 3%nat); [etrans; [apply H4|lia]|cbn [length]; lia|lia|done]);
   try (eapply (Hcons _ _ _ 4%nat); [etrans; [apply H4|lia]|cbn [length]; lia|lia|done]);
   try (change (str_len [REPLACEMENT]) with 3; cbn [length]; lia).
Qed.

(** Decoding grows a text at most threefold: an invalid byte becomes a
    three-byte replacement character. *)
Lemma from_utf8_lossy_len l : str_len (from_utf8_lossy l) <= 3 * Z.of_nat (length l).
Proof. exact (lossy_len_fuel (length l) l (Nat.le_refl _)). Qed.
