(* ===== verification/Channel.v ===== *)
(** * Channel events

    What [Channel::wait] of the SSH library delivers, as far as the program
    tells the cases apart. The library itself is not modelled: a run of the
    program against a channel is a run over a list of these events. *)
From Stdlib Require Import ZArith String.
From stdpp Require Import base list.
From S2P Require Import Prelude.

Inductive Sig : Type :=
  | HUP | INT | QUIT | ILL | ABRT | FPE | KILL | USR1 | SEGV | PIPE | ALRM | TERM
  | Custom (name : str).

Inductive ChannelMsg : Type :=
  | Data (data : bytes)
  | ExtendedData (ext : Z) (data : bytes)
  | ExitStatus (exit_status : Z)
  | ExitSignal (signal_name : Sig)
  | Close
  | Eof
  | Failure
  | OtherMsg.

#[global] Instance Sig_eq_dec : EqDecision Sig.
Proof. solve_decision. Defined.
#[global] Instance ChannelMsg_eq_dec : EqDecision ChannelMsg.
Proof. solve_decision. Defined.

(** The standard-output bytes a list of events carries. *)
Definition msg_data (m : ChannelMsg) : bytes :=
  match m with Data d => d | _ => [] end.
Definition data_of (ms : list (option ChannelMsg)) : bytes :=
  flat_map (fun m => match m with Some m => msg_data m | None => [] end) ms.

(** Conventional exit codes of signals, 128 plus the number. *)
Definition signal_exit_code (s : Sig) : Z :=
  match s with
  | HUP => 129 | INT => 130 | QUIT => 131 | ILL => 132 | ABRT => 134 | FPE => 136
  | KILL => 137 | USR1 => 138 | SEGV => 139 | PIPE => 141 | ALRM => 142 | TERM => 143
  | Custom _ => 128
  end.
