(* ===== verification/Marker.v ===== *)
(** * Background markers (src/background/marker.rs)

    The wrapper script prints three lines before the user's command starts:
    the job id, the process id and the log path. The reader takes exactly
    those lines off the channel and hands the bytes after them on. *)
From Stdlib Require Import ZArith String.
From stdpp Require Import base list.
From S2P Require Import Prelude Utf8 Channel.

Record BackgroundMarkers : Type := {
  m_job_id : str;
  m_pid : Z;
  remote_log_path : str
}.

Definition JOB_ID_MARKER : str := lit "__SSH_MCP_JOB_ID=".
Definition PID_MARKER : str := lit "__SSH_MCP_PID=".
Definition LOG_MARKER : str := lit "__SSH_MCP_LOG=".

Definition trim_end_matches (c : char) (s : str) : str := rev (drop_while (Z.eqb c) (rev s)).

(** What the loop over the lines has seen so far. *)
Record marker_acc : Type := {
  a_job_id : option str;
  a_pid : option Z;
  a_log_path : option str
}.

Definition marker_line (acc : marker_acc) (raw_line : str) : result marker_acc str :=
  let line := trim_end_matches CR raw_line in
  match strip_prefix JOB_ID_MARKER line with
  | Some rest =>
      if bool_decide (is_Some (a_job_id acc)) then Err (lit "Duplicate __SSH_MCP_JOB_ID marker")
      else Ok {| a_job_id := Some rest; a_pid := a_pid acc; a_log_path := a_log_path acc |}
  | None =>
  match strip_prefix PID_MARKER line with
  | Some rest =>
      if bool_decide (is_Some (a_pid acc)) then Err (lit "Duplicate __SSH_MCP_PID marker")
      else match parse_u32 rest with
           | None => Err (lit "Invalid pid marker value '" ++ rest ++ lit "': " ++ parse_uint_error U32_MAX rest)
           | Some pid => Ok {| a_job_id := a_job_id acc; a_pid := Some pid; a_log_path := a_log_path acc |}
           end
  | None =>
  match strip_prefix LOG_MARKER line with
  | Some rest =>
      if bool_decide (is_Some (a_log_path acc)) then Err (lit "Duplicate __SSH_MCP_LOG marker")
      else Ok {| a_job_id := a_job_id acc; a_pid := a_pid acc; a_log_path := Some rest |}
  | None => Ok acc
  end end end.

Fixpoint marker_lines (acc : marker_acc) (lines : list str) : result marker_acc str :=
  match lines with
  | [] => Ok acc
  | l :: rest => let? acc := marker_line acc l in marker_lines acc rest
  end.

Definition parse_background_markers (stdout expected_job_id expected_log_path : str) :
    result BackgroundMarkers str :=
  let? acc := marker_lines {| a_job_id := None; a_pid := None; a_log_path := None |} (str_lines stdout) in
  let? job_id := ok_or (a_job_id acc) (lit "Missing __SSH_MCP_JOB_ID marker") in
  let? pid := ok_or (a_pid acc) (lit "Missing __SSH_MCP_PID marker") in
  let? log_path := ok_or (a_log_path acc) (lit "Missing __SSH_MCP_LOG marker") in
  if pid =? 0 then Err (lit "Invalid pid marker value '0'")
  else if negb (str_eqb job_id expected_job_id) then
    Err (lit "Unexpected job id marker value '" ++ job_id ++ lit "', expected '" ++ expected_job_id ++ lit "'")
  else if negb (str_eqb log_path expected_log_path) then
    Err (lit "Unexpected log path marker value '" ++ log_path ++ lit "', expected '" ++ expected_log_path ++ lit "'")
  else Ok {| m_job_id := job_id; m_pid := pid; remote_log_path := log_path |}.

(** ** Reading from the channel *)

Fixpoint position (c : Z) (l : bytes) : option nat :=
  match l with
  | [] => None
  | x :: l' => if x =? c then Some O else S <$> position c l'
  end.

(** The inner loop: takes complete lines while fewer than three are parsed.
    [todo] is the number of lines still wanted. *)
Fixpoint take_lines (todo : nat) (stdout_buf : bytes) (marker_stdout : str) (line_start : nat) :
    result (nat * str * nat) str :=
  match todo with
  | O => Ok (O, marker_stdout, line_start)
  | S todo' =>
      match position NL (drop line_start stdout_buf) with
      | None => Ok (todo, marker_stdout, line_start)
      | Some rel_nl =>
          let nl := (line_start + rel_nl)%nat in
          match from_utf8 (take rel_nl (drop line_start stdout_buf)) with
          | Err e => Err (lit "invalid UTF-8 in marker stream: " ++ utf8_error_display e)
          | Ok line => take_lines todo' stdout_buf (marker_stdout ++ line ++ [NL]) (S nl)
          end
      end
  end.

(** The outer loop over the channel's events; [None] is the end of the
    channel. When the events run out before the markers are complete, the
    deadline passes. The result carries the bytes after the markers and the
    events that were not consumed. *)
Fixpoint read_markers_loop (timeout_ms : Z) (msgs : list (option ChannelMsg)) (todo : nat)
    (stdout_buf : bytes) (marker_stdout : str) (line_start : nat) :
    result (str * bytes * list (option ChannelMsg)) str :=
  match todo with
  | O => Ok (marker_stdout, drop line_start stdout_buf, msgs)
  | S _ =>
      match msgs with
      | [] => Err (lit "timed out waiting for background markers after " ++ show_uint timeout_ms ++ lit "ms")
      | None :: _ => Err (lit "channel ended before background markers")
      | Some msg :: rest =>
          match msg with
          | Data data =>
              let stdout_buf := stdout_buf ++ data in
              let? '(todo, marker_stdout, line_start) := take_lines todo stdout_buf marker_stdout line_start in
              read_markers_loop timeout_ms rest todo stdout_buf marker_stdout line_start
          | ExtendedData _ data =>
              Err (lit "unexpected stderr while reading background markers: " ++ take 256 (from_utf8_lossy data))
          | ExitStatus exit_status =>
              Err (lit "channel exited before background markers (exit_status=" ++ show_uint exit_status ++ lit ")")
          | _ => read_markers_loop timeout_ms rest todo stdout_buf marker_stdout line_start
          end
      end
  end.

Definition read_background_markers_from_channel (msgs : list (option ChannelMsg))
    (expected_job_id expected_log_path : str) (timeout_ms : Z) :
    result (BackgroundMarkers * bytes * list (option ChannelMsg)) str :=
  let? '(marker_stdout, remaining, unread) := read_markers_loop timeout_ms msgs 3 [] [] 0 in
  let? markers := rmap_err (fun e => lit "failed to parse background markers: " ++ e)
                    (parse_background_markers marker_stdout expected_job_id expected_log_path) in
  Ok (markers, remaining, unread).

(** ** Properties *)

Lemma position_app c a b :
  position c (a ++ b) =
  match position c a with
  | Some i => Some i
  | None => Nat.add (length a) <$> position c b
  end.
Proof.
  induction a as [|x a IH]; simpl; [by destruct (position c b)|].
  destruct (x =? c); [done|]. rewrite IH. destruct (position c a); [done|]. by destruct (position c b).
Qed.

Lemma position_lt c l i : position c l = Some i -> (i < length l)%nat.
Proof.
  revert i; induction l as [|x l IH]; simpl; intros i; [done|].
  destruct (x =? c); [intros [= <-]; lia|]. destruct (position c l) as [j|]; [|done].
  intros [= <-]. specialize (IH j eq_refl). lia.
Qed.

Lemma position_None c l : c ∉ l -> position c l = None.
Proof.
  induction l as [|x l IH]; [done|]. rewrite not_elem_of_cons. intros [H1 H2]. simpl.
  destruct (x =? c) eqn:E; bool_hyps; [congruence|]. by rewrite IH.
Qed.

(** Lines already complete in the first part of a buffer are taken the same
    way when more bytes follow. *)
Lemma take_lines_app todo a b m ls :
  (ls <= length a)%nat ->
  take_lines todo (a ++ b) m ls =
  rbind (take_lines todo a m ls) (fun '(t, m', ls') => take_lines t (a ++ b) m' ls').
Proof.
  revert m ls; induction todo as [|todo IH]; intros m ls Hls; [done|]. cbn [take_lines].
  rewrite drop_app_le by done. rewrite position_app.
  destruct (position NL (drop ls a)) as [rel|] eqn:E.
  - apply position_lt in E. rewrite length_drop in E.
    rewrite take_app_le by (rewrite length_drop; lia).
    destruct (from_utf8 _) as [line|]; [|done]. cbn [rbind]. rewrite IH by lia. done.
  - cbn [rbind take_lines]. rewrite drop_app_le, position_app, E by done. done.
Qed.

Lemma take_lines_bound todo a m ls t m' ls' :
  (ls <= length a)%nat -> take_lines todo a m ls = Ok (t, m', ls') -> (ls' <= length a)%nat.
Proof.
  revert m ls; induction todo as [|todo IH]; intros m ls Hls H; cbn [take_lines] in H; [by simplify_eq|].
  destruct (position NL (drop ls a)) as [rel|] eqn:E; [|by simplify_eq].
  destruct (from_utf8 _) as [line|]; [|done]. apply position_lt in E. rewrite length_drop in E.
  eapply IH; [|exact H]. lia.
Qed.

(** No line is left in the buffer while lines are still wanted. *)
Definition stuck (todo : nat) (buf : bytes) (m : str) (ls : nat) : Prop :=
  (ls <= length buf)%nat /\ take_lines todo buf m ls = Ok (todo, m, ls).

Lemma take_lines_stuck todo a m ls t m' ls' :
  (ls <= length a)%nat -> take_lines todo a m ls = Ok (t, m', ls') -> stuck t a m' ls'.
Proof.
  intros Hls H. split; [by eapply take_lines_bound|].
  revert m ls Hls H; induction todo as [|todo IH]; intros m ls Hls H; cbn [take_lines] in H.
  - by simplify_eq.
  - destruct (position NL (drop ls a)) as [rel|] eqn:E.
    + destruct (from_utf8 _) as [line|]; [|done]. apply position_lt in E. rewrite length_drop in E.
      eapply IH; [|exact H]. lia.
    + simplify_eq. cbn [take_lines]. by rewrite E.
Qed.

Lemma data_of_cons m ms : data_of (Some m :: ms) = msg_data m ++ data_of ms.
Proof. done. Qed.

(** A successful read took its lines from the front of the data, and every
    later byte is either handed back or still unread. *)
Lemma read_markers_loop_sound tmo msgs todo buf m ls m' remaining unread :
  stuck todo buf m ls ->
  read_markers_loop tmo msgs todo buf m ls = Ok (m', remaining, unread) ->
  exists ls', take_lines todo (buf ++ data_of msgs) m ls = Ok (O, m', ls') /\
    (ls' <= length (buf ++ data_of msgs))%nat /\
    remaining ++ data_of unread = drop ls' (buf ++ data_of msgs).
Proof.
  revert todo buf m ls; induction msgs as [|msg msgs IH]; intros todo buf m ls [Hls Hst] H.
  - destruct todo; simpl in H; [|done]. simplify_eq. exists ls. rewrite !app_nil_r. done.
  - destruct todo as [|todo]; cbn [read_markers_loop] in H.
    { simplify_eq. exists ls. rewrite length_app, drop_app_le by done. split_and!; [done|lia|done]. }
    destruct msg as [msg|]; [|done]. rewrite data_of_cons.
    destruct msg; try done; try (apply (IH (S todo)); done).
    destruct (take_lines (S todo) (buf ++ data) m ls) as [[[t1 m1] ls1]|] eqn:E; cbn [rbind] in H; [|done].
    assert (Hl : (ls <= length (buf ++ data))%nat) by (rewrite length_app; lia).
    apply IH in H as (ls' & H1 & H2 & H3); [|by eapply take_lines_stuck].
    cbn [msg_data]. rewrite !app_assoc. exists ls'. split_and!; [|done|done].
    rewrite take_lines_app, E by done. exact H1.
Qed.

(** Events that carry no standard error and do not end the channel. *)
Definition benign (m : option ChannelMsg) : bool :=
  match m with Some (Data _ | Close | Eof | Failure | OtherMsg | ExitSignal _) => true | _ => false end.

Lemma read_markers_loop_complete tmo msgs todo buf m ls m' ls' :
  stuck todo buf m ls -> forallb benign msgs = true ->
  take_lines todo (buf ++ data_of msgs) m ls = Ok (O, m', ls') ->
  exists remaining unread, read_markers_loop tmo msgs todo buf m ls = Ok (m', remaining, unread).
Proof.
  revert todo buf m ls; induction msgs as [|msg msgs IH]; intros todo buf m ls [Hls Hst] Hb H.
  - cbn [data_of flat_map] in H. rewrite app_nil_r in H. rewrite Hst in H. simplify_eq. simpl. eauto.
  - destruct todo as [|todo]; cbn [read_markers_loop]; [simpl in H; simplify_eq; eauto|].
    cbn [forallb] in Hb. apply andb_true_iff in Hb as [Hm Hb].
    destruct msg as [msg|]; [|done]. rewrite data_of_cons in H.
    destruct msg; try done; try (apply (IH (S todo)); done).
    assert (Hl : (ls <= length (buf ++ data))%nat) by (rewrite length_app; lia).
    cbn [msg_data] in H. rewrite app_assoc, take_lines_app in H by done.
    destruct (take_lines (S todo) (buf ++ data) m ls) as [[[t1 m1] ls1]|] eqn:E; cbn [rbind] in *; [|done].
    apply IH; [by eapply take_lines_stuck|done|done].
Qed.

(** *** The printed markers *)

Definition marker_text (job_id : str) (pid : Z) (log_path : str) : str :=
  JOB_ID_MARKER ++ job_id ++ NL :: PID_MARKER ++ show_uint pid ++ NL :: LOG_MARKER ++ log_path ++ [NL].

(** A value that fits on a marker line. *)
Definition marker_value (v : str) : Prop :=
  forallb valid_char v = true /\ NL ∉ v /\ (forall a, v <> a ++ [CR]).

Lemma trim_end_matches_id c l : (forall a, l <> a ++ [c]) -> trim_end_matches c l = l.
Proof.
  intros H. unfold trim_end_matches. destruct (rev l) as [|x r] eqn:E.
  - apply (f_equal (@rev Z)) in E. rewrite rev_involutive in E. by subst.
  - apply (f_equal (@rev Z)) in E. rewrite rev_involutive in E. simpl in E. simpl.
    destruct (c =? x) eqn:F; [|simpl; by rewrite E].
    bool_hyps. subst. by destruct (H (rev r)).
Qed.

Lemma no_cr_app p v : (forall a, p <> a ++ [CR]) -> (forall a, v <> a ++ [CR]) -> forall a, p ++ v <> a ++ [CR].
Proof.
  intros Hp Hv a E. destruct v as [|x v] using rev_ind; [rewrite app_nil_r in E; by apply (Hp a)|].
  rewrite app_assoc in E. apply app_inj_tail in E as [_ ->]. by apply (Hv v).
Qed.

Lemma digits_value n : 0 <= n -> marker_value (show_uint n).
Proof.
  intros H. pose proof (show_uint_digits n H) as Hd. rewrite Forall_forall in Hd.
  assert (Hr : forall c, c ∈ show_uint n -> 48 <= c <= 57).
  { intros c Hc%Hd. unfold is_ascii_digit in Hc. bool_hyps. lia. }
  split_and!.
  - apply forallb_forall. intros c Hc. apply list_elem_of_In, Hr in Hc. unfold valid_char.
    apply orb_true_iff. left. apply andb_true_iff. split; [apply Z.leb_le; lia|apply Z.ltb_lt; lia].
  - intros Hc%Hr. unfold NL in Hc. lia.
  - intros a E. assert (Hc : CR ∈ show_uint n) by (rewrite E, elem_of_app; right; by left).
    apply Hr in Hc. unfold CR in Hc. lia.
Qed.

Lemma marker_line_value p v :
  forallb valid_char p = true -> NL ∉ p -> (forall a, p <> a ++ [CR]) -> marker_value v ->
  marker_value (p ++ v).
Proof.
  intros H1 H2 H3 (V1 & V2 & V3). split_and!.
  - by rewrite forallb_app, H1, V1.
  - rewrite elem_of_app. by intros [|].
  - by apply no_cr_app.
Qed.

Lemma marker_prefixes :
  Forall (fun p => forallb valid_char p = true /\ NL ∉ p /\ (forall a, p <> a ++ [CR]))
    [JOB_ID_MARKER; PID_MARKER; LOG_MARKER].
Proof.
  repeat (apply Forall_cons; split);
    [split_and!; [done|by apply contains_char_false|]; intros a E;
     apply (f_equal (@rev Z)) in E; rewrite rev_app_distr in E; vm_compute in E; congruence ..
    |apply Forall_nil; exact I].
Qed.

Lemma marker_value_line p v :
  p ∈ [JOB_ID_MARKER; PID_MARKER; LOG_MARKER] -> marker_value v -> marker_value (p ++ v).
Proof.
  intros Hp Hv. pose proof marker_prefixes as H. rewrite Forall_forall in H.
  destruct (H p Hp) as (H1 & H2 & H3). by apply marker_line_value.
Qed.

Lemma marker_text_lines job_id pid log_path :
  marker_value job_id -> marker_value log_path -> 0 <= pid ->
  str_lines (marker_text job_id pid log_path) =
    [JOB_ID_MARKER ++ job_id; PID_MARKER ++ show_uint pid; LOG_MARKER ++ log_path].
Proof.
  intros Hj Hl Hp. unfold marker_text.
  pose proof (marker_value_line JOB_ID_MARKER job_id ltac:(by left) Hj) as (_ & J1 & J2).
  pose proof (marker_value_line PID_MARKER _ ltac:(right; by left) (digits_value pid Hp)) as (_ & P1 & P2).
  pose proof (marker_value_line LOG_MARKER log_path ltac:(right; right; by left) Hl) as (_ & L1 & L2).
  rewrite app_assoc, str_lines_line by done. f_equal.
  rewrite app_assoc, str_lines_line by done. f_equal.
  rewrite app_assoc. by rewrite (str_lines_line _ []).
Qed.

Lemma parse_marker_text job_id pid log_path :
  marker_value job_id -> marker_value log_path -> 0 < pid <= U32_MAX ->
  parse_background_markers (marker_text job_id pid log_path) job_id log_path =
  Ok {| m_job_id := job_id; m_pid := pid; remote_log_path := log_path |}.
Proof.
  intros Hj Hl Hp. unfold parse_background_markers. rewrite marker_text_lines by (done || lia).
  assert (Ht : forall p v, p ∈ [JOB_ID_MARKER; PID_MARKER; LOG_MARKER] -> marker_value v ->
    trim_end_matches CR (p ++ v) = p ++ v).
  { intros p v H1 H2. apply trim_end_matches_id. by apply marker_value_line. }
  assert (Hd : marker_value (show_uint pid)) by (apply digits_value; lia).
  cbn [marker_lines]. unfold marker_line at 1. rewrite Ht by (done || (by left)).
  rewrite strip_prefix_app. cbn [a_job_id a_pid a_log_path]. rewrite bool_decide_eq_false_2 by (by intros []).
  cbn [rbind]. unfold marker_line at 1. rewrite Ht by (done || (right; by left)).
  change (strip_prefix JOB_ID_MARKER (PID_MARKER ++ ?x)) with (@None str).
  rewrite strip_prefix_app. cbn [a_job_id a_pid a_log_path]. rewrite bool_decide_eq_false_2 by (by intros []).
  unfold parse_u32. rewrite parse_show_uint by lia.
  cbn [rbind]. unfold marker_line at 1. rewrite Ht by (done || (right; right; by left)).
  change (strip_prefix JOB_ID_MARKER (LOG_MARKER ++ ?x)) with (@None str).
  change (strip_prefix PID_MARKER (LOG_MARKER ++ ?x)) with (@None str).
  rewrite strip_prefix_app. cbn [a_job_id a_pid a_log_path]. rewrite bool_decide_eq_false_2 by (by intros []).
  cbn [rbind ok_or a_job_id a_pid a_log_path]. rewrite (proj2 (Z.eqb_neq pid 0)) by lia.
  by rewrite !str_eqb_refl.
Qed.

(** *** Taking the printed lines off a byte stream *)

Lemma utf8_no_nl v : forallb valid_char v = true -> NL ∉ v -> NL ∉ utf8_encode v.
Proof.
  intros Hv Hn Hin. apply list_elem_of_In, in_flat_map in Hin as (c & Hc & Hb).
  apply forallb_forall with (x := c) in Hv; [|done].
  assert (c <> NL) by (intros ->; apply Hn; by apply list_elem_of_In).
  unfold valid_char in Hv. unfold utf8_char, NL in *.
  pose proof (Z.mod_pos_bound c 64). pose proof (Z.mod_pos_bound (c / 64) 64).
  pose proof (Z.mod_pos_bound (c / 4096) 64).
  assert (0 <= c) by (apply orb_true_iff in Hv as [Hv|Hv]; bool_hyps; lia).
  assert (0 <= c / 64 /\ 0 <= c / 4096 /\ 0 <= c / 262144) by (split_and!; apply Z.div_pos; lia).
  repeat case_match; simpl in Hb; intuition lia.
Qed.

Lemma take_lines_line todo v pre r m :
  marker_value v ->
  take_lines (S todo) (pre ++ utf8_encode v ++ NL :: r) m (length pre) =
  take_lines todo (pre ++ utf8_encode v ++ NL :: r) (m ++ v ++ [NL]) (length (pre ++ utf8_encode v ++ [NL])).
Proof.
  intros (V1 & V2 & _). cbn [take_lines]. rewrite drop_app_length, position_app.
  rewrite position_None by (by apply utf8_no_nl). cbn [position]. rewrite Z.eqb_refl.
  cbn [fmap option_fmap option_map]. rewrite Nat.add_0_r, take_app_length, from_utf8_encode by done.
  f_equal. rewrite !length_app. simpl. lia.
Qed.

Lemma take_marker_text job_id pid log_path rest :
  marker_value job_id -> marker_value log_path -> 0 <= pid ->
  let text := marker_text job_id pid log_path in
  take_lines 3 (utf8_encode text ++ rest) [] 0 = Ok (O, text, length (utf8_encode text)).
Proof.
  intros Hj Hl Hp text.
  pose proof (marker_value_line JOB_ID_MARKER job_id ltac:(by left) Hj) as J.
  pose proof (marker_value_line PID_MARKER _ ltac:(right; by left) (digits_value pid Hp)) as P.
  pose proof (marker_value_line LOG_MARKER log_path ltac:(right; right; by left) Hl) as L.
  set (l1 := JOB_ID_MARKER ++ job_id) in *. set (l2 := PID_MARKER ++ show_uint pid) in *.
  set (l3 := LOG_MARKER ++ log_path) in *.
  assert (Et : text = l1 ++ [NL] ++ l2 ++ [NL] ++ l3 ++ [NL])
    by (unfold text, marker_text, l1, l2, l3; by rewrite <- !app_assoc).
  rewrite Et. rewrite !utf8_encode_app. change (utf8_encode [NL]) with [NL].
  set (e1 := utf8_encode l1). set (e2 := utf8_encode l2). set (e3 := utf8_encode l3).
  rewrite <- !app_assoc. cbn [app].
  pose proof (take_lines_line 2 l1 [] (e2 ++ NL :: e3 ++ NL :: rest) [] J) as H1.
  pose proof (take_lines_line 1 l2 (e1 ++ [NL]) (e3 ++ NL :: rest) (l1 ++ [NL]) P) as H2.
  pose proof (take_lines_line 0 l3 (e1 ++ [NL] ++ e2 ++ [NL]) rest (l1 ++ [NL] ++ l2 ++ [NL]) L) as H3.
  fold e1 in H1. fold e2 in H2. fold e3 in H3.
  rewrite <- !app_assoc in H2. rewrite <- !app_assoc in H3. cbn [app length] in H1, H2, H3.
  rewrite H1. etrans; [exact H2|]. etrans; [exact H3|]. cbn [take_lines].
  by rewrite <- ?app_assoc.
Qed.

Lemma marker_lines_pid ls acc acc' :
  marker_lines acc ls = Ok acc' ->
  (forall v, a_pid acc = Some v -> 0 <= v <= U32_MAX) -> forall v, a_pid acc' = Some v -> 0 <= v <= U32_MAX.
Proof.
  revert acc; induction ls as [|l ls IH]; intros acc H H0; [by simplify_eq/=|].
  cbn [marker_lines] in H. destruct (marker_line acc l) as [a1|] eqn:E1; cbn [rbind] in H; [|done].
  apply (IH a1); [done|]. unfold marker_line in E1. repeat case_match; simplify_eq/=; try done.
  intros v [= <-]. by eapply parse_uint_bounds; [|eassumption].
Qed.

Lemma parse_markers_expected text job_id log_path m :
  parse_background_markers text job_id log_path = Ok m ->
  m_job_id m = job_id /\ remote_log_path m = log_path /\ 0 < m_pid m /\ m_pid m <= U32_MAX.
Proof.
  unfold parse_background_markers. intros P.
  destruct (marker_lines _ _) as [acc|] eqn:Ea; cbn [rbind] in P; [|done].
  pose proof (marker_lines_pid _ _ _ Ea ltac:(done)) as Hpid.
  destruct (a_job_id acc), (a_pid acc) as [pid|], (a_log_path acc); simplify_eq/=; try done.
  specialize (Hpid pid eq_refl). res_inv. bool_hyps. apply str_eqb_spec in Heqb0, Heqb1. subst.
  split_and!; try done; simpl; lia.
Qed.

(** The reader loses and invents nothing. When it succeeds, the markers
    are those of the expected job and log path with a non-zero 32-bit process
    id, they were parsed from a text that stood at the front of the channel's
    data, and the bytes handed on followed by the data still unread are exactly
    the rest: the job's own output, from its first byte. *)
Theorem read_markers_exact (msgs : list (option ChannelMsg)) (job_id log_path : str) (timeout_ms : Z)
    (m : BackgroundMarkers) (remaining : bytes) (unread : list (option ChannelMsg))
    (H : read_background_markers_from_channel msgs job_id log_path timeout_ms = Ok (m, remaining, unread)) :
  m_job_id m = job_id /\ remote_log_path m = log_path /\ 0 < m_pid m <= U32_MAX /\
  exists text n,
    take_lines 3 (data_of msgs) [] 0 = Ok (O, text, n) /\
    parse_background_markers text job_id log_path = Ok m /\
    data_of msgs = take n (data_of msgs) ++ remaining ++ data_of unread.
Proof.
  unfold read_background_markers_from_channel in H.
  destruct (read_markers_loop _ _ _ _ _ _) as [[[text rem] unr]|] eqn:E; cbn [rbind] in H; [|done].
  destruct (parse_background_markers text job_id log_path) as [m'|] eqn:P; simplify_eq/=.
  apply read_markers_loop_sound in E as (n & H1 & H2 & H3); [|done]. cbn [app] in *.
  destruct (parse_markers_expected _ _ _ _ P) as (? & ? & ? & ?). split_and!; [done..|].
  exists text, n. split_and!; [done..|]. rewrite H3. symmetry. apply take_drop.
Qed.

Lemma read_markers_exact_witness :
  let msgs := [Some (Data (lit "__SSH_MCP_JOB_ID=j" ++ [NL] ++ lit "__SSH_MCP_PID=4"));
               Some (Data (lit "2" ++ [NL] ++ lit "__SSH_MCP_LOG=/l" ++ [NL] ++ lit "out")); None] in
  exists text n, take_lines 3 (data_of msgs) [] 0 = Ok (O, text, n) /\
    data_of msgs = take n (data_of msgs) ++ lit "out" ++ data_of [None].
Proof.
  intros msgs.
  destruct (read_markers_exact msgs (lit "j") (lit "/l") 1000
    {| m_job_id := lit "j"; m_pid := 42; remote_log_path := lit "/l" |} (lit "out") [None]
    ltac:(vm_compute; reflexivity)) as (_ & _ & _ & text & n & H1 & _ & H2).
  by exists text, n.
Defined.

(** Delivery does not matter. If the wrapper's three lines are followed
    by any output, and the bytes arrive cut into data events in any way (also
    in the middle of a line or of a character), interleaved with events that
    carry no standard error and no exit status, the reader succeeds with the
    printed process id and hands on exactly the output. *)
Theorem read_markers_delivery (msgs : list (option ChannelMsg)) (job_id log_path : str) (pid : Z)
    (rest : bytes) (timeout_ms : Z)
    (Hj : marker_value job_id) (Hl : marker_value log_path) (Hp : 0 < pid <= U32_MAX)
    (Hb : forallb benign msgs = true)
    (Hd : data_of msgs = utf8_encode (marker_text job_id pid log_path) ++ rest) :
  exists remaining unread,
    read_background_markers_from_channel msgs job_id log_path timeout_ms =
      Ok ({| m_job_id := job_id; m_pid := pid; remote_log_path := log_path |}, remaining, unread) /\
    remaining ++ data_of unread = rest.
Proof.
  pose proof (take_marker_text job_id pid log_path rest Hj Hl ltac:(lia)) as Ht. cbn zeta in Ht.
  assert (Hs : stuck 3 [] [] 0) by done.
  rewrite <- Hd in Ht.
  destruct (read_markers_loop_complete timeout_ms msgs 3 [] [] 0 _ _ Hs Hb Ht) as (rem & unread & E).
  destruct (read_markers_loop_sound _ _ _ _ _ _ _ _ _ Hs E) as (n & H1 & _ & H3).
  cbn [app] in H1, H3. rewrite Ht in H1. injection H1 as <-.
  exists rem, unread. unfold read_background_markers_from_channel. rewrite E. cbn [rbind].
  rewrite parse_marker_text by done. split; [done|]. rewrite H3, Hd. apply drop_app_length.
Qed.

Lemma read_markers_delivery_witness :
  let text := utf8_encode (marker_text (lit "j") 42 (lit "/l")) in
  exists remaining unread,
    read_background_markers_from_channel
      [Some (Data (take 5 text)); Some OtherMsg; Some (Data (drop 5 text ++ lit "ou")); Some (Data (lit "t"))]
      (lit "j") (lit "/l") 1000 =
      Ok ({| m_job_id := lit "j"; m_pid := 42; remote_log_path := lit "/l" |}, remaining, unread) /\
    remaining ++ data_of unread = lit "out".
Proof.
  intros text. apply read_markers_delivery; try (vm_compute; reflexivity).
  all: try (split_and!; [vm_compute; reflexivity|by apply contains_char_false|];
    intros a E; apply (f_equal (@rev Z)) in E; rewrite rev_app_distr in E; vm_compute in E; congruence).
  vm_compute. split; congruence.
Defined.
