(* ===== verification/Stream.v ===== *)
(** * Output streaming (src/background/stream.rs)

    Copies a background job's output from its channel into the local log and
    records how the job ended. An event is paired with the milliseconds it
    took to arrive; when the events run out, nothing more arrives. Writing to
    the log file is an argument ([append], [sync]): it may fail at any time. *)
From Stdlib Require Import ZArith String.
From stdpp Require Import base list gmap.
From S2P Require Import Prelude Errors Channel Job Registry.

Definition STATE_REASON_LIMIT_CHARS : nat := 160.

Inductive JobTerminalUpdate : Type :=
  | UpdExit (code : Z)
  | UpdStateLost (reason : str).

Definition truncate_state_reason (input : str) : str := take STATE_REASON_LIMIT_CHARS input.

Definition clamp_exit_status (exit_status : Z) : Z := if 255 <? exit_status then 255 else exit_status.

(** ** Opening the log *)

(** What [symlink_metadata] says of the log path. *)
Inductive path_meta : Type :=
  | MetaSymlink
  | MetaOther
  | MetaNotFound
  | MetaError (e : str).

Definition symlink_refused : BackgroundError := BgIo (lit "log path is a symlink (refusing to follow it)").

(** [at_start] and [after_failure] are the two looks at the path, [opened] the
    answer of [open] with [O_NOFOLLOW]. *)
Definition open_append_no_symlink {F} (at_start : path_meta) (opened : result F str)
    (after_failure : path_meta) : result F BackgroundError :=
  match at_start with
  | MetaSymlink => Err symlink_refused
  | MetaError e => Err (BgIo e)
  | MetaOther | MetaNotFound =>
      match opened with
      | Ok f => Ok f
      | Err e => match after_failure with MetaSymlink => Err symlink_refused | _ => Err (BgIo e) end
      end
  end.

(** ** The copy loop *)

Section Streaming.
Context (append : bytes -> bytes -> result bytes str) (sync : bytes -> result unit str).

Definition EXIT_GRACE_MS : Z := 200.

(** The loop waits forever ([None]) when no event arrives and the exit status
    is not known. The result carries the exit code, the log and the events not
    consumed. *)
Fixpoint stream_loop (events : list (Z * option ChannelMsg)) (file : bytes) (exit_code : option Z)
    (saw_close_or_eof : bool) : option (result (option Z * bytes * list (Z * option ChannelMsg)) BackgroundError) :=
  let grace := bool_decide (is_Some exit_code) && negb saw_close_or_eof in
  match events with
  | [] => if grace then Some (Ok (exit_code, file, [])) else None
  | (delay, next) :: rest =>
      if grace && (EXIT_GRACE_MS <? delay) then Some (Ok (exit_code, file, events))
      else match next with
           | None => Some (Ok (exit_code, file, rest))
           | Some (Data data) | Some (ExtendedData _ data) =>
               match append file data with
               | Err e => Some (Err (BgIo e))
               | Ok file => stream_loop rest file exit_code saw_close_or_eof
               end
           | Some (ExitStatus s) => stream_loop rest file (Some (clamp_exit_status s)) saw_close_or_eof
           | Some (ExitSignal sg) => stream_loop rest file (Some (signal_exit_code sg)) saw_close_or_eof
           | Some Close | Some Eof =>
               if bool_decide (is_Some exit_code) then Some (Ok (exit_code, file, rest))
               else stream_loop rest file exit_code true
           | Some (Failure | OtherMsg) => stream_loop rest file exit_code saw_close_or_eof
           end
  end.

Definition stream_channel_inner (opened : result bytes BackgroundError) (events : list (Z * option ChannelMsg))
    (initial_stdout : bytes) : option (result (option Z * bytes * list (Z * option ChannelMsg)) BackgroundError) :=
  match opened with
  | Err e => Some (Err e)
  | Ok file =>
      match (if bool_decide (initial_stdout = []) then Ok file else append file initial_stdout) with
      | Err e => Some (Err (BgIo e))
      | Ok file =>
          match stream_loop events file None false with
          | None => None
          | Some (Err e) => Some (Err e)
          | Some (Ok (code, file, rest)) =>
              match sync file with
              | Err e => Some (Err (BgIo e))
              | Ok _ => Some (Ok (code, file, rest))
              end
          end
      end
  end.

(** ** Recording the end of the job *)

Definition apply_update (u : JobTerminalUpdate) (now : Z) (j : JobState) : JobState :=
  match u with
  | UpdExit code => mark_exit code now j
  | UpdStateLost reason => mark_state_lost reason now j
  end.

(** The updated store, and the state handed to the spooler. *)
Definition update_job_terminal (r : JobRegistry) (id : str) (u : JobTerminalUpdate) (now : Z)
    (st : gmap nat JobState) : gmap nat JobState * option JobState :=
  match registry_get r id with
  | None => (st, None)
  | Some ref => (alter (apply_update u now) ref st, apply_update u now <$> st !! ref)
  end.

Definition terminal_update (res : result (option Z * bytes * list (Z * option ChannelMsg)) BackgroundError) :
    JobTerminalUpdate :=
  match res with
  | Ok (Some exit_code, _, _) => UpdExit exit_code
  | Ok (None, _, _) => UpdStateLost (lit "background_channel_closed_without_exit_status")
  | Err e => UpdStateLost (lit "background_stream_error: " ++ truncate_state_reason (background_error_display e))
  end.

Definition stream_channel (r : JobRegistry) (id : str) (now : Z) (st : gmap nat JobState)
    (opened : result bytes BackgroundError) (events : list (Z * option ChannelMsg)) (initial_stdout : bytes) :
    option (result (option Z) BackgroundError * gmap nat JobState * option JobState) :=
  match stream_channel_inner opened events initial_stdout with
  | None => None
  | Some res =>
      let '(st, persisted) := update_job_terminal r id (terminal_update res) now st in
      Some (match res with Ok (code, _, _) => Ok code | Err e => Err e end, st, persisted)
  end.

(** ** Properties *)

(** All output of a list of events, in order of arrival, and the exit code they
    report last. *)
Definition output_of (events : list (Z * option ChannelMsg)) : bytes :=
  flat_map (fun '(_, m) => match m with Some (Data d) | Some (ExtendedData _ d) => d | _ => [] end) events.

Definition reported_exit (m : option ChannelMsg) : option Z :=
  match m with
  | Some (ExitStatus s) => Some (clamp_exit_status s)
  | Some (ExitSignal sg) => Some (signal_exit_code sg)
  | _ => None
  end.

Definition exit_of (init : option Z) (events : list (Z * option ChannelMsg)) : option Z :=
  foldl (fun acc '(_, m) => match reported_exit m with Some c => Some c | None => acc end) init events.

(** *** Where the stream ends *)

Definition closes (m : option ChannelMsg) : bool := match m with Some Close | Some Eof => true | _ => false end.
Definition closed_in (events : list (Z * option ChannelMsg)) : bool := existsb (fun e => closes e.2) events.

(** After [used] the status is known, neither Close nor Eof came, and the next
    event, if there is one, does not arrive within the grace period. *)
Definition grace_over (used rest : list (Z * option ChannelMsg)) : Prop :=
  is_Some (exit_of None used) /\ closed_in used = false /\ match rest with [] => True | (delay, _) :: _ => EXIT_GRACE_MS < delay end.

(** The event after [before] is the last: the channel's end, or Close or Eof
    once the status is known. *)
Definition stops_at (before : list (Z * option ChannelMsg)) (m : option ChannelMsg) : Prop :=
  m = None \/ (closes m = true /\ is_Some (exit_of None before)).

(** No event of [used], which follows [pre], is consumed too much. *)
Definition no_earlier_end (pre used rest : list (Z * option ChannelMsg)) : Prop :=
  forall before delay m after, used = before ++ (delay, m) :: after ->
    ~ grace_over (pre ++ before) ((delay, m) :: after ++ rest) /\ (stops_at (pre ++ before) m -> after = []).

Definition at_end (used rest : list (Z * option ChannelMsg)) : Prop :=
  grace_over used rest \/ exists before delay m, used = before ++ [(delay, m)] /\ stops_at before m.

(** The events are consumed up to the first end, and no further. *)
Definition stream_end (used rest : list (Z * option ChannelMsg)) : Prop := at_end used rest /\ no_earlier_end [] used rest.

Lemma output_of_app a b : output_of (a ++ b) = output_of a ++ output_of b.
Proof. apply flat_map_app. Qed.

Lemma exit_of_snoc pre delay m :
  exit_of None (pre ++ [(delay, m)]) = match reported_exit m with Some c => Some c | None => exit_of None pre end.
Proof. unfold exit_of. by rewrite foldl_app. Qed.

Lemma closed_in_snoc pre delay m : closed_in (pre ++ [(delay, m)]) = closed_in pre || closes m.
Proof. unfold closed_in. rewrite existsb_app. cbn. by rewrite orb_false_r. Qed.

Lemma grace_over_spec pre (rest : list (Z * option ChannelMsg)) :
  grace_over pre rest <-> bool_decide (is_Some (exit_of None pre)) && negb (closed_in pre) = true /\
    match rest with [] => True | (delay, _) :: _ => EXIT_GRACE_MS < delay end.
Proof. unfold grace_over. rewrite andb_true_iff, bool_decide_eq_true, negb_true_iff. tauto. Qed.

(** Consuming one more event that does not end the stream. *)
Lemma no_earlier_end_cons pre delay m used rest :
  ~ grace_over pre ((delay, m) :: used ++ rest) -> ~ stops_at pre m -> no_earlier_end (pre ++ [(delay, m)]) used rest ->
  no_earlier_end pre ((delay, m) :: used) rest.
Proof.
  intros Hg Hs H [|e before] d' m' after E.
  - injection E as <- <- <-. rewrite app_nil_r. tauto.
  - injection E as <- E. destruct (H before d' m' after E) as [H1 H2]. by rewrite <- app_assoc in H1, H2.
Qed.

Lemma no_earlier_end_one pre delay m rest : ~ grace_over pre ((delay, m) :: rest) -> no_earlier_end pre [(delay, m)] rest.
Proof.
  intros Hg [|e before] d' m' after E; [|by destruct before]. injection E as <- <- <-. rewrite app_nil_r. by split.
Qed.

Lemma no_earlier_end_nil pre rest : no_earlier_end pre [] rest.
Proof. intros before d m after E. by destruct before. Qed.

(** A write that succeeds appends. *)
Definition appends : Prop := forall file data file', append file data = Ok file' -> file' = file ++ data.

(** The loop after [pre] stops exactly at the end, with the status so far and
    the output of what it consumed. *)
Definition loop_outcome (pre events : list (Z * option ChannelMsg)) (file : bytes) (code' : option Z) (file' : bytes)
    (rest : list (Z * option ChannelMsg)) : Prop :=
  exists used, events = used ++ rest /\ code' = exit_of None (pre ++ used) /\ at_end (pre ++ used) rest /\
    no_earlier_end pre used rest /\ (appends -> file' = file ++ output_of used).

Lemma loop_outcome_here pre file rest : grace_over pre rest -> loop_outcome pre rest file (exit_of None pre) file rest.
Proof. intros H. exists []. rewrite !app_nil_r. split_and!; [done|done|by left|apply no_earlier_end_nil|done]. Qed.

Lemma loop_outcome_last pre delay m file rest :
  stops_at pre m -> reported_exit m = None -> output_of [(delay, m)] = [] -> ~ grace_over pre ((delay, m) :: rest) ->
  loop_outcome pre ((delay, m) :: rest) file (exit_of None pre) file rest.
Proof.
  intros Hs Hr Ho Hg. exists [(delay, m)]. rewrite exit_of_snoc, Hr, Ho, app_nil_r.
  split_and!; [done|done|right; by exists pre, delay, m|by apply no_earlier_end_one|done].
Qed.

Lemma loop_outcome_next pre delay m events file f code' file' rest :
  (forall l, ~ grace_over pre ((delay, m) :: l)) -> ~ stops_at pre m -> (appends -> f = file ++ output_of [(delay, m)]) ->
  loop_outcome (pre ++ [(delay, m)]) events f code' file' rest -> loop_outcome pre ((delay, m) :: events) file code' file' rest.
Proof.
  intros Hg Hs Hf (used & -> & Hc & He & Hn & Ho). exists ((delay, m) :: used). rewrite <- app_assoc in Hc, He.
  split_and!; [done..|by apply no_earlier_end_cons|]. intros Ha. rewrite (Ho Ha), (Hf Ha), <- app_assoc. by rewrite <- output_of_app.
Qed.

Lemma stream_loop_stops pre events file code' file' rest :
  stream_loop events file (exit_of None pre) (closed_in pre) = Some (Ok (code', file', rest)) ->
  loop_outcome pre events file code' file' rest.
Proof.
  revert pre file; induction events as [|[delay next] events IH]; intros pre file H; cbn [stream_loop] in H.
  - destruct (_ && _) eqn:Eg; simplify_eq. apply loop_outcome_here. by apply grace_over_spec.
  - destruct (_ && (_ <? _)) eqn:Eg.
    { apply andb_true_iff in Eg as [Eg Hd%Z.ltb_lt]. simplify_eq. apply loop_outcome_here. by apply grace_over_spec. }
    assert (Hg : forall l, ~ grace_over pre ((delay, next) :: l)).
    { intros l [Hx Hd]%grace_over_spec. rewrite Hx in Eg. cbn in Eg. bool_hyps. lia. }
    assert (Hgo : forall f c cl, stream_loop events f c cl = Some (Ok (code', file', rest)) -> ~ stops_at pre next ->
      c = match reported_exit next with Some c => Some c | None => exit_of None pre end -> cl = closed_in pre || closes next ->
      (appends -> f = file ++ output_of [(delay, next)]) -> loop_outcome pre ((delay, next) :: events) file code' file' rest).
    { intros f c cl Hl Hs -> -> Hf. rewrite <- (exit_of_snoc pre delay), <- (closed_in_snoc pre delay) in Hl.
      by apply (loop_outcome_next _ _ _ _ _ f), IH. }
    assert (Hnot : next <> None -> closes next = false -> ~ stops_at pre next) by (intros H1 H2 [?|[? _]]; congruence).
    assert (Hplain : output_of [(delay, next)] = [] -> appends -> file = file ++ output_of [(delay, next)]) by (intros -> _; by rewrite app_nil_r).
    destruct next as [[d|x d|s|sg| | | |]|]; [| | | | | | | |simplify_eq; apply loop_outcome_last; [by left|done|done|apply Hg]].
    1,2: destruct (append file d) as [f|] eqn:Ea; [|done]; eapply Hgo; [exact H|by apply Hnot|done|by rewrite orb_false_r|];
      intros Ha; rewrite (Ha _ _ _ Ea); unfold output_of; simpl; by rewrite app_nil_r.
    1,2,5,6: eapply Hgo; [exact H|by apply Hnot|done|by rewrite orb_false_r|by apply Hplain].
    all: case_bool_decide as Hx; [simplify_eq; apply loop_outcome_last; [by right|done|done|apply Hg]|].
    all: eapply Hgo; [exact H|intros [?|[_ ?]]; done|done|by rewrite orb_true_r|by apply Hplain].
Qed.

(** With a log that takes every write, the loop reaches every end. *)
Lemma stream_loop_reaches pre used rest file :
  (forall file data, append file data = Ok (file ++ data)) ->
  grace_over (pre ++ used) rest \/ (exists before delay m, used = before ++ [(delay, m)] /\ stops_at (pre ++ before) m) ->
  no_earlier_end pre used rest ->
  stream_loop (used ++ rest) file (exit_of None pre) (closed_in pre) = Some (Ok (exit_of None (pre ++ used), file ++ output_of used, rest)).
Proof.
  intros Ha. revert pre file. induction used as [|[delay next] used IH]; intros pre file He Hn.
  - rewrite !app_nil_r in *. destruct He as [He|(b & d & m & E & _)]; [|by destruct b]. apply grace_over_spec in He as [Hg Hd].
    destruct rest as [|[d m] rest]; cbn [app stream_loop]; rewrite Hg; [done|]. by rewrite (proj2 (Z.ltb_lt _ _) Hd).
  - destruct (Hn [] delay next used eq_refl) as [Hg Hs]. rewrite !app_nil_r in Hg, Hs. cbn [app stream_loop].
    assert (bool_decide (is_Some (exit_of None pre)) && negb (closed_in pre) && (EXIT_GRACE_MS <? delay) = false) as ->.
    { apply not_true_iff_false. intros [Hx Hd%Z.ltb_lt]%andb_true_iff. apply Hg, grace_over_spec. done. }
    assert (Hgo : forall f, ~ stops_at pre next -> f = file ++ output_of [(delay, next)] ->
      stream_loop (used ++ rest) f (match reported_exit next with Some c => Some c | None => exit_of None pre end) (closed_in pre || closes next) =
      Some (Ok (exit_of None (pre ++ (delay, next) :: used), file ++ output_of ((delay, next) :: used), rest))).
    { intros f Hs' ->. rewrite <- (exit_of_snoc pre delay), <- (closed_in_snoc pre delay), IH.
      - rewrite <- !app_assoc. by rewrite <- output_of_app.
      - rewrite <- app_assoc. destruct He as [He|(b & d & m & E & Hm)]; [by left|right]. destruct b as [|x b]; cbn in E.
        + injection E as <- <- ->. rewrite app_nil_r in Hm. done.
        + injection E as <- ->. exists b, d, m. by rewrite <- app_assoc.
      - intros b d m a E. destruct (Hn ((delay, next) :: b) d m a) as [N1 N2]; [by rewrite E|]. rewrite <- !app_assoc. by split. }
    assert (Hlast : stops_at pre next -> reported_exit next = None -> output_of [(delay, next)] = [] ->
      Some (Ok (exit_of None pre, file, used ++ rest)) =
      Some (Ok (E := BackgroundError) (exit_of None (pre ++ (delay, next) :: used), file ++ output_of ((delay, next) :: used), rest))).
    { intros Hs' Hr Ho. rewrite (Hs Hs'), exit_of_snoc, Hr, Ho, app_nil_r. done. }
    assert (Hnot : next <> None -> closes next = false -> ~ stops_at pre next) by (intros H1 H2 [?|[? _]]; congruence).
    destruct next as [[d|x d|st|sg| | | |]|]; [| | | | | | | |by apply Hlast; [left|..]].
    1,2: rewrite Ha, <- (orb_false_r (closed_in pre)); apply Hgo; [by apply Hnot|]; unfold output_of; simpl; by rewrite app_nil_r.
    1,2,5,6: rewrite <- (orb_false_r (closed_in pre)); apply Hgo; [by apply Hnot|by rewrite app_nil_r].
    all: case_bool_decide as Hx; [apply Hlast; [by right|done|done]|].
    all: rewrite <- (orb_true_r (closed_in pre)); apply Hgo; [intros [?|[_ ?]]; done|by rewrite app_nil_r].
Qed.

(** The loop stops at the latest when the channel ends. *)
Lemma stream_loop_ends events rest delay file code closed :
  is_Some (stream_loop (events ++ (delay, None) :: rest) file code closed).
Proof.
  revert file code closed; induction events as [|[d next] events IH]; intros file code closed; cbn [app stream_loop].
  - destruct (_ && _); eauto.
  - destruct (_ && (_ <? _)); [eauto|].
    destruct next as [[]|]; eauto; try (case_bool_decide; eauto); destruct (append _ _); eauto.
Qed.
End Streaming.

(** A stream that ends normally stopped exactly at its end. *)
Lemma stream_inner_end append sync opened events initial code log rest :
  stream_channel_inner append sync opened events initial = Some (Ok (code, log, rest)) ->
  exists before used, opened = Ok before /\ events = used ++ rest /\ stream_end used rest /\ code = exit_of None used /\
    sync log = Ok tt /\ (appends append -> log = before ++ initial ++ output_of used).
Proof.
  unfold stream_channel_inner. intros H. destruct opened as [before|]; [|done].
  destruct (if bool_decide (initial = []) then _ else _) as [f|] eqn:Ei; [|done].
  destruct (stream_loop append events f None false) as [[[[c l] r]|]|] eqn:El; [|done|done].
  destruct (sync l) as [[]|] eqn:Es; simplify_eq.
  apply (stream_loop_stops append []) in El as (used & -> & -> & He & Hn & Ho).
  exists before, used. split_and!; try done. intros Ha. rewrite (Ho Ha), app_assoc. f_equal.
  case_bool_decide as Hi; [simplify_eq; by rewrite app_nil_r|by apply Ha].
Qed.

(** And it does end there when the log takes every write. *)
Lemma stream_inner_reaches append sync before used rest initial :
  (forall file data, append file data = Ok (file ++ data)) -> (forall file, sync file = Ok tt) -> stream_end used rest ->
  stream_channel_inner append sync (Ok before) (used ++ rest) initial =
    Some (Ok (exit_of None used, before ++ initial ++ output_of used, rest)).
Proof.
  intros Ha Hs [He Hn]. unfold stream_channel_inner. rewrite Ha.
  assert ((if bool_decide (initial = []) then Ok before else Ok (before ++ initial)) = Ok (E := str) (before ++ initial)) as ->
    by (case_bool_decide as E; [by rewrite E, app_nil_r|done]).
  pose proof (stream_loop_reaches append [] used rest (before ++ initial) Ha He Hn) as H. cbn in H.
  change (exit_of None []) with (@None Z) in H. rewrite H, Hs. by rewrite <- app_assoc.
Qed.

(** The end is one place. *)
Lemma stream_end_unique used1 rest1 used2 rest2 :
  used1 ++ rest1 = used2 ++ rest2 -> stream_end used1 rest1 -> stream_end used2 rest2 -> used1 = used2 /\ rest1 = rest2.
Proof.
  assert (Hw : forall used1 rest1 more rest2, rest1 = more ++ rest2 -> stream_end used1 rest1 -> stream_end (used1 ++ more) rest2 -> more = []).
  { intros u1 r1 [|[d m] more] r2 -> [He _] [_ Hn]; [done|]. exfalso. destruct He as [Hg|(b & d' & m' & -> & Hs)].
    - by destruct (Hn u1 d m more eq_refl) as [Hn' _].
    - destruct (Hn b d' m' ((d, m) :: more)) as [_ Hn']; [by rewrite <- app_assoc|]. by specialize (Hn' Hs). }
  intros E H1 H2. apply app_eq_inv in E as [(more & -> & ->)|(more & -> & ->)].
  - assert (more = []) as -> by (by eapply (Hw used2)). by rewrite app_nil_r.
  - assert (more = []) as -> by (by eapply (Hw used1)). by rewrite app_nil_r.
Qed.

(** Every event comes within the grace period, and no output follows an event
    that ends the stream. *)
Definition orderly (events : list (Z * option ChannelMsg)) : Prop :=
  forall before delay m after, events = before ++ (delay, m) :: after ->
    delay <= EXIT_GRACE_MS /\ (stops_at before m -> output_of after = []).

Lemma orderly_output used rest : orderly (used ++ rest) -> stream_end used rest -> output_of (used ++ rest) = output_of used.
Proof.
  intros Hor [[(_ & _ & Hd)|(before & delay & m & -> & Hs)] _]; rewrite output_of_app.
  - destruct rest as [|[delay m] rest]; [by rewrite app_nil_r|]. destruct (Hor used delay m rest eq_refl) as [? _]. lia.
  - destruct (Hor before delay m rest) as [_ Hr]; [by rewrite <- app_assoc|]. by rewrite (Hr Hs), app_nil_r.
Qed.

(** C38. The log is faithful. If streaming ends normally, what it consumed ends
    at the first of: the channel's end; Close or Eof once the status is known;
    200 ms without an event once the status is known and neither came; the log
    holds what it held before, then the bytes handed over by the marker reader,
    then every output byte of the consumed events in the order of arrival and
    nothing else, and the exit code returned is the one reported last among
    them (none, if none was). So, when every event comes within 200 ms and no
    output follows an event that ends the stream, the log has all the output.
    And streaming does end whenever the channel ends. (Output that comes later
    than 200 ms after the status is lost.) *)
Theorem stream_log_faithful (append : bytes -> bytes -> result bytes str) (sync : bytes -> result unit str)
    (append_law : forall file data file', append file data = Ok file' -> file' = file ++ data)
    (opened : result bytes BackgroundError) (events : list (Z * option ChannelMsg)) (initial_stdout : bytes) :
  (forall code log rest,
     stream_channel_inner append sync opened events initial_stdout = Some (Ok (code, log, rest)) ->
     exists before used, opened = Ok before /\ events = used ++ rest /\ stream_end used rest /\
       log = before ++ initial_stdout ++ output_of used /\ code = exit_of None used /\
       sync log = Ok tt /\
       (orderly events -> log = before ++ initial_stdout ++ output_of events)) /\
  (forall pre delay post, events = pre ++ (delay, None) :: post ->
     is_Some (stream_channel_inner append sync opened events initial_stdout)).
Proof.
  split.
  - intros code log rest H. apply stream_inner_end in H as (before & used & -> & -> & He & Hc & Hs & Ho). specialize (Ho append_law).
    exists before, used. split_and!; try done. intros Hor. by rewrite (orderly_output _ _ Hor He).
  - intros pre delay post ->. unfold stream_channel_inner. destruct opened as [before|]; [|eauto].
    destruct (if bool_decide (initial_stdout = []) then _ else _) as [f|]; [|eauto].
    destruct (stream_loop_ends append pre post delay f None false) as [[[[c l] r]|] ->]; [|eauto].
    destruct (sync l); eauto.
Qed.

Lemma stream_log_faithful_witness :
  let append (f d : bytes) := Ok (E := str) (f ++ d) in
  let events := [(0, Some (Data [65])); (5, Some Eof); (7, Some (ExitStatus 300)); (10, Some (ExtendedData 1 [66])); (900, Some Close)] in
  exists before used, Ok (E := BackgroundError) [64] = Ok before /\ events = used ++ [] /\
    [64; 62; 65; 66] = before ++ [62] ++ output_of used /\ Some 255 = exit_of None used.
Proof.
  intros append events.
  destruct (stream_log_faithful append (fun _ => Ok tt) ltac:(intros f d f' [= <-]; reflexivity)
    (Ok [64]) events [62]) as [H _].
  destruct (H (Some 255) [64; 62; 65; 66] [] ltac:(vm_compute; reflexivity)) as (b & u & H1 & H2 & _ & H3 & H4 & _).
  by exists b, u.
Defined.

Lemma apply_update_wf u now j : job_wf (apply_update u now j).
Proof. destruct u as [c|r]; [exact (job_step_wf j (Exited c now))|exact (job_step_wf j (Lost r now))]. Qed.

(** However streaming ends, a registered job ends with it. Its state
    becomes terminal and well formed: completed exactly on exit code 0, failed
    exactly on another exit code, state lost when the channel closed without
    an exit status or an error occurred, with a reason of bounded length; this
    very state is what is handed to the spooler, and no other job changes. *)
Theorem stream_channel_terminates_job (append : bytes -> bytes -> result bytes str)
    (sync : bytes -> result unit str) (r : JobRegistry) (id : str) (now : Z) (st : gmap nat JobState)
    (opened : result bytes BackgroundError) (events : list (Z * option ChannelMsg)) (initial_stdout : bytes)
    (res : result (option Z) BackgroundError) (st' : gmap nat JobState) (persisted : option JobState)
    (ref : nat) (j : JobState)
    (Hrun : stream_channel append sync r id now st opened events initial_stdout = Some (res, st', persisted))
    (Hreg : registry_get r id = Some ref) (Hj : st !! ref = Some j) :
  exists j', st' !! ref = Some j' /\ persisted = Some j' /\ job_wf j' /\ is_terminal j' = true /\
    (status j' = Completed <-> res = Ok (Some 0)) /\
    (status j' = Failed <-> exists c, c <> 0 /\ res = Ok (Some c)) /\
    (status j' = StateLost <-> res = Ok None \/ exists e, res = Err e) /\
    (forall reason, state_reason j' = Some reason -> (length reason <= 200)%nat) /\
    (forall other, other <> ref -> st' !! other = st !! other).
Proof.
  unfold stream_channel in Hrun. destruct (stream_channel_inner _ _ _ _ _) as [inner|]; [|done].
  unfold update_job_terminal in Hrun. rewrite Hreg, Hj in Hrun. cbn in Hrun.
  injection Hrun as <- <- <-. exists (apply_update (terminal_update inner) now j).
  rewrite lookup_alter_eq, Hj. split_and!; [done|done|apply apply_update_wf| | | | | |].
  - destruct (terminal_update inner) as [c|s]; [exact (job_step_terminal j (Exited c now))|done].
  - destruct inner as [[[[c|] l] rs]|e]; simpl; try done. destruct (c =? 0) eqn:E; bool_hyps; naive_solver.
  - destruct inner as [[[[c|] l] rs]|e]; simpl; [|split; [done|intros (c & _ & ?); done]..].
    destruct (c =? 0) eqn:E; bool_hyps; naive_solver.
  - destruct inner as [[[[c|] l] rs]|e]; simpl; [|naive_solver..].
    destruct (c =? 0); split; try done; intros [?|[? ?]]; done.
  - intros reason H. destruct inner as [[[[c|] l] rs]|e];
      cbn [terminal_update apply_update mark_state_lost mark_exit state_reason] in H; simplify_eq.
    + vm_compute. lia.
    + rewrite length_app. unfold truncate_state_reason, STATE_REASON_LIMIT_CHARS. rewrite length_take.
      change (length (lit "background_stream_error: ")) with 25%nat. lia.
  - intros other Ho. by apply lookup_alter_ne.
Qed.

Lemma stream_channel_terminates_job_witness :
  let j := new_running {| n_job_id := lit "a"; n_pid := 7; n_log_path := lit "/l"; n_command := lit "ls"; n_connection_id := lit "c" |} 10 in
  let r := registry_insert (registry_new 100) (lit "a") 0%nat in
  let st0 : gmap nat JobState := <[0%nat := j]> ∅ in
  let st1 : gmap nat JobState := <[0%nat := mark_exit 3 20 j]> ∅ in
  exists j', st1 !! 0%nat = Some j' /\ job_wf j' /\ is_terminal j' = true.
Proof.
  intros j r st0 st1.
  destruct (stream_channel_terminates_job (fun f d => Ok (f ++ d)) (fun _ => Ok tt) r (lit "a") 20
    st0 (Ok []) [(0, Some (ExitStatus 3)); (0, None)] [] (Ok (Some 3)) st1
    (Some (mark_exit 3 20 j)) 0%nat j ltac:(vm_compute; reflexivity) ltac:(vm_compute; reflexivity)
    ltac:(vm_compute; reflexivity)) as (j' & H1 & _ & H2 & H3 & _).
  by exists j'.
Defined.

(** A symlink is never opened, also when it appears between the two looks. *)
Lemma open_append_no_symlink_safe {F} at_start (opened : result F str) after f :
  open_append_no_symlink at_start opened after = Ok f -> at_start <> MetaSymlink /\ opened = Ok f.
Proof. unfold open_append_no_symlink. destruct at_start, opened, after; intros; simplify_eq; done. Qed.
