(* ===== verification/Spooler.v ===== *)
(** * Local spool directory (src/background/spooler.rs)

    The directory that holds job logs and persisted job states. The file
    system is a state: the metadata of the spool directory and its entries by
    name. The kernel calls follow POSIX ([mkdir] fails on an existing path,
    [open] with [O_NOFOLLOW] fails on a symlink); the JSON encoding is an
    argument. *)
From Stdlib Require Import ZArith String.
From stdpp Require Import base list gmap fin_maps.
From S2P Require Import Prelude Errors Paths Job.

Inductive file_kind : Type := FkFile | FkDir | FkSymlink | FkOther.
#[global] Instance file_kind_eq_dec : EqDecision file_kind.
Proof. solve_decision. Defined.

Record dir_meta : Type := { d_kind : file_kind; d_uid : Z; d_mode : Z }.
Record file_entry : Type := { f_kind : file_kind; f_content : bytes; f_mtime : Z }.
Record spool_fs : Type := { fs_dir : option dir_meta; fs_files : gmap str file_entry }.

#[global] Instance file_entry_eq_dec : EqDecision file_entry.
Proof. solve_decision. Defined.

(** ** Names *)

(** [as_bytes] of a string without non-ASCII characters is the string itself;
    a byte of a non-ASCII character is never an ASCII letter, digit, dash or
    underscore, so checking the characters is checking the bytes. *)
Definition job_id_char (c : char) : bool := is_ascii_alnum c || (c =? 45) || (c =? 95).

Definition validate_job_id (job_id : str) : result unit BackgroundError :=
  if str_eqb job_id [] || (128 <? str_len job_id) then Err (InvalidJobId job_id)
  else if contains_char NUL job_id then Err (InvalidJobId job_id)
  else match components job_id with
       | [Normal _] =>
           if negb (forallb job_id_char job_id) then Err (InvalidJobId job_id) else Ok tt
       | _ => Err (InvalidJobId job_id)
       end.

Definition log_path_for (base_dir job_id : str) : result str BackgroundError :=
  let? _ := validate_job_id job_id in Ok (path_join base_dir (job_id ++ lit ".log")).

Definition state_path_for (base_dir job_id : str) : result str BackgroundError :=
  let? _ := validate_job_id job_id in Ok (path_join base_dir (job_id ++ lit ".state")).

Definition split_spool_file_name (name : str) : option (str * str) :=
  '(stem, ext) ← split_last_dot name;
  if str_eqb stem [] || str_eqb ext [] then None else Some (stem, ext).

Definition default_spool_dir (runtime_dir : option str) (temp_dir : str) (effective_uid : Z) : str :=
  match runtime_dir with
  | Some d =>
      if is_absolute d then path_join d (lit "ssh-mcp")
      else path_join (if is_absolute temp_dir then temp_dir else lit "/tmp") (lit "ssh-mcp-" ++ show_uint effective_uid)
  | None => path_join (if is_absolute temp_dir then temp_dir else lit "/tmp") (lit "ssh-mcp-" ++ show_uint effective_uid)
  end.

(** ** The directory *)

(** [mkdir] with mode 0700 by a process of effective user [euid] and the given
    umask. *)
Definition create_spool_dir (euid umask : Z) (fs : spool_fs) : spool_fs * bool :=
  match fs_dir fs with
  | None => ({| fs_dir := Some {| d_kind := FkDir; d_uid := euid; d_mode := Z.land 448 (Z.lnot umask) |};
               fs_files := fs_files fs |}, true)
  | Some _ => (fs, false)
  end.

Definition validate_spool_dir_meta (m : dir_meta) : result unit BackgroundError :=
  match d_kind m with
  | FkSymlink => Err (InvalidState (lit "spool directory is a symlink"))
  | FkDir => Ok tt
  | _ => Err (InvalidState (lit "spool path exists but is not a directory"))
  end.

Definition validate_spool_dir_owner (m : dir_meta) (expected_uid : Z) : result unit BackgroundError :=
  if negb (d_uid m =? expected_uid) then
    Err (InvalidState (lit "spool directory is not owned by the effective user"))
  else Ok tt.

(** [ensure_dir], for the effective user [euid]. 0o022 is 18, 0o777 is 511 and
    0o700 is 448. *)
Definition ensure_dir (euid umask : Z) (fs : spool_fs) : result spool_fs BackgroundError :=
  let '(fs, created) := create_spool_dir euid umask fs in
  match fs_dir fs with
  | None => Err (BgIo (lit "No such file or directory (os error 2)"))
  | Some m =>
      let? _ := validate_spool_dir_meta m in
      let? _ := validate_spool_dir_owner m euid in
      if negb created && negb (Z.land (d_mode m) 18 =? 0) then
        Err (InvalidState (lit "spool directory is group- or world-writable"))
      else if negb (Z.land (d_mode m) 511 =? 448) then
        Ok {| fs_dir := Some {| d_kind := d_kind m; d_uid := d_uid m; d_mode := 448 |}; fs_files := fs_files fs |}
      else Ok fs
  end.

(** ** Entries *)

Definition name_in (base_dir path : str) : option str :=
  if bool_decide (parent_components path = Some (components base_dir)) then file_name path else None.

Definition open_spool_write_no_symlink (now : Z) (name : str) (fs : spool_fs) :
    result spool_fs BackgroundError :=
  let put := {| fs_dir := fs_dir fs;
                fs_files := <[name := {| f_kind := FkFile; f_content := []; f_mtime := now |}]> (fs_files fs) |} in
  match fs_files fs !! name with
  | None => Ok put
  | Some e =>
      match f_kind e with
      | FkSymlink => Err (InvalidState (lit "spool metadata path is a symlink"))
      | FkDir => Err (BgIo (lit "Is a directory (os error 21)"))
      | FkOther => Ok fs
      | FkFile => Ok put
      end
  end.

Definition open_spool_read_no_symlink (name : str) (fs : spool_fs) : result (option bytes) BackgroundError :=
  match fs_files fs !! name with
  | None => Ok None
  | Some e =>
      match f_kind e with
      | FkSymlink => Err (InvalidState (lit "spool metadata path is a symlink"))
      | FkFile => Ok (Some (f_content e))
      | _ => Err (InvalidState (lit "spool metadata path is not a regular file"))
      end
  end.

(** Writing to a file just opened for writing; a device or a pipe swallows the
    bytes. *)
Definition write_file (now : Z) (name : str) (payload : bytes) (fs : spool_fs) : spool_fs := {|
  fs_dir := fs_dir fs;
  fs_files := alter (fun e => if bool_decide (f_kind e = FkFile)
                              then {| f_kind := FkFile; f_content := payload; f_mtime := now |} else e)
                name (fs_files fs)
|}.

(** ** Persisted job states *)

Section Persistence.
Context (to_json : PersistedJobState -> option bytes) (of_json : bytes -> option PersistedJobState).
Context (base_dir : str) (euid umask : Z).

Definition persist_job_state (now : Z) (j : JobState) (fs : spool_fs) : spool_fs * result unit BackgroundError :=
  match ensure_dir euid umask fs with
  | Err e => (fs, Err e)
  | Ok fs =>
      if bool_decide (parent_components (log_path j) <> Some (components base_dir)) then
        (fs, Err (InvalidState (lit "job log path is outside spool directory")))
      else match state_path_for base_dir (job_id j) with
           | Err e => (fs, Err e)
           | Ok path =>
               match to_json (to_persisted j) with
               | None => (fs, Err (InvalidState (lit "failed to serialize persisted job state")))
               | Some payload =>
                   let name := default [] (file_name path) in
                   match open_spool_write_no_symlink now name fs with
                   | Err e => (fs, Err e)
                   | Ok fs => (write_file now name payload fs, Ok tt)
                   end
               end
           end
  end.

Definition check_loaded (job_id : str) (payload : bytes) : result JobState BackgroundError :=
  let? persisted := ok_or (of_json payload) (InvalidState (lit "failed to parse persisted job state")) in
  let? job := rmap_err InvalidState (from_persisted persisted) in
  if negb (str_eqb (Job.job_id job) job_id) then
    Err (InvalidState (lit "persisted job id does not match requested job id"))
  else if bool_decide (parent_components (log_path job) <> Some (components base_dir)) then
    Err (InvalidState (lit "persisted log path is outside spool directory"))
  else Ok job.

Definition load_job_state (job_id : str) (fs : spool_fs) : spool_fs * result (option JobState) BackgroundError :=
  match ensure_dir euid umask fs with
  | Err e => (fs, Err e)
  | Ok fs =>
      (fs,
       let? path := state_path_for base_dir job_id in
       let? file := open_spool_read_no_symlink (default [] (file_name path)) fs in
       match file with
       | None => Ok None
       | Some payload => let? job := check_loaded job_id payload in Ok (Some job)
       end)
  end.

(** ** Cleanup *)

(** Whether an entry of the directory is an old spool file. *)
Definition old_spool_file (now max_age : Z) (name : str) (e : file_entry) : bool :=
  match split_spool_file_name name with
  | None => false
  | Some (id, ext) =>
      is_ok (validate_job_id id) &&
      (str_eqb ext (lit "log") || str_eqb ext (lit "exit") || str_eqb ext (lit "state")) &&
      bool_decide (f_kind e = FkFile) &&
      match duration_since now (f_mtime e) with
      | None => false
      | Some age => max_age <? age
      end
  end.

(** The loop over the directory; [removable] tells whether [unlink] succeeds. *)
Definition cleanup_entry (now max_age : Z) (removable : str -> bool)
    (acc : gmap str file_entry * Z) (entry : str * file_entry) : gmap str file_entry * Z :=
  let '(files, removed) := acc in
  let '(name, e) := entry in
  if old_spool_file now max_age name e && removable name then (delete name files, removed + 1) else acc.

Definition cleanup_old_logs (now max_age : Z) (removable : str -> bool) (fs : spool_fs) :
    spool_fs * result Z BackgroundError :=
  match ensure_dir euid umask fs with
  | Err e => (fs, Err e)
  | Ok fs =>
      let '(files, removed) := foldl (cleanup_entry now max_age removable) (fs_files fs, 0) (map_to_list (fs_files fs)) in
      ({| fs_dir := fs_dir fs; fs_files := files |}, Ok removed)
  end.

End Persistence.

(** ** Properties of names *)

Lemma job_id_char_plain c : job_id_char c = true -> c <> SLASH /\ c <> NUL /\ c <> 46 /\ c < 128 /\ 0 <= c.
Proof.
  unfold job_id_char, is_ascii_alnum, is_ascii_alpha, is_ascii_lower, is_ascii_upper, is_ascii_digit, SLASH, NUL.
  rewrite !orb_true_iff, !andb_true_iff, !Z.leb_le, !Z.eqb_eq. lia.
Qed.

Lemma job_id_plain id : id <> [] -> forallb job_id_char id = true -> plain_name id /\ 46 ∉ id /\ NUL ∉ id.
Proof.
  intros Hne Hall. rewrite forallb_forall in Hall.
  assert (Hc : forall c, c ∈ id -> c <> SLASH /\ c <> NUL /\ c <> 46 /\ c < 128 /\ 0 <= c).
  { intros c Hc. apply job_id_char_plain, Hall. by apply list_elem_of_In. }
  assert (H46 : 46 ∉ id) by (intros (_ & _ & ? & _)%Hc; done).
  split_and!; [|done|by intros (_ & ? & _)%Hc].
  split_and!; [done|intros -> ..|by intros (? & _)%Hc]; apply H46; by left.
Qed.

Lemma components_plain n : plain_name n -> components n = [Normal n].
Proof.
  intros Hn. pose proof Hn as (H1 & H2 & _ & H4). unfold components.
  assert (is_absolute n = false) as ->.
  { apply not_true_iff_false. intros [r ->]%starts_with_spec. apply H4. by left. }
  rewrite split_char_id by done. unfold str_eqb. rewrite bool_decide_eq_false_2 by done.
  by rewrite body_component_plain.
Qed.

Lemma validate_job_id_ok id :
  validate_job_id id = Ok tt <-> id <> [] /\ str_len id <= 128 /\ forallb job_id_char id = true.
Proof.
  unfold validate_job_id, str_eqb. case_bool_decide as E1; [naive_solver|]. cbn [orb].
  destruct (128 <? str_len id) eqn:E2; bool_hyps; [split; [done|]; lia|].
  destruct (forallb job_id_char id) eqn:E3.
  - destruct (job_id_plain id E1 E3) as (Hp & _ & Hn).
    apply contains_char_false in Hn as ->. rewrite components_plain by done. naive_solver.
  - split; [|naive_solver]. destruct (contains_char NUL id); [done|].
    by destruct (components id) as [|[] []].
Qed.

Lemma validate_job_id_err id : is_ok (validate_job_id id) = false -> validate_job_id id = Err (InvalidJobId id).
Proof. unfold validate_job_id. by repeat case_match. Qed.

Lemma plain_suffix id ext :
  forallb job_id_char id = true -> id <> [] -> ext <> [] -> SLASH ∉ ext -> 46 ∉ ext ->
  plain_name (id ++ 46 :: ext) /\ split_spool_file_name (id ++ 46 :: ext) = Some (id, ext).
Proof.
  intros H1 H2 H3 H4 H5. destruct (job_id_plain id H2 H1) as ((_ & _ & _ & Hs) & _).
  assert (Hlen : (2 < length (id ++ 46%Z :: ext))%nat).
  { rewrite length_app. destruct id, ext; simpl; try done; lia. }
  split.
  - split_and!; try (intros E; rewrite E in Hlen; simpl in Hlen; lia).
    rewrite elem_of_app, elem_of_cons. by intros [?|[?|?]].
  - unfold split_spool_file_name. rewrite split_last_dot_app by done. simpl. unfold str_eqb.
    by rewrite !bool_decide_eq_false_2.
Qed.

Lemma log_name_plain id : validate_job_id id = Ok tt ->
  plain_name (id ++ lit ".log") /\ plain_name (id ++ lit ".state").
Proof.
  intros (H1 & _ & H3)%validate_job_id_ok.
  split; apply (plain_suffix id); try done; by apply contains_char_false.
Qed.

(** A job id cannot escape the spool directory. An id is accepted exactly
    when it has 1 to 128 bytes, all ASCII letters, digits, dashes or
    underscores; its log and state paths are then single files directly in the
    spool directory, different from each other, recognised by the cleanup as
    that job's files, and different for different ids. *)
Theorem job_id_paths_confined (base_dir id : str) (Hbase : is_absolute base_dir = true) :
  (validate_job_id id = Ok tt <-> id <> [] /\ str_len id <= 128 /\ forallb job_id_char id = true) /\
  (forall p, log_path_for base_dir id = Ok p ->
     components p = components base_dir ++ [Normal (id ++ lit ".log")] /\
     parent_components p = Some (components base_dir) /\
     split_spool_file_name (id ++ lit ".log") = Some (id, lit "log") /\
     (forall q, state_path_for base_dir id = Ok q -> components q <> components p) /\
     (forall id' p', log_path_for base_dir id' = Ok p' -> components p' = components p -> id' = id)) /\
  (is_ok (validate_job_id id) = false -> log_path_for base_dir id = Err (InvalidJobId id)).
Proof.
  assert (Hlog : forall i p, log_path_for base_dir i = Ok p ->
    validate_job_id i = Ok tt /\ components p = components base_dir ++ [Normal (i ++ lit ".log")]).
  { intros i p. unfold log_path_for. intros H. res_inv. split; [done|].
    apply components_join_plain; [done|]. by apply log_name_plain. }
  split_and!; [apply validate_job_id_ok| |].
  - intros p Hp. destruct (Hlog id p Hp) as [Hv Hc]. split_and!.
    + done.
    + unfold parent_components. rewrite Hc, rev_app_distr. simpl. by rewrite rev_involutive.
    + apply validate_job_id_ok in Hv as (H1 & _ & H3).
      apply (plain_suffix id); try done; by apply contains_char_false.
    + intros q. unfold state_path_for. rewrite Hv. cbn [rbind]. intros [= <-].
      rewrite components_join_plain by (done || by apply log_name_plain). rewrite Hc.
      intros E. apply app_inv_head in E. injection E as E. apply app_inv_head in E. done.
    + intros id' p' Hp' E. destruct (Hlog id' p' Hp') as [_ Hc']. rewrite Hc, Hc' in E.
      apply app_inv_head in E. injection E as E. by apply app_inv_tail in E.
  - intros H. unfold log_path_for. by rewrite (validate_job_id_err id H).
Qed.

Lemma job_id_paths_confined_witness :
  components (lit "/run/ssh-mcp/17-3.log") = components (lit "/run/ssh-mcp") ++ [Normal (lit "17-3.log")].
Proof.
  exact (proj1 (proj1 (proj2 (job_id_paths_confined (lit "/run/ssh-mcp") (lit "17-3") eq_refl))
    (lit "/run/ssh-mcp/17-3.log") ltac:(vm_compute; reflexivity))).
Defined.

(** ** Properties of the directory *)

(** A directory only its owner can use. *)
Definition private_dir (euid : Z) (fs : spool_fs) : Prop :=
  exists m, fs_dir fs = Some m /\ d_kind m = FkDir /\ d_uid m = euid /\ Z.land (d_mode m) 511 = 448.

Lemma private_mode_not_writable mode : Z.land mode 511 = 448 -> Z.land mode 18 = 0.
Proof.
  intros H. change 18 with (Z.land 511 18). by rewrite Z.land_assoc, H.
Qed.

Lemma ensure_dir_ok euid umask fs fs' :
  ensure_dir euid umask fs = Ok fs' ->
  private_dir euid fs' /\ fs_files fs' = fs_files fs /\
  (forall m, fs_dir fs = Some m -> d_kind m = FkDir /\ d_uid m = euid /\ Z.land (d_mode m) 18 = 0).
Proof.
  unfold ensure_dir, create_spool_dir, private_dir, validate_spool_dir_meta, validate_spool_dir_owner.
  destruct (fs_dir fs) as [m|] eqn:E; cbn [fs_dir d_kind d_uid d_mode fs_files negb andb]; intros H.
  - rewrite E in H. destruct (d_kind m) eqn:K; cbn [rbind] in H; try done.
    destruct (d_uid m =? euid) eqn:U; cbn [rbind negb] in H; [|done].
    destruct (Z.land (d_mode m) 18 =? 0) eqn:W; cbn [negb andb] in H; [|done]. bool_hyps.
    destruct (Z.land (d_mode m) 511 =? 448) eqn:P; bool_hyps; simplify_eq/=; naive_solver.
  - rewrite Z.eqb_refl in H. cbn [rbind negb] in H.
    destruct (Z.land (Z.land 448 (Z.lnot umask)) 511 =? 448) eqn:P; bool_hyps; simplify_eq/=; naive_solver.
Qed.

Lemma ensure_dir_private euid umask fs : private_dir euid fs -> ensure_dir euid umask fs = Ok fs.
Proof.
  intros (m & Hm & Hk & Hu & Hp). unfold ensure_dir, create_spool_dir, validate_spool_dir_meta, validate_spool_dir_owner.
  rewrite Hm, Hm, Hk, Hu, Z.eqb_refl, (private_mode_not_writable _ Hp), Hp. done.
Qed.

(** C37. Job states survive a restart, privately. With an encoder and decoder
    that are inverse of each other, persisting a job in the spool directory and
    loading it by its id gives the job back, with its times cut to whole
    milliseconds; other entries are untouched; and both operations succeed
    only on a directory that is really a directory, owned by the effective user
    and, if it existed, not writable by others; afterwards its mode is 0700. *)
Theorem persist_load_roundtrip (to_json : PersistedJobState -> option bytes)
    (of_json : bytes -> option PersistedJobState)
    (json_law : forall p b, to_json p = Some b -> of_json b = Some p)
    (base_dir : str) (euid umask now : Z) (j : JobState) (fs fs' : spool_fs)
    (Hbase : is_absolute base_dir = true)
    (Hfile : forall e, fs_files fs !! (job_id j ++ lit ".state") = Some e -> f_kind e <> FkOther)
    (H : persist_job_state to_json base_dir euid umask now j fs = (fs', Ok tt)) :
  load_job_state of_json base_dir euid umask (job_id j) fs' = (fs', Ok (Some (round_to_ms j))) /\
  private_dir euid fs' /\
  (forall m, fs_dir fs = Some m -> d_kind m = FkDir /\ d_uid m = euid /\ Z.land (d_mode m) 18 = 0) /\
  (forall name, name <> job_id j ++ lit ".state" -> fs_files fs' !! name = fs_files fs !! name).
Proof.
  unfold persist_job_state in H. destruct (ensure_dir euid umask fs) as [fs1|] eqn:E1; [|done].
  apply ensure_dir_ok in E1 as ((m & Hm & Hk & Hu & Hp) & Hf & Hold).
  case_bool_decide as Hpar; [done|].
  assert (Hst : forall p, state_path_for base_dir (job_id j) = Ok p -> validate_job_id (job_id j) = Ok tt /\
     file_name p = Some (job_id j ++ lit ".state")).
  { intros p. unfold state_path_for. intros Hs. res_inv. split; [done|]. unfold file_name.
    rewrite components_join_plain by (done || by apply log_name_plain). by rewrite rev_app_distr. }
  destruct (state_path_for base_dir (job_id j)) as [path|] eqn:Ep; [|done].
  destruct (Hst path eq_refl) as [Hv Hn].
  destruct (to_json (to_persisted j)) as [payload|] eqn:Ej; [|done]. rewrite Hn in H. cbn [from_option id] in H.
  unfold open_spool_write_no_symlink in H. rewrite Hf in H.
  set (name := job_id j ++ lit ".state") in *.
  assert (Hfs : fs' = write_file now name payload {| fs_dir := fs_dir fs1;
     fs_files := <[name := {| f_kind := FkFile; f_content := []; f_mtime := now |}]> (fs_files fs) |}).
  { destruct (fs_files fs !! name) as [e|] eqn:Ee; [|by simplify_eq].
    destruct (f_kind e) eqn:Ek; simplify_eq; [done|]. by destruct (Hfile e eq_refl). }
  assert (Hlook : fs_files fs' !! name = Some {| f_kind := FkFile; f_content := payload; f_mtime := now |}).
  { rewrite Hfs. unfold write_file. cbn [fs_files]. by rewrite lookup_alter_eq, lookup_insert_eq. }
  assert (Hpriv : private_dir euid fs').
  { exists m. rewrite Hfs. done. }
  split_and!; [|done|done|].
  - unfold load_job_state. rewrite ensure_dir_private, Ep by done. cbn [rbind]. rewrite Hn. cbn [from_option id].
    unfold open_spool_read_no_symlink. rewrite Hlook. cbn [f_kind f_content rbind].
    unfold check_loaded. rewrite (json_law _ _ Ej). cbn [ok_or rbind].
    destruct (persisted_roundtrip_job j) as [-> Hid]. cbn [rmap_err rbind].
    rewrite Hid, str_eqb_refl. cbn [negb]. rewrite bool_decide_eq_false_2 by (intros F; by apply F). done.
  - intros n Hne. rewrite Hfs. unfold write_file. cbn [fs_files].
    by rewrite lookup_alter_ne, lookup_insert_ne.
Qed.

Lemma persist_load_roundtrip_witness :
  let j := new_running {| n_job_id := lit "a-1"; n_pid := 7; n_log_path := lit "/s/a-1.log";
             n_command := lit "ls"; n_connection_id := lit "c" |} 1500000 in
  let to_json (p : PersistedJobState) := if bool_decide (p = to_persisted j) then Some [123; 125] else None in
  let of_json (b : bytes) := if bool_decide (b = [123; 125]) then Some (to_persisted j) else None in
  let res := persist_job_state to_json (lit "/s") 1000 18 5 j {| fs_dir := None; fs_files := ∅ |} in
  load_job_state of_json (lit "/s") 1000 18 (lit "a-1") (fst res) = (fst res, Ok (Some (round_to_ms j))).
Proof.
  intros j to_json of_json res.
  apply (persist_load_roundtrip to_json of_json) with (now := 5) (j := j) (fs := {| fs_dir := None; fs_files := ∅ |}).
  - intros p b. unfold to_json, of_json. case_bool_decide; [|done]. intros [= <-].
    rewrite bool_decide_eq_true_2 by done. congruence.
  - reflexivity.
  - intros e He. exfalso. exact (lookup_empty_Some (M := gmap str) _ _ He).
  - vm_compute. reflexivity.
Defined.

(** A loaded job is the requested one and logs inside the spool directory,
    whatever the file contains. *)
Lemma load_job_state_checked of_json base_dir euid umask id fs fs' j :
  load_job_state of_json base_dir euid umask id fs = (fs', Ok (Some j)) ->
  job_id j = id /\ parent_components (log_path j) = Some (components base_dir) /\ validate_job_id id = Ok tt.
Proof.
  unfold load_job_state. destruct (ensure_dir euid umask fs) as [fs1|]; [|done]. intros H. simplify_eq/=.
  unfold state_path_for in H0. destruct (validate_job_id id) as [[]|] eqn:V; cbn [rbind] in H0; [|done].
  destruct (open_spool_read_no_symlink _ _) as [[payload|]|]; cbn [rbind] in H0; [|simplify_eq..].
  destruct (check_loaded of_json base_dir id payload) as [j'|] eqn:C; cbn [rbind] in H0; simplify_eq.
  unfold check_loaded in C. res_inv. bool_hyps. apply str_eqb_spec in Heqb.
  split_and!; [done|by apply dec_stable|done].
Qed.

Lemma cleanup_fold now max_age removable l (files : gmap str file_entry) n :
  NoDup (fst <$> l) -> (forall name e, (name, e) ∈ l -> files !! name = Some e) ->
  let res := foldl (cleanup_entry now max_age removable) (files, n) l in
  (forall name, res.1 !! name =
     match files !! name with
     | Some e => if bool_decide ((name, e) ∈ l) && old_spool_file now max_age name e && removable name
                 then None else Some e
     | None => None
     end) /\
  res.2 + Z.of_nat (size res.1) = n + Z.of_nat (size files).
Proof.
  revert files n; induction l as [|[k e] l IH]; intros files n Hnd Hin; cbn [foldl].
  { split; [|done]. intros name. cbn [fst]. destruct (files !! name); [|done].
    by rewrite bool_decide_eq_false_2 by (by intros ?%elem_of_nil). }
  cbn [fmap list_fmap fst] in Hnd. apply NoDup_cons in Hnd as [Hk Hnd].
  assert (Hke : files !! k = Some e) by (apply Hin; by left).
  assert (Hkl : forall x, (k, x) ∉ l) by (intros x Hx; apply Hk; by apply (list_elem_of_fmap_2 fst _ (k, x))).
  assert (Hstep : cleanup_entry now max_age removable (files, n) (k, e) =
    if old_spool_file now max_age k e && removable k then (delete k files, n + 1) else (files, n)) by done.
  rewrite Hstep. destruct (old_spool_file now max_age k e && removable k) eqn:C.
  - destruct (IH (delete k files) (n + 1) Hnd) as [H1 H2].
    { intros name e' H. rewrite lookup_delete_ne; [apply Hin; by right|]. intros <-. by apply (Hkl e'). }
    split.
    + intros name. rewrite H1. destruct (decide (name = k)) as [->|Hne].
      * rewrite lookup_delete_eq, Hke, bool_decide_eq_true_2 by (by left). simpl. by rewrite C.
      * rewrite lookup_delete_ne by done. destruct (files !! name) as [e'|]; [|done].
        rewrite (bool_decide_ext ((name, e') ∈ (k, e) :: l) ((name, e') ∈ l)); [done|].
        rewrite elem_of_cons. naive_solver.
    + assert (size (delete k files) = pred (size files)) by (by apply map_size_delete_Some; eexists).
      assert (size files <> O) by (intros Hs; apply map_size_empty_iff in Hs; subst; by apply lookup_empty_Some in Hke).
      lia.
  - destruct (IH files n Hnd) as [H1 H2]; [intros; apply Hin; by right|]. split; [|done].
    intros name. rewrite H1. destruct (files !! name) as [e'|] eqn:E; [|done].
    destruct (decide (name = k)) as [->|Hne].
    + simplify_eq. rewrite <- !andb_assoc, C, !andb_false_r. done.
    + rewrite (bool_decide_ext ((name, e') ∈ (k, e) :: l) ((name, e') ∈ l)); [done|].
      rewrite elem_of_cons. naive_solver.
Qed.

(** Cleanup deletes only its own old files. After a successful cleanup
    the directory holds exactly the entries it held, less those that are
    regular files named [<valid job id>.log], [.exit] or [.state], last
    modified longer ago than the limit, and that could be unlinked; the number
    returned is the number deleted. Symlinks, directories, foreign names,
    recent files and files dated in the future all stay. *)
Theorem cleanup_old_logs_exact (euid umask now max_age : Z) (removable : str -> bool)
    (fs fs' : spool_fs) (removed : Z)
    (H : cleanup_old_logs euid umask now max_age removable fs = (fs', Ok removed)) :
  fs_files fs' = filter (fun '(name, e) => old_spool_file now max_age name e && removable name = false) (fs_files fs) /\
  removed = Z.of_nat (size (fs_files fs)) - Z.of_nat (size (fs_files fs')) /\
  (forall name e, fs_files fs !! name = Some e -> fs_files fs' !! name = None ->
     f_kind e = FkFile /\ max_age < now - f_mtime e /\
     exists id ext, split_spool_file_name name = Some (id, ext) /\ validate_job_id id = Ok tt).
Proof.
  unfold cleanup_old_logs in H. destruct (ensure_dir euid umask fs) as [fs1|] eqn:E; [|done].
  apply ensure_dir_ok in E as (_ & Hf & _). rewrite Hf in H.
  destruct (cleanup_fold now max_age removable (map_to_list (fs_files fs)) (fs_files fs) 0) as [H1 H2];
    [apply NoDup_fst_map_to_list|by intros name e ?%elem_of_map_to_list|].
  destruct (foldl _ _ _) as [files r]. simplify_eq/=.
  assert (Hl : forall name, files !! name =
    match fs_files fs !! name with
    | Some e => if old_spool_file now max_age name e && removable name then None else Some e
    | None => None
    end).
  { intros name. rewrite H1. destruct (fs_files fs !! name) as [e|] eqn:E; [|done].
    by rewrite bool_decide_eq_true_2 by (by apply elem_of_map_to_list). }
  split_and!; [|lia|].
  - apply map_eq. intros name. rewrite Hl. symmetry. destruct (fs_files fs !! name) as [e|] eqn:E.
    + destruct (old_spool_file now max_age name e && removable name) eqn:C.
      * apply map_lookup_filter_None. right. intros e' ?. simplify_eq. by rewrite C.
      * by apply map_lookup_filter_Some.
    + apply map_lookup_filter_None. by left.
  - intros name e He Hn. rewrite Hl, He in Hn.
    destruct (old_spool_file now max_age name e && removable name) eqn:C; [|done].
    apply andb_true_iff in C as [C _]. unfold old_spool_file in C.
    destruct (split_spool_file_name name) as [[id ext]|]; [|done]. bool_hyps.
    unfold duration_since in *. destruct (f_mtime e <=? now) eqn:T; [|done]. bool_hyps.
    split_and!; [done|lia|]. exists id, ext. split; [done|].
    destruct (validate_job_id id) as [[]|]; done.
Qed.

Lemma cleanup_old_logs_exact_witness :
  let e := {| f_kind := FkFile; f_content := []; f_mtime := 1 |} in
  let fs := {| fs_dir := Some {| d_kind := FkDir; d_uid := 7; d_mode := 448 |}; fs_files := <[lit "j-1.log" := e]> ∅ |} in
  let fs' := {| fs_dir := fs_dir fs; fs_files := ∅ |} in
  1 = Z.of_nat (size (fs_files fs)) - Z.of_nat (size (fs_files fs')) /\ f_kind e = FkFile.
Proof.
  intros e fs fs'.
  destruct (cleanup_old_logs_exact 7 18 1000 10 (fun _ => true) fs fs' 1 ltac:(vm_compute; reflexivity)) as (_ & H1 & H2).
  split; [exact H1|]. exact (proj1 (H2 (lit "j-1.log") e ltac:(vm_compute; reflexivity) ltac:(vm_compute; reflexivity))).
Defined.
