(* ===== verification/FileEdit.v ===== *)
(** * Remote file edits (src/server/handlers/file_edit_common.rs)

    Reading a remote text file, and the commit of one file under a lock with
    an expected content hash. The two POSIX shell scripts in the source are
    functions on the remote file system: their commands ([mkdir], [ln], [mv],
    [rm], [cat], [test]) do what POSIX says, and whatever else happens on the
    remote host in between is an argument. SHA-256 is an argument. *)
From Stdlib Require Import ZArith String.
From stdpp Require Import base list gmap fin_maps.
From S2P Require Import Prelude Utf8 Errors Validate.

Inductive FileEditPrivilege : Type := User | Sudo.
#[global] Instance FileEditPrivilege_eq_dec : EqDecision FileEditPrivilege.
Proof. solve_decision. Defined.

Record FileEditError : Type := { fe_kind : str; fe_message : str }.
#[global] Instance FileEditError_eq_dec : EqDecision FileEditError.
Proof. solve_decision. Defined.

Definition fe_remote (kind message : str) : FileEditError := {| fe_kind := kind; fe_message := message |}.
Definition fe_conflict : FileEditError :=
  fe_remote (lit "conflict") (lit "file changed while patch was being applied; retry").
Definition fe_lock_busy : FileEditError :=
  fe_remote (lit "lock_busy") (lit "path is temporarily locked by another apply_patch call").

Definition tool_name (p : FileEditPrivilege) : str :=
  match p with User => lit "apply_patch" | Sudo => lit "sudo_apply_patch" end.

Definition permission_error (p : FileEditPrivilege) (op : str) : FileEditError :=
  fe_remote (lit "permission_denied")
    (lit "current remote identity cannot " ++ op ++
     match p with
     | User => lit "; apply_patch does not elevate privileges; use sudo_apply_patch only when explicitly authorized"
     | Sudo => lit " while running sudo_apply_patch"
     end).

Inductive RemoteTextFileState : Type :=
  | Missing
  | Existing (content sha256 : str).

Inductive FileExpectedState : Type :=
  | ExpMissing
  | ExpSha256 (value : str).

Inductive FileCommitAction : Type :=
  | Write (content : str)
  | DeleteFile.

Record FileCommitRequest : Type := {
  q_remote_path : str;
  q_action : FileCommitAction;
  q_expected : FileExpectedState;
  q_privilege : FileEditPrivilege
}.

(** What a remote script reports. *)
Record RawOut : Type := { out_stderr : str; out_exit : option Z }.

Definition remote_error_with_stderr (kind message stderr : str) : FileEditError :=
  let details := join [NL]
    (List.filter (fun line => negb (contains FILE_EDIT_ERROR_MARKER line) &&
                              negb (contains FILE_EDIT_CONFLICT_MARKER line)) (str_lines stderr)) in
  fe_remote kind
    match sanitize_file_edit_stderr_snippet details with
    | Some snippet => message ++ lit "; stderr=" ++ snippet
    | None => message
    end.

Definition remote_failure_message (operation : str) (exit_code : option Z) (stderr : str) : str :=
  (lit "failed to " ++ operation ++ lit ": remote command " ++
   match exit_code with
   | Some code => lit "exited with code " ++ show_uint code
   | None => lit "did not report an exit status"
   end) ++
  match sanitize_file_edit_stderr_snippet stderr with
  | Some snippet => lit "; stderr=" ++ snippet
  | None => []
  end.

(** ** The remote file system *)

Inductive rnode : Type :=
  | RFile (content : bytes)
  | RDir
  | ROther.
#[global] Instance rnode_eq_dec : EqDecision rnode.
Proof. solve_decision. Defined.

(** Paths are taken after symbolic links are resolved. *)
Notation nodes := (gmap str rnode) (only parsing).

Definition marker_out (name : str) : RawOut :=
  {| out_stderr := FILE_EDIT_ERROR_MARKER ++ name ++ [NL]; out_exit := Some 1 |}.
Definition conflict_out : RawOut :=
  {| out_stderr := FILE_EDIT_CONFLICT_MARKER ++ [NL]; out_exit := Some 3 |}.
Definition ok_out : RawOut := {| out_stderr := []; out_exit := Some 0 |}.

(** The read script: the bytes it prints and its report. *)
Definition read_script (fs : nodes) (readable : bool) (p : str) (max : Z) : bytes * RawOut :=
  match fs !! p with
  | None => ([], marker_out (lit "not_found"))
  | Some (RFile c) =>
      if negb readable then ([], marker_out (lit "permission_denied"))
      else if max <? Z.of_nat (length c) then ([], marker_out (lit "too_large"))
      else (take (Z.to_nat (max + 1)) c, ok_out)
  | Some _ => ([], marker_out (lit "not_regular_file"))
  end.

Lemma marker_not_ok name : marker_out name <> ok_out.
Proof. by intros [=]. Qed.

Section FileEdit.
Context (sha256_hex : bytes -> str).

Definition local_text_sha256_hex (content : str) : str := sha256_hex (utf8_encode content).

(** The local side effects of one operation: each may fail with a message. *)
Record local_io : Type := {
  io_create : result unit str;
  io_write : result unit str;
  io_flush : result unit str;
  io_reopen : result unit str
}.
Definition local_io_ok : local_io := {| io_create := Ok tt; io_write := Ok tt; io_flush := Ok tt; io_reopen := Ok tt |}.

Definition limit_message (what : str) : str :=
  what ++ lit " exceeds apply_patch size limit (" ++ show_uint FILE_EDIT_HARD_MAX_BYTES ++ lit " bytes)".

Definition load_remote_text_file_state (privilege : FileEditPrivilege) (connected : result unit SshMcpError)
    (io : local_io) (exec : result (bytes * RawOut) SshMcpError) : result RemoteTextFileState FileEditError :=
  let local_err m e := fe_remote (lit "local_io") (m ++ e) in
  let? _ := rmap_err (fun e => fe_remote (lit "connection_failed") (error_display e)) connected in
  let? _ := rmap_err (local_err (lit "failed to create local snapshot file: ")) (io_create io) in
  let? _ := rmap_err (local_err (lit "failed to flush local snapshot file: ")) (io_flush io) in
  let? '(captured, out) :=
    rmap_err (fun e => fe_remote (lit "remote_read_failed") (lit "failed to read remote file: " ++ error_display e)) exec in
  match parse_file_edit_error_marker (out_stderr out) with
  | Some marker =>
      if str_eqb marker (lit "not_found") then Ok Missing
      else if str_eqb marker (lit "not_regular_file") then
        Err (fe_remote (lit "not_regular_file") (lit "remote path is not a regular file"))
      else if str_eqb marker (lit "permission_denied") then
        Err (permission_error privilege (lit "read the remote file"))
      else if str_eqb marker (lit "too_large") then
        Err (fe_remote (lit "limit_exceeded") (limit_message (lit "remote file")))
      else Err (fe_remote (lit "remote_read_failed") (lit "failed to read remote file"))
  | None =>
      if bool_decide (out_exit out <> Some 0) then
        Err (fe_remote (lit "remote_read_failed")
               (remote_failure_message (lit "read remote file") (out_exit out) (out_stderr out)))
      else
        let? _ := rmap_err (local_err (lit "failed to load local snapshot file: ")) (io_reopen io) in
        if FILE_EDIT_HARD_MAX_BYTES <? Z.of_nat (length captured) then
          Err (fe_remote (lit "limit_exceeded") (limit_message (lit "remote file")))
        else
          let? content := rmap_err (fun e => fe_remote (lit "invalid_utf8")
              (lit "remote file is not valid UTF-8 text (" ++ utf8_error_display e ++ lit ")")) (from_utf8 captured) in
          Ok (Existing content (local_text_sha256_hex content))
  end.

(** ** The commit script *)

Record commit_args : Type := {
  dst : str;
  expected : str;
  is_write : bool;
  expected_new : str;
  lock_dir : str;
  stage : str;
  ca_tool : str
}.

Definition lock_started_path (a : commit_args) : str := lock_dir a ++ lit "/started_at".
Definition lock_operation_path (a : commit_args) : str := lock_dir a ++ lit "/operation".

(** What the host does around the script: its checks and faults, the bytes
    that reach the staging file, and what other processes do to the file
    system while the script waits for the lock ([e_lock]: the clock and the
    change before each attempt), between acquiring it and looking at the
    target, and between that look and the final step. *)
Record script_env : Type := {
  e_parent_exists : bool;
  e_parent_writable : bool;
  e_sha_available : bool;
  e_stage_creatable : bool;
  e_stdin : option bytes;
  e_lock : list (option Z * (nodes -> nodes));
  e_mkdir_ok : bool;
  e_locked_clock : option Z;
  e_before_check : nodes -> nodes;
  e_dst_readable : bool;
  e_before_final : nodes -> nodes;
  e_final_ok : bool
}.

Definition has_children (d : str) (fs : nodes) : bool :=
  existsb (fun '(k, _) => starts_with (d ++ lit "/") k) (map_to_list fs).

Definition rm_f (p : str) (fs : nodes) : nodes :=
  match fs !! p with Some RDir => fs | _ => delete p fs end.
Definition rmdir (d : str) (fs : nodes) : nodes * bool :=
  match fs !! d with
  | Some RDir => if has_children d fs then (fs, false) else (delete d fs, true)
  | _ => (fs, false)
  end.

(** [cleanup], which the script also runs on every early exit. *)
Definition cleanup (a : commit_args) (fs : nodes) : nodes :=
  let fs := rm_f (lock_operation_path a) (rm_f (lock_started_path a) (rm_f (stage a) fs)) in
  (rmdir (lock_dir a) fs).1.

(** The first line of a file, if it is complete and a decimal number. *)
Definition read_decimal_line (c : bytes) : option Z :=
  match split_once_char NL c with
  | Some (line, _) =>
      if negb (str_eqb line []) && forallb is_ascii_digit line
      then Some (foldl (fun n d => n * 10 + (d - 48)) 0 line) else None
  | None => None
  end.

Definition reclaim_stale_lock (a : commit_args) (now : Z) (fs : nodes) : nodes * bool :=
  match fs !! lock_started_path a with
  | Some (RFile c) =>
      match read_decimal_line c with
      | None => (fs, false)
      | Some started =>
          if now <? started then (fs, false)
          else if now - started <? FILE_EDIT_LOCK_STALE_AFTER_SECS then (fs, false)
          else rmdir (lock_dir a) (rm_f (lock_operation_path a) (rm_f (lock_started_path a) fs))
      end
  | _ => (fs, false)
  end.

(** The loop that acquires the lock. Each turn consumes one element of the
    environment; when they run out the script is still waiting ([None]). *)
Fixpoint acquire_lock (a : commit_args) (mkdir_ok : bool) (env : list (option Z * (nodes -> nodes)))
    (spins : Z) (fs : nodes) : option (result unit str * nodes) :=
  match env with
  | [] => None
  | (clock, other) :: env' =>
      let fs := other fs in
      match fs !! lock_dir a with
      | None =>
          if mkdir_ok then Some (Ok tt, <[lock_dir a := RDir]> fs)
          else Some (Err (lit "lock_acquire_failed"), fs)
      | Some RDir =>
          let '(fs, reclaimed) :=
            match clock with Some now => reclaim_stale_lock a now fs | None => (fs, false) end in
          if reclaimed then acquire_lock a mkdir_ok env' spins fs
          else if FILE_EDIT_LOCK_MAX_SPINS <=? spins + 1 then Some (Err (lit "lock_busy"), fs)
          else acquire_lock a mkdir_ok env' (spins + 1) fs
      | Some _ => Some (Err (lit "lock_acquire_failed"), fs)
      end
  end.

(** The last path component, which [ln] and [mv] append to a target that is a
    directory. *)
Definition base_name (p : str) : str := default [] (last (split_char SLASH p)).

(** The final step on the target: the new file system, or how it fails. *)
Definition finalize (a : commit_args) (ok : bool) (fs : nodes) : result nodes RawOut :=
  let failed := Err (marker_out (lit "finalize_failed")) in
  let in_dst := dst a ++ lit "/" ++ base_name (stage a) in
  if negb (is_write a) then
    match fs !! dst a with
    | Some RDir | None => failed
    | Some _ => if ok then Ok (delete (dst a) fs) else failed
    end
  else if str_eqb (expected a) FILE_EDIT_MISSING_SHA256 then
    match fs !! dst a, fs !! stage a with
    | Some RDir, Some n =>
        if ok && bool_decide (fs !! in_dst = None) then Ok (rm_f (stage a) (<[in_dst := n]> fs)) else Err conflict_out
    | Some _, _ => Err conflict_out
    | None, Some n => if ok then Ok (rm_f (stage a) (<[dst a := n]> fs)) else failed
    | None, None => failed
    end
  else
    match fs !! stage a with
    | None => failed
    | Some n =>
        if negb ok then failed
        else match fs !! dst a with
             | Some RDir =>
                 if bool_decide (fs !! in_dst = Some RDir) then failed
                 else Ok (<[in_dst := n]> (delete (stage a) fs))
             | _ => Ok (<[dst a := n]> (delete (stage a) fs))
             end
    end.

(** The staging step: the file system with the staged file, or the failure. *)
Definition stage_file (a : commit_args) (env : script_env) (fs : nodes) : result nodes RawOut * nodes :=
  if negb (is_write a) then (Ok fs, fs)
  else if negb (e_stage_creatable env) then (Err (marker_out (lit "staging_unwritable")), fs)
  else match e_stdin env with
       | None => (Err (marker_out (lit "stage_write_failed")), <[stage a := RFile []]> fs)
       | Some b =>
           let fs := <[stage a := RFile b]> fs in
           if negb (str_eqb (sha256_hex b) (expected_new a)) then
             (Err (marker_out (lit "stage_hash_mismatch")), fs)
           else (Ok fs, fs)
       end.

Definition write_lock_files (a : commit_args) (clock : option Z) (fs : nodes) : nodes :=
  let fs := match clock with
            | Some now => <[lock_started_path a := RFile (show_uint now ++ [NL])]> fs
            | None => fs
            end in
  <[lock_operation_path a := RFile (ca_tool a ++ [NL])]> fs.

(** What the script finds at the target while it holds the lock. *)
Definition current_hash (a : commit_args) (readable : bool) (fs : nodes) : result str RawOut :=
  match fs !! dst a with
  | None => Ok FILE_EDIT_MISSING_SHA256
  | Some (RFile c) => if readable then Ok (sha256_hex c) else Err (marker_out (lit "sha256_unavailable"))
  | Some _ => Err (marker_out (lit "not_regular_file"))
  end.

Definition locked_part (a : commit_args) (env : script_env) (fs : nodes) : RawOut * nodes :=
  let fs := e_before_check env (write_lock_files a (e_locked_clock env) fs) in
  match current_hash a (e_dst_readable env) fs with
  | Err out => (out, cleanup a fs)
  | Ok h =>
      if negb (str_eqb h (expected a)) then (conflict_out, cleanup a fs)
      else
        let fs := e_before_final env fs in
        match finalize a (e_final_ok env) fs with
        | Err out => (out, cleanup a fs)
        | Ok fs => (ok_out, cleanup a fs)
        end
  end.

(** The whole commit script; [None] when it is still waiting for the lock. *)
Definition commit_script (a : commit_args) (env : script_env) (fs : nodes) : option (RawOut * nodes) :=
  let fail name fs := Some (marker_out name, cleanup a fs) in
  if negb (e_parent_exists env) then fail (lit "parent_not_found") fs
  else if negb (e_parent_writable env) then fail (lit "permission_denied") fs
  else if negb (e_sha_available env) then fail (lit "sha256_unavailable") fs
  else match stage_file a env fs with
       | (Err out, fs) => Some (out, cleanup a fs)
       | (Ok _, fs) =>
           match acquire_lock a (e_mkdir_ok env) (e_lock env) 0 fs with
           | None => None
           | Some (Err m, fs) => fail m fs
           | Some (Ok _, fs) => Some (locked_part a env fs)
           end
       end.

(** ** The commit handler *)

Definition commit_args_for (remote_path : str) (expected_sha256 : str) (new_sha256 : option str)
    (privilege : FileEditPrivilege) (job_id : str) : commit_args := {|
  dst := remote_path;
  expected := expected_sha256;
  is_write := bool_decide (is_Some new_sha256);
  expected_new := default (lit "-") new_sha256;
  lock_dir := remote_path ++ lit ".ssh-mcp-lock";
  stage := remote_path ++ lit ".ssh-mcp-stage-" ++ job_id;
  ca_tool := tool_name privilege
|}.

Definition write_local_stage (io : local_io) : result unit FileEditError :=
  let local_err m e := fe_remote (lit "local_io") (m ++ e) in
  let? _ := rmap_err (local_err (lit "failed to create local staging file: ")) (io_create io) in
  let? _ := rmap_err (local_err (lit "failed to write local staging file: ")) (io_write io) in
  rmap_err (local_err (lit "failed to flush local staging file: ")) (io_flush io).

(** The answer of the private payload upload of [sudo_apply_patch]. *)
Definition upload_remote_sudo_payload (reopen : result unit str) (exec : result RawOut SshMcpError) :
    result unit FileEditError :=
  let? _ := rmap_err (fun e => fe_remote (lit "local_io") (lit "failed to open local sudo staging file: " ++ e)) reopen in
  let? out := rmap_err (fun e => fe_remote (lit "stage_failed")
      (lit "failed to upload private sudo_apply_patch payload: " ++ error_display e)) exec in
  match parse_file_edit_error_marker (out_stderr out) with
  | Some marker =>
      if str_eqb marker (lit "sudo_payload_create_failed") || str_eqb marker (lit "sudo_payload_write_failed") then
        Err (remote_error_with_stderr (lit "stage_failed")
               (lit "failed to create a private sudo_apply_patch payload under /tmp") (out_stderr out))
      else if str_eqb marker (lit "sha256_unavailable") then
        Err (fe_remote (lit "sha256_unavailable") (lit "remote host does not provide SHA-256 utilities"))
      else if str_eqb marker (lit "stage_hash_mismatch") then
        Err (fe_remote (lit "stage_hash_mismatch")
               (lit "uploaded sudo_apply_patch payload SHA-256 did not match planned content"))
      else Err (fe_remote (lit "stage_failed") (lit "failed to upload private sudo_apply_patch payload"))
  | None =>
      if bool_decide (out_exit out <> Some 0) then
        Err (fe_remote (lit "stage_failed")
               (remote_failure_message (lit "upload sudo_apply_patch payload") (out_exit out) (out_stderr out)))
      else Ok tt
  end.

Definition commit_marker_error (privilege : FileEditPrivilege) (marker stderr : str) : FileEditError :=
  if str_eqb marker (lit "lock_busy") then fe_lock_busy
  else if str_eqb marker (lit "parent_not_found") then
    fe_remote (lit "parent_not_found") (lit "remote parent directory does not exist")
  else if str_eqb marker (lit "permission_denied") then
    permission_error privilege (lit "write in the remote parent directory")
  else if str_eqb marker (lit "not_regular_file") then
    fe_remote (lit "not_regular_file") (lit "remote path is not a regular file")
  else if str_eqb marker (lit "sha256_unavailable") then
    fe_remote (lit "sha256_unavailable") (lit "remote host does not provide SHA-256 utilities")
  else if str_eqb marker (lit "stage_hash_mismatch") then
    fe_remote (lit "stage_hash_mismatch") (lit "uploaded staging file SHA-256 did not match planned content")
  else if str_eqb marker (lit "lock_acquire_failed") then
    remote_error_with_stderr (lit "lock_failed")
      (lit "failed to create the remote edit lock; check parent-directory permissions and filesystem state") stderr
  else if str_eqb marker (lit "staging_unwritable") || str_eqb marker (lit "stage_write_failed") then
    remote_error_with_stderr (lit "stage_failed")
      (lit "failed to write the remote staging file next to the target; check parent-directory permissions, free space, and filesystem state") stderr
  else if str_eqb marker (lit "finalize_failed") then
    remote_error_with_stderr (lit "finalize_failed")
      (lit "failed to replace or delete the remote path; check ownership, parent-directory permissions, sticky bit, and read-only filesystem state") stderr
  else fe_remote (lit "remote_commit_failed") (tool_name privilege ++ lit " failed remotely").

(** The answer to the caller, from what the script reported. *)
Definition commit_outcome (privilege : FileEditPrivilege) (out : RawOut) : result unit FileEditError :=
  if has_file_edit_conflict_marker (out_stderr out) then Err fe_conflict
  else match parse_file_edit_error_marker (out_stderr out) with
       | Some marker => Err (commit_marker_error privilege marker (out_stderr out))
       | None =>
           if bool_decide (out_exit out <> Some 0) then
             Err (fe_remote (lit "remote_commit_failed")
                    (remote_failure_message (tool_name privilege) (out_exit out) (out_stderr out)))
           else Ok tt
       end.

(** [commit_remote_text_file]. [exec] runs the commit script with the given
    arguments on the remote state; an [Err] is a lost connection or a timeout,
    after which the script may or may not have run. *)
Definition commit_remote_text_file {W} (exec : commit_args -> W -> result RawOut SshMcpError * W)
    (request : FileCommitRequest) (connected : result unit SshMcpError) (io : local_io)
    (upload : result RawOut SshMcpError) (job_id : str) (w : W) : result unit FileEditError * W :=
  let new_content := match q_action request with Write c => Some c | DeleteFile => None end in
  let privilege := q_privilege request in
  let prepared : result commit_args FileEditError :=
    let? _ := match new_content with
              | Some c => reject (FILE_EDIT_HARD_MAX_BYTES <? str_len c)
                            (fe_remote (lit "limit_exceeded") (limit_message (lit "result")))
              | None => Ok tt
              end in
    let? _ := rmap_err (fun e => fe_remote (lit "connection_failed") (error_display e)) connected in
    let expected_sha256 := match q_expected request with ExpMissing => FILE_EDIT_MISSING_SHA256 | ExpSha256 v => v end in
    let new_sha256 := local_text_sha256_hex <$> new_content in
    let? _ := match new_content with Some _ => write_local_stage io | None => Ok tt end in
    let? _ := match privilege, new_content with
              | Sudo, Some _ => upload_remote_sudo_payload (io_reopen io) upload
              | User, Some _ => rmap_err (fun e => fe_remote (lit "local_io")
                                  (lit "failed to open local staging file: " ++ e)) (io_reopen io)
              | _, None => Ok tt
              end in
    Ok (commit_args_for (q_remote_path request) expected_sha256 new_sha256 privilege job_id) in
  match prepared with
  | Err e => (Err e, w)
  | Ok args =>
      let '(out, w) := exec args w in
      ((let? out := rmap_err (fun e => fe_remote (lit "remote_commit_failed")
            (tool_name privilege ++ lit " failed: " ++ error_display e)) out in
        commit_outcome privilege out), w)
  end.
(** ** Properties of the script *)

(** The paths the script works on are all different. *)
Definition args_wf (a : commit_args) : Prop :=
  dst a <> stage a /\
  dst a ∉ [lock_dir a; lock_started_path a; lock_operation_path a] /\
  stage a ∉ [lock_dir a; lock_started_path a; lock_operation_path a].

Lemma app_ne_self (p x : str) : x <> [] -> p <> p ++ x.
Proof. intros Hx E. apply (f_equal length) in E. rewrite length_app in E. destruct x; simpl in E; [done|lia]. Qed.

Lemma commit_args_for_wf p e n pr id : args_wf (commit_args_for p e n pr id).
Proof.
  unfold args_wf, lock_started_path, lock_operation_path, commit_args_for. simpl.
  split_and!.
  - by apply app_ne_self.
  - rewrite !not_elem_of_cons, <- !app_assoc. split_and!; try (by apply app_ne_self). by apply not_elem_of_nil.
  - rewrite !not_elem_of_cons, <- !app_assoc.
    split_and!; try (by apply not_elem_of_nil); intros E%app_inv_head; vm_compute in E; discriminate E.
Qed.

Lemma rm_f_ne p q fs : q <> p -> rm_f p fs !! q = fs !! q.
Proof. intros H. unfold rm_f. destruct (fs !! p) as [[]|]; by rewrite ?lookup_delete_ne. Qed.

Lemma rm_f_eq p fs : fs !! p <> Some RDir -> rm_f p fs !! p = None.
Proof. intros H. unfold rm_f. destruct (fs !! p) as [[]|] eqn:E; by rewrite ?lookup_delete_eq. Qed.

Lemma rmdir_ne d q fs : q <> d -> (rmdir d fs).1 !! q = fs !! q.
Proof.
  intros H. unfold rmdir. destruct (fs !! d) as [[]|]; [done| |done..].
  destruct (has_children d fs); simpl; by rewrite ?lookup_delete_ne.
Qed.

Section Script.
Context (a : commit_args).

(** A path that neither the lock nor the staging file uses. *)
Definition off_lock (p : str) : Prop := p ∉ [lock_dir a; lock_started_path a; lock_operation_path a].

Lemma cleanup_off p fs : off_lock p -> p <> stage a -> cleanup a fs !! p = fs !! p.
Proof.
  unfold off_lock. rewrite !not_elem_of_cons. intros (H1 & H2 & H3 & _) H4. unfold cleanup.
  by rewrite rmdir_ne, !rm_f_ne.
Qed.

Lemma cleanup_stage fs : off_lock (stage a) -> fs !! stage a <> Some RDir -> cleanup a fs !! stage a = None.
Proof.
  unfold off_lock. rewrite !not_elem_of_cons. intros (H1 & H2 & H3 & _) H. unfold cleanup.
  rewrite rmdir_ne, !(rm_f_ne _ (stage a)) by done. by apply rm_f_eq.
Qed.

Lemma reclaim_off now p fs : off_lock p -> (reclaim_stale_lock a now fs).1 !! p = fs !! p.
Proof.
  unfold off_lock. rewrite !not_elem_of_cons. intros (H1 & H2 & H3 & _). unfold reclaim_stale_lock.
  destruct (fs !! lock_started_path a) as [[c| |]|]; try done.
  destruct (read_decimal_line c) as [started|]; [|done].
  destruct (now <? started); [done|]. destruct (_ <? _); [done|].
  by rewrite rmdir_ne, !rm_f_ne.
Qed.

Lemma write_lock_files_off clock p fs : off_lock p -> write_lock_files a clock fs !! p = fs !! p.
Proof.
  unfold off_lock. rewrite !not_elem_of_cons. intros (H1 & H2 & H3 & _). unfold write_lock_files.
  rewrite lookup_insert_ne by done. destruct clock; by rewrite ?lookup_insert_ne.
Qed.

(** Other processes leave a path alone. *)
Definition leaves (p : str) (f : nodes -> nodes) : Prop := forall fs, f fs !! p = fs !! p.

Lemma acquire_lock_off mkdir_ok env spins fs res fs' p :
  off_lock p -> Forall (fun e => leaves p e.2) env ->
  acquire_lock a mkdir_ok env spins fs = Some (res, fs') -> fs' !! p = fs !! p.
Proof.
  intros Hp. revert spins fs; induction env as [|[clock other] env IH]; intros spins fs Henv H; [done|].
  apply Forall_cons in Henv as [Ho Henv]. cbn [acquire_lock] in H. cbn [snd] in Ho. rewrite <- (Ho fs).
  set (fs1 := other fs) in *.
  assert (Hd : p <> lock_dir a) by (unfold off_lock in Hp; rewrite !not_elem_of_cons in Hp; tauto).
  destruct (fs1 !! lock_dir a) as [[]|] eqn:E; [by simplify_eq| |by simplify_eq|].
  - destruct (match clock with Some now => reclaim_stale_lock a now fs1 | None => (fs1, false) end) as [fs2 r] eqn:R.
    assert (H2 : fs2 !! p = fs1 !! p).
    { destruct clock as [now|]; [|by simplify_eq]. rewrite <- (reclaim_off now p fs1) by done. by rewrite R. }
    rewrite <- H2. destruct r; [by eapply IH|]. destruct (_ <=? _); [by simplify_eq|by eapply IH].
  - destruct mkdir_ok; simplify_eq; [|done]. by rewrite lookup_insert_ne.
Qed.

(** What the host does around the script leaves the target and the staging
    file alone. *)
Definition undisturbed (env : script_env) : Prop :=
  forall p, p = dst a \/ p = stage a ->
    Forall (fun e => leaves p e.2) (e_lock env) /\ leaves p (e_before_check env) /\ leaves p (e_before_final env).

Lemma stage_file_off env fs res fs' p :
  p <> stage a -> stage_file a env fs = (res, fs') -> fs' !! p = fs !! p.
Proof.
  intros Hp. unfold stage_file. destruct (negb (is_write a)); [by intros [= _ <-]|].
  destruct (negb (e_stage_creatable env)); [by intros [= _ <-]|].
  destruct (e_stdin env) as [b|]; [|intros [= _ <-]; by rewrite lookup_insert_ne].
  destruct (negb _); intros [= _ <-]; by rewrite lookup_insert_ne.
Qed.

(** What a successful staging step leaves at the staging path. *)
Definition staged (env : script_env) (fs : nodes) : Prop :=
  is_write a = true -> exists b, e_stdin env = Some b /\ sha256_hex b = expected_new a /\
    fs !! stage a = Some (RFile b).

Lemma stage_file_ok env fs f fs' : stage_file a env fs = (Ok f, fs') -> staged env fs'.
Proof.
  unfold stage_file, staged. destruct (is_write a); [|done]. cbn [negb].
  destruct (negb (e_stage_creatable env)); [done|]. destruct (e_stdin env) as [b|]; [|done].
  destruct (str_eqb _ _) eqn:E; [|done]. apply str_eqb_spec in E. intros [= _ <-] _.
  exists b. by rewrite lookup_insert_eq.
Qed.

Lemma stage_file_err env fs out fs' : stage_file a env fs = (Err out, fs') -> out <> ok_out.
Proof.
  unfold stage_file. destruct (negb (is_write a)); [done|]. destruct (negb (e_stage_creatable env)); [by intros [= <- _]|].
  destruct (e_stdin env); [destruct (negb _)|]; by intros [= <- _].
Qed.

Lemma finalize_err ok fs out : finalize a ok fs = Err out -> out <> ok_out.
Proof. unfold finalize. repeat case_match; intros; simplify_eq; done. Qed.

Lemma finalize_ok ok fs fs' :
  dst a <> stage a -> fs !! dst a <> Some RDir -> finalize a ok fs = Ok fs' ->
  (is_write a = true -> fs' !! dst a = fs !! stage a) /\ (is_write a = false -> fs' !! dst a = None) /\
  (fs' !! stage a = None \/ fs' !! stage a = fs !! stage a).
Proof.
  intros Hne Hdir. unfold finalize. destruct (is_write a); cbn [negb].
  - destruct (str_eqb (expected a) FILE_EDIT_MISSING_SHA256).
    + destruct (fs !! dst a) as [[]|] eqn:Ed; [done..|]. destruct (fs !! stage a) as [n|] eqn:Es; [|done].
      destruct ok; [|done]. intros [= <-]. split_and!; [|done|].
      * intros _. by rewrite rm_f_ne, lookup_insert_eq.
      * unfold rm_f. rewrite lookup_insert_ne, Es by done.
        destruct n; rewrite ?lookup_delete_eq, ?lookup_insert_ne; auto.
    + destruct (fs !! stage a) as [n|] eqn:Es; [|done]. destruct ok; cbn [negb]; [|done].
      destruct (fs !! dst a) as [[]|] eqn:Ed; intros H; simplify_eq;
        (split_and!; [intros _; by rewrite lookup_insert_eq|done|
          rewrite lookup_insert_ne, lookup_delete_eq by done; auto]).
  - destruct (fs !! dst a) as [[]|] eqn:Ed; try done; (destruct ok; [|done]); intros [= <-];
      (split_and!; [done|intros _; by rewrite lookup_delete_eq|right; by rewrite lookup_delete_ne]).
Qed.

End Script.
(** What the script achieved, from the target it found to the one it left. *)
Definition script_effect (a : commit_args) (env : script_env) (fs : nodes) (out : RawOut) (fs' : nodes) : Prop :=
  (out = ok_out /\ current_hash a (e_dst_readable env) fs = Ok (expected a) /\
   if is_write a then exists b, e_stdin env = Some b /\ sha256_hex b = expected_new a /\ fs' !! dst a = Some (RFile b)
   else fs' !! dst a = None) \/
  (out <> ok_out /\ fs' !! dst a = fs !! dst a).

Lemma locked_part_effect a env fs out fs' :
  args_wf a -> undisturbed a env -> staged a env fs -> fs !! stage a <> Some RDir ->
  locked_part a env fs = (out, fs') -> script_effect a env fs out fs' /\ fs' !! stage a = None.
Proof.
  intros (Hne & Hd & Hs) Hu Hst Hsd H. unfold locked_part in H.
  destruct (Hu (dst a) (or_introl eq_refl)) as (_ & Hc1 & Hf1).
  destruct (Hu (stage a) (or_intror eq_refl)) as (_ & Hc2 & Hf2).
  set (fs1 := e_before_check env (write_lock_files a (e_locked_clock env) fs)) in *.
  assert (E1 : fs1 !! dst a = fs !! dst a) by (unfold fs1; by rewrite Hc1, write_lock_files_off).
  assert (E2 : fs1 !! stage a = fs !! stage a) by (unfold fs1; by rewrite Hc2, write_lock_files_off).
  assert (Hcur : current_hash a (e_dst_readable env) fs1 = current_hash a (e_dst_readable env) fs)
    by (unfold current_hash; by rewrite E1).
  unfold script_effect. rewrite <- Hcur.
  destruct (current_hash a (e_dst_readable env) fs1) as [h|out'] eqn:Eh.
  2: { simplify_eq. split; [right; split|].
       - unfold current_hash in Eh. repeat case_match; by simplify_eq.
       - by rewrite cleanup_off.
       - apply cleanup_stage; [done|]. by rewrite E2. }
  destruct (str_eqb h (expected a)) eqn:Ex; cbn [negb] in H.
  2: { simplify_eq. split; [right; split; [done|by rewrite cleanup_off]|]. apply cleanup_stage; [done|]. by rewrite E2. }
  apply str_eqb_spec in Ex as ->.
  destruct (finalize a (e_final_ok env) (e_before_final env fs1)) as [fs2|out'] eqn:Ef.
  2: { simplify_eq. split; [right; split|].
       - by eapply finalize_err.
       - by rewrite cleanup_off, Hf1.
       - apply cleanup_stage; [done|]. by rewrite Hf2, E2. }
  assert (Hdir : fs !! dst a <> Some RDir).
  { intros Hx. unfold current_hash in Hcur. by rewrite Hx in Hcur. }
  apply finalize_ok in Ef as (W & D & S); [|done|rewrite Hf1, E1; exact Hdir]. simplify_eq.
  rewrite Hf2, E2 in W, S. split.
  - left. split_and!; [done..|]. rewrite cleanup_off by done.
    destruct (is_write a) eqn:Ew; [|by apply D].
    destruct (Hst Ew) as (b & B1 & B2 & B3). exists b. by rewrite W, B3.
  - apply cleanup_stage; [done|]. destruct S as [-> | ->]; done.
Qed.

(** The commit script is all or nothing. If the other processes on the
    host leave the target and the staging file alone, then whatever the lock's
    contention, the host's faults and the bytes that arrived, a finished run
    either reports success, and then the target had the expected hash and is now
    exactly a file whose bytes have the announced hash (or is gone, for a
    delete), or reports a failure, and then the target is what it was; in both
    cases the staging file is gone. *)
Lemma commit_script_effect (path exp : str) (new : option str) (privilege : FileEditPrivilege) (id : str)
    (env : script_env) (fs : nodes) (out : RawOut) (fs' : nodes)
    (Hu : undisturbed (commit_args_for path exp new privilege id) env)
    (Hstage : fs !! stage (commit_args_for path exp new privilege id) = None)
    (H : commit_script (commit_args_for path exp new privilege id) env fs = Some (out, fs')) :
  script_effect (commit_args_for path exp new privilege id) env fs out fs' /\
  fs' !! stage (commit_args_for path exp new privilege id) = None.
Proof.
  pose proof (commit_args_for_wf path exp new privilege id) as Hwf.
  set (a := commit_args_for path exp new privilege id) in *. pose proof Hwf as (Hne & Hd & Hs).
  assert (Hfail : forall o fs1, o <> ok_out -> fs1 !! dst a = fs !! dst a -> fs1 !! stage a <> Some RDir ->
    Some (o, cleanup a fs1) = Some (out, fs') -> script_effect a env fs out fs' /\ fs' !! stage a = None).
  { intros o fs1 Ho E1 E2 [= <- <-]. split; [right; by rewrite cleanup_off|by apply cleanup_stage]. }
  unfold commit_script in H.
  destruct (negb (e_parent_exists env)); [apply (Hfail _ fs (marker_not_ok _) eq_refl ltac:(by rewrite Hstage) H)|].
  destruct (negb (e_parent_writable env)); [apply (Hfail _ fs (marker_not_ok _) eq_refl ltac:(by rewrite Hstage) H)|].
  destruct (negb (e_sha_available env)); [apply (Hfail _ fs (marker_not_ok _) eq_refl ltac:(by rewrite Hstage) H)|].
  destruct (stage_file a env fs) as [res fs1] eqn:Es.
  assert (E1 : fs1 !! dst a = fs !! dst a) by (by eapply stage_file_off).
  assert (Hsd : fs1 !! stage a <> Some RDir).
  { unfold stage_file in Es. repeat case_match; simplify_eq; rewrite ?lookup_insert_eq; congruence. }
  destruct res as [f|o].
  2: { apply (Hfail o fs1); [by eapply stage_file_err|done..]. }
  apply stage_file_ok in Es.
  assert (Hl : forall r fs2, acquire_lock a (e_mkdir_ok env) (e_lock env) 0 fs1 = Some (r, fs2) ->
    fs2 !! dst a = fs1 !! dst a /\ fs2 !! stage a = fs1 !! stage a).
  { intros r fs2 El. split.
    - eapply acquire_lock_off; [exact Hd|by apply (Hu (dst a)); left|exact El].
    - eapply acquire_lock_off; [exact Hs|by apply (Hu (stage a)); right|exact El]. }
  destruct (acquire_lock a (e_mkdir_ok env) (e_lock env) 0 fs1) as [[r fs2]|]; [|done].
  destruct (Hl r fs2 eq_refl) as [E2 E3]. destruct r as [u|m].
  - injection H as H. apply locked_part_effect in H as [He Hg]; [|done|done| |by rewrite E3].
    + split; [|done]. unfold script_effect, current_hash in *. by rewrite E2, E1 in He.
    + intros Hw. destruct (Es Hw) as (b & ? & ? & ?). exists b. by rewrite E3.
  - apply (Hfail (marker_out m) fs2); [apply marker_not_ok|congruence|by rewrite E3|done].
Qed.

(** A path that the script does not use at all. *)
Definition off_script (a : commit_args) (q : str) : Prop :=
  off_lock a q /\ q <> dst a /\ q <> stage a /\ q <> dst a ++ lit "/" ++ base_name (stage a).

Lemma finalize_off a ok fs fs' q : off_script a q -> finalize a ok fs = Ok fs' -> fs' !! q = fs !! q.
Proof.
  intros (_ & H1 & H2 & H3). unfold finalize. intros H.
  repeat case_match; simplify_eq; rewrite ?rm_f_ne, ?lookup_insert_ne, ?lookup_delete_ne by done; done.
Qed.

Lemma commit_script_off a env fs out fs' q :
  off_script a q -> Forall (fun e => leaves q e.2) (e_lock env) -> leaves q (e_before_check env) ->
  leaves q (e_before_final env) -> commit_script a env fs = Some (out, fs') -> fs' !! q = fs !! q.
Proof.
  intros Hq Hl Hc Hf. pose proof Hq as (Hlock & Hdst & Hstage & _). unfold commit_script.
  assert (Hfail : forall o fs1, fs1 !! q = fs !! q -> Some (o, cleanup a fs1) = Some (out, fs') -> fs' !! q = fs !! q).
  { intros o fs1 E [= _ <-]. by rewrite cleanup_off. }
  destruct (negb (e_parent_exists env)); [by apply Hfail|].
  destruct (negb (e_parent_writable env)); [by apply Hfail|].
  destruct (negb (e_sha_available env)); [by apply Hfail|].
  destruct (stage_file a env fs) as [res fs1] eqn:Es. pose proof (stage_file_off _ _ _ _ _ q Hstage Es) as E1.
  destruct res as [f|o]; [|by apply Hfail].
  destruct (acquire_lock a (e_mkdir_ok env) (e_lock env) 0 fs1) as [[r fs2]|] eqn:El; [|done].
  pose proof (acquire_lock_off _ _ _ _ _ _ _ _ Hlock Hl El) as E2. rewrite E1 in E2.
  destruct r as [u|m]; [|by apply Hfail]. unfold locked_part. rewrite <- E2.
  assert (E3 : forall c fs, e_before_check env (write_lock_files a c fs) !! q = fs !! q)
    by (intros c fs0; by rewrite Hc, write_lock_files_off).
  destruct (current_hash _ _ _) as [h|o]; [|intros [= _ <-]; by rewrite cleanup_off].
  destruct (negb _); [intros [= _ <-]; by rewrite cleanup_off|].
  destruct (finalize _ _ _) as [fs3|o] eqn:Ef; intros [= _ <-]; rewrite cleanup_off by done; [|by rewrite Hf].
  apply finalize_off with (q := q) in Ef; [|done]. by rewrite Ef, Hf.
Qed.

(** ** What the caller is told *)

Definition script_markers : list str :=
  [lit "parent_not_found"; lit "permission_denied"; lit "sha256_unavailable"; lit "staging_unwritable";
   lit "stage_write_failed"; lit "stage_hash_mismatch"; lit "lock_busy"; lit "lock_acquire_failed";
   lit "not_regular_file"; lit "finalize_failed"].

(** Every report the script can make. *)
Definition script_report (out : RawOut) : Prop :=
  out = ok_out \/ out = conflict_out \/ exists m, m ∈ script_markers /\ out = marker_out m.

Ltac in_markers := repeat (first [by left | right]).

Lemma marker_report m : m ∈ script_markers -> script_report (marker_out m).
Proof. intros H. right. right. by exists m. Qed.

Lemma acquire_lock_marker a ok env spins fs m fs' :
  acquire_lock a ok env spins fs = Some (Err m, fs') -> m ∈ script_markers.
Proof.
  revert spins fs; induction env as [|[clock other] env IH]; intros spins fs H; [done|]. cbn [acquire_lock] in H.
  destruct (other fs !! lock_dir a) as [[]|]; [simplify_eq; unfold script_markers; in_markers| |simplify_eq; unfold script_markers; in_markers|].
  - destruct (match clock with Some _ => _ | None => _ end) as [fs2 []]; [by eapply IH|].
    destruct (_ <=? _); [simplify_eq; unfold script_markers; in_markers|by eapply IH].
  - destruct ok; simplify_eq. unfold script_markers; in_markers.
Qed.

Lemma commit_script_report a env fs out fs' : commit_script a env fs = Some (out, fs') -> script_report out.
Proof.
  assert (Hm : forall m, bool_decide (m ∈ script_markers) = true -> script_report (marker_out m)).
  { intros m H. apply marker_report. by apply bool_decide_eq_true in H. }
  unfold commit_script.
  destruct (negb (e_parent_exists env)); [intros [= <- _]; by apply Hm|].
  destruct (negb (e_parent_writable env)); [intros [= <- _]; by apply Hm|].
  destruct (negb (e_sha_available env)); [intros [= <- _]; by apply Hm|].
  destruct (stage_file a env fs) as [[f|o] fs1] eqn:Es.
  - destruct (acquire_lock _ _ _ _ _) as [[[u|m] fs2]|] eqn:El; [| |done].
    + intros [= H]. unfold locked_part in H.
      destruct (current_hash _ _ _) as [h|o] eqn:Eh.
      * destruct (negb (str_eqb h (expected a))); [simplify_eq; right; by left|].
        destruct (finalize _ _ _) as [|o] eqn:Ef; simplify_eq; [by left|].
        unfold finalize in Ef. repeat case_match; simplify_eq; try (by apply Hm); right; by left.
      * simplify_eq. unfold current_hash in Eh. repeat case_match; simplify_eq; by apply Hm.
    + intros [= <- _]. apply marker_report. by eapply acquire_lock_marker.
  - intros [= <- _]. unfold stage_file in Es. repeat case_match; simplify_eq; by apply Hm.
Qed.

Lemma marker_outcome privilege m :
  m ∈ script_markers ->
  commit_outcome privilege (marker_out m) = Err (commit_marker_error privilege m (out_stderr (marker_out m))) /\
  fe_kind (commit_marker_error privilege m (out_stderr (marker_out m))) <> lit "remote_commit_failed".
Proof.
  unfold script_markers. intros H.
  repeat (apply elem_of_cons in H as [->|H]; [destruct privilege; split; vm_compute; done|]).
  by apply elem_of_nil in H.
Qed.

Lemma commit_outcome_report privilege out :
  script_report out ->
  (commit_outcome privilege out = Ok tt <-> out = ok_out) /\
  (forall e, commit_outcome privilege out = Err e -> fe_kind e <> lit "remote_commit_failed") /\
  (commit_outcome privilege out = Err fe_conflict <-> out = conflict_out).
Proof.
  intros [->|[->|(m & Hm & ->)]].
  - split_and!; [by vm_compute|by vm_compute|split; [by vm_compute|intros E; by vm_compute in E]].
  - split_and!; [split; intros E; by vm_compute in E| |by vm_compute].
    intros e [= <-]. by vm_compute.
  - destruct (marker_outcome privilege m Hm) as [-> Hk]. split_and!.
    + split; [done|]. intros E. by apply marker_not_ok in E.
    + by intros e [= <-].
    + split; [|by intros [=]]. intros [= E]. exfalso. revert E. clear Hk. unfold script_markers in Hm.
      repeat (apply elem_of_cons in Hm as [->|Hm]; [destruct privilege; vm_compute; done|]).
      by apply elem_of_nil in Hm.
Qed.

(** The commit script run on the remote host. The acknowledgement may be lost
    ([lost]), and the call may give up while the script still waits for the
    lock; what it finds or leaves then is [pending]. *)
Definition run_script (env : script_env) (lost : option SshMcpError) (pending : nodes) (timeout : Z) (a : commit_args)
    (fs : nodes) : result RawOut SshMcpError * nodes :=
  match commit_script a env fs with
  | Some (out, fs') => (match lost with Some e => Err e | None => Ok out end, fs')
  | None => (Err (Timeout timeout), pending)
  end.

Lemma run_script_told p ex new privilege id env lost pending timeout fs fs' res
    (a := commit_args_for p ex new privilege id) :
  undisturbed a env -> fs !! stage a = None ->
  (let '(out, w) := run_script env lost pending timeout a fs in
   ((let? out := rmap_err (fun e => fe_remote (lit "remote_commit_failed")
       (tool_name privilege ++ lit " failed: " ++ error_display e)) out in commit_outcome privilege out), w)) = (res, fs') ->
  (res = Ok tt -> script_effect a env fs ok_out fs' /\ fs' !! stage a = None) /\
  (forall e, res = Err e -> fe_kind e <> lit "remote_commit_failed" -> fs' !! p = fs !! p /\ fs' !! stage a = None).
Proof.
  intros Hu Hs H. unfold run_script in H.
  destruct (commit_script a env fs) as [[out fs1]|] eqn:Es; [destruct lost as [e|]|]; cbn [rmap_err rbind] in H.
  1, 3: simplify_eq; (split; [done|]); intros e0 [= <-] Hk; by destruct Hk.
  destruct (commit_outcome_report privilege out (commit_script_report _ _ _ _ _ Es)) as (Hok & _ & _).
  apply commit_script_effect in Es as [He Hg]; [|exact Hu|exact Hs].
  simplify_eq. split.
  - intros E. apply Hok in E as ->. by split.
  - intros e E _. split; [|done]. destruct He as [(-> & _)|(_ & Hkeep)]; [|exact Hkeep].
    rewrite (proj2 Hok eq_refl) in E. done.
Qed.

Lemma current_hash_Ok a r fs h : current_hash a r fs = Ok h ->
  (fs !! dst a = None /\ h = FILE_EDIT_MISSING_SHA256) \/ exists c, fs !! dst a = Some (RFile c) /\ sha256_hex c = h.
Proof. unfold current_hash. intros H. repeat case_match; simplify_eq; eauto. Qed.

Lemma script_effect_ok p ex new privilege id env fs fs' (a := commit_args_for p ex new privilege id) :
  script_effect a env fs ok_out fs' ->
  ((fs !! p = None /\ ex = FILE_EDIT_MISSING_SHA256) \/ exists c, fs !! p = Some (RFile c) /\ sha256_hex c = ex) /\
  match new with Some h => exists b, fs' !! p = Some (RFile b) /\ sha256_hex b = h | None => fs' !! p = None end.
Proof.
  intros [(_ & Hc & Hn)|[? _]]; [|done]. split; [by apply current_hash_Ok in Hc|].
  destruct new as [h|]; cbn in Hn; [|exact Hn]. destruct Hn as (b & _ & ? & ?). by exists b.
Qed.

Lemma commit_remote_text_file_effect (request : FileCommitRequest) (connected : result unit SshMcpError)
    (io : local_io) (upload : result RawOut SshMcpError) (id : str) (env : script_env) (lost : option SshMcpError)
    (pending : nodes) (timeout : Z) (fs fs' : nodes) (res : result unit FileEditError)
    (p := q_remote_path request) (stage_path := p ++ lit ".ssh-mcp-stage-" ++ id)
    (Hu : forall e n, undisturbed (commit_args_for p e n (q_privilege request) id) env)
    (Hstage : fs !! stage_path = None)
    (H : commit_remote_text_file (run_script env lost pending timeout) request connected io upload id fs = (res, fs')) :
  (res = Ok tt ->
     match q_expected request with
     | ExpMissing => fs !! p = None \/ exists c, fs !! p = Some (RFile c) /\ sha256_hex c = FILE_EDIT_MISSING_SHA256
     | ExpSha256 h => (fs !! p = None /\ h = FILE_EDIT_MISSING_SHA256) \/
                      exists c, fs !! p = Some (RFile c) /\ sha256_hex c = h
     end /\
     match q_action request with
     | Write content => str_len content <= FILE_EDIT_HARD_MAX_BYTES /\
         exists b, fs' !! p = Some (RFile b) /\ sha256_hex b = local_text_sha256_hex content
     | DeleteFile => fs' !! p = None
     end /\ fs' !! stage_path = None) /\
  (forall e, res = Err e -> fe_kind e <> lit "remote_commit_failed" -> fs' !! p = fs !! p /\ fs' !! stage_path = None).
Proof.
  unfold commit_remote_text_file in H. destruct (q_action request) as [c|]; cbv beta zeta in H.
  all: match type of H with (match ?x with _ => _ end) = _ => destruct x as [args|e0] eqn:Ep end;
    [|simplify_eq; split; [done|intros; done]].
  - assert (Hsize : str_len c <= FILE_EDIT_HARD_MAX_BYTES)
      by (unfold reject in Ep; destruct (_ <? _) eqn:L; bool_hyps; [done|lia]).
    assert (args = commit_args_for p match q_expected request with ExpMissing => FILE_EDIT_MISSING_SHA256 | ExpSha256 v => v end
        (Some (local_text_sha256_hex c)) (q_privilege request) id) as ->
      by (res_inv; destruct (q_privilege request); res_inv; done).
    apply run_script_told in H as [H1 H2]; [|apply Hu|done]. split; [|exact H2].
    intros E. destruct (H1 E) as [[He Hn]%script_effect_ok Hg]. split; [|by split].
    destruct (q_expected request); destruct He as [[? ?]|?]; eauto.
  - assert (args = commit_args_for p match q_expected request with ExpMissing => FILE_EDIT_MISSING_SHA256 | ExpSha256 v => v end
        None (q_privilege request) id) as -> by (res_inv; destruct (q_privilege request); res_inv; done).
    apply run_script_told in H as [H1 H2]; [|apply Hu|done]. split; [|exact H2].
    intros E. destruct (H1 E) as [[He Hn]%script_effect_ok Hg]. split; [|by split].
    destruct (q_expected request); destruct He as [[? ?]|?]; eauto.
Qed.

(** Nor does a commit touch any path the script does not use. *)
Lemma commit_remote_text_file_off request connected io upload id env lost pending timeout fs res fs' q
    (p := q_remote_path request) :
  (forall e n, off_script (commit_args_for p e n (q_privilege request) id) q) ->
  Forall (fun e => leaves q e.2) (e_lock env) -> leaves q (e_before_check env) -> leaves q (e_before_final env) ->
  pending !! q = fs !! q ->
  commit_remote_text_file (run_script env lost pending timeout) request connected io upload id fs = (res, fs') ->
  fs' !! q = fs !! q.
Proof.
  intros Hoff Hl Hc Hf Hpend H. unfold commit_remote_text_file in H.
  match type of H with (match ?x with _ => _ end) = _ => destruct x as [args|e0] eqn:Ep end; [|by simplify_eq].
  assert (Ha : off_script args q).
  { destruct (q_action request), (q_privilege request); cbv beta zeta iota in Ep; res_inv; apply Hoff. }
  unfold run_script in H. destruct (commit_script args env fs) as [[out fs1]|] eqn:Es; simplify_eq; [|done].
  by eapply commit_script_off.
Qed.

(** C1. The answer to a commit is the truth about the file. With the target
    and staging file left alone by others, whatever the contention for the
    lock, the host's faults, the bytes that arrive and the local failures: if
    the caller is told the commit succeeded, the target was what was expected
    (the same hash, or absent) and is now exactly as requested (a file whose
    bytes hash to the hash of the requested text, or absent); if the caller is
    told of any failure but an unacknowledged one ([remote_commit_failed]), the
    target is untouched; in both cases no staging file is left. A text above
    the size limit is never accepted. *)
Theorem commit_remote_text_file_sound (request : FileCommitRequest) (connected : result unit SshMcpError)
    (io : local_io) (upload : result RawOut SshMcpError) (id : str) (env : script_env) (lost : option SshMcpError)
    (pending : nodes) (timeout : Z) (fs fs' : nodes) (res : result unit FileEditError)
    (p := q_remote_path request) (stage_path := p ++ lit ".ssh-mcp-stage-" ++ id)
    (Hu : forall e n, undisturbed (commit_args_for p e n (q_privilege request) id) env)
    (Hstage : fs !! stage_path = None)
    (H : commit_remote_text_file (run_script env lost pending timeout) request connected io upload id fs = (res, fs')) :
  (res = Ok tt ->
     match q_expected request with
     | ExpMissing => fs !! p = None \/ exists c, fs !! p = Some (RFile c) /\ sha256_hex c = FILE_EDIT_MISSING_SHA256
     | ExpSha256 h => (fs !! p = None /\ h = FILE_EDIT_MISSING_SHA256) \/
                      exists c, fs !! p = Some (RFile c) /\ sha256_hex c = h
     end /\
     match q_action request with
     | Write content => str_len content <= FILE_EDIT_HARD_MAX_BYTES /\
         exists b, fs' !! p = Some (RFile b) /\ sha256_hex b = local_text_sha256_hex content
     | DeleteFile => fs' !! p = None
     end /\ fs' !! stage_path = None) /\
  (forall e, res = Err e -> fe_kind e <> lit "remote_commit_failed" -> fs' !! p = fs !! p /\ fs' !! stage_path = None).
Proof. by eapply commit_remote_text_file_effect. Qed.

End FileEdit.

(** ** Concrete runs *)

Module FileEditExample.

(** A stand-in for SHA-256 with which the runs can be evaluated. *)
Definition toy_hash (b : bytes) : str := lit "h" ++ show_uint (foldl (fun n d => (n * 31 + d) mod 65536) 7 b).
Definition path : str := lit "/etc/app.conf".
Definition id : str := lit "j1".
Definition disk : gmap str rnode := {[ path := RFile (lit "old") ]}.
(** Another process holds the lock for the first attempt. *)
Definition quiet (payload : bytes) : script_env := {|
  e_parent_exists := true; e_parent_writable := true; e_sha_available := true; e_stage_creatable := true;
  e_stdin := Some payload; e_lock := [(Some 1000, <[path ++ lit ".ssh-mcp-lock" := RDir]>);
                                      (Some 1001, delete (path ++ lit ".ssh-mcp-lock"))];
  e_mkdir_ok := true; e_locked_clock := Some 1001; e_before_check := fun fs => fs;
  e_dst_readable := true; e_before_final := fun fs => fs; e_final_ok := true
|}.
Definition request : FileCommitRequest := {|
  q_remote_path := path; q_action := Write (lit "new"); q_expected := ExpSha256 (toy_hash (lit "old")); q_privilege := User |}.

Lemma quiet_undisturbed b e n : undisturbed (commit_args_for path e n User id) (quiet b).
Proof.
  intros p Hp. assert (Hd : p <> path ++ lit ".ssh-mcp-lock").
  { destruct Hp as [-> | ->]; intros E; vm_compute in E; discriminate E. }
  split; [|by split]. repeat constructor; intros fs; cbn; by rewrite ?lookup_insert_ne, ?lookup_delete_ne.
Qed.

Definition args : commit_args := commit_args_for path (toy_hash (lit "old")) (Some (toy_hash (lit "new"))) User id.
Definition final : RawOut * gmap str rnode :=
  default (conflict_out, ∅) (commit_script toy_hash args (quiet (lit "new")) disk).

Lemma final_eq : commit_script toy_hash args (quiet (lit "new")) disk = Some (final.1, final.2).
Proof. vm_compute. reflexivity. Qed.

(** The holder's lock, found by a call that gives up. *)
Definition held : gmap str rnode := <[path ++ lit ".ssh-mcp-lock" := RDir]> disk.
Definition contended : script_env := {|
  e_parent_exists := true; e_parent_writable := true; e_sha_available := true; e_stage_creatable := true;
  e_stdin := Some (lit "new"); e_lock := repeat (None, fun fs => fs) 30;
  e_mkdir_ok := true; e_locked_clock := Some 1001; e_before_check := fun fs => fs;
  e_dst_readable := true; e_before_final := fun fs => fs; e_final_ok := true
|}.

End FileEditExample.

Lemma commit_remote_text_file_sound_witness :
  exists b, FileEditExample.final.2 !! FileEditExample.path = Some (RFile b) /\
            FileEditExample.toy_hash b = local_text_sha256_hex FileEditExample.toy_hash (lit "new").
Proof.
  refine (proj2 (proj1 (proj2 (proj1 (commit_remote_text_file_sound FileEditExample.toy_hash FileEditExample.request (Ok tt)
    local_io_ok (Ok ok_out) FileEditExample.id (FileEditExample.quiet (lit "new")) None ∅ 60 FileEditExample.disk
    FileEditExample.final.2 (Ok tt) (fun e n => FileEditExample.quiet_undisturbed _ e n) _ _) eq_refl)))).
  - vm_compute. reflexivity.
  - vm_compute. reflexivity.
Defined.

(** The cleanup trap is set before the lock is taken, so a call that gives up
    with [lock_busy] removes the lock directory of the process that holds it:
    after this run the lock is gone although its holder has not released it. *)
Lemma lock_busy_removes_holders_lock :
  exists fs', commit_script FileEditExample.toy_hash FileEditExample.args FileEditExample.contended FileEditExample.held =
      Some (marker_out (lit "lock_busy"), fs') /\
    FileEditExample.held !! lock_dir FileEditExample.args = Some RDir /\
    fs' !! lock_dir FileEditExample.args = None.
Proof. eexists. split; [vm_compute; reflexivity|]. split; vm_compute; reflexivity. Qed.
