(* ===== verification/ApplyPatch.v ===== *)
(** * Applying a patch to remote files (src/server/handlers/apply_patch.rs)

    The handler, against an interface of what the remote file operations
    promise, and the proof that those of [FileEdit] keep the promise. *)
From Stdlib Require Import ZArith String.
From stdpp Require Import base list gmap fin_maps.
From S2P Require Import Prelude Utf8 Errors Validate Patch FileEdit.

(** ** The interface of the remote file operations *)

Class RemoteFiles (W : Type) := {
  load_state : FileEditPrivilege -> str -> W -> result RemoteTextFileState FileEditError;
  commit_file : FileCommitRequest -> W -> result unit FileEditError * W
}.

(** What the handler relies on. [view w p] is the content of the file at [p];
    [hash] is the content hash of the expected-state check, and [apart p q]
    says that an edit of [p] leaves [q] alone. *)
Class RemoteFilesLaws W `{RemoteFiles W} (hash : bytes -> str) (view : W -> str -> option bytes)
    (apart : str -> str -> Prop) : Prop := {
  load_state_view : forall privilege p w s, load_state privilege p w = Ok s ->
    match s with
    | Missing => view w p = None
    | Existing c h => view w p = Some (utf8_encode c) /\ h = hash (utf8_encode c)
    end;
  commit_file_ok : forall request w w', commit_file request w = (Ok tt, w') ->
    match q_action request with
    | Write c => exists b, view w' (q_remote_path request) = Some b /\ hash b = hash (utf8_encode c)
    | DeleteFile => view w' (q_remote_path request) = None
    end;
  commit_file_error : forall request w w' e, commit_file request w = (Err e, w') ->
    fe_kind e <> lit "remote_commit_failed" -> view w' (q_remote_path request) = view w (q_remote_path request);
  commit_file_apart : forall request w r w' q, commit_file request w = (r, w') ->
    apart (q_remote_path request) q -> view w' q = view w q
}.

(** ** The handler *)

Inductive edit_status : Type := NotAttempted | Unchanged | Applied | EditFailed | Unknown.
#[global] Instance edit_status_eq_dec : EqDecision edit_status.
Proof. solve_decision. Defined.

(** An entry of the answer's [files]. *)
Record file_report : Type := { r_path : str; r_operation : str; r_status : edit_status }.

(** The JSON answer; the first two are errors. *)
Inductive patch_answer : Type :=
  | APError (kind message : str)
  | APFailure (kind message path phase : str) (files : list file_report)
  | APSingle (path operation : str)
  | APFiles (files : list file_report).

Definition answer_is_error (a : patch_answer) : bool :=
  match a with APError _ _ | APFailure _ _ _ _ _ => true | _ => false end.

Definition set_status (i : nat) (s : edit_status) (files : list file_report) : list file_report :=
  alter (fun r => {| r_path := r_path r; r_operation := r_operation r; r_status := s |}) i files.

Definition apply_patch_failure (files : list file_report) (index : nat) (phase : str) (error : FileEditError) : patch_answer :=
  if decide (length files = 1%nat) then APError (fe_kind error) (fe_message error)
  else
    let status := if str_eqb phase (lit "commit") && str_eqb (fe_kind error) (lit "remote_commit_failed")
                  then Unknown else EditFailed in
    let files := set_status index status files in
    APFailure (fe_kind error) (fe_message error) (default [] (r_path <$> files !! index)) phase files.

Section Handler.
Context {W : Type} `{RemoteFiles W}.

Definition prepare_file_patch (privilege : FileEditPrivilege) (w : W) (p : FilePatch) :
    result (PlannedPatch * FileExpectedState) FileEditError :=
  let? snapshot := load_state privilege (path p) w in
  let '(original, expected_state) :=
    match snapshot with
    | Missing => (None, ExpMissing)
    | Existing content sha256 => (Some content, ExpSha256 sha256)
    end in
  let? planned := rmap_err (fun e => {| fe_kind := error_kind e; fe_message := patch_error_display e |}) (plan p original) in
  let? _ := reject (match new_content planned with Some c => FILE_EDIT_HARD_MAX_BYTES <? str_len c | None => false end)
      (fe_remote (lit "limit_exceeded") (limit_message (lit "result"))) in
  Ok (planned, expected_state).

(** The first loop: every plan, or the index of the section that fails. *)
Fixpoint preflight (privilege : FileEditPrivilege) (w : W) (index : nat) (patches : list FilePatch) :
    result (list (PlannedPatch * FileExpectedState)) (nat * FileEditError) :=
  match patches with
  | [] => Ok []
  | p :: patches =>
      match prepare_file_patch privilege w p with
      | Err e => Err (index, e)
      | Ok plan => let? plans := preflight privilege w (S index) patches in Ok (plan :: plans)
      end
  end.

Definition commit_request (privilege : FileEditPrivilege) (planned : PlannedPatch) (expected : FileExpectedState) :
    FileCommitRequest := {|
  q_remote_path := planned_path planned;
  q_action := match new_content planned with Some c => Write c | None => DeleteFile end;
  q_expected := expected;
  q_privilege := privilege
|}.

(** The second loop; [fault] is the fault injection of the tests. *)
Fixpoint commit_loop (privilege : FileEditPrivilege) (fault : option (str -> W -> result unit FileEditError * W))
    (index : nat) (prepared : list (PlannedPatch * FileExpectedState)) (files : list file_report) (w : W) :
    result (list file_report) patch_answer * W :=
  match prepared with
  | [] => (Ok files, w)
  | (planned, expected_state) :: prepared =>
      if negb (changed planned) then
        commit_loop privilege fault (S index) prepared (set_status index Unchanged files) w
      else
        match (match fault with Some inject => inject (planned_path planned) w | None => (Ok tt, w) end) with
        | (Err error, w) => (Err (apply_patch_failure files index (lit "commit") error), w)
        | (Ok _, w) =>
            match commit_file (commit_request privilege planned expected_state) w with
            | (Err error, w) => (Err (apply_patch_failure files index (lit "commit") error), w)
            | (Ok _, w) => commit_loop privilege fault (S index) prepared (set_status index Applied files) w
            end
        end
  end.

Definition initial_files (patches : list FilePatch) : list file_report :=
  (fun p => {| r_path := path p; r_operation := kind_as_str (operation_kind p); r_status := NotAttempted |}) <$> patches.

Definition success_answer (files : list file_report) : patch_answer :=
  match files with
  | [f] => APSingle (r_path f) (r_operation f)
  | _ => APFiles files
  end.

Definition execute_apply_patch (patch : str) (fault : option (str -> W -> result unit FileEditError * W))
    (privilege : FileEditPrivilege) (w : W) : patch_answer * W :=
  match parse_patch patch with
  | Err error => (APError (error_kind error) (patch_error_display error), w)
  | Ok patches =>
      let files := initial_files patches in
      match preflight privilege w 0 patches with
      | Err (index, error) => (apply_patch_failure files index (lit "preflight") error, w)
      | Ok prepared =>
          match commit_loop privilege fault 0 prepared files w with
          | (Err answer, w) => (answer, w)
          | (Ok files, w) => (success_answer files, w)
          end
      end
  end.

End Handler.

(** ** The answer is true *)

Section Truth.
Context {W : Type} {hash : bytes -> str} {view : W -> str -> option bytes} {apart : str -> str -> Prop}.
Context `{RF : RemoteFiles W} `{L : !RemoteFilesLaws W hash view apart}.

(** The plan for [p] computed from the text found in [w]. *)
Definition planned_from (w : W) (p : FilePatch) (pl : PlannedPatch) : Prop :=
  exists original, view w (path p) = utf8_encode <$> original /\ plan p original = Ok pl /\ planned_path pl = path p.

Definition installed (w : W) (q : str) (new : option str) : Prop :=
  match new with
  | Some c => exists b, view w q = Some b /\ hash b = hash (utf8_encode c)
  | None => view w q = None
  end.

(** What a status says of a file, from the state found to the state left. *)
Definition status_true (w w' : W) (p : FilePatch) (s : edit_status) : Prop :=
  match s with
  | Applied => exists pl, planned_from w p pl /\ changed pl = true /\ installed w' (path p) (new_content pl)
  | Unchanged => exists pl, planned_from w p pl /\ changed pl = false /\ view w' (path p) = view w (path p)
  | NotAttempted | EditFailed => view w' (path p) = view w (path p)
  | Unknown => True
  end.

Definition entry_true (w w' : W) (p : FilePatch) (f : file_report) : Prop :=
  r_path f = path p /\ r_operation f = kind_as_str (operation_kind p) /\ status_true w w' p (r_status f).

Definition is_done (f : file_report) : Prop := r_status f = Applied \/ r_status f = Unchanged.

(** What an answer says of all the files of the patch. *)
Definition answer_true (w w' : W) (patches : list FilePatch) (a : patch_answer) : Prop :=
  match a with
  | APError kind _ => kind <> lit "remote_commit_failed" -> Forall (fun p => view w' (path p) = view w (path p)) patches
  | APSingle q op => exists p f, patches = [p] /\ q = path p /\ op = kind_as_str (operation_kind p) /\
      entry_true w w' p f /\ is_done f
  | APFiles files => Forall2 (entry_true w w') patches files /\ Forall is_done files
  | APFailure kind _ q phase files => Forall2 (entry_true w w') patches files /\
      exists before f after, files = before ++ f :: after /\ q = r_path f /\
        r_status f = (if str_eqb phase (lit "commit") && str_eqb kind (lit "remote_commit_failed")
                      then Unknown else EditFailed) /\
        Forall (fun f => if str_eqb phase (lit "commit") then is_done f else r_status f = NotAttempted) before /\
        Forall (fun f => r_status f = NotAttempted) after
  end.

Lemma status_true_mono w w1 w2 p s :
  view w2 (path p) = view w1 (path p) -> status_true w w1 p s -> status_true w w2 p s.
Proof.
  intros E. unfold status_true, installed. by destruct s; rewrite ?E.
Qed.

Lemma entry_true_mono w w1 w2 p f :
  view w2 (path p) = view w1 (path p) -> entry_true w w1 p f -> entry_true w w2 p f.
Proof. intros E (? & ? & ?). split_and!; [done..|]. by eapply status_true_mono. Qed.

Lemma initial_entries w w' patches :
  Forall (fun p => view w' (path p) = view w (path p)) patches -> Forall2 (entry_true w w') patches (initial_files patches).
Proof. induction 1; by constructor. Qed.

Lemma initial_not_attempted patches : Forall (fun f => r_status f = NotAttempted) (initial_files patches).
Proof. apply Forall_fmap, Forall_true. done. Qed.

Lemma set_status_middle before f after s :
  set_status (length before) s (before ++ f :: after) =
  before ++ {| r_path := r_path f; r_operation := r_operation f; r_status := s |} :: after.
Proof.
  unfold set_status. rewrite alter_app_r_alt by lia. by rewrite Nat.sub_diag.
Qed.

Lemma prepare_planned privilege w p pl ex :
  prepare_file_patch privilege w p = Ok (pl, ex) -> planned_from w p pl.
Proof.
  unfold prepare_file_patch. destruct (load_state privilege (path p) w) as [s|] eqn:Es; [|done]. cbn [rbind].
  pose proof (load_state_view _ _ _ _ Es) as Hv. intros Hp.
  assert (Hpath : forall cur, plan p cur = Ok pl -> planned_path pl = path p)
    by (intros cur; unfold plan; intros; by res_inv).
  destruct s as [|c h]; destruct (plan p _) as [pl'|] eqn:Ep; cbn [rmap_err rbind] in Hp; res_inv;
    (eexists; split; [|split; [exact Ep|by eapply Hpath]]); [done|by destruct Hv].
Qed.

Lemma preflight_plans privilege w index patches plans :
  preflight privilege w index patches = Ok plans ->
  Forall2 (fun p q => prepare_file_patch privilege w p = Ok q) patches plans.
Proof.
  revert index plans; induction patches as [|p patches IH]; intros index plans; cbn [preflight]; [intros [= <-]; constructor|].
  destruct (prepare_file_patch privilege w p) as [pl|] eqn:Ep; [|done].
  destruct (preflight privilege w (S index) patches) as [r|] eqn:Er; [|done]. intros [= <-].
  constructor; [done|by eapply IH].
Qed.

Lemma preflight_planned privilege w index patches plans :
  preflight privilege w index patches = Ok plans -> Forall2 (fun p q => planned_from w p q.1) patches plans.
Proof.
  intros H%preflight_plans. eapply Forall2_impl; [exact H|]. intros p [pl ex]. apply prepare_planned.
Qed.

Lemma preflight_index privilege w index patches i e :
  preflight privilege w index patches = Err (i, e) ->
  exists before p after, patches = before ++ p :: after /\ i = (index + length before)%nat.
Proof.
  revert index; induction patches as [|p patches IH]; intros index; cbn [preflight]; [done|].
  destruct (prepare_file_patch privilege w p) as [pl|e'].
  - destruct (preflight privilege w (S index) patches) as [|[i' e']] eqn:Er; [done|]. intros [= <- <-].
    destruct (IH _ Er) as (b & q & a & -> & ->). exists (p :: b), q, a. split; [done|]. simpl. lia.
  - intros [= <- <-]. exists [], p, patches. split; [done|]. simpl. lia.
Qed.

(** No two files of the patch share a path, and an edit of one leaves the
    others alone. *)
Definition separate (patches : list FilePatch) : Prop :=
  NoDup (path <$> patches) /\
  forall p q, p ∈ patches -> q ∈ patches -> path p <> path q -> apart (path p) (path q).

Lemma separate_middle before p after q :
  separate (before ++ p :: after) -> q ∈ before ++ after -> apart (path p) (path q).
Proof.
  intros [Hnd Hap] Hq. apply Hap; [set_solver..|]. rewrite fmap_app, fmap_cons in Hnd.
  apply NoDup_app in Hnd as (_ & Hd & [Hn _]%NoDup_cons). intros E. apply elem_of_app in Hq as [Hq|Hq].
  - apply (Hd (path q)); [by apply list_elem_of_fmap_2|]. rewrite E. by left.
  - apply Hn. rewrite E. by apply list_elem_of_fmap_2.
Qed.

Definition entry (p : FilePatch) (s : edit_status) : file_report :=
  {| r_path := path p; r_operation := kind_as_str (operation_kind p); r_status := s |}.

(** The second loop's invariant: the files [before] are dealt with, [todo] is
    as it was found. *)
Record loop_inv (w0 w : W) (before : list FilePatch) (finished : list file_report) (todo : list FilePatch)
    (prepared : list (PlannedPatch * FileExpectedState)) : Prop := {
  li_separate : separate (before ++ todo);
  li_planned : Forall2 (fun p q => planned_from w0 p q.1) todo prepared;
  li_entries : Forall2 (entry_true w0 w) before finished;
  li_done : Forall is_done finished;
  li_same : Forall (fun p => view w (path p) = view w0 (path p)) todo
}.

Definition loop_outcome (w0 w' : W) (patches : list FilePatch) (r : result (list file_report) patch_answer) : Prop :=
  match r with
  | Ok files => Forall2 (entry_true w0 w') patches files /\ Forall is_done files
  | Err a => exists before p after finished e,
      patches = before ++ p :: after /\
      a = apply_patch_failure (finished ++ entry p NotAttempted :: initial_files after) (length finished) (lit "commit") e /\
      Forall2 (entry_true w0 w') before finished /\ Forall is_done finished /\
      Forall (fun p => view w' (path p) = view w0 (path p)) after /\
      (fe_kind e <> lit "remote_commit_failed" -> view w' (path p) = view w0 (path p))
  end.

Lemma loop_inv_step w0 w w1 before finished p todo q prepared s :
  loop_inv w0 w before finished (p :: todo) (q :: prepared) ->
  (forall q, q ∈ before ++ todo -> view w1 (path q) = view w (path q)) ->
  s = Applied \/ s = Unchanged -> status_true w0 w1 p s ->
  loop_inv w0 w1 (before ++ [p]) (finished ++ [entry p s]) todo prepared.
Proof.
  intros [Hsep Hpl Hen Hd Hsame] Hw1 Hs Ht. apply Forall2_cons in Hpl as [_ Hpl].
  apply Forall_cons in Hsame as [_ Hsame].
  split; [by rewrite <- app_assoc|done| | |].
  - apply Forall2_app; [|constructor; [done|constructor]].
    apply Forall2_same_length_lookup. apply Forall2_same_length_lookup in Hen as [Hlen Hen].
    split; [done|]. intros i x y Hx Hy. eapply entry_true_mono; [|by eapply Hen].
    apply Hw1, elem_of_app. left. by eapply list_elem_of_lookup_2.
  - apply Forall_app; split; [done|]. constructor; [done|constructor].
  - apply Forall_forall. intros x Hx. rewrite Hw1 by set_solver. by eapply Forall_forall in Hsame.
Qed.

Lemma loop_inv_failure w0 w w1 before finished p todo q prepared e :
  loop_inv w0 w before finished (p :: todo) (q :: prepared) ->
  (forall q, q ∈ before ++ todo -> view w1 (path q) = view w (path q)) ->
  (fe_kind e <> lit "remote_commit_failed" -> view w1 (path p) = view w (path p)) ->
  loop_outcome w0 w1 (before ++ p :: todo)
    (Err (apply_patch_failure (finished ++ initial_files (p :: todo)) (length before) (lit "commit") e)).
Proof.
  intros I Hw1 He. pose proof (loop_inv_step w0 w w before finished p todo q prepared) as Hstep.
  destruct I as [Hsep Hpl Hen Hd Hsame]. apply Forall_cons in Hsame as [Hp Hsame].
  exists before, p, todo, finished, e. rewrite (Forall2_length _ _ _ Hen). split_and!; [done..| |done| |].
  - apply Forall2_same_length_lookup. apply Forall2_same_length_lookup in Hen as [Hlen Hen].
    split; [done|]. intros i x y Hx Hy. eapply entry_true_mono; [|by eapply Hen].
    apply Hw1, elem_of_app. left. by eapply list_elem_of_lookup_2.
  - apply Forall_forall. intros x Hx. rewrite Hw1 by set_solver. by eapply Forall_forall in Hsame.
  - intros Hk. by rewrite He.
Qed.

Lemma commit_loop_true privilege w0 prepared : forall before finished todo w r w',
  loop_inv w0 w before finished todo prepared ->
  commit_loop privilege None (length before) prepared (finished ++ initial_files todo) w = (r, w') ->
  loop_outcome w0 w' (before ++ todo) r.
Proof.
  induction prepared as [|[pl ex] prepared IH]; intros before finished todo w r w' I Hl; cbn [commit_loop] in Hl.
  { destruct I as [_ Hpl Hen Hd _]. apply Forall2_nil_inv_r in Hpl as ->. simplify_eq. cbn. by rewrite !app_nil_r. }
  pose proof (li_planned _ _ _ _ _ _ I) as (p & todo' & Hp & _ & ->)%Forall2_cons_inv_r.
  pose proof (li_same _ _ _ _ _ _ I) as [Hsame _]%Forall_cons. destruct Hp as (orig & Hv & Hplan & Hpath). cbn [fst] in *.
  pose proof (Forall2_length _ _ _ (li_entries _ _ _ _ _ _ I)) as Hlen.
  assert (Hnext : forall w1 s, (forall q, q ∈ before ++ todo' -> view w1 (path q) = view w (path q)) ->
    s = Applied \/ s = Unchanged -> status_true w0 w1 p s ->
    commit_loop privilege None (S (length before)) prepared
      (set_status (length before) s (finished ++ initial_files (p :: todo'))) w1 = (r, w') ->
    loop_outcome w0 w' (before ++ p :: todo') r).
  { intros w1 s Hw1 Hs Ht Hc. rewrite Hlen in Hc. cbn [initial_files fmap list_fmap] in Hc.
    rewrite set_status_middle in Hc. rewrite (cons_middle _ finished), (app_assoc finished) in Hc.
    rewrite (cons_middle p), app_assoc. replace (S (length finished)) with (length (before ++ [p])) in Hc
      by (rewrite length_app; simpl; lia).
    eapply IH; [|exact Hc]. by eapply loop_inv_step. }
  destruct (changed pl) eqn:Ech; cbn [negb] in Hl.
  2: { apply (Hnext w Unchanged); [done|by right| |exact Hl]. exists pl. split_and!; [|done..]. by exists orig. }
  destruct (commit_file (commit_request privilege pl ex) w) as [[[]|e] w1] eqn:Ec.
  - assert (Hw1 : forall q, q ∈ before ++ todo' -> view w1 (path q) = view w (path q)).
    { intros q Hq. eapply commit_file_apart; [exact Ec|]. cbn. rewrite Hpath.
      eapply separate_middle; [apply I|done]. }
    apply (Hnext w1 Applied); [done|by left| |exact Hl]. exists pl. split_and!; [by exists orig|done|].
    apply commit_file_ok in Ec. cbn in Ec. rewrite Hpath in Ec. unfold installed. by destruct (new_content pl).
  - injection Hl as <- <-. eapply loop_inv_failure; [exact I| |].
    + intros q Hq. eapply commit_file_apart; [exact Ec|]. cbn. rewrite Hpath. eapply separate_middle; [apply I|done].
    + intros Hk. apply commit_file_error in Ec; [|done]. cbn in Ec. by rewrite Hpath in Ec.
Qed.

Lemma failure_answer_true (w0 w' : W) before p after finished phase e :
  Forall2 (entry_true w0 w') before finished ->
  Forall (fun f => if str_eqb phase (lit "commit") then is_done f else r_status f = NotAttempted) finished ->
  Forall (fun p => view w' (path p) = view w0 (path p)) after ->
  (str_eqb phase (lit "commit") && str_eqb (fe_kind e) (lit "remote_commit_failed") = false ->
   view w' (path p) = view w0 (path p)) ->
  answer_true w0 w' (before ++ p :: after)
    (apply_patch_failure (finished ++ entry p NotAttempted :: initial_files after) (length finished) phase e).
Proof.
  intros Hen Hd Hs He. unfold apply_patch_failure. destruct (decide _) as [H1|_].
  - pose proof (Forall2_length _ _ _ Hen) as Hlen. rewrite length_app in H1. cbn in H1.
    destruct finished; [|cbn in H1; lia]. destruct before; [|done].
    destruct after; [|cbn in H1; lia]. cbn. intros Hk. constructor; [|constructor].
    apply He. apply andb_false_iff. right. by apply bool_decide_eq_false.
  - rewrite set_status_middle, lookup_app_r, Nat.sub_diag by lia. cbn [answer_true lookup list_lookup fmap option_fmap option_map default r_path r_operation].
    split.
    + apply Forall2_app; [done|]. constructor; [|by apply initial_entries].
      split_and!; [done..|]. cbn. destruct (_ && _); [done|by apply He].
    + eexists _, _, _. split_and!; [done..|]. apply initial_not_attempted.
Qed.

Lemma success_answer_true w0 w' patches files :
  patches <> [] -> Forall2 (entry_true w0 w') patches files -> Forall is_done files ->
  answer_true w0 w' patches (success_answer files) /\ answer_is_error (success_answer files) = false.
Proof.
  intros Hne Hen Hd. destruct Hen as [|p f ps fs Hp Hen]; [done|].
  destruct Hen as [|p2 f2 ps fs Hp2 Hen]; cbn; [|split; [split; [constructor; [done|by constructor]|done]|done]].
  split; [|done]. pose proof Hp as (Hpath & Hop & _). exists p, f. apply Forall_cons in Hd as [Hd _]. by split_and!.
Qed.

Lemma commit_loop_apart privilege prepared index files (w : W) r w' q :
  Forall (fun x => apart (planned_path x.1) q) prepared ->
  commit_loop privilege None index prepared files w = (r, w') -> view w' q = view w q.
Proof.
  revert index files w; induction prepared as [|[pl ex] prepared IH]; intros index files w Ha Hl; cbn [commit_loop] in Hl.
  { by simplify_eq. }
  apply Forall_cons in Ha as [Ha1 Ha]. destruct (negb (changed pl)); [by eapply IH|].
  destruct (commit_file _ w) as [[[]|e] w1] eqn:Ec; pose proof (commit_file_apart _ _ _ _ q Ec Ha1) as Hq.
  - rewrite <- Hq. by eapply IH.
  - by simplify_eq.
Qed.

(** C2. Every answer of [execute_apply_patch] tells the truth about every
    file of the patch: "applied" files hold the planned content (or are gone),
    computed from the content found at the start; "unchanged" files had
    nothing to change and were not touched; "failed" and "not_attempted" files
    are what they were; a success answer has only applied and unchanged files;
    a failure answer has exactly one failed (or, for an unacknowledged commit,
    unknown) file, everything before it dealt with (commit phase) or not
    attempted (preflight), everything after it not attempted. Files apart from
    those of the patch do not change at all. *)
Theorem execute_apply_patch_truthful (patch : str) (patches : list FilePatch) (privilege : FileEditPrivilege) (w w' : W)
    (a : patch_answer)
    (Hparse : parse_patch patch = Ok patches)
    (Hsep : forall p q, p ∈ patches -> q ∈ patches -> path p <> path q -> apart (path p) (path q))
    (H : execute_apply_patch patch None privilege w = (a, w')) :
  answer_true w w' patches a /\
  (forall q, Forall (fun p => apart (path p) q) patches -> view w' q = view w q).
Proof.
  pose proof (parse_patch_inv _ _ Hparse) as (Hne & Hnd & _). unfold execute_apply_patch in H. rewrite Hparse in H.
  destruct (preflight privilege w 0 patches) as [prepared|[i e]] eqn:Ep.
  - apply preflight_planned in Ep.
    destruct (commit_loop privilege None 0 prepared (initial_files patches) w) as [r w1] eqn:El.
    assert (Hq : forall q, Forall (fun p => apart (path p) q) patches -> view w1 q = view w q).
    { intros q Hq. eapply commit_loop_apart; [|exact El]. apply Forall_forall. intros x Hx.
      apply list_elem_of_lookup in Hx as [k Hk].
      destruct (Forall2_lookup_r _ _ _ _ _ Ep Hk) as (p & Hp & _ & _ & _ & ->).
      eapply Forall_forall in Hq; [exact Hq|]. by eapply list_elem_of_lookup_2. }
    assert (I : loop_inv w w [] [] patches prepared)
      by (split; [by split|done|constructor|constructor|by apply Forall_true]).
    apply (commit_loop_true privilege w prepared [] []) in El; [|exact I]. destruct r as [files|a1]; simplify_eq; (split; [|done]).
    + destruct El as [He Hd]. by apply success_answer_true.
    + destruct El as (b & p & c & f & e & Hps & -> & Hb & Hf & Hc & Hk). cbn in Hps. rewrite Hps.
      apply failure_answer_true; [done..|]. cbn [andb]. intros Hx. apply Hk. intros Hkind.
      rewrite Hkind in Hx. vm_compute in Hx. done.
  - simplify_eq. split; [|done]. apply preflight_index in Ep as (b & p & c & -> & ->). cbn [Nat.add].
    unfold initial_files. rewrite fmap_app, fmap_cons. fold (initial_files b) (initial_files c).
    replace (length b) with (length (initial_files b)) by apply length_fmap.
    apply failure_answer_true; [by apply initial_entries, Forall_true|apply initial_not_attempted|by apply Forall_true|done].
Qed.

Lemma preflight_failed privilege (w : W) index patches ie :
  preflight privilege w index patches = Err ie ->
  Exists (fun p => is_ok (prepare_file_patch privilege w p) = false) patches.
Proof.
  revert index; induction patches as [|p patches IH]; intros index; cbn [preflight]; [done|].
  destruct (prepare_file_patch privilege w p) as [pl|] eqn:Ep; [|left; by rewrite Ep].
  destruct (preflight privilege w (S index) patches) eqn:Er; [done|]. intros [= <-]. right. by eapply IH.
Qed.

(** Every commit of a plan is acknowledged while its file is as it was read. *)
Definition commits_acked privilege (w : W) (patches : list FilePatch) : Prop :=
  forall p pl ex w1, p ∈ patches -> prepare_file_patch privilege w p = Ok (pl, ex) ->
    view w1 (path p) = view w (path p) -> (commit_file (commit_request privilege pl ex) w1).1 = Ok tt.

Lemma commit_loop_acked privilege w todo prepared index files w1 :
  Forall2 (fun p q => prepare_file_patch privilege w p = Ok q) todo prepared -> separate todo ->
  commits_acked privilege w todo -> Forall (fun p => view w1 (path p) = view w (path p)) todo ->
  exists files' w', commit_loop privilege None index prepared files w1 = (Ok files', w') /\ length files' = length files.
Proof.
  intros Hp. revert index files w1; induction Hp as [|p [pl ex] todo prepared Hp _ IH]; intros index files w1 Hsep Hc Hw;
    cbn [commit_loop]; [eauto|].
  apply Forall_cons in Hw as [Hw1 Hw].
  assert (Hsep' : separate todo).
  { destruct Hsep as [Hnd Hap]. split; [by apply NoDup_cons in Hnd as [_ ?]|]. intros; apply Hap; [by right..|done]. }
  assert (Hc' : commits_acked privilege w todo) by (intros q ? ? ? Hq; apply Hc; by right).
  destruct (negb (changed pl)).
  - edestruct (IH (S index)) as (f & w2 & -> & Hl); [done..|]. exists f, w2. split; [done|]. rewrite Hl. apply length_alter.
  - pose proof (Hc p pl ex w1 ltac:(by left) Hp Hw1) as Hok. destruct (prepare_planned _ _ _ _ _ Hp) as (_ & _ & _ & Hpath).
    destruct (commit_file _ w1) as [r w2] eqn:Ec. cbn in Hok. subst r.
    edestruct (IH (S index)) as (f & w3 & -> & Hl); [done..| |exists f, w3; split; [done|]; rewrite Hl; apply length_alter].
    apply Forall_forall. intros q Hq. rewrite <- (proj1 (Forall_forall _ _) Hw q Hq).
    eapply commit_file_apart; [exact Ec|]. cbn. rewrite Hpath. by apply (separate_middle [] p todo).
Qed.

(** Nothing is written unless every section of the patch was read and
    planned; and when all were, the files are separate, and every commit is
    acknowledged while its file is as it was read, the patch succeeds. *)
Theorem execute_apply_patch_preflight (patch : str) (patches : list FilePatch) (privilege : FileEditPrivilege) (w w' : W)
    (a : patch_answer)
    (Hparse : parse_patch patch = Ok patches)
    (H : execute_apply_patch patch None privilege w = (a, w')) :
  (Exists (fun p => is_ok (prepare_file_patch privilege w p) = false) patches -> answer_is_error a = true /\ w' = w) /\
  (Forall (fun p => is_ok (prepare_file_patch privilege w p) = true) patches ->
   (forall p q, p ∈ patches -> q ∈ patches -> path p <> path q -> apart (path p) (path q)) ->
   commits_acked privilege w patches -> answer_is_error a = false).
Proof.
  pose proof (parse_patch_inv _ _ Hparse) as (Hne & Hnd & _). unfold execute_apply_patch in H. rewrite Hparse in H.
  destruct (preflight privilege w 0 patches) as [prepared|[i e]] eqn:Ep.
  - apply preflight_plans in Ep. split.
    + intros He. exfalso. apply Exists_exists in He as (p & Hp & He). apply list_elem_of_lookup in Hp as [k Hk].
      destruct (Forall2_lookup_l _ _ _ _ _ Ep Hk) as (q & _ & Hq). by rewrite Hq in He.
    + intros _ Hap Hc.
      destruct (commit_loop_acked privilege w patches prepared 0 (initial_files patches) w) as (files & w1 & El & Hlen);
        [done|by split|done|by apply Forall_true|].
      rewrite El in H. simplify_eq. by destruct files as [|? []].
  - simplify_eq. split; [intros _; split; [|done]; unfold apply_patch_failure; by destruct (decide _)|].
    intros Hall. exfalso. apply preflight_failed in Ep. apply Exists_exists in Ep as (p & Hp & He).
    eapply Forall_forall in Hall; [|exact Hp]. congruence.
Qed.

End Truth.

(** ** The file operations of [FileEdit] keep the promise *)

(** What the host and the machine the server runs on do in each call. *)
Record host : Type := {
  h_connected : str -> gmap str rnode -> result unit SshMcpError;
  h_io : str -> gmap str rnode -> local_io;
  h_readable : str -> gmap str rnode -> bool;
  h_read_lost : str -> gmap str rnode -> option SshMcpError;
  h_upload : FileCommitRequest -> gmap str rnode -> result RawOut SshMcpError;
  h_job_id : FileCommitRequest -> gmap str rnode -> str;
  h_env : FileCommitRequest -> gmap str rnode -> script_env;
  h_commit_lost : FileCommitRequest -> gmap str rnode -> option SshMcpError;
  h_pending : FileCommitRequest -> gmap str rnode -> gmap str rnode;
  h_timeout : Z
}.

Section FileEditHost.
Context (sha256_hex : bytes -> str) (h : host).

Definition file_view (w : gmap str rnode) (p : str) : option bytes :=
  match w !! p with Some (RFile b) => Some b | _ => None end.

Definition file_apart (p q : str) : Prop :=
  q <> p /\ starts_with (p ++ lit ".ssh-mcp-") q = false /\ starts_with (p ++ lit "/") q = false.

#[local] Instance file_edit_files : RemoteFiles (gmap str rnode) := {
  load_state privilege p w :=
    load_remote_text_file_state sha256_hex privilege (h_connected h p w) (h_io h p w)
      match h_read_lost h p w with
      | Some e => Err e
      | None => Ok (read_script w (h_readable h p w) p FILE_EDIT_HARD_MAX_BYTES)
      end;
  commit_file request w :=
    commit_remote_text_file sha256_hex
      (run_script sha256_hex (h_env h request w) (h_commit_lost h request w) (h_pending h request w) (h_timeout h))
      request (h_connected h (q_remote_path request) w) (h_io h (q_remote_path request) w)
      (h_upload h request w) (h_job_id h request w) w
}.

(** During a commit other processes touch the lock at most, and job ids are
    fresh. *)
Definition host_quiet : Prop :=
  forall request w (p := q_remote_path request),
    (forall q, starts_with (p ++ lit ".ssh-mcp-lock") q = false ->
       Forall (fun e => leaves q e.2) (e_lock (h_env h request w)) /\
       leaves q (e_before_check (h_env h request w)) /\ leaves q (e_before_final (h_env h request w))) /\
    (forall q, file_apart p q -> h_pending h request w !! q = w !! q) /\
    w !! (p ++ lit ".ssh-mcp-stage-" ++ h_job_id h request w) = None.

Lemma not_prefix_of_shorter p x : x <> [] -> starts_with (p ++ x) p = false.
Proof.
  intros Hx. apply not_true_is_false. rewrite starts_with_spec. intros [r E].
  rewrite <- app_assoc in E. by apply app_ne_self in E; [|destruct x].
Qed.

Lemma host_quiet_undisturbed request w e n :
  host_quiet -> undisturbed (commit_args_for (q_remote_path request) e n (q_privilege request) (h_job_id h request w)) (h_env h request w).
Proof.
  intros Hq p Hp. destruct (Hq request w) as [Hl _]. apply Hl. destruct Hp as [-> | ->]; cbn [dst stage commit_args_for].
  - by apply not_prefix_of_shorter.
  - apply not_true_is_false. rewrite starts_with_spec. intros [r E]. rewrite <- app_assoc in E.
    apply app_inv_head in E. vm_compute in E. discriminate E.
Qed.

Lemma file_apart_off p q e n privilege id : file_apart p q -> off_script (commit_args_for p e n privilege id) q.
Proof.
  intros (Hne & H1 & H2).
  assert (Hs : forall x r, x ++ r <> [] -> starts_with (p ++ x) q = false -> q <> p ++ x ++ r).
  { intros x r _ Hx ->. rewrite app_assoc in Hx. apply not_true_iff_false in Hx. apply Hx, starts_with_spec. by exists r. }
  unfold off_script, off_lock, lock_started_path, lock_operation_path, commit_args_for; cbn [dst lock_dir stage].
  rewrite !not_elem_of_cons, <- !app_assoc. split_and!; try done; try (by apply not_elem_of_nil).
  - apply (Hs (lit ".ssh-mcp-") (lit "lock")); [done|exact H1].
  - apply (Hs (lit ".ssh-mcp-") (lit "lock/started_at")); [done|exact H1].
  - apply (Hs (lit ".ssh-mcp-") (lit "lock/operation")); [done|exact H1].
  - apply (Hs (lit ".ssh-mcp-") (lit "stage-" ++ id)); [done|exact H1].
  - apply (Hs (lit "/") _); [done|exact H2].
Qed.

Lemma read_script_cases fs readable p b out :
  read_script fs readable p FILE_EDIT_HARD_MAX_BYTES = (b, out) ->
  (fs !! p = None /\ out = marker_out (lit "not_found")) \/
  (fs !! p = Some (RFile b) /\ out = ok_out) \/
  exists m, m ∈ [lit "not_regular_file"; lit "permission_denied"; lit "too_large"] /\ out = marker_out m.
Proof.
  unfold read_script. destruct (fs !! p) as [[c| |]|]; intros H; simplify_eq.
  - destruct (negb readable); simplify_eq; [right; right; eexists; split; [|done]; set_solver|].
    destruct (_ <? _) eqn:L; simplify_eq; [right; right; eexists; split; [|done]; set_solver|].
    right. left. bool_hyps. rewrite take_ge; [done|]. apply Z.ltb_ge in L. lia.
  - right; right; eexists; split; [|done]; set_solver.
  - right; right; eexists; split; [|done]; set_solver.
  - by left.
Qed.

Lemma load_view privilege p w s : load_state privilege p w = Ok s ->
  match s with
  | Missing => file_view w p = None
  | Existing c h => file_view w p = Some (utf8_encode c) /\ h = sha256_hex (utf8_encode c)
  end.
Proof.
  cbn [load_state file_edit_files]. unfold load_remote_text_file_state, file_view.
  destruct (h_connected h p w), (io_create (h_io h p w)), (io_flush (h_io h p w)), (h_read_lost h p w); try done.
  destruct (read_script _ _ _ _) as [b out] eqn:Er. cbn [rmap_err rbind].
  apply read_script_cases in Er as [[-> ->]|[[-> ->]|(m & Hm & ->)]].
  - intros H. vm_compute in H. by injection H as <-.
  - change (parse_file_edit_error_marker (out_stderr ok_out)) with (@None str).
    change (bool_decide (out_exit ok_out <> Some 0)) with false. cbv iota.
    destruct (io_reopen (h_io h p w)); [|done]. cbn [rmap_err rbind]. destruct (_ <? _); [done|].
    destruct (from_utf8 b) as [c|] eqn:Eb; cbn [rmap_err rbind]; [|done]. intros [= <-].
    apply utf8_encode_from in Eb. by subst b.
  - intros H. exfalso. repeat (apply elem_of_cons in Hm as [->|Hm]; [destruct privilege; vm_compute in H; discriminate H|]).
    by apply elem_of_nil in Hm.
Qed.

#[local] Instance file_edit_laws (Hq : host_quiet) :
  RemoteFilesLaws (gmap str rnode) sha256_hex file_view file_apart.
Proof.
  split.
  - apply load_view.
  - intros request w w' H. cbn [commit_file file_edit_files] in H.
    apply commit_remote_text_file_effect in H as [H _];
      [|intros; by apply host_quiet_undisturbed|by apply (Hq request w)].
    destruct (H eq_refl) as (_ & Ha & _). unfold file_view. destruct (q_action request) as [c|].
    + destruct Ha as (_ & b & -> & Hb). by exists b.
    + by rewrite Ha.
  - intros request w w' e H Hk. cbn [commit_file file_edit_files] in H.
    apply commit_remote_text_file_effect in H as [_ H];
      [|intros; by apply host_quiet_undisturbed|by apply (Hq request w)].
    destruct (H e eq_refl Hk) as [E _]. unfold file_view. by rewrite E.
  - intros request w r w' q H Ha. cbn [commit_file file_edit_files] in H.
    destruct (Hq request w) as (Hl & Hp & _).
    assert (starts_with (q_remote_path request ++ lit ".ssh-mcp-lock") q = false) as Hs.
    { apply not_true_is_false. rewrite starts_with_spec. intros [x ->]. destruct Ha as (_ & Ha & _).
      apply not_true_iff_false in Ha. apply Ha, starts_with_spec. exists (lit "lock" ++ x).
      by rewrite <- !app_assoc. }
    destruct (Hl q Hs) as (? & ? & ?). unfold file_view.
    erewrite commit_remote_text_file_off; [done| |done..| |exact H]; [intros; by apply file_apart_off|by apply Hp].
Qed.

End FileEditHost.

(** ** A concrete run *)

#[global] Instance FilePatch_inhabited : Inhabited FilePatch := populate {| path := []; operation := Delete |}.

Module ApplyPatchExample.

Definition longest (w : gmap str rnode) : nat := list_max (length ∘ fst <$> map_to_list w).
Definition fresh_id (w : gmap str rnode) : str := repeat 106 (S (longest w)).

(** A host where every call goes through. *)
Definition calm : host := {|
  h_connected _ _ := Ok tt; h_io _ _ := local_io_ok; h_readable _ _ := true; h_read_lost _ _ := None;
  h_upload _ _ := Ok ok_out; h_job_id _ w := fresh_id w;
  h_env request _ := {|
    e_parent_exists := true; e_parent_writable := true; e_sha_available := true; e_stage_creatable := true;
    e_stdin := match q_action request with Write c => Some (utf8_encode c) | DeleteFile => None end;
    e_lock := [(None, fun fs => fs)]; e_mkdir_ok := true; e_locked_clock := None;
    e_before_check := fun fs => fs; e_dst_readable := true; e_before_final := fun fs => fs; e_final_ok := true |};
  h_commit_lost _ _ := None; h_pending _ w := w; h_timeout := 60
|}.

Lemma fresh_id_fresh w p : w !! (p ++ lit ".ssh-mcp-stage-" ++ fresh_id w) = None.
Proof.
  destruct (w !! _) as [n|] eqn:E; [|done]. apply elem_of_map_to_list in E.
  assert (H : (length (p ++ lit ".ssh-mcp-stage-" ++ fresh_id w) <= longest w)%nat).
  { unfold longest. apply (list_elem_of_fmap_2 (length ∘ fst)) in E. apply list_elem_of_In in E.
    assert (G := proj1 (list_max_le _ _) (Nat.le_refl (list_max (length ∘ fst <$> map_to_list w)))).
    rewrite List.Forall_forall in G. by apply G in E. }
  exfalso. rewrite !length_app in H. unfold fresh_id in H. rewrite repeat_length in H. lia.
Qed.

Lemma calm_quiet : host_quiet calm.
Proof.
  intros request w p. split_and!; [|done|apply fresh_id_fresh].
  intros q _. split_and!; [repeat constructor|done..]; intros fs; done.
Qed.

Definition toy := FileEditExample.toy_hash.
Definition disk : gmap str rnode := {[ lit "/a" := RFile (lit "x" ++ [NL]) ]}.
Definition patch : str := print_patch
  [ {| path := lit "/a"; operation := Update [ {| anchor := None; old_lines := [lit "x"]; new_lines := [lit "y"] |} ] |};
    {| path := lit "/b"; operation := Add (lit "z" ++ [NL]) |} ].
Definition patches : list FilePatch := match parse_patch patch with Ok ps => ps | Err _ => [] end.
Definition run : patch_answer * gmap str rnode :=
  execute_apply_patch (H := file_edit_files toy calm) patch None User disk.

End ApplyPatchExample.

Lemma execute_apply_patch_truthful_witness :
  ApplyPatchExample.run.1 =
    APFiles [ {| r_path := lit "/a"; r_operation := lit "update"; r_status := Applied |};
              {| r_path := lit "/b"; r_operation := lit "add"; r_status := Applied |} ] /\
  ApplyPatchExample.run.2 !! lit "/a" = Some (RFile (lit "y" ++ [NL])) /\
  answer_true (hash := ApplyPatchExample.toy) (view := file_view) ApplyPatchExample.disk ApplyPatchExample.run.2
    ApplyPatchExample.patches ApplyPatchExample.run.1.
Proof.
  split; [vm_compute; reflexivity|]. split; [vm_compute; reflexivity|].
  refine (proj1 (execute_apply_patch_truthful (apart := file_apart)
    (L := file_edit_laws ApplyPatchExample.toy ApplyPatchExample.calm ApplyPatchExample.calm_quiet)
    ApplyPatchExample.patch ApplyPatchExample.patches User ApplyPatchExample.disk _ _ _ _ _)).
  - vm_compute. reflexivity.
  - assert (ApplyPatchExample.patches = [ApplyPatchExample.patches !!! 0%nat; ApplyPatchExample.patches !!! 1%nat]) as ->
      by (vm_compute; reflexivity).
    intros p q Hp Hq. rewrite !elem_of_cons in Hp, Hq.
    destruct Hp as [->|[->|Hp]]; [..|by apply elem_of_nil in Hp];
      (destruct Hq as [->|[->|Hq]]; [..|by apply elem_of_nil in Hq]); intros Hne; try done;
      (split_and!; [vm_compute; done..]).
  - vm_compute. reflexivity.
Defined.

(** The simplest implementation of the interface: a store that never fails. *)
Module PlainStore.

Notation store := (gmap str str) (only parsing).

#[export] Instance store_files : RemoteFiles store := {
  load_state _ p w := Ok match w !! p with Some c => Existing c (utf8_encode c) | None => Missing end;
  commit_file request w := (Ok tt, match q_action request with
                                   | Write c => <[q_remote_path request := c]> w
                                   | DeleteFile => delete (q_remote_path request) w end)
}.

Definition store_view (w : store) (p : str) : option bytes := utf8_encode <$> w !! p.

#[export] Instance store_laws : RemoteFilesLaws store id store_view (fun p q => q <> p).
Proof.
  split; unfold store_view; cbn.
  - intros _ p w s [= <-]. by destruct (w !! p).
  - intros request w w' [= <-]. destruct (q_action request); cbn; [eexists; by rewrite lookup_insert_eq|by rewrite lookup_delete_eq].
  - by intros request w w' e [=].
  - intros request w r w' q [= _ <-] Hq. destruct (q_action request); by rewrite ?lookup_insert_ne, ?lookup_delete_ne.
Qed.

Definition before : store := {[ lit "/a" := lit "x" ++ [NL] ]}.
(** The second section names a file that does not exist. *)
Definition bad_patch : str := print_patch
  [ {| path := lit "/a"; operation := Delete |}; {| path := lit "/b"; operation := Delete |} ].
Definition bad_patches : list FilePatch := match parse_patch bad_patch with Ok ps => ps | Err _ => [] end.
Definition run : patch_answer * store := execute_apply_patch bad_patch None User before.

End PlainStore.

Lemma execute_apply_patch_preflight_witness :
  answer_is_error PlainStore.run.1 = true /\ PlainStore.run.2 = PlainStore.before.
Proof.
  refine (proj1 (execute_apply_patch_preflight (L := PlainStore.store_laws)
    PlainStore.bad_patch PlainStore.bad_patches User PlainStore.before PlainStore.run.2 PlainStore.run.1 _ _) _).
  - vm_compute. reflexivity.
  - vm_compute. reflexivity.
  - assert (PlainStore.bad_patches = [PlainStore.bad_patches !!! 0%nat; PlainStore.bad_patches !!! 1%nat]) as ->
      by (vm_compute; reflexivity).
    right. left. vm_compute. reflexivity.
Defined.
