(* ===== verification/Output.v ===== *)
(** * Collecting a command's output (src/ssh/command.rs)

    The bounded collection of an exec channel, of the [su] terminal and of the
    standard error of raw transfers. A run against a channel is a run over the
    list of its messages; [None] stands for a panic at a string slice that is
    not at a character boundary. *)
From Stdlib Require Import ZArith String.
From stdpp Require Import base list.
From S2P Require Import Prelude Errors Utf8 Channel.

Record CommandOutput : Type := {
  stdout : str;
  stderr : str;
  exit_code : option Z;
  stdout_truncated : bool;
  stderr_truncated : bool;
  stdout_total_tokens : Z;
  stderr_total_tokens : Z
}.

Definition success (o : CommandOutput) : bool :=
  match exit_code o with Some code => code =? 0 | None => false end.

Definition combined_output (o : CommandOutput) : str :=
  if str_eqb (stderr o) [] then stdout o
  else if str_eqb (stdout o) [] then stderr o
  else stdout o ++ [NL] ++ stderr o.

(** ** Byte positions in strings *)

(** [(&s[..n], &s[n..])]; [None] when [n] is not a character boundary. *)
Fixpoint split_at_byte (n : Z) (s : str) : option (str * str) :=
  if n =? 0 then Some ([], s)
  else match s with
       | [] => None
       | c :: s =>
           if n <? utf8_len c then None
           else '(a, b) ← split_at_byte (n - utf8_len c) s; Some (c :: a, b)
       end.

Definition is_char_boundary (s : str) (n : Z) : bool := bool_decide (is_Some (split_at_byte n s)).

(** The position of the last boundary at or before [n]. *)
Fixpoint back_to_boundary (s : str) (n : nat) : nat :=
  match n with
  | O => O
  | S n' => if is_char_boundary s (Z.of_nat n) then n else back_to_boundary s n'
  end.

Definition utf8_prefix_len (input : str) (max_bytes : Z) : Z :=
  if str_len input <=? max_bytes then str_len input
  else Z.of_nat (back_to_boundary input (Z.to_nat max_bytes)).

(** The byte positions at which characters start. *)
Fixpoint char_indices (from : Z) (s : str) : list Z :=
  match s with
  | [] => []
  | c :: s => from :: char_indices (from + utf8_len c) s
  end.

(** ** Raw streaming: the bounded standard error *)

Definition RAW_STREAM_BYTES_PER_TOKEN : Z := 4.
Definition RAW_STREAM_STDERR_HARD_MAX_BYTES : Z := 1024 * 1024.

Definition resolve_raw_stream_stderr_limit (max_output_tokens : option Z) : Z :=
  let bytes := match max_output_tokens with
               | Some tokens => if tokens * RAW_STREAM_BYTES_PER_TOKEN <=? U64_MAX
                                then Some (tokens * RAW_STREAM_BYTES_PER_TOKEN) else None
               | None => None
               end in
  let bytes := match bytes with Some b => if 0 <? b then Some b else None | None => None end in
  Z.min (default RAW_STREAM_STDERR_HARD_MAX_BYTES bytes) RAW_STREAM_STDERR_HARD_MAX_BYTES.

(** The new text and whether it was cut. *)
Definition append_bounded_lossy_stderr (stderr : str) (chunk : bytes) (max_len : Z) : option (str * bool) :=
  if max_len <=? str_len stderr then Some (stderr, true)
  else
    let chunk_str := from_utf8_lossy chunk in
    let remaining := saturating_sub max_len (str_len stderr) in
    if str_len chunk_str <=? remaining then Some (stderr ++ chunk_str, false)
    else
      let n := utf8_prefix_len chunk_str remaining in
      if 0 <? n then '(a, _) ← split_at_byte n chunk_str; Some (stderr ++ a, true)
      else Some (stderr, true).

(** ** The bounded collection of an exec channel *)

Definition BYTES_PER_TOKEN : Z := 4.
Definition TAIL_BYTES : Z := 512.

Definition push_tail (buf chunk : str) : option str :=
  if str_eqb chunk [] then Some buf
  else
    let buf := buf ++ chunk in
    if TAIL_BYTES <? str_len buf then
      let safe_start := back_to_boundary buf (Z.to_nat (str_len buf - TAIL_BYTES)) in
      if (0 <? safe_start)%nat then snd <$> split_at_byte (Z.of_nat safe_start) buf else Some buf
    else Some buf.

(** What is kept of one of the two streams. *)
Record stream_acc : Type := {
  text : str;
  truncated : bool;
  reported_tokens : Z;
  total_tokens : Z;
  tail_text : str
}.
Definition stream_acc_new : stream_acc :=
  {| text := []; truncated := false; reported_tokens := 0; total_tokens := 0; tail_text := [] |}.

Definition truncation_notice (total : Z) : str :=
  [NL] ++ lit "[Output truncated: " ++ show_uint total ++ lit " tokens total]" ++
  [NL] ++ lit "[Tip: Use 'head -n 100' for first lines, 'tail -n 100' for last lines]" ++
  [NL] ++ lit "[Tip: For large output use SFTP/SCP tools to download files]".

Definition count_tokens (acc : stream_acc) (data : bytes) : stream_acc := {|
  text := text acc; truncated := truncated acc; reported_tokens := reported_tokens acc;
  total_tokens := saturating_add U64_MAX (total_tokens acc) (Z.of_nat (length data) / BYTES_PER_TOKEN);
  tail_text := tail_text acc
|}.

(** A chunk for a limited stream, its tokens already counted. *)
Definition push_limited (max_bytes : option Z) (acc : stream_acc) (data_str : str) : option stream_acc :=
  let add t := {| text := text acc ++ t; truncated := truncated acc; reported_tokens := reported_tokens acc;
                  total_tokens := total_tokens acc; tail_text := tail_text acc |} in
  match max_bytes with
  | None => Some (add data_str)
  | Some limit =>
      let current_len := str_len (text acc) in
      if limit <? saturating_add U64_MAX current_len (str_len data_str) then
        if truncated acc then
          t ← push_tail (tail_text acc) data_str;
          Some {| text := text acc; truncated := true; reported_tokens := reported_tokens acc;
                  total_tokens := total_tokens acc; tail_text := t |}
        else
          let remaining := saturating_sub limit current_len in
          let safe_end := default (str_len data_str) (head (filter (fun i => remaining < i) (char_indices 0 data_str))) in
          let take := if 0 <? remaining then Z.min safe_end remaining else 0 in
          '(a, b) ← split_at_byte take data_str;
          t ← push_tail (tail_text acc) b;
          Some {| text := text acc ++ a ++ truncation_notice (total_tokens acc); truncated := true;
                  reported_tokens := total_tokens acc; total_tokens := total_tokens acc; tail_text := t |}
      else Some (add data_str)
  end.

Record collect_state : Type := { c_out : stream_acc; c_err : stream_acc; c_exit : option Z }.

Definition collect_msg (max_bytes : option Z) (st : collect_state) (m : ChannelMsg) : option collect_state :=
  match m with
  | Data data =>
      o ← push_limited max_bytes (count_tokens (c_out st) data) (from_utf8_lossy data);
      Some {| c_out := o; c_err := c_err st; c_exit := c_exit st |}
  | ExtendedData ext data =>
      let e := count_tokens (c_err st) data in
      if ext =? 1 then
        e ← push_limited max_bytes e (from_utf8_lossy data);
        Some {| c_out := c_out st; c_err := e; c_exit := c_exit st |}
      else
        o ← push_limited None (c_out st) (from_utf8_lossy data);
        Some {| c_out := o; c_err := e; c_exit := c_exit st |}
  | ExitStatus code => Some {| c_out := c_out st; c_err := c_err st; c_exit := Some code |}
  | ExitSignal s => Some {| c_out := c_out st; c_err := c_err st; c_exit := Some (signal_exit_code s) |}
  | Close | Eof | Failure | OtherMsg => Some st
  end.

Definition finish_stream (acc : stream_acc) : str * Z :=
  (text acc ++ (if truncated acc && negb (str_eqb (tail_text acc) []) then [NL] ++ tail_text acc else []),
   if reported_tokens acc =? 0 then total_tokens acc else reported_tokens acc).

Definition collect_channel_output (max_output_tokens : option Z) (messages : list ChannelMsg) :
    option (result CommandOutput SshMcpError) :=
  let max_bytes := (fun tokens => saturating_mul U64_MAX tokens BYTES_PER_TOKEN) <$> max_output_tokens in
  st ← foldl (fun st m => s ← st; collect_msg max_bytes s m)
         (Some {| c_out := stream_acc_new; c_err := stream_acc_new; c_exit := None |}) messages;
  Some match c_exit st with
       | None => Err (Connection (lit "SSH channel closed without exit status (session may have been torn down)"))
       | Some code =>
           Ok {| stdout := (finish_stream (c_out st)).1; stderr := (finish_stream (c_err st)).1; exit_code := Some code;
                 stdout_truncated := truncated (c_out st); stderr_truncated := truncated (c_err st);
                 stdout_total_tokens := (finish_stream (c_out st)).2; stderr_total_tokens := (finish_stream (c_err st)).2 |}
       end.

(** ** Properties of byte positions *)

Lemma str_len_cons c s : str_len (c :: s) = utf8_len c + str_len s.
Proof. done. Qed.

Lemma split_at_byte_Some n s a b : split_at_byte n s = Some (a, b) <-> s = a ++ b /\ str_len a = n.
Proof.
  revert n a; induction s as [|c s IH]; intros n a; cbn [split_at_byte].
  - destruct (n =? 0) eqn:En; bool_hyps.
    + split; [intros [= <- <-]; by split|]. intros [H H2]. symmetry in H. by apply app_eq_nil in H as [-> ->].
    + split; [done|]. intros [H <-]. symmetry in H. apply app_eq_nil in H as [-> ->]. done.
  - pose proof (utf8_len_bounds c) as Hc. destruct (n =? 0) eqn:En; bool_hyps.
    + subst. split; [intros [= <- <-]; by split|]. intros [H H2]. destruct a as [|x a]; [by simpl in H; subst b|].
      cbn in H. simplify_eq. rewrite str_len_cons in H2. pose proof (str_len_nonneg a). lia.
    + destruct (n <? utf8_len c) eqn:Ec; bool_hyps.
      * split; [done|]. intros [H H2]. destruct a as [|x a]; [done|]. cbn in H. simplify_eq.
        rewrite str_len_cons in Ec. pose proof (str_len_nonneg a). lia.
      * split.
        -- intros H. destruct (split_at_byte (n - utf8_len c) s) as [[a' b']|] eqn:E; [|done].
           cbn in H. injection H as <- <-. apply IH in E as [-> E]. split; [done|].
           rewrite str_len_cons. lia.
        -- intros [H H2]. destruct a as [|x a]; [done|]. cbn in H. simplify_eq.
           assert (E : split_at_byte (str_len (x :: a) - utf8_len x) (a ++ b) = Some (a, b)).
           { apply IH. split; [done|]. rewrite str_len_cons. lia. }
           by rewrite E.
Qed.

Lemma is_char_boundary_spec s n : is_char_boundary s n = true <-> exists a b, s = a ++ b /\ str_len a = n.
Proof.
  unfold is_char_boundary. rewrite bool_decide_eq_true. split.
  - intros [[a b] H]. apply split_at_byte_Some in H. eauto.
  - intros (a & b & H). exists (a, b). by apply split_at_byte_Some.
Qed.

Lemma is_char_boundary_app s t n : is_char_boundary s n = true -> is_char_boundary (s ++ t) n = true.
Proof.
  rewrite !is_char_boundary_spec. intros (a & b & -> & <-). exists a, (b ++ t). by rewrite app_assoc.
Qed.

(** Stepping back finds the last boundary: at most three bytes away. *)
Lemma back_to_boundary_spec s n :
  (back_to_boundary s n <= n)%nat /\ is_char_boundary s (Z.of_nat (back_to_boundary s n)) = true /\
  (forall m, is_char_boundary s (Z.of_nat m) = true -> (m <= n)%nat -> (m <= back_to_boundary s n)%nat).
Proof.
  induction n as [|n (IH1 & IH2 & IH3)]; cbn [back_to_boundary].
  - split_and!; [done| |lia]. apply is_char_boundary_spec. by exists [], s.
  - destruct (is_char_boundary s (Z.of_nat (S n))) eqn:E; [split_and!; [done..|lia]|].
    split_and!; [lia|done|]. intros m Hm Hle. destruct (decide (m = S n)) as [->|]; [congruence|]. apply IH3; [done|lia].
Qed.

Lemma boundary_near s n :
  0 <= n <= str_len s -> exists m, is_char_boundary s m = true /\ 0 <= m <= n /\ n - m <= 3.
Proof.
  revert n; induction s as [|c s IH]; intros n Hn.
  - exists 0. unfold str_len in Hn. cbn in Hn. split; [|lia]. apply is_char_boundary_spec. by exists [], [].
  - pose proof (utf8_len_bounds c). destruct (decide (n < utf8_len c)) as [Hlt|Hge].
    + exists 0. split; [|lia]. apply is_char_boundary_spec. by exists [], (c :: s).
    + destruct (IH (n - utf8_len c)) as (m & Hm & ? & ?); [unfold str_len in *; cbn [foldr] in Hn; lia|].
      exists (utf8_len c + m). split; [|lia]. apply is_char_boundary_spec in Hm as (a & b & -> & <-).
      apply is_char_boundary_spec. exists (c :: a), b. by unfold str_len.
Qed.

Lemma back_to_boundary_near s n :
  Z.of_nat n <= str_len s -> Z.of_nat n - Z.of_nat (back_to_boundary s n) <= 3.
Proof.
  intros H. destruct (boundary_near s (Z.of_nat n)) as (m & Hm & ? & ?); [lia|].
  destruct (back_to_boundary_spec s n) as (_ & _ & Hmax).
  specialize (Hmax (Z.to_nat m)). rewrite Z2Nat.id in Hmax by lia. specialize (Hmax Hm). lia.
Qed.

Lemma push_tail_spec buf chunk :
  exists t p, push_tail buf chunk = Some t /\ buf ++ chunk = p ++ t /\ (str_len buf <= TAIL_BYTES + 3 -> str_len t <= TAIL_BYTES + 3).
Proof.
  unfold push_tail. destruct (str_eqb chunk []) eqn:E.
  { apply str_eqb_spec in E as ->. exists buf, []. by rewrite app_nil_r. }
  destruct (TAIL_BYTES <? str_len (buf ++ chunk)) eqn:L; bool_hyps.
  2: { exists (buf ++ chunk), []. split_and!; [done..|]. intros _. unfold TAIL_BYTES in *. lia. }
  set (s := buf ++ chunk) in *. set (n := Z.to_nat (str_len s - TAIL_BYTES)).
  pose proof (back_to_boundary_near s n ltac:(unfold n, TAIL_BYTES in *; lia)) as Hn.
  destruct (back_to_boundary_spec s n) as (_ & Hb & _).
  destruct (0 <? back_to_boundary s n)%nat eqn:Z0.
  - apply is_char_boundary_spec in Hb as (a & b & Hs & Ha).
    assert (E2 : split_at_byte (Z.of_nat (back_to_boundary s n)) s = Some (a, b)) by (by apply split_at_byte_Some).
    exists b, a. rewrite E2. split_and!; [done..|]. intros _.
    assert (str_len s = str_len a + str_len b) by (by rewrite Hs, str_len_app). unfold n, TAIL_BYTES in *. lia.
  - apply Nat.ltb_ge in Z0. exists s, []. split_and!; [done..|]. intros _. unfold n, TAIL_BYTES in *. lia.
Qed.

(** ** The bounded collection *)

Definition within (limit : option Z) (n : Z) : Prop := match limit with None => True | Some l => n <= l end.

(** The limit falls inside a character of the text. *)
Definition cut_inside (limit : option Z) (seen : str) : Prop :=
  match limit with None => False | Some l => l < str_len seen /\ is_char_boundary seen l = false end.

(** What is kept of the text [seen] under a limit: all of it; or exactly the
    first [limit] bytes, the notice, and the end of the rest. *)
Definition kept_of (limit : option Z) (seen kept_text tail : str) (cut : bool) (reported : Z) : Prop :=
  if cut then
    exists l kept rest dropped, limit = Some l /\ seen = kept ++ rest /\ str_len kept = l /\ rest <> [] /\
      kept_text = kept ++ truncation_notice reported /\ rest = dropped ++ tail /\ str_len tail <= TAIL_BYTES + 3
  else kept_text = seen /\ tail = [] /\ within limit (str_len seen).

Definition acc_inv (limit : option Z) (seen : str) (acc : stream_acc) : Prop :=
  kept_of limit seen (text acc) (tail_text acc) (truncated acc) (reported_tokens acc) /\
  (truncated acc = false -> reported_tokens acc = 0).

Definition sound_limit (limit : option Z) : Prop := match limit with None => True | Some l => 0 <= l < U64_MAX end.

Lemma notice_pos t : 0 < str_len (truncation_notice t).
Proof.
  unfold truncation_notice. rewrite (str_len_app [NL]). change (str_len [NL]) with 1.
  match goal with |- 0 < 1 + ?x => pose proof (str_len_nonneg _ : 0 <= x) end. lia.
Qed.

Lemma boundary_app_r s t n : 0 <= n -> is_char_boundary (s ++ t) (str_len s + n) = is_char_boundary t n.
Proof.
  intros Hn. apply eq_true_iff_eq. rewrite !is_char_boundary_spec. split.
  - induction s as [|c s IH]; [by change (str_len []) with 0|]. intros (x & y & E & Hx).
    rewrite str_len_cons in Hx. destruct x as [|c' x].
    + pose proof (utf8_len_bounds c). pose proof (str_len_nonneg s). change (str_len []) with 0 in Hx. lia.
    + cbn in E. injection E as <- E. apply IH. exists x, y. split; [done|]. rewrite str_len_cons in Hx. lia.
  - intros (a & b & -> & <-). exists (s ++ a), b. by rewrite <- app_assoc, str_len_app.
Qed.

Lemma first_index_beyond from s (P : Z -> Prop) `{!forall x, Decision (P x)} i :
  head (filter P (char_indices from s)) = Some i -> P i.
Proof.
  intros Hh. destruct (filter P (char_indices from s)) as [|x l] eqn:E; [done|]. injection Hh as ->.
  assert (Hx : i ∈ filter P (char_indices from s)) by (rewrite E; by left). by apply list_elem_of_filter in Hx as [? _].
Qed.

(** The scan for a safe end stops at the first position beyond the limit, so
    what is taken is always exactly what remains of the limit. *)
Lemma take_is_remaining remaining d :
  0 <= remaining < str_len d ->
  (if 0 <? remaining then
     Z.min (default (str_len d) (head (filter (fun i => remaining < i) (char_indices 0 d)))) remaining
   else 0) = remaining.
Proof.
  intros Hr. destruct (0 <? remaining) eqn:E0; bool_hyps; [|lia]. apply Z.min_r.
  destruct (head _) as [i|] eqn:Eh; cbn; [|lia]. apply first_index_beyond in Eh. lia.
Qed.

Lemma acc_inv_no_cut limit seen acc : acc_inv limit seen acc -> ~ cut_inside limit seen.
Proof.
  intros [Hk _]. destruct limit as [l|]; [|by intros []]. cbn. intros [Hl Hb]. destruct (truncated acc).
  - destruct Hk as (l' & kept & rest & _ & [= <-] & -> & Hlen & _). apply not_true_iff_false in Hb.
    apply Hb, is_char_boundary_spec. by exists kept, rest.
  - destruct Hk as (_ & _ & Hw). cbn in Hw. lia.
Qed.

Lemma cut_inside_app limit s t : cut_inside limit s -> cut_inside limit (s ++ t).
Proof.
  destruct limit as [l|]; [|by intros []]. cbn. intros [Hl Hb]. rewrite str_len_app. pose proof (str_len_nonneg t).
  split; [lia|]. apply not_true_iff_false. rewrite is_char_boundary_spec. intros (a & b & E & Ha).
  apply not_true_iff_false in Hb. apply Hb, is_char_boundary_spec.
  apply app_eq_inv in E as [(k & -> & _)|(k & -> & _)]; [by exists a, k|].
  rewrite str_len_app in Ha. pose proof (str_len_nonneg k). lia.
Qed.

(** The first chunk beyond the limit: cut at the limit, or a panic there. *)
Lemma first_cut l seen acc d (take := saturating_sub l (str_len seen)) :
  acc_inv (Some l) seen acc -> truncated acc = false -> l < str_len seen + str_len d ->
  match split_at_byte take d with
  | Some (a, b) => exists t, push_tail (tail_text acc) b = Some t /\
      kept_of (Some l) (seen ++ d) (seen ++ a ++ truncation_notice (total_tokens acc)) t true (total_tokens acc)
  | None => cut_inside (Some l) (seen ++ d)
  end.
Proof.
  intros [Hk _] Et Hlt. rewrite Et in Hk. destruct Hk as (_ & Htail & Hw). cbn in Hw.
  assert (Ht : take = l - str_len seen) by (unfold take, saturating_sub; lia).
  destruct (split_at_byte take d) as [[a b]|] eqn:Es.
  - apply split_at_byte_Some in Es as [-> Ha].
    destruct (push_tail_spec (tail_text acc) b) as (t & p & -> & Ep & Hpl). exists t. split; [done|].
    exists l, (seen ++ a), b, p. rewrite Htail in *. split_and!; try done.
    + by rewrite <- app_assoc.
    + rewrite str_len_app. lia.
    + intros ->. rewrite app_nil_r in Hlt. lia.
    + by rewrite <- app_assoc.
    + apply Hpl. unfold TAIL_BYTES. change (str_len []) with 0. lia.
  - split; [rewrite str_len_app; lia|].
    replace l with (str_len seen + take) by lia. rewrite boundary_app_r by lia.
    unfold is_char_boundary. rewrite Es. by apply bool_decide_eq_false; intros [? [=]].
Qed.

(** A chunk arrives: it is recorded, or the cut panics. *)
Lemma push_limited_step limit seen acc d :
  sound_limit limit -> acc_inv limit seen acc ->
  match push_limited limit acc d with
  | Some acc' => acc_inv limit (seen ++ d) acc'
  | None => cut_inside limit (seen ++ d)
  end.
Proof.
  intros Hl Hinv. pose proof Hinv as [Hk Hr]. unfold push_limited. destruct limit as [l|].
  2: { destruct (truncated acc) eqn:Et; [by destruct Hk as (? & ? & ? & ? & ? & _)|].
       destruct Hk as (Hk & Ht & _). unfold acc_inv, kept_of. cbn. rewrite ?Et.
       split; [|done]. split_and!; [by rewrite Hk|done|done]. }
  cbn in Hl. pose proof (str_len_nonneg d). destruct (truncated acc) eqn:Et.
  - destruct Hk as (l' & kept & rest & dropped & [= <-] & -> & Hlen & Hne & Htext & -> & Htail).
    assert ((l <? saturating_add U64_MAX (str_len (text acc)) (str_len d)) = true) as ->.
    { pose proof (notice_pos (reported_tokens acc)). rewrite Htext, str_len_app. unfold saturating_add.
      apply Z.ltb_lt. lia. }
    destruct (push_tail_spec (tail_text acc) d) as (t & p & -> & Ep & Hpl). split; [|done].
    exists l, kept, ((dropped ++ tail_text acc) ++ d), (dropped ++ p).
    split_and!; [done|by rewrite <- app_assoc|done| |done|by rewrite <- !app_assoc, Ep|by apply Hpl].
    by destruct dropped; [destruct (tail_text acc)|].
  - destruct Hk as (Htext & Htail & Hw). rewrite Htext.
    destruct (l <? saturating_add U64_MAX (str_len seen) (str_len d)) eqn:L.
    + assert (Hlt : l < str_len seen + str_len d) by (unfold saturating_add in L; bool_hyps; lia).
      cbn in Hw. rewrite take_is_remaining by (unfold saturating_sub; lia).
      pose proof (first_cut l seen acc d Hinv Et Hlt) as Hc.
      destruct (split_at_byte _ d) as [[a b]|]; [|done]. cbn. destruct Hc as (t & -> & Hc). by split.
    + unfold acc_inv, kept_of. cbn. rewrite ?Et. split; [|done]. split_and!; [done|done|].
      cbn. rewrite str_len_app. unfold saturating_add in L; bool_hyps; lia.
Qed.

(** ** A whole run *)

(** What the messages carry for each stream, each chunk decoded on its own. *)
Definition out_text (m : ChannelMsg) : str :=
  match m with
  | Data d => from_utf8_lossy d
  | ExtendedData ext d => if ext =? 1 then [] else from_utf8_lossy d
  | _ => []
  end.
Definition err_text (m : ChannelMsg) : str :=
  match m with ExtendedData ext d => if ext =? 1 then from_utf8_lossy d else [] | _ => [] end.
Definition exit_report (m : ChannelMsg) : option Z :=
  match m with ExitStatus c => Some c | ExitSignal s => Some (signal_exit_code s) | _ => None end.
Definition last_exit (ms : list ChannelMsg) : option Z := last (omap exit_report ms).

(** Extended data of any other type than standard error bypasses the limit. *)
Definition only_stderr (m : ChannelMsg) : Prop := match m with ExtendedData ext _ => ext = 1 | _ => True end.

Definition run_inv (limit : option Z) (o e : str) (x : option Z) (st : collect_state) : Prop :=
  acc_inv limit o (c_out st) /\ acc_inv limit e (c_err st) /\ c_exit st = x.

Lemma count_tokens_inv limit seen acc d : acc_inv limit seen acc -> acc_inv limit seen (count_tokens acc d).
Proof. done. Qed.

Lemma collect_step limit o e x st m :
  sound_limit limit -> (limit <> None -> only_stderr m) -> run_inv limit o e x st ->
  match collect_msg limit st m with
  | Some st' => run_inv limit (o ++ out_text m) (e ++ err_text m)
                  (match exit_report m with Some c => Some c | None => x end) st'
  | None => cut_inside limit (o ++ out_text m) \/ cut_inside limit (e ++ err_text m)
  end.
Proof.
  intros Hl Hs (Io & Ie & <-). destruct m as [d|ext d|c|sg| | | |]; cbn [collect_msg out_text err_text exit_report].
  3-8: by split_and!; cbn; rewrite ?app_nil_r.
  - pose proof (push_limited_step limit _ _ (from_utf8_lossy d) Hl (count_tokens_inv _ _ _ d Io)) as Hp.
    destruct (push_limited _ _ _); cbn; [|by left]. by split_and!; rewrite ?app_nil_r.
  - destruct (ext =? 1) eqn:E1; bool_hyps.
    + pose proof (push_limited_step limit _ _ (from_utf8_lossy d) Hl (count_tokens_inv _ _ _ d Ie)) as Hp.
      destruct (push_limited _ _ _); cbn; [|by right]. by split_and!; rewrite ?app_nil_r.
    + destruct limit as [l|]; [exfalso; specialize (Hs ltac:(done)); cbn in Hs; lia|].
      pose proof (push_limited_step None _ _ (from_utf8_lossy d) Hl Io) as Hp.
      destruct (push_limited _ _ _); cbn; [|by left]. by split_and!; rewrite ?app_nil_r.
Qed.

Lemma collect_fold limit ms :
  sound_limit limit -> (limit <> None -> Forall only_stderr ms) ->
  match foldl (fun st m => s ← st; collect_msg limit s m)
         (Some {| c_out := stream_acc_new; c_err := stream_acc_new; c_exit := None |}) ms with
  | Some st => run_inv limit (flat_map out_text ms) (flat_map err_text ms) (last_exit ms) st
  | None => cut_inside limit (flat_map out_text ms) \/ cut_inside limit (flat_map err_text ms)
  end.
Proof.
  intros Hl. induction ms as [|m ms IH] using rev_ind; intros Hs.
  { assert (Hnew : acc_inv limit [] stream_acc_new).
    { split; [|done]. split_and!; try done. destruct limit; [|done]. cbn in *. change (str_len []) with 0. lia. }
    by split_and!. }
  rewrite foldl_app. cbn [foldl]. rewrite !flat_map_app. cbn [flat_map]. rewrite !app_nil_r.
  assert (Hx : last_exit (ms ++ [m]) = match exit_report m with Some c => Some c | None => last_exit ms end).
  { unfold last_exit. rewrite omap_app. cbn. destruct (exit_report m); [by rewrite last_snoc|by rewrite app_nil_r]. }
  rewrite Hx. specialize (IH ltac:(intros Hn; by apply Hs, Forall_app in Hn as [? _])).
  destruct (foldl _ _ ms) as [st|]; [|cbn; destruct IH; [left|right]; by apply cut_inside_app].
  cbn [mbind option_bind]. apply collect_step; [done| |done].
  intros Hn. apply Hs, Forall_app in Hn as [_ Hn]. by apply Forall_cons in Hn as [? _].
Qed.

Definition limit_bytes (max_output_tokens : option Z) : option Z := (fun t => 4 * t) <$> max_output_tokens.

(** What the caller gets for the text [seen] of a stream. *)
Definition limited_text (limit : option Z) (seen out : str) (cut : bool) : Prop :=
  if cut then exists l kept rest dropped shown t, limit = Some l /\ seen = kept ++ rest /\ str_len kept = l /\ rest <> [] /\
      rest = dropped ++ shown /\ str_len shown <= 515 /\
      out = kept ++ truncation_notice t ++ (if str_eqb shown [] then [] else [NL] ++ shown)
  else out = seen /\ within limit (str_len seen).

Lemma finish_stream_text limit seen acc :
  acc_inv limit seen acc -> limited_text limit seen (finish_stream acc).1 (truncated acc).
Proof.
  intros [Hk _]. unfold finish_stream. cbn [fst]. destruct (truncated acc); cbn [andb].
  - destruct Hk as (l & kept & rest & dropped & -> & -> & Hl & Hne & -> & -> & Ht).
    exists l, kept, (dropped ++ tail_text acc), dropped, (tail_text acc), (reported_tokens acc).
    split_and!; try done. by rewrite <- app_assoc; destruct (str_eqb (tail_text acc) []).
  - destruct Hk as (-> & _ & Hw). by rewrite app_nil_r.
Qed.

(** The collected output of a command. When the limit does not fall inside
    a character of either stream, collecting never panics; the call succeeds
    exactly when an exit code was reported, with the last one; and each stream
    is complete if it fits in the limit, and otherwise is exactly its first
    4 * [max_output_tokens] bytes, the notice and at most 515 bytes of its end.
    When the limit does fall inside a character the collection panics. *)
Theorem collect_channel_output_limited (max_output_tokens : option Z) (ms : list ChannelMsg)
    (limit := limit_bytes max_output_tokens)
    (Hl : sound_limit limit) (Hs : limit <> None -> Forall only_stderr ms) :
  match collect_channel_output max_output_tokens ms with
  | None => cut_inside limit (flat_map out_text ms) \/ cut_inside limit (flat_map err_text ms)
  | Some (Err _) => last_exit ms = None
  | Some (Ok out) =>
      ~ cut_inside limit (flat_map out_text ms) /\ ~ cut_inside limit (flat_map err_text ms) /\
      exit_code out = last_exit ms /\
      limited_text limit (flat_map out_text ms) (stdout out) (stdout_truncated out) /\
      limited_text limit (flat_map err_text ms) (stderr out) (stderr_truncated out)
  end.
Proof.
  unfold collect_channel_output.
  assert (((fun tokens => saturating_mul U64_MAX tokens BYTES_PER_TOKEN) <$> max_output_tokens) = limit) as ->.
  { unfold limit, limit_bytes in *. destruct max_output_tokens as [t|]; [|done]. cbn in *. f_equal.
    unfold saturating_mul, BYTES_PER_TOKEN. lia. }
  pose proof (collect_fold limit ms Hl Hs) as Hf. destruct (foldl _ _ ms) as [st|]; cbn; [|done].
  destruct Hf as (Io & Ie & Hx). destruct (c_exit st) as [code|]; [|by rewrite <- Hx].
  split_and!; [by eapply acc_inv_no_cut..|done|by apply finish_stream_text|by apply finish_stream_text].
Qed.

Lemma collect_channel_output_limited_witness :
  exists out, collect_channel_output (Some 1) [Data (lit "ab"); ExtendedData 1 (lit "e"); Data (lit "cdef"); Close; ExitStatus 0] = Some (Ok out) /\
    exit_code out = Some 0 /\ limited_text (Some 4) (lit "abcdef") (stdout out) true /\ stderr out = lit "e".
Proof.
  eexists. split; [vm_compute; reflexivity|]. split; [reflexivity|]. split; [|vm_compute; reflexivity].
  pose proof (collect_channel_output_limited (Some 1)
    [Data (lit "ab"); ExtendedData 1 (lit "e"); Data (lit "cdef"); Close; ExitStatus 0]) as H.
  assert (Hl : sound_limit (limit_bytes (Some 1))) by (vm_compute; done).
  specialize (H Hl ltac:(intros _; repeat constructor)).
  remember (collect_channel_output _ _) as r eqn:E in H. vm_compute in E. subst r.
  destruct H as (_ & _ & _ & H & _). exact H.
Defined.

(** A limit inside a two-byte character: the collection panics. *)
Lemma collect_panics_inside_character :
  collect_channel_output (Some 1) [Data (utf8_encode (lit "abc" ++ [233])); ExitStatus 0] = None.
Proof. vm_compute. reflexivity. Qed.

(** Extended data of another type is kept in full, whatever the limit. *)
Lemma other_extended_data_unbounded (d : str) :
  forallb valid_char d = true ->
  exists out, collect_channel_output (Some 1) [ExtendedData 2 (utf8_encode d); ExitStatus 0] = Some (Ok out) /\ stdout out = d.
Proof.
  intros Hd. unfold collect_channel_output. cbn [foldl mbind option_bind collect_msg]. change (2 =? 1) with false. cbv iota.
  rewrite (from_utf8_lossy_encode d Hd). eexists. split; [reflexivity|]. cbn. by rewrite app_nil_r.
Qed.

(** ** The bounded standard error of raw transfers *)

Lemma utf8_prefix_len_spec s n :
  0 <= n -> exists a b, s = a ++ b /\ str_len a = utf8_prefix_len s n /\ str_len a <= n /\
    (b = [] <-> str_len s <= n) /\ (b <> [] -> n - str_len a <= 3).
Proof.
  intros Hn. unfold utf8_prefix_len. destruct (str_len s <=? n) eqn:L; bool_hyps.
  - exists s, []. rewrite app_nil_r. by split_and!.
  - set (k := Z.to_nat n). destruct (back_to_boundary_spec s k) as (Hle & Hb & _).
    pose proof (back_to_boundary_near s k ltac:(unfold k; lia)).
    apply is_char_boundary_spec in Hb as (a & b & -> & Ha). exists a, b. rewrite str_len_app in L.
    split_and!; [done|done|lia| |intros _; lia]. split; [|intros Hx; rewrite str_len_app in Hx; lia].
    intros ->. change (str_len []) with 0 in L. lia.
Qed.

(** A whole run of the loop that collects standard error. *)
Definition bounded_stderr (limit : Z) (chunks : list bytes) : option (str * bool) :=
  foldl (fun st chunk =>
    '(text, cut) ← st;
    if (cut : bool) then Some (text, true) else append_bounded_lossy_stderr text chunk limit)
    (Some ([], false)) chunks.

Lemma append_bounded_step stderr chunk limit :
  0 <= limit -> str_len stderr <= limit ->
  exists a cut b, append_bounded_lossy_stderr stderr chunk limit = Some (stderr ++ a, cut) /\
    from_utf8_lossy chunk = a ++ b /\ str_len (stderr ++ a) <= limit /\
    (cut = false -> b = []) /\ (cut = true -> limit - str_len (stderr ++ a) <= 3).
Proof.
  intros Hl Hs. unfold append_bounded_lossy_stderr. destruct (limit <=? str_len stderr) eqn:L; bool_hyps.
  { exists [], true, (from_utf8_lossy chunk). rewrite app_nil_r. split_and!; [done..|lia]. }
  set (d := from_utf8_lossy chunk). set (remaining := saturating_sub limit (str_len stderr)).
  assert (Hr : remaining = limit - str_len stderr) by (unfold remaining, saturating_sub; lia).
  destruct (str_len d <=? remaining) eqn:E; bool_hyps.
  { exists d, false, []. rewrite app_nil_r, str_len_app. split_and!; [done..|lia|done|done]. }
  destruct (utf8_prefix_len_spec d remaining ltac:(lia)) as (a & b & Hd & Ha & Hle & Hb1 & Hb2).
  assert (Hb : b <> []) by (intros Hb%Hb1; lia). specialize (Hb2 Hb).
  destruct (0 <? utf8_prefix_len d remaining) eqn:E0; bool_hyps.
  - exists a, true, b. assert (split_at_byte (utf8_prefix_len d remaining) d = Some (a, b)) as ->
      by (by apply split_at_byte_Some). cbn. rewrite str_len_app. split_and!; [done|done|lia|done|lia].
  - exists [], true, d. rewrite app_nil_r. pose proof (str_len_nonneg a). split_and!; [done..|lia].
Qed.

(** The standard error of a raw transfer: the collection never panics,
    what is kept is a prefix of the decoded text, of at most the limit and at
    least the limit less three bytes when it is cut, and complete otherwise;
    the limit is at most one mebibyte. *)
Theorem bounded_stderr_prefix (max_output_tokens : option Z) (chunks : list bytes)
    (limit := resolve_raw_stream_stderr_limit max_output_tokens) :
  0 < limit <= 1024 * 1024 /\
  exists kept cut rest, bounded_stderr limit chunks = Some (kept, cut) /\
    flat_map from_utf8_lossy chunks = kept ++ rest /\ str_len kept <= limit /\
    (cut = false -> rest = []) /\ (rest <> [] -> limit - str_len kept <= 3).
Proof.
  assert (Hlim : 0 < limit <= 1024 * 1024).
  { unfold limit, resolve_raw_stream_stderr_limit, RAW_STREAM_STDERR_HARD_MAX_BYTES.
    destruct (match max_output_tokens with Some _ => _ | None => _ end) as [b|]; [|cbn; lia].
    destruct (0 <? b) eqn:E; bool_hyps; cbn; lia. }
  split; [done|].
  assert (H : exists kept cut rest, bounded_stderr limit chunks = Some (kept, cut) /\
    flat_map from_utf8_lossy chunks = kept ++ rest /\ str_len kept <= limit /\
    (cut = false -> rest = []) /\ (cut = true -> limit - str_len kept <= 3)).
  2: { destruct H as (kept & cut & rest & ? & ? & ? & Hf & Ht). exists kept, cut, rest. split_and!; try done.
       intros Hr. destruct cut; [by apply Ht|]. by destruct Hr; apply Hf. }
  unfold bounded_stderr. induction chunks as [|c chunks (kept & cut & rest & E & Hp & Hle & Hf & Ht)] using rev_ind.
  { exists [], false, []. split_and!; try done. change (str_len []) with 0. lia. }
  rewrite foldl_app, flat_map_app, E, Hp. cbn [foldl mbind option_bind flat_map]. rewrite app_nil_r. destruct cut.
  - exists kept, true, (rest ++ from_utf8_lossy c). rewrite <- app_assoc. split_and!; try done.
  - rewrite (Hf eq_refl), app_nil_r. destruct (append_bounded_step kept c limit) as (a & cut & b & -> & -> & ? & ? & ?); [lia|done|].
    exists (kept ++ a), cut, b. rewrite <- app_assoc. by split_and!.
Qed.

(** ** Output of the [su] terminal *)

(** One turn of the loop: was the deadline past, and what arrived within the
    half second. *)
Inductive su_wait : Type := SuMsg (m : ChannelMsg) | SuEnded | SuNothing.

(** The lines between the echoed command and the prompt. *)
Definition su_output (buffer : str) : str :=
  let lines := str_lines buffer in
  let output := if (2 <? length lines)%nat then join [NL] (take (length lines - 2) (drop 1 lines)) else [] in
  if str_eqb output [] then output else output ++ [NL].

(** [None] when the events run out: the loop is still waiting. *)
Fixpoint collect_su_output (timeout_ms : Z) (use_wrapper : bool) (buffer : str) (events : list (bool * su_wait)) :
    option (result CommandOutput SshMcpError) :=
  match events with
  | [] => None
  | (late, w) :: events =>
      if negb use_wrapper && late then Some (Err (Timeout timeout_ms))
      else match w with
           | SuMsg (Data data) =>
               let buffer := buffer ++ from_utf8_lossy data in
               if contains_char 35 buffer then
                 Some (Ok {| stdout := su_output buffer; stderr := []; exit_code := Some 0; stdout_truncated := false;
                             stderr_truncated := false; stdout_total_tokens := 0; stderr_total_tokens := 0 |})
               else collect_su_output timeout_ms use_wrapper buffer events
           | SuMsg Close => Some (Err (Connection (lit "Channel closed during command execution")))
           | SuMsg _ | SuNothing => collect_su_output timeout_ms use_wrapper buffer events
           | SuEnded => Some (Err (Connection (lit "Channel ended during command execution")))
           end
  end.

Example collect_su_output_command :
  collect_su_output 1000 true [] [(true, SuMsg (Data (lit "id" ++ [NL] ++ lit "uid=0" ++ [NL]))); (true, SuNothing);
      (false, SuMsg (Data (lit "root@h:~# ")))] =
  Some (Ok {| stdout := lit "uid=0" ++ [NL]; stderr := []; exit_code := Some 0; stdout_truncated := false;
              stderr_truncated := false; stdout_total_tokens := 0; stderr_total_tokens := 0 |}).
Proof. vm_compute. reflexivity. Qed.
