(* ===== verification/Exec.v ===== *)
(** * Running a command (src/ssh/command.rs)

    [exec_command] and what it calls: which payloads are sent, to which
    connection generation, how often, and what the caller is told. The answers
    of the connection are arguments; the actions are recorded in order. *)
From Stdlib Require Import ZArith String.
From stdpp Require Import base list.
From S2P Require Import Prelude Errors Trace Shell Output.

Inductive PreExecError : Type :=
  | ChannelOpen (generation : option Z) (msg : str)
  | ExecSend (generation : Z) (msg : str).
Definition into_ssh_error (e : PreExecError) : SshMcpError :=
  match e with ChannelOpen _ msg | ExecSend _ msg => Connection msg end.

(** What reaches the remote host or the connection. [Queued]: an exec request
    was queued; [Written]: a payload was (perhaps partly) written to the [su]
    terminal. *)
Inductive action : Type :=
  | Queued (payload : str) (generation : Z)
  | Written (payload : str) (generation : Z)
  | Invalidated (generation : Z) (reason : str)
  | AbortQueued (payload : str) (generation : Z)
  | Restored (generation : Z)
  | WrapperDisabled.

(** ** Starting a command on a new channel *)

(** The answers of one start: of the first attempt, of [ensure_connected] in
    between, of the second attempt. An attempt answers the generation. *)
Record start_env : Type := {
  first_attempt : result Z PreExecError;
  reconnect : result unit SshMcpError;
  second_attempt : result Z PreExecError
}.

Definition try_open_and_exec (attempt : result Z PreExecError) (command : str) : traced action (result Z PreExecError) :=
  match attempt with
  | Err e => tret (Err e)
  | Ok generation =>
      let! _ := act (Queued (wrap_command_for_channel_exec command) generation) in tret (Ok generation)
  end.

Definition open_and_exec_with_reconnect_retry (env : start_env) (command : str) : traced action (result Z SshMcpError) :=
  let! r := try_open_and_exec (first_attempt env) command in
  match r with
  | Ok generation => tret (Ok generation)
  | Err e =>
      let! _ := match e with
         | ChannelOpen (Some generation) _ => act (Invalidated generation (lit "channel open failed"))
         | ChannelOpen None _ => tret tt
         | ExecSend generation _ => act (Invalidated generation (lit "exec send failed"))
         end in
      match reconnect env with
      | Err e => tret (Err e)
      | Ok _ =>
          let! r := try_open_and_exec (second_attempt env) command in
          tret (rmap_err into_ssh_error r)
      end
  end.

(** ** Commands on a channel of their own *)

(** How collecting the output ends; [None] is the local deadline. *)
Record channel_env : Type := {
  ce_start : start_env;
  ce_output : option (result CommandOutput SshMcpError);
  ce_abort_open : option Z;
  ce_fallback_start : start_env;
  ce_fallback_output : option (result CommandOutput SshMcpError);
  ce_fallback_abort_open : option Z
}.

Section Exec.
(** [str::to_lowercase], and a duration's seconds as the wrapper prints them. *)
Context (to_lowercase : str -> str) (show_secs : Z -> str).

Definition timeout_missing_messages : list str :=
  [lit "timeout: command not found";
   lit "timeout: " ++ [1085; 1077; 32; 1085; 1072; 1081; 1076; 1077; 1085; 1072; 32; 1082; 1086; 1084; 1072; 1085; 1076; 1072];
   lit "timeout: introuvable";
   lit "timeout: " ++ [1082; 1086; 1084; 1072; 1085; 1076; 1072; 32; 1085; 1077; 32; 1085; 1072; 1081; 1076; 1077; 1085; 1072]].

Definition timeout_not_found (output : CommandOutput) : bool :=
  let stderr_lower := to_lowercase (stderr output) in
  existsb (fun m => contains m stderr_lower) timeout_missing_messages.

Definition as_millis (nanos : Z) : Z := nanos / 1000000 mod (U64_MAX + 1).

Definition is_timeout (e : SshMcpError) : bool := match e with Timeout _ => true | _ => false end.

(** [current] is the generation on which a channel for the abort opens. *)
Definition abort_command (current : option Z) (command : str) (generation : Z) : traced action unit :=
  match current with
  | Some g =>
      if g =? generation then
        act (AbortQueued (lit "timeout 3s pkill -f '" ++ escape_command_for_shell command ++ lit "' 2>/dev/null || true") g)
      else tret tt
  | None => tret tt
  end.

Definition run_fallback (env : channel_env) (command : str) (timeout : Z) : traced action (result CommandOutput SshMcpError) :=
  let! _ := act WrapperDisabled in
  let! r := open_and_exec_with_reconnect_retry (ce_fallback_start env) command in
  match r with
  | Err e => tret (Err (Connection (lit "Failed to start fallback execution after reconnect retry: " ++ error_display e)))
  | Ok generation =>
      match ce_fallback_output env with
      | Some inner => tret inner
      | None =>
          let! _ := abort_command (ce_fallback_abort_open env) command generation in
          let! _ := act (Invalidated generation (lit "fallback command timed out after exec")) in
          tret (Err (Timeout (as_millis timeout)))
      end
  end.

Definition exec_via_channel (use_wrapper : bool) (env : channel_env) (command : str) (timeout : Z) :
    traced action (result CommandOutput SshMcpError) :=
  match validate_timeout_duration timeout with
  | Err e => tret (Err e)
  | Ok duration =>
      let wrapped_cmd := if use_wrapper then wrap_command_with_timeout command (show_secs duration) else command in
      let! r := open_and_exec_with_reconnect_retry (ce_start env) wrapped_cmd in
      match r with
      | Err e => tret (Err e)
      | Ok generation =>
          match ce_output env with
          | None =>
              let! _ := abort_command (ce_abort_open env) command generation in
              let! _ := act (Invalidated generation (lit "command timed out after exec")) in
              tret (Err (Timeout (as_millis timeout)))
          | Some (Err e) =>
              let! _ := if is_timeout e then tret tt else act (Invalidated generation (lit "channel failed after exec")) in
              tret (Err e)
          | Some (Ok output) =>
              if use_wrapper then
                if timeout_not_found output then run_fallback env command timeout
                else if bool_decide (exit_code output = Some 124) then tret (Err (Timeout (as_millis timeout)))
                else tret (Ok output)
              else tret (Ok output)
          end
      end
  end.

(** ** Commands on the [su] terminal *)

Record su_env : Type := {
  su_take : option Z;
  su_ensure : result unit SshMcpError;
  su_elevate : result unit SshMcpError;
  su_take_again : option Z;
  su_send : result unit str;
  su_collected : result CommandOutput SshMcpError
}.

Definition take_su (env : su_env) : result Z SshMcpError :=
  match su_take env with
  | Some generation => Ok generation
  | None =>
      let? _ := su_ensure env in
      let? _ := su_elevate env in
      ok_or (su_take_again env) (Connection (lit "No su channel available after elevation"))
  end.

Definition exec_via_su_shell (use_wrapper : bool) (env : su_env) (command : str) (timeout : Z) :
    traced action (result CommandOutput SshMcpError) :=
  match validate_timeout_duration timeout with
  | Err e => tret (Err e)
  | Ok duration =>
      let wrapped_cmd := if use_wrapper then wrap_command_with_timeout command (show_secs duration) else command in
      match take_su env with
      | Err e => tret (Err e)
      | Ok generation =>
          let! _ := act (Written (wrap_command_for_channel_exec wrapped_cmd ++ [NL]) generation) in
          match su_send env with
          | Ok _ =>
              let! _ := match su_collected env with
                 | Err _ => act (Invalidated generation (lit "su channel failed after send"))
                 | Ok _ => act (Restored generation)
                 end in
              tret (su_collected env)
          | Err e =>
              let! _ := act (Invalidated generation (lit "su channel send failed")) in
              tret (Err (Connection (lit "Failed to send command to su channel: " ++ e)))
          end
      end
  end.

(** ** [exec_command] *)

Record exec_env : Type := {
  slot : result unit SshMcpError;
  connected : result unit SshMcpError;
  is_elevated : bool;
  has_su_channel : bool;
  wrapper_usable : bool;
  channel_part : channel_env;
  su_part : su_env
}.

Definition exec_command (env : exec_env) (command : str) (timeout : Z) : traced action (result CommandOutput SshMcpError) :=
  match slot env, connected env with
  | Err e, _ | _, Err e => tret (Err e)
  | Ok _, Ok _ =>
      if is_elevated env && has_su_channel env then exec_via_su_shell (wrapper_usable env) (su_part env) command timeout
      else exec_via_channel (wrapper_usable env) (channel_part env) command timeout
  end.

(** ** How often a command is sent *)

Definition payloads (t : list action) : list str :=
  omap (fun a => match a with Queued p _ | Written p _ => Some p | _ => None end) t.

#[global] Arguments payloads : simpl never.
#[local] Arguments timeout_not_found : simpl never.
#[local] Arguments wrap_command_for_channel_exec : simpl never.

(** The payload of the first send and that of the fallback. *)
Definition first_payload (env : exec_env) (command : str) (timeout : Z) : str :=
  let wrapped := if wrapper_usable env then wrap_command_with_timeout command (show_secs timeout) else command in
  if is_elevated env && has_su_channel env then wrap_command_for_channel_exec wrapped ++ [NL]
  else wrap_command_for_channel_exec wrapped.
Definition fallback_payload (command : str) : str := wrap_command_for_channel_exec command.

(** The output collected after the first send. *)
Definition first_output (env : exec_env) : option (result CommandOutput SshMcpError) :=
  if is_elevated env && has_su_channel env then Some (su_collected (su_part env)) else ce_output (channel_part env).

Lemma payloads_app t1 t2 : payloads (t1 ++ t2) = payloads t1 ++ payloads t2.
Proof. apply omap_app. Qed.

Lemma start_payloads env command t :
  match open_and_exec_with_reconnect_retry env command t with
  | (Ok _, t') => payloads t' = payloads t ++ [wrap_command_for_channel_exec command]
  | (Err _, t') => payloads t' = payloads t
  end.
Proof.
  unfold open_and_exec_with_reconnect_retry, try_open_and_exec, tbind, tret, act.
  destruct (first_attempt env) as [g|[[g|] m|g m]]; [by rewrite payloads_app|..];
    (destruct (reconnect env); [destruct (second_attempt env)|]); cbn; by rewrite ?payloads_app, ?app_nil_r.
Qed.

Lemma abort_payloads current command g t : payloads (abort_command current command g t).2 = payloads t.
Proof. unfold abort_command. destruct current as [g'|]; [destruct (g' =? g)|]; cbn; by rewrite ?payloads_app, ?app_nil_r. Qed.

Lemma fallback_payloads env command timeout t :
  let '(r, t') := run_fallback env command timeout t in
  (payloads t' = payloads t /\ is_ok r = false) \/
  (payloads t' = payloads t ++ [fallback_payload command] /\ forall out, r = Ok out -> ce_fallback_output env = Some (Ok out)).
Proof.
  unfold run_fallback, tbind, tret. cbn [act].
  pose proof (start_payloads (ce_fallback_start env) command (t ++ [WrapperDisabled])) as Hs.
  destruct (open_and_exec_with_reconnect_retry _ _ _) as [[g|e] t1].
  - rewrite payloads_app, app_nil_r in Hs. destruct (ce_fallback_output env) as [inner|].
    + right. split; [done|]. by intros out ->.
    + pose proof (abort_payloads (ce_fallback_abort_open env) command g t1) as Ha.
      destruct (abort_command _ _ _ t1) as [u t2]. cbn in *. right. by rewrite payloads_app, Ha, app_nil_r.
  - left. by rewrite payloads_app, app_nil_r in Hs.
Qed.

(** The code reads the missing utility off the text of the first run: whatever
    that run did, and however it exited, a command whose own stderr carries one
    of the messages is sent a second time. *)
Lemma own_stderr_replays_command (env : exec_env) (command : str) (timeout g1 g2 : Z) (out : CommandOutput) :
  is_ok (slot env) = true -> is_ok (connected env) = true -> is_elevated env = false -> wrapper_usable env = true ->
  0 < timeout -> first_attempt (ce_start (channel_part env)) = Ok g1 ->
  ce_output (channel_part env) = Some (Ok out) -> timeout_not_found out = true ->
  first_attempt (ce_fallback_start (channel_part env)) = Ok g2 ->
  payloads (exec_command env command timeout []).2 = [first_payload env command timeout; fallback_payload command].
Proof.
  intros Hs Hc He Hw Ht Hf Ho Hn Hf2. unfold exec_command, first_payload.
  destruct (slot env), (connected env); try done. rewrite He, Hw. cbn [andb].
  unfold exec_via_channel, validate_timeout_duration. destruct (Z.leb_spec timeout 0); [lia|].
  unfold run_fallback, open_and_exec_with_reconnect_retry, try_open_and_exec, tbind, tret, act.
  rewrite Hf, Ho, Hn, Hf2. cbn. destruct (ce_fallback_output (channel_part env)); [done|].
  cbn. unfold abort_command. destruct (ce_fallback_abort_open _) as [g'|]; [destruct (g' =? g2)|]; done.
Qed.

(** C5. Whatever the connection does, at most one payload that carries the
    command is sent, with one exception: when the first payload ran on a channel
    under the [timeout] wrapper and the output collected from it carries, in its
    stderr, one of the four messages of a missing [timeout] utility, the
    unwrapped command is sent once more. The code cannot tell those messages
    from the same text printed by the command itself, so a command that prints
    it is run twice ([own_stderr_replays_command]). A successful answer is the
    output of the last payload sent, and when nothing was sent the answer is an
    error. *)
Theorem exec_command_at_most_once (env : exec_env) (command : str) (timeout : Z) :
  let '(r, t) := exec_command env command timeout [] in
  (payloads t = [] /\ is_ok r = false) \/
  (payloads t = [first_payload env command timeout] /\
     forall out, r = Ok out -> first_output env = Some (Ok out)) \/
  (payloads t = [first_payload env command timeout; fallback_payload command] /\
     wrapper_usable env = true /\ is_elevated env && has_su_channel env = false /\
     (exists out, first_output env = Some (Ok out) /\ timeout_not_found out = true) /\
     forall out, r = Ok out -> ce_fallback_output (channel_part env) = Some (Ok out)).
Proof.
  unfold exec_command, first_payload, first_output.
  destruct (slot env), (connected env); cbn; try by left.
  destruct (is_elevated env && has_su_channel env).
  - unfold exec_via_su_shell, validate_timeout_duration. destruct (timeout <=? 0); cbn; [by left|].
    destruct (take_su (su_part env)) as [g|]; cbn; [|by left]. unfold tbind, tret, act. cbn.
    destruct (su_send (su_part env)); [destruct (su_collected (su_part env))|]; cbn; right; left; by split; [|intros ? [=]; subst].
  - unfold exec_via_channel, validate_timeout_duration. destruct (timeout <=? 0); cbn; [by left|].
    set (wrapped := if wrapper_usable env then _ else _). unfold tbind, tret.
    pose proof (start_payloads (ce_start (channel_part env)) wrapped []) as Hs.
    destruct (open_and_exec_with_reconnect_retry _ _ []) as [[g|e] t1]; [|by left]. cbn in Hs.
    destruct (ce_output (channel_part env)) as [[out|e]|].
    + destruct (wrapper_usable env) eqn:Ew; [|right; left; split; [done|by intros ? [=<-]]].
      destruct (timeout_not_found out) eqn:Et.
      * pose proof (fallback_payloads (channel_part env) command timeout t1) as Hf.
        destruct (run_fallback _ _ _ t1) as [r t2] eqn:Er. rewrite Hs in Hf. cbn. rewrite ?Et, ?Er. destruct Hf as [[-> Hr]|[-> Hr]].
        -- right. left. split; [done|]. by intros o ->.
        -- right. right. split_and!; [done..|by exists out|done].
      * destruct (bool_decide _); right; left; (split; [done|]); by intros ? [=]; subst.
    + destruct (is_timeout e); cbn; right; left; by rewrite ?payloads_app, Hs.
    + pose proof (abort_payloads (ce_abort_open (channel_part env)) command g t1) as Ha.
      destruct (abort_command _ _ _ t1) as [u t2]. cbn in *. right. left. by rewrite payloads_app, Ha, Hs.
Qed.

End Exec.
