(* ===== verification/CheckProcess.v ===== *)
(** * Checking a background job (src/ssh/command.rs, [check_process])

    The reconciliation of a job's recorded state with what the remote host
    says, and the tail of its local log. *)
From Stdlib Require Import ZArith String.
From stdpp Require Import base list gmap.
From S2P Require Import Prelude Errors Utf8 Job Stream.

(** ** The tail of the log *)

Definition CHUNK_SIZE : Z := 8192.
Definition MAX_READ_BYTES : Z := 1024 * 1024.

Definition count_nl (b : bytes) : Z := Z.of_nat (length (filter (fun x => x = NL) b)).

(** The loop that reads the file backwards, chunk by chunk; [pos] bytes of
    [content] are still unread. [None] when the fuel runs out. *)
Fixpoint tail_loop (fuel : nat) (content : bytes) (lines pos newlines : Z) (buf : bytes) : option bytes :=
  if (0 <? pos) && (newlines <=? lines) && (Z.of_nat (length buf) <? MAX_READ_BYTES) then
    match fuel with
    | O => None
    | S fuel =>
        let read_len := Z.min CHUNK_SIZE pos in
        let pos := saturating_sub pos read_len in
        let chunk := take (Z.to_nat read_len) (drop (Z.to_nat pos) content) in
        if bool_decide (chunk = []) then Some buf
        else
          let newlines := saturating_add U64_MAX newlines (count_nl chunk) in
          let chunk := if MAX_READ_BYTES <? saturating_add U64_MAX (Z.of_nat (length chunk)) (Z.of_nat (length buf))
                       then take (Z.to_nat (saturating_sub MAX_READ_BYTES (Z.of_nat (length buf)))) chunk else chunk in
          tail_loop fuel content lines pos newlines (chunk ++ buf)
    end
  else Some buf.

(** The last [n] elements. *)
Definition last_n {A} (n : nat) (l : list A) : list A := drop (length l - n) l.

(** The answer for a log with the given content, or for no log. [metadata_len]
    is the length when the file was opened; it may have grown since. *)
Definition read_local_log_tail (opened : result (option bytes) SshMcpError) (metadata_len lines : Z) :
    option (result str SshMcpError) :=
  if lines =? 0 then Some (Ok [])
  else match opened with
       | Err e => Some (Err e)
       | Ok None => Some (Ok [])
       | Ok (Some content) =>
           buf ← tail_loop (S (Z.to_nat (metadata_len / CHUNK_SIZE))) content lines metadata_len 0 [];
           let all_lines := str_lines (from_utf8_lossy buf) in
           Some (Ok (if bool_decide (all_lines = []) then [] else join [NL] (last_n (Z.to_nat lines) all_lines)))
       end.

(** What [symlink_metadata] says of the log path, as far as this code tells. *)
Inductive log_meta : Type :=
  | LmSymlink
  | LmFile
  | LmOther
  | LmNotFound
  | LmError (e : str).

Definition log_symlink_refused : SshMcpError := Io (lit "log path is a symlink (refusing to follow it)").
Definition log_not_regular : SshMcpError := Io (lit "log path is not a regular file").

Definition log_file_exists (m : log_meta) : result bool SshMcpError :=
  match m with
  | LmSymlink => Err log_symlink_refused
  | LmFile => Ok true
  | LmOther => Ok false
  | LmNotFound => Ok false
  | LmError e => Err (Io e)
  end.

(** [opened] is the answer of [open] with [O_NOFOLLOW] and the kind of the
    opened file; [None] means it was not found. [after_failure] is the last
    look at the path. *)
Definition open_log_read_no_symlink {F} (at_start : log_meta) (opened : result (option (F * log_meta)) str)
    (after_failure : log_meta) : result (option F) SshMcpError :=
  match at_start with
  | LmSymlink => Err log_symlink_refused
  | LmOther => Err log_not_regular
  | LmNotFound => Ok None
  | LmError e => Err (Io e)
  | LmFile =>
      match opened with
      | Ok None => Ok None
      | Ok (Some (f, LmFile)) => Ok (Some f)
      | Ok (Some (_, LmError e)) => Err (Io e)
      | Ok (Some _) => Err log_not_regular
      | Err e => match after_failure with LmSymlink => Err log_symlink_refused | _ => Err (Io e) end
      end
  end.

(** ** Reconciling the job's state *)

Record ProcessStatus : Type := {
  ps_pid : Z;
  ps_state : str;
  ps_running : bool;
  ps_exit_code : option Z;
  ps_state_reason : option str;
  ps_elapsed_time : str;
  ps_command : str;
  ps_log_path : str;
  ps_log_exists : bool;
  ps_log_tail : str
}.

Definition job_status_from_exit_code (exit_code : Z) : JobStatus := if exit_code =? 0 then Completed else Failed.

Record verdict : Type := {
  v_running : bool;
  v_status : JobStatus;
  v_exit_code : option Z;
  v_reason : option str
}.
Definition v_exited (code : Z) : verdict :=
  {| v_running := false; v_status := job_status_from_exit_code code; v_exit_code := Some code; v_reason := None |}.
Definition v_lost (reason : str) : verdict :=
  {| v_running := false; v_status := StateLost; v_exit_code := None; v_reason := Some reason |}.

(** What a job that is not running any more shows. *)
Definition terminal_verdict (status : JobStatus) (exit_code : option Z) (reason : option str) : verdict :=
  match status, exit_code with
  | Running, Some code | Completed, Some code | Failed, Some code => v_exited code
  | Running, None => v_lost (default (lit "pid_not_running_and_no_exit_status") reason)
  | Completed, None | Failed, None => v_lost (default (lit "missing_exit_code_for_terminal_state") reason)
  | StateLost, _ => v_lost (default (lit "state_lost") reason)
  end.

(** The verdict on the job as it was read; [settled] is what a second look
    after a short wait shows. *)
Definition judge (j : JobState) (connected : result unit SshMcpError) (pid_running : result bool SshMcpError)
    (settled : JobState) : result verdict SshMcpError :=
  match status j with
  | Running =>
      let? _ := connected in
      let? alive := pid_running in
      if (alive : bool) then Ok {| v_running := true; v_status := Running; v_exit_code := None; v_reason := None |}
      else match exit_code j with
           | Some code => Ok (v_exited code)
           | None => Ok (terminal_verdict (status settled) (exit_code settled) (state_reason settled))
           end
  | _ => Ok (terminal_verdict (status j) (exit_code j) (state_reason j))
  end.

(** Whether the verdict is not what the job was read to be. *)
Definition differs (j : JobState) (v : verdict) : bool :=
  bool_decide (status j <> v_status v) || bool_decide (exit_code j <> v_exit_code v) || bool_decide (state_reason j <> v_reason v).

(** The update of the shared state, which is [guard] when it is locked again. *)
Definition reconcile (now : Z) (j : JobState) (v : verdict) (guard : JobState) : JobState :=
  if differs j v then
    match v_status v with
    | Running => {| job_id := job_id guard; pid := pid guard; log_path := log_path guard; exit_code := None;
                    status := Running; state_reason := None; start_time := start_time guard;
                    completed_at := completed_at guard; command := command guard; connection_id := connection_id guard |}
    | Completed | Failed => match v_exit_code v with Some code => mark_exit code now guard | None => guard end
    | StateLost => mark_state_lost (default (lit "state_lost") (v_reason v)) now guard
    end
  else guard.

(** What happens around the call. *)
Record check_env : Type := {
  ck_connected : result unit SshMcpError;
  ck_pid_running : result bool SshMcpError;
  ck_while_settling : JobState -> JobState;
  ck_before_update : JobState -> JobState;
  ck_now : Z;
  ck_elapsed_now : Z;
  ck_log_meta : log_meta;
  ck_log_opened : result (option bytes) SshMcpError;
  ck_log_len : Z
}.

(** The job as the registry or, failing that, the spool directory has it; a
    recovered job is inserted into the registry. *)
Definition find_job (id : str) (registered : option JobState) (load : result (option JobState) str) :
    result (JobState * bool) SshMcpError :=
  match registered with
  | Some j => Ok (j, false)
  | None =>
      match load with
      | Ok (Some j) => Ok (j, true)
      | Ok None => Err (InvalidParams (lit "job not found: " ++ id))
      | Err e => Err (InvalidParams (lit "failed to recover job state for " ++ id ++ lit ": " ++ e))
      end
  end.

(** The answer, and the shared state of the job when the call returns. *)
Definition check_process (id : str) (tail_lines : Z) (registered : option JobState)
    (load : result (option JobState) str) (env : check_env) :
    option (result ProcessStatus SshMcpError) * option JobState :=
  match find_job id registered load with
  | Err e => (Some (Err e), registered)
  | Ok (j, _) =>
      let settled := ck_while_settling env j in
      match judge j (ck_connected env) (ck_pid_running env) settled with
      | Err e => (Some (Err e), Some j)
      | Ok v =>
          let final := reconcile (ck_now env) j v (ck_before_update env settled) in
          let answer :=
            match log_file_exists (ck_log_meta env) with
            | Err e => Some (Err e)
            | Ok log_exists =>
                tail ← read_local_log_tail (ck_log_opened env) (ck_log_len env) tail_lines;
                Some (let? log_tail := tail in
                      Ok {| ps_pid := pid j; ps_state := status_as_str (v_status v); ps_running := v_running v;
                            ps_exit_code := if v_running v || bool_decide (v_status v = StateLost) then None
                                            else c ← v_exit_code v; if (0 <=? c) && (c <=? U32_MAX) then Some c else None;
                            ps_state_reason := v_reason v; ps_elapsed_time := elapsed_time j (ck_elapsed_now env);
                            ps_command := command j; ps_log_path := log_path j; ps_log_exists := log_exists;
                            ps_log_tail := log_tail |})
            end in
          (answer, Some final)
      end
  end.

(** Whether the call updates and persists the job. *)
Definition reconciles (id : str) (registered : option JobState) (load : result (option JobState) str) (env : check_env) : bool :=
  match find_job id registered load with
  | Err _ => false
  | Ok (j, _) =>
      match judge j (ck_connected env) (ck_pid_running env) (ck_while_settling env j) with
      | Err _ => false
      | Ok v => differs j v
      end
  end.

(** The fuel of the tail's loop is enough: a round for every full chunk, and
    one for the rest. *)
Lemma tail_loop_total fuel content lines pos newlines buf :
  0 <= pos <= CHUNK_SIZE * Z.of_nat fuel -> is_Some (tail_loop fuel content lines pos newlines buf).
Proof.
  unfold CHUNK_SIZE. revert pos newlines buf. induction fuel as [|fuel IH]; intros pos nl buf Hp.
  { replace pos with 0 by lia. by eexists. }
  cbn [tail_loop]. destruct (_ && _ && _) eqn:E; [|by eexists]. bool_hyps. case_bool_decide; [by eexists|].
  apply IH. unfold saturating_sub, CHUNK_SIZE. lia.
Qed.

(** Checking a job always answers. *)
Lemma check_process_total id tail_lines registered load env (Hlen : 0 <= ck_log_len env) :
  is_Some (check_process id tail_lines registered load env).1.
Proof.
  unfold check_process. destruct (find_job _ _ _) as [[j sp]|e]; [|by eexists].
  destruct (judge _ _ _ _); [|by eexists]. cbn. destruct (log_file_exists _); [|by eexists].
  unfold read_local_log_tail. destruct (tail_lines =? 0); [by eexists|]. destruct (ck_log_opened env) as [[content|]|]; [|by eexists..].
  destruct (tail_loop_total (S (Z.to_nat (ck_log_len env / CHUNK_SIZE))) content tail_lines (ck_log_len env) 0 []) as [b ->].
  - unfold CHUNK_SIZE. pose proof (Z.div_mod (ck_log_len env) 8192). pose proof (Z.mod_pos_bound (ck_log_len env) 8192).
    pose proof (Z.div_pos (ck_log_len env) 8192). lia.
  - by eexists.
Qed.

(** ** The reconciliation is right *)

(** The verdict's fields agree with its status. *)
Definition verdict_wf (v : verdict) : Prop :=
  match v_status v with
  | Running => v_running v = true /\ v_exit_code v = None /\ v_reason v = None
  | Completed => v_running v = false /\ v_exit_code v = Some 0 /\ v_reason v = None
  | Failed => v_running v = false /\ (exists c, v_exit_code v = Some c /\ c <> 0) /\ v_reason v = None
  | StateLost => v_running v = false /\ v_exit_code v = None /\ is_Some (v_reason v)
  end.

Lemma v_exited_wf c : verdict_wf (v_exited c).
Proof.
  unfold verdict_wf, v_exited, job_status_from_exit_code. cbn. destruct (c =? 0) eqn:E; bool_hyps; subst; eauto.
Qed.

Lemma terminal_verdict_wf s c r : verdict_wf (terminal_verdict s c r).
Proof. destruct s, c; cbn; first [apply v_exited_wf | by split_and!]. Qed.

Lemma judge_wf j connected alive settled v : judge j connected alive settled = Ok v -> verdict_wf v.
Proof.
  assert (Hinj : forall a, Ok a = Ok v :> result verdict SshMcpError -> verdict_wf a -> verdict_wf v) by (by intros a [= ->]).
  unfold judge. destruct (status j); [|intros H; apply (Hinj _ H), terminal_verdict_wf..].
  destruct connected; [|done]. destruct alive as [[]|]; [intros [= <-]; by split_and!| |done].
  cbn. destruct (exit_code j); intros H; apply (Hinj _ H); [apply v_exited_wf|apply terminal_verdict_wf].
Qed.

(** A finished job is reported as it is recorded. *)
Lemma terminal_verdict_of j :
  job_wf j -> is_terminal j = true ->
  let v := terminal_verdict (status j) (exit_code j) (state_reason j) in
  v_status v = status j /\ v_exit_code v = exit_code j /\ v_reason v = state_reason j /\ v_running v = false.
Proof.
  unfold job_wf, is_terminal. intros Hwf Ht. destruct (status j) eqn:Es; try done.
  - destruct Hwf as (-> & -> & _). by split_and!.
  - destruct Hwf as ((c & -> & Hc) & -> & _). cbn. unfold job_status_from_exit_code.
    destruct (c =? 0) eqn:E; bool_hyps; by split_and!.
  - destruct Hwf as (-> & [r ->] & _). by split_and!.
Qed.

Lemma reconcile_same now j v guard :
  status j = v_status v -> exit_code j = v_exit_code v -> state_reason j = v_reason v -> reconcile now j v guard = guard.
Proof. intros H1 H2 H3. unfold reconcile, differs. rewrite !bool_decide_eq_false_2; auto. Qed.

(** The update records the verdict. *)
Lemma reconcile_records now j v guard :
  verdict_wf v -> v_running v = false -> (status j, exit_code j, state_reason j) <> (v_status v, v_exit_code v, v_reason v) ->
  let f := reconcile now j v guard in
  status f = v_status v /\ exit_code f = v_exit_code v /\ state_reason f = v_reason v /\
  exists e, f = job_step guard e.
Proof.
  intros Hwf Hr Hne. unfold reconcile, differs.
  assert (bool_decide (status j <> v_status v) || bool_decide (exit_code j <> v_exit_code v) ||
    bool_decide (state_reason j <> v_reason v) = true) as ->.
  { destruct (decide (status j = v_status v)) as [H1|H1]; [|by rewrite (bool_decide_eq_true_2 _ H1)].
    destruct (decide (exit_code j = v_exit_code v)) as [H2|H2]; [|by rewrite (bool_decide_eq_true_2 _ H2), orb_true_r].
    destruct (decide (state_reason j = v_reason v)) as [H3|H3]; [|by rewrite (bool_decide_eq_true_2 _ H3), orb_true_r].
    by destruct Hne; rewrite H1, H2, H3. }
  unfold verdict_wf in Hwf. destruct (v_status v).
  - by destruct Hwf as [? _]; congruence.
  - destruct Hwf as (_ & -> & ->). cbn. split_and!; try done. by exists (Exited 0 now).
  - destruct Hwf as (_ & (c & -> & Hc) & ->). cbn. destruct (c =? 0) eqn:E; bool_hyps; [done|].
    split_and!; try done. exists (Exited c now). done.
  - destruct Hwf as (_ & -> & [r ->]). cbn. split_and!; try done. by exists (Lost r now).
Qed.

Lemma check_process_inv id n registered load env j recovered ps final :
  find_job id registered load = Ok (j, recovered) ->
  check_process id n registered load env = (Some (Ok ps), Some final) ->
  exists v, judge j (ck_connected env) (ck_pid_running env) (ck_while_settling env j) = Ok v /\
    final = reconcile (ck_now env) j v (ck_before_update env (ck_while_settling env j)) /\
    ps_running ps = v_running v /\ ps_state ps = status_as_str (v_status v) /\ ps_state_reason ps = v_reason v /\
    (v_running v = false -> v_status v <> StateLost ->
     ps_exit_code ps = (c ← v_exit_code v; if (0 <=? c) && (c <=? U32_MAX) then Some c else None)) /\
    (v_running v = true \/ v_status v = StateLost -> ps_exit_code ps = None).
Proof.
  intros Hf H. unfold check_process in H. rewrite Hf in H.
  destruct (judge _ _ _ _) as [v|]; [|done]. exists v. split; [done|]. injection H as H <-.
  destruct (log_file_exists _); [|done]. destruct (read_local_log_tail _ _ _) as [[tail|]|]; [|done..].
  cbn in H. injection H as <-. cbn. split_and!; try done.
  - intros -> Hs. cbn. by rewrite (bool_decide_eq_false_2 _ Hs).
  - intros [-> | ->]; [done|]. by rewrite orb_true_r.
Qed.

Definition u32_exit (code : option Z) : option Z := c ← code; if (0 <=? c) && (c <=? U32_MAX) then Some c else None.

(** The answer shows a status, an exit code and a reason. *)
Definition shows (ps : ProcessStatus) (status : JobStatus) (code : option Z) (reason : option str) : Prop :=
  ps_state ps = status_as_str status /\ ps_state_reason ps = reason /\ ps_exit_code ps = u32_exit code.

(** The verdict on a job that is over, of a well-formed state. *)
Lemma terminal_verdict_running j :
  job_wf j -> is_terminal j = false ->
  terminal_verdict (status j) (exit_code j) (state_reason j) = v_lost (lit "pid_not_running_and_no_exit_status").
Proof. unfold job_wf, is_terminal. destruct (status j); try done. intros (-> & -> & _) _. done. Qed.

(** C36. A check reports what is known of the job, and records it. The recorded
    state stays well formed whatever is reported to it meanwhile. "Running" is
    answered exactly when the job was recorded as running and the remote
    process exists; then, and when the job was recorded as finished, the call
    changes nothing, and a finished job is shown as recorded. When a job that
    was recorded as running has no process any more, what is reported during
    the wait ([es1]) decides: an end reported by then is what the answer shows,
    and without one the answer is state_lost for a missing exit status; the
    answer is recorded, over whatever is reported after the second look
    ([es2]; the code does not look again, see [check_process_overwrites_exit]),
    so an end reported during the wait stays recorded as it was. *)
Theorem check_process_reconciles (id : str) (n : Z) (registered : option JobState) (load : result (option JobState) str)
    (env : check_env) (es1 es2 : list job_event) (j : JobState) (recovered : bool) (ps : ProcessStatus) (final : JobState)
    (Hfind : find_job id registered load = Ok (j, recovered)) (Hwf : job_wf j)
    (H1 : ck_while_settling env = fun j => foldl job_step j es1)
    (H2 : ck_before_update env = fun j => foldl job_step j es2)
    (H : check_process id n registered load env = (Some (Ok ps), Some final)) :
  let settled := foldl job_step j es1 in
  job_wf final /\
  (ps_running ps = true <-> status j = Running /\ ck_pid_running env = Ok true) /\
  (ps_running ps = true \/ is_terminal j = true -> final = foldl job_step j (es1 ++ es2)) /\
  (is_terminal j = true -> shows ps (status j) (exit_code j) (state_reason j)) /\
  (status j = Running -> ps_running ps = false ->
     shows ps (status final) (exit_code final) (state_reason final) /\ is_terminal final = true /\
     (is_terminal settled = true ->
        (status final, exit_code final, state_reason final) = (status settled, exit_code settled, state_reason settled)) /\
     (is_terminal settled = false ->
        (status final, exit_code final, state_reason final) = (StateLost, None, Some (lit "pid_not_running_and_no_exit_status")))).
Proof.
  intros settled. destruct (check_process_inv _ _ _ _ _ _ _ _ _ Hfind H) as (v & Hj & Hfinal & Hr & Hs & Hreason & Hcode & Hnocode).
  rewrite H1, H2, <- foldl_app in Hfinal. rewrite H1 in Hj. fold settled in Hj. pose proof (judge_wf _ _ _ _ _ Hj) as Hv.
  assert (Hg : job_wf (foldl job_step j (es1 ++ es2))) by (by apply foldl_job_wf).
  assert (Hset : job_wf settled) by (by apply foldl_job_wf).
  assert (Hshow : v_running v = false -> shows ps (v_status v) (v_exit_code v) (v_reason v)).
  { intros Hvr. split_and!; [done|done|]. destruct (decide (v_status v = StateLost)) as [E|E]; [|by apply Hcode].
    rewrite Hnocode by (by right). unfold verdict_wf in Hv. rewrite E in Hv. by destruct Hv as (_ & -> & _). }
  destruct (is_terminal j) eqn:Et.
  - assert (Hn : status j <> Running) by (unfold is_terminal in Et; by destruct (status j)).
    destruct (terminal_verdict_of j Hwf Et) as (V1 & V2 & V3 & V4).
    assert (v = terminal_verdict (status j) (exit_code j) (state_reason j)) as ->
      by (unfold judge in Hj; destruct (status j); congruence).
    rewrite reconcile_same in Hfinal by done. subst final. specialize (Hshow V4). rewrite V1, V2, V3 in Hshow.
    split_and!; [done| |done|done|by intros]. rewrite Hr, V4. split; [done|by intros [? _]].
  - assert (Hrun : status j = Running) by (unfold is_terminal in Et; by destruct (status j)).
    pose proof Hwf as Hwf'. unfold job_wf in Hwf'. rewrite Hrun in Hwf'. destruct Hwf' as (Hc & Hsr & _).
    unfold judge in Hj. rewrite Hrun in Hj. destruct (ck_connected env); [|done]. cbn in Hj.
    destruct (ck_pid_running env) as [[]|]; [| |done]; cbn in Hj.
    + injection Hj as <-. rewrite reconcile_same in Hfinal by done. subst final. rewrite Hr. by split_and!.
    + rewrite Hc in Hj. injection Hj as Ev. assert (Hvr : v_running v = false) by (rewrite <- Ev; unfold terminal_verdict; by repeat case_match).
      destruct (reconcile_records (ck_now env) j v (foldl job_step j (es1 ++ es2)) Hv Hvr) as (R1 & R2 & R3 & e & Re).
      { rewrite Hrun. intros [= E _]. unfold verdict_wf in Hv. rewrite <- E in Hv. by destruct Hv; congruence. }
      rewrite <- Hfinal in *. rewrite R1, R2, R3. split_and!.
      * rewrite Re. apply job_step_wf.
      * rewrite Hr, Hvr. split; [done|by intros [_ ?]].
      * rewrite Hr, Hvr. by intros [?|?].
      * done.
      * intros _ _. split_and!; [by apply Hshow|rewrite Re; apply job_step_terminal| |].
        -- intros Hts. destruct (terminal_verdict_of settled Hset Hts) as (V1 & V2 & V3 & _). by rewrite <- Ev, V1, V2, V3.
        -- intros Hts. by rewrite <- Ev, (terminal_verdict_running settled Hset Hts).
Qed.

(** A job that ends between the second look and the update has its exit code
    overwritten: the recorded job is lost although its exit was recorded. *)
Lemma check_process_overwrites_exit (j : JobState) (now t : Z) :
  status j = Running -> exit_code j = None -> state_reason j = None ->
  exists v, judge j (Ok tt) (Ok false) j = Ok v /\
    status (mark_exit 0 t j) = Completed /\ status (reconcile now j v (mark_exit 0 t j)) = StateLost.
Proof.
  intros Hs Hc Hr. unfold judge. rewrite Hs. cbn. rewrite Hc. eexists. split; [reflexivity|]. split; [done|].
  unfold reconcile, differs. cbn. by rewrite Hs, bool_decide_eq_true_2.
Qed.

Module CheckExample.

Definition job : JobState := new_running {| n_job_id := lit "a"; n_pid := 7; n_log_path := lit "/s/a.log";
  n_command := lit "ls"; n_connection_id := lit "c" |} 0.
(** The process is gone, and its exit arrives while the call waits. *)
Definition env : check_env := {|
  ck_connected := Ok tt; ck_pid_running := Ok false;
  ck_while_settling := fun j => foldl job_step j [Exited 3 5000000000]; ck_before_update := fun j => foldl job_step j [];
  ck_now := 6000000000; ck_elapsed_now := 6000000000; ck_log_meta := LmFile;
  ck_log_opened := Ok (Some (lit "one" ++ [NL] ++ lit "two" ++ [NL])); ck_log_len := 8 |}.
Definition answer : ProcessStatus := {|
  ps_pid := 7; ps_state := lit "failed"; ps_running := false; ps_exit_code := Some 3; ps_state_reason := None;
  ps_elapsed_time := lit "00:06"; ps_command := lit "ls"; ps_log_path := lit "/s/a.log"; ps_log_exists := true;
  ps_log_tail := lit "two" |}.

End CheckExample.

Lemma check_process_reconciles_witness :
  let final := mark_exit 3 6000000000 (mark_exit 3 5000000000 CheckExample.job) in
  check_process (lit "a") 1 (Some CheckExample.job) (Ok None) CheckExample.env = (Some (Ok CheckExample.answer), Some final) /\
  ps_state CheckExample.answer = status_as_str (status final) /\ is_terminal final = true.
Proof.
  intros final. split; [vm_compute; reflexivity|].
  destruct (check_process_reconciles (lit "a") 1 (Some CheckExample.job) (Ok None) CheckExample.env
    [Exited 3 5000000000] [] CheckExample.job false CheckExample.answer final) as (_ & _ & _ & H).
  - reflexivity.
  - by split_and!.
  - reflexivity.
  - reflexivity.
  - vm_compute. reflexivity.
  - destruct H as [_ H]. destruct H as ((Hs & _) & Ht & _); [reflexivity..|]. split; [exact Hs|exact Ht].
Defined.

(** ** The tail is the last lines of the log *)

Lemma lines_raw_ne s : s <> [] -> lines_raw s <> [].
Proof. destruct s as [|c s]; [done|]. intros _. cbn [lines_raw]. destruct (c =? NL); [done|]. by destruct (lines_raw s) as [|[]]. Qed.

Lemma lines_raw_app x y : lines_raw (x ++ NL :: y) = lines_raw (x ++ [NL]) ++ lines_raw y.
Proof.
  induction x as [|c x IH]; [done|]. cbn [app lines_raw]. destruct (c =? NL); [by rewrite IH|].
  rewrite IH. destruct (lines_raw (x ++ [NL])) as [|[p t] ps] eqn:E; [|done].
  apply lines_raw_ne in E; [done|]. by destruct x.
Qed.

Lemma str_lines_app x y : str_lines (x ++ NL :: y) = str_lines (x ++ [NL]) ++ str_lines y.
Proof. unfold str_lines. by rewrite lines_raw_app, fmap_app. Qed.

Lemma str_lines_nl_pos x : (0 < length (str_lines (x ++ [NL])))%nat.
Proof.
  unfold str_lines. rewrite length_fmap. pose proof (lines_raw_ne (x ++ [NL])) as H.
  destruct (lines_raw (x ++ [NL])); [|cbn; lia]. destruct H; [by destruct x|done].
Qed.

Lemma last_n_app {A} n (l1 l2 : list A) : (n <= length l2)%nat -> last_n n (l1 ++ l2) = last_n n l2.
Proof.
  intros H. unfold last_n. rewrite length_app, drop_app_ge by lia. f_equal. lia.
Qed.

Lemma count_nl_app a b : count_nl (a ++ b) = count_nl a + count_nl b.
Proof. unfold count_nl. rewrite filter_app, length_app. lia. Qed.

Lemma count_nl_none a : NL ∉ a -> count_nl a = 0.
Proof.
  intros H. unfold count_nl. induction a as [|x a IH]; [done|]. apply not_elem_of_cons in H as [Hx Ha].
  rewrite filter_cons_False by done. by apply IH.
Qed.

Lemma count_nl_cons a : count_nl (NL :: a) = 1 + count_nl a.
Proof. unfold count_nl. rewrite filter_cons_True by done. cbn [length]. lia. Qed.

(** Each line feed ends a line. *)
Lemma count_nl_lines b : count_nl b <= Z.of_nat (length (str_lines (from_utf8_lossy b))).
Proof.
  remember (length b) as n eqn:En. revert b En. induction n as [n IH] using lt_wf_ind. intros b ->.
  destruct (decide (NL ∈ b)) as [H|H].
  - apply list_elem_of_split_l in H as (u & v & -> & Hu). rewrite from_utf8_lossy_line, str_lines_app, length_app.
    rewrite count_nl_app, count_nl_cons, (count_nl_none u) by done. pose proof (str_lines_nl_pos (from_utf8_lossy u)).
    specialize (IH (length v) ltac:(rewrite length_app; cbn; lia) v eq_refl). lia.
  - rewrite count_nl_none by done. lia.
Qed.

(** The last lines of a suffix with more than [n] line feeds are those of the whole. *)
Lemma suffix_last_lines pre suf n :
  Z.of_nat n < count_nl suf ->
  last_n n (str_lines (from_utf8_lossy (pre ++ suf))) = last_n n (str_lines (from_utf8_lossy suf)).
Proof.
  intros H. destruct (decide (NL ∈ suf)) as [Hin|Hin]; [|rewrite count_nl_none in H by done; lia].
  apply list_elem_of_split_l in Hin as (u & v & -> & Hu). rewrite app_assoc, !from_utf8_lossy_line.
  rewrite (str_lines_app (from_utf8_lossy (pre ++ u))), (str_lines_app (from_utf8_lossy u)).
  rewrite count_nl_app, count_nl_cons, (count_nl_none u) in H by done. pose proof (count_nl_lines v).
  rewrite !last_n_app by lia. done.
Qed.

Lemma take_drop_split (content : bytes) (p n : nat) :
  (p <= length content)%nat -> (n <= p)%nat ->
  take n (drop (p - n) content) ++ drop p content = drop (p - n) content.
Proof. intros H1 H2. replace p with ((p - n) + n)%nat at 2 by lia. rewrite <- drop_drop. apply take_drop. Qed.

Lemma count_nl_le b : 0 <= count_nl b <= Z.of_nat (length b).
Proof. unfold count_nl. pose proof (length_filter (fun x => x = NL) b). lia. Qed.

(** The loop reads a suffix: all of the file, or enough line feeds, or the
    most it may read. *)
Lemma tail_loop_spec fuel content lines pos k :
  0 <= pos <= Z.of_nat (length content) -> pos <= CHUNK_SIZE * Z.of_nat fuel ->
  (Z.of_nat (length content) - pos = CHUNK_SIZE * k \/ pos = 0) -> Z.of_nat (length content) - pos <= MAX_READ_BYTES ->
  let buf := drop (Z.to_nat pos) content in
  exists pos', tail_loop fuel content lines pos (count_nl buf) buf = Some (drop (Z.to_nat pos') content) /\
    0 <= pos' <= Z.of_nat (length content) /\ Z.of_nat (length content) - pos' <= MAX_READ_BYTES /\
    (pos' = 0 \/ lines < count_nl (drop (Z.to_nat pos') content) \/ Z.of_nat (length content) - pos' = MAX_READ_BYTES).
Proof.
  unfold CHUNK_SIZE, MAX_READ_BYTES.
  revert pos k. induction fuel as [|fuel IH]; intros pos k Hp Hf Hk Hm; cbv zeta; set (buf := drop (Z.to_nat pos) content); cbn [tail_loop].
  { rewrite (proj2 (Z.ltb_ge 0 pos)) by lia. cbn [andb]. exists pos. split; [done|]. split; [lia|]. split; [lia|]. left. lia. }
  assert (Hlen : Z.of_nat (length buf) = Z.of_nat (length content) - pos) by (unfold buf; rewrite length_drop; lia).
  destruct ((0 <? pos) && (count_nl buf <=? lines) && (Z.of_nat (length buf) <? MAX_READ_BYTES)) eqn:C.
  2: { exists pos. split; [done|]. split_and!; [lia..|]. unfold MAX_READ_BYTES in C. apply andb_false_iff in C as [C|C].
       - apply andb_false_iff in C as [C|C]; bool_hyps; [left; lia|right; left; done].
       - bool_hyps. right; right; lia. }
  unfold MAX_READ_BYTES in *. bool_hyps. unfold saturating_sub, CHUNK_SIZE. set (n := Z.min 8192 pos).
  assert (Hn : 0 < n <= pos) by lia. rewrite Z.max_r by lia.
  assert (Hchunk : take (Z.to_nat n) (drop (Z.to_nat (pos - n)) content) ++ buf = drop (Z.to_nat (pos - n)) content).
  { unfold buf. rewrite Z2Nat.inj_sub by lia. apply take_drop_split; lia. }
  set (chunk := take _ _) in *.
  assert (Hcl : Z.of_nat (length chunk) = n) by (unfold chunk; rewrite length_take, length_drop; lia).
  rewrite bool_decide_eq_false_2 by (intros E; rewrite E in Hcl; cbn in Hcl; lia).
  pose proof (count_nl_le buf). pose proof (count_nl_le chunk).
  unfold saturating_add, U64_MAX.
  rewrite (Z.min_r _ (count_nl buf + _)), (Z.min_r _ (Z.of_nat _ + _)) by lia.
  assert ((1024 * 1024 <? Z.of_nat (length chunk) + Z.of_nat (length buf)) = false) as -> by (apply Z.ltb_ge; lia).
  replace (count_nl buf + count_nl chunk) with (count_nl (chunk ++ buf)) by (rewrite count_nl_app; lia).
  rewrite Hchunk. apply (IH _ (k + 1)); lia.
Qed.

(** The log tail of a job is exactly the last [lines] lines of its decoded
    log (all of them if it is shorter), although the file is read backwards in
    chunks that may cut characters: for every log of at most a mebibyte, and
    for a longer one whose last mebibyte has more than [lines] line feeds. *)
Theorem read_local_log_tail_last_lines (content : bytes) (lines : Z)
    (Hl : 0 < lines)
    (Hfit : Z.of_nat (length content) <= MAX_READ_BYTES \/
            lines < count_nl (drop (length content - Z.to_nat MAX_READ_BYTES) content)) :
  read_local_log_tail (Ok (Some content)) (Z.of_nat (length content)) lines =
  Some (Ok (join [NL] (last_n (Z.to_nat lines) (str_lines (from_utf8_lossy content))))).
Proof.
  unfold read_local_log_tail. rewrite (proj2 (Z.eqb_neq lines 0)) by lia.
  destruct (tail_loop_spec (S (Z.to_nat (Z.of_nat (length content) / CHUNK_SIZE))) content lines (Z.of_nat (length content)) 0)
    as (pos' & Hb & Hp & Hm & Hend); [lia| |lia|unfold MAX_READ_BYTES; lia|].
  { unfold CHUNK_SIZE. pose proof (Z.div_mod (Z.of_nat (length content)) 8192). pose proof (Z.mod_pos_bound (Z.of_nat (length content)) 8192).
    pose proof (Z.div_pos (Z.of_nat (length content)) 8192). lia. }
  rewrite Nat2Z.id, drop_all in Hb. change (count_nl []) with 0 in Hb. rewrite Hb. cbn [mbind option_bind].
  set (buf := drop (Z.to_nat pos') content) in *. do 2 f_equal.
  assert (Hempty : forall ls : list str, (if bool_decide (ls = []) then [] else join [NL] (last_n (Z.to_nat lines) ls)) =
    join [NL] (last_n (Z.to_nat lines) ls)) by (intros ls; case_bool_decide as E; [rewrite E|]; done).
  rewrite Hempty. f_equal.
  assert (Hc : pos' = 0 \/ lines < count_nl buf).
  { destruct Hend as [?|[?|Hend]]; [by left|by right|]. destruct (decide (pos' = 0)) as [|Hne]; [by left|right].
    destruct Hfit as [Hfit|Hfit]; [lia|]. unfold buf. replace (Z.to_nat pos') with (length content - Z.to_nat MAX_READ_BYTES)%nat by lia. done. }
  destruct Hc as [-> |Hc]; [done|].
  rewrite <- (take_drop (Z.to_nat pos') content) at 1. symmetry. apply suffix_last_lines. fold buf. lia.
Qed.

Lemma read_local_log_tail_last_lines_witness :
  read_local_log_tail (Ok (Some (lit "a" ++ [NL] ++ lit "b" ++ [NL] ++ lit "c"))) 5 2 = Some (Ok (lit "b" ++ [NL] ++ lit "c")).
Proof.
  refine (read_local_log_tail_last_lines (lit "a" ++ [NL] ++ lit "b" ++ [NL] ++ lit "c") 2 _ _).
  - vm_compute. reflexivity.
  - left. vm_compute. discriminate.
Defined.
