(* ===== verification/Identification.v ===== *)
(** * SSH identification (src/ssh/identification.rs)

    The exchange of identification lines before the SSH library takes over the
    stream, and the stream that replays what was read. The peer's bytes arrive
    in arbitrary chunks. *)
From Stdlib Require Import ZArith String.
From stdpp Require Import base list.
From S2P Require Import Prelude Errors Utf8.

Definition MAX_LINE_BYTES : nat := 255.
Definition MAX_PREAMBLE_LINES : Z := 20.
Definition READ_BYTES : nat := 256.

Inductive RemotePlatform : Type := Posix | Routeros.
#[global] Instance RemotePlatform_eq_dec : EqDecision RemotePlatform.
Proof. solve_decision. Defined.

Definition platform_display (p : RemotePlatform) : str :=
  match p with Posix => lit "posix" | Routeros => lit "routeros" end.

Definition validate_elevation (p : RemotePlatform) (su_password sudo_password : option str) : result unit SshMcpError :=
  if bool_decide (p = Routeros) &&
     existsb (fun w => negb (str_eqb w [])) (omap id [su_password; sudo_password])
  then Err (ConfigError (lit "RouterOS does not support su_password or sudo_password"))
  else Ok tt.

Inductive ident_error : Type :=
  | InvalidIdentification (reason : str)
  | UnexpectedEof.

Definition ident_error_display (e : ident_error) : str :=
  match e with
  | InvalidIdentification reason => lit "Invalid SSH identification: " ++ reason
  | UnexpectedEof => lit "SSH identification ended before a valid server ID"
  end.

Definition classify (line : bytes) : option RemotePlatform :=
  match from_utf8 line with
  | Err _ => None
  | Ok line =>
      let software := match strip_prefix (lit "SSH-2.0-") line with
                      | Some s => Some s
                      | None => strip_prefix (lit "SSH-1.99-") line
                      end in
      s ← software;
      let token := default [] (head (split_char 32 s)) in
      Some (if str_eqb token (lit "ROSSSH") then Routeros else Posix)
  end.

(** The position of the first line feed that is not the first byte. *)
Definition find_newline (pending : bytes) : option nat :=
  match pending with
  | [] => None
  | _ :: rest => (fun x => S x.1) <$> list_find (fun b => b = NL) rest
  end.

Inductive scan_result : Type :=
  | Decided (r : result RemotePlatform ident_error)
  | More (preamble_lines : Z) (pending : bytes).

(** The inner loop: consume complete lines. Each turn removes at least two
    bytes, so the length of [pending] is enough fuel. *)
Fixpoint scan (fuel : nat) (preamble_lines : Z) (pending : bytes) : scan_result :=
  match fuel with
  | O => More preamble_lines pending
  | S fuel =>
      match find_newline pending with
      | None =>
          if (MAX_LINE_BYTES <=? length pending)%nat then Decided (Err (InvalidIdentification (lit "line exceeds 255 bytes")))
          else More preamble_lines pending
      | Some newline =>
          if (MAX_LINE_BYTES <? newline + 1)%nat then Decided (Err (InvalidIdentification (lit "line exceeds 255 bytes")))
          else
            let line := take newline pending in
            match classify (default line (strip_suffix [CR] line)) with
            | Some platform => Decided (Ok platform)
            | None =>
                let preamble_lines := preamble_lines + 1 in
                if MAX_PREAMBLE_LINES <? preamble_lines then
                  Decided (Err (InvalidIdentification (lit "more than 20 preamble lines")))
                else scan fuel preamble_lines (drop (newline + 1) pending)
            end
      end
  end.

(** The outer loop. A chunk is what one read could return; a read takes at
    most [READ_BYTES] less the pending bytes, and an empty read is the end of
    the stream. The answer carries what was read and the chunks left. [None]
    when the fuel runs out. *)
Fixpoint identify_loop (fuel : nat) (replay : bytes) (preamble_lines : Z) (pending : bytes) (chunks : list bytes) :
    option (result (bytes * list bytes * RemotePlatform) ident_error) :=
  match fuel with
  | O => None
  | S fuel =>
      match chunks with
      | [] | [] :: _ => Some (Err UnexpectedEof)
      | chunk :: chunks =>
          let available := (READ_BYTES - length pending)%nat in
          let got := take available chunk in
          let chunks := match drop available chunk with [] => chunks | rest => rest :: chunks end in
          let replay := replay ++ got in
          match scan (length (pending ++ got)) preamble_lines (pending ++ got) with
          | Decided (Ok platform) => Some (Ok (replay, chunks, platform))
          | Decided (Err e) => Some (Err e)
          | More n pending => identify_loop fuel replay n pending chunks
          end
      end
  end.

Definition identify (chunks : list bytes) : option (result (bytes * list bytes * RemotePlatform) ident_error) :=
  identify_loop (S (length (concat chunks))) [] 0 [] chunks.

(** ** The stream after the exchange *)

Record IdentificationStream : Type := {
  inner : list bytes;
  replay : bytes;
  client_id : bytes;
  forwarded : bytes
}.

(** One read into a buffer with [remaining] free bytes; [replay] is the part not
    replayed yet. *)
Definition poll_read (s : IdentificationStream) (remaining : nat) : bytes * IdentificationStream :=
  match replay s with
  | [] =>
      match inner s with
      | [] => ([], s)
      | chunk :: rest =>
          (take remaining chunk,
           {| inner := match drop remaining chunk with [] => rest | r => r :: rest end; replay := [];
              client_id := client_id s; forwarded := forwarded s |})
      end
  | r => (take remaining r,
          {| inner := inner s; replay := drop remaining r; client_id := client_id s; forwarded := forwarded s |})
  end.

(** One write; [client_id] is the part of the identification not yet written by
    the library, [forwarded] what has reached the peer since. [accepted] is how
    much the inner stream takes. *)
Definition poll_write (s : IdentificationStream) (buffer : bytes) (accepted : nat) :
    result nat ident_error * IdentificationStream :=
  match client_id s with
  | [] => (Ok (length (take accepted buffer)),
           {| inner := inner s; replay := replay s; client_id := []; forwarded := forwarded s ++ take accepted buffer |})
  | id =>
      let count := min (length buffer) (length id) in
      if bool_decide (take count buffer <> take count id) then
        (Err (InvalidIdentification (lit "russh client identification did not match the exchanged ID")), s)
      else (Ok count, {| inner := inner s; replay := replay s; client_id := drop count id; forwarded := forwarded s |})
  end.

(** ** The exchange does not depend on the chunks *)

Lemma find_newline_lt p i : find_newline p = Some i -> (1 <= i < length p)%nat.
Proof.
  unfold find_newline. destruct p as [|b p]; [done|]. intros H. apply fmap_Some in H as ([j x] & H & ->).
  apply list_find_Some in H as (H & _). apply lookup_lt_Some in H. cbn. lia.
Qed.

Lemma find_newline_app p q i : find_newline p = Some i -> find_newline (p ++ q) = Some i.
Proof.
  destruct p as [|b p]; [done|]. simpl. intros H. apply fmap_Some in H as ([j x] & H & ->).
  by erewrite list_find_app_l by exact H.
Qed.

Lemma find_newline_app_None p q i :
  find_newline p = None -> find_newline (p ++ q) = Some i -> p <> [] -> (length p <= i)%nat.
Proof.
  destruct p as [|b p]; [done|]. simpl. intros Hn H _.
  apply fmap_None in Hn. apply fmap_Some in H as ([j x] & H & ->). cbn.
  rewrite list_find_app_r in H by exact Hn. apply fmap_Some in H as ([k y] & _ & [= -> ->]). cbn. lia.
Qed.

Lemma scan_enough f1 : forall f2 n p, (length p <= f1)%nat -> (length p <= f2)%nat -> scan f1 n p = scan f2 n p.
Proof.
  induction f1 as [|f1 IH]; intros [|f2] n p H1 H2; [done|..].
  - destruct p; [done|cbn in H1; lia].
  - destruct p; [done|cbn in H2; lia].
  - cbn [scan]. destruct (find_newline p) as [i|] eqn:E; [|done]. apply find_newline_lt in E.
    destruct (_ <? _)%nat; [done|]. destruct (classify _); [done|]. destruct (_ <? _); [done|].
    apply IH; rewrite length_drop; lia.
Qed.

(** Later bytes change no decision, and do not matter for what was consumed. *)
Lemma scan_app f : forall n p q, (length p <= f)%nat ->
  match scan f n p with
  | Decided r => scan (length (p ++ q)) n (p ++ q) = Decided r
  | More n' p' => scan (length (p ++ q)) n (p ++ q) = scan (length (p' ++ q)) n' (p' ++ q)
  end.
Proof.
  induction f as [|f IH]; intros n p q Hf; [by destruct p; [|cbn in Hf; lia]|].
  destruct (decide (p = [])) as [->|Hne]; [done|].
  assert (Hlen : exists g, length (p ++ q) = S g) by (destruct p; [done|]; cbn; eauto).
  destruct Hlen as [g Hg]. cbn [scan]. destruct (find_newline p) as [i|] eqn:E.
  - pose proof (find_newline_lt _ _ E) as Hi. rewrite Hg. cbn [scan]. rewrite (find_newline_app _ q _ E).
    destruct (_ <? _)%nat eqn:Ei; [done|]. rewrite take_app_le by lia.
    destruct (classify _); [done|]. destruct (_ <? _) eqn:En; [done|].
    rewrite drop_app_le by lia. specialize (IH (n + 1) (drop (i + 1) p) q ltac:(rewrite length_drop; lia)).
    rewrite (scan_enough g (length (drop (i + 1) p ++ q))); [|rewrite length_app in *; rewrite ?length_drop; lia..].
    done.
  - destruct (MAX_LINE_BYTES <=? length p)%nat eqn:El; [|done]. rewrite Hg. cbn [scan].
    destruct (find_newline (p ++ q)) as [i|] eqn:E2.
    + pose proof (find_newline_app_None _ _ _ E E2 Hne). apply Nat.leb_le in El.
      by rewrite (proj2 (Nat.ltb_lt _ _)) by (unfold MAX_LINE_BYTES in *; lia).
    + apply Nat.leb_le in El. by rewrite (proj2 (Nat.leb_le _ _)) by (rewrite length_app; lia).
Qed.

(** What is left is short, and what was consumed is bounded by the lines. *)
Lemma scan_More f : forall n p n' p', (length p <= f)%nat -> n <= MAX_PREAMBLE_LINES ->
  scan f n p = More n' p' ->
  (length p' < MAX_LINE_BYTES)%nat /\ find_newline p' = None /\ n <= n' <= MAX_PREAMBLE_LINES /\
  Z.of_nat (length p) <= Z.of_nat (length p') + 255 * (n' - n).
Proof.
  induction f as [|f IH]; intros n p n' p' Hf Hn H.
  { destruct p; [|cbn in Hf; lia]. cbn in H. simplify_eq. unfold MAX_LINE_BYTES. cbn. split_and!; [lia|done|lia..]. }
  cbn [scan] in H. destruct (find_newline p) as [i|] eqn:E.
  - apply find_newline_lt in E. destruct (_ <? _)%nat eqn:Ei; [done|]. apply Nat.ltb_ge in Ei.
    destruct (classify _); [done|]. destruct (_ <? _) eqn:En; [done|]. apply Z.ltb_ge in En.
    apply IH in H as (H1 & H2 & H3 & H4); [|rewrite length_drop; lia|done]. rewrite length_drop in H4.
    unfold MAX_LINE_BYTES in *. split_and!; [done|done|lia..].
  - destruct (_ <=? _)%nat eqn:El; [done|]. simplify_eq. apply Nat.leb_gt in El. split_and!; [done|done|lia..].
Qed.

(** The exchange on the bytes as a whole. *)
Definition ident_spec (all : bytes) : result RemotePlatform ident_error :=
  match scan (length all) 0 all with Decided r => r | More _ _ => Err UnexpectedEof end.

Definition decided (r : scan_result) : result RemotePlatform ident_error :=
  match r with Decided r => r | More _ _ => Err UnexpectedEof end.

Lemma scan_idle n p : find_newline p = None -> (length p < MAX_LINE_BYTES)%nat -> scan (length p) n p = More n p.
Proof.
  intros Hn Hp. destruct p as [|b p]; [done|]. cbn [length scan]. rewrite Hn.
  cbn [length] in Hp. destruct (Nat.leb_spec MAX_LINE_BYTES (S (length p))); [lia|done].
Qed.

Lemma identify_loop_spec fuel : forall replay n pending chunks,
  (length (concat chunks) < fuel)%nat -> Forall (fun c => c <> []) chunks ->
  find_newline pending = None -> (length pending < MAX_LINE_BYTES)%nat -> 0 <= n <= MAX_PREAMBLE_LINES ->
  Z.of_nat (length replay) <= Z.of_nat (length pending) + 255 * n ->
  let answer := decided (scan (length (pending ++ concat chunks)) n (pending ++ concat chunks)) in
  match identify_loop fuel replay n pending chunks with
  | None => False
  | Some (Ok (replay', rest, p)) => answer = Ok p /\ replay' ++ concat rest = replay ++ concat chunks /\
      Z.of_nat (length replay') <= 255 * MAX_PREAMBLE_LINES + 256
  | Some (Err e) => answer = Err e
  end.
Proof.
  induction fuel as [|fuel IH]; intros replay n pending chunks Hf Hne Hidle Hp Hn Hr answer; [lia|]. cbn [identify_loop].
  destruct chunks as [|chunk chunks].
  { unfold answer. cbn [concat]. by rewrite app_nil_r, scan_idle. }
  apply Forall_cons in Hne as [Hc Hne]. destruct chunk as [|b chunk]; [done|]. set (c := b :: chunk) in *.
  set (available := (READ_BYTES - length pending)%nat). set (got := take available c).
  set (rest := match drop available c with [] => chunks | r => r :: chunks end).
  assert (Hrest : concat rest = drop available c ++ concat chunks /\ Forall (fun c => c <> []) rest)
    by (unfold rest; destruct (drop available c); [done|]; split; [done|]; by constructor).
  destruct Hrest as [Hcr Hner].
  assert (Hall : concat (c :: chunks) = got ++ concat rest) by (rewrite Hcr; cbn [concat]; by rewrite app_assoc; unfold got; rewrite take_drop).
  assert (Hav : (1 <= available)%nat) by (unfold available, READ_BYTES, MAX_LINE_BYTES in *; lia).
  assert (Hgot : (1 <= length got <= available)%nat) by (unfold got; rewrite length_take; cbn [length c]; lia).
  pose proof (scan_app _ n (pending ++ got) (concat rest) (Nat.le_refl _)) as Happ.
  subst answer. rewrite Hall, app_assoc.
  destruct (scan (length (pending ++ got)) n (pending ++ got)) as [[p|e]|n' p'] eqn:E; rewrite Happ.
  - split_and!; [done|by rewrite <- app_assoc|]. rewrite length_app.
    unfold available, READ_BYTES, MAX_LINE_BYTES, MAX_PREAMBLE_LINES in *. lia.
  - done.
  - apply scan_More in E as (H1 & H2 & H3 & H4); [|done|lia].
    assert (Hf' : (length (concat rest) < fuel)%nat) by (rewrite Hall, length_app in Hf; lia).
    specialize (IH (replay ++ got) n' p' rest Hf' Hner H2 H1 ltac:(lia)).
    rewrite !length_app in *. specialize (IH ltac:(lia)). cbv zeta in IH. rewrite <- app_assoc in IH. exact IH.
Qed.

(** The identification does not depend on how the peer's bytes are split:
    for every sequence of non-empty chunks the exchange ends, with the decision
    that the bytes as a whole determine (a platform, a bad line, too many
    lines, or the end of the stream), and on success nothing is lost or
    invented: what is kept for replay followed by what is still unread is the
    peer's stream, and what is kept is bounded. *)
Theorem identify_any_chunking (chunks : list bytes) (Hne : Forall (fun c => c <> []) chunks) :
  match identify chunks with
  | None => False
  | Some (Ok (replay, rest, p)) => ident_spec (concat chunks) = Ok p /\ replay ++ concat rest = concat chunks /\
      Z.of_nat (length replay) <= 255 * 20 + 256
  | Some (Err e) => ident_spec (concat chunks) = Err e
  end.
Proof.
  unfold identify, ident_spec.
  pose proof (identify_loop_spec (S (length (concat chunks))) [] 0 [] chunks) as H.
  apply H; clear H; [lia|done|done|unfold MAX_LINE_BYTES; cbn; lia|unfold MAX_PREAMBLE_LINES; lia|cbn; lia].
Qed.

Lemma identify_any_chunking_witness :
  let chunks := [lit "hi" ++ [NL] ++ lit "SSH-2.0-ROS"; lit "SSH" ++ [CR]; [NL]; lit "kex"] in
  identify chunks = Some (Ok (lit "hi" ++ [NL] ++ lit "SSH-2.0-ROSSSH" ++ [CR; NL], [lit "kex"], Routeros)) /\
  ident_spec (concat chunks) = Ok Routeros.
Proof.
  intros chunks. assert (E : identify chunks = Some (Ok (lit "hi" ++ [NL] ++ lit "SSH-2.0-ROSSSH" ++ [CR; NL], [lit "kex"], Routeros)))
    by (vm_compute; reflexivity).
  split; [exact E|]. pose proof (identify_any_chunking chunks) as H. rewrite E in H.
  apply H. repeat constructor; discriminate.
Defined.

(** ** The replaying stream *)

(** Reads into buffers of the given sizes. *)
Fixpoint reads (s : IdentificationStream) (sizes : list nat) : bytes * IdentificationStream :=
  match sizes with
  | [] => ([], s)
  | n :: sizes => let '(a, s) := poll_read s n in let '(b, s) := reads s sizes in (a ++ b, s)
  end.

Definition unread (s : IdentificationStream) : bytes := replay s ++ concat (inner s).

Lemma poll_read_unread s n : unread s = (poll_read s n).1 ++ unread (poll_read s n).2.
Proof.
  unfold poll_read, unread. destruct (replay s) as [|b r] eqn:Er.
  - destruct (inner s) as [|c l] eqn:Ei; [cbn [fst snd]; by rewrite Er, Ei|]. cbn [fst snd inner replay app concat].
    rewrite <- (take_drop n c) at 1. rewrite <- app_assoc. f_equal. by destruct (drop n c).
  - cbn [fst snd inner replay]. by rewrite app_assoc, take_drop.
Qed.

(** Reading gives back exactly the bytes of the peer, the replayed ones first. *)
Lemma reads_replay s sizes : unread s = (reads s sizes).1 ++ unread (reads s sizes).2.
Proof.
  revert s; induction sizes as [|n sizes IH]; intros s; cbn [reads]; [done|].
  rewrite (poll_read_unread s n). destruct (poll_read s n) as [a s1]. cbn. rewrite (IH s1).
  destruct (reads s1 sizes). cbn. by rewrite app_assoc.
Qed.
