(* ===== verification/Connection.v ===== *)
(** * The connection manager (src/ssh/connection.rs)

    The state shared by all commands, as the critical sections of the manager
    change it. Each critical section (under the locks, in the order su,
    session, probe) is one function; a run of the program is any interleaving
    of critical sections and of transports closing on their own. *)
From Stdlib Require Import ZArith String.
From stdpp Require Import base list relations.
From S2P Require Import Prelude Errors Utf8 Channel Identification.

Definition MAX_RECONNECT_BACKOFF_MS : Z := 30000.
Definition MIN_HEALTH_PROBE_TTL_MS : Z := 250.
Definition MAX_HEALTH_PROBE_TTL_MS : Z := 5000.

(** [r_closed]: the target's or the jump host's transport is closed. *)
Record ActiveRoute : Type := {
  generation : Z;
  platform : RemotePlatform;
  auto_elevation_attempted : bool;
  r_closed : bool
}.

(** A channel is named by the generation it was opened on. *)
Record manager : Type := {
  session : option ActiveRoute;
  next_generation : Z;
  is_connecting : bool;
  shutting_down : bool;
  su_channel : option Z;
  su_generation : Z;
  is_elevated : bool;
  has_timeout_cmd : bool;
  last_health_probe_ok_at : option (Z * Z);
  remote_platform : option RemotePlatform
}.

Definition manager_new : manager := {|
  session := None; next_generation := 1; is_connecting := false; shutting_down := false; su_channel := None;
  su_generation := 0; is_elevated := false; has_timeout_cmd := false; last_health_probe_ok_at := None; remote_platform := None
|}.

Definition shutting_down_error : SshMcpError := Connection (lit "SSH connection manager is shutting down").
Definition ensure_not_shutting_down (m : manager) : result unit SshMcpError :=
  if shutting_down m then Err shutting_down_error else Ok tt.

Definition open_on (m : manager) (g : Z) : bool :=
  match session m with Some r => (generation r =? g) && negb (r_closed r) | None => false end.
Definition current_generation (m : manager) : option Z := generation <$> session m.
Definition is_connected (m : manager) : bool := match session m with Some r => negb (r_closed r) | None => false end.

(** ** Publishing a route *)

(** [next_generation.fetch_add(1)] *)
Definition take_generation (m : manager) : Z * manager :=
  (next_generation m,
   {| session := session m; next_generation := next_generation m + 1; is_connecting := is_connecting m;
      shutting_down := shutting_down m; su_channel := su_channel m; su_generation := su_generation m;
      is_elevated := is_elevated m; has_timeout_cmd := has_timeout_cmd m;
      last_health_probe_ok_at := last_health_probe_ok_at m; remote_platform := remote_platform m |}).

(** The publication of an authenticated candidate. *)
Definition publish (g : Z) (p : RemotePlatform) (m : manager) : result unit SshMcpError * manager :=
  if shutting_down m then (Err shutting_down_error, m)
  else
    let frozen := default p (remote_platform m) in
    let keep s probe := {| session := s; next_generation := next_generation m; is_connecting := is_connecting m;
      shutting_down := shutting_down m; su_channel := su_channel m; su_generation := su_generation m;
      is_elevated := is_elevated m; has_timeout_cmd := has_timeout_cmd m;
      last_health_probe_ok_at := probe; remote_platform := Some frozen |} in
    if bool_decide (frozen <> p) then
      (Err (Connection (lit "SSH target compatibility changed from " ++ platform_display frozen ++ lit " to " ++
            platform_display p ++ lit "; refusing to replace the frozen backend")),
       keep (session m) (last_health_probe_ok_at m))
    else (Ok tt, keep (Some {| generation := g; platform := p; auto_elevation_attempted := false; r_closed := false |}) None).

(** ** Removing a route *)

Definition clear_session (m : manager) : manager := {|
  session := None; next_generation := next_generation m; is_connecting := is_connecting m; shutting_down := shutting_down m;
  su_channel := None; su_generation := 0; is_elevated := false; has_timeout_cmd := has_timeout_cmd m;
  last_health_probe_ok_at := None; remote_platform := remote_platform m |}.

Definition invalidate_session_inner (expected : option Z) (m : manager) : manager :=
  if bool_decide (is_Some expected) && bool_decide (current_generation m <> expected) then m else clear_session m.

(** [close]: the gate first, the route later. *)
Definition close_begin (m : manager) : manager := {|
  session := session m; next_generation := next_generation m; is_connecting := is_connecting m; shutting_down := true;
  su_channel := su_channel m; su_generation := su_generation m; is_elevated := is_elevated m;
  has_timeout_cmd := has_timeout_cmd m; last_health_probe_ok_at := last_health_probe_ok_at m;
  remote_platform := remote_platform m |}.

(** ** The elevated shell *)

Definition with_su (ch : option Z) (g : Z) (elevated : bool) (m : manager) : manager := {|
  session := session m; next_generation := next_generation m; is_connecting := is_connecting m;
  shutting_down := shutting_down m; su_channel := ch; su_generation := g; is_elevated := elevated;
  has_timeout_cmd := has_timeout_cmd m; last_health_probe_ok_at := last_health_probe_ok_at m;
  remote_platform := remote_platform m |}.

Definition try_take_su_channel (m : manager) : option (Z * Z) * manager :=
  if shutting_down m || negb (open_on m (su_generation m)) then (None, m)
  else ((fun ch => (su_generation m, ch)) <$> su_channel m, with_su None (su_generation m) (is_elevated m) m).

Definition restore_su_channel (g ch : Z) (m : manager) : manager :=
  if shutting_down m || bool_decide (is_Some (su_channel m)) || negb (su_generation m =? g) || negb (open_on m g) then m
  else with_su (Some ch) (su_generation m) (is_elevated m) m.

Definition has_su_channel (m : manager) : bool := bool_decide (is_Some (su_channel m)) && open_on m (su_generation m).

Definition reset_su_state_for_generation (g : Z) (m : manager) : manager :=
  if bool_decide (current_generation m <> Some g) then m else with_su None 0 false m.

(** The end of a successful elevation on a channel of generation [g]. *)
Definition store_elevated (g : Z) (m : manager) : result unit SshMcpError * manager :=
  if shutting_down m || bool_decide (current_generation m <> Some g) then
    (Err (ElevationFailed (lit "SSH route changed during elevation")), m)
  else (Ok tt, with_su (Some g) g true m).

(** [set_su_password(None)] *)
Definition clear_su (m : manager) : manager := with_su None 0 false m.

Definition begin_auto_elevation (su_password_set : bool) (m : manager) : option Z * manager :=
  match session m with
  | Some r =>
      if negb su_password_set || auto_elevation_attempted r || shutting_down m then (None, m)
      else (Some (generation r),
            {| session := Some {| generation := generation r; platform := platform r; auto_elevation_attempted := true;
                                  r_closed := r_closed r |};
               next_generation := next_generation m; is_connecting := is_connecting m; shutting_down := shutting_down m;
               su_channel := su_channel m; su_generation := su_generation m; is_elevated := is_elevated m;
               has_timeout_cmd := has_timeout_cmd m; last_health_probe_ok_at := last_health_probe_ok_at m;
               remote_platform := remote_platform m |})
  | None => (None, m)
  end.

(** ** Health *)

Definition health_probe_ttl (health_probe_timeout_ms : Z) : Z :=
  Z.max MIN_HEALTH_PROBE_TTL_MS (Z.min (saturating_mul U64_MAX health_probe_timeout_ms 2) MAX_HEALTH_PROBE_TTL_MS).

Definition is_health_probe_fresh (ttl now g : Z) (m : manager) : bool :=
  open_on m g &&
  match last_health_probe_ok_at m with
  | Some (cached, last_ok_at) => (cached =? g) && (now - last_ok_at <? ttl)
  | None => false
  end.

Definition mark_health_probe_ok (now g : Z) (m : manager) : bool * manager :=
  if negb (open_on m g) then (false, m)
  else (true,
    {| session := session m; next_generation := next_generation m; is_connecting := is_connecting m;
       shutting_down := shutting_down m; su_channel := su_channel m; su_generation := su_generation m;
       is_elevated := is_elevated m; has_timeout_cmd := has_timeout_cmd m;
       last_health_probe_ok_at := Some (g, now); remote_platform := remote_platform m |}).

(** ** Other fields *)

Definition set_connecting (b : bool) (m : manager) : manager := {|
  session := session m; next_generation := next_generation m; is_connecting := b; shutting_down := shutting_down m;
  su_channel := su_channel m; su_generation := su_generation m; is_elevated := is_elevated m;
  has_timeout_cmd := has_timeout_cmd m; last_health_probe_ok_at := last_health_probe_ok_at m;
  remote_platform := remote_platform m |}.

(** The answer of [command -v timeout], or [disable_timeout_wrapper]. *)
Definition set_timeout_cmd (available : bool) (m : manager) : manager := {|
  session := session m; next_generation := next_generation m; is_connecting := is_connecting m;
  shutting_down := shutting_down m; su_channel := su_channel m; su_generation := su_generation m;
  is_elevated := is_elevated m; has_timeout_cmd := available; last_health_probe_ok_at := last_health_probe_ok_at m;
  remote_platform := remote_platform m |}.

(** The transport of the current route closes on its own. *)
Definition transport_closes (m : manager) : manager := {|
  session := (fun r => {| generation := generation r; platform := platform r;
    auto_elevation_attempted := auto_elevation_attempted r; r_closed := true |}) <$> session m;
  next_generation := next_generation m; is_connecting := is_connecting m; shutting_down := shutting_down m;
  su_channel := su_channel m; su_generation := su_generation m; is_elevated := is_elevated m;
  has_timeout_cmd := has_timeout_cmd m; last_health_probe_ok_at := last_health_probe_ok_at m;
  remote_platform := remote_platform m |}.

(** ** Runs *)

(** Where the task that owns the connection attempt is. *)
Inductive owner_phase : Type :=
  | NoOwner
  | Acquired
  | Stale (g : Z)
  | Cleared
  | Candidate (g : Z)
  | Finished.

(** The manager, its connection attempt, the su channels some task has taken
    (with the generation it took them under), and the generations published so
    far. *)
Record system : Type := {
  mgr : manager;
  owner : owner_phase;
  taken : list (Z * Z);
  published : list Z
}.

Definition with_mgr (s : system) (m : manager) : system :=
  {| mgr := m; owner := owner s; taken := taken s; published := published s |}.
Definition with_owner (s : system) (m : manager) (o : owner_phase) : system :=
  {| mgr := m; owner := o; taken := taken s; published := published s |}.

(** One critical section of some task. *)
Inductive step (s : system) : system -> Prop :=
  (* connect_transport_only: the owner *)
  | step_acquire : is_connecting (mgr s) = false -> step s (with_owner s (set_connecting true (mgr s)) Acquired)
  | step_release : owner s <> NoOwner -> step s (with_owner s (set_connecting false (mgr s)) NoOwner)
  | step_no_stale : owner s = Acquired -> session (mgr s) = None -> step s (with_owner s (mgr s) Cleared)
  | step_stale g : owner s = Acquired -> current_generation (mgr s) = Some g -> step s (with_owner s (mgr s) (Stale g))
  | step_clear_stale g : owner s = Stale g -> step s (with_owner s (invalidate_session_inner (Some g) (mgr s)) Cleared)
  | step_candidate : owner s = Cleared ->
      step s (with_owner s (take_generation (mgr s)).2 (Candidate (take_generation (mgr s)).1))
  | step_publish g p : owner s = Candidate g ->
      step s {| mgr := (publish g p (mgr s)).2; owner := Finished; taken := taken s;
                published := if is_ok (publish g p (mgr s)).1 then published s ++ [g] else published s |}
  (* any task *)
  | step_invalidate expected : step s (with_mgr s (invalidate_session_inner expected (mgr s)))
  | step_close_begin : step s (with_mgr s (close_begin (mgr s)))
  | step_take_su : step s {| mgr := (try_take_su_channel (mgr s)).2; owner := owner s; published := published s;
                             taken := match (try_take_su_channel (mgr s)).1 with Some x => x :: taken s | None => taken s end |}
  | step_restore_su g ch : (g, ch) ∈ taken s -> step s (with_mgr s (restore_su_channel g ch (mgr s)))
  | step_reset_su g : step s (with_mgr s (reset_su_state_for_generation g (mgr s)))
  | step_elevated g : step s (with_mgr s (store_elevated g (mgr s)).2)
  | step_clear_su : step s (with_mgr s (clear_su (mgr s)))
  | step_auto_elevation b : step s (with_mgr s (begin_auto_elevation b (mgr s)).2)
  | step_probe now g : step s (with_mgr s (mark_health_probe_ok now g (mgr s)).2)
  | step_timeout_cmd b : step s (with_mgr s (set_timeout_cmd b (mgr s)))
  | step_transport_closes : step s (with_mgr s (transport_closes (mgr s))).

Definition initial_system : system := {| mgr := manager_new; owner := NoOwner; taken := []; published := [] |}.
Definition reachable (s : system) : Prop := rtc step initial_system s.

(** ** The invariant *)

Record wf (s : system) : Prop := {
  wf_session : forall r, session (mgr s) = Some r ->
    generation r < next_generation (mgr s) /\ generation r ∈ published s /\ remote_platform (mgr s) = Some (platform r);
  wf_su : forall ch, su_channel (mgr s) = Some ch ->
    su_generation (mgr s) = ch /\ current_generation (mgr s) = Some ch;
  wf_elevated : is_elevated (mgr s) = true -> current_generation (mgr s) = Some (su_generation (mgr s));
  wf_probe : forall g t, last_health_probe_ok_at (mgr s) = Some (g, t) -> current_generation (mgr s) = Some g;
  wf_taken : Forall (fun x => x.1 = x.2) (taken s);
  wf_published : Forall (fun g => g < next_generation (mgr s)) (published s);
  wf_owner : match owner s with
    | NoOwner => is_connecting (mgr s) = false
    | Acquired | Finished => is_connecting (mgr s) = true
    | Stale g => is_connecting (mgr s) = true /\ (session (mgr s) = None \/ current_generation (mgr s) = Some g)
    | Cleared => is_connecting (mgr s) = true /\ session (mgr s) = None
    | Candidate g => is_connecting (mgr s) = true /\ session (mgr s) = None /\
        g < next_generation (mgr s) /\ Forall (fun g' => g' < g) (published s)
    end
}.

Lemma wf_initial : wf initial_system.
Proof. by split. Qed.

(** Removing the route keeps everything. *)
Lemma wf_clear s : wf s -> wf (with_mgr s (clear_session (mgr s))).
Proof. intros [_ _ _ _ Ht Hp Ho]. split; try done. cbn. destruct (owner s); cbn in *; naive_solver. Qed.

Lemma wf_invalidate s e : wf s -> wf (with_mgr s (invalidate_session_inner e (mgr s))).
Proof. intros H. unfold invalidate_session_inner. destruct (_ && _); [by destruct s|by apply wf_clear]. Qed.

(** Changes of the elevated shell only. *)
Lemma wf_with_su s ch g b :
  wf s -> (forall c, ch = Some c -> g = c /\ current_generation (mgr s) = Some c) ->
  (b = true -> current_generation (mgr s) = Some g) -> wf (with_mgr s (with_su ch g b (mgr s))).
Proof. intros [H1 H2 H3 H4 H5 H6 H7] Hc Hb. by split. Qed.

Lemma open_on_current m g : open_on m g = true -> current_generation m = Some g.
Proof. unfold open_on, current_generation. destruct (session m); [|done]. intros H; bool_hyps. cbn. by subst. Qed.

Lemma wf_take_su s : wf s ->
  wf {| mgr := (try_take_su_channel (mgr s)).2; owner := owner s; published := published s;
        taken := match (try_take_su_channel (mgr s)).1 with Some x => x :: taken s | None => taken s end |}.
Proof.
  intros H. unfold try_take_su_channel. destruct (_ || _) eqn:E; [by destruct s|]. cbn [fst snd].
  apply (wf_with_su s None (su_generation (mgr s)) (is_elevated (mgr s))) in H as H'; [|done|apply H].
  destruct H' as [H1 H2 H3 H4 H5 H6 H7]. split; try done. cbn in *.
  destruct (su_channel (mgr s)) as [ch|] eqn:Es; [|done]. constructor; [|done]. cbn.
  by destruct (wf_su _ H ch Es).
Qed.

Lemma wf_publish s g p : wf s -> owner s = Candidate g ->
  wf {| mgr := (publish g p (mgr s)).2; owner := Finished; taken := taken s;
        published := if is_ok (publish g p (mgr s)).1 then published s ++ [g] else published s |}.
Proof.
  intros [H1 H2 H3 H4 H5 H6 H7] Ho. rewrite Ho in H7. destruct H7 as (Hc & Hs & Hg & Hlt).
  assert (Hcur : current_generation (mgr s) = None) by (unfold current_generation; by rewrite Hs).
  unfold publish. destruct (shutting_down (mgr s)); [by split|].
  destruct (bool_decide _) eqn:E; cbn [fst snd is_ok].
  - split; cbn; try done. intros r Hr. by rewrite Hs in Hr.
  - apply bool_decide_eq_false in E. apply dec_stable in E. split; cbn; try done.
    + intros r [= <-]. cbn. split_and!; [done|set_solver|by rewrite E].
    + intros ch Hch. destruct (H2 _ Hch) as [_ Hx]. by rewrite Hcur in Hx.
    + intros He. specialize (H3 He). by rewrite Hcur in H3.
    + apply Forall_app. split; [done|]. by constructor.
Qed.

(** Changes of the route that keep its generation and platform. *)
Lemma wf_same_route s m (f : ActiveRoute -> ActiveRoute) :
  (forall r, generation (f r) = generation r /\ platform (f r) = platform r) ->
  session m = f <$> session (mgr s) -> next_generation m = next_generation (mgr s) ->
  is_connecting m = is_connecting (mgr s) -> su_channel m = su_channel (mgr s) ->
  su_generation m = su_generation (mgr s) -> is_elevated m = is_elevated (mgr s) ->
  last_health_probe_ok_at m = last_health_probe_ok_at (mgr s) -> remote_platform m = remote_platform (mgr s) ->
  wf s -> wf (with_mgr s m).
Proof.
  intros Hf E1 E2 E3 E4 E5 E6 E7 E8 [H1 H2 H3 H4 H5 H6 H7].
  assert (Hcur : current_generation m = current_generation (mgr s)).
  { unfold current_generation. rewrite E1. destruct (session (mgr s)) as [r|]; [|done]. cbn. by rewrite (proj1 (Hf r)). }
  split; cbn; rewrite ?E2, ?E3, ?E4, ?E5, ?E6, ?E7, ?E8, ?Hcur; try done.
  - intros r Hr. rewrite E1 in Hr. apply fmap_Some in Hr as (r0 & Hr & ->). destruct (Hf r0) as [-> ->]. by apply H1.
  - destruct (owner s); cbn in *; rewrite ?E1, ?Hcur; try done; destruct H7 as [? Hs]; split; try done.
    + destruct Hs as [Hs|Hs]; [left; by rewrite Hs|by right].
    + by rewrite Hs.
    + destruct Hs as (Hs & ? & ?). by rewrite Hs.
Qed.

Lemma wf_step s s' : wf s -> step s s' -> wf s'.
Proof.
  intros H Hstep. pose proof H as [H1 H2 H3 H4 H5 H6 H7].
  destruct Hstep as [Hc|Ho|Ho Hs|g Ho Hs|g Ho|Ho|g p Ho|e| | |g ch Hin|g|g| |b|now g|b|].
  - by split.
  - by split.
  - split; try done. cbn. rewrite Ho in H7. by split.
  - split; try done. cbn. rewrite Ho in H7. split; [done|by right].
  - rewrite Ho in H7. destruct H7 as [Hc Hg]. pose proof (wf_invalidate s (Some g) H) as [G1 G2 G3 G4 G5 G6 _].
    split; try done. cbn. unfold invalidate_session_inner. rewrite bool_decide_eq_true_2 by done. cbn.
    case_bool_decide as E; cbn; [|by split]. split; [done|]. destruct Hg as [?|Hg]; [done|by destruct E].
  - rewrite Ho in H7. destruct H7 as [Hc Hs]. split; cbn; try done.
    + intros r Hr. by rewrite Hs in Hr.
    + eapply Forall_impl; [exact H6|]. cbn. lia.
    + split_and!; [done..|lia|done].
  - by apply wf_publish.
  - by apply wf_invalidate.
  - by split.
  - by apply wf_take_su.
  - unfold restore_su_channel. destruct (_ || _) eqn:E; [by destruct s|].
    apply orb_false_iff in E as [E E4]. apply orb_false_iff in E as [E E3]. apply negb_false_iff in E3, E4.
    apply open_on_current in E4. apply Z.eqb_eq in E3. eapply Forall_forall in H5 as Heq; [|exact Hin]. cbn in Heq.
    apply wf_with_su; [done| |done]. intros c [= <-]. by rewrite E4, E3, Heq.
  - unfold reset_su_state_for_generation. case_bool_decide; [by destruct s|]. by apply wf_with_su.
  - unfold store_elevated. destruct (_ || _) eqn:E; [by destruct s|]. apply orb_false_iff in E as [_ E].
    apply bool_decide_eq_false in E. apply dec_stable in E. apply wf_with_su; [done|by intros c [= <-]|done].
  - by apply wf_with_su.
  - unfold begin_auto_elevation. destruct (session (mgr s)) as [r|] eqn:Hs; [|by destruct s].
    destruct (_ || _); [by destruct s|]. cbn [snd].
    eapply (wf_same_route s _ (fun r => {| generation := generation r; platform := platform r;
      auto_elevation_attempted := true; r_closed := r_closed r |})); try done. by rewrite Hs.
  - unfold mark_health_probe_ok. destruct (open_on (mgr s) g) eqn:E; [|by destruct s].
    apply open_on_current in E. split; try done. cbn. intros g' t [= <- _]. exact E.
  - by split.
  - by eapply (wf_same_route s _ (fun r => {| generation := generation r; platform := platform r;
      auto_elevation_attempted := auto_elevation_attempted r; r_closed := true |})).
Qed.

Lemma wf_steps s s' : rtc step s s' -> wf s -> wf s'.
Proof. induction 1 as [|s s1 s2 Hs _ IH]; [done|]. intros H. by apply IH, (wf_step s). Qed.

(** ** What the invariant gives *)

Lemma reachable_wf s : reachable s -> wf s.
Proof. intros H. by eapply wf_steps; [|apply wf_initial]. Qed.

Ltac step_cases H :=
  destruct H as [Hc|Ho|Ho Hs|g0 Ho Hs|g0 Ho|Ho|g0 p0 Ho|e0| | |g0 ch0 Hin|g0|g0| |b0|now0 g0|b0|].

(** How one step changes the current generation. *)
Lemma step_current s s' : step s s' ->
  current_generation (mgr s') = current_generation (mgr s) \/ current_generation (mgr s') = None \/
  exists g, owner s = Candidate g /\ current_generation (mgr s') = Some g.
Proof.
  intros H. step_cases H; cbn [mgr with_mgr with_owner]; try (by left).
  - unfold invalidate_session_inner. destruct (_ && _); [by left|right; by left].
  - unfold publish. destruct (shutting_down _); [by left|]. destruct (bool_decide _); [by left|].
    right; right. by exists g0.
  - unfold invalidate_session_inner. destruct (_ && _); [by left|right; by left].
  - unfold try_take_su_channel. by destruct (_ || _); left.
  - unfold restore_su_channel. by destruct (_ || _); left.
  - unfold reset_su_state_for_generation. by destruct (bool_decide _); left.
  - unfold store_elevated. by destruct (_ || _); left.
  - left. unfold begin_auto_elevation. destruct (session (mgr s)) as [r|] eqn:E; [|done].
    destruct (_ || _); [done|]. unfold current_generation. by rewrite E.
  - unfold mark_health_probe_ok. by destruct (negb _); left.
  - left. unfold current_generation. cbn. by destruct (session (mgr s)).
Qed.

Lemma step_published s s' g : step s s' -> g ∈ published s -> g ∈ published s'.
Proof. intros H Hg. step_cases H; cbn; try done. destruct (is_ok _); [|done]. set_solver. Qed.

Lemma step_shutting_down s s' : step s s' -> shutting_down (mgr s) = true -> shutting_down (mgr s') = true.
Proof.
  intros H Hsd. step_cases H; cbn [mgr with_mgr with_owner]; try done;
    unfold invalidate_session_inner, publish, try_take_su_channel, restore_su_channel, reset_su_state_for_generation,
      store_elevated, begin_auto_elevation, mark_health_probe_ok; repeat case_match; done.
Qed.

Lemma step_frozen s s' p : step s s' -> remote_platform (mgr s) = Some p -> remote_platform (mgr s') = Some p.
Proof.
  intros H Hp. step_cases H; cbn [mgr with_mgr with_owner]; try done;
    unfold invalidate_session_inner, publish, try_take_su_channel, restore_su_channel, reset_su_state_for_generation,
      store_elevated, begin_auto_elevation, mark_health_probe_ok; repeat case_match; try done; cbn; by rewrite Hp.
Qed.

(** A property of the manager that every step keeps, kept by a run. *)
Lemma steps_keep (P : system -> Prop) s s' :
  (forall s s', step s s' -> P s -> P s') -> rtc step s s' -> P s -> P s'.
Proof. intros HP. induction 1; eauto. Qed.

(** C3. In every state the manager can reach, whatever the interleaving of its
    tasks and of transports closing: a command that is given the elevated shell
    gets one that was opened on the current route, an elevation never outlives
    its route, a cached health probe is one of the current route, a route
    never differs in platform from the first one authenticated, and from then
    on that platform never changes. *)
Theorem connection_invariant (s : system) (Hr : reachable s) (m := mgr s) :
  (forall g ch m', try_take_su_channel m = (Some (g, ch), m') -> g = ch /\ open_on m ch = true) /\
  (is_elevated m = true -> exists r, session m = Some r /\ generation r = su_generation m) /\
  (forall ttl now g, is_health_probe_fresh ttl now g m = true -> open_on m g = true /\
     exists t, last_health_probe_ok_at m = Some (g, t) /\ now - t < ttl) /\
  (forall r, session m = Some r -> remote_platform m = Some (platform r)) /\
  (forall p s', remote_platform m = Some p -> rtc step s s' -> remote_platform (mgr s') = Some p).
Proof.
  pose proof (reachable_wf s Hr) as [H1 H2 H3 H4 H5 H6 H7]. split_and!.
  - intros g ch m'. unfold try_take_su_channel. fold m. destruct (_ || _) eqn:E; [done|].
    apply orb_false_iff in E as [_ E]. apply negb_false_iff in E.
    destruct (su_channel m) as [c|] eqn:Es; [|done]. intros [= <- <- _]. destruct (H2 _ Es) as [<- _]. done.
  - intros He. specialize (H3 He). unfold current_generation in H3. by apply fmap_Some in H3 as (r & ? & ?); eauto.
  - intros ttl now g. unfold is_health_probe_fresh. destruct (last_health_probe_ok_at m) as [[c t]|]; intros H; bool_hyps; [|done].
    split; [done|]. subst c. by exists t.
  - intros r Hs. by apply H1.
  - intros p s' Hp Hsteps. revert Hp. apply (steps_keep (fun s => remote_platform (mgr s) = Some p)); [|done].
    intros; by eapply step_frozen.
Qed.

(** A generation that was published and is not current any more. *)
Definition retired (g : Z) (s : system) : Prop := g ∈ published s /\ current_generation (mgr s) <> Some g.

Lemma step_retired s s' g : wf s /\ retired g s -> step s s' -> wf s' /\ retired g s'.
Proof.
  intros [Hwf [Hg Hc]] Hs. split; [by eapply wf_step|]. split; [by eapply step_published|].
  destruct (step_current _ _ Hs) as [-> |[-> |(g' & Ho & ->)]]; [done|done|].
  pose proof (wf_owner _ Hwf) as H. rewrite Ho in H. destruct H as (_ & _ & _ & H).
  eapply Forall_forall in H; [|exact Hg]. intros [= ->]. lia.
Qed.

Lemma not_open_retired m g : current_generation m <> Some g -> open_on m g = false.
Proof. intros H. destruct (open_on m g) eqn:E; [by apply open_on_current in E|done]. Qed.

(** C14. Work on an old route cannot touch a newer one. Once a published
    generation is not current, it never is again, whatever happens; and at
    every later point the operations that end work on that generation
    (invalidation, the cached health probe, giving back or resetting the
    elevated shell, a finished elevation) leave the manager exactly as it is,
    and its health and shell are not reported as usable. *)
Theorem stale_generation_inert (g : Z) (s s' : system)
    (Hr : reachable s) (Hg : g ∈ published s) (Hold : current_generation (mgr s) <> Some g) (Hlater : rtc step s s') :
  let m := mgr s' in
  current_generation m <> Some g /\
  invalidate_session_inner (Some g) m = m /\
  (forall now, mark_health_probe_ok now g m = (false, m)) /\
  (forall ch, restore_su_channel g ch m = m) /\
  reset_su_state_for_generation g m = m /\
  (exists e, store_elevated g m = (Err e, m)) /\
  (forall ttl now, is_health_probe_fresh ttl now g m = false).
Proof.
  assert (H : wf s' /\ retired g s').
  { eapply (steps_keep (fun s => wf s /\ retired g s)); [|exact Hlater|by split; [apply reachable_wf|split]].
    intros s0 s1 Hs H. by eapply step_retired. }
  destruct H as [_ [_ Hc]]. intros m. fold m in Hc. pose proof (not_open_retired m g Hc) as Ho. split_and!; [done|..].
  - unfold invalidate_session_inner. by rewrite !bool_decide_eq_true_2.
  - intros now. unfold mark_health_probe_ok. by rewrite Ho.
  - intros ch. unfold restore_su_channel. by rewrite Ho, orb_true_r.
  - unfold reset_su_state_for_generation. by rewrite bool_decide_eq_true_2.
  - unfold store_elevated. rewrite (bool_decide_eq_true_2 _ Hc), orb_true_r. by eexists.
  - intros ttl now. unfold is_health_probe_fresh. by rewrite Ho.
Qed.

(** The gate is up and the route is gone. *)
Definition shut (pub : list Z) (s : system) : Prop :=
  wf s /\ shutting_down (mgr s) = true /\ session (mgr s) = None /\ published s = pub.

Lemma step_shut pub s s' : step s s' -> shut pub s -> shut pub s'.
Proof.
  intros Hs (Hwf & Hd & Hn & Hp). split; [by eapply wf_step|]. split; [by eapply step_shutting_down|].
  step_cases Hs; cbn [mgr with_mgr with_owner published]; try done;
    unfold invalidate_session_inner, publish, try_take_su_channel, restore_su_channel, reset_su_state_for_generation,
      store_elevated, begin_auto_elevation, mark_health_probe_ok, transport_closes; rewrite ?Hd, ?Hn; cbn; try done;
    repeat case_match; done.
Qed.

(** Shutdown is final. Once [close] has raised its gate and removed the
    route, no later step of any task publishes a route, gives out or installs
    an elevated shell, or lowers the gate. *)
Theorem shutdown_final (s s' : system)
    (Hr : reachable s) (Hgate : shutting_down (mgr s) = true)
    (Hlater : rtc step (with_mgr s (clear_session (mgr s))) s') :
  let m := mgr s' in
  shutting_down m = true /\ session m = None /\ su_channel m = None /\ is_elevated m = false /\
  ensure_not_shutting_down m = Err shutting_down_error /\
  try_take_su_channel m = (None, m) /\
  (forall g p, publish g p m = (Err shutting_down_error, m)) /\
  published s' = published s.
Proof.
  assert (H : shut (published s) s').
  { apply (steps_keep (shut (published s)) (with_mgr s (clear_session (mgr s)))); [intros; by eapply step_shut|done|].
    split; [by apply wf_clear, reachable_wf|]. by split_and!. }
  destruct H as (Hwf & Hd & Hn & Hp). intros m. fold m in Hd, Hn.
  assert (Hc : current_generation m = None) by (unfold current_generation; by rewrite Hn).
  split_and!; try done.
  - destruct (su_channel m) as [c|] eqn:E; [|done]. destruct (wf_su _ Hwf _ E) as [_ Hx]. fold m in Hx. congruence.
  - destruct (is_elevated m) eqn:E; [|done]. pose proof (wf_elevated _ Hwf E) as Hx. fold m in Hx. congruence.
  - unfold ensure_not_shutting_down. by rewrite Hd.
  - unfold try_take_su_channel. by rewrite Hd.
  - intros g p. unfold publish. by rewrite Hd.
Qed.

(** ** A concrete run *)

Module ConnectionExample.

Definition s1 := with_owner initial_system (set_connecting true manager_new) Acquired.
Definition s2 := with_owner s1 (mgr s1) Cleared.
Definition s3 := with_owner s2 (take_generation (mgr s2)).2 (Candidate 1).
Definition s4 := {| mgr := (publish 1 Posix (mgr s3)).2; owner := Finished; taken := []; published := [1] |}.
Definition s5 := with_mgr s4 (store_elevated 1 (mgr s4)).2.
Definition s6 := with_mgr s5 (invalidate_session_inner (Some 1) (mgr s5)).
Definition s7 := with_mgr s6 (close_begin (mgr s6)).

Lemma s5_reachable : reachable s5.
Proof.
  apply (rtc_l _ _ s1); [by apply step_acquire|]. apply (rtc_l _ _ s2); [by apply step_no_stale|].
  apply (rtc_l _ _ s3); [by apply step_candidate|]. apply (rtc_l _ _ s4); [by apply (step_publish s3 1 Posix)|].
  apply rtc_once. apply step_elevated.
Qed.

Lemma s6_after : rtc step s5 s6.
Proof. apply rtc_once, step_invalidate. Qed.

Lemma s7_reachable : reachable s7.
Proof. eapply rtc_trans; [apply s5_reachable|]. eapply rtc_trans; [apply s6_after|]. apply rtc_once, step_close_begin. Qed.

End ConnectionExample.

Lemma connection_invariant_witness :
  exists ch m', try_take_su_channel (mgr ConnectionExample.s5) = (Some (1, ch), m') /\ ch = 1.
Proof.
  exists 1, (with_su None 1 true (mgr ConnectionExample.s5)).
  assert (E : try_take_su_channel (mgr ConnectionExample.s5) = (Some (1, 1), with_su None 1 true (mgr ConnectionExample.s5)))
    by (vm_compute; reflexivity).
  split; [exact E|].
  destruct (connection_invariant ConnectionExample.s5 ConnectionExample.s5_reachable) as (H & _).
  destruct (H 1 1 _ E) as [H1 _]. exact H1.
Defined.

Lemma stale_generation_inert_witness :
  invalidate_session_inner (Some 1) (mgr ConnectionExample.s7) = mgr ConnectionExample.s7.
Proof.
  assert (Hr : reachable ConnectionExample.s6)
    by (exact (rtc_trans _ _ _ ConnectionExample.s5_reachable ConnectionExample.s6_after)).
  destruct (stale_generation_inert 1 ConnectionExample.s6 ConnectionExample.s7 Hr) as (_ & H & _).
  - apply list_elem_of_singleton. reflexivity.
  - vm_compute. discriminate.
  - apply rtc_once, step_close_begin.
  - exact H.
Defined.

Lemma shutdown_final_witness :
  session (mgr (with_mgr ConnectionExample.s7 (clear_session (mgr ConnectionExample.s7)))) = None.
Proof.
  destruct (shutdown_final ConnectionExample.s7 _ ConnectionExample.s7_reachable eq_refl (rtc_refl _ _)) as (_ & H & _).
  exact H.
Defined.

(** ** Retries *)

(** [1 << min(attempt - 1, 63)], saturating product, at most 30 seconds. *)
Definition backoff_for_attempt (reconnect_backoff_ms attempt : Z) : Z :=
  let exponent := Z.min (saturating_sub attempt 1) 63 in
  Z.min (saturating_mul U64_MAX reconnect_backoff_ms (2 ^ exponent)) MAX_RECONNECT_BACKOFF_MS.

(** The loop of [connect_with_retry]: the answer and the sleeps, from the
    results of the attempts; [None] when they run out. *)
Fixpoint retry_loop (backoff_ms max_attempts attempt : Z) (last_error : option SshMcpError)
    (attempts : list (result unit SshMcpError)) (sleeps : list Z) : option (result unit SshMcpError * list Z) :=
  if attempt <=? max_attempts then
    match attempts with
    | [] => None
    | Ok _ :: _ => Some (Ok tt, sleeps)
    | Err e :: attempts =>
        let backoff := backoff_for_attempt backoff_ms attempt in
        retry_loop backoff_ms max_attempts (saturating_add U64_MAX attempt 1) (Some e) attempts
          (if (attempt <? max_attempts) && (0 <? backoff) then sleeps ++ [backoff] else sleeps)
    end
  else Some (Err (default (Connection (lit "Reconnect retry loop ended without connection result")) last_error), sleeps).

Definition connect_with_retry (reconnect_retries backoff_ms : Z) (attempts : list (result unit SshMcpError)) :
    option (result unit SshMcpError * list Z) :=
  retry_loop backoff_ms (saturating_add U64_MAX reconnect_retries 1) 1 None attempts [].

(** The cap on the shift and the saturation do not show: the delay is the
    doubled base, at most 30 seconds. *)
Lemma backoff_exact base attempt :
  0 <= base -> 1 <= attempt ->
  backoff_for_attempt base attempt = Z.min (base * 2 ^ (attempt - 1)) MAX_RECONNECT_BACKOFF_MS.
Proof.
  intros Hb Ha. unfold backoff_for_attempt, saturating_mul, saturating_sub, U64_MAX, MAX_RECONNECT_BACKOFF_MS.
  rewrite (Z.max_r 0) by lia. destruct (decide (base = 0)) as [->|]; [by rewrite !Z.mul_0_l|].
  destruct (decide (attempt - 1 <= 63)).
  - rewrite (Z.min_l (attempt - 1)) by done. pose proof (Z.pow_pos_nonneg 2 (attempt - 1)). nia.
  - rewrite (Z.min_r (attempt - 1)) by lia.
    assert (2 ^ 63 <= 2 ^ (attempt - 1)) by (apply Z.pow_le_mono_r; lia).
    assert (2 ^ 63 = 9223372036854775808) as E by done. rewrite E in *. nia.
Qed.

(** The delays before attempts 2, 3, ... of a call that makes [n] attempts. *)
Definition delays (base : Z) (n : nat) : list Z :=
  filter (fun d => 0 < d) ((fun k => Z.min (base * 2 ^ Z.of_nat k) MAX_RECONNECT_BACKOFF_MS) <$> seq 0 n).

Lemma delays_S base n :
  delays base (S n) = delays base n ++
    (if 0 <? Z.min (base * 2 ^ Z.of_nat n) MAX_RECONNECT_BACKOFF_MS
     then [Z.min (base * 2 ^ Z.of_nat n) MAX_RECONNECT_BACKOFF_MS] else []).
Proof.
  unfold delays. rewrite seq_S, fmap_app, filter_app. f_equal. cbn [fmap list_fmap Nat.add].
  destruct (0 <? _) eqn:E; bool_hyps; [by rewrite filter_cons_True|by rewrite filter_cons_False by lia].
Qed.

Lemma retry_loop_errors base max k errs rest lst :
  0 <= base -> max < U64_MAX -> Z.of_nat k + Z.of_nat (length errs) < max ->
  retry_loop base max (Z.of_nat k + 1) lst ((Err <$> errs) ++ rest) (delays base k) =
  retry_loop base max (Z.of_nat (k + length errs) + 1)
    (match errs with [] => lst | _ => last errs end) rest (delays base (k + length errs)).
Proof.
  intros Hb Hm. revert k lst; induction errs as [|e errs IH]; intros k lst Hlt.
  { cbn. by rewrite Nat.add_0_r. }
  cbn [fmap list_fmap app retry_loop length]. rewrite (proj2 (Z.leb_le _ max)) by (cbn in Hlt; lia).
  rewrite (proj2 (Z.ltb_lt _ max)) by (cbn in Hlt; lia). cbn [andb].
  rewrite backoff_exact by lia. replace (Z.of_nat k + 1 - 1) with (Z.of_nat k) by lia.
  replace (saturating_add U64_MAX (Z.of_nat k + 1) 1) with (Z.of_nat (S k) + 1) by (unfold saturating_add; cbn in Hlt; lia).
  assert ((if 0 <? Z.min (base * 2 ^ Z.of_nat k) MAX_RECONNECT_BACKOFF_MS then delays base k ++ [Z.min (base * 2 ^ Z.of_nat k) MAX_RECONNECT_BACKOFF_MS]
          else delays base k) = delays base (S k)) as ->.
  { rewrite delays_S. destruct (0 <? _); [done|by rewrite app_nil_r]. }
  rewrite IH by (cbn in Hlt; lia). replace (S k + length errs)%nat with (k + S (length errs))%nat by lia.
  f_equal; by destruct errs.
Qed.

(** C39. Connecting makes at most [reconnect_retries] + 1 attempts: it
    succeeds with the first attempt that does, after the failed ones before it,
    and otherwise fails with the error of the last attempt; between attempts it
    sleeps the doubled base delay, at most 30 seconds. *)
Theorem connect_with_retry_attempts (retries base : Z) (errs : list SshMcpError) (rest : list (result unit SshMcpError))
    (Hr : 0 <= retries < U64_MAX - 1) (Hb : 0 <= base) :
  (Z.of_nat (length errs) <= retries ->
   connect_with_retry retries base ((Err <$> errs) ++ Ok tt :: rest) = Some (Ok tt, delays base (length errs))) /\
  (Z.of_nat (length errs) = retries + 1 ->
   exists e, last errs = Some e /\
     connect_with_retry retries base ((Err <$> errs) ++ rest) = Some (Err e, delays base (length errs - 1))) /\
  Forall (fun d => 0 < d <= 30000) (delays base (length errs)).
Proof.
  assert (Hmax : saturating_add U64_MAX retries 1 = retries + 1) by (unfold saturating_add; lia).
  unfold connect_with_retry. rewrite Hmax. split_and!.
  - intros Hlen. change 1 with (Z.of_nat 0 + 1) at 2. change (@nil Z) with (delays base 0).
    rewrite retry_loop_errors by lia. cbn [retry_loop Nat.add]. by rewrite (proj2 (Z.leb_le _ _)) by lia.
  - intros Hlen. destruct (exists_last (l := errs)) as (es & e & ->); [by intros ->; cbn in Hlen; lia|].
    exists e. split; [by rewrite last_snoc|]. rewrite length_app in *. cbn [length] in *.
    rewrite fmap_app, <- app_assoc. change 1 with (Z.of_nat 0 + 1) at 2. change (@nil Z) with (delays base 0).
    rewrite retry_loop_errors by lia. cbn [fmap list_fmap app Nat.add retry_loop].
    rewrite (proj2 (Z.leb_le _ _)) by lia. rewrite (proj2 (Z.ltb_ge _ _)) by lia. cbn [andb].
    replace (saturating_add U64_MAX (Z.of_nat (length es) + 1) 1) with (retries + 2) by (unfold saturating_add; lia).
    replace (length es + 1 - 1)%nat with (length es) by lia.
    destruct rest; cbn [retry_loop]; by rewrite (proj2 (Z.leb_gt _ _)) by lia.
  - apply Forall_forall. intros d Hd. unfold delays in Hd. apply list_elem_of_filter in Hd as [Hp Hd].
    apply list_elem_of_fmap in Hd as (k & -> & _). unfold MAX_RECONNECT_BACKOFF_MS in *. lia.
Qed.

Lemma connect_with_retry_attempts_witness :
  connect_with_retry 2 500 [Err (Timeout 1); Err (Timeout 2); Ok tt] = Some (Ok tt, [500; 1000]).
Proof.
  refine (proj1 (connect_with_retry_attempts 2 500 [Timeout 1; Timeout 2] [] _ _) _).
  - vm_compute. split; [discriminate|reflexivity].
  - vm_compute. discriminate.
  - vm_compute. discriminate.
Defined.

(** ** A healthy route *)

(** The probe of the route of generation [g], while the session is locked:
    [ping] is the answer ([None]: none in time), [closes] says that the
    transport closes meanwhile. *)
Definition run_health_probe (timeout_ms g : Z) (ping : option (result unit str)) (closes : bool) (m : manager) :
    result unit SshMcpError * manager :=
  match session m with
  | None => (Err (Connection (lit "SSH connection not established")), m)
  | Some r =>
      if negb (generation r =? g) || r_closed r then
        (Err (Connection (lit "SSH route changed or closed before health probe")), m)
      else if closes then (Err (Connection (lit "SSH transport closed during health probe")), transport_closes m)
      else (match ping with
            | Some (Ok _) => Ok tt
            | Some (Err e) => Err (Connection (lit "SSH health probe ping failed: " ++ e))
            | None => Err (Connection (lit "SSH health probe timed out after " ++ show_uint timeout_ms ++ lit "ms"))
            end, m)
  end.

(** What happens around one turn of the loop: what other tasks do before each
    critical section, the clock, and the probe. *)
Record turn : Type := {
  t_gate : manager -> manager;
  t_read : manager -> manager;
  t_fresh : manager -> manager;
  t_now : Z;
  t_fresh_locked : manager -> manager;
  t_now_locked : Z;
  t_probe : manager -> manager;
  t_ping : option (result unit str);
  t_closes : bool;
  t_invalidate : manager -> manager;
  t_recheck : manager -> manager;
  t_mark : manager -> manager;
  t_now_mark : Z
}.

(** [retry] is [connect_with_retry] on the state it starts from; [None] when the
    turns run out. *)
Fixpoint ensure_transport_inner (probe_timeout_ms : Z) (retry : manager -> result unit SshMcpError * manager)
    (turns : list turn) (m : manager) : option (result unit SshMcpError * manager) :=
  match turns with
  | [] => None
  | t :: turns =>
      let ttl := health_probe_ttl probe_timeout_ms in
      let again := ensure_transport_inner probe_timeout_ms retry turns in
      let m := t_gate t m in
      match ensure_not_shutting_down m with
      | Err e => Some (Err e, m)
      | Ok _ =>
          let m := t_read t m in
          match session m with
          | None => Some (retry m)
          | Some r =>
              let g := generation r in
              if r_closed r then again (invalidate_session_inner (Some g) (t_invalidate t m))
              else if bool_decide (platform r = Routeros) then Some (Ok tt, m)
              else
                let m := t_fresh t m in
                if is_health_probe_fresh ttl (t_now t) g m then Some (Ok tt, m)
                else
                  let m := t_fresh_locked t m in
                  if is_health_probe_fresh ttl (t_now_locked t) g m then Some (Ok tt, m)
                  else
                    match run_health_probe probe_timeout_ms g (t_ping t) (t_closes t) (t_probe t m) with
                    | (Err _, m) =>
                        let m := t_recheck t (invalidate_session_inner (Some g) (t_invalidate t m)) in
                        if is_connected m then again m else Some (retry m)
                    | (Ok _, m) =>
                        match mark_health_probe_ok (t_now_mark t) g (t_mark t m) with
                        | (true, m) => Some (Ok tt, m)
                        | (false, m) => again m
                        end
                    end
          end
      end
  end.

(** An open route that needs no probe or has a probe younger than the limit. *)
Definition healthy (ttl : Z) (m : manager) : Prop :=
  exists r, session m = Some r /\ r_closed r = false /\
    (platform r = Routeros \/ exists t now, last_health_probe_ok_at m = Some (generation r, t) /\ now - t < ttl).

Lemma fresh_healthy ttl now g m : is_health_probe_fresh ttl now g m = true -> healthy ttl m.
Proof.
  unfold is_health_probe_fresh, open_on. destruct (session m) as [r|] eqn:Es; [|done].
  destruct (last_health_probe_ok_at m) as [[c t]|] eqn:El; intros H; bool_hyps; [|done].
  exists r. split_and!; [done|by destruct (r_closed r)|]. right. exists t, now. subst. split; [|done]. by rewrite El.
Qed.

Lemma marked_healthy ttl now g m m' : 0 < ttl -> mark_health_probe_ok now g m = (true, m') -> healthy ttl m'.
Proof.
  unfold mark_health_probe_ok, open_on. intros Ht H. destruct (session m) as [r|] eqn:Es; [|done].
  destruct (generation r =? g) eqn:Eg; [|done]. destruct (r_closed r) eqn:Ec; [done|]. cbn in H. injection H as <-.
  bool_hyps. subst g. exists r. split_and!; [done|done|]. right. exists now, now. split; [done|lia].
Qed.

Lemma health_probe_ttl_bounds t : 250 <= health_probe_ttl t <= 5000.
Proof. unfold health_probe_ttl, MIN_HEALTH_PROBE_TTL_MS, MAX_HEALTH_PROBE_TTL_MS. lia. Qed.

(** [ensure_connected] never answers success for a dead route: when it
    succeeds, either a connection attempt has just succeeded, or at that moment
    the current route is open and is a RouterOS route or has answered a health
    probe within the cache limit; whatever other tasks do in between. *)
Theorem ensure_transport_healthy (probe_timeout_ms : Z) (retry : manager -> result unit SshMcpError * manager)
    (turns : list turn) (m m' : manager)
    (H : ensure_transport_inner probe_timeout_ms retry turns m = Some (Ok tt, m')) :
  (exists m0, retry m0 = (Ok tt, m')) \/ healthy (health_probe_ttl probe_timeout_ms) m'.
Proof.
  revert m H; induction turns as [|t turns IH]; intros m H; [done|]. cbn [ensure_transport_inner] in H.
  destruct (ensure_not_shutting_down _); [|done].
  destruct (session (t_read t (t_gate t m))) as [r|] eqn:Es; [|injection H as H; left; by eexists].
  destruct (r_closed r) eqn:Ec; [by eapply IH|].
  case_bool_decide as Ep; [injection H as <-; right; exists r; by split_and!; [..|left]|].
  destruct (is_health_probe_fresh _ (t_now t) _ _) eqn:F1; [injection H as <-; right; by eapply fresh_healthy|].
  destruct (is_health_probe_fresh _ (t_now_locked t) _ _) eqn:F2; [injection H as <-; right; by eapply fresh_healthy|].
  destruct (run_health_probe _ _ _ _ _) as [[u|e] m1].
  - destruct (mark_health_probe_ok _ _ _) as [[] m2] eqn:Em; [|by eapply IH]. injection H as <-. right.
    eapply marked_healthy; [|exact Em]. pose proof (health_probe_ttl_bounds probe_timeout_ms). lia.
  - destruct (is_connected _); [by eapply IH|]. injection H as H. left. by eexists.
Qed.

Lemma ensure_transport_healthy_witness :
  let t := {| t_gate := id; t_read := id; t_fresh := id; t_now := 0; t_fresh_locked := id; t_now_locked := 0; t_probe := id;
              t_ping := Some (Ok tt); t_closes := false; t_invalidate := id; t_recheck := id; t_mark := id; t_now_mark := 7 |} in
  healthy (health_probe_ttl 1000) (mark_health_probe_ok 7 1 (mgr ConnectionExample.s4)).2.
Proof.
  intros t. destruct (ensure_transport_healthy 1000 (fun m => (Err (Timeout 0), m)) [t] (mgr ConnectionExample.s4)
    (mark_health_probe_ok 7 1 (mgr ConnectionExample.s4)).2) as [[m0 H]|H].
  - vm_compute. reflexivity.
  - discriminate H.
  - exact H.
Defined.

(** ** Elevation with [su] *)

(** One turn of the dialogue, and whether the deadline is past. *)
Inductive su_step : Type := SuData (data : bytes) | SuClose | SuOther | SuEnd | SuQuiet.

(** The dialogue: the payloads written and the answer; [None] when the turns
    run out. [send] is the answer to writing the password. *)
Fixpoint handle_su_elevation (to_lowercase : str -> str) (password : str) (send : result unit str)
    (buffer : str) (password_sent : bool) (events : list (bool * su_step)) (written : list str) :
    option (result unit SshMcpError * list str) :=
  match events with
  | [] => None
  | (late, e) :: events =>
      if (late : bool) then Some (Err (ElevationFailed (lit "su elevation timed out")), written)
      else match e with
           | SuData data =>
               let buffer := buffer ++ from_utf8_lossy data in
               let prompt := negb password_sent && contains (lit "password") (to_lowercase buffer) in
               let written := if prompt then written ++ [password ++ [NL]] else written in
               match (if prompt then send else Ok tt) with
               | Err e => Some (Err (ElevationFailed (lit "Failed to send password: " ++ e)), written)
               | Ok _ =>
                   let buffer := if prompt then [] else buffer in
                   let password_sent := password_sent || prompt in
                   if password_sent && contains_char 35 buffer then Some (Ok tt, written)
                   else if existsb (fun m => contains m (to_lowercase buffer))
                             [lit "authentication failure"; lit "incorrect password"; lit "su: failed"; lit "su: authentication"]
                   then Some (Err (ElevationFailed (lit "su authentication failed: " ++ buffer)), written)
                   else handle_su_elevation to_lowercase password send buffer password_sent events written
               end
           | SuClose => Some (Err (ElevationFailed (lit "Channel closed before elevation completed")), written)
           | SuEnd => Some (Err (ElevationFailed (lit "Channel ended before elevation completed")), written)
           | SuOther | SuQuiet => handle_su_elevation to_lowercase password send buffer password_sent events written
           end
  end.

(** The password is written at most once, and never before a prompt; success
    means that it was written. *)
Lemma su_password_once lower password send buffer sent events written r w :
  handle_su_elevation lower password send buffer sent events written = Some (r, w) ->
  (sent = true -> w = written) /\
  (sent = false -> (w = written /\ is_ok r = false) \/ w = written ++ [password ++ [NL]]).
Proof.
  revert buffer sent written; induction events as [|[late e] events IH]; intros buffer sent written H; [done|].
  cbn [handle_su_elevation] in H. destruct late; [simplify_eq; (split; intros; [done|by left])|].
  destruct e as [data| | | |]; try (by apply IH in H); try (simplify_eq; (split; intros; [done|by left])).
  destruct sent; cbn [negb andb orb] in H.
  - split; [|done]. intros _. destruct (contains_char _ _); [by simplify_eq|]. destruct (existsb _ _); [by simplify_eq|].
    apply IH in H as [H _]. by apply H.
  - split; [done|]. intros _. destruct (contains _ _).
    + destruct send; [|simplify_eq; by right]. change (contains_char 35 []) with false in H. cbn [andb] in H.
      destruct (existsb _ _); [simplify_eq; by right|]. apply IH in H as [H _]. right. by apply H.
    + cbn [andb orb] in H. destruct (existsb _ _); [simplify_eq; by left|]. apply IH in H as [_ H]. by apply H.
Qed.
