(* ===== verification/Config.v ===== *)
(** * Configuration

    [Args] and [Config] of src/config.rs: sanitising, key path expansion,
    validation, the jump endpoint and the numeric options. The command line
    parser (clap) fills [Args]; whether a key file exists and [HOME] are
    arguments. *)
From Stdlib Require Import ZArith String.
From stdpp Require Import base list.
From S2P Require Import Prelude Errors Paths.

(** src/ssh/config.rs *)
Inductive HostKeyCheckMode : Type := Yes | AcceptNew | No.

#[global] Instance HostKeyCheckMode_eq_dec : EqDecision HostKeyCheckMode.
Proof. solve_decision. Defined.

Definition as_openssh_value (m : HostKeyCheckMode) : str :=
  match m with Yes => lit "yes" | AcceptNew => lit "accept-new" | No => lit "no" end.

Definition DEFAULT_MAX_CHARS : option Z := Some 64000.
Definition DEFAULT_MAX_OUTPUT_TOKENS : option Z := Some 16000.
Definition MAX_RECONNECT_RETRIES : Z := 10.
Definition MIN_RECONNECT_BACKOFF_MS : Z := 10.
Definition MAX_RECONNECT_BACKOFF_MS : Z := 30000.
Definition MIN_HEALTH_PROBE_TIMEOUT_MS : Z := 100.
Definition MAX_HEALTH_PROBE_TIMEOUT_MS : Z := 30000.

Record Args : Type := {
  a_host : str; a_port : Z; a_user : str; a_password : option str; a_key : option str;
  a_jump : option str; a_jump_key : option str; a_jump_password : option str; a_spool_dir : option str;
  a_su_password : option str; a_sudo_password : option str; a_timeout : Z; a_max_chars : option str;
  a_disable_sudo : bool; a_max_output_tokens : option str;
  a_log_level : str; a_log_file : option str; a_log_format : str; a_log_rotation : str;
  a_keepalive_interval : Z; a_keepalive_max : Z; a_reconnect_retries : Z; a_reconnect_backoff_ms : Z;
  a_health_probe_timeout_ms : Z; a_strict_host_key_checking : HostKeyCheckMode; a_known_hosts : option str
}.

Record JumpConfig : Type := { j_host : str; j_port : Z; j_user : str; j_password : option str; j_key : option str }.

Record Config : Type := {
  host : str; port : Z; user : str; password : option str; key : option str; jump : option JumpConfig;
  su_password : option str; sudo_password : option str; timeout_ms : Z; max_chars : option Z;
  max_output_tokens : option Z; disable_sudo : bool; keepalive_interval : Z; keepalive_max : Z;
  reconnect_retries : Z; reconnect_backoff_ms : Z; health_probe_timeout_ms : Z;
  strict_host_key_checking : HostKeyCheckMode; known_hosts : option str
}.

(** ** Options *)

Definition sanitize_password (password : option str) : option str :=
  match password with Some p => if str_eqb p [] then None else Some p | None => None end.

Definition parse_i64 : str -> option Z := parse_int (- I64_MAX - 1) I64_MAX.

Section Numbers.
(** [str::to_lowercase], which needs the Unicode tables. *)
Context (to_lowercase : str -> str).

Definition parse_max_chars (value : option str) : option Z :=
  match value with
  | None => DEFAULT_MAX_CHARS
  | Some s =>
      let lowered := to_lowercase s in
      if str_eqb lowered (lit "none") then None
      else match parse_i64 s with
           | Some n => if n <=? 0 then None else Some n
           | None => DEFAULT_MAX_CHARS
           end
  end.

Definition parse_max_output_tokens (value : option str) : option Z :=
  match value with
  | None => DEFAULT_MAX_OUTPUT_TOKENS
  | Some s =>
      let lowered := replace_char 32 [] (to_lowercase s) in
      if str_eqb lowered (lit "none") then None
      else match strip_suffix (lit "k") lowered with
           | Some num_part =>
               match parse_i64 num_part with
               | Some n => if n <=? 0 then None else Some (saturating_mul USIZE_MAX n 1000)
               | None => DEFAULT_MAX_OUTPUT_TOKENS
               end
           | None =>
               match parse_i64 lowered with
               | Some n => if n <=? 0 then None else Some n
               | None => DEFAULT_MAX_OUTPUT_TOKENS
               end
           end
  end.

(** ** The jump endpoint *)

Definition jump_format : SshMcpError := ConfigError (lit "--jump must use USER@HOST[:PORT] format").
Definition jump_port : SshMcpError := ConfigError (lit "--jump port must be an integer from 1 to 65535").
Definition jump_values : SshMcpError := ConfigError (lit "--jump must use USER@HOST[:PORT] with non-empty values").

(** [str::rsplit_once] on one character. *)
Definition rsplit_once_char (c : char) (s : str) : option (str * str) :=
  match split_once_char c (rev s) with
  | Some (b, a) => Some (rev a, rev b)
  | None => None
  end.

Definition parse_jump_endpoint (value : str) : result (str * str * Z) SshMcpError :=
  let? '(user, endpoint) := ok_or (split_once_char 64 value) jump_format in
  if str_eqb user [] || str_eqb endpoint [] || contains_char 64 endpoint then Err jump_format
  else
    let? '(host, port) :=
      match rsplit_once_char 58 endpoint with
      | Some (host, port) => let? port := ok_or (parse_u16 port) jump_port in Ok (host, port)
      | None => Ok (endpoint, 22)
      end in
    if str_eqb host [] || (port =? 0) || existsb is_whitespace user || existsb is_whitespace host
    then Err jump_values else Ok (user, host, port).

(** ** Key paths *)

(** [Path::strip_prefix("~")] of a path that starts with [~/]: what follows,
    without the separators and [.] components around it. *)
Definition skipped_piece (p : str) : bool := str_eqb p [] || str_eqb p (lit ".").
Fixpoint drop_skipped (l : list str) : list str :=
  match l with
  | [] => []
  | p :: l' => if skipped_piece p then drop_skipped l' else l
  end.
Definition after_tilde (path : str) : str :=
  join [SLASH] (rev (drop_skipped (rev (drop_skipped (drop 1 (split_char SLASH path)))))).

Definition expand_key_path (path : str) (home : option str) : result str SshMcpError :=
  if negb (starts_with (lit "~/") path) then Ok path
  else
    match home with
    | None | Some [] =>
        Err (ConfigError (lit "Cannot expand SSH key path " ++ path ++ lit ": HOME is not set"))
    | Some home => Ok (path_join home (after_tilde path))
    end.

(** [Option::map] and [transpose]. *)
Definition transpose {A B} (f : A -> result B SshMcpError) (o : option A) : result (option B) SshMcpError :=
  match o with
  | None => Ok None
  | Some a => let? b := f a in Ok (Some b)
  end.

(** ** Validation *)

Context (exists_path : str -> bool).

Definition in_bounds (lo hi v : Z) : bool := (lo <=? v) && (v <=? hi).

(** The checks in their order, each with the message it pushes. *)
Definition check (violated : bool) (message : str) : list str := if violated then [message] else [].

Definition jump_errors (args : Args) : list str :=
  match bool_decide (is_Some (a_jump args)), bool_decide (is_Some (a_jump_key args)),
        bool_decide (is_Some (a_jump_password args)) with
  | false, false, false | true, true, false | true, false, true => []
  | false, _, _ => [lit "Jump credentials require --jump"]
  | true, false, false => [lit "--jump requires exactly one of --jump-key or --jump-password"]
  | true, true, true => [lit "--jump-key and --jump-password are mutually exclusive; provide exactly one"]
  end.

Definition key_errors (prefix : str) (path : option str) : list str :=
  match path with
  | Some p => check (negb (exists_path p)) (prefix ++ p)
  | None => []
  end.

Definition validation_errors (args : Args) : list str :=
  check (str_eqb (a_host args) []) (lit "Missing required --host") ++
  check (str_eqb (a_user args) []) (lit "Missing required --user") ++
  check (bool_decide (a_password args = None) && bool_decide (a_key args = None))
    (lit "Must provide either --password or --key") ++
  jump_errors args ++
  key_errors (lit "SSH key file not found: ") (a_key args) ++
  key_errors (lit "Jump SSH key file not found: ") (a_jump_key args) ++
  check (MAX_RECONNECT_RETRIES <? a_reconnect_retries args)
    (lit "--reconnect-retries must be <= " ++ show_uint MAX_RECONNECT_RETRIES) ++
  check (negb (in_bounds MIN_RECONNECT_BACKOFF_MS MAX_RECONNECT_BACKOFF_MS (a_reconnect_backoff_ms args)))
    (lit "--reconnect-backoff-ms must be between " ++ show_uint MIN_RECONNECT_BACKOFF_MS ++ lit " and " ++
     show_uint MAX_RECONNECT_BACKOFF_MS) ++
  check (negb (in_bounds MIN_HEALTH_PROBE_TIMEOUT_MS MAX_HEALTH_PROBE_TIMEOUT_MS (a_health_probe_timeout_ms args)))
    (lit "--health-probe-timeout-ms must be between " ++ show_uint MIN_HEALTH_PROBE_TIMEOUT_MS ++ lit " and " ++
     show_uint MAX_HEALTH_PROBE_TIMEOUT_MS).

Definition validate_args (args : Args) : result unit SshMcpError :=
  match validation_errors args with
  | [] => Ok tt
  | errors => Err (ConfigError (lit "Configuration error:" ++ [NL] ++ join [NL] errors))
  end.

(** The arguments after sanitising and expansion. *)
Definition with_secrets (args : Args) (key jump_key : option str) : Args := {|
  a_host := a_host args; a_port := a_port args; a_user := a_user args;
  a_password := sanitize_password (a_password args); a_key := key;
  a_jump := a_jump args; a_jump_key := jump_key; a_jump_password := sanitize_password (a_jump_password args);
  a_spool_dir := a_spool_dir args;
  a_su_password := sanitize_password (a_su_password args); a_sudo_password := sanitize_password (a_sudo_password args);
  a_timeout := a_timeout args; a_max_chars := a_max_chars args; a_disable_sudo := a_disable_sudo args;
  a_max_output_tokens := a_max_output_tokens args; a_log_level := a_log_level args; a_log_file := a_log_file args;
  a_log_format := a_log_format args; a_log_rotation := a_log_rotation args;
  a_keepalive_interval := a_keepalive_interval args; a_keepalive_max := a_keepalive_max args;
  a_reconnect_retries := a_reconnect_retries args; a_reconnect_backoff_ms := a_reconnect_backoff_ms args;
  a_health_probe_timeout_ms := a_health_probe_timeout_ms args;
  a_strict_host_key_checking := a_strict_host_key_checking args; a_known_hosts := a_known_hosts args |}.

Definition jump_of (args : Args) (endpoint : str * str * Z) : JumpConfig :=
  let '(user, host, port) := endpoint in
  {| j_host := host; j_port := port; j_user := user; j_password := a_jump_password args; j_key := a_jump_key args |}.

Definition config_of (args : Args) (jump : option JumpConfig) : Config := {|
  host := a_host args; port := a_port args; user := a_user args; password := a_password args; key := a_key args;
  jump := jump; su_password := a_su_password args; sudo_password := a_sudo_password args; timeout_ms := a_timeout args;
  max_chars := parse_max_chars (a_max_chars args); max_output_tokens := parse_max_output_tokens (a_max_output_tokens args);
  disable_sudo := a_disable_sudo args; keepalive_interval := a_keepalive_interval args;
  keepalive_max := a_keepalive_max args; reconnect_retries := a_reconnect_retries args;
  reconnect_backoff_ms := a_reconnect_backoff_ms args; health_probe_timeout_ms := a_health_probe_timeout_ms args;
  strict_host_key_checking := a_strict_host_key_checking args; known_hosts := a_known_hosts args |}.

Definition from_args_with_home (args : Args) (home : option str) : result Config SshMcpError :=
  let? key := transpose (fun p => expand_key_path p home) (a_key args) in
  let? jump_key := transpose (fun p => expand_key_path p home) (a_jump_key args) in
  let args := with_secrets args key jump_key in
  let? _ := validate_args args in
  let? endpoint := transpose parse_jump_endpoint (a_jump args) in
  Ok (config_of args (jump_of args <$> endpoint)).

(** ** Bounds of the numbers *)

Lemma parse_i64_bounds s n : parse_i64 s = Some n -> - I64_MAX - 1 <= n <= I64_MAX.
Proof.
  unfold parse_i64, parse_int. destruct (strip_prefix [45] s) as [[|c d]|]; [done| |].
  - intros H. apply fmap_Some in H as (v & Hv & ->). apply parse_digits_bounds in Hv; unfold I64_MAX in *; lia.
  - intros H. apply parse_uint_bounds in H; unfold I64_MAX in *; lia.
Qed.

(** A limit that is not "unlimited" is positive and fits its type. *)
Lemma parse_max_chars_bounds v n : parse_max_chars v = Some n -> 0 < n <= USIZE_MAX.
Proof.
  unfold parse_max_chars, DEFAULT_MAX_CHARS, USIZE_MAX, U64_MAX. destruct v as [s|]; [|intros [= <-]; lia].
  destruct (str_eqb _ _); [done|]. destruct (parse_i64 s) as [m|] eqn:E; [|intros [= <-]; lia].
  destruct (m <=? 0) eqn:F; [done|]. intros [= <-]. apply parse_i64_bounds in E. bool_hyps. unfold I64_MAX in E. lia.
Qed.

Lemma parse_max_output_tokens_bounds v n : parse_max_output_tokens v = Some n -> 0 < n <= USIZE_MAX.
Proof.
  unfold parse_max_output_tokens, DEFAULT_MAX_OUTPUT_TOKENS, USIZE_MAX, U64_MAX, saturating_mul.
  destruct v as [s|]; [|intros [= <-]; lia].
  destruct (str_eqb _ _); [done|]. destruct (strip_suffix _ _) as [d|];
    (destruct (parse_i64 _) as [m|] eqn:E; [|intros [= <-]; lia]); apply parse_i64_bounds in E; unfold I64_MAX in E;
    (destruct (m <=? 0) eqn:F; [done|]); intros [= <-]; bool_hyps; lia.
Qed.

(** ** The jump endpoint *)

Lemma rsplit_once_char_Some c s a b : rsplit_once_char c s = Some (a, b) <-> s = a ++ c :: b /\ c ∉ b.
Proof.
  unfold rsplit_once_char. destruct (split_once_char c (rev s)) as [[x y]|] eqn:E.
  - apply split_once_char_Some in E as [E Hx]. apply (f_equal (@rev Z)) in E.
    rewrite rev_involutive, rev_app_distr in E. simpl in E. rewrite <- app_assoc in E. simpl in E.
    assert (Hx' : c ∉ rev x) by (by rewrite list_elem_of_In, <- in_rev, <- list_elem_of_In). split.
    + intros [= <- <-]. by split.
    + intros [E' Hb]. f_equal. assert (H : split_once_char c (rev s) = Some (rev b, rev a)).
      { apply split_once_char_Some. rewrite E', rev_app_distr. simpl. rewrite <- app_assoc. split; [done|].
        by rewrite list_elem_of_In, <- in_rev, <- list_elem_of_In. }
      assert (H' : split_once_char c (rev s) = Some (x, y)).
      { apply split_once_char_Some. rewrite E, rev_app_distr, rev_involutive. simpl. rewrite rev_involutive, <- app_assoc. by split. }
      rewrite H in H'. injection H' as <- <-. by rewrite !rev_involutive.
  - split; [done|]. intros [-> Hb]. exfalso.
    assert (H : split_once_char c (rev (a ++ c :: b)) = Some (rev b, rev a)); [|congruence].
    apply split_once_char_Some. rewrite rev_app_distr. simpl. rewrite <- app_assoc. split; [done|].
    by rewrite list_elem_of_In, <- in_rev, <- list_elem_of_In.
Qed.

(** A part of an endpoint: not empty and without white space. *)
Definition endpoint_part (s : str) : Prop := s <> [] /\ Forall (fun c => is_whitespace c = false) s.

Lemma endpoint_part_spec s : endpoint_part s <-> str_eqb s [] = false /\ existsb is_whitespace s = false.
Proof.
  unfold endpoint_part, str_eqb. rewrite bool_decide_eq_false, <- not_true_iff_false, existsb_exists, Forall_forall.
  split; intros [H1 H2]; (split; [done|]).
  - intros (x & Hx%list_elem_of_In & E). rewrite (H2 x Hx) in E. done.
  - intros x Hx. apply not_true_iff_false. intros E. apply H2. exists x. by rewrite <- list_elem_of_In.
Qed.

Lemma split_once_char_None c s : split_once_char c s = None <-> c ∉ s.
Proof.
  induction s as [|x s IH]; cbn; [split; [intros _; apply not_elem_of_nil|done]|].
  rewrite not_elem_of_cons. destruct (x =? c) eqn:E; bool_hyps; subst; [split; [done|]; by intros [? _]|].
  rewrite <- IH. destruct (split_once_char c s) as [[]|]; split; [done|by intros [_ ?]|by split|done].
Qed.

Lemma rsplit_once_char_None c s : rsplit_once_char c s = None <-> c ∉ s.
Proof.
  unfold rsplit_once_char. rewrite (list_elem_of_In s), (in_rev s), <- list_elem_of_In, <- split_once_char_None.
  by destruct (split_once_char c (rev s)) as [[]|].
Qed.

(** What comes after the user: HOST or HOST:PORT. *)
Definition host_port (e h : str) (p : Z) : Prop :=
  (e = h /\ 58 ∉ h /\ p = 22) \/ (exists t, e = h ++ 58 :: t /\ 58 ∉ t /\ parse_u16 t = Some p /\ p <> 0).

Lemma endpoint_split e h p :
  (match rsplit_once_char 58 e with
   | Some (host, port) => let? port := ok_or (parse_u16 port) jump_port in Ok (host, port)
   | None => Ok (e, 22)
   end = Ok (h, p) /\ p <> 0) <-> host_port e h p.
Proof.
  unfold host_port. destruct (rsplit_once_char 58 e) as [[h' t]|] eqn:E.
  - apply rsplit_once_char_Some in E as [-> Ht]. split.
    + intros [H Hp]. destruct (parse_u16 t) as [p'|] eqn:F; [|done]. injection H as -> ->. right. eauto.
    + intros [(<- & Hh & _)|(t' & E & Ht' & F & Hp)].
      { destruct Hh. apply elem_of_app. right. by left. }
      assert (Some (h', t) = Some (h, t')) as [= -> ->].
      { rewrite <- (proj2 (rsplit_once_char_Some 58 (h' ++ 58 :: t) h' t)) by done. by apply rsplit_once_char_Some. }
      by rewrite F.
  - apply rsplit_once_char_None in E. split.
    + intros [[= <- <-] _]. by left.
    + intros [(<- & _ & ->)|(t & -> & _)]; [done|]. destruct E. apply elem_of_app. right. by left.
Qed.

(** Exactly the texts USER@HOST and USER@HOST:PORT are accepted. *)
Lemma parse_jump_endpoint_ok value u h p :
  parse_jump_endpoint value = Ok (u, h, p) <->
  endpoint_part u /\ endpoint_part h /\ 64 ∉ u /\ exists e, value = u ++ 64 :: e /\ 64 ∉ e /\ host_port e h p.
Proof.
  rewrite !endpoint_part_spec. unfold parse_jump_endpoint. split.
  - destruct (split_once_char 64 value) as [[u' e]|] eqn:E; [|done]. cbn [ok_or rbind].
    apply split_once_char_Some in E as [-> Hu].
    destruct (str_eqb u' [] || str_eqb e [] || contains_char 64 e) eqn:F; [done|].
    apply orb_false_iff in F as [[Fu Fe]%orb_false_iff Fc%contains_char_false].
    match goal with |- rbind ?m _ = _ -> _ => destruct m as [[h' p']|] eqn:G end; [|done]. cbn [rbind].
    destruct (str_eqb h' [] || (p' =? 0) || existsb is_whitespace u' || existsb is_whitespace h') eqn:K; [done|].
    apply orb_false_iff in K as [[[Kh Kp%Z.eqb_neq]%orb_false_iff Ku]%orb_false_iff Kw].
    intros [= -> -> ->]. split_and!; try done. exists e. split_and!; try done. by apply endpoint_split.
  - intros ([Hu1 Hu2] & [Hh1 Hh2] & Hu & e & -> & He & Hhp).
    rewrite (proj2 (split_once_char_Some 64 (u ++ 64 :: e) u e)) by done. cbn [ok_or rbind].
    assert (str_eqb e [] = false) as ->.
    { apply not_true_iff_false. intros ->%str_eqb_spec. destruct Hhp as [(<- & _)|(t & E & _)]; [done|by destruct h]. }
    rewrite Hu1, (proj2 (contains_char_false 64 e) He). cbn [orb]. apply endpoint_split in Hhp as [-> Hp].
    cbn [rbind]. by rewrite Hh1, Hu2, Hh2, (proj2 (Z.eqb_neq p 0) Hp).
Qed.

(** ** A configuration that was accepted *)

(** At most one kind of jump credential, and no empty password. *)
Record valid_config (c : Config) : Prop := {
  v_host : host c <> [];
  v_user : user c <> [];
  v_credential : password c <> None \/ key c <> None;
  v_keys : forall p, key c = Some p \/ (exists j, jump c = Some j /\ j_key j = Some p) -> exists_path p = true;
  v_passwords : Forall (fun s => s <> Some []) [password c; su_password c; sudo_password c];
  v_jump : forall j, jump c = Some j ->
    endpoint_part (j_user j) /\ endpoint_part (j_host j) /\ 1 <= j_port j <= 65535 /\
    ((j_password j = None /\ is_Some (j_key j)) \/ (exists p, j_password j = Some p /\ p <> [] /\ j_key j = None));
  v_retries : reconnect_retries c <= 10;
  v_backoff : 10 <= reconnect_backoff_ms c <= 30000;
  v_probe : 100 <= health_probe_timeout_ms c <= 30000;
  v_chars : forall n, max_chars c = Some n -> 0 < n <= USIZE_MAX;
  v_tokens : forall n, max_output_tokens c = Some n -> 0 < n <= USIZE_MAX
}.

Lemma check_nil b m : check b m = [] <-> b = false.
Proof. by destruct b. Qed.

Lemma key_errors_nil prefix k : key_errors prefix k = [] <-> forall p, k = Some p -> exists_path p = true.
Proof.
  destruct k as [p|]; cbn; [|done]. rewrite check_nil, negb_false_iff. split; [by intros ? ? [= <-]|auto].
Qed.

Lemma sanitize_password_ne p : sanitize_password p <> Some [].
Proof.
  destruct p as [p|]; [|done]. cbn. destruct (str_eqb p []) eqn:E; [done|]. intros [= ->]. done.
Qed.

(** What [validate_args] demands. *)
Record acceptable (a : Args) : Prop := {
  acc_host : a_host a <> [];
  acc_user : a_user a <> [];
  acc_credential : a_password a <> None \/ a_key a <> None;
  acc_jump : match a_jump a with
             | None => a_jump_key a = None /\ a_jump_password a = None
             | Some _ => (a_jump_key a <> None /\ a_jump_password a = None) \/ (a_jump_key a = None /\ a_jump_password a <> None)
             end;
  acc_key : forall p, a_key a = Some p -> exists_path p = true;
  acc_jump_key : forall p, a_jump_key a = Some p -> exists_path p = true;
  acc_retries : a_reconnect_retries a <= 10;
  acc_backoff : 10 <= a_reconnect_backoff_ms a <= 30000;
  acc_probe : 100 <= a_health_probe_timeout_ms a <= 30000
}.

Lemma jump_errors_nil a : jump_errors a = [] <->
  match a_jump a with
  | None => a_jump_key a = None /\ a_jump_password a = None
  | Some _ => (a_jump_key a <> None /\ a_jump_password a = None) \/ (a_jump_key a = None /\ a_jump_password a <> None)
  end.
Proof.
  unfold jump_errors. destruct (a_jump a), (a_jump_key a), (a_jump_password a); cbn; split; try done; try (intros [? ?]; done);
    try (intros [[? ?]|[? ?]]; done); auto.
Qed.

Lemma in_bounds_true lo hi v : negb (in_bounds lo hi v) = false <-> lo <= v <= hi.
Proof. unfold in_bounds. rewrite negb_false_iff, andb_true_iff, !Z.leb_le. done. Qed.

Lemma validate_args_acceptable a : validate_args a = Ok tt <-> acceptable a.
Proof.
  assert (validate_args a = Ok tt <-> validation_errors a = []) as ->.
  { unfold validate_args. by destruct (validation_errors a). }
  unfold validation_errors. rewrite !app_nil, !check_nil, !key_errors_nil, jump_errors_nil, !in_bounds_true.
  unfold str_eqb. rewrite !bool_decide_eq_false, andb_false_iff, !bool_decide_eq_false, Z.ltb_ge.
  split; [intros (? & ? & ? & ? & ? & ? & ? & ? & ?); by constructor|]. by intros [].
Qed.

Lemma from_args_ok args home c :
  from_args_with_home args home = Ok c <->
  exists key jump_key jump, transpose (fun p => expand_key_path p home) (a_key args) = Ok key /\
    transpose (fun p => expand_key_path p home) (a_jump_key args) = Ok jump_key /\
    acceptable (with_secrets args key jump_key) /\ transpose parse_jump_endpoint (a_jump args) = Ok jump /\
    c = config_of (with_secrets args key jump_key) (jump_of (with_secrets args key jump_key) <$> jump).
Proof.
  unfold from_args_with_home. split.
  - destruct (transpose _ (a_key args)) as [k|] eqn:Ek; [|done]. destruct (transpose _ (a_jump_key args)) as [jk|] eqn:Ejk; [|done].
    cbn [rbind]. destruct (validate_args _) as [[]|] eqn:Ev; [|done]. apply validate_args_acceptable in Ev. cbn [rbind a_jump with_secrets].
    destruct (transpose _ (a_jump args)) as [j|] eqn:Ej; [|done]. intros [= <-]. by exists k, jk, j.
  - intros (k & jk & j & -> & -> & Ha%validate_args_acceptable & Ej & ->). cbn [rbind]. rewrite Ha. cbn [rbind a_jump with_secrets].
    by rewrite Ej.
Qed.

Lemma parse_u16_max t p : parse_u16 t = Some p -> 0 <= p <= 65535.
Proof. intros H. apply parse_uint_bounds in H; unfold U16_MAX in *; lia. Qed.

Lemma host_port_range e h p : host_port e h p -> 1 <= p <= 65535.
Proof. intros [(_ & _ & ->)|(t & _ & _ & H%parse_u16_max & ?)]; lia. Qed.

(** ** A refusal *)

(** What can be wrong with the arguments, with the message for it. *)
Inductive violation (a : Args) : str -> Prop :=
  | vi_host : a_host a = [] -> violation a (lit "Missing required --host")
  | vi_user : a_user a = [] -> violation a (lit "Missing required --user")
  | vi_credential : a_password a = None -> a_key a = None -> violation a (lit "Must provide either --password or --key")
  | vi_jump_missing : a_jump a = None -> a_jump_key a <> None \/ a_jump_password a <> None ->
      violation a (lit "Jump credentials require --jump")
  | vi_jump_none v : a_jump a = Some v -> a_jump_key a = None -> a_jump_password a = None ->
      violation a (lit "--jump requires exactly one of --jump-key or --jump-password")
  | vi_jump_both v k p : a_jump a = Some v -> a_jump_key a = Some k -> a_jump_password a = Some p ->
      violation a (lit "--jump-key and --jump-password are mutually exclusive; provide exactly one")
  | vi_key p : a_key a = Some p -> exists_path p = false -> violation a (lit "SSH key file not found: " ++ p)
  | vi_jump_key p : a_jump_key a = Some p -> exists_path p = false -> violation a (lit "Jump SSH key file not found: " ++ p)
  | vi_retries : 10 < a_reconnect_retries a -> violation a (lit "--reconnect-retries must be <= 10")
  | vi_backoff : a_reconnect_backoff_ms a < 10 \/ 30000 < a_reconnect_backoff_ms a ->
      violation a (lit "--reconnect-backoff-ms must be between 10 and 30000")
  | vi_probe : a_health_probe_timeout_ms a < 100 \/ 30000 < a_health_probe_timeout_ms a ->
      violation a (lit "--health-probe-timeout-ms must be between 100 and 30000").

Lemma elem_of_check m b t : m ∈ check b t <-> b = true /\ m = t.
Proof. destruct b; cbn; [rewrite list_elem_of_singleton; naive_solver|]. split; [by intros ?%not_elem_of_nil|by intros []]. Qed.

Lemma elem_of_key_errors m prefix k : m ∈ key_errors prefix k <-> exists p, k = Some p /\ exists_path p = false /\ m = prefix ++ p.
Proof.
  destruct k as [p|]; cbn; [rewrite elem_of_check, negb_true_iff; naive_solver|].
  split; [by intros ?%not_elem_of_nil|naive_solver].
Qed.

Lemma elem_of_jump_errors m a : m ∈ jump_errors a <->
  (a_jump a = None /\ (a_jump_key a <> None \/ a_jump_password a <> None) /\ m = lit "Jump credentials require --jump") \/
  (is_Some (a_jump a) /\ a_jump_key a = None /\ a_jump_password a = None /\
     m = lit "--jump requires exactly one of --jump-key or --jump-password") \/
  (is_Some (a_jump a) /\ is_Some (a_jump_key a) /\ is_Some (a_jump_password a) /\
     m = lit "--jump-key and --jump-password are mutually exclusive; provide exactly one").
Proof.
  unfold jump_errors, is_Some. destruct (a_jump a), (a_jump_key a), (a_jump_password a); cbn -[lit];
    rewrite ?list_elem_of_singleton, ?elem_of_nil; naive_solver.
Qed.

Lemma in_bounds_false lo hi v : negb (in_bounds lo hi v) = true <-> v < lo \/ hi < v.
Proof. unfold in_bounds. rewrite negb_true_iff, andb_false_iff, !Z.leb_gt. done. Qed.

(** Finds the disjunct that [tac] proves. *)
#[local] Ltac pick tac := first [solve [tac] | left; pick tac | right; pick tac].

(** The messages are those of the violations, all of them and no other. *)
Lemma validation_errors_violation a m : m ∈ validation_errors a <-> violation a m.
Proof.
  unfold validation_errors.
  rewrite !elem_of_app, !elem_of_check, !elem_of_key_errors, elem_of_jump_errors, !in_bounds_false, !andb_true_iff, !bool_decide_eq_true, Z.ltb_lt, !str_eqb_spec.
  split.
  - intros H. repeat (destruct H as [H|H]); destruct_and?; subst; try (by constructor);
      repeat match goal with H : is_Some _ |- _ => destruct H | H : exists _, _ |- _ => destruct H end; destruct_and?; subst; by econstructor.
  - intros []; pick ltac:(split_and?; eauto).
Qed.

(** Which endpoints are refused, and how. *)
Inductive bad_endpoint (v : str) : SshMcpError -> Prop :=
  | be_no_at : 64 ∉ v -> bad_endpoint v jump_format
  | be_parts u e : v = u ++ 64 :: e -> 64 ∉ u -> u = [] \/ e = [] \/ 64 ∈ e -> bad_endpoint v jump_format
  | be_port u h t : v = u ++ 64 :: h ++ 58 :: t -> 64 ∉ u -> u <> [] -> 64 ∉ h ++ 58 :: t -> 58 ∉ t -> parse_u16 t = None ->
      bad_endpoint v jump_port
  | be_values u e h p : v = u ++ 64 :: e -> 64 ∉ u -> u <> [] -> 64 ∉ e ->
      (e = h /\ 58 ∉ h /\ p = 22 \/ exists t, e = h ++ 58 :: t /\ 58 ∉ t /\ parse_u16 t = Some p) ->
      h = [] \/ p = 0 \/ existsb is_whitespace u = true \/ existsb is_whitespace h = true ->
      bad_endpoint v jump_values.

Lemma parse_jump_endpoint_err v e : parse_jump_endpoint v = Err e -> bad_endpoint v e.
Proof.
  unfold parse_jump_endpoint. destruct (split_once_char 64 v) as [[u r]|] eqn:E; cbn [ok_or rbind].
  2: { apply split_once_char_None in E. intros [= <-]. by constructor. }
  apply split_once_char_Some in E as [-> Hu].
  destruct (str_eqb u [] || str_eqb r [] || contains_char 64 r) eqn:F.
  { intros [= <-]. apply (be_parts _ u r); [done..|]. rewrite !orb_true_iff, !str_eqb_spec in F.
    destruct F as [[F|F]|F]; [by left|right; by left|right; right]. destruct (decide (64 ∈ r)) as [|n]; [done|].
    apply contains_char_false in n. congruence. }
  apply orb_false_iff in F as [[Fu Fe]%orb_false_iff Fc%contains_char_false].
  assert (u <> []) by (by intros ->).
  destruct (rsplit_once_char 58 r) as [[h t]|] eqn:G.
  - apply rsplit_once_char_Some in G as [-> Ht]. destruct (parse_u16 t) as [p|] eqn:K; cbn [ok_or rbind].
    + case_match eqn:L; [|done]. intros [= <-]. apply (be_values _ u (h ++ 58 :: t) h p); try done; [right; eauto|].
      rewrite !orb_true_iff, str_eqb_spec, Z.eqb_eq in L. naive_solver.
    + intros [= <-]. by apply (be_port _ u h t).
  - apply rsplit_once_char_None in G. cbn [rbind]. case_match eqn:L; [|done]. intros [= <-].
    apply (be_values _ u r r 22); try done; [by left|]. rewrite !orb_true_iff, str_eqb_spec, Z.eqb_eq in L. naive_solver.
Qed.

(** The refusals of [Config::from_args]: the first key path that cannot be
    expanded; or the list of every violation of the expanded arguments; or, when
    there is none, what is wrong with the jump endpoint. *)
Inductive refusal (args : Args) (home : option str) : SshMcpError -> Prop :=
  | rf_home p : (a_key args = Some p \/ is_ok (transpose (fun p => expand_key_path p home) (a_key args)) = true /\ a_jump_key args = Some p) ->
      starts_with (lit "~/") p = true -> home = None \/ home = Some [] ->
      refusal args home (ConfigError (lit "Cannot expand SSH key path " ++ p ++ lit ": HOME is not set"))
  | rf_violations key jump_key errors :
      transpose (fun p => expand_key_path p home) (a_key args) = Ok key ->
      transpose (fun p => expand_key_path p home) (a_jump_key args) = Ok jump_key ->
      errors <> [] -> (forall m, m ∈ errors <-> violation (with_secrets args key jump_key) m) ->
      refusal args home (ConfigError (lit "Configuration error:" ++ [NL] ++ join [NL] errors))
  | rf_endpoint key jump_key v e :
      transpose (fun p => expand_key_path p home) (a_key args) = Ok key ->
      transpose (fun p => expand_key_path p home) (a_jump_key args) = Ok jump_key ->
      (forall m, ~ violation (with_secrets args key jump_key) m) ->
      a_jump args = Some v -> bad_endpoint v e -> refusal args home e.

Lemma expand_err k home e : transpose (fun p => expand_key_path p home) k = Err e ->
  exists p, k = Some p /\ starts_with (lit "~/") p = true /\ (home = None \/ home = Some []) /\
    e = ConfigError (lit "Cannot expand SSH key path " ++ p ++ lit ": HOME is not set").
Proof.
  destruct k as [p|]; [|done]. cbn [transpose]. unfold expand_key_path. intros H. exists p. split; [done|].
  destruct (starts_with (lit "~/") p); [|done]. cbn [negb] in H. destruct home as [[|]|]; cbn [rbind] in H; try done; injection H as <-; auto.
Qed.

Lemma from_args_refusal args home e : from_args_with_home args home = Err e -> refusal args home e.
Proof.
  unfold from_args_with_home.
  destruct (transpose (fun p => expand_key_path p home) (a_key args)) as [key|] eqn:Ek; cbn [rbind].
  2: { intros [= <-]. apply expand_err in Ek as (p & Hp & ? & ? & ->). apply rf_home; auto. }
  destruct (transpose _ (a_jump_key args)) as [jump_key|] eqn:Ejk; cbn [rbind].
  2: { intros [= <-]. apply expand_err in Ejk as (p & Hp & ? & ? & ->). apply rf_home; [|done..]. right. by rewrite Ek. }
  pose proof (validation_errors_violation (with_secrets args key jump_key)) as Hv.
  unfold validate_args. destruct (validation_errors _) as [|m ms]; cbn [rbind].
  - cbn [a_jump with_secrets]. destruct (a_jump args) as [v|] eqn:Ej; [|done]. cbn [transpose].
    destruct (parse_jump_endpoint v) as [[[u h] p]|e'] eqn:Ep; cbn [rbind]; [done|]. intros [= <-].
    apply (rf_endpoint _ _ key jump_key v); try done; [|by apply parse_jump_endpoint_err].
    intros m Hm%Hv. by apply not_elem_of_nil in Hm.
  - assert (Hi : forall a b : SshMcpError, @Err Config _ a = Err b -> a = b) by (intros ? ? [=]; done).
    intros <-%Hi. by apply (rf_violations _ _ key jump_key).
Qed.

(** C40. [Config::from_args] accepts exactly the arguments whose key paths can
    be expanded, that [acceptable] describes and whose jump endpoint reads
    USER@HOST or USER@HOST:PORT; every configuration it returns is valid
    (credentials present and not empty, one jump credential, ports, limits and
    timings in their ranges). A refusal ([refusal]) names what is wrong: the key
    path whose home is unknown, or every violated condition of the arguments and
    no other, or, when there is none, the defect of the jump endpoint. *)
Theorem from_args_valid (args : Args) (home : option str) :
  (is_ok (from_args_with_home args home) = true <->
   exists key jump_key, transpose (fun p => expand_key_path p home) (a_key args) = Ok key /\
     transpose (fun p => expand_key_path p home) (a_jump_key args) = Ok jump_key /\
     acceptable (with_secrets args key jump_key) /\
     forall v, a_jump args = Some v -> exists u h p e, endpoint_part u /\ endpoint_part h /\ 64 ∉ u /\ 64 ∉ e /\
       v = u ++ 64 :: e /\ host_port e h p) /\
  (forall c, from_args_with_home args home = Ok c -> valid_config c) /\
  (forall e, from_args_with_home args home = Err e -> refusal args home e).
Proof.
  split_and!; [| |apply from_args_refusal].
  - split.
    + destruct (from_args_with_home args home) as [c|] eqn:E; [|done]. intros _.
      apply from_args_ok in E as (k & jk & j & Hk & Hjk & Ha & Hj & _). exists k, jk. split_and!; try done.
      intros v Ev. rewrite Ev in Hj. cbn in Hj. destruct (parse_jump_endpoint v) as [[[u h] p]|] eqn:Ep; [|done].
      apply parse_jump_endpoint_ok in Ep as (? & ? & ? & e & ? & ? & ?). by exists u, h, p, e.
    + intros (k & jk & Hk & Hjk & Ha & Hv).
      assert (exists j, transpose parse_jump_endpoint (a_jump args) = Ok j) as [j Hj].
      { destruct (a_jump args) as [v|]; [|by exists None]. destruct (Hv v eq_refl) as (u & h & p & e & ? & ? & ? & ? & ? & ?).
        exists (Some (u, h, p)). cbn. rewrite (proj2 (parse_jump_endpoint_ok v u h p)); [done|]. split_and!; try done. by exists e. }
      by rewrite (proj2 (from_args_ok args home _) (ex_intro _ k (ex_intro _ jk (ex_intro _ j (conj Hk (conj Hjk (conj Ha (conj Hj eq_refl)))))))).
  - intros c (k & jk & j & Hk & Hjk & [] & Hj & ->)%from_args_ok. constructor; cbn in *; try done.
    + intros p [Hp|(jc & Hjc & Hp)]; [auto|]. destruct j as [[[u h] pt]|]; [|done]. injection Hjc as <-. cbn in Hp. auto.
    + repeat constructor; apply sanitize_password_ne.
    + intros jc Hjc. destruct j as [[[u h] p]|]; [|done]. injection Hjc as <-. cbn.
      destruct (a_jump args) as [v|]; [|done]. cbn in Hj.
      destruct (parse_jump_endpoint v) as [[[u' h'] p']|] eqn:Ep; [|done]. injection Hj as -> -> ->.
      apply parse_jump_endpoint_ok in Ep as (? & ? & ? & e & ? & ? & Hhp). apply host_port_range in Hhp. split_and!; try done; try lia.
      pose proof (sanitize_password_ne (a_jump_password args)) as Hne.
      destruct acc_jump0 as [[Hjk' ->]|[-> Hp']].
      * left. split; [done|]. by destruct jk.
      * right. destruct (sanitize_password (a_jump_password args)) as [pw|]; [|done]. exists pw. split_and!; congruence.
    + intros n. apply parse_max_chars_bounds.
    + intros n. apply parse_max_output_tokens_bounds.
Qed.
End Numbers.
