(* ===== verification/SshConfig.v ===== *)
(** * Connection settings

    [SshConfig] of src/ssh/config.rs with its builder, and how
    [SshMcpServer::new_with_spool_dir] (src/server.rs) fills it from a
    [Config]. Reading a key file is an argument: its text or its error. *)
From Stdlib Require Import ZArith String.
From stdpp Require Import base list.
From S2P Require Import Prelude Errors Config.

Definition TIMEOUT_KILL_AFTER_SECS : Z := 2.
Definition TIMEOUT_DETECTION_TIMEOUT_MS : Z := 5000.

Record SshJumpConfig : Type := {
  jump_host : str; jump_port : Z; jump_username : str; jump_password : option str; jump_private_key : option str }.

Record SshConfig : Type := {
  s_host : str; s_port : Z; s_username : str; s_password : option str; s_private_key : option str;
  s_jump : option SshJumpConfig; s_su_password : option str; s_sudo_password : option str;
  s_keepalive_interval : Z; s_keepalive_max : Z; s_max_output_tokens : option Z; s_reconnect_retries : Z;
  s_reconnect_backoff_ms : Z; s_health_probe_timeout_ms : Z; s_host_key_checking : HostKeyCheckMode;
  s_known_hosts : option str }.

Definition SshConfig_new (host username : str) : SshConfig := {|
  s_host := host; s_port := 22; s_username := username; s_password := None; s_private_key := None; s_jump := None;
  s_su_password := None; s_sudo_password := None; s_keepalive_interval := 30; s_keepalive_max := 3;
  s_max_output_tokens := Some 16000; s_reconnect_retries := 3; s_reconnect_backoff_ms := 250;
  s_health_probe_timeout_ms := 1500; s_host_key_checking := AcceptNew; s_known_hosts := None |}.

(** ** The builder *)

Definition with_port (v : Z) (c : SshConfig) : SshConfig := {|
  s_host := s_host c; s_port := v; s_username := s_username c; s_password := s_password c;
  s_private_key := s_private_key c; s_jump := s_jump c; s_su_password := s_su_password c;
  s_sudo_password := s_sudo_password c; s_keepalive_interval := s_keepalive_interval c;
  s_keepalive_max := s_keepalive_max c; s_max_output_tokens := s_max_output_tokens c;
  s_reconnect_retries := s_reconnect_retries c; s_reconnect_backoff_ms := s_reconnect_backoff_ms c;
  s_health_probe_timeout_ms := s_health_probe_timeout_ms c; s_host_key_checking := s_host_key_checking c;
  s_known_hosts := s_known_hosts c |}.

Definition with_password (v : str) (c : SshConfig) : SshConfig := {|
  s_host := s_host c; s_port := s_port c; s_username := s_username c; s_password := Some v;
  s_private_key := s_private_key c; s_jump := s_jump c; s_su_password := s_su_password c;
  s_sudo_password := s_sudo_password c; s_keepalive_interval := s_keepalive_interval c;
  s_keepalive_max := s_keepalive_max c; s_max_output_tokens := s_max_output_tokens c;
  s_reconnect_retries := s_reconnect_retries c; s_reconnect_backoff_ms := s_reconnect_backoff_ms c;
  s_health_probe_timeout_ms := s_health_probe_timeout_ms c; s_host_key_checking := s_host_key_checking c;
  s_known_hosts := s_known_hosts c |}.

Definition with_private_key (v : str) (c : SshConfig) : SshConfig := {|
  s_host := s_host c; s_port := s_port c; s_username := s_username c; s_password := s_password c;
  s_private_key := Some v; s_jump := s_jump c; s_su_password := s_su_password c;
  s_sudo_password := s_sudo_password c; s_keepalive_interval := s_keepalive_interval c;
  s_keepalive_max := s_keepalive_max c; s_max_output_tokens := s_max_output_tokens c;
  s_reconnect_retries := s_reconnect_retries c; s_reconnect_backoff_ms := s_reconnect_backoff_ms c;
  s_health_probe_timeout_ms := s_health_probe_timeout_ms c; s_host_key_checking := s_host_key_checking c;
  s_known_hosts := s_known_hosts c |}.

Definition with_jump (v : SshJumpConfig) (c : SshConfig) : SshConfig := {|
  s_host := s_host c; s_port := s_port c; s_username := s_username c; s_password := s_password c;
  s_private_key := s_private_key c; s_jump := Some v; s_su_password := s_su_password c;
  s_sudo_password := s_sudo_password c; s_keepalive_interval := s_keepalive_interval c;
  s_keepalive_max := s_keepalive_max c; s_max_output_tokens := s_max_output_tokens c;
  s_reconnect_retries := s_reconnect_retries c; s_reconnect_backoff_ms := s_reconnect_backoff_ms c;
  s_health_probe_timeout_ms := s_health_probe_timeout_ms c; s_host_key_checking := s_host_key_checking c;
  s_known_hosts := s_known_hosts c |}.

Definition with_su_password (v : str) (c : SshConfig) : SshConfig := {|
  s_host := s_host c; s_port := s_port c; s_username := s_username c; s_password := s_password c;
  s_private_key := s_private_key c; s_jump := s_jump c; s_su_password := Some v;
  s_sudo_password := s_sudo_password c; s_keepalive_interval := s_keepalive_interval c;
  s_keepalive_max := s_keepalive_max c; s_max_output_tokens := s_max_output_tokens c;
  s_reconnect_retries := s_reconnect_retries c; s_reconnect_backoff_ms := s_reconnect_backoff_ms c;
  s_health_probe_timeout_ms := s_health_probe_timeout_ms c; s_host_key_checking := s_host_key_checking c;
  s_known_hosts := s_known_hosts c |}.

Definition with_sudo_password (v : str) (c : SshConfig) : SshConfig := {|
  s_host := s_host c; s_port := s_port c; s_username := s_username c; s_password := s_password c;
  s_private_key := s_private_key c; s_jump := s_jump c; s_su_password := s_su_password c; s_sudo_password := Some v;
  s_keepalive_interval := s_keepalive_interval c; s_keepalive_max := s_keepalive_max c;
  s_max_output_tokens := s_max_output_tokens c; s_reconnect_retries := s_reconnect_retries c;
  s_reconnect_backoff_ms := s_reconnect_backoff_ms c; s_health_probe_timeout_ms := s_health_probe_timeout_ms c;
  s_host_key_checking := s_host_key_checking c; s_known_hosts := s_known_hosts c |}.

Definition with_keepalive_interval (v : Z) (c : SshConfig) : SshConfig := {|
  s_host := s_host c; s_port := s_port c; s_username := s_username c; s_password := s_password c;
  s_private_key := s_private_key c; s_jump := s_jump c; s_su_password := s_su_password c;
  s_sudo_password := s_sudo_password c; s_keepalive_interval := v; s_keepalive_max := s_keepalive_max c;
  s_max_output_tokens := s_max_output_tokens c; s_reconnect_retries := s_reconnect_retries c;
  s_reconnect_backoff_ms := s_reconnect_backoff_ms c; s_health_probe_timeout_ms := s_health_probe_timeout_ms c;
  s_host_key_checking := s_host_key_checking c; s_known_hosts := s_known_hosts c |}.

Definition with_keepalive_max (v : Z) (c : SshConfig) : SshConfig := {|
  s_host := s_host c; s_port := s_port c; s_username := s_username c; s_password := s_password c;
  s_private_key := s_private_key c; s_jump := s_jump c; s_su_password := s_su_password c;
  s_sudo_password := s_sudo_password c; s_keepalive_interval := s_keepalive_interval c; s_keepalive_max := v;
  s_max_output_tokens := s_max_output_tokens c; s_reconnect_retries := s_reconnect_retries c;
  s_reconnect_backoff_ms := s_reconnect_backoff_ms c; s_health_probe_timeout_ms := s_health_probe_timeout_ms c;
  s_host_key_checking := s_host_key_checking c; s_known_hosts := s_known_hosts c |}.

Definition with_max_output_tokens (v : option Z) (c : SshConfig) : SshConfig := {|
  s_host := s_host c; s_port := s_port c; s_username := s_username c; s_password := s_password c;
  s_private_key := s_private_key c; s_jump := s_jump c; s_su_password := s_su_password c;
  s_sudo_password := s_sudo_password c; s_keepalive_interval := s_keepalive_interval c;
  s_keepalive_max := s_keepalive_max c; s_max_output_tokens := v; s_reconnect_retries := s_reconnect_retries c;
  s_reconnect_backoff_ms := s_reconnect_backoff_ms c; s_health_probe_timeout_ms := s_health_probe_timeout_ms c;
  s_host_key_checking := s_host_key_checking c; s_known_hosts := s_known_hosts c |}.

Definition with_reconnect_retries (v : Z) (c : SshConfig) : SshConfig := {|
  s_host := s_host c; s_port := s_port c; s_username := s_username c; s_password := s_password c;
  s_private_key := s_private_key c; s_jump := s_jump c; s_su_password := s_su_password c;
  s_sudo_password := s_sudo_password c; s_keepalive_interval := s_keepalive_interval c;
  s_keepalive_max := s_keepalive_max c; s_max_output_tokens := s_max_output_tokens c; s_reconnect_retries := v;
  s_reconnect_backoff_ms := s_reconnect_backoff_ms c; s_health_probe_timeout_ms := s_health_probe_timeout_ms c;
  s_host_key_checking := s_host_key_checking c; s_known_hosts := s_known_hosts c |}.

Definition with_reconnect_backoff_ms (v : Z) (c : SshConfig) : SshConfig := {|
  s_host := s_host c; s_port := s_port c; s_username := s_username c; s_password := s_password c;
  s_private_key := s_private_key c; s_jump := s_jump c; s_su_password := s_su_password c;
  s_sudo_password := s_sudo_password c; s_keepalive_interval := s_keepalive_interval c;
  s_keepalive_max := s_keepalive_max c; s_max_output_tokens := s_max_output_tokens c;
  s_reconnect_retries := s_reconnect_retries c; s_reconnect_backoff_ms := v;
  s_health_probe_timeout_ms := s_health_probe_timeout_ms c; s_host_key_checking := s_host_key_checking c;
  s_known_hosts := s_known_hosts c |}.

Definition with_health_probe_timeout_ms (v : Z) (c : SshConfig) : SshConfig := {|
  s_host := s_host c; s_port := s_port c; s_username := s_username c; s_password := s_password c;
  s_private_key := s_private_key c; s_jump := s_jump c; s_su_password := s_su_password c;
  s_sudo_password := s_sudo_password c; s_keepalive_interval := s_keepalive_interval c;
  s_keepalive_max := s_keepalive_max c; s_max_output_tokens := s_max_output_tokens c;
  s_reconnect_retries := s_reconnect_retries c; s_reconnect_backoff_ms := s_reconnect_backoff_ms c;
  s_health_probe_timeout_ms := v; s_host_key_checking := s_host_key_checking c; s_known_hosts := s_known_hosts c |}.

Definition with_host_key_checking (v : HostKeyCheckMode) (c : SshConfig) : SshConfig := {|
  s_host := s_host c; s_port := s_port c; s_username := s_username c; s_password := s_password c;
  s_private_key := s_private_key c; s_jump := s_jump c; s_su_password := s_su_password c;
  s_sudo_password := s_sudo_password c; s_keepalive_interval := s_keepalive_interval c;
  s_keepalive_max := s_keepalive_max c; s_max_output_tokens := s_max_output_tokens c;
  s_reconnect_retries := s_reconnect_retries c; s_reconnect_backoff_ms := s_reconnect_backoff_ms c;
  s_health_probe_timeout_ms := s_health_probe_timeout_ms c; s_host_key_checking := v; s_known_hosts := s_known_hosts c |}.

Definition with_known_hosts (v : option str) (c : SshConfig) : SshConfig := {|
  s_host := s_host c; s_port := s_port c; s_username := s_username c; s_password := s_password c;
  s_private_key := s_private_key c; s_jump := s_jump c; s_su_password := s_su_password c;
  s_sudo_password := s_sudo_password c; s_keepalive_interval := s_keepalive_interval c;
  s_keepalive_max := s_keepalive_max c; s_max_output_tokens := s_max_output_tokens c;
  s_reconnect_retries := s_reconnect_retries c; s_reconnect_backoff_ms := s_reconnect_backoff_ms c;
  s_health_probe_timeout_ms := s_health_probe_timeout_ms c; s_host_key_checking := s_host_key_checking c;
  s_known_hosts := v |}.

(** ** Filling it (new_with_spool_dir) *)

(** [Option::filter] of an empty password. *)
Definition nonempty (p : option str) : option str :=
  match p with Some s => if str_eqb s [] then None else Some s | None => None end.

(** After the credentials: elevation passwords and the numeric settings. *)
Definition add_settings (config : Config) (c : SshConfig) : SshConfig :=
  let c := match nonempty (su_password config) with Some p => with_su_password p c | None => c end in
  let c := match nonempty (sudo_password config) with Some p => with_sudo_password p c | None => c end in
  let c := with_keepalive_max (keepalive_max config) (with_keepalive_interval (keepalive_interval config) c) in
  let c := with_health_probe_timeout_ms (health_probe_timeout_ms config)
             (with_reconnect_backoff_ms (reconnect_backoff_ms config)
                (with_reconnect_retries (reconnect_retries config) c)) in
  let c := with_known_hosts (known_hosts config) (with_host_key_checking (strict_host_key_checking config) c) in
  with_max_output_tokens (max_output_tokens config) c.

Section build.
Context (read_to_string : str -> result str str).

Definition add_private_key (config : Config) (c : SshConfig) : result SshConfig SshMcpError :=
  match key config with
  | Some key_path =>
      let? key_content := rmap_err Io (read_to_string key_path) in
      Ok (with_private_key key_content c)
  | None => Ok c
  end.

Definition add_jump (config : Config) (c : SshConfig) : result SshConfig SshMcpError :=
  match jump config with
  | Some j =>
      let password := nonempty (j_password j) in
      reject (str_eqb (j_user j) [] || str_eqb (j_host j) [] || (j_port j =? 0) ||
              Bool.eqb (bool_decide (is_Some (j_key j))) (bool_decide (is_Some password)))
        (ConfigError (lit "jump requires a valid endpoint and exactly one key or password")) ;?
      let? private_key := match j_key j with
        | Some path =>
            let? text := rmap_err (fun e => ConfigError (lit "failed to read jump SSH key " ++ path ++ lit ": " ++ e))
                           (read_to_string path) in
            Ok (Some text)
        | None => Ok None
        end in
      Ok (with_jump {| jump_host := j_host j; jump_port := j_port j; jump_username := j_user j;
                       jump_password := password; jump_private_key := private_key |} c)
  | None => Ok c
  end.

Definition build_ssh_config (config : Config) : result SshConfig SshMcpError :=
  let c := with_port (port config) (SshConfig_new (host config) (user config)) in
  let c := match password config with Some p => with_password p c | None => c end in
  let? c := add_private_key config c in
  let? c := add_jump config c in
  Ok (add_settings config c).
End build.

(** ** What a validated configuration becomes *)

Section correct.
Context (exists_path : str -> bool) (read_to_string : str -> result str str).

(** [text] is the content of the key file at [path], if there is one. *)
Definition key_text (path text : option str) : Prop :=
  match path with Some p => exists t, text = Some t /\ read_to_string p = Ok t | None => text = None end.

Definition jump_settings (j : JumpConfig) (private_key : option str) : SshJumpConfig := {|
  jump_host := j_host j; jump_port := j_port j; jump_username := j_user j; jump_password := j_password j;
  jump_private_key := private_key |}.

Definition settings (c : Config) (private_key : option str) (j : option SshJumpConfig) : SshConfig := {|
  s_host := host c; s_port := port c; s_username := user c; s_password := password c; s_private_key := private_key;
  s_jump := j; s_su_password := su_password c; s_sudo_password := sudo_password c;
  s_keepalive_interval := keepalive_interval c; s_keepalive_max := keepalive_max c;
  s_max_output_tokens := max_output_tokens c; s_reconnect_retries := reconnect_retries c;
  s_reconnect_backoff_ms := reconnect_backoff_ms c; s_health_probe_timeout_ms := health_probe_timeout_ms c;
  s_host_key_checking := strict_host_key_checking c; s_known_hosts := known_hosts c |}.

Lemma nonempty_id p : p <> Some [] -> nonempty p = p.
Proof. destruct p as [[|x s]|]; done. Qed.

(** Reading an optional key file; [wrap] is the error of the caller. *)
Definition read_key (wrap : str -> str -> SshMcpError) (path : option str) : result (option str) SshMcpError :=
  match path with
  | Some p => match read_to_string p with Ok t => Ok (Some t) | Err m => Err (wrap p m) end
  | None => Ok None
  end.

Lemma read_key_ok wrap path k : read_key wrap path = Ok k <-> key_text path k.
Proof. unfold read_key, key_text. destruct path as [p|]; [destruct (read_to_string p)|]; naive_solver. Qed.

Lemma read_key_err wrap path e :
  read_key wrap path = Err e -> exists p m, path = Some p /\ read_to_string p = Err m /\ e = wrap p m.
Proof. unfold read_key. destruct path as [p|]; [destruct (read_to_string p) eqn:E|]; naive_solver. Qed.

Definition jump_key_error (p m : str) : SshMcpError :=
  ConfigError (lit "failed to read jump SSH key " ++ p ++ lit ": " ++ m).

Lemma add_jump_reads c s0 (Hv : valid_config exists_path c) :
  add_jump read_to_string c s0 =
  match jump c with
  | None => Ok s0
  | Some j => let? k := read_key jump_key_error (j_key j) in Ok (with_jump (jump_settings j k) s0)
  end.
Proof.
  unfold add_jump. destruct (jump c) as [j|] eqn:Ej; [|done].
  destruct (v_jump _ _ Hv j Ej) as ([Hu _] & [Hh _] & Hp & Hc).
  rewrite nonempty_id by naive_solver.
  assert (Hr : str_eqb (j_user j) [] || str_eqb (j_host j) [] || (j_port j =? 0) ||
    Bool.eqb (bool_decide (is_Some (j_key j))) (bool_decide (is_Some (j_password j))) = false).
  { unfold str_eqb. rewrite !bool_decide_eq_false_2 by done. rewrite (proj2 (Z.eqb_neq _ _)) by lia.
    destruct Hc as [[-> [k ->]]|(p & -> & _ & ->)]; done. }
  rewrite Hr. unfold jump_settings, read_key. destruct (j_key j) as [p|]; [|done]. by destruct (read_to_string p).
Qed.

Lemma add_settings_all c k j :
  Forall (fun s => s <> Some []) [password c; su_password c; sudo_password c] ->
  let s0 := with_port (port c) (SshConfig_new (host c) (user c)) in
  let s1 := match password c with Some p => with_password p s0 | None => s0 end in
  let s2 := match k with Some t => with_private_key t s1 | None => s1 end in
  add_settings c (match j with Some j => with_jump j s2 | None => s2 end) = settings c k j.
Proof.
  rewrite !Forall_cons. intros (_ & Hsu & Hsudo & _). cbn zeta. unfold add_settings, settings.
  rewrite !nonempty_id by done.
  destruct (password c), k, j, (su_password c), (sudo_password c); reflexivity.
Qed.

(** Building is reading the key files and copying the rest. *)
Lemma build_reads c (Hv : valid_config exists_path c) :
  build_ssh_config read_to_string c =
  (let? k := read_key (fun _ => Io) (key c) in
   match jump c with
   | Some j => let? jk := read_key jump_key_error (j_key j) in Ok (settings c k (Some (jump_settings j jk)))
   | None => Ok (settings c k None)
   end).
Proof.
  unfold build_ssh_config. pose proof (fun k j => add_settings_all c k j (v_passwords _ _ Hv)) as Hall.
  cbn zeta in Hall |- *. set (s1 := match password c with Some _ => _ | None => _ end) in *. clearbody s1.
  assert (Hk : add_private_key read_to_string c s1 =
    (let? k := read_key (fun _ => Io) (key c) in Ok (match k with Some t => with_private_key t s1 | None => s1 end))).
  { unfold add_private_key, read_key. destruct (key c) as [p|]; [|done]. by destruct (read_to_string p). }
  rewrite Hk. destruct (read_key _ (key c)) as [k|]; [cbn [rbind]|done]. rewrite (add_jump_reads _ _ Hv).
  destruct (jump c) as [j|]; [destruct (read_key _ (j_key j)) as [jk|]|]; cbn [rbind]; rewrite <-?Hall; done.
Qed.

(** After validation the only thing that can fail is reading a key file:
    the manager's settings are exactly the configuration's, with the text of
    each key file in place of its path, or the error is that of a key file
    that cannot be read. *)
Theorem build_ssh_config_faithful (c : Config) (Hv : valid_config exists_path c) :
  (forall s, build_ssh_config read_to_string c = Ok s <->
     exists k, key_text (key c) k /\
     match jump c with
     | Some j => exists jk, key_text (j_key j) jk /\ s = settings c k (Some (jump_settings j jk))
     | None => s = settings c k None
     end) /\
  (forall e, build_ssh_config read_to_string c = Err e ->
     exists p m, read_to_string p = Err m /\
       ((key c = Some p /\ e = Io m) \/
        exists j, jump c = Some j /\ j_key j = Some p /\
          e = ConfigError (lit "failed to read jump SSH key " ++ p ++ lit ": " ++ m))).
Proof.
  rewrite (build_reads _ Hv). split.
  - intros s. setoid_rewrite <- (read_key_ok (fun _ => Io) (key c)).
    destruct (read_key (fun _ => Io) (key c)) as [k|]; cbn; [|naive_solver].
    destruct (jump c) as [j|]; [|naive_solver]. setoid_rewrite <- (read_key_ok jump_key_error (j_key j)).
    destruct (read_key _ (j_key j)); cbn; naive_solver.
  - intros e. destruct (read_key _ (key c)) as [k|e'] eqn:Ek; cbn.
    + destruct (jump c) as [j|]; [|done]. destruct (read_key _ (j_key j)) as [|e'] eqn:Ej; cbn; [done|]. intros [= ->].
      apply read_key_err in Ej as (p & m & ? & ? & ->). exists p, m. split; [done|]. right. by exists j.
    + intros [= ->]. apply read_key_err in Ek as (p & m & ? & ? & ->). exists p, m. auto.
Qed.
End correct.

(** A target with a password behind a jump host with a key. *)
Definition sample : Config := {|
  host := lit "t"; port := 22; user := lit "u"; password := Some (lit "pw"); key := None;
  jump := Some {| j_host := lit "j"; j_port := 2222; j_user := lit "ju"; j_password := None; j_key := Some (lit "/k") |};
  su_password := None; sudo_password := Some (lit "s"); timeout_ms := 1000; max_chars := Some 10;
  max_output_tokens := None; disable_sudo := false; keepalive_interval := 30; keepalive_max := 3;
  reconnect_retries := 3; reconnect_backoff_ms := 250; health_probe_timeout_ms := 1500;
  strict_host_key_checking := Yes; known_hosts := None |}.

Lemma sample_valid : valid_config (fun _ => true) sample.
Proof.
  split; cbn; try done; try lia; try (by left).
  - by repeat constructor.
  - intros j [= <-]. cbn. split_and!; try done; try (by repeat constructor).
  - by intros n [= <-].
Defined.

Lemma build_ssh_config_faithful_witness :
  exists s, build_ssh_config (fun _ => Ok (lit "KEY")) sample = Ok s.
Proof.
  destruct (build_ssh_config_faithful (fun _ => true) (fun _ => Ok (lit "KEY")) sample sample_valid) as [H _].
  eexists. apply H. exists None. split; [done|]. exists (Some (lit "KEY")). split; [|reflexivity]. by exists (lit "KEY").
Defined.
