(* ===== verification/HostKeys.v ===== *)
(** * Host keys (src/ssh/handler.rs)

    The host key decision and the removal of known_hosts entries. Looking up
    and recording keys is the SSH library's: an interface with the laws the
    decision relies on. *)
From Stdlib Require Import ZArith String.
From stdpp Require Import base list.
From S2P Require Import Prelude Paths Config.

Inductive KeyCheckOutcome : Type := Accepted | AcceptedNew | KeyChanged | UnknownRejected.
#[global] Instance KeyCheckOutcome_eq_dec : EqDecision KeyCheckOutcome.
Proof. solve_decision. Defined.

Record SshHandler : Type := {
  sh_host : str;
  sh_port : Z;
  sh_host_key_checking : HostKeyCheckMode;
  sh_known_hosts : option str
}.
#[global] Instance SshHandler_eq_dec : EqDecision SshHandler.
Proof. solve_decision. Defined.

(** The known_hosts store of the SSH library. [kind] is the key's algorithm;
    an accepted key excludes every other key of its kind. *)
Class KnownHosts (store key : Type) : Type := {
  check_known_hosts : option str -> str -> Z -> key -> store -> result bool str;
  learn_known_hosts : option str -> str -> Z -> key -> store -> result store str;
  kind : key -> str;
  key_eq_dec :: EqDecision key;
  learned : forall path host port k s s', learn_known_hosts path host port k s = Ok s' ->
    check_known_hosts path host port k s = Ok false -> check_known_hosts path host port k s' = Ok true;
  learned_keeps : forall path host port k s s' path' host' port' k', learn_known_hosts path host port k s = Ok s' ->
    check_known_hosts path' host' port' k' s = Ok true -> check_known_hosts path' host' port' k' s' = Ok true;
  accepted_excludes : forall path host port k k' s, check_known_hosts path host port k s = Ok true ->
    kind k = kind k' -> k <> k' -> exists e, check_known_hosts path host port k' s = Err e
}.

Section check.
Context {store key : Type} `{KnownHosts store key} (fingerprint : key -> str).

Definition host_port (h : SshHandler) : str := sh_host h ++ [58] ++ show_uint (sh_port h).

Definition unknown_key_error (h : SshHandler) (k : key) : str :=
  lit "SSH host key verification failed for " ++ host_port h ++ lit ": unknown host key (" ++ fingerprint k ++
  lit "); add it to known_hosts or use --strict-host-key-checking=accept-new".

Definition verification_error (h : SshHandler) (k : key) (e : str) : str :=
  lit "SSH host key verification failed for " ++ host_port h ++ lit ": " ++ e ++ lit " (" ++ fingerprint k ++ lit ")".

Definition record_error (h : SshHandler) (k : key) : str :=
  lit "failed to record SSH host key for " ++ host_port h ++ lit " (" ++ fingerprint k ++ lit ")".

(** The answer, the outcome recorded (if any) and the store afterwards. *)
Definition check_server_key (h : SshHandler) (k : key) (s : store) : result bool str * option KeyCheckOutcome * store :=
  let check := check_known_hosts (sh_known_hosts h) (sh_host h) (sh_port h) k s in
  match sh_host_key_checking h with
  | No => (Ok true, Some Accepted, s)
  | Yes =>
      match check with
      | Ok true => (Ok true, Some Accepted, s)
      | Ok false => (Err (unknown_key_error h k), Some UnknownRejected, s)
      | Err e => (Err (verification_error h k e), Some KeyChanged, s)
      end
  | AcceptNew =>
      match check with
      | Ok true => (Ok true, Some Accepted, s)
      | Ok false =>
          match learn_known_hosts (sh_known_hosts h) (sh_host h) (sh_port h) k s with
          | Err _ => (Err (record_error h k), None, s)
          | Ok s' => (Ok true, Some AcceptedNew, s')
          end
      | Err e => (Err (verification_error h k e), Some KeyChanged, s)
      end
  end.
End check.

(** ** Removing entries *)

(** [split_whitespace().next()] of a trimmed text. *)
Fixpoint first_field (trimmed : str) : str :=
  match trimmed with
  | [] => []
  | c :: rest => if is_whitespace c then [] else c :: first_field rest
  end.

Definition line_matches_host (host : str) (port : Z) (line : str) : bool :=
  let trimmed := trim line in
  if str_eqb trimmed [] || starts_with (lit "#") trimmed then false
  else
    existsb (fun entry =>
        let entry := trim entry in
        negb (starts_with (lit "|1|") entry) &&
        (if port =? 22 then str_eqb entry host
         else str_eqb entry (lit "[" ++ host ++ lit "]:" ++ show_uint port)))
      (split_char 44 (first_field trimmed)).

Definition new_content (host : str) (port : Z) (content : str) : str :=
  let kept := filter (fun line => line_matches_host host port line = false) (str_lines content) in
  join [NL] kept ++ (if ends_with [NL] content then [NL] else []).

(** Reading, writing the temporary file and renaming it, with their answers;
    the error is the operation's, [None] for a missing file. Gives the content
    of the file afterwards. *)
Definition remove_known_hosts_entry (host : str) (port : Z) (read : result str (option str))
    (write rename : result unit str) : result unit str * option str :=
  match read with
  | Err None => (Ok tt, None)
  | Err (Some e) => (Err e, None)
  | Ok content =>
      match write with
      | Err e => (Err e, Some content)
      | Ok _ =>
          match rename with
          | Err e => (Err e, Some content)
          | Ok _ => (Ok tt, Some (new_content host port content))
          end
      end
  end.

Definition default_known_hosts_path (home : option str) : option str :=
  (fun home => path_join (path_join home (lit ".ssh")) (lit "known_hosts")) <$> home.

(** ** Trust on first use *)

Section trust.
Context {store key : Type} `{KnownHosts store key} (fingerprint : key -> str).

(** A sequence of visits to servers; the answers in order. *)
Fixpoint visits (l : list (SshHandler * key)) (s : store) : list (result bool str) * store :=
  match l with
  | [] => ([], s)
  | (h, k) :: l =>
      let '(r, _, s) := check_server_key fingerprint h k s in
      let '(rs, s) := visits l s in (r :: rs, s)
  end.

Definition known (h : SshHandler) (k : key) (s : store) : Prop :=
  check_known_hosts (sh_known_hosts h) (sh_host h) (sh_port h) k s = Ok true.

Lemma check_keeps_known h k s h' k' : known h' k' s -> known h' k' (check_server_key fingerprint h k s).2.
Proof.
  intros Hk. unfold check_server_key. destruct (sh_host_key_checking h); [..|done].
  - by destruct (check_known_hosts _ _ _ k s) as [[]|].
  - destruct (check_known_hosts _ _ _ k s) as [[]|]; try done.
    destruct (learn_known_hosts _ _ _ k s) eqn:El; [|done]. by eapply learned_keeps.
Qed.

Lemma check_accepted h k s :
  sh_host_key_checking h <> No -> (check_server_key fingerprint h k s).1.1 = Ok true ->
  known h k (check_server_key fingerprint h k s).2.
Proof.
  intros Hm. unfold check_server_key, known. destruct (sh_host_key_checking h); [..|done].
  - by destruct (check_known_hosts _ _ _ k s) as [[]|] eqn:E.
  - destruct (check_known_hosts _ _ _ k s) as [[]|] eqn:E; try done.
    destruct (learn_known_hosts _ _ _ k s) eqn:El; [|done]. intros _. by eapply learned.
Qed.

Lemma check_excludes h k k' s :
  known h k s -> sh_host_key_checking h <> No -> kind k = kind k' ->
  (check_server_key fingerprint h k' s).1.1 = Ok true -> k = k'.
Proof.
  intros Hk Hm Hkind Hr. destruct (decide (k = k')) as [|Hne]; [done|].
  destruct (accepted_excludes _ _ _ _ _ _ Hk Hkind Hne) as [e He].
  unfold check_server_key in Hr. rewrite He in Hr. by destruct (sh_host_key_checking h).
Qed.

Definition same_server (h h' : SshHandler) : Prop :=
  sh_known_hosts h = sh_known_hosts h' /\ sh_host h = sh_host h' /\ sh_port h = sh_port h'.

Lemma known_same h h' k s : same_server h h' -> known h k s -> known h' k s.
Proof. unfold known. by intros (-> & -> & ->). Qed.

Lemma known_excludes_later l h0 k0 s j h k :
  known h0 k0 s -> l !! j = Some (h, k) -> (visits l s).1 !! j = Some (Ok true) -> same_server h0 h ->
  sh_host_key_checking h <> No -> kind k0 = kind k -> k0 = k.
Proof.
  revert s j. induction l as [|[h1 k1] l IH]; intros s j Hk Hl Hr Hs Hm Hkind; [done|]. cbn in Hr.
  pose proof (check_keeps_known h1 k1 s h0 k0 Hk) as Hk'.
  pose proof (check_excludes h1 k0 k1 s) as Hex.
  destruct (check_server_key fingerprint h1 k1 s) as [[r o] s1] eqn:E. cbn [fst snd] in *.
  destruct (visits l s1) as [rs s2] eqn:Ev. destruct j as [|j]; cbn in Hl, Hr.
  - simplify_eq. apply Hex; [by eapply known_same|done..].
  - eapply IH; [exact Hk'|done| |done..]. by rewrite Ev.
Qed.

(** Trust on first use: unless checking is disabled, once a key has been
    accepted for a server no visit to the same server ever accepts another
    key of the same kind, whatever other servers are visited in between. *)
Theorem accepted_key_stays (l : list (SshHandler * key)) (s : store) (i j : nat) (h h' : SshHandler) (k k' : key)
    (Hij : (i <= j)%nat) (Hi : l !! i = Some (h, k)) (Hj : l !! j = Some (h', k'))
    (Hri : (visits l s).1 !! i = Some (Ok true)) (Hrj : (visits l s).1 !! j = Some (Ok true))
    (Hsame : same_server h h') (Hm : sh_host_key_checking h <> No) (Hm' : sh_host_key_checking h' <> No)
    (Hkind : kind k = kind k') : k = k'.
Proof.
  revert s i j Hij Hi Hj Hri Hrj. induction l as [|[h1 k1] l IH]; intros s i j Hij Hi Hj Hri Hrj; [done|].
  cbn in Hri, Hrj. pose proof (check_accepted h1 k1 s) as Hacc.
  destruct (check_server_key fingerprint h1 k1 s) as [[r o] s1] eqn:E. cbn [fst snd] in *.
  destruct (visits l s1) as [rs s2] eqn:Ev. destruct i as [|i], j as [|j]; cbn in *; simplify_eq; [done|..|lia|].
  - eapply known_excludes_later; [by apply Hacc|exact Hj| |done..]. by rewrite Ev.
  - eapply (IH s1 i j); rewrite ?Ev; cbn; try done. lia.
Qed.
End trust.

(** A store for the witnesses: entries in order, the first one of the key's kind decides. *)
Definition entry : Type := option str * str * Z * (str * str).
Definition decides (path : option str) (host : str) (port : Z) (k : str * str) (e : entry) : bool :=
  bool_decide (e.1.1.1 = path) && bool_decide (e.1.1.2 = host) && bool_decide (e.1.2 = port) && bool_decide (e.2.1 = k.1).

Fixpoint list_check (path : option str) (host : str) (port : Z) (k : str * str) (s : list entry) : result bool str :=
  match s with
  | [] => Ok false
  | e :: s =>
      if decides path host port k e then
        if bool_decide (e.2 = k) then Ok true else Err (lit "The server key changed")
      else list_check path host port k s
  end.

Lemma list_check_app path host port k s s' :
  list_check path host port k (s ++ s') =
  match list_check path host port k s with Ok false => list_check path host port k s' | r => r end.
Proof. induction s as [|e s IH]; [done|]. cbn. destruct (decides _ _ _ _ e); [by case_bool_decide|done]. Qed.

#[global] Program Instance list_known_hosts : KnownHosts (list entry) (str * str) := {
  check_known_hosts := list_check;
  learn_known_hosts path host port k s := Ok (s ++ [(path, host, port, k)]);
  kind := fst
}.
Next Obligation.
  intros path host port k s s' [= <-] Hc. rewrite list_check_app, Hc. cbn. unfold decides. cbn.
  by rewrite !bool_decide_eq_true_2.
Defined.
Next Obligation. intros path host port k s s' path' host' port' k' [= <-] Hc. by rewrite list_check_app, Hc. Defined.
Next Obligation.
  intros path host port k k' s Hc Hk Hne. induction s as [|e s IH]; [done|]. cbn in *.
  unfold decides in *. rewrite <- Hk. destruct (_ && _); [|by apply IH].
  case_bool_decide; [|done]. rewrite bool_decide_eq_false_2 by congruence. by eexists.
Defined.

Lemma accepted_key_stays_witness :
  let h := {| sh_host := lit "h"; sh_port := 22; sh_host_key_checking := AcceptNew; sh_known_hosts := None |} in
  let k := (lit "ed25519", lit "K") in
  (visits fst [(h, k); (h, (lit "ed25519", lit "X")); (h, k)] []).1 !! 2%nat = Some (Ok true) /\ k = k.
Proof.
  intros h k. split; [vm_compute; reflexivity|].
  apply (accepted_key_stays fst [(h, k); (h, (lit "ed25519", lit "X")); (h, k)] [] 0 2 h h k k);
    try (vm_compute; reflexivity); [lia|done|done|done].
Defined.

(** ** What removal keeps *)

(** The entries of a file: its lines without surrounding white space, blank
    lines left out. *)
Definition entries (content : str) : list str := filter (fun l => l <> []) (trim <$> str_lines content).

Lemma trim_end_cr p : trim_end (p ++ [CR]) = trim_end p.
Proof. unfold trim_end. by rewrite rev_app_distr. Qed.

Lemma drop_while_app_stop f a b : ~ Forall (fun c => f c = true) a -> drop_while f (a ++ b) = drop_while f a ++ b.
Proof.
  induction a as [|c a IH]; intros H; [by destruct H|]. cbn. destruct (f c) eqn:E; [|done].
  apply IH. intros Ha. apply H. by constructor.
Qed.

Lemma trim_cr p : trim (p ++ [CR]) = trim p.
Proof.
  destruct (decide (Forall (fun c => is_whitespace c = true) p)) as [H|H].
  - rewrite (proj2 (trim_nil p) H). apply trim_nil, Forall_app. split; [done|]. by constructor.
  - unfold trim, trim_start. rewrite drop_while_app_stop by done. apply trim_end_cr.
Qed.

Lemma trim_strip_cr p : trim (strip_cr p) = trim p.
Proof.
  unfold strip_cr. destruct (strip_suffix [CR] p) as [r|] eqn:E; [|done].
  apply strip_suffix_Some in E as ->. cbn. by rewrite trim_cr.
Qed.

Lemma lines_raw_last s : NL ∉ s -> s <> [] -> lines_raw s = [(s, false)].
Proof.
  induction s as [|x s IH]; [done|]. rewrite not_elem_of_cons. intros [Hx Hs] _. cbn [lines_raw].
  rewrite (proj2 (Z.eqb_neq _ _)) by congruence. destruct s as [|y s]; [done|]. by rewrite IH.
Qed.

Lemma entries_split s : entries s = filter (fun l => l <> []) (trim <$> split_char NL s).
Proof.
  induction s as [s IH] using (induction_ltof1 _ (@length Z)); unfold ltof in IH.
  destruct (decide (NL ∈ s)) as [Hin|Hn].
  - apply list_elem_of_split_l in Hin as (l & r & -> & Hl). rewrite split_char_app by done.
    unfold entries, str_lines. rewrite lines_raw_line by done. cbn [fmap list_fmap].
    rewrite trim_strip_cr. pose proof (IH r ltac:(rewrite length_app; cbn; lia)) as E.
    unfold entries, str_lines in E. rewrite !filter_cons. by rewrite E.
  - rewrite split_char_id by done. destruct s as [|x s]; [done|].
    unfold entries, str_lines. by rewrite lines_raw_last.
Qed.

Lemma str_lines_no_nl s l : l ∈ str_lines s -> NL ∉ l.
Proof.
  induction s as [s IH] using (induction_ltof1 _ (@length Z)); unfold ltof in IH.
  destruct (decide (NL ∈ s)) as [Hin|Hn]; unfold str_lines.
  - apply list_elem_of_split_l in Hin as (a & r & -> & Ha). rewrite lines_raw_line by done. cbn [fmap list_fmap].
    rewrite elem_of_cons. intros [->|Hl]; [|apply (IH r); [rewrite length_app; cbn; lia|done]].
    unfold strip_cr. destruct (strip_suffix [CR] a) as [b|] eqn:E; cbn; [|done].
    apply strip_suffix_Some in E. subst. rewrite not_elem_of_app in Ha. tauto.
  - destruct s as [|x s]; [by rewrite elem_of_nil|]. rewrite lines_raw_last by done. cbn. rewrite list_elem_of_singleton. by intros ->.
Qed.

Lemma entries_join ls (b : bool) :
  (forall l, l ∈ ls -> NL ∉ l) ->
  entries (join [NL] ls ++ (if b then [NL] else [])) = filter (fun l => l <> []) (trim <$> ls).
Proof.
  intros H. rewrite entries_split. destruct ls as [|x ls']; [by destruct b|]. assert (Hne : x :: ls' <> []) by done.
  revert Hne H. generalize (x :: ls') as ls. intros ls Hne H.
  assert (E : split_char NL (join [NL] ls ++ (if b then [NL] else [])) = ls ++ (if b then [[]] else [])).
  { destruct b; [|rewrite !app_nil_r; by apply split_char_join].
    assert (E : join [NL] ls ++ [NL] = join [NL] (ls ++ [[]])).
    { clear H. induction ls as [|y [|z ls] IH]; [done..|].
      change (join [NL] (y :: z :: ls)) with (y ++ [NL] ++ join [NL] (z :: ls)).
      rewrite <- !app_assoc, IH by done. done. }
    rewrite E. apply split_char_join; [by destruct ls|]. intros p. rewrite elem_of_app, list_elem_of_singleton.
    intros [Hp| ->]; [by apply H|by apply not_elem_of_nil]. }
  rewrite E, fmap_app, filter_app. destruct b; cbn; by rewrite ?app_nil_r.
Qed.

Lemma line_matches_trim host port l : line_matches_host host port (trim l) = line_matches_host host port l.
Proof. unfold line_matches_host. by rewrite trim_trim. Qed.

Lemma filter_trim (P : str -> Prop) `{!forall l, Decision (P l)} (ls : list str) :
  (forall l, P (trim l) <-> P l) -> trim <$> filter P ls = filter P (trim <$> ls).
Proof.
  intros Hiff. induction ls as [|l ls IH]; [done|]. cbn [fmap list_fmap]. rewrite !filter_cons.
  destruct (decide (P l)) as [Hl|Hl]; destruct (decide (P (trim l))) as [Ht|Ht]; rewrite ?Hiff in Ht; try done.
  cbn. by f_equal.
Qed.

Lemma filter_comm {A} (P Q : A -> Prop) `{!forall x, Decision (P x), !forall x, Decision (Q x)} (l : list A) :
  filter P (filter Q l) = filter Q (filter P l).
Proof.
  induction l as [|x l IH]; [done|]. rewrite !filter_cons.
  destruct (decide (P x)) eqn:Ep, (decide (Q x)) eqn:Eq; rewrite ?filter_cons, ?Ep, ?Eq; congruence.
Qed.

(** Removing the entries of a host removes exactly the entries whose
    pattern list names it: the rest of the file keeps its entries in their
    order; a failed write or rename leaves the file as it was, and a missing
    file is a success that changes nothing. *)
Theorem remove_known_hosts_entry_exact (host : str) (port : Z) (content : str) (write rename : result unit str) :
  match remove_known_hosts_entry host port (Ok content) write rename with
  | (Ok _, after) => exists c, after = Some c /\
      entries c = filter (fun l => line_matches_host host port l = false) (entries content)
  | (Err _, after) => after = Some content /\ (is_ok write = false \/ is_ok rename = false)
  end /\
  remove_known_hosts_entry host port (Err None) write rename = (Ok tt, None).
Proof.
  split; [|done]. unfold remove_known_hosts_entry.
  destruct write as [[]|]; [|by auto]. destruct rename as [[]|]; [|by auto].
  eexists. split; [done|]. unfold new_content. rewrite entries_join.
  - rewrite filter_trim by (intros l; by rewrite line_matches_trim). unfold entries. apply filter_comm.
  - intros l [_ Hl]%list_elem_of_filter. by eapply str_lines_no_nl.
Qed.
