(* ===== verification/Route.v ===== *)
(** * Establishing a route (src/ssh/connection.rs)

    [do_connect] and what it calls: dialling the target or the jump host, the
    tunnel, identification, authentication, publication and the release of
    every handle of a failed attempt. The answers of the network and of the
    SSH library are arguments; the events are recorded in order. *)
From Stdlib Require Import ZArith String.
From stdpp Require Import base list.
From S2P Require Import Prelude Trace Errors Config SshConfig HostKeys Identification Connection.

Definition CONNECTION_TIMEOUT_SECS : Z := 30.
Definition AUTH_TIMEOUT_SECS : Z := 20.

(** What [timeout(..)] answers. *)
Inductive timed (A : Type) : Type := Within (a : A) | Elapsed.
Arguments Within {A} a.
Arguments Elapsed {A}.

(** A handle is named by the endpoint it leads to: an attempt opens at most one of each. *)
Inductive endpoint : Type := JumpHost | TargetHost.
#[global] Instance endpoint_eq_dec : EqDecision endpoint.
Proof. solve_decision. Defined.

Inductive HashAlg : Type := Sha256 | Sha512.
#[global] Instance HashAlg_eq_dec : EqDecision HashAlg.
Proof. solve_decision. Defined.

Inductive credential : Type := ByPassword (p : str) | ByKey (key : str) (hash : option HashAlg).
#[global] Instance credential_eq_dec : EqDecision credential.
Proof. solve_decision. Defined.

(** The client settings that [configure_client] sets. *)
Record ClientConfig : Type := { keepalive_interval_secs : option Z; keepalive_limit : Z }.
#[global] Instance ClientConfig_eq_dec : EqDecision ClientConfig.
Proof. solve_decision. Defined.

(** [Attempt] carries the answer: accepted, rejected, an error or no answer in time. *)
Inductive event : Type :=
  | Dialled (e : endpoint) (host : str) (port : Z)
  | Opened (e : endpoint) (handler : SshHandler) (config : ClientConfig)
  | Attempt (e : endpoint) (username : str) (c : credential) (answer : timed (result bool str))
  | TunnelRequested (host : str) (port : Z)
  | TunnelOpened
  | Published (generation : Z)
  | Disconnected (e : endpoint).

(** ** Opening a handle *)

Record dial_env : Type := {
  d_tcp : timed (result unit str);
  d_stream : timed (list bytes);
  d_handshake : timed (result unit str)
}.

Definition configure_client (config : SshConfig) (p : RemotePlatform) : ClientConfig := {|
  keepalive_interval_secs := if bool_decide (p = Posix) then Some (s_keepalive_interval config) else None;
  keepalive_limit := s_keepalive_max config |}.

Definition handler_for (config : SshConfig) (host : str) (port : Z) : SshHandler := {|
  sh_host := host; sh_port := port; sh_host_key_checking := s_host_key_checking config;
  sh_known_hosts := s_known_hosts config |}.

Definition target_handler (config : SshConfig) : SshHandler := handler_for config (s_host config) (s_port config).

(** Identification, then the handshake under the settings of the platform
    found. A peer that stays silent is one that does not answer in time. *)
Definition connect_identified_stream (config : SshConfig) (d : dial_env) (e : endpoint) (handler : SshHandler) :
    traced event (timed (result RemotePlatform str)) :=
  match d_stream d with
  | Elapsed => tret Elapsed
  | Within chunks =>
      match identify chunks with
      | None => tret Elapsed
      | Some (Err err) => tret (Within (Err (ident_error_display err)))
      | Some (Ok (_, _, p)) =>
          match d_handshake d with
          | Elapsed => tret Elapsed
          | Within (Err m) => tret (Within (Err m))
          | Within (Ok _) =>
              let! _ := act (Opened e handler (configure_client config p)) in tret (Within (Ok p))
          end
      end
  end.

(** [timeout(..).await.map_err(..)?.map_err(..)?] of a stage. *)
Definition stage_result {A} (mk : str -> SshMcpError) (stage : str) (secs : Z) (r : timed (result A str)) :
    result A SshMcpError :=
  match r with
  | Elapsed => Err (mk (stage ++ lit " timed out after " ++ show_uint secs ++ lit "s"))
  | Within (Err m) => Err (mk (stage ++ lit " failed: " ++ m))
  | Within (Ok a) => Ok a
  end.

Definition connect_tcp_endpoint (config : SshConfig) (d : dial_env) (e : endpoint) (host : str) (port : Z) (stage : str) :
    traced event (result RemotePlatform SshMcpError) :=
  let! _ := act (Dialled e host port) in
  let! r := match d_tcp d with
    | Elapsed => tret Elapsed
    | Within (Err m) => tret (Within (Err m))
    | Within (Ok _) => connect_identified_stream config d e (handler_for config host port)
    end in
  tret (stage_result Connection stage CONNECTION_TIMEOUT_SECS r).

(** ** Authentication *)

Record auth_env : Type := {
  a_password_answer : timed (result bool str);
  a_key_answer : option HashAlg -> timed (result bool str)
}.

Section connect.

(** [PrivateKey::from_openssh]: whether the key is an RSA key, or the parse error. *)
Context (from_openssh : str -> result bool str).

(** Modern signatures first, SHA-1 last; other keys ignore the algorithm. *)
Definition hash_attempts (is_rsa : bool) : list (option HashAlg) :=
  if is_rsa then [Some Sha256; Some Sha512; None] else [None].

Fixpoint key_loop (env : auth_env) (e : endpoint) (username key stage : str) (attempts : list (option HashAlg)) :
    traced event (result unit SshMcpError) :=
  match attempts with
  | [] => tret (Err (Authentication (stage ++ lit " rejected key")))
  | hash :: attempts =>
      let answer := a_key_answer env hash in
      let! _ := act (Attempt e username (ByKey key hash) answer) in
      match stage_result Authentication stage AUTH_TIMEOUT_SECS answer with
      | Err err => tret (Err err)
      | Ok true => tret (Ok tt)
      | Ok false => key_loop env e username key stage attempts
      end
  end.

Definition authenticate_session (env : auth_env) (e : endpoint) (username : str) (password private_key : option str)
    (stage : str) : traced event (result unit SshMcpError) :=
  match password with
  | Some password =>
      let answer := a_password_answer env in
      let! _ := act (Attempt e username (ByPassword password) answer) in
      match stage_result Authentication stage AUTH_TIMEOUT_SECS answer with
      | Err err => tret (Err err)
      | Ok true => tret (Ok tt)
      | Ok false => tret (Err (Authentication (stage ++ lit " rejected password")))
      end
  | None =>
      match private_key with
      | Some key_content =>
          match from_openssh (trim_end key_content) with
          | Err m => tret (Err (SshKey (stage ++ lit " key parsing failed: " ++ m)))
          | Ok is_rsa => key_loop env e username (trim_end key_content) stage (hash_attempts is_rsa)
          end
      | None => tret (Err (Authentication (stage ++ lit " has no authentication method")))
      end
  end.

(** ** Publication *)

(** [env_dial], [env_queue]: what other tasks do to the manager while the
    attempt dials and authenticates, and while it waits for the publication
    locks. *)
Record connect_env : Type := {
  env_jump_dial : dial_env;
  env_jump_auth : auth_env;
  env_tunnel : timed (result unit str);
  env_target_dial : dial_env;
  env_target_auth : auth_env;
  env_dial : manager -> manager;
  env_queue : manager -> manager
}.

(** [disconnect_handle] of the target, then of the jump host if there is one. *)
Definition disconnect_route (has_jump : bool) : traced event unit :=
  let! _ := act (Disconnected TargetHost) in
  if has_jump then act (Disconnected JumpHost) else tret tt.

Definition finish_connect (config : SshConfig) (env : connect_env) (p : RemotePlatform) (has_jump : bool) (m : manager) :
    traced event (result unit SshMcpError * manager) :=
  let! authenticated := authenticate_session (env_target_auth env) TargetHost (s_username config) (s_password config)
                          (s_private_key config) (lit "target authentication") in
  match authenticated with
  | Err err => let! _ := disconnect_route has_jump in tret (Err err, m)
  | Ok _ =>
      match validate_elevation p (s_su_password config) (s_sudo_password config) with
      | Err err => let! _ := disconnect_route has_jump in tret (Err err, m)
      | Ok _ =>
          let '(g, m) := take_generation m in
          match publish g p (env_queue env m) with
          | (Ok _, m) => let! _ := act (Published g) in tret (Ok tt, m)
          | (Err err, m) => let! _ := disconnect_route has_jump in tret (Err err, m)
          end
      end
  end.

(** ** The attempt *)

(** Through a jump host: its handle is released on every failure after it is opened. *)
Definition connect_through_jump (config : SshConfig) (env : connect_env) (j : SshJumpConfig) :
    traced event (result RemotePlatform SshMcpError) :=
  let! dialled := connect_tcp_endpoint config (env_jump_dial env) JumpHost (jump_host j) (jump_port j)
                    (lit "jump connection") in
  match dialled with
  | Err err => tret (Err err)
  | Ok _ =>
      let! authenticated := authenticate_session (env_jump_auth env) JumpHost (jump_username j) (jump_password j)
                              (jump_private_key j) (lit "jump authentication") in
      match authenticated with
      | Err err => let! _ := act (Disconnected JumpHost) in tret (Err err)
      | Ok _ =>
          let! _ := act (TunnelRequested (s_host config) (s_port config)) in
          match stage_result Connection (lit "jump forwarding") CONNECTION_TIMEOUT_SECS (env_tunnel env) with
          | Err err => let! _ := act (Disconnected JumpHost) in tret (Err err)
          | Ok _ =>
              let! _ := act TunnelOpened in
              let! session := connect_identified_stream config (env_target_dial env) TargetHost (target_handler config) in
              match stage_result Connection (lit "target connection through jump") CONNECTION_TIMEOUT_SECS session with
              | Err err => let! _ := act (Disconnected JumpHost) in tret (Err err)
              | Ok p => tret (Ok p)
              end
          end
      end
  end.

Definition do_connect (config : SshConfig) (env : connect_env) (m : manager) :
    traced event (result unit SshMcpError * manager) :=
  let! connected := match s_jump config with
    | Some j => connect_through_jump config env j
    | None => connect_tcp_endpoint config (env_target_dial env) TargetHost (s_host config) (s_port config)
                (lit "target connection")
    end in
  let m := env_dial env m in
  match connected with
  | Err err => tret (Err err, m)
  | Ok p => finish_connect config env p (bool_decide (is_Some (s_jump config))) m
  end.
End connect.

(** ** The protocol of a connection attempt

    A handle is not opened, waits for its next credential, is authenticated,
    or is gone. *)
Inductive handle_state : Type :=
  | Unopened
  | Waiting (credentials : list credential)
  | LoggedIn
  | Gone.

Record route_state : Type := {
  jump_state : handle_state;
  target_state : handle_state;
  tunnel : bool;
  generation_published : option Z
}.

Definition route_start : route_state :=
  {| jump_state := Unopened; target_state := Unopened; tunnel := false; generation_published := None |}.

Definition state_of (e : endpoint) (s : route_state) : handle_state :=
  match e with JumpHost => jump_state s | TargetHost => target_state s end.

Definition set_state (e : endpoint) (h : handle_state) (s : route_state) : route_state :=
  match e with
  | JumpHost => {| jump_state := h; target_state := target_state s; tunnel := tunnel s;
                   generation_published := generation_published s |}
  | TargetHost => {| jump_state := jump_state s; target_state := h; tunnel := tunnel s;
                     generation_published := generation_published s |}
  end.

Definition is_held (h : handle_state) : bool := match h with Waiting _ | LoggedIn => true | _ => false end.

Section protocol.
Context (from_openssh : str -> result bool str) (config : SshConfig).

(** The credentials an endpoint may be offered, in order: the password alone,
    or the key with each signature algorithm. *)
Definition credentials_of (password private_key : option str) : list credential :=
  match password, private_key with
  | Some p, _ => [ByPassword p]
  | None, Some k =>
      match from_openssh (trim_end k) with
      | Ok is_rsa => map (ByKey (trim_end k)) (hash_attempts is_rsa)
      | Err _ => []
      end
  | None, None => []
  end.

(** Address, user and credentials of an endpoint. *)
Definition endpoint_settings (e : endpoint) : option (str * Z * str * list credential) :=
  match e with
  | TargetHost => Some (s_host config, s_port config, s_username config,
                        credentials_of (s_password config) (s_private_key config))
  | JumpHost => j ← s_jump config;
      Some (jump_host j, jump_port j, jump_username j, credentials_of (jump_password j) (jump_private_key j))
  end.

(** Whether the endpoint can be reached now: the first hop directly, the
    target behind a jump host only through the tunnel. *)
Definition reachable_now (e : endpoint) (s : route_state) : bool :=
  match e, s_jump config with
  | TargetHost, Some _ => tunnel s && bool_decide (is_held (jump_state s))
  | _, _ => true
  end.

Definition protocol (s : route_state) (ev : event) : option route_state :=
  match generation_published s with
  | Some _ => None
  | None =>
      match ev with
      | Dialled e host port =>
          '(h, p, _, _) ← endpoint_settings e;
          if bool_decide (h = host) && (p =? port) && bool_decide (e = JumpHost \/ s_jump config = None) then Some s else None
      | Opened e handler client =>
          '(h, p, _, cs) ← endpoint_settings e;
          match state_of e s with
          | Unopened =>
              if bool_decide (handler = handler_for config h p) && reachable_now e s &&
                 (keepalive_limit client =? s_keepalive_max config)
              then Some (set_state e (Waiting cs) s) else None
          | _ => None
          end
      | Attempt e username c answer =>
          '(_, _, user, _) ← endpoint_settings e;
          match state_of e s with
          | Waiting (c' :: cs) =>
              if bool_decide (c = c') && bool_decide (username = user)
              then Some (set_state e (match answer with Within (Ok true) => LoggedIn | Within (Ok false) => Waiting cs | _ => Waiting [] end) s)
              else None
          | _ => None
          end
      | TunnelRequested host port =>
          match jump_state s with
          | LoggedIn => if bool_decide (host = s_host config) && (port =? s_port config) then Some s else None
          | _ => None
          end
      | TunnelOpened =>
          match jump_state s with
          | LoggedIn => Some {| jump_state := LoggedIn; target_state := target_state s; tunnel := true; generation_published := None |}
          | _ => None
          end
      | Published g =>
          match target_state s, jump_state s, s_jump config with
          | LoggedIn, LoggedIn, Some _ | LoggedIn, Unopened, None =>
              Some {| jump_state := jump_state s; target_state := LoggedIn; tunnel := tunnel s; generation_published := Some g |}
          | _, _, _ => None
          end
      | Disconnected e =>
          if is_held (state_of e s) && (bool_decide (e = TargetHost) || negb (is_held (target_state s)))
          then Some (set_state e Gone s) else None
      end
  end.
End protocol.

(** ** Every attempt follows the protocol *)

Lemma state_set e h s : state_of e (set_state e h s) = h.
Proof. by destruct e. Qed.
Lemma set_set e h h' s : set_state e h (set_state e h' s) = set_state e h s.
Proof. by destruct e. Qed.
Lemma set_published e h s : generation_published (set_state e h s) = generation_published s.
Proof. by destruct e. Qed.

Section correct.
Context (from_openssh : str -> result bool str) (config : SshConfig).
Notation proto := (protocol from_openssh config).
Notation settings e := (endpoint_settings from_openssh config e).

Lemma step_opened e h p u cs client s :
  settings e = Some (h, p, u, cs) -> generation_published s = None -> state_of e s = Unopened ->
  reachable_now config e s = true -> keepalive_limit client = s_keepalive_max config ->
  proto s (Opened e (handler_for config h p) client) = Some (set_state e (Waiting cs) s).
Proof.
  intros He Hp Hs Hr Hk. unfold protocol. rewrite Hp, He. cbn. by rewrite Hs, bool_decide_eq_true_2, Hr, Hk, Z.eqb_refl.
Qed.

Lemma step_attempt e h p u all c cs answer s :
  settings e = Some (h, p, u, all) -> generation_published s = None -> state_of e s = Waiting (c :: cs) ->
  proto s (Attempt e u c answer) =
  Some (set_state e (match answer with Within (Ok true) => LoggedIn | Within (Ok false) => Waiting cs | _ => Waiting [] end) s).
Proof. intros He Hp Hs. unfold protocol. rewrite Hp, He. cbn. by rewrite Hs, !bool_decide_eq_true_2. Qed.

Lemma step_disconnected e s :
  generation_published s = None -> is_held (state_of e s) = true -> e = TargetHost \/ is_held (target_state s) = false ->
  proto s (Disconnected e) = Some (set_state e Gone s).
Proof.
  intros Hp Hh Ho. unfold protocol. rewrite Hp, Hh. destruct Ho as [->|Ho]; [done|].
  rewrite Ho. cbn. by rewrite orb_true_r.
Qed.

Lemma obeys_stream d e h p u cs s :
  settings e = Some (h, p, u, cs) -> generation_published s = None -> state_of e s = Unopened ->
  reachable_now config e s = true ->
  obeys proto s (connect_identified_stream config d e (handler_for config h p))
    (fun r s' => s' = match r with Within (Ok _) => set_state e (Waiting cs) s | _ => s end).
Proof.
  intros He Hp Hs Hr. unfold connect_identified_stream.
  destruct (d_stream d) as [chunks|]; [|by apply obeys_ret].
  destruct (identify chunks) as [[[[? ?] pl]|err]|]; try by apply obeys_ret.
  destruct (d_handshake d) as [[[]|m]|]; try by apply obeys_ret.
  eapply obeys_act; [by eapply step_opened|]. by apply obeys_ret.
Qed.

Lemma stage_result_ok {A} mk stage secs (r : timed (result A str)) (a : A) :
  stage_result mk stage secs r = Ok a -> r = Within (Ok a).
Proof. destruct r as [[|]|]; cbn; congruence. Qed.

Lemma stage_result_err {A} mk stage secs (r : timed (result A str)) e :
  stage_result mk stage secs r = Err e -> forall a, r <> Within (Ok a).
Proof. intros H a ->. done. Qed.

Lemma obeys_tcp d e h p u cs stage s :
  settings e = Some (h, p, u, cs) -> generation_published s = None -> state_of e s = Unopened ->
  (e = JumpHost \/ s_jump config = None) ->
  obeys proto s (connect_tcp_endpoint config d e h p stage)
    (fun r s' => s' = match r with Ok _ => set_state e (Waiting cs) s | Err _ => s end).
Proof.
  intros He Hp Hs Hd. unfold connect_tcp_endpoint. eapply obeys_act.
  { unfold protocol. rewrite Hp, He. cbn. by rewrite !bool_decide_eq_true_2, Z.eqb_refl. }
  assert (Hr : reachable_now config e s = true) by (unfold reachable_now; destruct Hd as [->| ->]; [done|by destruct e]).
  apply obeys_bind, (obeys_mono proto s _ (fun r s' => s' = match r with Within (Ok _) => set_state e (Waiting cs) s | _ => s end)).
  - destruct (d_tcp d) as [[[]|m]|]; [by eapply obeys_stream|by apply obeys_ret..].
  - intros r s' ->. apply obeys_ret. by destruct r as [[|]|].
Qed.

(** What authentication leaves: an accepted handle, or one that still has to be released. *)
Definition authenticated (e : endpoint) (s : route_state) (r : result unit SshMcpError) (s' : route_state) : Prop :=
  match r with Ok _ => s' = set_state e LoggedIn s | Err _ => exists cs, s' = set_state e (Waiting cs) s end.

Lemma authenticated_set e h s r s' : authenticated e (set_state e h s) r s' -> authenticated e s r s'.
Proof. unfold authenticated. destruct r; [|intros [cs ->]; exists cs]; intros; subst; apply set_set. Qed.

Lemma obeys_key_loop env e h p u all key stage attempts s :
  settings e = Some (h, p, u, all) -> generation_published s = None ->
  state_of e s = Waiting (map (ByKey key) attempts) ->
  obeys proto s (key_loop env e u key stage attempts) (authenticated e s).
Proof.
  intros He. revert s. induction attempts as [|hash attempts IH]; intros s Hp Hs; cbn [key_loop].
  { apply obeys_ret. exists []. cbn in Hs. destruct s, e; cbn in *; by subst. }
  eapply obeys_act; [by eapply step_attempt|].
  destruct (a_key_answer env hash) as [[[]|m]|]; cbn; try (apply obeys_ret; cbn; eauto; done).
  eapply obeys_mono; [apply IH; [by rewrite set_published|by rewrite state_set]|]. intros r s'. apply authenticated_set.
Qed.

Lemma obeys_auth env e h p u pw key stage s :
  settings e = Some (h, p, u, credentials_of from_openssh pw key) -> generation_published s = None ->
  state_of e s = Waiting (credentials_of from_openssh pw key) ->
  obeys proto s (authenticate_session from_openssh env e u pw key stage) (authenticated e s).
Proof.
  intros He Hp Hs. unfold authenticate_session, credentials_of in *.
  destruct pw as [pw|]; [|destruct key as [key|]; [destruct (from_openssh (trim_end key)) as [rsa|m]|]].
  - eapply obeys_act; [by eapply step_attempt|].
    destruct (a_password_answer env) as [[[]|m]|]; cbn; apply obeys_ret; cbn; eauto.
  - by eapply obeys_key_loop.
  - apply obeys_ret. exists []. destruct s, e; cbn in *; by subst.
  - apply obeys_ret. exists []. destruct s, e; cbn in *; by subst.
Qed.

Notation has_jump := (bool_decide (is_Some (s_jump config))).

(** The handles of a connected attempt: the jump host's is accepted, the target's waits. *)
Definition connected (s : route_state) : Prop :=
  generation_published s = None /\ is_held (target_state s) = true /\
  jump_state s = (if has_jump then LoggedIn else Unopened).

(** Everything is released. *)
Definition released (s : route_state) : Prop :=
  generation_published s = None /\ is_held (target_state s) = false /\ is_held (jump_state s) = false.

Lemma obeys_disconnect s : connected s -> obeys proto s (disconnect_route has_jump) (fun _ => released).
Proof.
  intros (Hp & Ht & Hj). unfold disconnect_route.
  eapply obeys_act; [apply step_disconnected; auto|].
  case_bool_decide.
  - eapply obeys_last; [apply step_disconnected; [done|cbn; by rewrite Hj|by right]|]. done.
  - apply obeys_ret. unfold released. cbn. by rewrite Hj.
Qed.

(** The answer of the attempt, its last state and the manager after it. *)
Definition attempt_result (dialled queued : manager) (r : result unit SshMcpError * manager) (s : route_state) : Prop :=
  match r with
  | (Ok _, m) =>
      exists p, session m = Some {| generation := next_generation dialled; platform := p;
                  auto_elevation_attempted := false; r_closed := false |} /\ shutting_down queued = false /\
        generation_published s = Some (next_generation dialled) /\ target_state s = LoggedIn /\
        jump_state s = (if has_jump then LoggedIn else Unopened)
  | (Err _, m) => (session m = session dialled \/ session m = session queued) /\ released s
  end.

Lemma publish_ok g p m m' :
  publish g p m = (Ok tt, m') ->
  session m' = Some {| generation := g; platform := p; auto_elevation_attempted := false; r_closed := false |} /\
  shutting_down m = false.
Proof.
  unfold publish. destruct (shutting_down m); [done|]. destruct (bool_decide _); [done|]. by intros [= <-].
Qed.

Lemma publish_err g p m m' e : publish g p m = (Err e, m') -> session m' = session m.
Proof.
  unfold publish. destruct (shutting_down m); [by intros [= _ <-]|]. destruct (bool_decide _); [by intros [= _ <-]|done].
Qed.

Lemma obeys_release {A} s (a : A) (Q : A -> route_state -> Prop) :
  connected s -> (forall s', released s' -> Q a s') ->
  obeys proto s (let! _ := disconnect_route has_jump in tret a) Q.
Proof.
  intros Hc HQ. apply obeys_bind. eapply obeys_mono; [by apply obeys_disconnect|].
  intros u s' Hs'. cbn in Hs'. apply obeys_ret. auto.
Qed.

Lemma step_publishes s g :
  connected s -> target_state s = LoggedIn ->
  proto s (Published g) = Some {| jump_state := jump_state s; target_state := LoggedIn; tunnel := tunnel s;
    generation_published := Some g |}.
Proof.
  intros (Hp & _ & Hj) Ht. unfold protocol. rewrite Hp, Ht, Hj. by destruct (s_jump config).
Qed.

Lemma obeys_finish env p m s :
  generation_published s = None ->
  target_state s = Waiting (credentials_of from_openssh (s_password config) (s_private_key config)) ->
  jump_state s = (if has_jump then LoggedIn else Unopened) ->
  obeys proto s (finish_connect from_openssh config env p has_jump m)
    (attempt_result m (env_queue env (take_generation m).2)).
Proof.
  intros Hp Ht Hj. unfold finish_connect. apply obeys_bind.
  eapply obeys_mono; [eapply (obeys_auth _ TargetHost); [reflexivity|done..]|].
  intros r s' Hs'. assert (Hc : connected s').
  { destruct r; cbn in Hs'; [rewrite Hs'|destruct Hs' as [cs ->]]; done. }
  destruct r as [[]|e]; [|apply obeys_release; [done|]; cbn; auto].
  cbn in Hs'. destruct (validate_elevation _ _ _) as [[]|e]; [|apply obeys_release; [done|]; cbn; auto].
  destruct (take_generation m) as [g m1] eqn:Et. assert (next_generation m = g) as <- by (by injection Et). cbn [snd].
  destruct (publish _ p _) as [[[]|e] m'] eqn:E.
  - apply publish_ok in E as [E Hq]. eapply obeys_act; [apply step_publishes; [done|by subst]|].
    apply obeys_ret. exists p. cbn. split_and!; try done. by subst s'.
  - apply obeys_release; [done|]. intros s'' Hr. split; [|done]. right. by apply publish_err in E.
Qed.

Lemma obeys_drop_jump {A} s (a : A) (Q : A -> route_state -> Prop) :
  generation_published s = None -> is_held (target_state s) = false -> is_held (jump_state s) = true ->
  (forall s', released s' -> Q a s') ->
  obeys proto s (let! _ := act (Disconnected JumpHost) in tret a) Q.
Proof.
  intros Hp Ht Hj HQ. eapply obeys_act; [apply step_disconnected; auto|]. apply obeys_ret, HQ. done.
Qed.

Definition dial_result (r : result RemotePlatform SshMcpError) (s : route_state) : Prop :=
  match r with
  | Ok _ => generation_published s = None /\
      target_state s = Waiting (credentials_of from_openssh (s_password config) (s_private_key config)) /\
      jump_state s = (if has_jump then LoggedIn else Unopened)
  | Err _ => released s
  end.

Lemma obeys_tunnel env j s :
  s_jump config = Some j -> jump_state s = LoggedIn -> target_state s = Unopened -> tunnel s = true ->
  generation_published s = None ->
  obeys proto s
    (let! session := connect_identified_stream config (env_target_dial env) TargetHost (target_handler config) in
     match stage_result Connection (lit "target connection through jump") CONNECTION_TIMEOUT_SECS session with
     | Err err => let! _ := act (Disconnected JumpHost) in tret (Err err)
     | Ok p => tret (Ok p)
     end) dial_result.
Proof.
  intros Hj Hs Ht Hn Hp. apply obeys_bind. eapply obeys_mono.
  { eapply obeys_stream; [done..|]. cbn. by rewrite Hj, Hn, Hs. }
  intros r s' ->. destruct (stage_result _ _ _ r) as [p|e] eqn:E.
  - apply stage_result_ok in E as ->. apply obeys_ret. cbn. split_and!; try done. by rewrite Hs, Hj.
  - assert (match r with Within (Ok _) => set_state TargetHost (Waiting (credentials_of from_openssh (s_password config) (s_private_key config))) s | _ => s end = s) as ->.
    { pose proof (stage_result_err _ _ _ _ _ E) as Hn'. destruct r as [[p|]|]; [by specialize (Hn' p)|done..]. }
    apply obeys_drop_jump; [done|by rewrite Ht|by rewrite Hs|done].
Qed.

Lemma obeys_through_jump env j :
  s_jump config = Some j ->
  obeys proto route_start (connect_through_jump from_openssh config env j) dial_result.
Proof.
  intros Hj. unfold connect_through_jump. apply obeys_bind. eapply obeys_mono.
  { eapply (obeys_tcp _ JumpHost); [cbn; by rewrite Hj|auto..]. }
  intros [p|e] s ->; [|by apply obeys_ret]. apply obeys_bind. eapply obeys_mono.
  { eapply (obeys_auth _ JumpHost); [cbn; by rewrite Hj|done..]. }
  intros [[]|e] s Hs; cbn in Hs; [subst s|destruct Hs as [cs ->]; by apply obeys_drop_jump].
  eapply obeys_act; [cbn; by rewrite bool_decide_eq_true_2, Z.eqb_refl|].
  destruct (stage_result _ _ _ _) as [[]|e]; [|by apply obeys_drop_jump].
  eapply obeys_act; [done|]. by eapply obeys_tunnel.
Qed.

Lemma obeys_direct env :
  s_jump config = None ->
  obeys proto route_start
    (connect_tcp_endpoint config (env_target_dial env) TargetHost (s_host config) (s_port config) (lit "target connection"))
    dial_result.
Proof.
  intros Hj. eapply obeys_mono; [eapply (obeys_tcp _ TargetHost); auto; done|].
  intros [p|e] s ->; [|done]. cbn. by rewrite Hj.
Qed.

(** C4. Every connection attempt, whatever the network, the servers and the
    other tasks do, is a run of the protocol: each endpoint is dialled at its
    own address (the target behind a jump host only through the tunnel), is
    verified under the configured host key policy, and is offered its own
    user's credentials only, the password alone or the key with its signature
    algorithms in order, and nothing after an acceptance. On success a route
    of the next generation is published, no handle was released and every
    handle had been authenticated; on failure nothing is published, the
    session is untouched and every handle that was opened has been
    disconnected, the target before the jump host. *)
Theorem do_connect_follows_protocol (env : connect_env) (m : manager) :
  exists r trace s, do_connect from_openssh config env m [] = (r, trace) /\ run proto route_start trace = Some s /\
    attempt_result (env_dial env m) (env_queue env (take_generation (env_dial env m)).2) r s.
Proof.
  enough (H : obeys proto route_start (do_connect from_openssh config env m)
    (attempt_result (env_dial env m) (env_queue env (take_generation (env_dial env m)).2))) by apply (H []).
  unfold do_connect. apply obeys_bind. eapply (obeys_mono _ _ _ dial_result).
  - destruct (s_jump config) as [j|] eqn:Hj; [by apply obeys_through_jump|by apply obeys_direct].
  - intros [p|e] s Hs; cbn zeta; [|by apply obeys_ret; split; [left|]].
    destruct Hs as (Hp & Ht & Hj). by apply obeys_finish.
Qed.
End correct.
