(* ===== verification/TarHeader.v ===== *)
(** * Tar headers

    The 512-byte header blocks of src/transfer/tar.rs: writing, checking and
    parsing them, and the confinement of entry paths. A block is the list of
    its bytes. The result of the file: a header that could be written is read
    back as the same path, size and type. *)
From Stdlib Require Import ZArith String.
From stdpp Require Import base list.
From S2P Require Import Prelude Errors Utf8 Paths.

Definition TAR_BLOCK : nat := 512.

(** ** Writing *)

(** A write through the mutable slice [block[off..off + len]]. *)
Definition set_range (off len : nat) (f : bytes -> bytes) (block : bytes) : bytes :=
  take off block ++ f (slice off (off + len) block) ++ drop (off + len) block.

Definition write_bytes (src dst : bytes) : bytes :=
  let len := Nat.min (length dst) (length src) in take len src ++ drop len dst.

(** The digits from the lowest one; the loop stops at the first zero rest and
    leaves the zeros the buffer started with. *)
Fixpoint octal_buf (i : nat) (v : Z) (acc : bytes) : bytes :=
  match i with
  | O => acc
  | S i =>
      let acc := (48 + Z.land v 7) :: acc in
      let v := Z.shiftr v 3 in
      if v =? 0 then replicate i 48 ++ acc else octal_buf i v acc
  end.

Definition write_octal (value : Z) (width_digits : nat) (dst : bytes) : bytes :=
  let buf := octal_buf width_digits value [] in
  let write_len := Nat.min (length dst) width_digits in
  let written := drop (width_digits - write_len) buf ++ drop write_len dst in
  if (width_digits <? length dst)%nat then <[width_digits := 0]> written else written.

Fixpoint octal_digits (i : nat) (v : Z) (acc : bytes) : bytes :=
  match i with
  | O => acc
  | S i => octal_digits i (Z.shiftr v 3) ((48 + Z.land v 7) :: acc)
  end.

Definition write_octal_checksum (value : Z) : bytes := octal_digits 6 value [] ++ [0; 32].

Definition split_ustar_path (path : str) : result (str * option str) str :=
  if str_len path <=? 100 then Ok (path, None)
  else
    let too_long := Err (lit "path too long for ustar header") in
    match split_once_char SLASH (rev path) with
    | Some (name, pfx) =>
        if (str_len (rev name) <=? 100) && (str_len (rev pfx) <=? 155)
        then Ok (rev name, Some (rev pfx)) else too_long
    | None => too_long
    end.

Definition byte_sum (l : bytes) : Z := foldr Z.add 0 l.

(** The block that [write_header] sends. *)
Definition write_header (path : str) (size mode mtime typeflag : Z) : result bytes SshMcpError :=
  let? '(name, prefix) := rmap_err InvalidParams (split_ustar_path path) in
  let header := replicate TAR_BLOCK 0 in
  let header := set_range 0 100 (write_bytes (utf8_encode name)) header in
  let header := set_range 100 8 (write_octal mode 7) header in
  let header := set_range 108 8 (write_octal 0 7) header in
  let header := set_range 116 8 (write_octal 0 7) header in
  let header := set_range 124 12 (write_octal size 11) header in
  let header := set_range 136 12 (write_octal mtime 11) header in
  let header := set_range 148 8 (fun _ => replicate 8 32) header in
  let header := set_range 156 1 (fun _ => [typeflag]) header in
  let header := set_range 257 6 (write_bytes (lit "ustar" ++ [0])) header in
  let header := set_range 263 2 (write_bytes (lit "00")) header in
  let header := match prefix with
                | Some p => set_range 345 155 (write_bytes (utf8_encode p)) header
                | None => header
                end in
  let checksum := byte_sum header in
  Ok (set_range 148 8 (fun _ => write_octal_checksum checksum) header).

(** ** Reading *)

Fixpoint until_nul (l : bytes) : bytes :=
  match l with
  | [] => []
  | b :: l => if b =? 0 then [] else b :: until_nul l
  end.

Definition parse_string (field : bytes) : str := from_utf8_lossy (until_nul field).

(** [u64::from_str_radix(s, 8)]. *)
Fixpoint octal_value (acc : Z) (s : str) : result Z str :=
  match s with
  | [] => Ok acc
  | c :: s =>
      if (48 <=? c) && (c <=? 55) then
        let acc := acc * 8 + (c - 48) in
        if U64_MAX <? acc then Err (lit "number too large to fit in target type") else octal_value acc s
      else Err (lit "invalid digit found in string")
  end.

Definition from_str_radix8 (s : str) : result Z str :=
  match s with
  | [] => Err (lit "cannot parse integer from empty string")
  | _ => match default s (strip_prefix [43] s) with
         | [] => Err (lit "invalid digit found in string")
         | digits => octal_value 0 digits
         end
  end.

Definition nul_or_space (c : char) : bool := (c =? 0) || (c =? 32).
Definition trim_nul_space (s : str) : str :=
  rev (drop_while nul_or_space (rev (drop_while nul_or_space s))).

Definition parse_octal (field : bytes) : result Z str :=
  let s := trim_nul_space (from_utf8_lossy field) in
  if str_eqb s [] then Ok 0
  else rmap_err (fun e => lit "invalid octal field '" ++ s ++ lit "': " ++ e) (from_str_radix8 s).

Definition compute_tar_checksum (block : bytes) : Z :=
  byte_sum (imap (fun idx b => if (148 <=? idx)%nat && (idx <? 156)%nat then 32 else b) block).

Definition validate_tar_header (block : bytes) : result bool SshMcpError :=
  if forallb (Z.eqb 0) block then Ok true
  else
    let magic := slice 257 263 block in
    let version := slice 263 265 block in
    let is_ustar := (str_eqb magic (lit "ustar" ++ [0]) || str_eqb magic (lit "ustar ")) &&
      (str_eqb version (lit "00") || str_eqb version (lit "  ") || str_eqb version [0; 0] ||
       str_eqb version (lit "0" ++ [0]) || str_eqb version (lit "0 ")) in
    let is_old_gnu := str_eqb magic (lit "ustar  ") in
    let? stored := rmap_err InvalidParams (parse_octal (slice 148 156 block)) in
    let computed := compute_tar_checksum block in
    if negb (stored =? computed) then
      Err (InvalidParams (lit "invalid tar header checksum (expected " ++ show_uint computed ++
                          lit ", got " ++ show_uint stored ++ lit ")"))
    else Ok (is_ustar || is_old_gnu).

Record TarEntryHeader : Type := { e_path : str; e_size : Z; e_typeflag : Z }.

Definition parse_header (block : bytes) : result TarEntryHeader SshMcpError :=
  let? is_ustar := validate_tar_header block in
  let name := parse_string (slice 0 100 block) in
  let path :=
    if (is_ustar : bool) then
      let prefix := parse_string (slice 345 500 block) in
      if negb (str_eqb prefix []) then prefix ++ [SLASH] ++ name else name
    else name in
  let? size := rmap_err InvalidParams (parse_octal (slice 124 136 block)) in
  Ok {| e_path := path; e_size := size; e_typeflag := default 0 (block !! 156%nat) |}.

(** ** Entry paths *)

Fixpoint strip_dot_slash (p : str) : str :=
  match p with
  | a :: b :: rest => if (a =? 46) && (b =? SLASH) then strip_dot_slash rest else p
  | _ => p
  end.

(** The resulting relative path is the list of its components. *)
Fixpoint push_components (comps : list component) (out : list str) : result (list str) str :=
  match comps with
  | [] => Ok out
  | Normal seg :: comps => push_components comps (out ++ [seg])
  | CurDir :: comps => push_components comps out
  | ParentDir :: _ => Err (lit "tar entry contains '..'")
  | RootDir :: _ => Err (lit "tar entry path must be relative")
  end.

Definition EMPTY_ENTRY : str := lit "tar entry path is empty".

Definition sanitize_tar_path (path : str) : result (list str) str :=
  let p := strip_dot_slash path in
  if str_eqb p [] then Err EMPTY_ENTRY
  else
    let? out := push_components (components p) [] in
    if bool_decide (out = []) then Err (lit "tar entry path must not normalize to '.'") else Ok out.

(** ** Blocks as lists of fields *)

(** The lengths of the fields of a block, in order. *)
Definition SHAPE : list nat := [100; 8; 8; 8; 12; 12; 8; 1; 100; 6; 2; 80; 155; 12]%nat.

Definition shaped (fs : list bytes) : Prop := length <$> fs = SHAPE.

Lemma length_concat_take (fs : list bytes) i : length (concat (take i fs)) = sum_list (take i (length <$> fs)).
Proof.
  revert i; induction fs as [|f fs IH]; intros [|i]; simpl; try done. by rewrite length_app, IH.
Qed.

Lemma concat_split (fs : list bytes) i b :
  fs !! i = Some b -> concat fs = concat (take i fs) ++ b ++ concat (drop (S i) fs).
Proof. intros H. rewrite <- (take_drop_middle fs i b H) at 1. by rewrite concat_app. Qed.

Lemma shaped_lookup fs i b len : shaped fs -> fs !! i = Some b -> SHAPE !! i = Some len -> len = length b.
Proof. intros Hs Hi Hl. rewrite <- Hs, list_lookup_fmap, Hi in Hl. by injection Hl. Qed.

Lemma slice_field fs i off len b :
  shaped fs -> fs !! i = Some b -> sum_list (take i SHAPE) = off -> SHAPE !! i = Some len ->
  slice off (off + len) (concat fs) = b.
Proof.
  intros Hs Hi Ho Hl. rewrite (concat_split fs i b Hi).
  rewrite (shaped_lookup fs i b len Hs Hi Hl), <- Ho, <- Hs, <- length_concat_take. apply slice_app.
Qed.

Lemma set_field fs i off len f b :
  shaped fs -> fs !! i = Some b -> sum_list (take i SHAPE) = off -> SHAPE !! i = Some len ->
  set_range off len f (concat fs) = concat (<[i := f b]> fs).
Proof.
  intros Hs Hi Ho Hl. unfold set_range. rewrite (slice_field fs i off len b) by done.
  rewrite (shaped_lookup fs i b len Hs Hi Hl), (concat_split fs i b Hi), <- Ho, <- Hs, <- length_concat_take.
  rewrite take_app_length, <- drop_drop, drop_app_length, drop_app_length.
  rewrite (insert_take_drop fs i) by (apply lookup_lt_is_Some; eauto).
  by rewrite concat_app.
Qed.

Lemma shaped_set fs i b b' : shaped fs -> fs !! i = Some b -> length b' = length b -> shaped (<[i := b']> fs).
Proof.
  unfold shaped. intros <- Hi E. rewrite list_fmap_insert, E. apply list_insert_id. by rewrite list_lookup_fmap, Hi.
Qed.

Lemma shaped_length fs : shaped fs -> length (concat fs) = TAR_BLOCK.
Proof.
  intros Hs. pose proof (length_concat_take fs (length fs)) as H. rewrite firstn_all in H. rewrite H.
  rewrite take_ge by (by rewrite length_fmap). by rewrite Hs.
Qed.

Definition pad (n : nat) (b : bytes) : bytes := b ++ replicate (n - length b) 0.

Lemma write_bytes_pad b n : (length b <= n)%nat -> write_bytes b (replicate n 0) = pad n b.
Proof.
  intros H. unfold write_bytes, pad. rewrite length_replicate. replace (n `min` length b)%nat with (length b) by lia.
  rewrite firstn_all. f_equal. by rewrite drop_replicate.
Qed.

Lemma pad_length n b : (length b <= n)%nat -> length (pad n b) = n.
Proof. intros H. unfold pad. rewrite length_app, length_replicate. lia. Qed.

(** ** Octal numbers *)

Lemma octal_digits_app i v acc : octal_digits i v acc = octal_digits i v [] ++ acc.
Proof.
  revert v acc; induction i as [|i IH]; intros v acc; [done|]. simpl. rewrite IH, (IH _ [_]). by rewrite <- app_assoc.
Qed.

Lemma octal_digits_length i v : length (octal_digits i v []) = i.
Proof. revert v; induction i as [|i IH]; intros v; [done|]. simpl. rewrite octal_digits_app, length_app, IH. simpl. lia. Qed.

Lemma octal_digits_zero i acc : octal_digits i 0 acc = replicate i 48 ++ acc.
Proof.
  revert acc; induction i as [|i IH]; intros acc; [done|]. simpl. rewrite IH.
  change (48 + Z.land 0 7) with 48. change (replicate i 48 ++ [48] ++ acc = replicate (S i) 48 ++ acc).
  by rewrite app_assoc, <- replicate_S_end.
Qed.

Lemma octal_buf_digits i v acc : octal_buf i v acc = octal_digits i v acc.
Proof.
  revert v acc; induction i as [|i IH]; intros v acc; [done|]. cbn [octal_buf octal_digits].
  destruct (Z.shiftr v 3 =? 0) eqn:E; [|apply IH]. apply Z.eqb_eq in E. by rewrite E, octal_digits_zero.
Qed.

Lemma write_octal_field v w : write_octal v w (replicate (S w) 0) = octal_digits w v [] ++ [0].
Proof.
  unfold write_octal. rewrite length_replicate, octal_buf_digits.
  replace (S w `min` w)%nat with w by lia. rewrite Nat.sub_diag, drop_0.
  rewrite drop_replicate.
  replace (S w - w)%nat with 1%nat by lia. rewrite (proj2 (Nat.ltb_lt w (S w))) by lia.
  rewrite insert_app_r_alt by (by rewrite octal_digits_length). by rewrite octal_digits_length, Nat.sub_diag.
Qed.

Definition octal_char (c : Z) : Prop := 48 <= c <= 55.

Lemma octal_digits_chars i v : Forall octal_char (octal_digits i v []).
Proof.
  revert v; induction i as [|i IH]; intros v; simpl; [constructor|]. rewrite octal_digits_app.
  apply Forall_app; split; [apply IH|]. repeat constructor; change 7 with (Z.ones 3); rewrite Z.land_ones by lia;
    pose proof (Z.mod_pos_bound v (2 ^ 3)); lia.
Qed.

Lemma octal_value_app i v acc s :
  0 <= v -> 0 <= acc -> (acc + 1) * 8 ^ Z.of_nat i <= U64_MAX ->
  octal_value acc (octal_digits i v [] ++ s) = octal_value (acc * 8 ^ Z.of_nat i + v mod 8 ^ Z.of_nat i) s.
Proof.
  revert v s; induction i as [|i IH]; intros v s Hv Ha Hb.
  { simpl. f_equal. rewrite Z.mod_1_r. lia. }
  rewrite Nat2Z.inj_succ, Z.pow_succ_r in * by lia. cbn [octal_digits]. rewrite octal_digits_app, <- app_assoc.
  assert (0 < 8 ^ Z.of_nat i) by lia.
  rewrite IH by (try apply Z.shiftr_nonneg; nia).
  rewrite Z.shiftr_div_pow2 by lia. change (2 ^ 3) with 8.
  change 7 with (Z.ones 3). rewrite Z.land_ones by lia. change (2 ^ 3) with 8.
  cbn [app octal_value]. pose proof (Z.mod_pos_bound v 8). pose proof (Z.mod_pos_bound (v / 8) (8 ^ Z.of_nat i)).
  rewrite (proj2 (Z.leb_le 48 _)), (proj2 (Z.leb_le _ 55)) by lia. cbn [andb].
  replace (48 + v mod 8 - 48) with (v mod 8) by lia.
  rewrite (Z.rem_mul_r v 8 (8 ^ Z.of_nat i)) by lia.
  rewrite (proj2 (Z.ltb_ge U64_MAX _)) by nia. f_equal. lia.
Qed.

Lemma octal_lossy l : Forall (fun c => 0 <= c < 128) l -> from_utf8_lossy l = l.
Proof.
  intros H. rewrite <- (utf8_encode_ascii l H) at 1. apply from_utf8_lossy_encode.
  apply forallb_forall. intros c Hc%list_elem_of_In. rewrite Forall_forall in H. specialize (H c Hc).
  unfold valid_char. apply orb_true_iff. left. apply andb_true_iff. split; [apply Z.leb_le|apply Z.ltb_lt]; lia.
Qed.

Lemma trim_octal s t :
  s <> [] -> Forall octal_char s -> Forall (fun c => nul_or_space c = true) t -> trim_nul_space (s ++ t) = s.
Proof.
  intros Hne Hs Ht. unfold trim_nul_space.
  assert (Hd : forall c, octal_char c -> nul_or_space c = false).
  { intros c [? ?]. unfold nul_or_space. apply orb_false_iff. split; apply Z.eqb_neq; lia. }
  destruct s as [|c s]; [done|]. cbn [app]. rewrite drop_while_id by (apply Hd; by inversion Hs).
  change (c :: s ++ t) with ((c :: s) ++ t). rewrite rev_app_distr.
  assert (Hdrop : forall p r, Forall (fun c => nul_or_space c = true) p -> drop_while nul_or_space (p ++ r) = drop_while nul_or_space r).
  { intros p r. induction 1 as [|x p Hx _ IH]; [done|]. simpl. by rewrite Hx. }
  rewrite Hdrop by (by apply Forall_rev).
  destruct (rev (c :: s)) as [|x r] eqn:E.
  { apply (f_equal (@rev Z)) in E. rewrite rev_involutive in E. done. }
  rewrite drop_while_id.
  - rewrite <- E. apply rev_involutive.
  - apply Hd. apply Forall_rev in Hs. change (Forall octal_char (rev (c :: s))) in Hs. rewrite E in Hs. by inversion Hs.
Qed.

Lemma parse_octal_field i v t :
  (0 < i)%nat -> 0 <= v < 8 ^ Z.of_nat i -> 8 ^ Z.of_nat i <= U64_MAX ->
  Forall (fun c => nul_or_space c = true) t -> parse_octal (octal_digits i v [] ++ t) = Ok v.
Proof.
  intros Hi Hv Hb Ht. unfold parse_octal. pose proof (octal_digits_chars i v) as Hc.
  pose proof (octal_digits_length i v) as Hl.
  rewrite octal_lossy.
  2:{ apply Forall_app; split; [eapply Forall_impl; [exact Hc|]; unfold octal_char; simpl; lia|].
      eapply Forall_impl; [exact Ht|]. unfold nul_or_space. intros c [E|E]%orb_true_iff; apply Z.eqb_eq in E; lia. }
  assert (Hne : octal_digits i v [] <> []) by (intros E; rewrite E in Hl; simpl in Hl; lia).
  rewrite trim_octal by done.
  unfold str_eqb. rewrite bool_decide_eq_false_2 by done.
  pose proof (octal_value_app i v 0 [] (proj1 Hv) ltac:(lia) ltac:(lia)) as H.
  rewrite app_nil_r, Z.mod_small in H by lia. simpl in H.
  destruct (octal_digits i v []) as [|d r] eqn:E; [done|]. unfold from_str_radix8.
  assert (strip_prefix [43] (d :: r) = None) as ->.
  { apply strip_prefix_None, not_true_iff_false. intros [q [= -> _]]%starts_with_spec.
    apply Forall_cons in Hc as [[? ?] _]. lia. }
  change (rmap_err (fun e => lit "invalid octal field '" ++ (d :: r) ++ lit "': " ++ e) (octal_value 0 (d :: r)) = Ok v). by rewrite H.
Qed.

(** ** The written block *)

Definition fields (name : str) (prefix : option str) (size mode mtime typeflag : Z) (chk : bytes) : list bytes :=
  [ pad 100 (utf8_encode name); octal_digits 7 mode [] ++ [0]; octal_digits 7 0 [] ++ [0]; octal_digits 7 0 [] ++ [0];
    octal_digits 11 size [] ++ [0]; octal_digits 11 mtime [] ++ [0]; chk; [typeflag]; replicate 100 0;
    lit "ustar" ++ [0]; lit "00"; replicate 80 0; pad 155 (utf8_encode (default [] prefix)); replicate 12 0 ].

(** The blanks the checksum is computed over. *)
Definition BLANKS : bytes := replicate 8 32.

Lemma fields_shaped name prefix size mode mtime typeflag chk :
  str_len name <= 100 -> str_len (default [] prefix) <= 155 -> length chk = 8%nat ->
  shaped (fields name prefix size mode mtime typeflag chk).
Proof.
  intros Hn Hp Hc. pose proof (utf8_encode_length name). pose proof (utf8_encode_length (default [] prefix)).
  unfold shaped, fields. cbn [fmap list_fmap].
  rewrite !pad_length by lia. rewrite !length_app, !octal_digits_length, Hc. done.
Qed.

Lemma octal_checksum_length v : length (write_octal_checksum v) = 8%nat.
Proof. unfold write_octal_checksum. by rewrite length_app, octal_digits_length. Qed.

(** A write to field [i] of a block under construction, with the side
    conditions that only look at the shape. *)
Ltac write_field i :=
  match goal with
  | Hs : shaped ?fs |- context [set_range ?off ?len ?f (concat ?fs)] =>
      let b := fresh "b" in let E := fresh "E" in
      evar (b : bytes);
      assert (E : fs !! i = Some b) by (unfold b; reflexivity); unfold b in E; clear b;
      rewrite (set_field fs i off len f _ Hs E) by reflexivity; clear E Hs; cbn [insert list_insert]
  end.

Ltac shape_now :=
  match goal with
  | |- context [set_range _ _ _ (concat ?fs)] =>
      assert (shaped fs) by
        (unfold shaped; cbn [fmap list_fmap]; rewrite ?pad_length, ?length_app, ?octal_digits_length, ?length_replicate by lia;
         reflexivity)
  end.

Lemma Ok_inj {T E} (a b : T) : @Ok T E a = Ok b -> a = b.
Proof. congruence. Qed.

Lemma write_header_fields path size mode mtime typeflag h :
  write_header path size mode mtime typeflag = Ok h ->
  exists name prefix, split_ustar_path path = Ok (name, prefix) /\
    str_len name <= 100 /\ str_len (default [] prefix) <= 155 /\
    let f := fields name prefix size mode mtime typeflag in
    h = concat (f (write_octal_checksum (byte_sum (concat (f BLANKS))))).
Proof.
  unfold write_header. destruct (split_ustar_path path) as [[name prefix]|] eqn:Esp; [|done]. cbn [rmap_err rbind].
  assert (Hb : str_len name <= 100 /\ str_len (default [] prefix) <= 155).
  { unfold split_ustar_path in Esp. destruct (str_len path <=? 100) eqn:E; bool_hyps; [simplify_eq; by split|].
    destruct (split_once_char SLASH (rev path)) as [[a b]|]; [|done].
    destruct ((str_len (rev a) <=? 100) && (str_len (rev b) <=? 155)) eqn:F; [|done]. bool_hyps. simplify_eq. done. }
  destruct Hb as [Hn Hp]. pose proof (utf8_encode_length name) as Ln. pose proof (utf8_encode_length (default [] prefix)) as Lp.
  intros E%Ok_inj. exists name, prefix. split_and!; [done..|]. cbv zeta. rewrite <- E. clear E.
  change (replicate TAR_BLOCK 0) with (concat ((fun n => replicate n 0) <$> SHAPE)). cbn [fmap list_fmap SHAPE].
  shape_now. write_field 0%nat. rewrite write_bytes_pad by lia.
  shape_now. write_field 1%nat. rewrite write_octal_field.
  shape_now. write_field 2%nat. rewrite write_octal_field.
  shape_now. write_field 3%nat. rewrite write_octal_field.
  shape_now. write_field 4%nat. rewrite write_octal_field.
  shape_now. write_field 5%nat. rewrite write_octal_field.
  shape_now. write_field 6%nat.
  shape_now. write_field 7%nat.
  shape_now. write_field 9%nat. change (write_bytes (lit "ustar" ++ [0]) (replicate 6 0)) with (lit "ustar" ++ [0]).
  shape_now. write_field 10%nat. change (write_bytes (lit "00") (replicate 2 0)) with (lit "00").
  destruct prefix as [p|]; [change (default [] (Some p)) with p in *|].
  - shape_now. write_field 12%nat. rewrite write_bytes_pad by lia. shape_now. write_field 6%nat. reflexivity.
  - shape_now. write_field 6%nat. reflexivity.
Qed.

(** ** Reading the written block *)

Definition is_byte (b : Z) : Prop := 0 <= b < 256.

Lemma byte_sum_app a b : byte_sum (a ++ b) = byte_sum a + byte_sum b.
Proof. unfold byte_sum. induction a as [|x a IH]; simpl; lia. Qed.

Lemma byte_sum_bound l : Forall is_byte l -> 0 <= byte_sum l <= 255 * Z.of_nat (length l).
Proof. unfold byte_sum, is_byte. induction 1; simpl; lia. Qed.

Lemma utf8_char_bytes c : valid_char c = true -> c <> NUL -> Forall (fun b => 0 < b < 256) (utf8_char c).
Proof.
  unfold NUL, valid_char. intros H H0.
  assert (0 < c < 1114112) by (apply orb_true_iff in H as [H|H]; bool_hyps; lia).
  unfold utf8_char. repeat case_match; bool_hyps; repeat constructor; try lia;
    (pose proof (Z.div_mod c 64); pose proof (Z.mod_pos_bound c 64); pose proof (Z.mod_pos_bound (c / 64) 64);
     pose proof (Z.mod_pos_bound (c / 4096) 64);
     pose proof (Z.div_lt_upper_bound c 64 32); pose proof (Z.div_lt_upper_bound c 4096 16);
     pose proof (Z.div_lt_upper_bound c 262144 8);
     pose proof (Z.div_pos c 64); pose proof (Z.div_pos c 4096); pose proof (Z.div_pos c 262144); lia).
Qed.

(** Text that a header field can carry. *)
Definition tar_text (s : str) : Prop := forallb valid_char s = true /\ NUL ∉ s.

Lemma tar_text_app a b : tar_text (a ++ b) <-> tar_text a /\ tar_text b.
Proof. unfold tar_text. rewrite forallb_app, andb_true_iff, not_elem_of_app. tauto. Qed.

Lemma tar_text_bytes s : tar_text s -> Forall (fun b => 0 < b < 256) (utf8_encode s).
Proof.
  induction s as [|c s IH]; [constructor|]. intros [[Hc Hs]%andb_true_iff [Hn1 Hn2]%not_elem_of_cons].
  rewrite utf8_encode_cons. apply Forall_app; split; [apply utf8_char_bytes; congruence|]. by apply IH.
Qed.

Lemma until_nul_zeros b n : Forall (fun b => 0 < b < 256) b -> until_nul (b ++ replicate n 0) = b.
Proof.
  induction 1 as [|x b Hx _ IH]; simpl; [by destruct n|]. rewrite (proj2 (Z.eqb_neq x 0)) by lia. by f_equal.
Qed.

Lemma parse_string_pad n s : tar_text s -> parse_string (pad n (utf8_encode s)) = s.
Proof.
  intros Hs. unfold parse_string, pad. rewrite until_nul_zeros by (by apply tar_text_bytes).
  apply from_utf8_lossy_encode, Hs.
Qed.

Lemma checksum_split a c d :
  length a = 148%nat -> length c = 8%nat ->
  compute_tar_checksum (a ++ c ++ d) = byte_sum (a ++ BLANKS ++ d).
Proof.
  intros Ha Hc. unfold compute_tar_checksum. rewrite !imap_app, Ha, Hc.
  assert (forall (l : bytes) (f : nat -> Z -> Z), (forall i x, l !! i = Some x -> f i x = x) -> imap f l = l) as Hid.
  { intros l f Hf. transitivity (imap (fun _ x => x) l); [by apply imap_ext|].
    change (fun (_ : nat) (x : Z) => x) with (const (@id Z) : nat -> Z -> Z). by rewrite imap_const, list_fmap_id. }
  rewrite (Hid a), (Hid d); [|intros i x Hi; cbn beta..].
  - f_equal. f_equal. f_equal. do 8 (destruct c as [|? c]; [done|]). destruct c; [done|done].
  - destruct (_ && _) eqn:E; [|done]. apply andb_true_iff in E as [_ E%Nat.ltb_lt]. lia.
  - apply lookup_lt_Some in Hi. rewrite Ha in Hi.
    destruct (_ && _) eqn:E; [|done]. apply andb_true_iff in E as [E%Nat.leb_le _]. lia.
Qed.

Lemma fields_checksum name prefix size mode mtime typeflag chk :
  let f := fields name prefix size mode mtime typeflag in
  str_len name <= 100 -> str_len (default [] prefix) <= 155 -> length chk = 8%nat ->
  compute_tar_checksum (concat (f chk)) = byte_sum (concat (f BLANKS)).
Proof.
  intros f Hn Hp Hc. assert (Hs : length <$> f chk = SHAPE) by (by apply fields_shaped).
  rewrite (concat_split (f chk) 6 chk eq_refl), (concat_split (f BLANKS) 6 BLANKS eq_refl).
  apply checksum_split; [|done]. pose proof (length_concat_take (f chk) 6) as L. rewrite Hs in L. exact L.
Qed.

Lemma octal_is_byte i v : Forall is_byte (octal_digits i v []).
Proof. eapply Forall_impl; [apply octal_digits_chars|]. unfold octal_char, is_byte. simpl. lia. Qed.

Lemma forallb_is_byte l : forallb (in_range 0 255) l = true -> Forall is_byte l.
Proof.
  rewrite forallb_forall, Forall_forall. intros H b Hb%list_elem_of_In. specialize (H b Hb).
  apply in_range_true in H. unfold is_byte. lia.
Qed.

Lemma fields_bytes name prefix size mode mtime typeflag :
  tar_text name -> tar_text (default [] prefix) -> is_byte typeflag ->
  Forall is_byte (concat (fields name prefix size mode mtime typeflag BLANKS)).
Proof.
  intros Hn Hp Ht.
  assert (Hz : forall n, Forall is_byte (replicate n 0)) by (intros n; apply Forall_replicate; unfold is_byte; lia).
  assert (Hpad : forall n s, tar_text s -> Forall is_byte (pad n (utf8_encode s))).
  { intros n s Hs. apply Forall_app; split; [|done]. eapply Forall_impl; [by apply tar_text_bytes|].
    unfold is_byte. simpl. lia. }
  assert (Ho : forall i v, Forall is_byte (octal_digits i v [] ++ [0])).
  { intros i v. apply Forall_app; split; [apply octal_is_byte|apply (Hz 1%nat)]. }
  apply Forall_concat. unfold fields.
  do 14 (apply Forall_cons_2; [first [apply Ho | apply Hpad; assumption | apply Hz | by apply forallb_is_byte
    | constructor; [assumption|constructor]]|]).
  constructor.
Qed.

Lemma read_field fs i off stop len b :
  shaped fs -> fs !! i = Some b -> sum_list (take i SHAPE) = off -> SHAPE !! i = Some len -> stop = (off + len)%nat ->
  slice off stop (concat fs) = b.
Proof. intros ? ? ? ? ->. by eapply slice_field. Qed.

Lemma split_ustar_path_join path name prefix :
  split_ustar_path path = Ok (name, prefix) -> is_absolute path = false -> tar_text path ->
  tar_text name /\ tar_text (default [] prefix) /\
  path = (if str_eqb (default [] prefix) [] then name else default [] prefix ++ [SLASH] ++ name).
Proof.
  unfold split_ustar_path. intros H Ha Ht. destruct (str_len path <=? 100).
  { simplify_eq. split_and!; [done| |done]. split; [done|by apply not_elem_of_nil]. }
  destruct (split_once_char SLASH (rev path)) as [[n p]|] eqn:E; [|done].
  apply split_once_char_Some in E as [E _]. apply (f_equal (@rev Z)) in E. rewrite rev_involutive, rev_app_distr in E.
  simpl in E. rewrite <- app_assoc in E. change ([SLASH] ++ rev n) with ([SLASH] ++ rev n) in E.
  destruct (_ && _); [|done]. injection H as <- <-. change (default [] (Some (rev p))) with (rev p).
  rewrite E in Ht, Ha. apply tar_text_app in Ht as [Hp [_ Hn]%(tar_text_app [SLASH])]. split_and!; [done..|].
  destruct (rev p) as [|c r]; [done|]. exact E.
Qed.

(** What a writer put in a header, a reader finds in it. *)
Lemma parse_write_header path size mode mtime typeflag h :
  write_header path size mode mtime typeflag = Ok h ->
  is_absolute path = false -> tar_text path -> 0 <= size < 8 ^ 11 -> is_byte typeflag ->
  length h = TAR_BLOCK /\ forallb (Z.eqb 0) h = false /\
  parse_header h = Ok {| e_path := path; e_size := size; e_typeflag := typeflag |}.
Proof.
  intros H Ha Ht Hsize Htf. apply write_header_fields in H as (name & prefix & Hsp & Hn & Hp & ->).
  destruct (split_ustar_path_join _ _ _ Hsp Ha Ht) as (Tn & Tp & Hpath).
  set (f := fields name prefix size mode mtime typeflag). set (sum := byte_sum (concat (f BLANKS))).
  set (chk := write_octal_checksum sum).
  assert (Hs : shaped (f chk)) by (apply fields_shaped; [done..|apply octal_checksum_length]).
  assert (Hnz : forallb (Z.eqb 0) (concat (f chk)) = false).
  { apply not_true_iff_false. rewrite forallb_forall. intros Hall.
    assert (In 117 (concat (f chk))) as Hin%Hall; [|done].
    apply in_concat. exists (lit "ustar" ++ [0]). split; [do 9 right; by left|by left]. }
  assert (Hsum : 0 <= sum < 8 ^ 6).
  { pose proof (byte_sum_bound _ (fields_bytes name prefix size mode mtime typeflag Tn Tp Htf)) as Hb.
    fold f in Hb. fold sum in Hb. rewrite shaped_length in Hb by (by apply fields_shaped). unfold TAR_BLOCK in Hb. lia. }
  split_and!; [by apply shaped_length|done|].
  unfold parse_header, validate_tar_header. rewrite Hnz.
  rewrite (read_field _ 0 0 100 _ _ Hs eq_refl eq_refl eq_refl eq_refl), (read_field _ 12 345 500 _ _ Hs eq_refl eq_refl eq_refl eq_refl),
    (read_field _ 4 124 136 _ _ Hs eq_refl eq_refl eq_refl eq_refl), (read_field _ 6 148 156 _ _ Hs eq_refl eq_refl eq_refl eq_refl),
    (read_field _ 9 257 263 _ _ Hs eq_refl eq_refl eq_refl eq_refl), (read_field _ 10 263 265 _ _ Hs eq_refl eq_refl eq_refl eq_refl).
  unfold chk at 1, write_octal_checksum.
  rewrite (parse_octal_field 6) by first [done | lia | by repeat constructor].
  rewrite (parse_octal_field 11) by first [done | lia | by repeat constructor].
  unfold f at 1. rewrite fields_checksum by first [done | apply octal_checksum_length].
  fold f. fold sum. rewrite !parse_string_pad by done. cbn [rmap_err rbind]. rewrite Z.eqb_refl. cbn [negb rbind].
  change (_ || str_eqb (lit "ustar" ++ [0]) (lit "ustar  ")) with true. cbv iota.
  assert (concat (f chk) !! 156%nat = Some typeflag) as ->.
  { rewrite (concat_split (f chk) 7 [typeflag] eq_refl).
    pose proof (length_concat_take (f chk) 7) as L. unfold shaped in Hs. rewrite Hs in L.
    rewrite lookup_app_r by (rewrite L; done). rewrite L. done. }
  rewrite Hpath. by destruct (str_eqb (default [] prefix) []).
Qed.

(** ** Accepted entry paths *)

Lemma push_components_ok comps out r :
  push_components comps out = Ok r -> r = out ++ omap (fun c => match c with Normal n => Some n | _ => None end) comps /\
  Forall (fun c => c = CurDir \/ exists n, c = Normal n) comps.
Proof.
  revert out; induction comps as [|[| | |n] comps IH]; intros out H; cbn in *; simplify_eq.
  - split; [by rewrite app_nil_r|constructor].
  - apply IH in H as [-> ?]. split; [done|]. constructor; eauto.
  - apply IH in H as [-> ?]. split; [by rewrite <- app_assoc|]. constructor; eauto.
Qed.

(** An accepted path is a non-empty list of ordinary names. *)
Lemma sanitize_tar_path_plain p r : sanitize_tar_path p = Ok r -> r <> [] /\ Forall plain_name r.
Proof.
  unfold sanitize_tar_path. destruct (str_eqb _ []); [done|].
  destruct (push_components _ []) as [out|] eqn:E; [|done]. cbn [rbind]. case_bool_decide; [done|]. intros [= <-].
  split; [done|]. apply push_components_ok in E as [-> _]. apply Forall_forall. intros n Hn.
  apply list_elem_of_omap in Hn as (c & Hc & Ec). destruct c; simplify_eq. by eapply components_Normal_plain.
Qed.

Lemma push_components_normal l out : push_components (Normal <$> l) out = Ok (out ++ l).
Proof. revert out; induction l as [|n l IH]; intros out; cbn; [by rewrite app_nil_r|]. by rewrite IH, <- app_assoc. Qed.

Lemma strip_dot_slash_id p : (forall r, p <> [46; SLASH] ++ r) -> strip_dot_slash p = p.
Proof.
  intros H. destruct p as [|a [|b p]]; [done..|]. cbn.
  destruct ((a =? 46) && (b =? SLASH)) eqn:E; [|done]. bool_hyps. subst. by destruct (H p).
Qed.

Lemma omap_body_plain l : Forall plain_name l -> omap body_component l = Normal <$> l.
Proof. induction 1 as [|x l Hx _ IH]; [done|]. cbn. rewrite body_component_plain by done. cbn. by rewrite IH. Qed.

(** A path printed from names, with a final separator for a directory. *)
Lemma split_join_names l tail :
  l <> [] -> Forall plain_name l -> tail = [] \/ tail = [SLASH] ->
  exists e, split_char SLASH (join [SLASH] l ++ tail) = l ++ e /\ omap body_component e = [].
Proof.
  intros Hne Hl Ht.
  assert (Hsep : forall p, p ∈ l -> SLASH ∉ p) by (intros p Hp; rewrite Forall_forall in Hl; apply (Hl p Hp)).
  destruct Ht as [->| ->].
  - exists []. by rewrite !app_nil_r, split_char_join.
  - exists [[]]. change ([SLASH]) with (SLASH :: []) at 2. by rewrite split_char_cat, split_char_join.
Qed.

Lemma join_names_relative l tail :
  l <> [] -> Forall plain_name l -> is_absolute (join [SLASH] l ++ tail) = false.
Proof.
  intros Hne Hl. destruct l as [|[|c n] l]; [done|by destruct (Forall_inv Hl)|].
  apply not_true_iff_false. intros [q E]%starts_with_spec. destruct (Forall_inv Hl) as (_ & _ & _ & Hs).
  destruct l; cbn in E; injection E as -> _; apply Hs; by left.
Qed.

Lemma sanitize_join_names l tail :
  l <> [] -> Forall plain_name l -> tail = [] \/ tail = [SLASH] ->
  sanitize_tar_path (join [SLASH] l ++ tail) = Ok l.
Proof.
  intros Hne Hl Ht. destruct (split_join_names l tail Hne Hl Ht) as (e & Hs & He).
  pose proof (join_names_relative l tail Hne Hl) as Hr. destruct l as [|n l]; [done|].
  pose proof (Forall_inv Hl) as (Hn1 & Hn2 & _).
  unfold sanitize_tar_path. rewrite strip_dot_slash_id.
  2:{ intros r E. rewrite E in Hs. injection Hs as E' _. by apply Hn2. }
  destruct (str_eqb (join [SLASH] (n :: l) ++ tail) []) eqn:E.
  { apply str_eqb_spec in E. rewrite E in Hs. injection Hs as E' _. by destruct Hn1. }
  unfold components. rewrite Hr, Hs. cbn [app]. unfold str_eqb. rewrite bool_decide_eq_false_2 by done.
  rewrite body_component_plain by (by apply Forall_inv in Hl). rewrite omap_app, He, app_nil_r.
  rewrite omap_body_plain by (by apply Forall_inv_tail in Hl).
  change (option_list (Some (Normal n)) ++ (Normal <$> l)) with (Normal <$> n :: l).
  by rewrite push_components_normal.
Qed.
