(* ===== verification/Tar.v ===== *)
(** * Tar streams

    [write_dir_as_tar] and [extract_tar_to_dir] of src/transfer/tar.rs. The
    local directory that is sent is a tree ([lnode]) that does not change
    meanwhile, except that a file's content need not have the length its
    metadata announced. The directory that is filled is part of a file system
    keyed by absolute paths (lists of names) that holds directories and
    regular files: the extractor creates nothing else, and its root is a fresh
    staging directory. A stream that is read is the list of the chunks its
    reads return; writes to a stream succeed, and permissions and full disks
    are not modelled. *)
From Stdlib Require Import ZArith String.
From stdpp Require Import base list gmap.
From S2P Require Import Prelude Errors Utf8 Paths TarHeader.

(** ** Reading a stream *)

Notation reader := (list bytes) (only parsing).

(** One read into a buffer of [want] bytes. *)
Definition read (want : nat) (input : reader) : bytes * reader :=
  match input with
  | [] => ([], [])
  | c :: cs => (take want c, if (want <? length c)%nat then drop want c :: cs else cs)
  end.

(** The loop [while remaining > 0]: an empty read is the end of the stream.
    Every read that goes on brings a byte, so [fuel = remaining] is enough.
    The result tells if everything was read, what was, and what is left. *)
Fixpoint read_loop (cap fuel remaining : nat) (input : reader) (got : bytes) : bool * bytes * reader :=
  match remaining, fuel with
  | O, _ => (true, got, input)
  | _, O => (false, got, input)
  | _, S fuel =>
      let '(chunk, input) := read (Nat.min remaining cap) input in
      match chunk with
      | [] => (false, got, input)
      | _ => read_loop cap fuel (remaining - length chunk) input (got ++ chunk)
      end
  end.

Definition COPY_BUFFER : nat := 32768.

(** [AsyncReadExt::read_exact]: the buffer is filled or the stream ended. *)
Definition read_exact (n : nat) (input : reader) : bool * bytes * reader := read_loop n n n input [].

Definition pad_len (size : Z) : nat := Z.to_nat ((512 - size mod 512) mod 512).

Record TarCounts : Type := { c_bytes : Z; c_files : Z; c_directories : Z }.

#[global] Instance TarCounts_eq_dec : EqDecision TarCounts.
Proof. solve_decision. Defined.

(** ** Writing *)

Record metadata : Type := { perm_mode : Z; modified : option Z }.

(** The modification time is in seconds since the epoch, negative before it,
    and may be unavailable. *)
Definition meta_modified_secs (m : metadata) : Z :=
  match modified m with Some t => if 0 <=? t then t else 0 | None => 0 end.

(** Names are the bytes of the [OsString]; [content] is what reading the file
    gives, in chunks. *)
Inductive lnode : Type :=
  | LFile (m : metadata) (len : Z) (content : reader)
  | LDir (m : metadata) (entries : list (bytes * lnode))
  | LSymlink
  | LOther.

Record EntryInfo : Type := { path : lnode; name : str }.

(** [str::cmp] compares the bytes. *)
Fixpoint bytes_leb (a b : bytes) : bool :=
  match a, b with
  | [], _ => true
  | _ :: _, [] => false
  | x :: a, y :: b => if x =? y then bytes_leb a b else x <? y
  end.

(** [slice::sort_by], a stable sort. *)
Fixpoint insert_by {A} (key : A -> str) (x : A) (l : list A) : list A :=
  match l with
  | [] => [x]
  | y :: l => if bytes_leb (utf8_encode (key x)) (utf8_encode (key y)) then x :: y :: l else y :: insert_by key x l
  end.
Definition sort_by {A} (key : A -> str) (l : list A) : list A := foldr (insert_by key) [] l.

Definition read_entries (entries : list (bytes * lnode)) : list EntryInfo :=
  sort_by name ((fun e => {| path := snd e; name := from_utf8_lossy (fst e) |}) <$> entries).

Record Frame : Type := { entries : list EntryInfo; prefix : str; idx : nat }.

Definition archive_path (prefix name : str) : str :=
  if str_eqb prefix [] then name else prefix ++ [SLASH] ++ name.

(** The two kinds of entries; the written stream is [out] and what follows. *)
Definition write_dir_entry (path : str) (m : metadata) (out : bytes) (counts : TarCounts) :
    result TarCounts SshMcpError * bytes :=
  match write_header (path ++ [SLASH]) 0 (perm_mode m) (meta_modified_secs m) 53 with
  | Err e => (Err e, out)
  | Ok h => (Ok {| c_bytes := c_bytes counts; c_files := c_files counts; c_directories := c_directories counts + 1 |},
             out ++ h)
  end.

Definition write_file_entry (path : str) (m : metadata) (size : Z) (content : reader) (out : bytes) (counts : TarCounts) :
    result TarCounts SshMcpError * bytes :=
  match write_header path size (perm_mode m) (meta_modified_secs m) 48 with
  | Err e => (Err e, out)
  | Ok h =>
      let '(complete, data, _) := read_loop COPY_BUFFER (Z.to_nat size) (Z.to_nat size) content [] in
      if complete then
        (Ok {| c_bytes := c_bytes counts + Z.of_nat (length data); c_files := c_files counts + 1;
               c_directories := c_directories counts |},
         out ++ h ++ data ++ replicate (pad_len size) 0)
      else (Err (Connection (lit "unexpected EOF while reading local file")), out ++ h ++ data)
  end.

Definition symlink_error : SshMcpError :=
  InvalidParams (lit "symlinks are not supported by transfer tar in this iteration").
Definition other_error : SshMcpError := InvalidParams (lit "unsupported file type in directory transfer").

(** The loop over the stack of frames; its head is [stack.last_mut()]. *)
Fixpoint write_loop (fuel : nat) (stack : list Frame) (out : bytes) (counts : TarCounts) :
    option (result TarCounts SshMcpError * bytes) :=
  match fuel with
  | O => None
  | S fuel =>
      match stack with
      | [] => Some (Ok counts, out ++ replicate TAR_BLOCK 0 ++ replicate TAR_BLOCK 0)
      | frame :: below =>
          match entries frame !! idx frame with
          | None => write_loop fuel below out counts
          | Some item =>
              let frame := {| entries := entries frame; prefix := prefix frame; idx := S (idx frame) |} in
              let archive := archive_path (prefix frame) (name item) in
              match path item with
              | LSymlink => Some (Err symlink_error, out)
              | LDir m es =>
                  match write_dir_entry archive m out counts with
                  | (Err e, out) => Some (Err e, out)
                  | (Ok counts, out) =>
                      write_loop fuel ({| entries := read_entries es; prefix := archive; idx := 0 |} :: frame :: below) out counts
                  end
              | LFile m size content =>
                  match write_file_entry archive m size content out counts with
                  | (Err e, out) => Some (Err e, out)
                  | (Ok counts, out) => write_loop fuel (frame :: below) out counts
                  end
              | LOther => Some (Err other_error, out)
              end
          end
      end
  end.

(** The number of rounds a node needs: one for its entry and, for a
    directory, one to leave it. *)
Fixpoint rounds (x : lnode) : nat :=
  match x with
  | LDir _ es => 2 + sum_list (map (fun e => rounds (snd e)) es)
  | _ => 1
  end.

Definition zero_counts : TarCounts := {| c_bytes := 0; c_files := 0; c_directories := 0 |}.

Definition write_dir_as_tar (root : lnode) : option (result TarCounts SshMcpError * bytes) :=
  match root with
  | LDir _ es => write_loop (rounds root) [{| entries := read_entries es; prefix := []; idx := 0 |}] [] zero_counts
  | _ => Some (Err (InvalidParams (lit "local_path is not a directory")), [])
  end.

(** ** The file system that is filled *)

Inductive fnode : Type :=
  | FDir
  | FFile (content : bytes).

#[global] Instance fnode_eq_dec : EqDecision fnode.
Proof. solve_decision. Defined.

Notation filesystem := (gmap (list str) fnode) (only parsing).

Definition is_file (fs : filesystem) (p : list str) : bool :=
  match fs !! p with Some (FFile _) => true | _ => false end.

Definition add_dir (fs : filesystem) (p : list str) : filesystem :=
  match fs !! p with None => <[p := FDir]> fs | Some _ => fs end.

(** The paths on the way to [p], [p] included. *)
Definition prefixes (p : list str) : list (list str) := (fun k => take k p) <$> seq 1 (length p).

Definition ENOTDIR : SshMcpError := Io (lit "Not a directory (os error 20)").
Definition EEXIST : SshMcpError := Io (lit "File exists (os error 17)").
Definition EISDIR : SshMcpError := Io (lit "Is a directory (os error 21)").

(** [fs::create_dir_all]: a file on the way fails before anything is created. *)
Definition create_dir_all (p : list str) (fs : filesystem) : result filesystem SshMcpError :=
  if existsb (is_file fs) (prefixes (removelast p)) then Err ENOTDIR
  else if existsb (is_file fs) (prefixes p) then Err EEXIST
  else Ok (foldl add_dir fs (prefixes p)).

(** [fs::File::create], in an existing directory. *)
Definition file_create (p : list str) (fs : filesystem) : result filesystem SshMcpError :=
  match fs !! p with
  | Some FDir => Err EISDIR
  | _ => Ok (<[p := FFile []]> fs)
  end.

(** ** Extracting *)

Section Extract.
(** The text of tokio's error when a stream ends inside [read_exact]. *)
Context (early_eof : str).

Definition tar_read_exact (what : str) (n : nat) (input : reader) : result (bytes * reader) SshMcpError :=
  match read_exact n input with
  | (true, data, input) => Ok (data, input)
  | (false, _, _) => Err (Connection (lit "failed to read tar " ++ what ++ lit ": " ++ early_eof))
  end.

Definition stream_eof : SshMcpError := Connection (lit "unexpected EOF while reading tar stream").

Definition discard_stream_len (remaining : nat) (input : reader) : result reader SshMcpError :=
  match read_loop COPY_BUFFER remaining remaining input [] with
  | (true, _, input) => Ok input
  | (false, _, _) => Err stream_eof
  end.

Definition skip_padding (size : Z) (input : reader) : result reader SshMcpError :=
  if (pad_len size =? 0)%nat then Ok input
  else let? '(_, input) := tar_read_exact (lit "padding") (pad_len size) input in Ok input.

(** An entry whose content is skipped. *)
Definition drain (size : Z) (input : reader) : result reader SshMcpError :=
  let? input := discard_stream_len (Z.to_nat size) input in skip_padding size input.

Definition extract_dir (dest : list str) (size : Z) (input : reader) (fs : filesystem) (counts : TarCounts) :
    filesystem * result (reader * TarCounts) SshMcpError :=
  if negb (size =? 0) then
    (fs, let? _ := drain size input in Err (InvalidParams (lit "tar directory entry must have size 0")))
  else match create_dir_all dest fs with
       | Err e => (fs, Err e)
       | Ok fs =>
           (fs, let? input := skip_padding size input in
                Ok (input, {| c_bytes := c_bytes counts; c_files := c_files counts; c_directories := c_directories counts + 1 |}))
       end.

(** What was copied when the stream ends early stays in the file. *)
Definition extract_file (dest : list str) (size : Z) (input : reader) (fs : filesystem) (counts : TarCounts) :
    filesystem * result (reader * TarCounts) SshMcpError :=
  match create_dir_all (removelast dest) fs with
  | Err e => (fs, Err e)
  | Ok fs =>
      match file_create dest fs with
      | Err e => (fs, Err e)
      | Ok fs =>
          let '(complete, data, input) := read_loop COPY_BUFFER (Z.to_nat size) (Z.to_nat size) input [] in
          let fs := <[dest := FFile data]> fs in
          if complete then
            (fs, let? input := skip_padding size input in
                 Ok (input, {| c_bytes := c_bytes counts + Z.of_nat (length data); c_files := c_files counts + 1;
                               c_directories := c_directories counts |}))
          else (fs, Err stream_eof)
      end
  end.

Definition unsupported_entry : SshMcpError := InvalidParams (lit "unsupported tar entry type in this iteration").

Definition extract_entry (root : list str) (entry : TarEntryHeader) (input : reader) (fs : filesystem)
    (counts : TarCounts) : filesystem * result (reader * TarCounts) SshMcpError :=
  let size := e_size entry in
  match sanitize_tar_path (e_path entry) with
  | Err e =>
      if str_eqb e EMPTY_ENTRY then (fs, let? input := drain size input in Ok (input, counts))
      else (fs, Err (InvalidParams e))
  | Ok rel =>
      let dest := root ++ rel in
      let t := e_typeflag entry in
      if t =? 53 then extract_dir dest size input fs counts
      else if (t =? 48) || (t =? 0) then extract_file dest size input fs counts
      else if (t =? 120) || (t =? 103) then (fs, let? input := drain size input in Ok (input, counts))
      else (fs, let? _ := drain size input in Err unsupported_entry)
  end.

(** The outer loop; every round reads a block, so the length of the stream
    bounds the rounds. *)
Fixpoint extract_loop (fuel : nat) (root : list str) (input : reader) (fs : filesystem) (counts : TarCounts) :
    option (filesystem * result TarCounts SshMcpError) :=
  match fuel with
  | O => None
  | S fuel =>
      match tar_read_exact (lit "header") TAR_BLOCK input with
      | Err e => Some (fs, Err e)
      | Ok (header, input) =>
          if forallb (Z.eqb 0) header then
            Some (fs, let? _ := tar_read_exact (lit "trailer") TAR_BLOCK input in Ok counts)
          else match parse_header header with
               | Err e => Some (fs, Err e)
               | Ok entry =>
                   match extract_entry root entry input fs counts with
                   | (fs, Err e) => Some (fs, Err e)
                   | (fs, Ok (input, counts)) => extract_loop fuel root input fs counts
                   end
               end
      end
  end.

Definition extract_tar_to_dir (root : list str) (input : reader) (fs : filesystem) :
    option (filesystem * result TarCounts SshMcpError) :=
  extract_loop (S (length (concat input))) root input fs zero_counts.

End Extract.

(** ** Streams do not depend on their chunks *)

Definition no_empty (input : reader) : Prop := Forall (fun c => c <> []) input.

Lemma read_spec want input chunk rest :
  read want input = (chunk, rest) ->
  concat input = chunk ++ concat rest /\ (length chunk <= want)%nat /\ (no_empty input -> no_empty rest) /\
  (no_empty input -> (0 < want)%nat -> chunk = [] -> input = []).
Proof.
  destruct input as [|c cs]; intros [= <- <-]; [split_and!; try done; simpl; lia|]. split_and!.
  - destruct (want <? length c)%nat eqn:E; cbn [concat].
    + by rewrite app_assoc, take_drop.
    + apply Nat.ltb_ge in E. by rewrite take_ge.
  - rewrite length_take. lia.
  - intros [Hc Hcs]%Forall_cons. destruct (want <? length c)%nat eqn:E; [|done]. apply Nat.ltb_lt in E.
    constructor; [|done]. intros H%(f_equal length). rewrite length_drop in H. simpl in H. lia.
  - intros [Hc _]%Forall_cons Hw H. destruct c; [done|]. destruct want; [lia|done].
Qed.

(** What is read is taken from the front; everything that was asked for when
    the loop says so, and all there was when it does not. *)
Lemma read_loop_spec cap fuel remaining input got :
  let '(b, got', input') := read_loop cap fuel remaining input got in
  exists taken, got' = got ++ taken /\ concat input = taken ++ concat input' /\
    (b = true -> length taken = remaining) /\ (length taken <= remaining)%nat /\
    (no_empty input -> no_empty input') /\
    (b = false -> no_empty input -> (0 < cap)%nat -> (remaining <= fuel)%nat -> (length (concat input) < remaining)%nat).
Proof.
  revert remaining input got; induction fuel as [|fuel IH]; intros [|remaining] input got; cbn [read_loop].
  1,3: by exists []; rewrite app_nil_r.
  { exists []. rewrite app_nil_r. split_and!; try done; intros; simpl in *; lia. }
  destruct (read (Nat.min (S remaining) cap) input) as [chunk rest] eqn:E.
  apply read_spec in E as (Hc & Hl & Hne & Hend). destruct chunk as [|x chunk]; cbv beta iota.
  { exists []. rewrite app_nil_r. split_and!; try done; [simpl; lia|].
    intros _ H Hcap _. rewrite (Hend H ltac:(lia) eq_refl). simpl. lia. }
  specialize (IH (S remaining - length (x :: chunk))%nat rest (got ++ x :: chunk)).
  change (match length (x :: chunk) with 0 => S remaining | S l => remaining - l end)%nat
    with (S remaining - length (x :: chunk))%nat.
  destruct (read_loop _ _ _ _ _) as [[b got'] input']. destruct IH as (taken & -> & Hr & Hb & Hlen & Hne' & Hend').
  exists ((x :: chunk) ++ taken). rewrite Hc, Hr, !length_app. split_and!.
  - by rewrite app_assoc.
  - by rewrite app_assoc.
  - intros Hbt. rewrite (Hb Hbt). lia.
  - lia.
  - auto.
  - intros Hbf H Hcap Hf. specialize (Hend' Hbf (Hne H) Hcap).
    assert (1 <= length (x :: chunk))%nat by (simpl; lia). rewrite Hr, length_app in Hend'. lia.
Qed.

(** Enough bytes are left: exactly the wanted ones are taken. *)
Lemma read_loop_take cap n input tail data :
  no_empty input -> (0 < cap)%nat -> concat input = data ++ tail -> length data = n ->
  exists input', read_loop cap n n input [] = (true, data, input') /\ concat input' = tail /\ no_empty input'.
Proof.
  intros Hne Hcap Hc Hn. pose proof (read_loop_spec cap n n input []) as H.
  destruct (read_loop cap n n input []) as [[b got] input'].
  destruct H as (taken & -> & Hr & Hb & _ & Hne' & Hend). destruct b.
  - rewrite Hc in Hr. apply app_inj_1 in Hr as [-> ->]; [|rewrite (Hb eq_refl); done]. eauto.
  - specialize (Hend eq_refl Hne Hcap ltac:(lia)). rewrite Hc, length_app in Hend. lia.
Qed.

(** ** Directories *)

(** [p] is an existing directory. *)
Definition dir_chain (fs : filesystem) (p : list str) : Prop :=
  forall q, q <> [] -> q `prefix_of` p -> fs !! q = Some FDir.

(** The directory of every node exists. *)
Definition wf_fs (fs : filesystem) : Prop :=
  forall q n, is_Some (fs !! (q ++ [n])) -> q = [] \/ fs !! q = Some FDir.

Lemma elem_of_prefixes p q : q ∈ prefixes p <-> q <> [] /\ q `prefix_of` p.
Proof.
  unfold prefixes. rewrite list_elem_of_fmap. setoid_rewrite elem_of_seq. split.
  - intros (k & -> & Hk). split; [destruct p, k; simpl in *; try done; lia|]. apply prefix_take.
  - intros [Hq [r ->]]. exists (length q). rewrite take_app_length, length_app. split; [done|].
    destruct q; [done|]. simpl. lia.
Qed.

Lemma add_dirs_lookup l fs q :
  foldl add_dir fs l !! q =
  match fs !! q with Some n => Some n | None => if bool_decide (q ∈ l) then Some FDir else None end.
Proof.
  revert fs; induction l as [|p l IH]; intros fs; cbn [foldl].
  { rewrite bool_decide_eq_false_2 by apply not_elem_of_nil. by destruct (fs !! q). }
  rewrite IH. unfold add_dir. destruct (fs !! p) eqn:E.
  - destruct (fs !! q) eqn:F; [done|]. rewrite (bool_decide_ext (q ∈ l) (q ∈ p :: l)); [done|]. rewrite elem_of_cons. split; [auto|].
    intros [->|]; [congruence|done].
  - destruct (decide (p = q)) as [->|D].
    + rewrite lookup_insert_eq, E. by rewrite bool_decide_eq_true_2 by (by left).
    + rewrite lookup_insert_ne by done. destruct (fs !! q); [done|]. rewrite (bool_decide_ext (q ∈ l) (q ∈ p :: l)); [done|]. rewrite elem_of_cons. split; [auto|].
      intros [->|]; [congruence|done].
Qed.

Lemma create_dir_all_ok p fs fs' :
  create_dir_all p fs = Ok fs' ->
  (forall q, fs' !! q = match fs !! q with
                        | Some n => Some n
                        | None => if bool_decide (q ∈ prefixes p) then Some FDir else None
                        end) /\
  dir_chain fs' p.
Proof.
  unfold create_dir_all. destruct (existsb _ _) eqn:E; [done|]. clear E. destruct (existsb _ _) eqn:E; [done|].
  intros [= <-]. split; [intros q; apply add_dirs_lookup|].
  intros q Hq Hp. assert (Hin : q ∈ prefixes p) by (by apply elem_of_prefixes).
  rewrite add_dirs_lookup, bool_decide_eq_true_2 by done.
  assert (Hnf : is_file fs q = false).
  { apply not_true_iff_false. intros Ht. apply not_true_iff_false in E. apply E, existsb_exists.
    exists q. split; [by apply list_elem_of_In|done]. }
  unfold is_file in Hnf. by destruct (fs !! q) as [[]|].
Qed.

Lemma create_dir_all_wf p fs fs' : create_dir_all p fs = Ok fs' -> wf_fs fs -> wf_fs fs'.
Proof.
  intros [Hl Hd]%create_dir_all_ok Hwf q n [x Hx]. destruct (decide (q = [])) as [?|Hq]; [by left|]. right.
  rewrite Hl in Hx. destruct (fs !! (q ++ [n])) eqn:E.
  - destruct (Hwf q n) as [?|Hd']; [by rewrite E|done|]. by rewrite Hl, Hd'.
  - case_bool_decide as Hin; [|done]. apply elem_of_prefixes in Hin as [_ Hp]. apply Hd; [done|].
    etrans; [|exact Hp]. by eexists.
Qed.

Lemma file_insert_wf p c fs : p <> [] -> fs !! p <> Some FDir -> dir_chain fs (removelast p) -> wf_fs fs -> wf_fs (<[p := FFile c]> fs).
Proof.
  intros Hp Hf Hd Hwf q n Hx. destruct (decide (q = [])) as [?|Hq]; [by left|]. right.
  assert (H : fs !! q = Some FDir).
  { destruct (decide (p = q ++ [n])) as [->|Hne].
    - rewrite removelast_last in Hd. by apply Hd.
    - rewrite lookup_insert_ne in Hx by done. by destruct (Hwf q n Hx). }
  rewrite lookup_insert_ne by (intros ->; congruence). done.
Qed.

(** ** What extraction may change *)

Definition strictly_below (root p : list str) : Prop := exists n ns, p = root ++ n :: ns.

(** Everything that is not below [root] is as before, new and changed nodes
    have ordinary names, and no directory is lost. *)
Record confined (root : list str) (fs fs' : filesystem) : Prop := {
  outside_kept : forall q, ~ strictly_below root q -> fs' !! q = fs !! q;
  names_plain : forall names, fs' !! (root ++ names) <> fs !! (root ++ names) -> Forall plain_name names;
  dirs_kept : forall q, fs !! q = Some FDir -> fs' !! q = Some FDir;
  wf_kept : wf_fs fs -> wf_fs fs'
}.

#[global] Instance confined_preorder root : PreOrder (confined root).
Proof.
  split; [by split|]. intros a b c [H1 H2 H3 H4] [K1 K2 K3 K4]. split; auto.
  - intros q Hq. by rewrite K1, H1.
  - intros names H. destruct (decide (b !! (root ++ names) = a !! (root ++ names))); [|auto]. apply K2. congruence.
Qed.

Lemma dir_chain_confined root fs fs' : dir_chain fs root -> confined root fs fs' -> dir_chain fs' root.
Proof. intros H C q Hq Hp. apply (dirs_kept _ _ _ C). by apply H. Qed.

Lemma create_dir_all_confined root rel fs fs' :
  dir_chain fs root -> Forall plain_name rel -> create_dir_all (root ++ rel) fs = Ok fs' -> confined root fs fs'.
Proof.
  intros Hr Hrel Hc. pose proof Hc as [Hl _]%create_dir_all_ok.
  assert (Hnew : forall q, fs' !! q <> fs !! q -> exists ns, q = root ++ ns /\ ns <> [] /\ Forall plain_name ns).
  { intros q. rewrite Hl. destruct (fs !! q) eqn:E; [done|]. case_bool_decide as Hin; [|done]. intros _.
    apply elem_of_prefixes in Hin as [Hq Hp]. destruct Hp as [tail Ht].
    destruct (decide (q `prefix_of` root)) as [Hqr|Hqr]; [rewrite (Hr q Hq Hqr) in E; done|].
    apply app_eq_inv in Ht as [(k & -> & _)|(k & -> & ->)]; [destruct Hqr; by eexists|].
    exists k. split_and!; [done|intros ->; destruct Hqr; by rewrite app_nil_r|]. by apply Forall_app in Hrel as [? _]. }
  split.
  - intros q Hq. destruct (decide (fs' !! q = fs !! q)) as [|Hne]; [done|].
    destruct (Hnew q Hne) as ([|n ns] & -> & ? & _); [done|]. destruct Hq. by eexists _, _.
  - intros names Hne. destruct (Hnew _ Hne) as (ns & E & _ & ?). apply app_inv_head in E. by subst.
  - intros q Hq. by rewrite Hl, Hq.
  - by eapply create_dir_all_wf.
Qed.

Lemma file_insert_confined root rel c fs :
  rel <> [] -> Forall plain_name rel -> fs !! (root ++ rel) <> Some FDir -> dir_chain fs (removelast (root ++ rel)) ->
  confined root fs (<[root ++ rel := FFile c]> fs).
Proof.
  intros Hne Hrel Hf Hd. split.
  - intros q Hq. rewrite lookup_insert_ne; [done|]. intros <-. destruct rel; [done|]. destruct Hq. by eexists _, _.
  - intros names H. destruct (decide (root ++ rel = root ++ names)) as [D|D]; [by apply app_inv_head in D as <-|].
    by rewrite lookup_insert_ne in H.
  - intros q Hq. rewrite lookup_insert_ne; [done|]. intros <-. done.
  - apply file_insert_wf; try done. by destruct root, rel.
Qed.

(** ** Extraction stays below its root *)

Section Confined.
Context (early_eof : str).

Lemma tar_read_exact_ok what n input data rest :
  tar_read_exact early_eof what n input = Ok (data, rest) -> concat input = data ++ concat rest /\ length data = n.
Proof.
  unfold tar_read_exact, read_exact. pose proof (read_loop_spec n n n input []) as H.
  destruct (read_loop n n n input []) as [[[] got] input']; intros [=]; subst.
  destruct H as (taken & -> & ? & Hb & _). auto.
Qed.

Lemma skip_padding_shorter size input rest :
  skip_padding early_eof size input = Ok rest -> (length (concat rest) <= length (concat input))%nat.
Proof.
  unfold skip_padding. destruct (_ =? _)%nat; [intros [= ->]; lia|].
  destruct (tar_read_exact _ _ _ _) as [[data input']|] eqn:E; [|done]. intros [= ->].
  apply tar_read_exact_ok in E as [-> _]. rewrite length_app. lia.
Qed.

Lemma drain_shorter size input rest :
  drain early_eof size input = Ok rest -> (length (concat rest) <= length (concat input))%nat.
Proof.
  unfold drain, discard_stream_len. pose proof (read_loop_spec COPY_BUFFER (Z.to_nat size) (Z.to_nat size) input []) as H.
  destruct (read_loop _ _ _ _ _) as [[[] got] input']; [|done]. cbn [rbind]. intros Hs%skip_padding_shorter.
  destruct H as (taken & _ & -> & _). rewrite length_app. lia.
Qed.

(** A step keeps to the root and does not lengthen the stream. *)
Definition good_step (root : list str) (input : reader) (fs : filesystem)
    (out : filesystem * result (reader * TarCounts) SshMcpError) : Prop :=
  confined root fs (fst out) /\
  forall input' counts', snd out = Ok (input', counts') -> (length (concat input') <= length (concat input))%nat.

Lemma drain_step root input fs size counts :
  good_step root input fs (fs, let? input := drain early_eof size input in Ok (input, counts)).
Proof.
  split; [done|]. intros input' c' H. cbn in H. destruct (drain _ _ _) eqn:E; [|done]. injection H as -> ->.
  by apply drain_shorter in E.
Qed.

Lemma stop_step root input fs e : good_step root input fs (fs, Err e).
Proof. by split. Qed.

Lemma extract_dir_step root rel size input fs counts :
  dir_chain fs root -> Forall plain_name rel ->
  good_step root input fs (extract_dir early_eof (root ++ rel) size input fs counts).
Proof.
  intros Hr Hrel. unfold extract_dir. destruct (negb _).
  { split; [done|]. intros ? ? H. cbn in H. by destruct (drain _ _ _). }
  destruct (create_dir_all _ fs) as [fs'|e] eqn:E; [|apply stop_step].
  split; [by eapply create_dir_all_confined|]. intros input' c' H. cbn in H.
  destruct (skip_padding _ _ _) eqn:Es; [|done]. injection H as -> _. by apply skip_padding_shorter in Es.
Qed.

Lemma extract_file_step root rel size input fs counts :
  dir_chain fs root -> rel <> [] -> Forall plain_name rel ->
  good_step root input fs (extract_file early_eof (root ++ rel) size input fs counts).
Proof.
  intros Hr Hne Hrel. unfold extract_file.
  destruct (create_dir_all _ fs) as [fs1|e] eqn:E; [|apply stop_step].
  pose proof (create_dir_all_ok _ _ _ E) as [_ Hchain].
  assert (Hc : confined root fs fs1).
  { rewrite removelast_app in E by done. eapply create_dir_all_confined; [done| |done].
    rewrite (app_removelast_last [] Hne), Forall_app in Hrel. apply Hrel. }
  unfold file_create. destruct (fs1 !! (root ++ rel)) as [[|c]|] eqn:F; [by split|..].
  all: pose proof (read_loop_spec COPY_BUFFER (Z.to_nat size) (Z.to_nat size) input []) as Hl;
    destruct (read_loop _ _ _ _ _) as [[b data] input1]; destruct Hl as (taken & _ & Ht & _);
    rewrite insert_insert_eq.
  all: assert (Hf : confined root fs (<[root ++ rel := FFile data]> fs1)) by
    (etrans; [exact Hc|]; apply file_insert_confined; [done|done|congruence|done]).
  all: destruct b; split; try exact Hf; try done.
  all: intros input' c' H; cbn in H; destruct (skip_padding _ _ _) eqn:Es; [|done]; injection H as -> _;
    apply skip_padding_shorter in Es; rewrite Ht, length_app; lia.
Qed.

Lemma extract_entry_step root entry input fs counts :
  dir_chain fs root -> good_step root input fs (extract_entry early_eof root entry input fs counts).
Proof.
  intros Hr. unfold extract_entry. destruct (sanitize_tar_path (e_path entry)) as [rel|e] eqn:E.
  - apply sanitize_tar_path_plain in E as [Hne Hrel].
    destruct (_ =? 53); [by apply extract_dir_step|]. destruct (_ || _); [by apply extract_file_step|].
    destruct (_ || _); [apply drain_step|]. split; [done|]. intros ? ? H. cbn in H. by destruct (drain _ _ _).
  - destruct (str_eqb _ _); [apply drain_step|apply stop_step].
Qed.

Lemma extract_loop_confined fuel root input fs counts :
  dir_chain fs root -> (length (concat input) < fuel)%nat ->
  exists fs' r, extract_loop early_eof fuel root input fs counts = Some (fs', r) /\ confined root fs fs'.
Proof.
  revert input fs counts; induction fuel as [|fuel IH]; intros input fs counts Hr Hf; [lia|]. cbn [extract_loop].
  destruct (tar_read_exact _ _ _ input) as [[header input1]|e] eqn:E; [|by eexists _, _].
  apply tar_read_exact_ok in E as [Hi Hh]. destruct (forallb _ header); [by eexists _, _|].
  destruct (parse_header header) as [entry|e]; [|by eexists _, _].
  destruct (extract_entry_step root entry input1 fs counts Hr) as [Hc Hs].
  destruct (extract_entry _ _ _ _ _ _) as [fs1 [[input2 counts2]|e]]; cbn [fst snd] in *; [|by eexists _, _].
  specialize (Hs _ _ eq_refl).
  assert (length header = 512%nat) by done. rewrite Hi, length_app in Hf.
  destruct (IH input2 fs1 counts2) as (fs' & r & -> & Hc'); [by eapply dir_chain_confined|lia|].
  exists fs', r. split; [done|]. by etrans.
Qed.

(** C16. Extraction terminates on every stream and never leaves its root: all
    that is not strictly below the root is as before, whatever is new or
    changed below it has a path of ordinary names (no empty name, no [.], no
    [..], no separator), directories are not replaced, and no node ends up
    without its directory. *)
Theorem extract_confined (root : list str) (input : list bytes) (fs : gmap (list str) fnode)
    (Hroot : dir_chain fs root) :
  exists fs' r, extract_tar_to_dir early_eof root input fs = Some (fs', r) /\
    (forall q, ~ strictly_below root q -> fs' !! q = fs !! q) /\
    (forall names, fs' !! (root ++ names) <> fs !! (root ++ names) -> Forall plain_name names) /\
    (forall q, fs !! q = Some FDir -> fs' !! q = Some FDir) /\
    (wf_fs fs -> wf_fs fs').
Proof.
  destruct (extract_loop_confined (S (length (concat input))) root input fs zero_counts Hroot) as (fs' & r & E & []);
    [lia|]. by exists fs', r.
Qed.

End Confined.

(** The root [/r], filled from an archive whose entry tries to leave it. *)
Lemma extract_confined_witness :
  exists fs' r,
    extract_tar_to_dir (lit "early eof") [lit "r"]
      [match write_header (lit "a/../../x") 0 420 0 48 with Ok h => h | Err _ => [] end] {[ [lit "r"] := FDir ]} = Some (fs', r) /\
    fs' !! [lit "x"] = None.
Proof.
  destruct (extract_confined (lit "early eof") [lit "r"]
      [match write_header (lit "a/../../x") 0 420 0 48 with Ok h => h | Err _ => [] end] {[ [lit "r"] := FDir ]})
    as (fs' & r & E & Hout & _).
  - intros q Hq [k Hk]. destruct q as [|a [|b q]]; [done| |done]. injection Hk as <- _. reflexivity.
  - exists fs', r. split; [exact E|]. rewrite Hout; [reflexivity|]. intros (n & ns & H). discriminate H.
Defined.
