(* ===== verification/TarTree.v ===== *)
(** * Sending and receiving a directory

    The writer of Tar as a list of events, the tree a stream describes, and
    the round trip: extracting what was written gives the tree back. *)
From Stdlib Require Import ZArith String.
From stdpp Require Import base list gmap.
From S2P Require Import Prelude Errors Utf8 Paths TarHeader Tar.

(** ** The writer as a list of events *)

Inductive event : Type :=
  | EvDir (path : str) (m : metadata)
  | EvFile (path : str) (m : metadata) (len : Z) (content : list bytes)
  | EvBad (e : SshMcpError).

(** Depth first, the entries of a directory in the order of their names. *)
Fixpoint events (path : str) (x : lnode) : list event :=
  match x with
  | LFile m len content => [EvFile path m len content]
  | LDir m es =>
      EvDir path m :: concat (snd <$> sort_by fst
        (map (fun e => let n := from_utf8_lossy (fst e) in (n, events (archive_path path n) (snd e))) es))
  | LSymlink => [EvBad symlink_error]
  | LOther => [EvBad other_error]
  end.

Definition emit (ev : event) (out : bytes) (counts : TarCounts) : result TarCounts SshMcpError * bytes :=
  match ev with
  | EvDir p m => write_dir_entry p m out counts
  | EvFile p m len content => write_file_entry p m len content out counts
  | EvBad e => (Err e, out)
  end.

Fixpoint run_events (evs : list event) (out : bytes) (counts : TarCounts) : result TarCounts SshMcpError * bytes :=
  match evs with
  | [] => (Ok counts, out ++ replicate TAR_BLOCK 0 ++ replicate TAR_BLOCK 0)
  | ev :: evs =>
      match emit ev out counts with
      | (Err e, out) => (Err e, out)
      | (Ok counts, out) => run_events evs out counts
      end
  end.

Definition item_events (prefix : str) (it : EntryInfo) : list event := events (archive_path prefix (name it)) (path it).
Definition frame_events (f : Frame) : list event := concat (item_events (prefix f) <$> drop (idx f) (entries f)).
Definition stack_events (st : list Frame) : list event := concat (frame_events <$> st).

Lemma insert_by_fmap {A B} (key : A -> str) (key' : B -> str) (h : A -> B) x l :
  (forall a, key' (h a) = key a) -> insert_by key' (h x) (h <$> l) = h <$> insert_by key x l.
Proof.
  intros H. induction l as [|y l IH]; [done|]. cbn. rewrite !H. destruct (bytes_leb _ _); [done|]. cbn. by rewrite <- IH.
Qed.

Lemma sort_by_fmap {A B} (key : A -> str) (key' : B -> str) (h : A -> B) l :
  (forall a, key' (h a) = key a) -> sort_by key' (h <$> l) = h <$> sort_by key l.
Proof.
  intros H. induction l as [|x l IH]; [done|]. unfold sort_by in *. cbn. rewrite IH. by apply insert_by_fmap.
Qed.

Lemma insert_by_perm {A} (key : A -> str) x l : insert_by key x l ≡ₚ x :: l.
Proof.
  induction l as [|y l IH]; [done|]. cbn. destruct (bytes_leb _ _); [done|]. rewrite IH. apply Permutation_swap.
Qed.

Lemma sort_by_perm {A} (key : A -> str) l : sort_by key l ≡ₚ l.
Proof. induction l as [|x l IH]; [done|]. unfold sort_by in *. cbn. by rewrite insert_by_perm, IH. Qed.

(** Entering a directory puts its events before the others. *)
Lemma events_dir p m es :
  events p (LDir m es) = EvDir p m :: frame_events {| entries := read_entries es; prefix := p; idx := 0 |}.
Proof.
  cbn [events]. f_equal. unfold frame_events. cbn [entries prefix idx]. rewrite drop_0. f_equal.
  set (h := fun it => (name it, item_events p it)).
  transitivity (snd <$> (h <$> read_entries es)); [|by rewrite <- list_fmap_compose].
  f_equal. unfold read_entries. rewrite <- (sort_by_fmap name fst h) by done. f_equal.
  rewrite <- list_fmap_compose. done.
Qed.

Definition item_rounds (it : EntryInfo) : nat := rounds (path it).
Definition frame_rounds (f : Frame) : nat := S (sum_list_with item_rounds (drop (idx f) (entries f))).

Lemma rounds_dir m es : rounds (LDir m es) = S (frame_rounds {| entries := read_entries es; prefix := []; idx := 0 |}).
Proof.
  cbn [rounds]. unfold frame_rounds. cbn [entries idx]. rewrite drop_0. cbn [Nat.add]. do 2 f_equal.
  unfold read_entries. rewrite sort_by_perm. induction es as [|e es IH]; [done|]. cbn. by rewrite IH.
Qed.

(** The loop does what the events say, and the fuel is enough. *)
Lemma write_loop_events fuel st out counts :
  (sum_list_with frame_rounds st < fuel)%nat ->
  write_loop fuel st out counts = Some (run_events (stack_events st) out counts).
Proof.
  revert st out counts; induction fuel as [|fuel IH]; intros st out counts Hf; [lia|]. cbn [write_loop].
  destruct st as [|[es p i] st]; [done|]. cbn [entries idx prefix].
  unfold stack_events. cbn [fmap list_fmap concat]. unfold frame_events at 1. cbn [entries idx prefix].
  cbn [sum_list_with] in Hf. unfold frame_rounds at 1 in Hf. cbn [entries idx] in Hf.
  destruct (es !! i) as [it|] eqn:E.
  2:{ rewrite drop_ge by (by apply lookup_ge_None). cbn [fmap list_fmap concat app]. apply IH. lia. }
  rewrite (drop_S es it i E) in Hf |- *. cbn [fmap list_fmap concat sum_list_with] in Hf |- *.
  set (f := {| entries := es; prefix := p; idx := S i |}).
  assert (Hrest : concat (item_events p <$> drop (S i) es) ++ concat (frame_events <$> st) = stack_events (f :: st)) by done.
  rewrite <- app_assoc, Hrest. unfold item_events at 1. unfold item_rounds at 1 in Hf.
  assert (Hfr : sum_list_with frame_rounds (f :: st) =
    S (sum_list_with item_rounds (drop (S i) es) + sum_list_with frame_rounds st)%nat) by done.
  destruct (path it) as [m len content|m kids| |]; [| |done|done].
  - cbn [events app run_events emit]. destruct (write_file_entry _ _ _ _ _ _) as [[c|e] o]; [|done].
    apply IH. rewrite Hfr. cbn [rounds] in Hf. lia.
  - rewrite events_dir. cbn [app run_events emit]. destruct (write_dir_entry _ _ _ _) as [[c|e] o]; [|done].
    change (frame_events ?g ++ stack_events (f :: st)) with (stack_events (g :: f :: st)). apply IH.
    change (sum_list_with frame_rounds (?g :: f :: st)) with (frame_rounds g + sum_list_with frame_rounds (f :: st))%nat.
    rewrite Hfr. rewrite rounds_dir in Hf.
    change (frame_rounds {| entries := read_entries kids; prefix := archive_path p (name it); idx := 0 |})
      with (frame_rounds {| entries := read_entries kids; prefix := []; idx := 0 |}). lia.
Qed.

Lemma write_dir_as_tar_events m es :
  write_dir_as_tar (LDir m es) =
  Some (run_events (frame_events {| entries := read_entries es; prefix := []; idx := 0 |}) [] zero_counts).
Proof.
  unfold write_dir_as_tar. rewrite write_loop_events.
  - unfold stack_events. cbn [fmap list_fmap concat]. by rewrite app_nil_r.
  - rewrite rounds_dir. cbn [sum_list_with]. lia.
Qed.

(** ** The tree that arrives *)

Definition entry_info (e : bytes * lnode) : EntryInfo := {| path := snd e; name := from_utf8_lossy (fst e) |}.

Fixpoint find_item (n : str) (its : list EntryInfo) : option lnode :=
  match its with
  | [] => None
  | it :: its => if str_eqb (name it) n then Some (path it) else find_item n its
  end.

(** What a sent tree holds at a relative path: the first [len] bytes of a
    file, the length its metadata announced. *)
Fixpoint view (x : lnode) (names : list str) : option fnode :=
  match names with
  | [] => match x with
          | LFile _ len content => Some (FFile (take (Z.to_nat len) (concat content)))
          | LDir _ _ => Some FDir
          | _ => None
          end
  | n :: names => match x with
                  | LDir _ es => y ← find_item n (entry_info <$> es); view y names
                  | _ => None
                  end
  end.

(** File names that are UTF-8 text, as they come from a directory: not empty,
    not [.] or [..], without separator and NUL. *)
Definition good_name (n : bytes) : Prop := exists s, n = utf8_encode s /\ tar_text s /\ plain_name s.

(** Trees within the format's bounds; links are allowed here, the writer
    refuses them. *)
Inductive sendable : lnode -> Prop :=
  | sendable_file m len content : 0 <= len < 8 ^ 11 -> no_empty content -> sendable (LFile m len content)
  | sendable_dir m es :
      NoDup (fst <$> es) -> Forall (fun e => good_name (fst e)) es -> Forall (fun e => sendable (snd e)) es ->
      sendable (LDir m es)
  | sendable_link : sendable LSymlink
  | sendable_other : sendable LOther.

(** Induction with the hypothesis for every entry of a directory. *)
Section Induction.
Context (P : lnode -> Prop).
Hypothesis (Hfile : forall m len content, P (LFile m len content)) (Hlink : P LSymlink) (Hother : P LOther).
Hypothesis (Hdir : forall m es, Forall (fun e => P (snd e)) es -> P (LDir m es)).

Fixpoint lnode_tree_ind (x : lnode) : P x :=
  match x with
  | LFile m len content => Hfile m len content
  | LDir m es =>
      Hdir m es ((fix go (l : list (bytes * lnode)) : Forall (fun e => P (snd e)) l :=
        match l with
        | [] => List.Forall_nil _
        | e :: l => @List.Forall_cons _ _ _ _ (lnode_tree_ind (snd e)) (go l)
        end) es)
  | LSymlink => Hlink
  | LOther => Hother
  end.
End Induction.

Lemma find_item_Some n its y :
  NoDup (name <$> its) -> find_item n its = Some y <-> {| path := y; name := n |} ∈ its.
Proof.
  induction its as [|[p m] its IH]; cbn [fmap list_fmap find_item name path]; intros Hnd.
  { split; [done|]. by intros ?%elem_of_nil. }
  apply NoDup_cons in Hnd as [Hn Hnd]. rewrite elem_of_cons. destruct (str_eqb m n) eqn:E.
  - apply str_eqb_spec in E as ->. split; [intros [= ->]; by left|]. intros [[= ->]|H]; [done|].
    destruct Hn. apply list_elem_of_fmap. by exists {| path := y; name := n |}.
  - rewrite IH by done. split; [auto|]. intros [[= -> ->]|?]; [|done]. by rewrite str_eqb_refl in E.
Qed.

Lemma find_item_perm n a b : NoDup (name <$> a) -> a ≡ₚ b -> find_item n a = find_item n b.
Proof.
  intros Ha Hp. assert (Hb : NoDup (name <$> b)) by (by rewrite <- Hp). apply option_eq. intros y.
  by rewrite !find_item_Some, Hp.
Qed.

Lemma entry_names_NoDup es :
  NoDup (fst <$> es) -> Forall (fun e => good_name (fst e)) es -> NoDup (name <$> (entry_info <$> es)).
Proof.
  intros Hnd Hg. induction es as [|[n x] es IH]; [constructor|]. cbn in *.
  apply NoDup_cons in Hnd as [Hn Hnd]. apply Forall_cons in Hg as [(s & Hs & Ht & _) Hg]. cbn in Hs.
  constructor; [|by apply IH]. intros Hin. apply Hn. apply list_elem_of_fmap in Hin as (it & E & Hit).
  apply list_elem_of_fmap in Hit as ([n' x'] & -> & He). rewrite Forall_forall in Hg.
  destruct (Hg _ He) as (s' & Hs' & Ht' & _).
  change (from_utf8_lossy n = from_utf8_lossy n') in E. cbn [fst] in Hs'. subst.
  rewrite !from_utf8_lossy_encode in E by apply Ht || apply Ht'. subst.
  apply list_elem_of_fmap. by exists (utf8_encode s', x').
Qed.

(** ** Extracting what was written *)

Section RoundTrip.
Context (early_eof : str) (root : list str).

(** Extracting the bytes [b] takes the tree and the counts from one state to
    another and leaves what follows them unread. *)
Definition extracts (b : bytes) (fs : gmap (list str) fnode) (c : TarCounts) (fs' : gmap (list str) fnode) (c' : TarCounts) : Prop :=
  exists k, (k <= length b)%nat /\
    forall fuel tail input, no_empty input -> concat input = b ++ tail ->
      exists input', extract_loop early_eof (k + fuel) root input fs c = extract_loop early_eof fuel root input' fs' c' /\
        no_empty input' /\ concat input' = tail.

Lemma extracts_nil fs c : extracts [] fs c fs c.
Proof. exists 0%nat. split; [done|]. intros fuel tail input Hne Hc. by exists input. Qed.

Lemma extracts_app b b' fs c fs1 c1 fs2 c2 :
  extracts b fs c fs1 c1 -> extracts b' fs1 c1 fs2 c2 -> extracts (b ++ b') fs c fs2 c2.
Proof.
  intros (k & Hk & H) (k' & Hk' & H'). exists (k + k')%nat. rewrite length_app. split; [lia|].
  intros fuel tail input Hne Hc. rewrite <- app_assoc in Hc.
  destruct (H (k' + fuel)%nat _ _ Hne Hc) as (i1 & E1 & Hne1 & Hc1).
  destruct (H' fuel tail i1 Hne1 Hc1) as (i2 & E2 & Hne2 & Hc2).
  exists i2. by rewrite <- Nat.add_assoc, E1, E2.
Qed.

(** A header block that was written starts a round for its entry. *)
Lemma extract_header path size m mtime t h fuel input tail fs c :
  write_header path size m mtime t = Ok h -> is_absolute path = false -> tar_text path ->
  0 <= size < 8 ^ 11 -> is_byte t -> no_empty input -> concat input = h ++ tail ->
  exists input1, no_empty input1 /\ concat input1 = tail /\
    extract_loop early_eof (S fuel) root input fs c =
      match extract_entry early_eof root {| e_path := path; e_size := size; e_typeflag := t |} input1 fs c with
      | (fs, Err e) => Some (fs, Err e)
      | (fs, Ok (input, c)) => extract_loop early_eof fuel root input fs c
      end.
Proof.
  intros Hw Ha Ht Hs Hb Hne Hc. destruct (parse_write_header _ _ _ _ _ _ Hw Ha Ht Hs Hb) as (Hl & Hz & Hp).
  destruct (read_loop_take TAR_BLOCK TAR_BLOCK input tail h Hne ltac:(unfold TAR_BLOCK; lia) Hc Hl) as (input1 & E & Hc1 & Hne1).
  exists input1. split_and!; [done..|]. cbn [extract_loop]. unfold tar_read_exact, read_exact. by rewrite E, Hz, Hp.
Qed.

Lemma skip_padding_exact size input tail :
  no_empty input -> concat input = replicate (pad_len size) 0 ++ tail ->
  exists input', skip_padding early_eof size input = Ok input' /\ no_empty input' /\ concat input' = tail.
Proof.
  intros Hne Hc. unfold skip_padding. destruct (Nat.eqb_spec (pad_len size) 0) as [E|E].
  { rewrite E in Hc. by exists input. }
  destruct (read_loop_take (pad_len size) (pad_len size) input tail (replicate (pad_len size) 0)) as (input' & Er & Hc' & Hne');
    [done|lia|done|by rewrite length_replicate|].
  exists input'. unfold tar_read_exact, read_exact. by rewrite Er.
Qed.

(** Names that make up an archive path. *)
Definition good_names (names : list str) : Prop := Forall plain_name names /\ Forall tar_text names.

Lemma join_snoc pre n : join [SLASH] (pre ++ [n]) = match pre with [] => n | _ => join [SLASH] pre ++ [SLASH] ++ n end.
Proof.
  induction pre as [|p pre IH]; [done|]. destruct pre as [|q pre]; [done|].
  change (p ++ [SLASH] ++ join [SLASH] ((q :: pre) ++ [n]) = (p ++ [SLASH] ++ join [SLASH] (q :: pre)) ++ [SLASH] ++ n).
  rewrite IH. by rewrite <- !app_assoc.
Qed.

Lemma archive_path_join pre n : Forall plain_name pre -> archive_path (join [SLASH] pre) n = join [SLASH] (pre ++ [n]).
Proof.
  intros Hp. rewrite join_snoc. unfold archive_path. destruct pre as [|p pre]; [done|].
  destruct (str_eqb (join [SLASH] (p :: pre)) []) eqn:E; [|done]. apply str_eqb_spec in E.
  destruct (Forall_inv Hp) as (Hne & _). destruct p; [done|]. by destruct pre.
Qed.

Lemma join_text names : Forall tar_text names -> tar_text (join [SLASH] names).
Proof.
  induction 1 as [|n names Hn Hns IH]; [split; [done|apply not_elem_of_nil]|].
  destruct names; [done|]. change (tar_text (n ++ [SLASH] ++ join [SLASH] (l :: names))).
  rewrite !tar_text_app. split_and!; [done| |done]. split; [done|]. by intros ?%list_elem_of_singleton.
Qed.

Lemma removelast_prefixes p q : q ∈ prefixes (removelast p) -> q ∈ prefixes p.
Proof.
  rewrite !elem_of_prefixes. intros [Hq Hp]. split; [done|]. etrans; [exact Hp|].
  destruct p as [|x p _] using rev_ind; [done|]. rewrite removelast_last. by eexists.
Qed.

(** Creating below directories cannot meet a file. *)
Lemma create_dir_all_no_file p fs :
  (forall q, q ∈ prefixes p -> is_file fs q = false) -> create_dir_all p fs = Ok (foldl add_dir fs (prefixes p)).
Proof.
  intros H. unfold create_dir_all.
  assert (forall l, (forall q, q ∈ l -> is_file fs q = false) -> existsb (is_file fs) l = false) as Hex.
  { intros l Hl. apply not_true_iff_false. intros (q & Hq & Ef)%existsb_exists. apply list_elem_of_In in Hq.
    by rewrite Hl in Ef. }
  rewrite !Hex; [done|done|]. intros q Hq. apply H. by apply removelast_prefixes.
Qed.

Lemma create_dir_all_exists p fs : dir_chain fs p -> create_dir_all p fs = Ok fs.
Proof.
  intros Hd. assert (Hf : forall q, q ∈ prefixes p -> fs !! q = Some FDir) by (intros q [? ?]%elem_of_prefixes; by apply Hd).
  rewrite create_dir_all_no_file by (intros q Hq; unfold is_file; by rewrite Hf). f_equal. apply map_eq. intros q.
  rewrite add_dirs_lookup. destruct (fs !! q) eqn:E; [done|]. case_bool_decide as Hin; [|done]. apply Hf in Hin. congruence.
Qed.

Lemma prefix_snoc (p q : list str) n : q `prefix_of` p ++ [n] -> q `prefix_of` p \/ q = p ++ [n].
Proof.
  intros [k E]. destruct k as [|x k _] using rev_ind; [right; by rewrite app_nil_r in E|left].
  rewrite app_assoc in E. apply app_inj_tail in E as [-> _]. by eexists.
Qed.

Lemma create_dir_all_new p n fs :
  dir_chain fs p -> fs !! (p ++ [n]) = None -> create_dir_all (p ++ [n]) fs = Ok (<[p ++ [n] := FDir]> fs).
Proof.
  intros Hd Hn.
  assert (Hq : forall q, q ∈ prefixes (p ++ [n]) -> fs !! q = Some FDir \/ q = p ++ [n]).
  { intros q [Hq Hp]%elem_of_prefixes. apply prefix_snoc in Hp as [Hp| ->]; [left; by apply Hd|by right]. }
  rewrite create_dir_all_no_file.
  2:{ intros q Hin. unfold is_file. destruct (Hq q Hin) as [->| ->]; [done|]. by rewrite Hn. }
  f_equal. apply map_eq. intros q. rewrite add_dirs_lookup. destruct (decide (q = p ++ [n])) as [->|Hne].
  - rewrite lookup_insert_eq, Hn. rewrite bool_decide_eq_true_2; [done|]. apply elem_of_prefixes.
    split; [by destruct p|reflexivity].
  - rewrite lookup_insert_ne by done. destruct (fs !! q) eqn:E; [done|]. case_bool_decide as Hin; [|done].
    destruct (Hq q Hin) as [?| ->]; congruence.
Qed.

(** ** One entry *)

Lemma dir_entry_extracts pre n m out c c' out' fs :
  good_names (pre ++ [n]) -> dir_chain fs (root ++ pre) -> fs !! (root ++ pre ++ [n]) = None ->
  write_dir_entry (join [SLASH] (pre ++ [n])) m out c = (Ok c', out') ->
  exists b, out' = out ++ b /\ extracts b fs c (<[root ++ pre ++ [n] := FDir]> fs) c'.
Proof.
  intros [Hp Ht] Hd Hn. unfold write_dir_entry. set (names := pre ++ [n]) in *.
  assert (Hne : names <> []) by (by destruct pre).
  destruct (write_header _ _ _ _ _) as [h|] eqn:Hw; [|done]. intros [= <- <-]. exists h. split; [done|].
  assert (Htext : tar_text (join [SLASH] names ++ [SLASH])).
  { apply tar_text_app. split; [by apply join_text|]. split; [done|]. by intros ?%list_elem_of_singleton. }
  pose proof (join_names_relative names [SLASH] Hne Hp) as Hrel.
  exists 1%nat. split.
  { destruct (parse_write_header _ _ _ _ _ _ Hw Hrel Htext) as [-> _]; [lia|by split|]. unfold TAR_BLOCK. lia. }
  intros fuel tail input Hin Hc.
  destruct (extract_header _ _ _ _ _ _ fuel input tail fs c Hw Hrel Htext ltac:(lia) ltac:(by split) Hin Hc)
    as (input1 & Hne1 & Hc1 & E).
  exists input1. split; [|done]. cbn [Nat.add]. rewrite E. unfold extract_entry. cbn [e_path e_size e_typeflag].
  rewrite sanitize_join_names by auto. change (53 =? 53) with true. cbv iota zeta.
  unfold extract_dir. change (negb (0 =? 0)) with false. cbv iota. unfold names. rewrite app_assoc.
  rewrite create_dir_all_new by (by rewrite <- ?app_assoc). done.
Qed.

Lemma file_entry_extracts pre n m len content out c c' out' fs :
  good_names (pre ++ [n]) -> dir_chain fs (root ++ pre) -> fs !! (root ++ pre ++ [n]) = None ->
  0 <= len < 8 ^ 11 -> no_empty content ->
  write_file_entry (join [SLASH] (pre ++ [n])) m len content out c = (Ok c', out') ->
  exists b, out' = out ++ b /\
    extracts b fs c (<[root ++ pre ++ [n] := FFile (take (Z.to_nat len) (concat content))]> fs) c'.
Proof.
  intros [Hp Ht] Hd Hn Hlen Hcont. unfold write_file_entry. set (names := pre ++ [n]) in *.
  assert (Hne : names <> []) by (by destruct pre).
  destruct (write_header _ _ _ _ _) as [h|] eqn:Hw; [|done].
  pose proof (read_loop_spec COPY_BUFFER (Z.to_nat len) (Z.to_nat len) content []) as Hr.
  destruct (read_loop _ _ _ _ _) as [[[] data] rest] eqn:Erd; [|done]. intros [= <- <-].
  destruct Hr as (taken & -> & Hcat & Hl & _). specialize (Hl eq_refl). cbn [app].
  assert (take (Z.to_nat len) (concat content) = taken) as -> by (by rewrite Hcat, <- Hl, take_app_length).
  exists (h ++ taken ++ replicate (pad_len len) 0). split; [done|].
  assert (Htext : tar_text (join [SLASH] names)) by (by apply join_text).
  pose proof (join_names_relative names [] Hne Hp) as Hrel. rewrite app_nil_r in Hrel.
  exists 1%nat. split.
  { rewrite length_app. destruct (parse_write_header _ _ _ _ _ _ Hw Hrel Htext) as [-> _]; [lia|by split|].
    unfold TAR_BLOCK. lia. }
  intros fuel tail input Hin Hc. rewrite <- app_assoc in Hc.
  destruct (extract_header _ _ _ _ _ _ fuel input _ fs c Hw Hrel Htext Hlen ltac:(by split) Hin Hc)
    as (input1 & Hne1 & Hc1 & E).
  rewrite <- app_assoc in Hc1.
  destruct (read_loop_take COPY_BUFFER _ input1 _ taken Hne1 ltac:(apply Nat.ltb_lt; reflexivity) Hc1 Hl) as (input2 & Ed & Hc2 & Hne2).
  destruct (skip_padding_exact len input2 tail Hne2 Hc2) as (input3 & Es & Hne3 & Hc3).
  exists input3. split; [|done]. cbn [Nat.add]. rewrite E. unfold extract_entry. cbn [e_path e_size e_typeflag].
  pose proof (sanitize_join_names names [] Hne Hp (or_introl eq_refl)) as Hs. rewrite app_nil_r in Hs. rewrite Hs.
  change (48 =? 53) with false. change ((48 =? 48) || (48 =? 0)) with true. cbv iota zeta.
  unfold extract_file. unfold names. rewrite app_assoc, removelast_last, create_dir_all_exists by done.
  unfold file_create. rewrite <- app_assoc. fold names. rewrite Hn, Ed. cbn [app]. rewrite insert_insert_eq. by rewrite Es.
Qed.

(** ** A tree *)

(** The events without the end of the archive. *)
Fixpoint run_list (evs : list event) (out : bytes) (c : TarCounts) : result TarCounts SshMcpError * bytes :=
  match evs with
  | [] => (Ok c, out)
  | ev :: evs =>
      match emit ev out c with
      | (Err e, out) => (Err e, out)
      | (Ok c, out) => run_list evs out c
      end
  end.

Lemma run_list_app a b out c :
  run_list (a ++ b) out c =
  match run_list a out c with
  | (Err e, out) => (Err e, out)
  | (Ok c, out) => run_list b out c
  end.
Proof.
  revert out c; induction a as [|ev a IH]; intros out c; [done|]. cbn.
  destruct (emit ev out c) as [[c1|e] o]; [apply IH|done].
Qed.

Lemma run_events_list evs out c :
  run_events evs out c =
  match run_list evs out c with
  | (Err e, out) => (Err e, out)
  | (Ok c, out) => (Ok c, out ++ replicate TAR_BLOCK 0 ++ replicate TAR_BLOCK 0)
  end.
Proof.
  revert out c; induction evs as [|ev evs IH]; intros out c; [done|]. cbn.
  destruct (emit ev out c) as [[c1|e] o]; [apply IH|done].
Qed.

Notation tree_fs := (gmap (list str) fnode) (only parsing).

Definition free (fs : tree_fs) (q : list str) : Prop := forall ns, fs !! (q ++ ns) = None.

(** [x] is at [q], and nothing else changed. *)
Definition placed (q : list str) (x : lnode) (fs fs' : tree_fs) : Prop :=
  (forall ns, fs' !! (q ++ ns) = view x ns) /\ (forall r, ~ q `prefix_of` r -> fs' !! r = fs !! r).

(** The entries [its] are in the directory [p], and nothing else changed. *)
Definition placed_items (p : list str) (its : list EntryInfo) (fs fs' : tree_fs) : Prop :=
  (forall n ns, fs' !! (p ++ n :: ns) =
     match find_item n its with Some y => view y ns | None => fs !! (p ++ n :: ns) end) /\
  (forall r, ~ strictly_below p r -> fs' !! r = fs !! r).

Lemma app_snoc {A} (p : list A) n ns : p ++ n :: ns = (p ++ [n]) ++ ns.
Proof. by rewrite <- app_assoc. Qed.

Lemma below_snoc (p : list str) n r : (p ++ [n]) `prefix_of` r -> strictly_below p r.
Proof. intros [k ->]. exists n, k. by rewrite <- app_assoc. Qed.

Lemma chain_not_below fs fs' p :
  (forall r, ~ strictly_below p r -> fs' !! r = fs !! r) -> dir_chain fs p -> dir_chain fs' p.
Proof.
  intros H Hd q Hq Hp. rewrite H; [by apply Hd|]. intros (n & ns & ->). destruct Hp as [k E].
  apply (f_equal length) in E. rewrite !length_app in E. simpl in E. lia.
Qed.

Lemma placed_items_nil p fs : placed_items p [] fs fs.
Proof. by split. Qed.

Lemma placed_items_cons p it its fs fs1 fs2 :
  name it ∉ name <$> its -> placed (p ++ [name it]) (path it) fs fs1 -> placed_items p its fs1 fs2 ->
  placed_items p (it :: its) fs fs2.
Proof.
  intros Hni [H1 H2] [K1 K2].
  assert (Hno : find_item (name it) its = None).
  { clear -Hni. induction its as [|it' its IH]; [done|]. cbn in *. apply not_elem_of_cons in Hni as [Hne Hni].
    destruct (str_eqb (name it') (name it)) eqn:E; [apply str_eqb_spec in E; congruence|by apply IH]. }
  split.
  - intros n ns. cbn [find_item]. destruct (str_eqb (name it) n) eqn:E.
    + apply str_eqb_spec in E as <-. rewrite K1, Hno. rewrite app_snoc. apply H1.
    + rewrite K1. destruct (find_item n its); [done|]. apply H2. rewrite app_snoc.
      intros [k Hk]. rewrite <- !app_assoc in Hk. apply app_inv_head in Hk. injection Hk as -> _.
      by rewrite str_eqb_refl in E.
  - intros r Hr. rewrite K2 by done. apply H2. by intros ?%below_snoc.
Qed.

(** What the proof by induction on the tree gives for a node: it is written
    at the path [pre ++ [n]] and read back there. *)
Definition node_round (x : lnode) : Prop :=
  forall pre n out c c' out' fs,
    sendable x -> good_names (pre ++ [n]) -> dir_chain fs (root ++ pre) -> free fs (root ++ pre ++ [n]) ->
    run_list (events (join [SLASH] (pre ++ [n])) x) out c = (Ok c', out') ->
    exists b fs', out' = out ++ b /\ extracts b fs c fs' c' /\ placed (root ++ pre ++ [n]) x fs fs'.

Lemma items_round pre its out c c' out' fs :
  Forall (fun it => node_round (path it)) its -> Forall (fun it => sendable (path it)) its ->
  Forall (fun it => good_names (pre ++ [name it])) its -> NoDup (name <$> its) -> Forall plain_name pre ->
  dir_chain fs (root ++ pre) -> Forall (fun it => free fs (root ++ pre ++ [name it])) its ->
  run_list (concat (item_events (join [SLASH] pre) <$> its)) out c = (Ok c', out') ->
  exists b fs', out' = out ++ b /\ extracts b fs c fs' c' /\ placed_items (root ++ pre) its fs fs'.
Proof.
  intros Hr Hs Hg Hnd Hpre. revert out c fs Hr Hs Hg Hnd.
  induction its as [|it its IH]; intros out c fs Hr Hs Hg Hnd Hd Hfree.
  { intros [= <- <-]. exists [], fs. rewrite app_nil_r. split_and!; [done|apply extracts_nil|apply placed_items_nil]. }
  cbn [fmap list_fmap concat]. rewrite run_list_app. unfold item_events at 1. rewrite archive_path_join by done.
  cbn [fmap list_fmap] in Hnd. apply NoDup_cons in Hnd as [Hni Hnd].
  apply Forall_cons in Hr as [Hr Hrs], Hs as [Hs Hss], Hg as [Hg Hgs], Hfree as [Hf Hfs].
  destruct (run_list _ out c) as [[c1|e] o1] eqn:E1; [|done]. intros E2.
  destruct (Hr _ _ _ _ _ _ fs Hs Hg Hd Hf E1) as (b1 & fs1 & -> & X1 & P1).
  destruct (IH (out ++ b1) c1 fs1) as (b2 & fs2 & -> & X2 & P2); try done.
  - eapply chain_not_below; [|exact Hd]. intros r Hb. apply P1. rewrite app_assoc. by intros ?%below_snoc.
  - apply Forall_forall. intros it' Hin ns. destruct P1 as [_ P1]. rewrite P1.
    { rewrite Forall_forall in Hfs. by apply Hfs. }
    intros [k Hk]. rewrite <- !app_assoc in Hk. do 2 apply app_inv_head in Hk. injection Hk as Hk _.
    apply Hni. rewrite <- Hk. by apply list_elem_of_fmap_2.
  - exists (b1 ++ b2), fs2. split_and!; [by rewrite app_assoc|by eapply extracts_app|].
    rewrite app_assoc in P1. by eapply placed_items_cons.
Qed.

Lemma read_entries_perm es : read_entries es ≡ₚ entry_info <$> es.
Proof. apply sort_by_perm. Qed.

Lemma placed_entries p es fs fs' :
  NoDup (name <$> (entry_info <$> es)) -> placed_items p (read_entries es) fs fs' ->
  forall n ns, fs' !! (p ++ n :: ns) =
    match find_item n (entry_info <$> es) with Some y => view y ns | None => fs !! (p ++ n :: ns) end.
Proof.
  intros Hnd [H _] n ns. rewrite H. by rewrite <- (find_item_perm n (entry_info <$> es) _ Hnd (symmetry (read_entries_perm es))).
Qed.

Lemma entries_good pre es :
  good_names pre -> Forall (fun e => good_name (fst e)) es ->
  Forall (fun it => good_names (pre ++ [name it])) (read_entries es).
Proof.
  intros [Hp Ht] Hg. apply Forall_forall. intros it Hin. rewrite read_entries_perm in Hin.
  apply list_elem_of_fmap in Hin as ([n x] & -> & He). rewrite Forall_forall in Hg.
  destruct (Hg _ He) as (s & Hs & Hst & Hsp). cbn [fst] in Hs. subst n.
  change (name (entry_info (utf8_encode s, x))) with (from_utf8_lossy (utf8_encode s)).
  rewrite from_utf8_lossy_encode by apply Hst.
  split; apply Forall_app; (split; [done|]); by constructor.
Qed.

Lemma Forall_entries (P : lnode -> Prop) es :
  Forall (fun e => P (snd e)) es -> Forall (fun it => P (path it)) (read_entries es).
Proof.
  intros H. apply Forall_forall. intros it Hin. rewrite read_entries_perm in Hin.
  apply list_elem_of_fmap in Hin as ([n x] & -> & He). rewrite Forall_forall in H. apply (H _ He).
Qed.

(** The entries of a directory that is sent to the directory [pre]. *)
Lemma entries_round pre es out c c' out' fs :
  Forall (fun e => node_round (snd e)) es -> sendable (LDir {| perm_mode := 0; modified := None |} es) ->
  good_names pre -> dir_chain fs (root ++ pre) -> (forall n, free fs (root ++ pre ++ [n])) ->
  run_list (frame_events {| entries := read_entries es; prefix := join [SLASH] pre; idx := 0 |}) out c = (Ok c', out') ->
  exists b fs', out' = out ++ b /\ extracts b fs c fs' c' /\
    (forall n ns, fs' !! (root ++ pre ++ n :: ns) = view (LDir {| perm_mode := 0; modified := None |} es) (n :: ns)) /\
    (forall r, ~ strictly_below (root ++ pre) r -> fs' !! r = fs !! r).
Proof.
  intros Hr Hs Hg Hd Hfree Hrun. inversion Hs as [|? ? Hnd Hgn Hss| |]; subst.
  pose proof (entry_names_NoDup es Hnd Hgn) as Hn.
  destruct (items_round pre (read_entries es) out c c' out' fs) as (b & fs' & -> & X & P); try done.
  - by apply Forall_entries.
  - by apply Forall_entries.
  - by apply entries_good.
  - by rewrite read_entries_perm.
  - apply Hg.
  - apply Forall_forall. intros it _. apply Hfree.
  - exists b, fs'. split_and!; [done..| |apply P]. intros n ns. pose proof (placed_entries _ _ _ _ Hn P n ns) as V.
    rewrite <- !app_assoc in V. rewrite V. cbn [view].
    destruct (find_item n (entry_info <$> es)) as [y|]; [done|].
    pose proof (Hfree n ns) as F. by rewrite <- !app_assoc in F.
Qed.

Lemma node_round_all x : node_round x.
Proof.
  induction x as [m len content| | |m es IH] using lnode_tree_ind;
    intros pre n out c c' out' fs Hs Hg Hd Hf Hrun; [|discriminate Hrun|discriminate Hrun|].
  - cbn [events run_list emit] in Hrun. inversion Hs; subst. destruct (write_file_entry _ _ _ _ _ _) as [[c1|e] o] eqn:E; [|done]. injection Hrun as <- <-.
    pose proof (Hf []) as Hn. rewrite app_nil_r in Hn.
    eapply file_entry_extracts in E as (b & -> & X); [|done..]. exists b. eexists. split_and!; [done|exact X|]. split.
    + intros [|k ns]; [by rewrite app_nil_r, lookup_insert_eq|]. cbn [view].
      rewrite lookup_insert_ne; [apply Hf|]. intros Eq. apply (f_equal length) in Eq.
      rewrite !length_app in Eq. simpl in Eq. lia.
    + intros r Hr. rewrite lookup_insert_ne; [done|]. by intros <-.
  - rewrite events_dir in Hrun. cbn [run_list emit] in Hrun.
    destruct (write_dir_entry _ _ _ _) as [[c1|e] o] eqn:E; [|done].
    pose proof (Hf []) as Hn. rewrite app_nil_r in Hn.
    eapply dir_entry_extracts in E as (b1 & -> & X1); [|done..]. set (q := root ++ pre ++ [n]) in *.
    assert (Hout : forall r, r <> q -> <[q := FDir]> fs !! r = fs !! r) by (intros r Hr; by rewrite lookup_insert_ne).
    destruct (entries_round (pre ++ [n]) es (out ++ b1) c1 c' out' (<[q := FDir]> fs)) as (b2 & fs2 & -> & X2 & V & O); try done.
    + inversion Hs; subst. by constructor.
    + intros r Hr Hp. fold q in Hp. destruct (decide (r = q)) as [->|Hne]; [apply lookup_insert_eq|].
      rewrite Hout by done. unfold q in Hp, Hne. rewrite app_assoc in Hp, Hne. apply prefix_snoc in Hp as [Hp|]; [|done].
      by apply Hd.
    + intros k ns. rewrite Hout.
      * pose proof (Hf (k :: ns)) as F. unfold q in F. rewrite <- !app_assoc in F. rewrite <- !app_assoc. exact F.
      * unfold q. intros Eq. apply (f_equal length) in Eq. rewrite !length_app in Eq. simpl in Eq. lia.
    + exists (b1 ++ b2), fs2. split_and!; [by rewrite app_assoc|by eapply extracts_app|]. split.
      * intros [|k ns].
        { rewrite app_nil_r, O; [unfold q; by rewrite lookup_insert_eq|]. intros (a & ns & Eq).
          unfold q in Eq. apply (f_equal length) in Eq. rewrite !length_app in Eq. simpl in Eq. lia. }
        unfold q. rewrite <- (app_assoc root), V. done.
      * intros r Hr. rewrite O; [|intros (a & ns & ->); apply Hr; by eexists]. apply Hout. intros ->. by apply Hr.
Qed.


(** The two zero blocks end the extraction. *)
Lemma extract_end fuel input rest fs c :
  no_empty input -> concat input = replicate TAR_BLOCK 0 ++ replicate TAR_BLOCK 0 ++ rest ->
  extract_loop early_eof (S fuel) root input fs c = Some (fs, Ok c).
Proof.
  intros Hne Hc. cbn [extract_loop]. unfold tar_read_exact, read_exact.
  assert (Hcap : (0 < TAR_BLOCK)%nat) by (unfold TAR_BLOCK; lia).
  destruct (read_loop_take TAR_BLOCK TAR_BLOCK input _ _ Hne Hcap Hc (length_replicate _ _)) as (i1 & E1 & Hc1 & Hne1).
  destruct (read_loop_take TAR_BLOCK TAR_BLOCK i1 _ _ Hne1 Hcap Hc1 (length_replicate _ _)) as (i2 & E2 & _).
  rewrite E1. change (forallb (Z.eqb 0) (replicate TAR_BLOCK 0)) with true. cbv iota. by rewrite E2.
Qed.

(** C35. A directory that [write_dir_as_tar] wrote is read back by
    [extract_tar_to_dir], whatever the chunks of the stream and whatever
    follows the archive: an empty directory [root] then holds, at every
    relative path, what the sent tree has there (each file with the bytes its
    metadata announced), nothing else changes, and both sides report the same
    counts. *)
Theorem tar_roundtrip (m : metadata) (es : list (bytes * lnode)) (out rest : bytes) (counts : TarCounts)
    (input : list bytes) (fs : gmap (list str) fnode)
    (Hs : sendable (LDir m es)) (Hw : write_dir_as_tar (LDir m es) = Some (Ok counts, out))
    (Hne : no_empty input) (Hc : concat input = out ++ rest)
    (Hd : dir_chain fs root) (Hfree : forall n ns, fs !! (root ++ n :: ns) = None) :
  exists fs', extract_tar_to_dir early_eof root input fs = Some (fs', Ok counts) /\
    (forall n ns, fs' !! (root ++ n :: ns) = view (LDir m es) (n :: ns)) /\
    (forall r, ~ strictly_below root r -> fs' !! r = fs !! r).
Proof.
  rewrite write_dir_as_tar_events, run_events_list in Hw.
  destruct (run_list _ [] zero_counts) as [[c|e] o] eqn:E; [|done]. injection Hw as -> <-.
  destruct (entries_round [] es [] zero_counts counts o fs) as (b & fs' & -> & (k & Hk & X) & V & O).
  - apply Forall_forall. intros e _. apply node_round_all.
  - inversion Hs; subst. by constructor.
  - by split.
  - by rewrite app_nil_r.
  - intros n ns. rewrite <- app_assoc. apply Hfree.
  - exact E.
  - exists fs'. rewrite app_nil_r in O. split_and!; [|intros n ns; apply (V n ns)|done].
    cbn [app] in Hc. rewrite <- !app_assoc in Hc. unfold extract_tar_to_dir.
    assert (exists fuel, S (length (concat input)) = (k + S fuel)%nat) as [fuel ->].
    { exists (length (concat input) - k)%nat. rewrite Hc, length_app. lia. }
    destruct (X (S fuel) _ _ Hne Hc) as (i1 & -> & Hne1 & Hc1). exact (extract_end fuel i1 rest fs' counts Hne1 Hc1).
Qed.

End RoundTrip.

(** A directory with a file and a subdirectory, in two chunks. *)
Lemma tar_roundtrip_witness :
  let m := {| perm_mode := 420; modified := None |} in
  let t := LDir m [(lit "sub", LDir m [(lit "b", LFile m 2 [[1]; [2; 3]])]); (lit "a", LFile m 0 [])] in
  let out := match write_dir_as_tar t with Some (_, out) => out | None => [] end in
  exists fs', extract_tar_to_dir (lit "early eof") [lit "r"] [take 700 out; drop 700 out] {[ [lit "r"] := FDir ]} =
      Some (fs', Ok {| c_bytes := 2; c_files := 2; c_directories := 1 |}) /\
    fs' !! [lit "r"; lit "sub"; lit "b"] = Some (FFile [1; 2]).
Proof.
  intros m t out.
  assert (Hname : forall s, tar_text s -> plain_name s -> good_name (utf8_encode s)) by (intros s ? ?; by exists s).
  assert (Hb : good_name (lit "b") /\ good_name (lit "a") /\ good_name (lit "sub")).
  { repeat split; [apply (Hname (lit "b"))|apply (Hname (lit "a"))|apply (Hname (lit "sub"))];
      repeat split; try done; refine (bool_decide_unpack _ _); vm_compute; exact I. }
  destruct Hb as (Hb & Ha & Hsub).
  destruct (tar_roundtrip (lit "early eof") [lit "r"] m
    [(lit "sub", LDir m [(lit "b", LFile m 2 [[1]; [2; 3]])]); (lit "a", LFile m 0 [])]
    out [] {| c_bytes := 2; c_files := 2; c_directories := 1 |}
    [take 700 out; drop 700 out] {[ [lit "r"] := FDir ]}) as (fs' & E & V & _).
  - constructor; [refine (bool_decide_unpack _ _); vm_compute; exact I|by repeat constructor|].
    repeat constructor; cbn [snd fst]; try done; refine (bool_decide_unpack _ _); vm_compute; exact I.
  - vm_compute. reflexivity.
  - unfold no_empty. repeat constructor; vm_compute; discriminate.
  - cbn [concat]. by rewrite app_nil_r, take_drop, app_nil_r.
  - intros q Hq [k Hk]. destruct q as [|a [|b q]]; [done| |done]. injection Hk as <- _. reflexivity.
  - intros n ns. rewrite lookup_singleton_ne; done.
  - exists fs'. split; [exact E|]. exact (V (lit "sub") [lit "b"]).
Defined.
