(* ===== verification/ToolArgs.v ===== *)
(** * Tool arguments

    The hand-written argument parsers of src/server/args.rs over JSON values
    (serde_json). An object is the list of its members in the map's order,
    with distinct keys; the protocol error of a refusal is its message. *)
From Stdlib Require Import ZArith String.
From stdpp Require Import base list.
From S2P Require Import Prelude Errors Shell.

(** [serde_json::Value]; a number is an unsigned or negative 64-bit integer or
    a float. *)
Inductive number : Type :=
  | PosInt (n : Z)
  | NegInt (n : Z)
  | Float.

Inductive json : Type :=
  | JNull
  | JBool (b : bool)
  | JNumber (n : number)
  | JString (s : str)
  | JArray (l : list json)
  | JObject (m : list (str * json)).

Definition members : Type := list (str * json).

Fixpoint get (k : str) (m : members) : option json :=
  match m with
  | [] => None
  | (k', v) :: m => if str_eqb k' k then Some v else get k m
  end.

Definition as_str (v : json) : option str := match v with JString s => Some s | _ => None end.
Definition as_bool (v : json) : option bool := match v with JBool b => Some b | _ => None end.
Definition as_u64 (v : json) : option Z := match v with JNumber (PosInt n) => Some n | _ => None end.
Definition as_i64 (v : json) : option Z :=
  match v with
  | JNumber (PosInt n) => if n <=? I64_MAX then Some n else None
  | JNumber (NegInt n) => Some n
  | _ => None
  end.

Record CommonToolArgs : Type := { command : str; background : bool; timeout_ms : option Z; log_path : option str }.

Definition invalid_timeout : str := lit "timeout_ms must be a positive integer".

(** [i as u64]. *)
Definition as_unsigned (i : Z) : Z := i mod (U64_MAX + 1).

Definition common_timeout (v : json) : result (option Z) str :=
  match as_u64 v with
  | Some u => if u =? 0 then Err invalid_timeout else Ok (Some u)
  | None =>
      match as_i64 v with
      | Some i => if i <=? 0 then Err invalid_timeout else Ok (Some (as_unsigned i))
      | None => Err invalid_timeout
      end
  end.

Definition parse_common_tool_args (args : members) : result CommonToolArgs str :=
  let? command := ok_or (v ← get (lit "command") args; as_str v) (lit "Missing required parameter: command") in
  let background := default false (v ← get (lit "background") args; as_bool v) in
  let? timeout_ms :=
    if background then Ok None
    else match get (lit "timeout_ms") args with
         | None | Some JNull => Ok None
         | Some v => common_timeout v
         end in
  let? log_path :=
    if background then
      match get (lit "log_path") args with
      | None | Some JNull => Ok None
      | Some v => let? s := ok_or (as_str v) (lit "log_path must be a string") in Ok (Some s)
      end
    else Ok None in
  Ok {| command := command; background := background; timeout_ms := timeout_ms; log_path := log_path |}.

Record RouterOsToolArgs : Type := { r_command : str; r_timeout_ms : option Z }.

Definition one_line_error : str :=
  lit "RouterOS command must be one line without NUL or internal CR/LF; multiline commands are not flattened".

Definition known_parameter (name : str) : bool :=
  str_eqb name (lit "command") || str_eqb name (lit "timeout_ms").

Definition parse_routeros_tool_args (args : members) (max_chars : option Z) : result RouterOsToolArgs str :=
  match List.find (fun kv => negb (known_parameter (fst kv))) args with
  | Some (name, _) => Err (lit "Unknown RouterOS shell parameter: " ++ name)
  | None =>
      let? command := ok_or (v ← get (lit "command") args; as_str v) (lit "command must be a string") in
      let? command := rmap_err error_display (sanitize_command command max_chars) in
      if existsb (fun c => (c =? NUL) || (c =? CR) || (c =? NL)) command then Err one_line_error
      else
        let? timeout_ms :=
          match get (lit "timeout_ms") args with
          | None => Ok None
          | Some value =>
              let positive := match as_u64 value with Some u => if 0 <? u then Some u else None | None => None end in
              let? u := ok_or positive (lit "timeout_ms must be a positive integer (not null)") in
              Ok (Some u)
          end in
        Ok {| r_command := command; r_timeout_ms := timeout_ms |}
  end.

(** ** What is accepted *)

Definition absent (k : str) (m : members) : Prop := get k m = None \/ get k m = Some JNull.

(** serde_json's invariant of numbers: a [NegInt] is negative, a [PosInt] is a
    [u64]. *)
Definition number_ok (v : json) : Prop :=
  match v with
  | JNumber (PosInt n) => 0 <= n <= U64_MAX
  | JNumber (NegInt n) => - I64_MAX - 1 <= n < 0
  | _ => True
  end.

Definition typed_timeout (k : str) (m : members) (t : option Z) : Prop :=
  match t with
  | None => absent k m
  | Some n => get k m = Some (JNumber (PosInt n)) /\ 0 < n
  end.

Definition typed_string (k : str) (m : members) (t : option str) : Prop :=
  match t with
  | None => absent k m
  | Some s => get k m = Some (JString s)
  end.

(** The arguments as their schema says: what does not apply to the mode is
    ignored. *)
Record common_typed (m : members) (a : CommonToolArgs) : Prop := {
  ct_command : get (lit "command") m = Some (JString (command a));
  ct_background : background a = true <-> get (lit "background") m = Some (JBool true);
  ct_timeout : if background a then timeout_ms a = None else typed_timeout (lit "timeout_ms") m (timeout_ms a);
  ct_log : if background a then typed_string (lit "log_path") m (log_path a) else log_path a = None
}.

Lemma common_timeout_ok v t :
  number_ok v -> common_timeout v = Ok t <-> exists n, t = Some n /\ v = JNumber (PosInt n) /\ 0 < n.
Proof.
  unfold common_timeout. intros Hv. destruct v as [| |[n|n|]| | |]; cbn in *;
    try (split; [done|]; by intros (k & _ & [=] & _)).
  - destruct (n =? 0) eqn:E; bool_hyps; split; try done.
    + intros (k & _ & [= <-] & ?). lia.
    + intros [= <-]. exists n. split_and!; [done..|lia].
    + by intros (k & -> & [= ->] & _).
  - rewrite (proj2 (Z.leb_le n 0)) by lia. split; [done|]. by intros (k & _ & [=] & _).
Qed.

Lemma timeout_member m t :
  (forall v, get (lit "timeout_ms") m = Some v -> number_ok v) ->
  match get (lit "timeout_ms") m with None | Some JNull => Ok None | Some v => common_timeout v end = Ok t <->
  typed_timeout (lit "timeout_ms") m t.
Proof.
  intros Hn. unfold typed_timeout, absent. destruct (get (lit "timeout_ms") m) as [v|].
  2:{ destruct t; split; try done; [by intros [? _]|auto]. }
  specialize (Hn v eq_refl).
  assert (Hv : v = JNull \/ match v with JNull => @Ok _ str (@None Z) | _ => common_timeout v end = common_timeout v /\ v <> JNull)
    by (destruct v; auto).
  destruct Hv as [->|[-> Hne]].
  { destruct t; split; try done; [by intros [? _]|auto]. }
  rewrite common_timeout_ok by done. split.
  - intros (n & -> & -> & ?). by split.
  - destruct t as [n|]; [intros [[= ->] ?]; eauto|]. by intros [|[=]].
Qed.

Lemma log_member m t :
  match get (lit "log_path") m with
  | None | Some JNull => Ok None
  | Some v => let? s := ok_or (as_str v) (lit "log_path must be a string") in Ok (Some s)
  end = Ok t <-> typed_string (lit "log_path") m t.
Proof.
  unfold typed_string, absent. destruct (get (lit "log_path") m) as [[| | |s| |]|]; destruct t; cbn; split; try done;
    try (by intros [|]); try (by intros [= ->]); auto.
Qed.

Lemma get_string k m s : (v ← get k m; as_str v) = Some s <-> get k m = Some (JString s).
Proof. destruct (get k m) as [[]|]; cbn; split; try done; by intros [= ->]. Qed.

Lemma get_bool k m : default false (v ← get k m; as_bool v) = true <-> get k m = Some (JBool true).
Proof. destruct (get k m) as [[| [] | | | |]|]; cbn; split; try done; by intros [=]. Qed.

Lemma ok_or_Ok {T E} (o : option T) (e : E) v : ok_or o e = Ok v <-> o = Some v.
Proof. destruct o; cbn; split; congruence. Qed.

Lemma rbind_Ok {T U E} (m : result T E) (k : T -> result U E) u :
  rbind m k = Ok u <-> exists t, m = Ok t /\ k t = Ok u.
Proof. destruct m; cbn; split; [eauto|by intros (? & [= <-] & ?)|done|by intros (? & ? & _)]. Qed.

Lemma parse_common_ok m a :
  (forall v, get (lit "timeout_ms") m = Some v -> number_ok v) ->
  parse_common_tool_args m = Ok a <-> common_typed m a.
Proof.
  intros Hn. unfold parse_common_tool_args. rewrite rbind_Ok. setoid_rewrite rbind_Ok. setoid_rewrite rbind_Ok.
  setoid_rewrite ok_or_Ok. setoid_rewrite get_string.
  set (bg := default false _). assert (Hbg : bg = true <-> get (lit "background") m = Some (JBool true)) by apply get_bool.
  split.
  - intros (c & Hc & t & Ht & l & Hl & [= <-]). constructor; cbn; [done..| |].
    + destruct bg; [by injection Ht|]. by apply timeout_member.
    + destruct bg; [by apply log_member|by injection Hl].
  - intros [Hc Hb Ht Hl]. destruct a as [c b t l]; cbn in *.
    assert (b = bg) as -> by (apply eq_true_iff_eq; by rewrite Hb, Hbg).
    exists c. split; [done|]. exists t. split; [destruct bg; [by rewrite Ht|by apply timeout_member]|].
    exists l. split; [|done]. destruct bg; [by apply log_member|by rewrite Hl].
Qed.

(** The native shell accepts no other member, and one line of text. *)
Record routeros_typed (m : members) (max_chars : option Z) (a : RouterOsToolArgs) : Prop := {
  rt_known : Forall (fun kv => fst kv = lit "command" \/ fst kv = lit "timeout_ms") m;
  rt_command : exists c, get (lit "command") m = Some (JString c) /\ sanitize_command c max_chars = Ok (r_command a);
  rt_line : Forall (fun c => c <> NUL /\ c <> CR /\ c <> NL) (r_command a);
  rt_timeout : match r_timeout_ms a with
               | None => get (lit "timeout_ms") m = None
               | Some n => get (lit "timeout_ms") m = Some (JNumber (PosInt n)) /\ 0 < n
               end
}.

Lemma find_unknown (m : members) :
  List.find (fun kv => negb (known_parameter (fst kv))) m = None <->
  Forall (fun kv => fst kv = lit "command" \/ fst kv = lit "timeout_ms") m.
Proof.
  induction m as [|[k v] m IH]; cbn; [split; [constructor|done]|]. rewrite Forall_cons. cbn.
  unfold known_parameter at 1. rewrite negb_orb. destruct (str_eqb k (lit "command")) eqn:E; cbn.
  - apply str_eqb_spec in E as ->. rewrite IH. tauto.
  - destruct (str_eqb k (lit "timeout_ms")) eqn:F; cbn.
    + apply str_eqb_spec in F as ->. rewrite IH. tauto.
    + split; [done|]. intros [[->| ->] _]; by rewrite str_eqb_refl in *.
Qed.

Lemma one_line_spec s :
  existsb (fun c => (c =? NUL) || (c =? CR) || (c =? NL)) s = false <-> Forall (fun c => c <> NUL /\ c <> CR /\ c <> NL) s.
Proof.
  induction s as [|c s IH]; cbn; [split; [constructor|done]|]. rewrite Forall_cons, orb_false_iff, IH, !orb_false_iff, !Z.eqb_neq. tauto.
Qed.

Lemma parse_routeros_ok m max_chars a :
  parse_routeros_tool_args m max_chars = Ok a <-> routeros_typed m max_chars a.
Proof.
  unfold parse_routeros_tool_args. pose proof (find_unknown m) as Hf.
  destruct (List.find _ m) as [[k v]|].
  { split; [done|]. intros [Hk _ _ _]. by apply Hf in Hk. }
  pose proof (proj1 Hf eq_refl) as Hk. clear Hf. rewrite rbind_Ok. setoid_rewrite rbind_Ok. setoid_rewrite ok_or_Ok. setoid_rewrite get_string.
  assert (Hs : forall c t, rmap_err error_display (sanitize_command c max_chars) = Ok t <-> sanitize_command c max_chars = Ok t).
  { intros c t. destruct (sanitize_command c max_chars); cbn; split; congruence. }
  setoid_rewrite Hs.
  assert (Ht : forall t, match get (lit "timeout_ms") m with
          | None => Ok None
          | Some value =>
              let? u := ok_or (match as_u64 value with Some u => if 0 <? u then Some u else None | None => None end)
                          (lit "timeout_ms must be a positive integer (not null)") in Ok (Some u)
          end = Ok t <-> match t with
               | None => get (lit "timeout_ms") m = None
               | Some n => get (lit "timeout_ms") m = Some (JNumber (PosInt n)) /\ 0 < n
               end).
  { intros t. destruct (get (lit "timeout_ms") m) as [[| |[n|n|]| | |]|]; cbn; try (destruct t; split; try done; by intros [? ?]).
    destruct (0 <? n) eqn:E; bool_hyps; destruct t; cbn; split; try done;
      [by intros [= <-]|by intros [[= <-] _]|intros [[= <-] ?]; lia]. }
  split.
  - intros (c & Hc & s & Hsan & H). destruct (existsb _ s) eqn:E; [done|]. apply rbind_Ok in H as (t & Htm & [= <-]).
    constructor; cbn; [done|eauto|by apply one_line_spec|]. by apply Ht.
  - intros [_ (c & Hc & Hsan) Hl Htm]. destruct a as [s t]; cbn in *. exists c. split; [done|]. exists s. split; [done|].
    rewrite (proj2 (one_line_spec s) Hl). apply rbind_Ok. exists t. split; [by apply Ht|done].
Qed.

(** The arguments of the tools are accepted exactly when they are typed as
    the schema says, and the parsed values are the members: [timeout_ms] is
    positive and only looked at in the foreground, [log_path] only in the
    background; the native shell takes no other member and one sanitised line. *)
Theorem tool_arguments_typed (m : members) (max_chars : option Z)
    (Hnum : forall v, get (lit "timeout_ms") m = Some v -> number_ok v) :
  (forall a, parse_common_tool_args m = Ok a <-> common_typed m a) /\
  (forall a, parse_routeros_tool_args m max_chars = Ok a <-> routeros_typed m max_chars a).
Proof. split; intros a; [by apply parse_common_ok|apply parse_routeros_ok]. Qed.

(** A foreground call with a timeout and an ignored log path. *)
Lemma tool_arguments_typed_witness :
  let m := [(lit "command", JString (lit "uptime")); (lit "log_path", JNull); (lit "timeout_ms", JNumber (PosInt 500))] in
  let a := {| command := lit "uptime"; background := false; timeout_ms := Some 500; log_path := None |} in
  parse_common_tool_args m = Ok a /\ common_typed m a.
Proof.
  intros m a. destruct (tool_arguments_typed m None) as [H _].
  - intros v [= <-]. cbn. unfold U64_MAX. lia.
  - split; [reflexivity|]. apply H. reflexivity.
Defined.
