(* ===== verification/RouterOs.v ===== *)
(** * Native RouterOS execution (src/ssh/routeros.rs, src/server/handlers/routeros.rs)

    The collector of one native command, the owner task that opens the
    channel, sends EXEC at most once and answers, and the text of the answer.
    Every wait comes with the state of the clock and of the cancellation
    tokens before it and with how it ended; what the task does is recorded. *)
From Stdlib Require Import ZArith String.
From stdpp Require Import base list.
From S2P Require Import Prelude Trace Errors Utf8 Channel Output.

Definition BYTES_PER_TOKEN : Z := 4.

Record RouterOsExecFailure : Type := { f_output : CommandOutput; f_message : str; f_may_have_run : bool }.
Definition NativeResult : Type := result CommandOutput RouterOsExecFailure.

(** ** Stopping *)

Inductive stop_reason : Type := Shutdown | Cancelled | DeadlineExceeded.

Definition stop_text (r : stop_reason) : str :=
  match r with
  | Shutdown => lit "SSH connection manager is shutting down"
  | Cancelled => lit "RouterOS command cancelled"
  | DeadlineExceeded => lit "RouterOS command deadline exceeded"
  end.

(** What a task sees when it looks: the two tokens and the clock. *)
Record instant : Type := { is_shutdown : bool; is_cancelled : bool; now : Z }.

Section stop.
Context (deadline : Z).

Definition holds (r : stop_reason) (i : instant) : bool :=
  match r with
  | Shutdown => is_shutdown i
  | Cancelled => is_cancelled i
  | DeadlineExceeded => deadline <=? now i
  end.

Definition reason (i : instant) : option stop_reason :=
  if holds Shutdown i then Some Shutdown
  else if holds Cancelled i then Some Cancelled
  else if holds DeadlineExceeded i then Some DeadlineExceeded
  else None.

(** How a wait ends that was entered: the operation completes or a stop
    condition is seen first. *)
Inductive waited (T : Type) : Type := Completed (v : T) | Stopped (r : stop_reason).
Arguments Completed {T} v.
Arguments Stopped {T} r.

Definition wait {T} (i : instant) (operation : waited T) : result T stop_reason :=
  match reason i with
  | Some r => Err r
  | None => match operation with Completed v => Ok v | Stopped r => Err r end
  end.
End stop.
Arguments Completed {T} v.
Arguments Stopped {T} r.

(** ** Collecting output *)

Record BytePrefix : Type := { b_bytes : bytes; total_bytes : Z }.
Definition BytePrefix_default : BytePrefix := {| b_bytes := []; total_bytes := 0 |}.

Definition append (p : BytePrefix) (data : bytes) (limit : option Z) : BytePrefix :=
  let n := match limit with
    | Some limit => Z.min (saturating_sub limit (Z.of_nat (length (b_bytes p)))) (Z.of_nat (length data))
    | None => Z.of_nat (length data)
    end in
  {| b_bytes := b_bytes p ++ take (Z.to_nat n) data;
     total_bytes := saturating_add USIZE_MAX (total_bytes p) (Z.of_nat (length data)) |}.

Definition prefix_finish (p : BytePrefix) : str * bool * Z :=
  (from_utf8_lossy (b_bytes p), Z.of_nat (length (b_bytes p)) <? total_bytes p,
   (total_bytes p + (BYTES_PER_TOKEN - 1)) / BYTES_PER_TOKEN).

Record Collector : Type := {
  k_stdout : BytePrefix;
  k_stderr : BytePrefix;
  k_limit : option Z;
  k_exit_code : option Z;
  k_exit_signal : option str;
  k_may_have_run : bool
}.

Definition Collector_new (max_tokens : option Z) : Collector := {|
  k_stdout := BytePrefix_default; k_stderr := BytePrefix_default;
  k_limit := (fun tokens => saturating_mul USIZE_MAX tokens BYTES_PER_TOKEN) <$> max_tokens;
  k_exit_code := None; k_exit_signal := None; k_may_have_run := false |}.

Definition with_stdout (c : Collector) (p : BytePrefix) : Collector := {|
  k_stdout := p; k_stderr := k_stderr c; k_limit := k_limit c; k_exit_code := k_exit_code c;
  k_exit_signal := k_exit_signal c; k_may_have_run := k_may_have_run c |}.
Definition with_stderr (c : Collector) (p : BytePrefix) : Collector := {|
  k_stdout := k_stdout c; k_stderr := p; k_limit := k_limit c; k_exit_code := k_exit_code c;
  k_exit_signal := k_exit_signal c; k_may_have_run := k_may_have_run c |}.
Definition with_exit (c : Collector) (code : option Z) (signal : option str) : Collector := {|
  k_stdout := k_stdout c; k_stderr := k_stderr c; k_limit := k_limit c; k_exit_code := code;
  k_exit_signal := signal; k_may_have_run := k_may_have_run c |}.
Definition with_may_have_run (b : bool) (c : Collector) : Collector := {|
  k_stdout := k_stdout c; k_stderr := k_stderr c; k_limit := k_limit c; k_exit_code := k_exit_code c;
  k_exit_signal := k_exit_signal c; k_may_have_run := b |}.

Definition rejected_text : str := lit "SSH peer rejected the RouterOS EXEC request".

Section owner.

(** The library's [Debug] of a signal name. *)
Context (signal_debug : Sig -> str).

Definition signal_text (s : Sig) : str := lit "RouterOS command exited with signal " ++ signal_debug s.

(** [None]: keep draining. *)
Definition event (c : Collector) (message : option ChannelMsg) : Collector * option (result unit str) :=
  match message with
  | Some (Data data) => (with_stdout c (append (k_stdout c) data (k_limit c)), None)
  | Some (ExtendedData ext data) =>
      if ext =? 1 then (with_stderr c (append (k_stderr c) data (k_limit c)), None)
      else (with_stdout c (append (k_stdout c) data (k_limit c)), None)
  | Some (ExitStatus code) => (with_exit c (Some code) (k_exit_signal c), None)
  | Some (ExitSignal s) => (with_exit c (k_exit_code c) (Some (signal_text s)), None)
  | Some Failure => (with_may_have_run false c, Some (Err rejected_text))
  | Some Close =>
      (c, Some match k_exit_signal c with
          | Some signal => Err signal
          | None =>
              match k_exit_code c with
              | None => Err (lit "RouterOS channel closed without an exit status")
              | Some _ => Ok tt
              end
          end)
  | None => (c, Some (Err (lit "RouterOS channel ended without SSH Close")))
  | Some (Eof | OtherMsg) => (c, None)
  end.

Definition finish (c : Collector) (r : result unit str) : NativeResult :=
  let '(out, out_cut, out_tokens) := prefix_finish (k_stdout c) in
  let '(err, err_cut, err_tokens) := prefix_finish (k_stderr c) in
  let output := {| stdout := out; stderr := err; exit_code := k_exit_code c; stdout_truncated := out_cut;
    stderr_truncated := err_cut; stdout_total_tokens := out_tokens; stderr_total_tokens := err_tokens |} in
  match r with
  | Ok _ => Ok output
  | Err message => Err {| f_output := output; f_message := message; f_may_have_run := k_may_have_run c |}
  end.

Definition no_output : CommandOutput := {|
  stdout := []; stderr := []; exit_code := None; stdout_truncated := false; stderr_truncated := false;
  stdout_total_tokens := 0; stderr_total_tokens := 0 |}.

Definition not_started (message : str) : NativeResult :=
  Err {| f_output := no_output; f_message := message; f_may_have_run := false |}.

(** ** The owner task *)

(** [open_channel_attempt_detailed]: the generation of the channel, or why there is none. *)
Record ChannelOpenAttemptFailure : Type := {
  failure_generation : option Z; failure_error : SshMcpError; budget_elapsed : bool }.

(** The waits of the owner in order. [w_open_late] is the answer to the OPEN
    when the request stops before it; [w_before_open], [w_before_exec] are the
    looks between the waits. *)
Record owner_env : Type := {
  w_slot : instant * waited (result unit SshMcpError);
  w_connect : instant * waited (result unit SshMcpError);
  w_before_open : instant;
  w_open : instant * waited (result Z ChannelOpenAttemptFailure);
  w_open_late : result Z ChannelOpenAttemptFailure;
  w_before_exec : instant;
  w_exec : instant * waited (result unit str);
  w_events : list (instant * waited (option ChannelMsg))
}.

Inductive action : Type :=
  | ExecQueued (command : str)
  | ChannelClosed
  | Answered (r : NativeResult)
  | Invalidated (generation : Z) (reason : str).

Context (deadline : Z) (max_output_tokens : option Z) (command : str).

(** [send_result]: the sender is taken by the first answer. *)
Definition send_result (sent : bool) (r : NativeResult) : traced action unit :=
  if sent then tret tt else act (Answered r).

(** The draining loop; [None] while the channel stays silent. *)
Fixpoint collect_loop (c : Collector) (events : list (instant * waited (option ChannelMsg))) :
    option (Collector * result unit str) :=
  match events with
  | [] => None
  | (i, w) :: events =>
      match wait deadline i w with
      | Err r => Some (c, Err (stop_text r))
      | Ok m =>
          match event c m with
          | (c, Some r) => Some (c, r)
          | (c, None) => collect_loop c events
          end
      end
  end.

Definition close_and_answer (sent : bool) (c : Collector) (r : result unit str) : traced action (option unit) :=
  let! _ := act ChannelClosed in
  let! _ := send_result sent (finish c r) in
  tret (Some tt).

(** With a channel: EXEC unless the request has stopped. *)
Definition owner_exec (env : owner_env) (sent : bool) : traced action (option unit) :=
  let c := Collector_new max_output_tokens in
  match reason deadline (w_before_exec env) with
  | Some r => close_and_answer sent c (Err (stop_text r))
  | None =>
      match wait deadline (w_exec env).1 (w_exec env).2 with
      | Ok (Ok _) =>
          let! _ := act (ExecQueued command) in
          match collect_loop (with_may_have_run true c) (w_events env) with
          | None => tret None
          | Some (c, r) => close_and_answer sent c r
          end
      | Ok (Err e) => close_and_answer sent c (Err (lit "Failed to enqueue RouterOS EXEC: " ++ e))
      | Err r => close_and_answer sent c (Err (stop_text r))
      end
  end.

Definition owner_open_failed (sent : bool) (failure : ChannelOpenAttemptFailure) : traced action (option unit) :=
  let! _ := send_result sent (not_started (error_display (failure_error failure))) in
  let! _ := match failure_generation failure with
    | Some g =>
        if budget_elapsed failure then act (Invalidated g (lit "native channel OPEN acquisition budget exhausted"))
        else tret tt
    | None => tret tt
    end in
  tret (Some tt).

Definition refuse (message : str) : traced action (option unit) :=
  let! _ := act (Answered (not_started message)) in tret (Some tt).

Definition routeros_owner (env : owner_env) : traced action (option unit) :=
  match wait deadline (w_slot env).1 (w_slot env).2 with
  | Ok (Err e) => refuse (error_display e)
  | Err r => refuse (stop_text r)
  | Ok (Ok _) =>
      match wait deadline (w_connect env).1 (w_connect env).2 with
      | Ok (Err e) => refuse (error_display e)
      | Err r => refuse (stop_text r)
      | Ok (Ok _) =>
          match reason deadline (w_before_open env) with
          | Some r => refuse (stop_text r)
          | None =>
              let! opened := match wait deadline (w_open env).1 (w_open env).2 with
                | Ok opened => tret (false, opened)
                | Err r => let! _ := act (Answered (not_started (stop_text r))) in tret (true, w_open_late env)
                end in
              match opened with
              | (sent, Err failure) => owner_open_failed sent failure
              | (sent, Ok _) => owner_exec env sent
              end
          end
      end
  end.

Definition answers (t : list action) : list NativeResult :=
  omap (fun a => match a with Answered r => Some r | _ => None end) t.
Definition execs (t : list action) : list str :=
  omap (fun a => match a with ExecQueued c => Some c | _ => None end) t.
End owner.

(** The caller: [deadline] is [None] when the budget overflows the clock; an
    owner that ends without an answer may have sent the command. *)
Definition exec_routeros_command (signal_debug : Sig -> str) (deadline : option Z) (max_output_tokens : option Z)
    (command : str) (env : owner_env) : option NativeResult :=
  match deadline with
  | None => Some (not_started (lit "RouterOS command timeout is too large"))
  | Some deadline =>
      let '(ended, t) := routeros_owner signal_debug deadline max_output_tokens command env [] in
      match answers t, ended with
      | r :: _, _ => Some r
      | [], None => None
      | [], Some _ => Some (Err {| f_output := no_output;
          f_message := lit "RouterOS execution owner ended unexpectedly"; f_may_have_run := true |})
      end
  end.

(** ** The answer (handlers/routeros.rs) *)

Definition append_truncation_notice (o : CommandOutput) : CommandOutput :=
  let notice (name : str) (cut : bool) :=
    if cut then [NL] ++ lit "[" ++ name ++ lit " truncated at the configured output limit]" else [] in
  {| stdout := stdout o ++ notice (lit "stdout") (stdout_truncated o) ++ notice (lit "stderr") (stderr_truncated o);
     stderr := stderr o; exit_code := exit_code o; stdout_truncated := stdout_truncated o;
     stderr_truncated := stderr_truncated o; stdout_total_tokens := stdout_total_tokens o;
     stderr_total_tokens := stderr_total_tokens o |}.

(** Both streams, the second under a heading. *)
Definition joined_output (o : CommandOutput) : str :=
  if str_eqb (stderr o) [] then stdout o
  else stdout o ++ (if str_eqb (stdout o) [] then [] else [NL] ++ lit "--- stderr ---" ++ [NL]) ++ stderr o.

Definition may_have_run_text : str :=
  lit "Command may have run; do not automatically retry. Channel closure does not guarantee remote termination or rollback; verify relevant RouterOS state.".
Definition not_started_text : str := lit "Command not started (EXEC was not queued or was explicitly rejected).".

(** The text of an error answer. *)
Definition failure_result (f : RouterOsExecFailure) : str :=
  let o := append_truncation_notice (f_output f) in
  let text := joined_output o in
  text ++ (if str_eqb text [] then [] else [NL; NL]) ++
  match exit_code o with Some code => lit "SSH exit status received: " ++ show_int code ++ [NL] | None => [] end ++
  lit "Error: " ++ f_message f ++ [NL] ++ (if f_may_have_run f then may_have_run_text else not_started_text).

(** [calltool_from_command_output] (src/server.rs): whether the answer is a
    success, and its text. *)
Definition calltool_from_command_output (o : CommandOutput) : bool * str :=
  let text := joined_output o in
  match exit_code o with
  | Some 0 => (true, text)
  | code =>
      (false, text ++ (if str_eqb text [] then [] else [NL; NL]) ++
        match code with
        | Some code => lit "Command failed with exit code " ++ show_int code
        | None => lit "Command failed: exit status unavailable"
        end)
  end.

Definition routeros_answer (r : NativeResult) : bool * str :=
  match r with
  | Ok o => calltool_from_command_output (append_truncation_notice o)
  | Err f => (false, failure_result f)
  end.

(** ** What is collected *)

(** The bytes each stream carries and the last exit status. *)
Definition out_bytes (ms : list (option ChannelMsg)) : bytes :=
  flat_map (fun m => match m with
    | Some (Data d) => d
    | Some (ExtendedData ext d) => if ext =? 1 then [] else d
    | _ => [] end) ms.
Definition err_bytes (ms : list (option ChannelMsg)) : bytes :=
  flat_map (fun m => match m with Some (ExtendedData ext d) => if ext =? 1 then d else [] | _ => [] end) ms.
Definition last_status (ms : list (option ChannelMsg)) : option Z :=
  last (omap (fun m => match m with Some (ExitStatus c) => Some c | _ => None end) ms).

Definition byte_limit (max_tokens : option Z) : option Z :=
  (fun tokens => saturating_mul USIZE_MAX tokens BYTES_PER_TOKEN) <$> max_tokens.

(** The prefix of a stream that is kept. *)
Definition kept (limit : option Z) (all : bytes) : BytePrefix := {|
  b_bytes := match limit with Some l => take (Z.to_nat l) all | None => all end;
  total_bytes := Z.min USIZE_MAX (Z.of_nat (length all)) |}.

Definition expected_output (max_tokens : option Z) (ms : list (option ChannelMsg)) : CommandOutput :=
  let '(out, out_cut, out_tokens) := prefix_finish (kept (byte_limit max_tokens) (out_bytes ms)) in
  let '(err, err_cut, err_tokens) := prefix_finish (kept (byte_limit max_tokens) (err_bytes ms)) in
  {| stdout := out; stderr := err; exit_code := last_status ms; stdout_truncated := out_cut; stderr_truncated := err_cut;
     stdout_total_tokens := out_tokens; stderr_total_tokens := err_tokens |}.

Lemma kept_nil limit : kept limit [] = BytePrefix_default.
Proof. unfold kept. destruct limit; [by rewrite take_nil|done]. Qed.

Lemma append_kept limit all data :
  (forall l, limit = Some l -> 0 <= l) -> append (kept limit all) data limit = kept limit (all ++ data).
Proof.
  intros Hl. unfold append, kept. cbn [b_bytes total_bytes]. f_equal.
  - destruct limit as [l|]; [|by rewrite Nat2Z.id, firstn_all]. specialize (Hl l eq_refl).
    rewrite take_app, length_take. f_equal. unfold saturating_sub.
    assert (E : forall n, take n data = take (n `min` length data)%nat data).
    { intros n. by rewrite <- firstn_firstn, firstn_all. }
    rewrite (E (Z.to_nat l - length all)%nat). f_equal. lia.
  - unfold saturating_add. rewrite length_app. lia.
Qed.

Section correct.
Context (signal_debug : Sig -> str) (deadline : Z) (max_tokens : option Z) (command : str).
Context (Hmax : forall n, max_tokens = Some n -> 0 <= n).

Lemma byte_limit_nonneg l : byte_limit max_tokens = Some l -> 0 <= l.
Proof.
  unfold byte_limit, saturating_mul, BYTES_PER_TOKEN. destruct max_tokens as [n|]; [|done].
  intros [= <-]. specialize (Hmax n eq_refl). assert (0 <= USIZE_MAX) by done. lia.
Qed.

(** The collector after a list of messages none of which decided the result. *)
Definition collector_of (ms : list (option ChannelMsg)) (c : Collector) : Prop :=
  k_stdout c = kept (byte_limit max_tokens) (out_bytes ms) /\
  k_stderr c = kept (byte_limit max_tokens) (err_bytes ms) /\
  k_limit c = byte_limit max_tokens /\
  k_exit_code c = last_status ms /\
  (k_exit_signal c = None -> forall s, Some (ExitSignal s) ∉ ms).

Lemma collector_new_of b : collector_of [] (with_may_have_run b (Collector_new max_tokens)).
Proof.
  unfold collector_of. cbn. rewrite kept_nil. by split_and!; [..|intros _ s Hs%not_elem_of_nil].
Qed.

Lemma last_status_app ms m :
  last_status (ms ++ [m]) = match m with Some (ExitStatus c) => Some c | _ => last_status ms end.
Proof.
  unfold last_status. rewrite omap_app. destruct m as [[]|]; cbn; rewrite ?app_nil_r; try done. by rewrite last_snoc.
Qed.

Lemma event_collects ms c m :
  collector_of ms c -> collector_of (ms ++ [m]) (event signal_debug c m).1.
Proof.
  intros (Ho & He & Hl & Hx & Hs). unfold collector_of.
  unfold out_bytes, err_bytes. rewrite !flat_map_app, last_status_app. fold out_bytes err_bytes. cbn [flat_map].
  rewrite !app_nil_r. fold (out_bytes ms) (err_bytes ms).
  pose proof byte_limit_nonneg as Hb.
  assert (Hsig : forall c', k_exit_signal c' = k_exit_signal c -> (forall s, m <> Some (ExitSignal s)) ->
    k_exit_signal c' = None -> forall s, Some (ExitSignal s) ∉ ms ++ [m]).
  { intros c' E Hm E' s. rewrite E in E'. rewrite not_elem_of_app, list_elem_of_singleton. split; [by apply Hs|].
    intros H. by destruct (Hm s). }
  destruct m as [[d|ext d|code|s| | | |]|]; cbn [event fst];
    [|destruct (ext =? 1)|..]; cbn [fst with_stdout with_stderr with_exit with_may_have_run k_stdout k_stderr k_limit k_exit_code k_exit_signal];
    rewrite ?app_nil_r, ?Ho, ?He, ?Hl, ?Hx, ?append_kept by done; split_and!; try done; by (apply (Hsig c)).
Qed.

Definition deciding (m : option ChannelMsg) : bool :=
  match m with Some Failure | Some Close | None => true | _ => false end.

(** The messages the owner takes from the channel. *)
Fixpoint received (events : list (instant * waited (option ChannelMsg))) : list (option ChannelMsg) :=
  match events with
  | [] => []
  | (i, w) :: events =>
      match wait deadline i w with
      | Ok m => m :: (if deciding m then [] else received events)
      | Err _ => []
      end
  end.

(** How a result relates to the messages: success is an exit status, no
    signal and a proper close; a rejection clears the flag. *)
Definition decided (ms : list (option ChannelMsg)) (c : Collector) (r : result unit str) : Prop :=
  (r = Ok tt -> last ms = Some (Some Close) /\ is_Some (last_status ms) /\ (forall s, Some (ExitSignal s) ∉ ms)) /\
  (k_may_have_run c = false <-> Some Failure ∈ ms).

Lemma event_decides c m c' r :
  event signal_debug c m = (c', Some r) ->
  deciding m = true /\ k_may_have_run c' = (if bool_decide (m = Some Failure) then false else k_may_have_run c) /\
  (r = Ok tt -> m = Some Close /\ is_Some (k_exit_code c') /\ k_exit_signal c' = None).
Proof.
  destruct m as [[d|ext d|code|s| | | |]|]; cbn; try (intros [= <- <-]); try done; [by destruct (ext =? 1)|..].
  split_and!; [done|done|]. destruct (k_exit_signal c), (k_exit_code c); naive_solver.
Qed.

Lemma event_continues c m c' :
  event signal_debug c m = (c', None) -> deciding m = false /\ k_may_have_run c' = k_may_have_run c /\ m <> Some Failure.
Proof.
  destruct m as [[d|ext d|code|s| | | |]|]; cbn; try (intros [= <-]); try done. destruct (ext =? 1); by intros [= <-].
Qed.

Lemma collect_loop_sound events : forall ms c c' r,
  collector_of ms c -> k_may_have_run c = true -> Some Failure ∉ ms ->
  collect_loop signal_debug deadline c events = Some (c', r) ->
  collector_of (ms ++ received events) c' /\ decided (ms ++ received events) c' r.
Proof.
  induction events as [|[i w] events IH]; intros ms c c' r Hc Hm Hf H; [done|]. cbn [collect_loop received] in *.
  destruct (wait deadline i w) as [m|x].
  - pose proof (event_collects _ _ m Hc) as Hc'. destruct (event signal_debug c m) as [c1 [r1|]] eqn:E; cbn [fst] in Hc'.
    + injection H as <- <-. apply event_decides in E as (-> & Hmay & Hok). split; [done|]. split.
      * intros Hr. destruct (Hok Hr) as (-> & Hx & Hs). destruct Hc' as (_ & _ & _ & Hx' & Hs').
        rewrite last_snoc, <- Hx'. auto.
      * rewrite Hmay, Hm, elem_of_app, list_elem_of_singleton. case_bool_decide; naive_solver.
    + apply event_continues in E as (-> & Hmay & Hnf). rewrite cons_middle, app_assoc. eapply IH; [done|congruence| |done].
      rewrite elem_of_app, list_elem_of_singleton. naive_solver.
  - injection H as <- <-. rewrite app_nil_r. split; [done|]. split; [done|]. rewrite Hm. split; [done|]. by intros Hin%Hf.
Qed.

(** The loop is still waiting only while the deadline has not been seen. *)
Lemma collect_loop_pending events : forall c,
  collect_loop signal_debug deadline c events = None -> Forall (fun x => now x.1 < deadline) events.
Proof.
  induction events as [|[i w] events IH]; intros c H; [done|]. cbn [collect_loop] in H.
  unfold wait, reason in H. cbn in H. destruct (is_shutdown i); [done|]. destruct (is_cancelled i); [done|].
  destruct (deadline <=? now i) eqn:E; [done|]. bool_hyps. constructor; [done|].
  destruct w as [m|x]; [|done]. destruct (event signal_debug c m) as [c1 [r1|]]; [done|]. by eapply IH.
Qed.

Lemma finish_expected ms c r :
  collector_of ms c ->
  finish c r = match r with
    | Ok _ => Ok (expected_output max_tokens ms)
    | Err message => Err {| f_output := expected_output max_tokens ms; f_message := message; f_may_have_run := k_may_have_run c |}
    end.
Proof.
  intros (Ho & He & Hl & Hx & _). unfold finish, expected_output. rewrite Ho, He, Hx. done.
Qed.

Notation owner env := (routeros_owner signal_debug deadline max_tokens command env).

(** What the task may report when it sent [sent_commands] and took the messages [ms]. *)
Definition truthful (sent_commands : list str) (ms : list (option ChannelMsg)) (r : NativeResult) : Prop :=
  match r with
  | Ok out => sent_commands = [command] /\ out = expected_output max_tokens ms /\
      last ms = Some (Some Close) /\ is_Some (last_status ms) /\ forall s, Some (ExitSignal s) ∉ ms
  | Err f => f_output f = expected_output max_tokens ms /\
      (f_may_have_run f = true <-> sent_commands = [command] /\ Some Failure ∉ ms)
  end.

(** A complete run sends EXEC at most once and answers once, truthfully; a
    pending one has sent EXEC and not answered. *)
Definition sound_run (env : owner_env) (run : option unit * list action) : Prop :=
  let '(ended, t) := run in
  (execs t = [] \/ execs t = [command]) /\
  match ended with
  | Some _ => exists r, answers t = [r] /\ truthful (execs t) (if decide (execs t = []) then [] else received (w_events env)) r
  | None => answers t = [] /\ execs t = [command] /\ Forall (fun x => now x.1 < deadline) (w_events env)
  end.

Lemma not_started_truthful message : truthful [] [] (not_started message).
Proof.
  split; [|split; [done|by intros [? _]]]. unfold expected_output.
  change (out_bytes []) with (@nil Z). change (err_bytes []) with (@nil Z). by rewrite kept_nil.
Qed.

Lemma refuse_sound env message : sound_run env (refuse message []).
Proof. cbn. split; [by left|]. eexists. split; [done|]. apply not_started_truthful. Qed.

Lemma open_failed_sound env failure :
  sound_run env (owner_open_failed false failure []) /\
  forall r, truthful [] [] r -> sound_run env (owner_open_failed true failure [Answered r]).
Proof.
  unfold owner_open_failed, send_result, tbind, tret, act.
  split; [|intros r Hr]; destruct (failure_generation failure); [destruct (budget_elapsed failure)| |destruct (budget_elapsed failure)|];
    cbn; (split; [by left|]); eexists; (split; [done|]); by try apply not_started_truthful.
Qed.

Lemma close_run c r t :
  close_and_answer false c r t = (Some tt, t ++ [ChannelClosed; Answered (finish c r)]).
Proof. unfold close_and_answer, send_result, tbind, act, tret. by rewrite <- app_assoc. Qed.

Lemma exec_sound env : sound_run env (owner_exec signal_debug deadline max_tokens command env false []).
Proof.
  assert (Hstop : forall m, sound_run env (close_and_answer false (Collector_new max_tokens) (Err m) [])).
  { intros m. rewrite close_run. split; [by left|]. eexists. split; [done|].
    rewrite (finish_expected [] (Collector_new max_tokens) _ (collector_new_of false)).
    split; [done|]. split; [done|]. by intros [? _]. }
  unfold owner_exec. destruct (reason _ _); [apply Hstop|].
  destruct (wait _ _ _) as [[[]|e]|r]; [|apply Hstop..].
  unfold tbind at 1. cbn [act app]. destruct (collect_loop _ _ _ _) as [[c r]|] eqn:E.
  - pose proof (collect_loop_sound _ [] _ _ _ (collector_new_of true) eq_refl (not_elem_of_nil _) E) as [Hc [Hok Hf]].
    rewrite close_run. split; [by right|]. eexists. split; [done|]. rewrite (finish_expected _ _ _ Hc).
    change (if decide _ then _ else _) with (received (w_events env)). cbn [app] in *.
    destruct r as [[]|m]; cbn; [by destruct (Hok eq_refl) as (? & ? & ?)|].
    split; [done|]. destruct (k_may_have_run c); naive_solver.
  - cbn. apply collect_loop_pending in E. auto.
Qed.

(** C6. Native execution sends EXEC at most once, never after it has
    answered, and answers exactly once (and cannot stay silent beyond the
    deadline). Success means the command was sent, an exit status arrived, no
    signal did, and the peer closed the channel; the output is the longest
    allowed prefix of what the peer sent, with the true total. A failure
    carries the output received so far and says the command may have run
    exactly when EXEC was queued and the peer did not reject it. *)
Theorem routeros_owner_truthful (env : owner_env)
    (Hstop : forall r, wait deadline (w_open env).1 (w_open env).2 = Err r -> reason deadline (w_before_exec env) <> None) :
  sound_run env (owner env []).
Proof.
  unfold routeros_owner. destruct (wait _ (w_slot env).1 _) as [[[]|e]|r]; [|apply refuse_sound..].
  destruct (wait _ (w_connect env).1 _) as [[[]|e]|r]; [|apply refuse_sound..].
  destruct (reason _ (w_before_open env)); [apply refuse_sound|].
  destruct (wait _ (w_open env).1 _) as [[g|f]|r] eqn:E; cbn.
  - apply exec_sound.
  - apply (proj1 (open_failed_sound env f)).
  - specialize (Hstop r eq_refl). unfold tbind, act, tret. cbn [app].
    destruct (w_open_late env) as [g|f]; [|apply (proj2 (open_failed_sound env f)), not_started_truthful].
    unfold owner_exec. destruct (reason _ (w_before_exec env)) as [x|]; [|done].
    cbn. split; [by left|]. eexists. split; [done|]. apply not_started_truthful.
Qed.
End correct.

(** Native output in two packets, then the status and the close. *)
Definition sample_env : owner_env :=
  let t n := {| is_shutdown := false; is_cancelled := false; now := n |} in
  {| w_slot := (t 0, Completed (Ok tt)); w_connect := (t 1, Completed (Ok tt)); w_before_open := t 2;
     w_open := (t 3, Completed (Ok 7)); w_open_late := Ok 7; w_before_exec := t 4; w_exec := (t 5, Completed (Ok tt));
     w_events := [(t 6, Completed (Some (Data (lit "na")))); (t 7, Completed (Some (ExitStatus 0)));
                  (t 8, Completed (Some (Data (lit "me")))); (t 9, Completed (Some Close))] |}.

Lemma routeros_owner_truthful_witness :
  let run := routeros_owner (fun _ => []) 100 (Some 16) (lit "/system identity print") sample_env [] in
  execs run.2 = [lit "/system identity print"] /\
  sound_run 100 (Some 16) (lit "/system identity print") sample_env run.
Proof.
  intros run. split; [vm_compute; reflexivity|].
  apply (routeros_owner_truthful (fun _ => []) 100 (Some 16) (lit "/system identity print")).
  - intros n [= <-]. done.
  - intros r H. vm_compute in H. discriminate H.
Defined.

Example routeros_sample_answer :
  routeros_answer <$> exec_routeros_command (fun _ => []) (Some 100) (Some 16) (lit "/system identity print") sample_env
  = Some (true, lit "name").
Proof. reflexivity. Qed.
