(* ===== verification/LocalRoot.v ===== *)
(** * Local paths (src/transfer/local_root.rs, walk.rs)

    The policy for local paths of a transfer: the join with the local root,
    the rejection of symbolic links, the creation of missing parent
    directories, and the counting walk. The file system below the local root
    is a map from relative names to kinds. *)
From Stdlib Require Import ZArith String.
From stdpp Require Import base list gmap.
From S2P Require Import Prelude Errors Paths TransferTypes.

(** ** Joining with the local root *)

(** [Path::strip_prefix], on components. *)
Definition strip_components (base path : str) : option (list component) :=
  let b := components base in
  let p := components path in
  if bool_decide (take (length b) p = b) then Some (drop (length b) p) else None.

Definition no_dotdot_error : str := lit "local_path must not contain '..'".

(** The loop over the components of a relative path: whether one is a name. *)
Fixpoint scan_relative (l : list component) (saw_normal_component : bool) : result bool str :=
  match l with
  | [] => Ok saw_normal_component
  | Normal _ :: l => scan_relative l true
  | CurDir :: l => scan_relative l saw_normal_component
  | ParentDir :: _ => Err no_dotdot_error
  | RootDir :: _ => Err (lit "local_path must be a relative path")
  end.

Definition safe_join_local_root (local_root user_path : str) : result str str :=
  let trimmed := trim user_path in
  if str_eqb trimmed [] then Err (lit "local_path cannot be empty")
  else if is_absolute trimmed then
    match strip_components local_root trimmed with
    | None => Err (lit "local_path " ++ trimmed ++ lit " is outside local_root " ++ local_root)
    | Some stripped =>
        if bool_decide (ParentDir ∈ stripped) then Err no_dotdot_error
        else if bool_decide (stripped = []) then Err (lit "local_path must not be the local_root directory itself")
        else Ok trimmed
    end
  else
    let? saw_normal_component := scan_relative (components trimmed) false in
    if negb saw_normal_component then Err (lit "local_path must not normalize to '.'")
    else Ok (path_join local_root trimmed).

(** ** The file system below the root *)

Inductive lkind : Type := KFile | KDir | KSymlink | KOther.
#[global] Instance lkind_eq_dec : EqDecision lkind.
Proof. solve_decision. Defined.

Notation local_fs := (gmap (list str) lkind) (only parsing).

Inductive io_error : Type := NotFound | AlreadyExists | OtherIo (msg : str).
Definition io_text (e : io_error) : str :=
  match e with
  | NotFound => lit "No such file or directory (os error 2)"
  | AlreadyExists => lit "File exists (os error 17)"
  | OtherIo msg => msg
  end.

(** [lstat]: the root is a directory; a path below anything that is not a
    directory has no entry. Paths below a symbolic link are never asked for. *)
Definition kind_at (fs : local_fs) (p : list str) : option lkind :=
  match p with [] => Some KDir | _ => fs !! p end.

Fixpoint dirs_above (fs : local_fs) (above rest : list str) : option io_error :=
  match rest with
  | [] | [_] => None
  | n :: rest =>
      match fs !! (above ++ [n]) with
      | Some KDir => dirs_above fs (above ++ [n]) rest
      | None => Some NotFound
      | Some _ => Some (OtherIo (lit "Not a directory (os error 20)"))
      end
  end.

Definition symlink_metadata (fs : local_fs) (p : list str) : result lkind io_error :=
  match dirs_above fs [] p with
  | Some e => Err e
  | None => ok_or (kind_at fs p) NotFound
  end.

(** [denied]: where the process may not create entries. *)
Definition create_dir (denied : list str -> bool) (p : list str) (fs : local_fs) : result unit io_error * local_fs :=
  match dirs_above fs [] p with
  | Some e => (Err e, fs)
  | None =>
      match kind_at fs p with
      | Some _ => (Err AlreadyExists, fs)
      | None => if denied p then (Err (OtherIo (lit "Permission denied (os error 13)")), fs) else (Ok tt, <[p := KDir]> fs)
      end
  end.

(** ** Symbolic links *)

Definition traverses_error : str := lit "local_path traverses a symlink component".
Definition relative_error : str := lit "local_path must be a relative path within local_root".
Definition within_error : str := lit "local_path must be within local_root".

(** The loop of both validators; [cursor] is relative to the root. *)
Fixpoint no_symlinks_loop (fs : local_fs) (cursor : list str) (l : list component) : result unit str :=
  match l with
  | [] => Ok tt
  | Normal seg :: l =>
      let cursor := cursor ++ [seg] in
      match symlink_metadata fs cursor with
      | Ok KSymlink => Err traverses_error
      | _ => no_symlinks_loop fs cursor l
      end
  | CurDir :: l => no_symlinks_loop fs cursor l
  | (ParentDir | RootDir) :: _ => Err relative_error
  end.

Definition validate_no_symlinks (local_root path : str) (fs : local_fs) : result unit str :=
  match strip_components local_root path with
  | None => Err within_error
  | Some rel => no_symlinks_loop fs [] rel
  end.
Definition validate_put_source_no_symlinks := validate_no_symlinks.
Definition validate_get_target_no_symlinks := validate_no_symlinks.

(** ** Missing parent directories *)

Definition parent_error : SshMcpError := InvalidParams (lit "local_path parent component is not a directory").

(** What the kind of an existing component allows. *)
Definition check_parent (k : lkind) : result unit SshMcpError :=
  match k with
  | KSymlink => Err (InvalidParams traverses_error)
  | KDir => Ok tt
  | _ => Err parent_error
  end.

Definition ensure_component (denied : list str -> bool) (cursor : list str) (fs : local_fs) :
    result unit SshMcpError * local_fs :=
  match symlink_metadata fs cursor with
  | Ok k => (check_parent k, fs)
  | Err NotFound =>
      match create_dir denied cursor fs with
      | (Ok _, fs) | (Err AlreadyExists, fs) =>
          match symlink_metadata fs cursor with
          | Ok k => (check_parent k, fs)
          | Err e => (Err (Io (io_text e)), fs)
          end
      | (Err e, fs) => (Err (Io (io_text e)), fs)
      end
  | Err e => (Err (Io (io_text e)), fs)
  end.

Fixpoint ensure_loop (denied : list str -> bool) (cursor : list str) (l : list component) (fs : local_fs) :
    result unit SshMcpError * local_fs :=
  match l with
  | [] | [_] => (Ok tt, fs)
  | Normal seg :: l =>
      match ensure_component denied (cursor ++ [seg]) fs with
      | (Err e, fs) => (Err e, fs)
      | (Ok _, fs) => ensure_loop denied (cursor ++ [seg]) l fs
      end
  | CurDir :: l => ensure_loop denied cursor l fs
  | (ParentDir | RootDir) :: _ => (Err (InvalidParams relative_error), fs)
  end.

Definition ensure_parent_dirs_no_symlinks (denied : list str -> bool) (local_root path : str) (fs : local_fs) :
    result unit SshMcpError * local_fs :=
  match strip_components local_root path with
  | None => (Err (InvalidParams within_error), fs)
  | Some rel => ensure_loop denied [] rel fs
  end.

(** ** Resolution of a transfer's local path (src/transfer/mod.rs) *)

Definition resolve_paths (local_root local_path : str) : result str str := safe_join_local_root local_root local_path.

Definition resolve_and_validate_local_paths (denied : list str -> bool) (local_root : str) (operation : TransferOperation)
    (local_path : str) (fs : local_fs) : result str SshMcpError * local_fs :=
  match rmap_err InvalidParams (resolve_paths local_root local_path) with
  | Err e => (Err e, fs)
  | Ok path =>
      match operation with
      | Get =>
          match rmap_err InvalidParams (validate_get_target_no_symlinks local_root path fs) with
          | Err e => (Err e, fs)
          | Ok _ =>
              match ensure_parent_dirs_no_symlinks denied local_root path fs with
              | (Err e, fs) => (Err e, fs)
              | (Ok _, fs) => (Ok path, fs)
              end
          end
      | Put =>
          match rmap_err InvalidParams (validate_put_source_no_symlinks local_root path fs) with
          | Err e => (Err e, fs)
          | Ok _ => (Ok path, fs)
          end
      end
  end.

(** ** The join stays below the root *)

Definition names_below (local_root path : str) (names : list str) : Prop :=
  names <> [] /\ components path = components local_root ++ map Normal names.

Lemma filter_all {A} (P : A -> Prop) `{!forall x, Decision (P x)} (l : list A) : Forall P l -> filter P l = l.
Proof. induction 1 as [|x l Hx _ IH]; [done|]. by rewrite filter_cons, decide_True, IH. Qed.

Lemma body_components_relative p :
  is_absolute p = false ->
  omap body_component (split_char SLASH p) = filter (fun c => c <> CurDir) (components p).
Proof.
  intros H. unfold components. rewrite H. pose proof (split_char_ne SLASH p) as Hne.
  destruct (split_char SLASH p) as [|f r]; [done|].
  assert (Hr : filter (fun c => c <> CurDir) (omap body_component r) = omap body_component r).
  { apply filter_all, Forall_forall. intros c [x [_ Hx]]%list_elem_of_omap ->.
    by destruct (body_component_kind _ _ Hx). }
  rewrite filter_app, Hr. cbn [omap list_omap].
  destruct (str_eqb f (lit ".")) eqn:E.
  - apply str_eqb_spec in E as ->. done.
  - destruct (body_component f) as [c|] eqn:Ef; [|done]. cbn. rewrite decide_True; [done|].
    intros ->. by destruct (body_component_kind _ _ Ef).
Qed.

(** Joining a relative path to an absolute one concatenates the components. *)
Lemma components_join base rel :
  is_absolute base = true -> is_absolute rel = false ->
  components (path_join base rel) = components base ++ filter (fun c => c <> CurDir) (components rel).
Proof.
  intros Hb Hr. rewrite <- body_components_relative by done. unfold path_join. rewrite Hr.
  destruct (str_eqb base []) eqn:E; [apply str_eqb_spec in E as ->; done|]. clear E.
  destruct (ends_with [SLASH] base) eqn:F.
  - apply ends_with_spec in F as [r ->]. rewrite <- app_assoc. change ([SLASH] ++ rel) with (SLASH :: rel).
    unfold components. rewrite Hb. replace (is_absolute (r ++ SLASH :: rel)) with true by (destruct r; [done|exact (eq_sym Hb)]).
    rewrite !split_char_cat, !omap_app. cbn. by rewrite app_nil_r.
  - unfold components. rewrite Hb.
    replace (is_absolute (base ++ [SLASH] ++ rel)) with true by (destruct base; [done|exact (eq_sym Hb)]).
    change ([SLASH] ++ rel) with (SLASH :: rel). by rewrite split_char_cat, omap_app.
Qed.

Lemma scan_relative_spec l saw :
  RootDir ∉ l ->
  match scan_relative l saw with
  | Ok b => ParentDir ∉ l /\ b = saw || existsb (fun c => match c with Normal _ => true | _ => false end) l
  | Err e => ParentDir ∈ l /\ e = no_dotdot_error
  end.
Proof.
  revert saw. induction l as [|c l IH]; intros saw Hl; cbn.
  { split; [by apply not_elem_of_nil|by rewrite orb_false_r]. }
  apply not_elem_of_cons in Hl as [Hc Hl]. destruct c as [| | |n]; [done| | |].
  - specialize (IH saw Hl). destruct (scan_relative l saw); [|by set_solver]. split; [set_solver|tauto].
  - split; [set_solver|done].
  - specialize (IH true Hl). destruct (scan_relative l true) as [b|]; [|by set_solver].
    split; [set_solver|]. destruct IH as [_ ->]. by rewrite orb_true_r.
Qed.

Lemma only_names l : Forall (fun c => exists n, c = Normal n) l -> exists names, l = map Normal names.
Proof. induction 1 as [|c l [n ->] _ [names ->]]; [by exists []|by exists (n :: names)]. Qed.

Lemma strip_components_Some base path r :
  strip_components base path = Some r <-> components path = components base ++ r.
Proof.
  unfold strip_components. case_bool_decide as H; split; intros E; simplify_eq.
  - rewrite <- (take_drop (length (components base)) (components path)) at 1. by rewrite H.
  - f_equal. rewrite E. by rewrite drop_app_length.
  - exfalso. apply H. rewrite E. by rewrite take_app_length.
Qed.

Lemma absolute_tail_names base path r :
  is_absolute path = true -> components path = components base ++ r -> is_absolute base = true -> ParentDir ∉ r ->
  exists names, r = map Normal names.
Proof.
  intros Hp E Hb Hr. apply only_names, Forall_forall. intros c Hc.
  destruct (components_absolute path Hp) as (l & El & Hcur & Hroot).
  destruct (components_absolute base Hb) as (lb & Eb & _ & _).
  rewrite Eb, El in E. cbn in E. injection E as E. assert (c ∈ l) by (rewrite E; set_solver).
  destruct c; [set_solver..|eauto].
Qed.

Lemma safe_join_confined local_root user path :
  is_absolute local_root = true -> safe_join_local_root local_root user = Ok path ->
  exists names, names_below local_root path names.
Proof.
  intros Hroot. unfold safe_join_local_root. destruct (str_eqb (trim user) []); [done|].
  destruct (is_absolute (trim user)) eqn:Ha.
  - destruct (strip_components _ _) as [r|] eqn:Es; [|done]. apply strip_components_Some in Es.
    case_bool_decide as Hp; [done|]. case_bool_decide as Hn; [done|]. intros [= <-].
    destruct (absolute_tail_names _ _ _ Ha Es Hroot Hp) as [names ->]. exists names. split; [by intros ->|done].
  - assert (Hr : RootDir ∉ components (trim user)) by (intros H%components_root_absolute; congruence).
    pose proof (scan_relative_spec _ false Hr) as Hscan. destruct (scan_relative _ _) as [b|]; [|done].
    destruct Hscan as [Hp Hb]. cbn [rbind]. destruct b; [|done]. cbn. intros [= <-].
    destruct (only_names (filter (fun c => c <> CurDir) (components (trim user)))) as [names E].
    { apply Forall_forall. intros c [Hc Hin]%list_elem_of_filter. destruct c; [done..|eauto]. }
    exists names. split; [|rewrite components_join by done; by rewrite E].
    intros ->. symmetry in Hb. apply existsb_exists in Hb as (c & Hin & Hc). apply list_elem_of_In in Hin.
    assert (c ∈ filter (fun c => c <> CurDir) (components (trim user))) as Hf by (apply list_elem_of_filter; by destruct c).
    rewrite E in Hf. by apply elem_of_nil in Hf.
Qed.

(** ** What the file system operations do along a path *)

(** Every non-empty prefix of [p] is a directory. *)
Definition chain (fs : local_fs) (p : list str) : Prop :=
  forall q n r, p = q ++ n :: r -> fs !! (q ++ [n]) = Some KDir.

Lemma chain_nil fs : chain fs [].
Proof. intros [] n r [=]. Qed.

Lemma chain_snoc fs p n : chain fs p -> fs !! (p ++ [n]) = Some KDir -> chain fs (p ++ [n]).
Proof.
  intros Hc Hn q m r E. destruct r as [|x r] using rev_ind.
  - apply app_inj_tail in E as [<- <-]. done.
  - rewrite app_comm_cons, app_assoc in E. apply app_inj_tail in E as [-> _]. by eapply Hc.
Qed.

Lemma dirs_above_chain fs above rest n :
  (forall q m r, rest = q ++ m :: r -> fs !! (above ++ q ++ [m]) = Some KDir) -> dirs_above fs above (rest ++ [n]) = None.
Proof.
  revert above. induction rest as [|m rest IH]; intros above H; [done|].
  cbn [app dirs_above]. assert (E : fs !! (above ++ [m]) = Some KDir) by apply (H [] m rest eq_refl).
  rewrite E. destruct (rest ++ [n]) eqn:Er; [by destruct rest|]. apply IH.
  intros q x r ->. rewrite <- app_assoc. apply (H (m :: q) x r eq_refl).
Qed.

Lemma chain_dirs fs p n : chain fs p -> dirs_above fs [] (p ++ [n]) = None.
Proof. intros H. apply dirs_above_chain. intros q m r ->. by eapply H. Qed.

Lemma kind_at_snoc fs p n : kind_at fs (p ++ [n]) = fs !! (p ++ [n]).
Proof. by destruct p. Qed.

Lemma symlink_metadata_chain fs p n :
  chain fs p -> symlink_metadata fs (p ++ [n]) = ok_or (fs !! (p ++ [n])) NotFound.
Proof. intros H. unfold symlink_metadata. by rewrite chain_dirs, kind_at_snoc. Qed.

(** One component: it is a directory afterwards, and at most it was created. *)
Lemma ensure_component_spec denied cursor n fs :
  chain fs cursor ->
  match ensure_component denied (cursor ++ [n]) fs with
  | (Ok _, fs') => fs' !! (cursor ++ [n]) = Some KDir /\
      (fs' = fs \/ (fs !! (cursor ++ [n]) = None /\ fs' = <[cursor ++ [n] := KDir]> fs))
  | (Err _, fs') => fs' = fs
  end.
Proof.
  intros H. unfold ensure_component. rewrite symlink_metadata_chain by done.
  destruct (fs !! (cursor ++ [n])) as [k|] eqn:E; cbn [ok_or].
  { destruct k; cbn; auto. }
  unfold create_dir. rewrite chain_dirs, kind_at_snoc, E by done. destruct (denied _); [done|].
  assert (Hc : chain (<[cursor ++ [n] := KDir]> fs) cursor).
  { intros q m r ->. destruct (decide (q ++ [m] = (q ++ m :: r) ++ [n])) as [->|Hne]; [by rewrite lookup_insert_eq|].
    rewrite lookup_insert_ne by done. by eapply H. }
  rewrite symlink_metadata_chain, lookup_insert_eq by done. cbn. rewrite lookup_insert_eq. auto.
Qed.

(** Only directories at proper prefixes of [names] were added. *)
Definition only_new_parents (names : list str) (fs fs' : local_fs) : Prop :=
  forall p, fs' !! p = fs !! p \/
    (exists n r, p <> [] /\ names = p ++ n :: r) /\ fs !! p = None /\ fs' !! p = Some KDir.

Lemma only_new_refl names fs : only_new_parents names fs fs.
Proof. intros p. by left. Qed.

Lemma only_new_trans names fs1 fs2 fs3 :
  only_new_parents names fs1 fs2 -> only_new_parents names fs2 fs3 -> only_new_parents names fs1 fs3.
Proof.
  intros H1 H2 p. destruct (H1 p) as [E1|(Hp & E1 & E1')], (H2 p) as [E2|(Hp' & E2 & E2')].
  - left. congruence.
  - right. split_and!; [done|congruence|done].
  - right. split_and!; [done|done|congruence].
  - congruence.
Qed.

Lemma ensure_loop_spec denied names rest : forall cursor fs,
  names = cursor ++ rest -> chain fs cursor ->
  let '(r, fs') := ensure_loop denied cursor (map Normal rest) fs in
  only_new_parents names fs fs' /\ (is_ok r = true -> chain fs' (removelast names)).
Proof.
  induction rest as [|n rest IH]; intros cursor fs En Hc.
  { cbn. split; [apply only_new_refl|]. intros _. rewrite app_nil_r in En. subst.
    destruct (decide (cursor = [])) as [->|Hne]; [apply chain_nil|]. destruct cursor as [|n c _] using rev_ind; [done|].
    rewrite removelast_last. intros q m r E. apply (Hc q m (r ++ [n])). rewrite E. by rewrite <- app_assoc. }
  destruct rest as [|n' rest].
  { cbn. split; [apply only_new_refl|]. intros _. by rewrite En, removelast_last. }
  pose proof (ensure_component_spec denied cursor n fs Hc) as Hs.
  change (ensure_loop denied cursor (map Normal (n :: n' :: rest)) fs) with
    (match ensure_component denied (cursor ++ [n]) fs with
     | (Err e, fs) => (Err e, fs)
     | (Ok _, fs) => ensure_loop denied (cursor ++ [n]) (map Normal (n' :: rest)) fs end).
  destruct (ensure_component denied (cursor ++ [n]) fs) as [[[]|e] fs1]; [|subst fs1; split; [apply only_new_refl|done]].
  destruct Hs as [Hd Hch].
  assert (Hnew : only_new_parents names fs fs1).
  { destruct Hch as [->|[Hn ->]]; [apply only_new_refl|]. intros p.
    destruct (decide (p = cursor ++ [n])) as [->|Hne]; [right|left; by rewrite lookup_insert_ne].
    split_and!; [|done|by rewrite lookup_insert_eq]. exists n', rest. split; [by destruct cursor|]. by rewrite <- app_assoc. }
  assert (Hc1 : chain fs1 (cursor ++ [n])).
  { apply chain_snoc; [|done]. intros q m r E. destruct (Hnew (q ++ [m])) as [->|(_ & _ & ->)]; [by eapply Hc|done]. }
  specialize (IH (cursor ++ [n]) fs1 ltac:(by rewrite <- app_assoc) Hc1).
  destruct (ensure_loop _ (cursor ++ [n]) _ fs1) as [r fs2]. destruct IH as [H1 H2]. split; [by eapply only_new_trans|done].
Qed.

Lemma no_symlinks_loop_spec fs rest : forall cursor,
  no_symlinks_loop fs cursor (map Normal rest) = Ok tt ->
  forall q n r, rest = q ++ n :: r -> symlink_metadata fs (cursor ++ q ++ [n]) <> Ok KSymlink.
Proof.
  induction rest as [|m rest IH]; intros cursor H q n r E; [by destruct q|]. cbn [map no_symlinks_loop] in H.
  destruct q as [|x q]; cbn in E; injection E as -> ->.
  - cbn. intros Hs. by rewrite Hs in H.
  - assert (H' : no_symlinks_loop fs (cursor ++ [x]) (map Normal (q ++ n :: r)) = Ok tt) by (by destruct (symlink_metadata _ _) as [[]|]).
    specialize (IH _ H' q n r eq_refl). by rewrite <- app_assoc in IH.
Qed.

(** Entries have directories above them. *)
Definition tree (fs : local_fs) : Prop := forall p n, is_Some (fs !! (p ++ [n])) -> chain fs p.

Lemma tree_no_links fs names :
  tree fs ->
  (forall q n r, names = q ++ n :: r -> symlink_metadata fs (q ++ [n]) <> Ok KSymlink) ->
  forall q n r, names = q ++ n :: r -> fs !! (q ++ [n]) <> Some KSymlink.
Proof.
  intros Ht H q n r E Hs. apply (H q n r E). rewrite symlink_metadata_chain, Hs; [done|]. apply (Ht q n). by rewrite Hs.
Qed.

Lemma strip_names local_root path names :
  names_below local_root path names -> strip_components local_root path = Some (map Normal names).
Proof. intros [_ H]. by apply strip_components_Some. Qed.

(** C17. The local path of a transfer is confined: an accepted path lies
    strictly below the local root, through ordinary names only; no existing
    component of it is a symbolic link; for a get every parent is a directory
    afterwards. Whether the path is accepted or refused, the only change to
    the file system is that missing parent directories of such a path were
    created, and none for a put. *)
Theorem local_path_confined (denied : list str -> bool) (local_root user : str) (operation : TransferOperation)
    (fs : gmap (list str) lkind) (Hroot : is_absolute local_root = true) (Htree : tree fs) :
  let '(r, fs') := resolve_and_validate_local_paths denied local_root operation user fs in
  (operation = Put -> fs' = fs) /\
  (fs' = fs \/ exists path names, names_below local_root path names /\ only_new_parents names fs fs') /\
  forall path, r = Ok path -> exists names, names_below local_root path names /\
    (forall q n rest, names = q ++ n :: rest -> fs' !! (q ++ [n]) <> Some KSymlink) /\
    (operation = Get -> chain fs' (removelast names)).
Proof.
  unfold resolve_and_validate_local_paths, resolve_paths.
  destruct (safe_join_local_root local_root user) as [path|e] eqn:Ej; cbn [rmap_err]; [|by split_and!; [|left|]].
  apply safe_join_confined in Ej as (names & Hn); [|done]. pose proof (strip_names _ _ _ Hn) as Es.
  unfold validate_get_target_no_symlinks, validate_put_source_no_symlinks, validate_no_symlinks,
    ensure_parent_dirs_no_symlinks. rewrite Es.
  destruct (no_symlinks_loop fs [] (map Normal names)) as [[]|e] eqn:El; cbn [rmap_err];
    [|destruct operation; (split_and!; [done|by left|done])].
  pose proof (tree_no_links _ _ Htree (no_symlinks_loop_spec _ _ _ El)) as Hlinks.
  destruct operation; [split_and!; [done|by left|]; intros p [= <-]; by exists names|].
  pose proof (ensure_loop_spec denied names names [] fs eq_refl (chain_nil _)) as H.
  destruct (ensure_loop _ _ _ _) as [[[]|e] fs']; destruct H as [Hnew Hc]; (split; [done|split; [eauto|]]); [|done].
  intros p [= <-]. exists names. split_and!; [done| |by intros _; apply Hc].
  intros q n r E. destruct (Hnew (q ++ [n])) as [->|(_ & _ & ->)]; [by eapply Hlinks|done].
Qed.

Definition sample_fs : gmap (list str) lkind := <[ [lit "a"] := KDir ]> {[ [lit "link"] := KSymlink ]}.

Lemma sample_tree : tree sample_fs.
Proof.
  intros p n [k Hk]. unfold sample_fs in Hk.
  apply lookup_insert_Some in Hk as [[E _]|[_ Hk]]; [|apply lookup_singleton_Some in Hk as [E _]];
    (destruct p as [|x p]; [apply chain_nil|]); by destruct p.
Defined.

(** Two missing parents are created below [a]; a link is refused. *)
Lemma local_path_confined_witness :
  (exists fs', resolve_and_validate_local_paths (fun _ => false) (lit "/srv") Get (lit " a/./b/c/f ") sample_fs =
      (Ok (lit "/srv/a/./b/c/f"), fs') /\ chain fs' [lit "a"; lit "b"; lit "c"]) /\
  (resolve_and_validate_local_paths (fun _ => false) (lit "/srv") Get (lit "link/x") sample_fs).1 =
    Err (InvalidParams traverses_error).
Proof.
  split; [|vm_compute; reflexivity].
  pose proof (local_path_confined (fun _ => false) (lit "/srv") (lit " a/./b/c/f ") Get sample_fs eq_refl sample_tree) as H.
  destruct (resolve_and_validate_local_paths _ _ _ _ _) as [r fs'] eqn:E.
  assert (Er : r = Ok (lit "/srv/a/./b/c/f")).
  { apply (f_equal fst) in E. cbn in E. rewrite <- E. vm_compute. reflexivity. }
  subst r. exists fs'. split; [done|]. destruct H as (_ & _ & H). destruct (H _ eq_refl) as (names & [_ Hn] & _ & Hc).
  assert (names = [lit "a"; lit "b"; lit "c"; lit "f"]) as ->.
  { assert (Hc' : components (lit "/srv/a/./b/c/f") = components (lit "/srv") ++ map Normal [lit "a"; lit "b"; lit "c"; lit "f"]) by reflexivity.
    rewrite Hc' in Hn. apply app_inv_head in Hn. apply (f_equal (map (fun c => match c with Normal n => n | _ => [] end))) in Hn.
    by rewrite !map_map, !map_id in Hn. }
  by apply (Hc eq_refl).
Defined.
