(* ===== verification/Destination.v ===== *)
(** * Busy destinations (src/transfer/mod.rs)

    The normalised key of a transfer's destination and the set of keys in use.
    No two running transfers hold the same key, which for a put is the
    normalised remote path and for a get the local path as it is spelled; a
    guard frees its key when it is dropped. *)
From Stdlib Require Import ZArith String.
From stdpp Require Import base list gmap relations.
From S2P Require Import Prelude Errors Paths Validate TransferTypes LocalRoot.

(** ** Remote paths *)

Definition validate_remote_user_path (path field : str) : result unit SshMcpError :=
  rmap_err InvalidParams (validate_basic_path_str path field).

Definition dotdot : str := lit "..".

(** One piece of the path; [parts] in order. *)
Definition push_part (absolute : bool) (parts : list str) (part : str) : list str :=
  if str_eqb part [] || str_eqb part (lit ".") then parts
  else if str_eqb part dotdot then
    match last parts with
    | Some l => if negb (str_eqb l dotdot) then removelast parts else if absolute then parts else parts ++ [part]
    | None => if absolute then parts else parts ++ [part]
    end
  else parts ++ [part].

Definition normal_parts (path : str) : list str :=
  foldl (push_part (is_absolute path)) [] (split_char SLASH path).

Definition normalize_remote_path (path : str) : str :=
  let joined := join [SLASH] (normal_parts path) in
  if is_absolute path then SLASH :: joined else if str_eqb joined [] then lit "." else joined.

(** ** Reservation *)

Definition destination_key (local_root : str) (operation : TransferOperation) (local_path remote_path : str) :
    result str SshMcpError :=
  match operation with
  | Put =>
      validate_remote_user_path remote_path (lit "remote_path") ;?
      Ok (lit "put:" ++ normalize_remote_path remote_path)
  | Get =>
      let? resolved := rmap_err InvalidParams (resolve_paths local_root local_path) in
      Ok (lit "get:" ++ resolved)
  end.

Definition busy_error (operation : TransferOperation) (local_path remote_path : str) : SshMcpError :=
  InvalidParams (lit "destination busy: " ++ match operation with Put => remote_path | Get => local_path end).

(** The guard is its key; [active] are the keys in use. *)
Definition reserve_destination (local_root : str) (operation : TransferOperation) (local_path remote_path : str)
    (active : gset str) : result str SshMcpError * gset str :=
  match destination_key local_root operation local_path remote_path with
  | Err e => (Err e, active)
  | Ok key =>
      if decide (key ∈ active) then (Err (busy_error operation local_path remote_path), active)
      else (Ok key, {[key]} ∪ active)
  end.

(** [DestinationGuard::drop] *)
Definition release_destination (key : str) (active : gset str) : gset str := active ∖ {[key]}.

(** ** What a remote path means

    Following the path from a working directory, both given by names from the
    root; [..] at the root stays there. *)
Definition follow (at_ : list str) (part : str) : list str :=
  if str_eqb part [] || str_eqb part (lit ".") then at_
  else if str_eqb part dotdot then removelast at_
  else at_ ++ [part].

Definition location (cwd : list str) (path : str) : list str :=
  foldl follow (if is_absolute path then [] else cwd) (split_char SLASH path).

(** ** Normal forms *)

Definition ordinary (n : str) : Prop := n <> [] /\ n <> lit "." /\ n <> dotdot.

(** Leading [..] of a relative path, then names. *)
Definition normal_form (absolute : bool) (k : nat) (names parts : list str) : Prop :=
  parts = replicate k dotdot ++ names /\ Forall ordinary names /\ (absolute = true -> k = O).

Definition up (k : nat) (at_ : list str) : list str := take (length at_ - k) at_.

Lemma removelast_take {A} (l : list A) : removelast l = take (length l - 1) l.
Proof.
  destruct l as [|x l _] using rev_ind; [done|]. rewrite removelast_last, length_app. cbn.
  by rewrite Nat.add_sub, take_app_length.
Qed.

Lemma up_S k l : up (S k) l = removelast (up k l).
Proof. unfold up. rewrite removelast_take, length_take, take_take. f_equal. lia. Qed.

Lemma follow_name l n : ordinary n -> follow l n = l ++ [n].
Proof. intros (H1 & H2 & H3). unfold follow, str_eqb. by rewrite !bool_decide_eq_false_2. Qed.

Lemma follow_up l : follow l dotdot = removelast l.
Proof. reflexivity. Qed.

Lemma follow_names l names : Forall ordinary names -> foldl follow l names = l ++ names.
Proof.
  intros H. revert l. induction H as [|n names Hn _ IH]; intros l; cbn [foldl]; [by rewrite app_nil_r|].
  rewrite follow_name, IH by done. by rewrite <- app_assoc.
Qed.

Lemma follow_ups k l : foldl follow l (replicate k dotdot) = up k l.
Proof.
  induction k as [|k IH]; [unfold up; by rewrite Nat.sub_0_r, firstn_all|].
  rewrite replicate_S_end, foldl_app, IH. cbn [foldl]. by rewrite follow_up, <- up_S.
Qed.

Lemma follow_normal absolute k names parts l :
  normal_form absolute k names parts -> foldl follow l parts = up k l ++ names.
Proof. intros (-> & H & _). by rewrite foldl_app, follow_ups, follow_names. Qed.

Lemma ordinary_not_dotdot n : ordinary n -> str_eqb n dotdot = false.
Proof. intros (_ & _ & H). unfold str_eqb. by rewrite bool_decide_eq_false_2. Qed.

(** A step keeps the normal form and the meaning. *)
Lemma push_part_normal absolute k names parts part :
  normal_form absolute k names parts ->
  exists k' names', normal_form absolute k' names' (push_part absolute parts part) /\
    forall cwd, let s := if absolute then [] else cwd in up k' s ++ names' = follow (up k s ++ names) part.
Proof.
  intros (E & Hn & Hk). unfold push_part, follow.
  destruct (str_eqb part [] || str_eqb part (lit ".")) eqn:Es; [by exists k, names|].
  destruct (str_eqb part dotdot) eqn:Ed.
  - apply str_eqb_spec in Ed as ->. destruct names as [|n names _] using rev_ind.
    + rewrite app_nil_r in E. destruct k as [|k].
      * rewrite E. cbn [replicate last]. destruct absolute.
        -- exists O, []. split; [by repeat split|done].
        -- exists 1%nat, []. split; [by repeat split|]. intros cwd. cbn zeta. by rewrite !app_nil_r, up_S.
      * destruct absolute; [by specialize (Hk eq_refl)|]. rewrite E, replicate_S_end, last_snoc. cbn [str_eqb].
        unfold str_eqb. rewrite bool_decide_eq_true_2 by done. cbn [negb]. exists (S (S k)), [].
        split; [split; [by rewrite (replicate_S_end (S k)), app_nil_r, replicate_S_end|done]|].
        intros cwd. cbn zeta. by rewrite !app_nil_r, up_S.
    + rewrite E, app_assoc, last_snoc. apply Forall_app in Hn as [Hn1 Hn2].
      rewrite ordinary_not_dotdot by (by inversion Hn2). cbn [negb]. exists k, names.
      rewrite removelast_last. split; [done|]. intros cwd. cbn zeta. by rewrite app_assoc, removelast_last.
  - exists k, (names ++ [part]). split.
    + split; [by rewrite E, app_assoc|]. split; [|done]. apply Forall_app. split; [done|]. constructor; [|done].
      apply orb_false_iff in Es as [E1 E2]. unfold str_eqb in *.
      apply bool_decide_eq_false in E1, E2, Ed. by repeat split.
    + intros cwd. cbn zeta. by rewrite app_assoc.
Qed.

Lemma normal_parts_spec path :
  exists k names, normal_form (is_absolute path) k names (normal_parts path) /\
    forall cwd, location cwd path = up k (if is_absolute path then [] else cwd) ++ names.
Proof.
  unfold normal_parts, location. set (absolute := is_absolute path). generalize (split_char SLASH path). intros pieces.
  induction pieces as [|part pieces IH] using rev_ind.
  - exists O, []. split; [by repeat split|]. intros cwd. cbn. rewrite app_nil_r. unfold up. by rewrite Nat.sub_0_r, firstn_all.
  - destruct IH as (k & names & Hnf & Hloc). destruct (push_part_normal _ _ _ _ part Hnf) as (k' & names' & Hnf' & Hstep).
    exists k', names'. rewrite foldl_app. split; [done|]. intros cwd. rewrite foldl_app. cbn [foldl].
    rewrite Hloc, <- Hstep. done.
Qed.

(** Every part is free of slashes and not empty. *)
Lemma normal_parts_plain path p : p ∈ normal_parts path -> p <> [] /\ p <> lit "." /\ SLASH ∉ p.
Proof.
  unfold normal_parts. assert (Hs : forall x, x ∈ split_char SLASH path -> SLASH ∉ x) by (intros; by eapply split_char_no_sep).
  revert Hs p. generalize (split_char SLASH path). intros pieces. induction pieces as [|part pieces IH] using rev_ind.
  { intros _ p Hp. by apply elem_of_nil in Hp. }
  intros Hs p. rewrite foldl_app. cbn [foldl]. unfold push_part at 1.
  specialize (IH ltac:(intros x Hx; apply Hs; set_solver)).
  assert (Hpart : SLASH ∉ part) by (apply Hs; set_solver).
  destruct (str_eqb part [] || str_eqb part (lit ".")) eqn:Es; [apply IH|].
  apply orb_false_iff in Es as [E1 E2]. unfold str_eqb in E1, E2. apply bool_decide_eq_false in E1, E2.
  assert (Hsnoc : p ∈ foldl (push_part (is_absolute path)) [] pieces ++ [part] -> p <> [] /\ p <> lit "." /\ SLASH ∉ p).
  { rewrite elem_of_app, list_elem_of_singleton. intros [H| ->]; [by apply IH|done]. }
  repeat case_match; try done; try apply IH.
  rewrite removelast_take. intros Hin. apply IH. by apply elem_of_take in Hin as (? & ?%list_elem_of_lookup_2 & _).
Qed.

Lemma join_nil_parts path : join [SLASH] (normal_parts path) = [] <-> normal_parts path = [].
Proof.
  split; [|by intros ->]. pose proof (normal_parts_plain path) as H. destruct (normal_parts path) as [|p ps]; [done|].
  destruct (H p) as (Hp & _); [set_solver|]. destruct p; [done|]. by destruct ps.
Qed.

Lemma split_join_parts path :
  normal_parts path <> [] -> split_char SLASH (join [SLASH] (normal_parts path)) = normal_parts path.
Proof. intros H. apply split_char_join; [done|]. intros p Hp. by apply normal_parts_plain in Hp as (_ & _ & ?). Qed.

Lemma normalize_absolute path : is_absolute (normalize_remote_path path) = is_absolute path.
Proof.
  unfold normalize_remote_path. destruct (is_absolute path) eqn:E; [done|].
  destruct (str_eqb _ []) eqn:Ej; [done|]. apply not_true_iff_false. intros [r Hr]%starts_with_spec.
  pose proof (normal_parts_plain path) as Hp. destruct (normal_parts path) as [|p ps]; [done|].
  destruct (Hp p) as (Hne & _ & Hs); [set_solver|]. destruct p as [|c p]; [done|].
  assert (c = SLASH) as -> by (destruct ps; cbn in Hr; congruence). set_solver.
Qed.

Lemma location_normalize cwd path : location cwd (normalize_remote_path path) = location cwd path.
Proof.
  destruct (normal_parts_spec path) as (k & names & Hnf & Hloc). rewrite Hloc.
  rewrite <- (follow_normal _ _ _ _ _ Hnf). unfold location. rewrite normalize_absolute.
  unfold normalize_remote_path. destruct (is_absolute path) eqn:E.
  - change (SLASH :: join [SLASH] (normal_parts path)) with ([] ++ SLASH :: join [SLASH] (normal_parts path)).
    rewrite split_char_cat. cbn [split_char app foldl]. change (follow [] []) with (@nil str).
    destruct (decide (normal_parts path = [])) as [En|Hne]; [by rewrite En|]. by rewrite split_join_parts.
  - destruct (str_eqb (join [SLASH] (normal_parts path)) []) eqn:Ej.
    + apply str_eqb_spec, join_nil_parts in Ej. by rewrite Ej.
    + rewrite split_join_parts; [done|]. intros En. by rewrite En in Ej.
Qed.

(** Two paths that lead to the same place from everywhere. *)
Definition same_place (p q : str) : Prop :=
  is_absolute p = is_absolute q /\ forall cwd, location cwd p = location cwd q.

Lemma replicate_app_inj {A} (x : A) a b l r :
  x ∉ l -> x ∉ r -> replicate a x ++ l = replicate b x ++ r -> a = b /\ l = r.
Proof.
  intros Hl Hr. revert b. induction a as [|a IH]; intros [|b] E; cbn in E; [done|set_solver|set_solver|].
  injection E as E. by destruct (IH b E) as [-> ->].
Qed.

Lemma up_replicate k n (x : str) : up k (replicate n x) = replicate (n - k) x.
Proof. unfold up. rewrite length_replicate, take_replicate. f_equal. lia. Qed.

(** The key distinguishes exactly the places. *)
Lemma normalize_same_place p q : normalize_remote_path p = normalize_remote_path q <-> same_place p q.
Proof.
  split.
  - intros E. split; [by rewrite <- (normalize_absolute p), E, normalize_absolute|].
    intros cwd. by rewrite <- (location_normalize cwd p), E, location_normalize.
  - intros [Ha Hl]. enough (E : normal_parts p = normal_parts q) by (unfold normalize_remote_path; by rewrite Ha, E).
    destruct (normal_parts_spec p) as (k1 & n1 & (E1 & _ & K1) & L1).
    destruct (normal_parts_spec q) as (k2 & n2 & (E2 & _ & K2) & L2).
    setoid_rewrite L1 in Hl. setoid_rewrite L2 in Hl. rewrite <- Ha in *.
    destruct (is_absolute p); [rewrite K1, K2 in * by done; specialize (Hl []); cbn in Hl; congruence|].
    set (x := fresh (n1 ++ n2)). pose proof (infinite_is_fresh (n1 ++ n2)) as Hx. fold x in Hx.
    apply not_elem_of_app in Hx as [Hx1 Hx2].
    specialize (Hl (replicate (k1 + k2) x)). rewrite !up_replicate in Hl.
    apply replicate_app_inj in Hl as [Hk Hn]; [|done|done].
    assert (k1 = k2) as -> by lia. by rewrite E1, E2, Hn.
Qed.

(** ** Reservations over time *)

Definition request : Type := TransferOperation * str * str.

Section engine.
Context (local_root : str).

(** The keys in use and the requests whose guards are alive. *)
Record engine : Type := { active : gset str; guards : list request }.

Definition key_of (r : request) : result str SshMcpError := destination_key local_root r.1.1 r.1.2 r.2.

Definition attempt (r : request) (e : engine) : result str SshMcpError * engine :=
  match reserve_destination local_root r.1.1 r.1.2 r.2 (active e) with
  | (Ok key, a) => (Ok key, {| active := a; guards := r :: guards e |})
  | (Err err, a) => (Err err, {| active := a; guards := guards e |})
  end.

(** A transfer starts, or the guard of a running one is dropped. *)
Inductive engine_step (e : engine) : engine -> Prop :=
  | step_attempt r : engine_step e (attempt r e).2
  | step_drop l r l' key : guards e = l ++ r :: l' -> key_of r = Ok key ->
      engine_step e {| active := release_destination key (active e); guards := l ++ l' |}.

Definition engine_new : engine := {| active := ∅; guards := [] |}.

Definition live_keys (e : engine) : list str := omap (fun r => match key_of r with Ok k => Some k | Err _ => None end) (guards e).

Record engine_wf (e : engine) : Prop := {
  ew_ok : Forall (fun r => is_ok (key_of r) = true) (guards e);
  ew_nodup : NoDup (live_keys e);
  ew_active : active e = list_to_set (live_keys e)
}.

Lemma engine_wf_new : engine_wf engine_new.
Proof. split; [constructor|apply NoDup_nil_2|done]. Qed.

Lemma engine_wf_step e e' : engine_wf e -> engine_step e e' -> engine_wf e'.
Proof.
  intros [H1 H2 H3] [r|l r l' key El Hk].
  - unfold attempt, reserve_destination. fold (key_of r). destruct (key_of r) as [key|err] eqn:Ek; [|by split].
    destruct (decide (key ∈ active e)) as [Hin|Hin]; [by split|]. cbn [snd].
    assert (Elk : live_keys {| active := {[key]} ∪ active e; guards := r :: guards e |} = key :: live_keys e).
    { unfold live_keys. cbn [guards omap list_omap]. by rewrite Ek. }
    split; cbn [guards active]; rewrite ?Elk.
    + constructor; [by rewrite Ek|done].
    + apply NoDup_cons. split; [|done]. rewrite H3 in Hin. set_solver.
    + rewrite H3. set_solver.
  - rewrite El in H1. apply Forall_app in H1 as [F1 F2]. inversion F2 as [|? ? _ F3]; subst.
    assert (Elk : live_keys e = live_keys {| active := ∅; guards := l |} ++ key :: live_keys {| active := ∅; guards := l' |}).
    { unfold live_keys. cbn [guards]. rewrite El, omap_app. cbn [omap list_omap]. by rewrite Hk. }
    assert (Elk' : live_keys {| active := release_destination key (active e); guards := l ++ l' |} =
      live_keys {| active := ∅; guards := l |} ++ live_keys {| active := ∅; guards := l' |}).
    { unfold live_keys. cbn [guards]. by rewrite omap_app. }
    rewrite Elk in H2, H3. apply NoDup_app in H2 as (N1 & N2 & N3). apply NoDup_cons in N3 as [N3 N4].
    assert (N5 : key ∉ live_keys {| active := ∅; guards := l |}) by (intros Hin; apply (N2 _ Hin); set_solver).
    split; cbn [guards active]; rewrite ?Elk'.
    + by apply Forall_app.
    + apply NoDup_app. split_and!; [done| |done]. intros k Hin Hin'. apply (N2 k Hin). set_solver.
    + unfold release_destination. rewrite H3. set_solver.
Qed.

Lemma reachable_engine_wf e : rtc engine_step engine_new e -> engine_wf e.
Proof.
  intros H. remember engine_new as e0 eqn:E0.
  assert (H0 : engine_wf e0) by (subst; apply engine_wf_new). clear E0.
  induction H as [|e1 e2 e3 Hs _ IH]; [done|]. apply IH. by eapply engine_wf_step.
Qed.

Lemma live_key_guard e k : k ∈ live_keys e <-> exists r, r ∈ guards e /\ key_of r = Ok k.
Proof.
  unfold live_keys. rewrite list_elem_of_omap. split; intros (r & Hr & E); exists r; (split; [done|]).
  - destruct (key_of r); congruence.
  - by rewrite E.
Qed.

Lemma live_keys_lookup e i r k :
  engine_wf e -> guards e !! i = Some r -> key_of r = Ok k -> live_keys e !! i = Some k.
Proof.
  intros [H1 _ _] Hi Hk. unfold live_keys. revert i Hi. induction H1 as [|r' l Hr _ IH]; intros i Hi; [done|].
  cbn [omap list_omap]. destruct (key_of r') as [k'|] eqn:E'; [|done]. destruct i as [|i]; cbn in *; [congruence|by apply IH].
Qed.

Lemma put_key lp p k : key_of (Put, lp, p) = Ok k -> k = lit "put:" ++ normalize_remote_path p.
Proof.
  unfold key_of, destination_key. cbn [fst snd]. destruct (validate_remote_user_path p _); cbn; [by intros [= <-]|done].
Qed.

Lemma get_key lp p k : key_of (Get, lp, p) = Ok k -> exists r, resolve_paths local_root lp = Ok r /\ k = lit "get:" ++ r.
Proof.
  unfold key_of, destination_key. cbn [fst snd]. destruct (resolve_paths local_root lp); cbn; [|done].
  intros [= <-]. eauto.
Qed.

Lemma attempt_busy e r k :
  engine_wf e -> key_of r = Ok k ->
  (attempt r e).1 = (if decide (k ∈ live_keys e) then Err (busy_error r.1.1 r.1.2 r.2) else Ok k).
Proof.
  intros Hw Hk. unfold attempt, reserve_destination. fold (key_of r). rewrite Hk.
  pose proof (ew_active _ Hw) as Ha. destruct (decide (k ∈ active e)) as [Hin|Hin], (decide (k ∈ live_keys e)); set_solver.
Qed.

(** C31. In every reachable state of the engine no two running puts have the
    same destination (two remote paths count as the same exactly when they lead
    to the same place from every working directory), and a put is refused as busy
    exactly while a running put has its destination. Gets are compared by the
    text of the local path joined to the local root: no two running gets have the
    same one, a get is refused as busy exactly while a running get has the same
    one, and so no two running gets write the same place if both local paths are
    in normal form. Two spellings of one local path are not recognised
    ([get_spellings_not_busy]). *)
Theorem destinations_exclusive (e : engine) (H : rtc engine_step engine_new e) :
  (forall i j lp lp' p q, guards e !! i = Some (Put, lp, p) -> guards e !! j = Some (Put, lp', q) ->
     same_place p q -> i = j) /\
  (forall lp p, validate_remote_user_path p (lit "remote_path") = Ok tt ->
     ((attempt (Put, lp, p) e).1 = Err (busy_error Put lp p) <->
      exists lp' q, (Put, lp', q) ∈ guards e /\ same_place q p)) /\
  (forall lp p path, resolve_paths local_root lp = Ok path ->
     ((attempt (Get, lp, p) e).1 = Err (busy_error Get lp p) <->
      exists lp' q, (Get, lp', q) ∈ guards e /\ resolve_paths local_root lp' = Ok path)) /\
  (forall i j lp lp' p q, guards e !! i = Some (Get, lp, p) -> guards e !! j = Some (Get, lp', q) ->
     resolve_paths local_root lp = resolve_paths local_root lp' \/
       (normalize_remote_path lp = lp /\ normalize_remote_path lp' = lp' /\ same_place lp lp') -> i = j).
Proof.
  apply reachable_engine_wf in H as Hw. pose proof Hw as [Hok Hnd _]. rewrite Forall_lookup in Hok. split_and!.
  - intros i j lp lp' p q Hi Hj Hs. pose proof (Hok _ _ Hi) as Oi. pose proof (Hok _ _ Hj) as Oj.
    destruct (key_of (Put, lp, p)) as [k|] eqn:Ek; [|done]. destruct (key_of (Put, lp', q)) as [k'|] eqn:Ek'; [|done].
    apply (live_keys_lookup _ _ _ _ Hw Hi) in Ek as L1. apply (live_keys_lookup _ _ _ _ Hw Hj) in Ek' as L2.
    apply put_key in Ek as ->. apply put_key in Ek' as ->. apply normalize_same_place in Hs. rewrite <- Hs in L2.
    by eapply NoDup_lookup.
  - intros lp p Hv. assert (Ek : key_of (Put, lp, p) = Ok (lit "put:" ++ normalize_remote_path p)).
    { unfold key_of, destination_key. cbn [fst snd]. by rewrite Hv. }
    rewrite (attempt_busy _ _ _ Hw Ek). case_decide as Hin; rewrite live_key_guard in Hin; split; try done.
    + intros _. destruct Hin as ([[[] lp'] q] & Hr & Hk); [apply put_key in Hk|by apply get_key in Hk as (? & _ & ?)].
      apply app_inv_head in Hk. exists lp', q. split; [done|]. by apply normalize_same_place.
    + intros (lp' & q & Hr & Hs). destruct Hin. exists (Put, lp', q). split; [done|].
      apply list_elem_of_lookup in Hr as [i Hi]. specialize (Hok _ _ Hi).
      destruct (key_of (Put, lp', q)) as [k|] eqn:Ek'; [|done]. apply put_key in Ek' as ->.
      by apply normalize_same_place in Hs as ->.
  - intros lp p path Hr. assert (Ek : key_of (Get, lp, p) = Ok (lit "get:" ++ path)).
    { unfold key_of, destination_key. cbn [fst snd]. by rewrite Hr. }
    rewrite (attempt_busy _ _ _ Hw Ek). case_decide as Hin; rewrite live_key_guard in Hin; split; try done.
    + intros _. destruct Hin as ([[[] lp'] q] & Hr' & Hk); [by apply put_key in Hk|].
      apply get_key in Hk as (r & Hres & Hk). apply app_inv_head in Hk. subst. eauto.
    + intros (lp' & q & Hr' & Hres). destruct Hin. exists (Get, lp', q). split; [done|].
      unfold key_of, destination_key. cbn [fst snd]. by rewrite Hres.
  - intros i j lp lp' p q Hi Hj Hs. pose proof (Hok _ _ Hi) as Oi.
    destruct (key_of (Get, lp, p)) as [k|] eqn:Ek; [|done].
    assert (Ek' : key_of (Get, lp', q) = Ok k).
    { destruct Hs as [Hs|(N1 & N2 & Hs%normalize_same_place)].
      - rewrite <- Ek. unfold key_of, destination_key. cbn [fst snd]. by rewrite Hs.
      - rewrite N1, N2 in Hs. by subst. }
    apply (live_keys_lookup _ _ _ _ Hw Hi) in Ek. apply (live_keys_lookup _ _ _ _ Hw Hj) in Ek'. by eapply NoDup_lookup.
Qed.
End engine.

(** Two gets that write one file run at once when the file is spelled in two
    ways. *)
Lemma get_spellings_not_busy :
  let e := (attempt (lit "/srv") (Get, lit "a/b", lit "/r") engine_new).2 in
  same_place (lit "a/./b") (lit "a/b") /\
  (attempt (lit "/srv") (Get, lit "a/./b", lit "/r") e).1 = Ok (lit "get:/srv/a/./b").
Proof. split; [apply normalize_same_place|]; vm_compute; reflexivity. Qed.

(** A put is refused while another path to the same place is written. *)
Lemma destinations_exclusive_witness :
  let r := (Put, lit "x", lit "/tmp/a/../target") in
  let e := (attempt (lit "/srv") r engine_new).2 in
  (attempt (lit "/srv") (Put, lit "y", lit "/tmp/target") e).1 = Err (busy_error Put (lit "y") (lit "/tmp/target")) /\
  (attempt (lit "/srv") (Put, lit "y", lit "/tmp/other") e).1 = Ok (lit "put:/tmp/other").
Proof.
  intros r e. split; [|vm_compute; reflexivity].
  assert (H : rtc (engine_step (lit "/srv")) engine_new e) by apply rtc_once, step_attempt.
  apply (destinations_exclusive (lit "/srv") e H); [vm_compute; reflexivity|].
  exists (lit "x"), (lit "/tmp/a/../target"). split.
  - refine (bool_decide_unpack _ _). vm_compute. exact I.
  - apply normalize_same_place. vm_compute. reflexivity.
Defined.
