(* ===== verification/Staging.v ===== *)
(** * Remote staging (src/transfer/staging.rs, exec_raw.rs)

    Names of staging and backup paths, the markers that the remote scripts
    print, and what the answers of the scripts mean. *)
From Stdlib Require Import ZArith String.
From stdpp Require Import base list.
From S2P Require Import Prelude Errors Paths Shell Validate Output TransferTypes Config LocalRoot Destination.

Definition STAGE_MARKER : str := lit "__SSH_MCP_STAGE=".
Definition STAGE_BASE_MARKER : str := lit "__SSH_MCP_STAGE_BASE=".
Definition BACKUP_MARKER : str := lit "__SSH_MCP_BACKUP=".
Definition ERR_MARKER : str := lit "__SSH_MCP_ERR=".

(** The value of the first line with the prefix. *)
Definition parse_marker_value (stderr prefix : str) : option str :=
  find_map (fun line => strip_prefix prefix line) (str_lines stderr).

(** ** Paths *)

Definition validate_remote_user_file_path (path field : str) : result unit SshMcpError :=
  validate_remote_user_path path field ;?
  reject (ends_with [SLASH] path) (InvalidParams (field ++ lit " must not end with '/' for file transfers")).

Definition remote_parent_dir (path : str) : str :=
  match rsplit_once_char SLASH path with
  | Some ([], _) => [SLASH]
  | Some (parent, _) => parent
  | None => lit "."
  end.

Definition remote_temp_sibling (final_path id : str) : str := final_path ++ lit ".ssh-mcp-staging-" ++ id.
Definition remote_temp_dir_sibling (final_dir id : str) : str := final_dir ++ lit ".ssh-mcp-staging-dir-" ++ id.
Definition remote_backup_dir_sibling (final_dir id : str) : str := final_dir ++ lit ".ssh-mcp-backup-dir-" ++ id.

(** Sixteen random bytes in hexadecimal ([next_attempt_token]). *)
Definition hex_digit (n : Z) : char := if n <? 10 then 48 + n else 87 + n.
Definition attempt_token (random : bytes) : str := flat_map (fun b => [hex_digit (b / 16); hex_digit (b mod 16)]) random.

(** ** The answers of raw transfer scripts *)

Record TransferRawOutput : Type := { stdout_bytes : Z; stdin_bytes : Z; r_stderr : str; r_exit_code : option Z }.

(** The known refusals of a script. *)
Definition known_refusal (err : str) : option SshMcpError :=
  if str_eqb err (lit "destination_exists") then
    Some (InvalidParams (lit "destination exists and overwrite=false. Use overwrite=true to replace it."))
  else if str_eqb err (lit "destination_is_directory") then
    Some (InvalidParams (lit "remote_path is an existing directory"))
  else if str_eqb err (lit "hardlink_failed") then
    Some (InvalidParams (lit "overwrite=false requires hard-link support on the remote filesystem"))
  else None.

Definition refusal_in (stderr : str) : option SshMcpError :=
  err ← parse_marker_value stderr ERR_MARKER; known_refusal (trim err).

Definition benign_line (line : str) : bool :=
  let trimmed := trim line in
  str_eqb trimmed [] || starts_with STAGE_MARKER trimmed || starts_with STAGE_BASE_MARKER trimmed ||
  starts_with BACKUP_MARKER trimmed.

Definition missing_status (what stderr : str) : SshMcpError :=
  Connection (what ++ lit " failed: missing exit status; stderr=" ++ stderr).

(** exec_raw.rs *)
Definition ensure_remote_success (what : str) (out : TransferRawOutput) : result unit SshMcpError :=
  match r_exit_code out with
  | Some 0 => Ok tt
  | Some code =>
      match refusal_in (r_stderr out) with
      | Some e => Err e
      | None => Err (Connection (what ++ lit " failed: exit_code=" ++ show_int code ++ lit "; stderr=" ++ r_stderr out))
      end
  | None =>
      if bool_decide (is_Some (parse_marker_value (r_stderr out) ERR_MARKER)) then Err (missing_status what (r_stderr out))
      else if forallb benign_line (str_lines (r_stderr out)) then Ok tt
      else Err (missing_status what (r_stderr out))
  end.

(** staging.rs *)
Definition ensure_remote_exec_success (what : str) (out : CommandOutput) : result unit SshMcpError :=
  match exit_code out with
  | Some 0 => Ok tt
  | Some code =>
      match refusal_in (stderr out) with
      | Some e => Err e
      | None => Err (Connection (what ++ lit " failed: exit_code=" ++ show_int code ++ lit "; stderr=" ++ trim (stderr out)))
      end
  | None =>
      match parse_marker_value (stderr out) ERR_MARKER with
      | Some err => Err (Connection (what ++ lit " failed: " ++ err ++ lit "; stderr=" ++ trim (stderr out)))
      | None => Ok tt
      end
  end.

(** The answer to [printf %s "$HOME"]. *)
Definition show_exit (code : option Z) : str :=
  match code with Some c => lit "Some(" ++ show_int c ++ lit ")" | None => lit "None" end.

Definition resolve_remote_home (answer : result CommandOutput SshMcpError) : result str SshMcpError :=
  let? out := answer in
  match exit_code out with
  | Some (Z.pos _ | Z.neg _) =>
      Err (Connection (lit "failed to resolve HOME: exit_code=" ++ show_exit (exit_code out) ++ lit "; stderr=" ++ stderr out))
  | _ =>
      let home := stdout out in
      if str_eqb (trim home) [] then Err (Connection (lit "remote HOME is empty"))
      else
        match validate_remote_user_path home (lit "remote_home") with
        | Err e => Err (Connection (lit "invalid remote HOME: " ++ error_display e))
        | Ok _ => Ok home
        end
  end.

Definition probe_command (remote_path : str) : str :=
  lit "sh -c 'p=$1; if [ -d " ++ [DQ] ++ lit "$p" ++ [DQ] ++ lit " ]; then printf dir; elif [ -f " ++ [DQ] ++ lit "$p" ++
  [DQ] ++ lit " ]; then printf file; else printf missing; fi' sh '" ++ escape_for_shell remote_path ++ lit "'".

Definition probe_remote_kind (remote_path : str) (answer : result CommandOutput SshMcpError) : result TransferKind SshMcpError :=
  validate_remote_user_path remote_path (lit "remote_path") ;?
  let? out := answer in
  match exit_code out with
  | Some (Z.pos _ | Z.neg _) =>
      Err (Connection (lit "failed to probe remote path kind: exit_code=" ++ show_exit (exit_code out) ++ lit "; stderr=" ++
           stderr out))
  | _ =>
      let other := trim (stdout out) in
      if str_eqb other (lit "dir") then Ok Directory
      else if str_eqb other (lit "file") then Ok File
      else if str_eqb other (lit "missing") then Err (InvalidParams (lit "remote_path does not exist"))
      else Err (Connection (lit "unexpected probe output: " ++ other))
  end.

(** [remote_validate_dir_contents] *)
Definition remote_validate_dir_contents (remote_src_dir : str) (answer : result CommandOutput SshMcpError) :
    result unit SshMcpError :=
  validate_remote_user_path remote_src_dir (lit "remote_path") ;?
  let? out := answer in
  let failed := Connection (lit "remote dir validation failed: stderr=" ++ trim (stderr out)) in
  match exit_code out with
  | Some 0 => Ok tt
  | Some _ =>
      match parse_marker_value (stderr out) ERR_MARKER with
      | Some err =>
          if str_eqb (trim err) (lit "not_a_directory") then Err (InvalidParams (lit "remote_path is not a directory"))
          else if str_eqb (trim err) (lit "unsupported_entry") then
            Err (InvalidParams (lit "unsupported file type in directory transfer"))
          else Err failed
      | None => Err failed
      end
  | None => Err (Connection (lit "remote dir validation failed: missing exit status"))
  end.
