(* ===== verification/RawStream.v ===== *)
(** * Raw streaming (src/ssh/command.rs)

    [exec_raw_streaming_cancellable] and [raw_channel_task]: two tasks that
    pump bytes between the caller and a channel through two bounded queues.
    Every wait of either task is a choice; a run is a list of choices. *)
From Stdlib Require Import ZArith String.
From stdpp Require Import base list.
From S2P Require Import Prelude Utf8 Errors Channel Output Staging.

Inductive RawStreamEvent : Type :=
  | EvStdout (data : bytes)
  | EvStderr (data : bytes)
  | EvExitStatus (code : Z)
  | EvClosed.

(** The capacities of the two queues. *)
Definition STDIN_QUEUE : nat := 4.
Definition OUT_QUEUE : nat := 8.

Inductive outcome : Type :=
  | Returned (r : result TransferRawOutput SshMcpError)
  | Panicked.

(** The caller's input. [source]: the reads to come; when none is left the
    input has ended. [sending]: the chunk whose [send] waits for room.
    [tx_alive]: whether a sender of the queue exists (it does, shadowed, when
    there is no input). *)
Record feeding : Type := {
  source : list (result bytes str);
  sending : option bytes;
  stdin_done : bool;
  tx_alive : bool;
  n_stdin : Z
}.

(** What was captured; [sink]: what the caller's output was given. *)
Record captured : Type := {
  n_stdout : Z;
  sink : bytes;
  err_text : str;
  err_cut : bool;
  err_total : Z;
  code : option Z
}.

(** The caller's future. *)
Record pump : Type := {
  feed : feeding;
  got : captured;
  channel_closed : bool;
  out_rx_closed : bool;
  answer : option outcome
}.

(** The channel task. [messages]: what the channel delivers until it is
    closed; [forwarding]: the event whose [send] waits for room; [leaving]: the
    result it returns after that. *)
Record channel_task : Type := {
  messages : list ChannelMsg;
  data_sent : bytes;
  eof_sent : bool;
  stdin_closed : bool;
  sent_closed : bool;
  forwarding : option RawStreamEvent;
  leaving : option (result unit SshMcpError);
  ended : option (result unit SshMcpError)
}.

Record raw_state : Type := {
  caller : pump;
  task : channel_task;
  stdin_queue : list bytes;
  out_queue : list RawStreamEvent;
  stopped : option SshMcpError
}.

(** ** The caller's future *)

Definition set_feed (f : feeding) (p : pump) : pump :=
  {| feed := f; got := got p; channel_closed := channel_closed p; out_rx_closed := out_rx_closed p; answer := answer p |}.
Definition set_got (g : captured) (p : pump) : pump :=
  {| feed := feed p; got := g; channel_closed := channel_closed p; out_rx_closed := out_rx_closed p; answer := answer p |}.
Definition set_closed (channel out_rx : bool) (p : pump) : pump :=
  {| feed := feed p; got := got p; channel_closed := channel; out_rx_closed := out_rx; answer := answer p |}.
Definition set_answer (o : outcome) (p : pump) : pump :=
  {| feed := feed p; got := got p; channel_closed := channel_closed p; out_rx_closed := out_rx_closed p; answer := Some o |}.
Definition fail_with (e : SshMcpError) (p : pump) : pump := set_answer (Returned (Err e)) p.

(** The input is done: its sender is dropped. *)
Definition end_stdin (f : feeding) : feeding :=
  {| source := source f; sending := None; stdin_done := true; tx_alive := false; n_stdin := n_stdin f |}.

(** The loop has nothing left to do. *)
Definition loop_over (p : pump) : bool := stdin_done (feed p) && channel_closed p && out_rx_closed p.

(** Select: a read of the input that has finished. *)
Definition on_read (p : pump) : pump :=
  let f := feed p in
  match source f with
  | [] | Ok [] :: _ => set_feed (end_stdin f) p
  | Err e :: _ => fail_with (Io e) p
  | Ok chunk :: rest =>
      set_feed {| source := rest; sending := Some chunk; stdin_done := stdin_done f; tx_alive := tx_alive f; n_stdin := n_stdin f |} p
  end.

(** The chunk was taken by the queue. *)
Definition sent (chunk : bytes) (f : feeding) : feeding :=
  {| source := source f; sending := None; stdin_done := stdin_done f; tx_alive := tx_alive f;
     n_stdin := n_stdin f + Z.of_nat (length chunk) |}.

Definition add_stdout (data written : bytes) (g : captured) : captured :=
  {| n_stdout := n_stdout g + Z.of_nat (length data); sink := sink g ++ written;
     err_text := err_text g; err_cut := err_cut g; err_total := err_total g; code := code g |}.

Definition add_stderr (text : str) (cut : bool) (n : nat) (g : captured) : captured :=
  {| n_stdout := n_stdout g; sink := sink g; err_text := text; err_cut := cut;
     err_total := saturating_add U64_MAX (err_total g) (Z.of_nat n); code := code g |}.

Definition set_code (c : Z) (g : captured) : captured :=
  {| n_stdout := n_stdout g; sink := sink g; err_text := err_text g; err_cut := err_cut g; err_total := err_total g;
     code := Some c |}.

(** Select: an event of the channel task; [None] when the queue has ended.
    [written]: whether the caller's output takes the data. *)
Definition on_event (limit : Z) (has_sink : bool) (written : result unit str) (e : option RawStreamEvent) (p : pump) : pump :=
  let g := got p in
  match e with
  | Some (EvStdout data) =>
      if has_sink then
        match written with
        | Ok _ => set_got (add_stdout data data g) p
        | Err e => fail_with (Io e) (set_got (add_stdout data [] g) p)
        end
      else set_got (add_stdout data [] g) p
  | Some (EvStderr data) =>
      if err_cut g then set_got (add_stderr (err_text g) true (length data) g) p
      else match append_bounded_lossy_stderr (err_text g) data limit with
           | Some (text, cut) => set_got (add_stderr text cut (length data) g) p
           | None => set_answer Panicked p
           end
  | Some (EvExitStatus c) => set_got (set_code c g) p
  | Some EvClosed => set_closed true (out_rx_closed p) p
  | None => set_closed (channel_closed p) true p
  end.

Definition stderr_notice (limit total : Z) : str :=
  NL :: lit "[stderr truncated: " ++ show_uint total ++ lit " bytes total, limit " ++ show_uint limit ++ lit " bytes]".

Definition raw_output (limit : Z) (p : pump) : TransferRawOutput :=
  let g := got p in
  {| stdout_bytes := n_stdout g; stdin_bytes := n_stdin (feed p);
     r_stderr := if err_cut g then err_text g ++ stderr_notice limit (err_total g) else err_text g; r_exit_code := code g |}.

(** After the loop: flush, then the task's own result. *)
Definition finish (limit : Z) (flushed : result unit str) (task_result : result unit SshMcpError) (p : pump) : pump :=
  match flushed with
  | Err e => fail_with (Io e) p
  | Ok _ => set_answer (Returned (let? _ := task_result in Ok (raw_output limit p))) p
  end.

(** ** The channel task *)

(** The task leaves its loop: at once, or after the event it still sends. *)
Definition leave (r : result unit SshMcpError) (last : option RawStreamEvent) (rest : list ChannelMsg) (t : channel_task) : channel_task :=
  {| messages := rest; data_sent := data_sent t; eof_sent := eof_sent t; stdin_closed := stdin_closed t;
     sent_closed := true; forwarding := last; leaving := Some r;
     ended := match last with Some _ => None | None => Some r end |}.

Definition closing (t : channel_task) : option RawStreamEvent := if sent_closed t then None else Some EvClosed.

(** [channel.data] of a chunk; the SSH library may refuse it. *)
Definition on_chunk (chunk : bytes) (accepted : result unit str) (t : channel_task) : channel_task :=
  match accepted with
  | Ok _ =>
      {| messages := messages t; data_sent := data_sent t ++ chunk; eof_sent := eof_sent t; stdin_closed := stdin_closed t;
         sent_closed := sent_closed t; forwarding := forwarding t; leaving := leaving t; ended := ended t |}
  | Err e => leave (Err (Connection (lit "Failed to send stdin: " ++ e))) None (messages t) t
  end.

(** The queue has ended: EOF is sent. *)
Definition on_stdin_end (t : channel_task) : channel_task :=
  {| messages := messages t; data_sent := data_sent t; eof_sent := true; stdin_closed := true;
     sent_closed := sent_closed t; forwarding := forwarding t; leaving := leaving t; ended := ended t |}.

Definition event_of (sent_closed : bool) (m : ChannelMsg) : option RawStreamEvent :=
  match m with
  | Data data => Some (EvStdout data)
  | ExtendedData ext data => Some (if ext =? 1 then EvStderr data else EvStdout data)
  | ExitStatus c => Some (EvExitStatus c)
  | ExitSignal s => Some (EvExitStatus (signal_exit_code s))
  | Close | Eof => if sent_closed then None else Some EvClosed
  | Failure | OtherMsg => None
  end.

Definition is_close (m : ChannelMsg) : bool := match m with Close | Eof => true | _ => false end.

Definition on_message (m : ChannelMsg) (rest : list ChannelMsg) (t : channel_task) : channel_task :=
  {| messages := rest; data_sent := data_sent t; eof_sent := eof_sent t; stdin_closed := stdin_closed t;
     sent_closed := sent_closed t || is_close m; forwarding := event_of (sent_closed t) m; leaving := leaving t;
     ended := ended t |}.

(** The channel is closed. *)
Definition on_channel_end (t : channel_task) : channel_task := leave (Ok tt) (closing t) [] t.

(** The operation is cancelled: EOF, close, and what the channel still
    delivers is dropped. *)
Definition on_cancelled (t : channel_task) : channel_task :=
  leave (Err (Connection (lit "transfer cancelled"))) (closing t) [] (on_stdin_end t).

(** The event was taken by the queue. *)
Definition forwarded (t : channel_task) : channel_task :=
  {| messages := messages t; data_sent := data_sent t; eof_sent := eof_sent t; stdin_closed := stdin_closed t;
     sent_closed := sent_closed t; forwarding := None; leaving := leaving t; ended := leaving t |}.

(** ** Steps *)

Inductive stop_reason : Type := Cancelled | TimedOut.

(** A step of the caller ([Caller]) or of the channel task ([Task]), or the
    timeout or cancellation that ends the whole operation. *)
Inductive choice : Type :=
  | CallerReads
  | CallerSends
  | CallerReceives (written : result unit str)
  | CallerCancelled
  | CallerFinishes (flushed : result unit str)
  | TaskTakesStdin (accepted : result unit str)
  | TaskReceives
  | TaskForwards
  | TaskCancelled
  | Stop (r : stop_reason).

Definition put (p : pump) (t : channel_task) (sq : list bytes) (oq : list RawStreamEvent) (s : raw_state) : raw_state :=
  {| caller := p; task := t; stdin_queue := sq; out_queue := oq; stopped := stopped s |}.

Definition stop_error (timeout_ms : Z) (r : stop_reason) : SshMcpError :=
  match r with TimedOut => Timeout timeout_ms | Cancelled => Connection (lit "transfer cancelled") end.

(** [None]: the step is not possible in this state. *)
Definition caller_step (limit : Z) (has_sink : bool) (c : choice) (s : raw_state) : option raw_state :=
  let p := caller s in let t := task s in let f := feed p in
  let selecting := negb (bool_decide (is_Some (sending f))) && negb (loop_over p) in
  let next p := Some (put p t (stdin_queue s) (out_queue s) s) in
  match answer p, c with
  | Some _, _ => None
  | None, CallerReads => if selecting && negb (stdin_done f) then next (on_read p) else None
  | None, CallerSends =>
      match sending f with
      | None => None
      | Some chunk =>
          if bool_decide (is_Some (ended t)) then
            next (fail_with (Connection (lit "raw channel task ended while sending stdin")) p)
          else if (length (stdin_queue s) <? STDIN_QUEUE)%nat then
            Some (put (set_feed (sent chunk f) p) t (stdin_queue s ++ [chunk]) (out_queue s) s)
          else None
      end
  | None, CallerReceives written =>
      if selecting then
        match out_queue s with
        | e :: rest => Some (put (on_event limit has_sink written (Some e) p) t (stdin_queue s) rest s)
        | [] => if bool_decide (is_Some (ended t)) then next (on_event limit has_sink written None p) else None
        end
      else None
  | None, CallerCancelled =>
      if selecting && negb (stdin_done f) && bool_decide (is_Some (stopped s)) then next (set_feed (end_stdin f) p) else None
  | None, CallerFinishes flushed =>
      match loop_over p, ended t with true, Some r => next (finish limit flushed r p) | _, _ => None end
  | None, _ => None
  end.

Definition task_step (c : choice) (s : raw_state) : option raw_state :=
  let p := caller s in let t := task s in
  let next t := Some (put p t (stdin_queue s) (out_queue s) s) in
  match ended t, forwarding t, c with
  | Some _, _, _ => None
  | None, Some e, TaskForwards =>
      if (length (out_queue s) <? OUT_QUEUE)%nat then Some (put p (forwarded t) (stdin_queue s) (out_queue s ++ [e]) s) else None
  | None, Some _, _ => None
  | None, None, TaskTakesStdin accepted =>
      if stdin_closed t then None
      else match stdin_queue s with
           | chunk :: rest => Some (put p (on_chunk chunk accepted t) rest (out_queue s) s)
           | [] => if tx_alive (feed p) then None else next (on_stdin_end t)
           end
  | None, None, TaskReceives =>
      match messages t with m :: rest => next (on_message m rest t) | [] => next (on_channel_end t) end
  | None, None, TaskCancelled => if bool_decide (is_Some (stopped s)) then next (on_cancelled t) else None
  | None, None, _ => None
  end.

Definition raw_step (timeout_ms limit : Z) (has_sink : bool) (c : choice) (s : raw_state) : option raw_state :=
  match c with
  | Stop r =>
      match answer (caller s), stopped s with
      | None, None =>
          Some {| caller := caller s; task := task s; stdin_queue := stdin_queue s; out_queue := out_queue s;
                  stopped := Some (stop_error timeout_ms r) |}
      | _, _ => None
      end
  | CallerReads | CallerSends | CallerReceives _ | CallerCancelled | CallerFinishes _ => caller_step limit has_sink c s
  | TaskTakesStdin _ | TaskReceives | TaskForwards | TaskCancelled => task_step c s
  end.

Fixpoint raw_run (timeout_ms limit : Z) (has_sink : bool) (cs : list choice) (s : raw_state) : option raw_state :=
  match cs with [] => Some s | c :: cs => s' ← raw_step timeout_ms limit has_sink c s; raw_run timeout_ms limit has_sink cs s' end.

(** [input]: the reads of the caller's input, if there is one. *)
Definition raw_start (input : option (list (result bytes str))) (ms : list ChannelMsg) : raw_state :=
  {| caller := {| feed := {| source := default [] input; sending := None; stdin_done := bool_decide (input = None);
                             tx_alive := true; n_stdin := 0 |};
                  got := {| n_stdout := 0; sink := []; err_text := []; err_cut := false; err_total := 0; code := None |};
                  channel_closed := false; out_rx_closed := false; answer := None |};
     task := {| messages := ms; data_sent := []; eof_sent := false; stdin_closed := false; sent_closed := false;
                forwarding := None; leaving := None; ended := None |};
     stdin_queue := []; out_queue := []; stopped := None |}.

(** What the caller of the operation is told. *)
Definition raw_answer (s : raw_state) : option outcome :=
  match stopped s with Some e => Some (Returned (Err e)) | None => answer (caller s) end.

(** ** What is delivered *)

Definition payload (e : RawStreamEvent) : list RawStreamEvent := match e with EvClosed => [] | e => [e] end.
Definition pending (e : option RawStreamEvent) : list RawStreamEvent := match e with Some e => payload e | None => [] end.
Definition payload_of (m : ChannelMsg) : list RawStreamEvent := pending (event_of true m).

Definition stdout_data (e : RawStreamEvent) : bytes := match e with EvStdout d => d | _ => [] end.
Definition stderr_chunk (e : RawStreamEvent) : option bytes := match e with EvStderr d => Some d | _ => None end.
Definition exit_of (e : RawStreamEvent) : option Z := match e with EvExitStatus c => Some c | _ => None end.

(** The standard output, the chunks of standard error and the exit code that a
    list of messages carries. *)
Definition stdout_of (ms : list ChannelMsg) : bytes :=
  flat_map (fun m => match m with Data d => d | ExtendedData ext d => if ext =? 1 then [] else d | _ => [] end) ms.
Definition stderr_of (ms : list ChannelMsg) : list bytes :=
  omap (fun m => match m with ExtendedData ext d => if ext =? 1 then Some d else None | _ => None end) ms.

(** The bytes of an input: its reads up to the first empty one. *)
Fixpoint input_bytes (reads : list (result bytes str)) : bytes :=
  match reads with
  | Ok (c :: chunk) :: rest => (c :: chunk) ++ input_bytes rest
  | _ => []
  end.

Lemma payload_of_event b m : pending (event_of b m) = payload_of m.
Proof. destruct m; try done; cbn; by destruct b. Qed.

(** The guards of an enabled step. *)
Ltac step_cases H :=
  repeat match type of H with
  | context [match ?x with _ => _ end] => destruct x eqn:?; try discriminate H
  end; try discriminate H; apply Some_inj in H; subst; bool_hyps.

Section correct.
Context (timeout_ms limit : Z) (has_sink : bool) (input : option (list (result bytes str))) (ms : list ChannelMsg).

(** What was captured is what the handled events carry. *)
Definition captures (handled : list RawStreamEvent) (g : captured) : Prop :=
  sink g = (if has_sink then flat_map stdout_data handled else []) /\
  n_stdout g = Z.of_nat (length (flat_map stdout_data handled)) /\
  bounded_stderr limit (omap stderr_chunk handled) = Some (err_text g, err_cut g) /\
  code g = last (omap exit_of handled).

(** The caller's future has not failed. *)
Definition live (p : pump) : Prop :=
  match answer p with None | Some (Returned (Ok _)) => True | _ => False end.

Definition output_inv (s : raw_state) : Prop :=
  exists done handled,
    ms = done ++ messages (task s) /\
    flat_map payload_of done = handled ++ flat_map payload (out_queue s) ++ pending (forwarding (task s)) /\
    (live (caller s) -> captures handled (got (caller s))).

Definition ending_inv (s : raw_state) : Prop :=
  (out_rx_closed (caller s) = true -> is_Some (ended (task s)) /\ out_queue s = []) /\
  (is_Some (ended (task s)) -> forwarding (task s) = None) /\
  (leaving (task s) = Some (Ok tt) \/ ended (task s) = Some (Ok tt) -> messages (task s) = []) /\
  (forall out, answer (caller s) = Some (Returned (Ok out)) ->
     out = raw_output limit (caller s) /\ out_rx_closed (caller s) = true /\ ended (task s) = Some (Ok tt)).

Definition stdin_inv (s : raw_state) : Prop :=
  let f := feed (caller s) in
  (ended (task s) = None \/ ended (task s) = Some (Ok tt) ->
     input_bytes (default [] input) =
       data_sent (task s) ++ concat (stdin_queue s) ++ default [] (sending f) ++ input_bytes (source f) /\
     n_stdin f = Z.of_nat (length (data_sent (task s) ++ concat (stdin_queue s)))) /\
  (tx_alive f = false -> sending f = None /\ input_bytes (source f) = []) /\
  (eof_sent (task s) = true -> stdin_queue s = [] /\ tx_alive f = false).

Definition raw_inv (s : raw_state) : Prop := output_inv s /\ ending_inv s /\ stdin_inv s.

Lemma last_snoc_omap {A B} (f : A -> option B) l x : last (omap f (l ++ [x])) = match f x with Some b => Some b | None => last (omap f l) end.
Proof. rewrite omap_app. cbn. destruct (f x); [by rewrite last_snoc|by rewrite app_nil_r]. Qed.

Lemma bounded_snoc handled e :
  bounded_stderr limit (omap stderr_chunk (handled ++ [e])) =
  match stderr_chunk e with
  | Some d => '(text, cut) ← bounded_stderr limit (omap stderr_chunk handled);
              if (cut : bool) then Some (text, true) else append_bounded_lossy_stderr text d limit
  | None => bounded_stderr limit (omap stderr_chunk handled)
  end.
Proof.
  rewrite omap_app. cbn. destruct (stderr_chunk e); [|by rewrite app_nil_r].
  unfold bounded_stderr. by rewrite foldl_app.
Qed.

Lemma live_answered p q : live p -> answer p = None -> answer q = answer p -> live q.
Proof. unfold live. intros _ E ->. by rewrite E. Qed.

(** One event handled. *)
Lemma on_event_captures handled written e p :
  answer p = None -> captures handled (got p) ->
  live (on_event limit has_sink written (Some e) p) ->
  captures (handled ++ payload e) (got (on_event limit has_sink written (Some e) p)).
Proof.
  intros Hp (Hs & Hn & He & Hc) Hl. destruct e as [d|d|c|]; cbn [payload].
  - unfold captures. rewrite bounded_snoc, last_snoc_omap, !flat_map_app. cbn in *. rewrite app_nil_r, length_app.
    destruct has_sink; [destruct written; [|done]|]; cbn; rewrite Hs, Hn, ?app_nil_r; split_and!; try done; lia.
  - unfold captures. rewrite bounded_snoc, last_snoc_omap, !flat_map_app, He. cbn in *. rewrite app_nil_r.
    destruct (err_cut (got p)); [|destruct (append_bounded_lossy_stderr _ _ _) as [[text cut]|]; [|done]]; cbn; by split_and!.
  - unfold captures. rewrite bounded_snoc, last_snoc_omap, !flat_map_app. cbn in *. rewrite app_nil_r. by split_and!.
  - cbn. rewrite app_nil_r. by split_and!.
Qed.

Lemma on_event_none_got written p : got (on_event limit has_sink written None p) = got p.
Proof. done. Qed.

Lemma on_event_frame written e p :
  let q := on_event limit has_sink written e p in
  feed q = feed p /\ out_rx_closed q = match e with Some _ => out_rx_closed p | None => true end /\
  (answer p = None -> forall out, answer q <> Some (Returned (Ok out))).
Proof.
  destruct p as [f g c o a]. destruct e as [[]|]; cbn; repeat case_match; cbn; split_and!; try done; intros ->; done.
Qed.

Arguments on_event : simpl never.
Arguments on_read : simpl never.
Arguments finish : simpl never.

Lemma caller_output c s s' : caller_step limit has_sink c s = Some s' -> output_inv s -> output_inv s'.
Proof.
  intros H (done & handled & Hms & Hp & Hc). unfold caller_step in H.
  assert (Ha : answer (caller s) = None) by (destruct (answer (caller s)); [done|by destruct c]).
  rewrite Ha in H.
  assert (Hlive : live (caller s)) by (unfold live; by rewrite Ha). specialize (Hc Hlive).
  destruct c; try done; step_cases H;
    try (exists done, handled; cbn; split_and!; [done|done|intros Hl; try done]).
  - unfold on_read in *. destruct (source _) as [|[[]|] ?]; done.
  - cbn in Hp. eexists done, (handled ++ payload r). cbn. split_and!; [done|by rewrite Hp, <- !app_assoc|].
    intros Hl. by apply on_event_captures.
  - unfold finish. by destruct flushed.
Qed.

Lemma caller_ending c s s' : caller_step limit has_sink c s = Some s' -> ending_inv s -> ending_inv s'.
Proof.
  intros H (Ho & Hf & Hl & Hout). unfold caller_step in H.
  assert (Ha : answer (caller s) = None) by (destruct (answer (caller s)); [done|by destruct c]).
  rewrite Ha in H.
  destruct c; try done; step_cases H; unfold ending_inv; cbn; rewrite ?Ha; try (split_and!; done).
  - unfold on_read. destruct (source _) as [|[[]|] ?]; cbn; rewrite ?Ha; split_and!; done.
  - destruct (on_event_frame written None (caller s)) as (_ & Hq & Hn). split_and!; try done.
    intros out E. by destruct (Hn Ha out).
  - destruct (on_event_frame written (Some r) (caller s)) as (_ & Hq & Hn). rewrite Hq. split_and!; try done.
    + intros E. by destruct (Ho E).
    + intros out E. by destruct (Hn Ha out).
  - unfold finish, loop_over in *. bool_hyps. rewrite Heqo. destruct flushed as [[]|]; cbn; [|by split_and!].
    split_and!; try done. intros out E. destruct r as [[]|]; cbn in *; simplify_eq. done.
Qed.

Lemma caller_stdin c s s' : stopped s = None -> caller_step limit has_sink c s = Some s' -> stdin_inv s -> stdin_inv s'.
Proof.
  intros Hst H (Hd & Ht & He). unfold caller_step in H.
  assert (Ha : answer (caller s) = None) by (destruct (answer (caller s)); [done|by destruct c]).
  rewrite Ha in H.
  destruct c; try done; step_cases H; unfold stdin_inv; cbn; try done.
  - rewrite <- eq_None_not_Some in H. rewrite H in *. unfold on_read.
    destruct (source _) as [|[[|b d]|e] rest] eqn:E; cbn in *; rewrite ?E, ?H; try done.
    + split_and!; [done..|]. intros T. by destruct (He T).
    + split_and!; [done..|]. intros T. by destruct (He T).
    + split_and!; [done| |done]. intros T. by destruct (Ht T).
  - by rewrite Heqo.
  - split_and!; [|intros T; by destruct (Ht T)|intros T; destruct (He T) as [_ T']; by destruct (Ht T')].
    intros Hi. destruct (Hd Hi) as [-> ->]. rewrite concat_app. cbn. rewrite !app_nil_r, !length_app, <- !app_assoc. split; [done|lia].
  - by destruct (on_event_frame written (Some r) (caller s)) as (-> & _).
  - rewrite Hst in H0. by destruct H0.
  - rewrite Heqo. unfold finish. by destruct flushed.
Qed.

(** The task's steps; while nothing stops the operation it is not cancelled. *)
Lemma task_output c s s' : stopped s = None -> task_step c s = Some s' -> ending_inv s -> output_inv s -> output_inv s'.
Proof.
  intros Hst H (_ & _ & Hl & _) (done & handled & Hms & Hp & Hc). unfold task_step in H.
  destruct c; step_cases H; cbn in *; unfold output_inv; cbn.
  - exists done, handled. rewrite Heqo0. by split_and!.
  - exists done, handled. destruct accepted; cbn; rewrite ?Heqo0; by split_and!.
  - exists done, handled. unfold closing. destruct (sent_closed _); cbn; by split_and!.
  - exists (done ++ [c]), handled. rewrite Hms, flat_map_app, Hp, <- !app_assoc. cbn.
    by rewrite payload_of_event, app_nil_r.
  - exists done, handled. rewrite flat_map_app. cbn. rewrite !app_nil_r. by split_and!.
  - rewrite Hst in Heqb. by destruct Heqb.
Qed.

Lemma task_ending c s s' : stopped s = None -> task_step c s = Some s' -> ending_inv s -> ending_inv s'.
Proof.
  intros Hst H (Ho & Hf & Hl & Hout). unfold task_step in H.
  assert (He : ended (task s) = None) by (destruct (ended (task s)); [by destruct c|done]).
  rewrite He in *.
  assert (Hx : out_rx_closed (caller s) = false) by (destruct (out_rx_closed _); [by destruct (Ho eq_refl) as [[]]|done]).
  assert (Hno : forall out, answer (caller s) <> Some (Returned (Ok out))) by (intros out E; by destruct (Hout out E) as (_ & _ & ?)).
  destruct c; step_cases H; unfold ending_inv; cbn in *; rewrite ?Hx, ?He.
  all: try (split_and!; [done| | |intros out E; by destruct (Hno out)]; intros HL).
  all: try done; try (by apply Hl; destruct HL; [left|]); try (by destruct HL).
  - by destruct accepted; cbn in *; [rewrite He in HL; destruct HL|].
  - destruct accepted; cbn in *; [apply Hl; by rewrite He in HL|by destruct HL as [HL|HL]].
  - by destruct (closing _); destruct HL.
  - assert (c :: l = []) by (apply Hl; by destruct HL as [|]; [left|]). done.
  - by apply Hl; destruct HL; left.
  - by destruct (closing _); destruct HL.
Qed.

Lemma task_stdin c s s' : stopped s = None -> task_step c s = Some s' -> stdin_inv s -> stdin_inv s'.
Proof.
  intros Hst H (Hd & Ht & He). unfold task_step in H.
  assert (Hn : ended (task s) = None) by (destruct (ended (task s)); [by destruct c|done]).
  rewrite Hn in *. specialize (Hd (or_introl eq_refl)) as [Hd Hn'].
  destruct c; step_cases H; unfold stdin_inv; cbn in *; rewrite ?Hn.
  - rewrite Heqb0. by split_and!.
  - destruct accepted; cbn in *; rewrite ?Hn.
    + rewrite Hd, Hn', <- !app_assoc. split_and!; try done. intros E. by destruct (He E).
    + split_and!; try done. { by intros [|]. } intros E. by destruct (He E).
  - by split_and!.
  - by split_and!.
  - by split_and!.
  - rewrite Hst in Heqb. by destruct Heqb.
Qed.

Lemma raw_step_inv c s s' :
  raw_step timeout_ms limit has_sink c s = Some s' -> stopped s' = None -> stopped s = None /\ (raw_inv s -> raw_inv s').
Proof.
  intros H Hs'. assert (Hst : stopped s = None).
  { destruct c; cbn in H; unfold caller_step, task_step in H; step_cases H; done. }
  split; [done|]. intros (H1 & H2 & H3).
  destruct c; cbn in H; try (split_and!; [by eapply caller_output|by eapply caller_ending|by eapply caller_stdin]).
  1-4: split_and!; [by eapply task_output|by eapply task_ending|by eapply task_stdin].
  step_cases H. done.
Qed.

Lemma raw_run_inv cs s s' :
  raw_run timeout_ms limit has_sink cs s = Some s' -> stopped s' = None -> stopped s = None /\ (raw_inv s -> raw_inv s').
Proof.
  revert s. induction cs as [|c cs IH]; intros s H Hst; cbn in H; [by simplify_eq|].
  destruct (raw_step _ _ _ c s) as [s1|] eqn:E; [|done]. cbn in H. destruct (IH _ H Hst) as [Hs1 Hi].
  destruct (raw_step_inv _ _ _ E Hs1) as [? ?]. split; [done|]. by auto.
Qed.

Lemma raw_start_inv : raw_inv (raw_start input ms).
Proof.
  split_and!.
  - exists [], []. split_and!; try done. intros _. split_and!; try done. by destruct has_sink.
  - by split_and!; [|intros [? ?]|intros [|]|].
  - split_and!; try done.
Qed.

Lemma stdout_payload l : flat_map stdout_data (flat_map payload_of l) = stdout_of l.
Proof.
  induction l as [|m l IH]; [done|]. cbn. rewrite flat_map_app, IH. f_equal.
  destruct m; cbn; try done; [by rewrite app_nil_r|]. destruct (ext =? 1); cbn; [done|by rewrite app_nil_r].
Qed.

Lemma stderr_payload l : omap stderr_chunk (flat_map payload_of l) = stderr_of l.
Proof.
  induction l as [|m l IH]; [done|]. cbn. rewrite omap_app, IH. destruct m; try done. cbn. by destruct (ext =? 1).
Qed.

Lemma exit_payload l : omap exit_of (flat_map payload_of l) = omap exit_report l.
Proof.
  induction l as [|m l IH]; [done|]. cbn. rewrite omap_app, IH. destruct m; try done. cbn. by destruct (ext =? 1).
Qed.
End correct.

(** When raw streaming returns an output, then, whatever the order in
    which the two tasks ran: the caller's output got exactly the standard
    output the channel delivered until it was closed, the exit code is the last
    one reported (none if none was), standard error is bounded as for
    [bounded_stderr], and what was sent into the channel is a prefix of the
    input, the whole of it when EOF was sent. *)
Theorem raw_stream_faithful (timeout_ms limit : Z) (has_sink : bool) (input : option (list (result bytes str)))
    (ms : list ChannelMsg) (cs : list choice) (s : raw_state) (out : TransferRawOutput)
    (Hrun : raw_run timeout_ms limit has_sink cs (raw_start input ms) = Some s)
    (Hout : raw_answer s = Some (Returned (Ok out))) :
  sink (got (caller s)) = (if has_sink then stdout_of ms else []) /\
  stdout_bytes out = Z.of_nat (length (stdout_of ms)) /\
  r_exit_code out = last_exit ms /\
  (exists kept cut total, bounded_stderr limit (stderr_of ms) = Some (kept, cut) /\
     r_stderr out = (if (cut : bool) then kept ++ stderr_notice limit total else kept)) /\
  (exists rest, input_bytes (default [] input) = data_sent (task s) ++ rest /\ (eof_sent (task s) = true -> rest = [])).
Proof.
  unfold raw_answer in Hout. destruct (stopped s) as [e|] eqn:Hst; [done|].
  destruct (raw_run_inv timeout_ms limit has_sink input ms _ _ _ Hrun Hst) as [_ Hinv].
  destruct (Hinv (raw_start_inv _ _ _ _)) as ((done & handled & Hms & Hp & Hc) & (Ho & Hf & Hl & Ha) & (Hd & Ht & He)).
  destruct (Ha _ Hout) as (-> & Hx & Hend). destruct (Ho Hx) as [_ Hq].
  rewrite (Hf ltac:(by rewrite Hend)), Hq in Hp. rewrite (Hl (or_intror Hend)), app_nil_r in Hms. subst done.
  rewrite !app_nil_r in Hp. destruct Hc as (Hs & Hn & Hb & Hcode); [unfold live; by rewrite Hout|].
  rewrite <- Hp, ?stdout_payload, ?stderr_payload, ?exit_payload in *.
  split_and!; [done|done|done| |].
  - exists (err_text (got (caller s))), (err_cut (got (caller s))), (err_total (got (caller s))). done.
  - destruct (Hd (or_intror Hend)) as [-> _]. eexists. split; [done|]. intros E. destruct (He E) as [-> T].
    destruct (Ht T) as [-> ->]. done.
Qed.

Definition raw_faithful_run : list choice :=
  [CallerReads; CallerSends; TaskReceives; TaskForwards; CallerReceives (Ok tt); TaskTakesStdin (Ok tt); CallerReads;
   TaskTakesStdin (Ok tt); TaskReceives; TaskForwards; TaskReceives; TaskForwards; TaskReceives; TaskForwards; TaskReceives;
   CallerReceives (Ok tt); CallerReceives (Ok tt); CallerReceives (Ok tt); CallerReceives (Ok tt); CallerFinishes (Ok tt)].

Lemma raw_stream_faithful_witness :
  let ms := [Data [104; 105]; ExtendedData 1 (lit "note"); ExitStatus 0; Close] in
  exists s out, raw_run 1000 100 true raw_faithful_run (raw_start (Some [Ok [1; 2; 3]]) ms) = Some s /\
    raw_answer s = Some (Returned (Ok out)) /\ sink (got (caller s)) = [104; 105] /\ r_exit_code out = Some 0.
Proof.
  intros ms. eexists _, _. split; [vm_compute; reflexivity|]. split; [vm_compute; reflexivity|].
  match goal with |- sink (got (caller ?s)) = _ /\ r_exit_code ?out = _ =>
    destruct (raw_stream_faithful 1000 100 true (Some [Ok [1; 2; 3]]) ms raw_faithful_run s out) as (Hs & _ & Hc & _);
      [vm_compute; reflexivity|vm_compute; reflexivity|] end.
  split; [rewrite Hs|rewrite Hc]; vm_compute; reflexivity.
Defined.

(** ** When the tasks wait for each other *)

(** The caller waits for room in the input queue while the channel task waits
    for room in the output queue. *)
Definition deadlocked (s : raw_state) : Prop :=
  is_Some (sending (feed (caller s))) /\ (STDIN_QUEUE <= length (stdin_queue s))%nat /\
  is_Some (forwarding (task s)) /\ (OUT_QUEUE <= length (out_queue s))%nat /\ ended (task s) = None.

(** Only the timeout or a cancellation can happen. *)
Definition blocked (timeout_ms limit : Z) (has_sink : bool) (s : raw_state) : Prop :=
  forall c s', raw_step timeout_ms limit has_sink c s = Some s' -> exists r, c = Stop r.

Lemma deadlocked_blocked timeout_ms limit has_sink s : deadlocked s -> blocked timeout_ms limit has_sink s.
Proof.
  intros ([chunk Hc] & Hq & [e Hf] & Ho & He) c s' H. unfold STDIN_QUEUE, OUT_QUEUE in *.
  destruct c; [..|by eexists]; exfalso; cbn in H; unfold caller_step, task_step in H;
    rewrite ?Hc, ?Hf, ?He in H; cbn in H; step_cases H; unfold STDIN_QUEUE, OUT_QUEUE in *.
  all: apply Nat.leb_le in Heqb; lia.
Qed.

Lemma is_some_dec {A} (o : option A) : bool_decide (is_Some o) = match o with Some _ => true | None => false end.
Proof. destruct o; [by apply bool_decide_eq_true_2|apply bool_decide_eq_false_2; by intros [? ?]]. Qed.

Lemma blocked_deadlocked timeout_ms limit has_sink s :
  (out_rx_closed (caller s) = true -> is_Some (ended (task s))) ->
  answer (caller s) = None -> blocked timeout_ms limit has_sink s -> deadlocked s.
Proof.
  intros Hx Ha Hb.
  assert (no : forall c, raw_step timeout_ms limit has_sink c s <> None -> exists r, c = Stop r).
  { intros c. destruct (raw_step timeout_ms limit has_sink c s) eqn:E; [|done]. intros _. by eapply Hb. }
  pose proof (no CallerSends) as N1. pose proof (no (CallerReceives (Ok tt))) as N2. pose proof (no (CallerFinishes (Ok tt))) as N3.
  pose proof (no TaskReceives) as N4. pose proof (no TaskForwards) as N5. clear Hb no.
  cbn in N1, N2, N3, N4, N5. unfold caller_step, task_step in *. rewrite Ha, !is_some_dec in *.
  destruct (ended (task s)) as [r|] eqn:He.
  - exfalso. destruct (sending (feed (caller s))); [by destruct N1|]. destruct (loop_over (caller s)); [by destruct N3|].
    cbn in N2. destruct (out_queue s); by destruct N2.
  - destruct (forwarding (task s)) as [e|] eqn:Hf; [|by destruct (messages (task s)); destruct N4].
    destruct (length (out_queue s) <? OUT_QUEUE)%nat eqn:Ho; [by destruct N5|]. apply Nat.ltb_ge in Ho.
    assert (loop_over (caller s) = false) as Hl.
    { unfold loop_over. destruct (out_rx_closed (caller s)); [by destruct (Hx eq_refl)|]. by rewrite andb_false_r. }
    rewrite Hl in N2. destruct (sending (feed (caller s))) as [chunk|] eqn:Hs.
    + destruct (length (stdin_queue s) <? STDIN_QUEUE)%nat eqn:Hq; [by destruct N1|]. apply Nat.ltb_ge in Hq.
      unfold deadlocked. rewrite Hs, Hf. by split_and!.
    + exfalso. cbn in N2. destruct (out_queue s); [unfold OUT_QUEUE in Ho; cbn in Ho; lia|by destruct N2].
Qed.

(** The caller queues four chunks and holds a fifth while the task queues
    eight events and holds a ninth. *)
Definition deadlock_run : list choice :=
  concat (repeat [CallerReads; CallerSends] 4) ++ [CallerReads] ++ concat (repeat [TaskReceives; TaskForwards] 8) ++ [TaskReceives].

(** Until the operation is answered or stopped, the two tasks can always
    go on unless each waits for room in the queue that the other one should
    empty; and that can happen: with an input of five reads and a channel that
    delivers nine pieces of output there is an order in which the tasks block
    each other, so that only the timeout or a cancellation ends the
    operation. *)
Theorem raw_stream_blocks (timeout_ms limit : Z) (has_sink : bool) (input : option (list (result bytes str)))
    (ms : list ChannelMsg) :
  (forall cs s, raw_run timeout_ms limit has_sink cs (raw_start input ms) = Some s -> raw_answer s = None ->
     (blocked timeout_ms limit has_sink s <-> deadlocked s)) /\
  (forall b1 b2 b3 b4 b5 c1 c2 c3 c4 c5 more d1 d2 d3 d4 d5 d6 d7 d8 d9 later,
     input = Some (map Ok [b1 :: c1; b2 :: c2; b3 :: c3; b4 :: c4; b5 :: c5] ++ more) ->
     ms = map Data [d1; d2; d3; d4; d5; d6; d7; d8; d9] ++ later ->
     exists cs s, raw_run timeout_ms limit has_sink cs (raw_start input ms) = Some s /\ raw_answer s = None /\ deadlocked s).
Proof.
  split.
  - intros cs s Hrun Hans. unfold raw_answer in Hans. destruct (stopped s) eqn:Hst; [done|].
    destruct (raw_run_inv timeout_ms limit has_sink input ms _ _ _ Hrun Hst) as [_ Hinv].
    destruct (Hinv (raw_start_inv _ _ _ _)) as (_ & (Ho & _) & _).
    split; [|by apply deadlocked_blocked]. apply blocked_deadlocked; [|done]. intros E. by destruct (Ho E).
  - intros. subst. exists deadlock_run. eexists. split; [vm_compute; reflexivity|]. split; [reflexivity|].
    unfold deadlocked, STDIN_QUEUE, OUT_QUEUE. cbn. split_and!; by eauto.
Qed.

Lemma raw_stream_blocks_witness :
  exists cs s,
    raw_run 1000 100 true cs (raw_start (Some (map Ok [[1]; [2]; [3]; [4]; [5]])) (map Data [[]; []; []; []; []; []; []; []; []])) = Some s /\
    blocked 1000 100 true s.
Proof.
  destruct (raw_stream_blocks 1000 100 true (Some (map Ok [[1]; [2]; [3]; [4]; [5]])) (map Data [[]; []; []; []; []; []; []; []; []]))
    as [Hiff Hex].
  destruct (Hex 1 2 3 4 5 [] [] [] [] [] [] [] [] [] [] [] [] [] [] [] []) as (cs & s & Hrun & Ha & Hd); [reflexivity|reflexivity|].
  exists cs, s. split; [exact Hrun|]. exact (proj2 (Hiff cs s Hrun Ha) Hd).
Defined.

(** A channel that is closed without an exit report is answered like a command
    that ended well, without an exit code. *)
Example raw_stream_torn_down :
  exists s, raw_run 1000 100 true
    [TaskReceives; TaskForwards; CallerReceives (Ok tt); TaskReceives; TaskForwards; CallerReads; CallerReceives (Ok tt);
     CallerReceives (Ok tt); CallerFinishes (Ok tt)]
    (raw_start (Some []) [Data [1; 2]]) = Some s /\
  raw_answer s = Some (Returned (Ok {| stdout_bytes := 2; stdin_bytes := 0; r_stderr := []; r_exit_code := None |})).
Proof. eexists. split; vm_compute; reflexivity. Qed.
