(* ===== verification/LocalInstall.v ===== *)
(** * Installing what was received (src/transfer/exec_raw.rs)

    Local staging next to the destination and the replacement of the
    destination, in the directory that holds both. An operation fails as the
    file system says, or for a reason of its own ([fault]), which leaves the
    directory as it was; a failed removal may leave a residue. *)
From Stdlib Require Import ZArith String.
From stdpp Require Import base list gmap.
From S2P Require Import Prelude Errors Paths TransferTypes Destination Staging.

(** The contents of a directory tree are opaque: [T], with its empty tree. *)
Inductive node (T : Type) : Type :=
  | NFile (content : bytes)
  | NDir (tree : T)
  | NSymlink (dangling : bool).
Arguments NFile {T} content.
Arguments NDir {T} tree.
Arguments NSymlink {T} dangling.

Inductive io_kind : Type := AlreadyExists | NotFound | Unsupported | Other.
Record io_err : Type := { e_kind : io_kind; e_text : str }.
Definition io (k : io_kind) (t : str) : io_err := {| e_kind := k; e_text := t |}.

(** ** Names *)

Definition base_name (final default_name : str) : str := default default_name (file_name final).
Definition attempt_suffix (attempt : nat) : str :=
  match attempt with O => [] | n => lit "-" ++ show_uint (Z.of_nat n) end.

(** File names of the candidates; they replace the last component of the path. *)
Definition local_temp_sibling_with_attempt (name id : str) (attempt : nat) : str :=
  name ++ lit ".ssh-mcp-staging-" ++ id ++ attempt_suffix attempt.
Definition local_temp_dir_sibling_with_attempt (name id : str) (attempt : nat) : str :=
  name ++ lit ".ssh-mcp-staging-dir-" ++ id ++ attempt_suffix attempt.
Definition local_backup_dir_sibling (name id : str) : str := name ++ lit ".ssh-mcp-backup-dir-" ++ id.

Section install.
Context {T : Type} (empty_tree : T -> bool) (no_entries : T).
Notation dir := (gmap str (node T)).

(** ** Operations of the file system *)

Definition op {A} (fault : option io_err) (run : dir -> result A io_err * dir) (fs : dir) : result A io_err * dir :=
  match fault with Some e => (Err e, fs) | None => run fs end.

Definition rename (from to : str) (fs : dir) : result unit io_err * dir :=
  match fs !! from with
  | None => (Err (io NotFound (lit "No such file or directory (os error 2)")), fs)
  | Some x =>
      let moved := <[to := x]> (delete from fs) in
      match x, fs !! to with
      | _, None => (Ok tt, moved)
      | NDir _, Some (NDir t) =>
          if empty_tree t then (Ok tt, moved) else (Err (io Other (lit "Directory not empty (os error 39)")), fs)
      | NDir _, Some _ => (Err (io Other (lit "Not a directory (os error 20)")), fs)
      | _, Some (NDir _) => (Err (io Other (lit "Is a directory (os error 21)")), fs)
      | _, Some _ => (Ok tt, moved)
      end
  end.

Definition hard_link (from to : str) (fs : dir) : result unit io_err * dir :=
  match fs !! from, fs !! to with
  | None, _ => (Err (io NotFound (lit "No such file or directory (os error 2)")), fs)
  | Some (NDir _), _ => (Err (io Other (lit "Operation not permitted (os error 1)")), fs)
  | Some _, Some _ => (Err (io AlreadyExists (lit "File exists (os error 17)")), fs)
  | Some x, None => (Ok tt, <[to := x]> fs)
  end.

Definition remove_file (p : str) (fs : dir) : result unit io_err * dir :=
  match fs !! p with
  | None => (Err (io NotFound (lit "No such file or directory (os error 2)")), fs)
  | Some (NDir _) => (Err (io Other (lit "Is a directory (os error 21)")), fs)
  | Some _ => (Ok tt, delete p fs)
  end.

(** [residue]: what a failed removal leaves of the tree. A link is removed
    itself; a file is refused. *)
Definition remove_dir_all (residue : option T) (p : str) (fs : dir) : dir :=
  match fs !! p with
  | Some (NDir _) => match residue with None => delete p fs | Some t => <[p := NDir t]> fs end
  | Some (NSymlink _) => match residue with None => delete p fs | Some _ => fs end
  | _ => fs
  end.

(** [try_exists] follows links. *)
Definition try_exists (p : str) (fs : dir) : result bool io_err * dir :=
  (Ok (match fs !! p with None => false | Some (NSymlink dangling) => negb dangling | Some _ => true end), fs).

Definition create_new (x : node T) (p : str) (fs : dir) : result unit io_err * dir :=
  match fs !! p with
  | Some _ => (Err (io AlreadyExists (lit "File exists (os error 17)")), fs)
  | None => (Ok tt, <[p := x]> fs)
  end.

(** ** Files *)

Record replace_env : Type := { f_rename : option io_err; f_remove_final : option io_err; f_rename_again : option io_err; f_remove_staging : option io_err }.

Definition io_failure (e : io_err) : SshMcpError := Io (e_text e).

Definition atomic_replace_file (env : replace_env) (staging final : str) (fs : dir) : result unit SshMcpError * dir :=
  match op (f_rename env) (rename staging final) fs with
  | (Ok _, fs) => (Ok tt, fs)
  | (Err e, fs) =>
      match e_kind e with
      | AlreadyExists =>
          let '(_, fs) := op (f_remove_final env) (remove_file final) fs in
          match op (f_rename_again env) (rename staging final) fs with
          | (Ok _, fs) => (Ok tt, fs)
          | (Err e, fs) => (Err (io_failure e), (op (f_remove_staging env) (remove_file staging) fs).2)
          end
      | _ => (Err (io_failure e), (op (f_remove_staging env) (remove_file staging) fs).2)
      end
  end.

Definition exists_error : SshMcpError :=
  InvalidParams (lit "local destination exists and overwrite=false. Use overwrite=true to replace it.").

Definition atomic_install_file_overwrite_false (f_link f_remove_staging : option io_err) (staging final : str) (fs : dir) :
    result unit SshMcpError * dir :=
  let '(r, fs) := op f_link (hard_link staging final) fs in
  let fs := (op f_remove_staging (remove_file staging) fs).2 in
  match r with
  | Ok _ => (Ok tt, fs)
  | Err e =>
      (Err match e_kind e with
           | AlreadyExists => exists_error
           | Unsupported => InvalidParams (lit "overwrite=false requires hard-link support on the local filesystem")
           | _ => io_failure e
           end, fs)
  end.

(** Candidates in order; [invalid] is the symbolic link check of a candidate. *)
Fixpoint create_unique (candidate : nat -> str) (invalid : str -> option str) (fault : nat -> option io_err) (x : node T)
    (what : str) (fuel attempt : nat) (fs : dir) : result str SshMcpError * dir :=
  match fuel with
  | O => (Err (Io (lit "failed to allocate unique staging " ++ what ++ lit " name")), fs)
  | S fuel =>
      match invalid (candidate attempt) with
      | Some e => (Err (InvalidParams e), fs)
      | None =>
          match op (fault attempt) (create_new x (candidate attempt)) fs with
          | (Ok _, fs) => (Ok (candidate attempt), fs)
          | (Err e, fs) =>
              match e_kind e with
              | AlreadyExists => create_unique candidate invalid fault x what fuel (S attempt) fs
              | _ => (Err (io_failure e), fs)
              end
          end
      end
  end.

Definition MAX_ATTEMPTS : nat := 128.

Definition create_unique_local_staging_file (invalid : str -> option str) (fault : nat -> option io_err) (name id : str) (fs : dir) :=
  create_unique (local_temp_sibling_with_attempt name id) invalid fault (NFile []) (lit "file") MAX_ATTEMPTS 0 fs.

Definition create_unique_local_staging_dir (invalid : str -> option str) (fault : nat -> option io_err) (name id : str) (fs : dir) :=
  create_unique (local_temp_dir_sibling_with_attempt name id) invalid fault (NDir no_entries) (lit "directory") MAX_ATTEMPTS 0 fs.

(** ** Directories *)

Record replace_dir_env : Type := {
  d_parent : option io_err; d_exists : option io_err; d_backup_exists : option io_err; d_to_backup : option io_err;
  d_install : option io_err; d_rollback : option io_err; d_residue : option T }.

Definition atomic_replace_dir (env : replace_dir_env) (staging final backup : str) (fs : dir) : result unit SshMcpError * dir :=
  match d_parent env with
  | Some e => (Err (io_failure e), fs)
  | None =>
      match op (d_exists env) (try_exists final) fs with
      | (Err e, fs) => (Err (io_failure e), fs)
      | (Ok had_destination, fs) =>
          let moved_away : result unit SshMcpError * dir :=
            if had_destination then
              match op (d_backup_exists env) (try_exists backup) fs with
              | (Err e, fs) => (Err (io_failure e), fs)
              | (Ok true, fs) => (Err (Connection (lit "backup path already exists: " ++ backup)), fs)
              | (Ok false, fs) =>
                  match op (d_to_backup env) (rename final backup) fs with
                  | (Err e, fs) => (Err (io_failure e), fs)
                  | (Ok _, fs) => (Ok tt, fs)
                  end
              end
            else (Ok tt, fs) in
          match moved_away with
          | (Err e, fs) => (Err e, fs)
          | (Ok _, fs) =>
              match op (d_install env) (rename staging final) fs with
              | (Ok _, fs) => (Ok tt, if had_destination then remove_dir_all (d_residue env) backup fs else fs)
              | (Err install_error, fs) =>
                  if had_destination then
                    match op (d_rollback env) (rename backup final) fs with
                    | (Ok _, fs) => (Err (io_failure install_error), fs)
                    | (Err rollback_error, fs) =>
                        (Err (Connection (lit "failed to install staged directory: " ++ e_text install_error ++
                           lit "; rollback failed: " ++ e_text rollback_error ++ lit "; backup retained at " ++ backup)), fs)
                    end
                  else (Err (io_failure install_error), fs)
              end
          end
      end
  end.

(** ** Receiving a file *)

(** [g_stream]: the bytes that reached the staging file and how the transfer
    ended; [g_flush]: a failure of [flush] or [sync_all]. *)
Record get_file_env : Type := {
  g_invalid : str -> option str;
  g_create : nat -> option io_err;
  g_stream : bytes * result TransferRawOutput SshMcpError;
  g_remove : option io_err;
  g_flush : option io_err;
  g_replace : replace_env;
  g_link : option io_err;
  g_unlink : option io_err
}.

Definition file_counts (n : Z) : TransferCounts := {| c_bytes := n; c_files := 1; c_directories := 0 |}.

Definition get_file_exec_raw (env : get_file_env) (remote_src name id : str) (overwrite : bool) (fs : dir) :
    result TransferCounts SshMcpError * dir :=
  match validate_remote_user_file_path remote_src (lit "remote_path") with
  | Err e => (Err e, fs)
  | Ok _ =>
      match create_unique_local_staging_file (g_invalid env) (g_create env) name id fs with
      | (Err e, fs) => (Err e, fs)
      | (Ok tmp, fs) =>
          let '(received, exec_out) := g_stream env in
          let fs := <[tmp := NFile received]> fs in
          let discard := (op (g_remove env) (remove_file tmp) fs).2 in
          match exec_out with
          | Err e => (Err e, discard)
          | Ok out =>
              match g_flush env with
              | Some e => (Err (io_failure e), fs)
              | None =>
                  match ensure_remote_success (lit "get_file") out with
                  | Err e => (Err e, discard)
                  | Ok _ =>
                      let '(r, fs) :=
                        if overwrite then atomic_replace_file (g_replace env) tmp name fs
                        else atomic_install_file_overwrite_false (g_link env) (g_unlink env) tmp name fs in
                      match r with Err e => (Err e, fs) | Ok _ => (Ok (file_counts (stdout_bytes out)), fs) end
                  end
              end
          end
      end
  end.

(** ** Receiving a directory *)

(** [h_extracted]: the tree that extraction made of the stream, and its answer. *)
Record get_dir_env : Type := {
  h_invalid : str -> option str;
  h_create : nat -> option io_err;
  h_stream : result TransferRawOutput SshMcpError;
  h_extracted : T * result TransferCounts SshMcpError;
  h_residue : option T;
  h_replace : replace_dir_env
}.

Definition also_decoder (e decoder : SshMcpError) : SshMcpError :=
  Connection (lit "get_dir failed: " ++ error_display e ++ lit "; additionally tar decoder failed: " ++ error_display decoder).

(** Why the received tree is not used. *)
Definition receive_failure (stream : result TransferRawOutput SshMcpError) (extracted : result TransferCounts SshMcpError) :
    result TransferCounts SshMcpError :=
  let remote := let? out := stream in ensure_remote_success (lit "get_dir") out in
  match remote, extracted with
  | Err e, Err decoder => Err (also_decoder e decoder)
  | Err e, Ok _ => Err e
  | Ok _, Err e => Err e
  | Ok _, Ok counts => Ok counts
  end.

Definition get_dir_exec_raw (env : get_dir_env) (remote_src_dir name id : str) (overwrite : bool) (fs : dir) :
    result TransferCounts SshMcpError * dir :=
  match validate_remote_user_path remote_src_dir (lit "remote_path") with
  | Err e => (Err e, fs)
  | Ok _ =>
      let '(target, fs) :=
        if overwrite then create_unique_local_staging_dir (h_invalid env) (h_create env) name id fs
        else
          match op (h_create env 0%nat) (create_new (NDir no_entries) name) fs with
          | (Ok _, fs) => (Ok name, fs)
          | (Err e, fs) => (Err (match e_kind e with AlreadyExists => exists_error | _ => io_failure e end), fs)
          end in
      match target with
      | Err e => (Err e, fs)
      | Ok target =>
          let '(tree, extracted) := h_extracted env in
          let fs := <[target := NDir tree]> fs in
          match receive_failure (h_stream env) extracted with
          | Err e => (Err e, remove_dir_all (h_residue env) target fs)
          | Ok counts =>
              if overwrite then
                match atomic_replace_dir (h_replace env) target name (local_backup_dir_sibling name id) fs with
                | (Ok _, fs) => (Ok counts, fs)
                | (Err e, fs) => (Err e, remove_dir_all (h_residue env) target fs)
                end
              else (Ok counts, fs)
          end
      end
  end.
End install.

(** ** What the operations do *)

Section correct.
Context {T : Type} (empty_tree : T -> bool).
Notation dir := (gmap str (node T)).
Implicit Types fs : dir.

Lemma op_spec {A} fault (run : dir -> result A io_err * dir) fs :
  (exists e, fault = Some e /\ op fault run fs = (Err e, fs)) \/ (fault = None /\ op fault run fs = run fs).
Proof. destruct fault as [e|]; [left; eauto|by right]. Qed.

Lemma rename_spec from to fs :
  match rename empty_tree from to fs with
  | (Ok _, fs') => exists x, fs !! from = Some x /\ fs' = <[to := x]> (delete from fs)
  | (Err e, fs') => fs' = fs /\ e_kind e <> AlreadyExists
  end.
Proof.
  unfold rename. destruct (fs !! from) as [x|]; [|done].
  destruct x, (fs !! to) as [[| |]|]; try done; try (by eexists). destruct (empty_tree _); [by eexists|done].
Qed.

Lemma hard_link_spec from to fs :
  match hard_link from to fs with
  | (Ok _, fs') => exists x, fs !! from = Some x /\ fs !! to = None /\ fs' = <[to := x]> fs
  | (Err e, fs') => fs' = fs
  end.
Proof. unfold hard_link. destruct (fs !! from) as [[]|], (fs !! to); try done; by eexists. Qed.

Definition is_dir_node (x : node T) : bool := match x with NDir _ => true | _ => false end.

(** A removal of a file deletes it or, failing, leaves it. *)
Lemma remove_file_spec fault p x fs :
  fs !! p = Some x -> is_dir_node x = false ->
  (op fault (remove_file p) fs).2 = delete p fs \/ (fault <> None /\ (op fault (remove_file p) fs).2 = fs).
Proof. intros E Hx. destruct fault; [by right|left]. unfold op, remove_file. rewrite E. by destruct x. Qed.

Lemma create_unique_spec candidate invalid fault x what fuel : forall attempt fs,
  match create_unique candidate invalid fault x what fuel attempt fs with
  | (Ok c, fs') => exists a, c = candidate a /\ fs !! c = None /\ fs' = <[c := x]> fs
  | (Err _, fs') => fs' = fs
  end.
Proof.
  induction fuel as [|fuel IH]; intros attempt fs; [done|]. cbn [create_unique].
  destruct (invalid _); [done|]. destruct (op_spec (fault attempt) (create_new x (candidate attempt)) fs) as [(e & _ & ->)|[_ ->]].
  - destruct (e_kind e); [apply IH|done..].
  - unfold create_new. destruct (fs !! candidate attempt) eqn:E; [apply IH|]. by exists attempt.
Qed.

(** Candidates and backups are not the destination, nor each other. *)
Lemma name_app_ne (name s : str) : s <> [] -> name ++ s <> name.
Proof. intros Hs E. rewrite <- (app_nil_r name) in E at 2. by apply app_inv_head in E. Qed.

Lemma candidate_ne name id a : local_temp_sibling_with_attempt name id a <> name.
Proof. by apply name_app_ne. Qed.
Lemma dir_candidate_ne name id a : local_temp_dir_sibling_with_attempt name id a <> name.
Proof. by apply name_app_ne. Qed.
Lemma backup_ne name id : local_backup_dir_sibling name id <> name.
Proof. by apply name_app_ne. Qed.
Lemma dir_candidate_backup name id a : local_temp_dir_sibling_with_attempt name id a <> local_backup_dir_sibling name id.
Proof. intros E. by apply app_inv_head in E. Qed.

(** ** Files *)

(** The staging file is gone, or a removal failed. *)
Definition unstaged (staging : str) (failed : Prop) fs fs' : Prop := fs' = delete staging fs \/ (failed /\ fs' = fs).

(** The way out of [atomic_replace_file] that loses the destination: the first
    rename reports that the destination exists (which rename(2) never does, but
    other file systems may), the destination is removed, and the second rename
    fails for a reason of its own. *)
Definition replace_gap (env : replace_env) : Prop :=
  (exists e, f_rename env = Some e /\ e_kind e = AlreadyExists) /\ f_remove_final env = None /\ f_rename_again env <> None.

Lemma atomic_replace_file_spec env staging final x fs :
  staging <> final -> fs !! staging = Some x -> is_dir_node x = false ->
  match atomic_replace_file empty_tree env staging final fs with
  | (Ok _, fs') => fs' = <[final := x]> (delete staging fs)
  | (Err _, fs') => unstaged staging (f_remove_staging env <> None) fs fs' \/
      (replace_gap env /\ unstaged staging (f_remove_staging env <> None) (delete final fs) fs')
  end.
Proof.
  intros Hne Hs Hx. unfold atomic_replace_file.
  pose proof (remove_file_spec (f_remove_staging env) _ _ _ Hs Hx) as Hr.
  assert (Hs' : delete final fs !! staging = Some x) by (by rewrite lookup_delete_ne).
  assert (Hdrop : forall fs1, fs1 = fs \/ fs1 = delete final fs ->
            match rename empty_tree staging final fs1 with
            | (Ok _, fs') => fs' = <[final := x]> (delete staging fs)
            | (Err _, fs') => fs' = fs1 /\ fs1 = fs
            end).
  { intros fs1 [->| ->].
    - pose proof (rename_spec staging final fs) as H. destruct (rename _ _ _ _) as [[[]|e] fs2]; [|by destruct H as [-> _]].
      destruct H as (y & Hy & ->). congruence.
    - unfold rename. rewrite Hs', lookup_delete_eq. destruct x; [|done|];
        by rewrite delete_delete, insert_delete_eq. }
  destruct (op_spec (f_rename env) (rename empty_tree staging final) fs) as [(e & Ef & ->)|[_ ->]].
  - destruct (e_kind e) eqn:Ek; [|by left..].
    assert (Hf : (op (f_remove_final env) (remove_file final) fs).2 = fs \/
                 ((op (f_remove_final env) (remove_file final) fs).2 = delete final fs /\ f_remove_final env = None)).
    { destruct (f_remove_final env); [by left|]. unfold op, remove_file.
      destruct (fs !! final) as [[| |]|]; [by right|by left|by right|by left]. }
    destruct (op (f_remove_final env) (remove_file final) fs) as [r1 fs1]. cbn [snd] in Hf.
    destruct (op_spec (f_rename_again env) (rename empty_tree staging final) fs1) as [(e2 & Ef2 & ->)|[_ ->]].
    + destruct Hf as [->|[-> Hn]]; [by left|right]. split; [|by apply (remove_file_spec (f_remove_staging env) _ x)].
      split_and!; [eauto|done|by rewrite Ef2].
    + specialize (Hdrop fs1 ltac:(tauto)). destruct (rename _ _ _ fs1) as [[[]|e2] fs2]; [done|]. destruct Hdrop as [-> ->]. by left.
  - specialize (Hdrop fs (or_introl eq_refl)). pose proof (rename_spec staging final fs) as H.
    destruct (rename empty_tree staging final fs) as [[[]|e] fs1]; [done|].
    destruct H as [-> He]. destruct (e_kind e); [done|by left..].
Qed.

Lemma install_file_spec f_link f_unlink staging final x fs :
  staging <> final -> fs !! staging = Some x -> is_dir_node x = false ->
  match atomic_install_file_overwrite_false f_link f_unlink staging final fs with
  | (Ok _, fs') => fs !! final = None /\ unstaged staging (f_unlink <> None) (<[final := x]> fs) fs'
  | (Err _, fs') => unstaged staging (f_unlink <> None) fs fs'
  end.
Proof.
  intros Hne Hs Hx. unfold atomic_install_file_overwrite_false.
  destruct (op_spec f_link (hard_link staging final) fs) as [(e & _ & ->)|[_ ->]].
  - by apply (remove_file_spec f_unlink _ _ _ Hs Hx).
  - pose proof (hard_link_spec staging final fs) as H. destruct (hard_link staging final fs) as [[[]|e] fs1].
    + destruct H as (y & Hy & Hn & ->). assert (y = x) as -> by congruence. split; [done|].
      apply (remove_file_spec f_unlink _ x); [by rewrite lookup_insert_ne|done].
    + subst fs1. by apply (remove_file_spec f_unlink _ _ _ Hs Hx).
Qed.

(** Nothing but the destination changes; a staging file remains only when
    something [failed]. *)
Definition staging_frame (failed : Prop) (name id : str) fs fs' : Prop :=
  (forall p x, p <> name -> fs !! p = Some x -> fs' !! p = Some x) /\
  (forall p, p <> name -> fs !! p = None -> is_Some (fs' !! p) ->
     (exists a, p = local_temp_sibling_with_attempt name id a) /\ failed).

Lemma frame_refl failed name id fs : staging_frame failed name id fs fs.
Proof. split; [done|]. intros p _ -> [? [=]]. Qed.

(** Any content at [name] over a removed or remaining staging file. *)
Lemma frame_unstaged (failed : Prop) name id a x o fs fs' (left_over : Prop) :
  let tmp := local_temp_sibling_with_attempt name id a in
  fs !! tmp = None -> (left_over -> failed) ->
  unstaged tmp left_over (partial_alter (fun _ => o) name (<[tmp := x]> fs)) fs' ->
  staging_frame failed name id fs fs' /\ fs' !! name = o.
Proof.
  intros tmp Ht Hf Hu. pose proof (candidate_ne name id a) as Hne. fold tmp in Hne.
  assert (Hl : forall p, p <> name -> p <> tmp -> fs' !! p = fs !! p).
  { intros p Hp Hpt. destruct Hu as [->|[_ ->]]; rewrite ?lookup_delete_ne, lookup_partial_alter_ne, lookup_insert_ne by done; done. }
  split; [split|].
  - intros p y Hp Hy. rewrite Hl; [done|done|]. intros ->. congruence.
  - intros p Hp Hy Hs. destruct (decide (p = tmp)) as [->|Hpt]; [|rewrite Hl, Hy in Hs by done; by destruct Hs].
    split; [by exists a|]. destruct Hu as [->|[? ->]]; [|by apply Hf]. rewrite lookup_delete_eq in Hs. by destruct Hs.
  - destruct Hu as [->|[_ ->]]; rewrite ?lookup_delete_ne, lookup_partial_alter_eq by done; done.
Qed.

Lemma frame_same (failed : Prop) name id a x fs fs' (left_over : Prop) :
  let tmp := local_temp_sibling_with_attempt name id a in
  fs !! tmp = None -> (left_over -> failed) -> unstaged tmp left_over (<[tmp := x]> fs) fs' ->
  staging_frame failed name id fs fs' /\ fs' !! name = fs !! name.
Proof.
  intros tmp Ht Hf Hu. apply (frame_unstaged failed name id a x (fs !! name) fs fs' left_over Ht Hf). fold tmp.
  assert (E : partial_alter (fun _ => fs !! name) name (<[tmp := x]> fs) = <[tmp := x]> fs); [|by rewrite E].
  rewrite <- (lookup_insert_ne fs tmp name x) by apply candidate_ne. apply partial_alter_self.
Qed.

Definition may_leave (env : get_file_env) : Prop :=
  g_flush env <> None \/ g_remove env <> None \/ f_remove_staging (g_replace env) <> None \/ g_unlink env <> None.
Definition get_file_frame (env : get_file_env) (name id : str) : dir -> dir -> Prop := staging_frame (may_leave env) name id.

(** Putting a staged file [x] in place, with or without overwriting. *)
Lemma install_staged (failed : Prop) env f_link f_unlink overwrite name id a x fs :
  let tmp := local_temp_sibling_with_attempt name id a in
  fs !! tmp = None -> is_dir_node x = false ->
  (f_remove_staging env <> None \/ f_unlink <> None -> failed) ->
  let '(r, fs') := if (overwrite : bool) then atomic_replace_file empty_tree env tmp name (<[tmp := x]> fs)
                   else atomic_install_file_overwrite_false f_link f_unlink tmp name (<[tmp := x]> fs) in
  staging_frame failed name id fs fs' /\
  match r with
  | Ok _ => (overwrite = false -> fs !! name = None) /\ fs' !! name = Some x
  | Err _ => fs' !! name = fs !! name \/ (overwrite = true /\ replace_gap env /\ fs' !! name = None)
  end.
Proof.
  intros tmp Hn Hx Hf. pose proof (candidate_ne name id a) as Hne. fold tmp in Hne.
  set (fs1 := <[tmp := x]> fs). assert (Hs : fs1 !! tmp = Some x) by apply lookup_insert_eq. destruct overwrite.
  - pose proof (atomic_replace_file_spec env tmp name x fs1 Hne Hs Hx) as H.
    destruct (atomic_replace_file _ _ _ _ _) as [[[]|e] fs2].
    2: { destruct H as [H|[Hgap H]].
         - destruct (frame_same failed name id a x fs fs2 (f_remove_staging env <> None) Hn) as [F1 F2]; [tauto|exact H|]. by split; [|left].
         - destruct (frame_unstaged failed name id a x None fs fs2 (f_remove_staging env <> None) Hn) as [F1 F2]; [tauto|exact H|].
           by split; [|right]. }
    rewrite <- delete_insert_ne in H by done.
    destruct (frame_unstaged failed name id a x (Some x) fs fs2 False Hn) as [F1 F2]; [done|by left|done].
  - pose proof (install_file_spec f_link f_unlink tmp name x fs1 Hne Hs Hx) as H.
    destruct (atomic_install_file_overwrite_false _ _ _ _ _) as [[[]|e] fs2];
      [|destruct (frame_same failed name id a x fs fs2 (f_unlink <> None) Hn) as [F1 F2]; [tauto|exact H|by split; [|left]]].
    destruct H as [Hnone Hu]. unfold fs1 in Hnone. rewrite lookup_insert_ne in Hnone by done.
    destruct (frame_unstaged failed name id a x (Some x) fs fs2 (f_unlink <> None) Hn) as [F1 F2]; [tauto|done|done].
Qed.

(** C20. Getting a file: on success the destination is exactly the bytes
    received from a command that succeeded, and with overwrite=false there was
    nothing before; on a failure the destination is what it was, with one
    exception of the code: with overwrite=true, when the first rename reports
    that the destination exists, it is removed before a second rename, and when
    that one fails too the destination is gone ([replace_gap]). No other existing
    entry ever changes, and a staging file is left behind only when flushing or
    removing it fails. *)
Theorem get_file_atomic (env : get_file_env) (remote_src name id : str) (overwrite : bool) (fs : gmap str (node T)) :
  let '(r, fs') := get_file_exec_raw empty_tree env remote_src name id overwrite fs in
  get_file_frame env name id fs fs' /\
  match r with
  | Ok counts => fs' !! name = Some (NFile (g_stream env).1) /\ (overwrite = false -> fs !! name = None) /\
      exists out, (g_stream env).2 = Ok out /\ ensure_remote_success (lit "get_file") out = Ok tt /\
        counts = file_counts (stdout_bytes out)
  | Err _ => fs' !! name = fs !! name \/ (overwrite = true /\ replace_gap (g_replace env) /\ fs' !! name = None)
  end.
Proof.
  unfold get_file_exec_raw. destruct (validate_remote_user_file_path _ _); [|split; [apply frame_refl|by left]].
  unfold create_unique_local_staging_file.
  pose proof (create_unique_spec (local_temp_sibling_with_attempt name id) (g_invalid env) (g_create env) (NFile []) (lit "file") MAX_ATTEMPTS 0 fs) as Hc.
  destruct (create_unique _ _ _ _ _ _ _ _) as [[tmp|e] fs1]; [|subst fs1; split; [apply frame_refl|by left]].
  destruct Hc as (a & -> & Hn & ->). destruct (g_stream env) as [received exec_out].
  rewrite insert_insert_eq.
  set (tmp := local_temp_sibling_with_attempt name id a) in *. set (fs1 := <[tmp := NFile received]> fs).
  assert (Hs : fs1 !! tmp = Some (NFile received)) by apply lookup_insert_eq.
  assert (Hdiscard : unstaged tmp (g_remove env <> None) fs1 (op (g_remove env) (remove_file tmp) fs1).2) by (by apply (remove_file_spec _ _ (NFile received))).
  assert (Hne : tmp <> name) by apply candidate_ne.
  assert (Hsame : forall (left_over : Prop) fs', (left_over -> may_leave env) -> unstaged tmp left_over fs1 fs' ->
            get_file_frame env name id fs fs' /\ (fs' !! name = fs !! name \/ (overwrite = true /\ replace_gap (g_replace env) /\ fs' !! name = None))).
  { intros left_over fs' Hl Hu. destruct (frame_same (may_leave env) name id a (NFile received) fs fs' left_over Hn Hl Hu). by split; [|left]. }
  destruct exec_out as [out|e]; [|apply (Hsame (g_remove env <> None)); [unfold may_leave; tauto|done]].
  destruct (g_flush env) as [e|] eqn:Ef; [apply (Hsame True); [unfold may_leave; rewrite Ef; by left|by right]|].
  destruct (ensure_remote_success _ out) as [[]|e] eqn:Ee; [|apply (Hsame (g_remove env <> None)); [unfold may_leave; tauto|done]].
  pose proof (install_staged (may_leave env) (g_replace env) (g_link env) (g_unlink env) overwrite name id a (NFile received) fs
    Hn eq_refl ltac:(unfold may_leave; tauto)) as H. fold tmp in H. fold fs1 in H.
  destruct (if overwrite then _ else _) as [[[]|e] fs2]; [|exact H]. destruct H as (F & Hnew & Hname).
  split_and!; [done|done|done|eauto].
Qed.

(** ** Directories *)

Lemma remove_dir_all_ne residue p q fs : p <> q -> remove_dir_all residue p fs !! q = fs !! q.
Proof.
  intros H. unfold remove_dir_all. destruct (fs !! p) as [[| |]|]; [done| | |done];
    destruct residue; rewrite ?lookup_insert_ne, ?lookup_delete_ne by done; done.
Qed.

Lemma remove_dir_all_none residue p t fs :
  fs !! p = Some (NDir t) -> residue = None -> remove_dir_all residue p fs !! p = None.
Proof. intros E ->. unfold remove_dir_all. rewrite E. apply lookup_delete_eq. Qed.

(** What a replacement leaves: the staged tree in place; or everything as it
    was; or the old destination under the backup name. *)
Inductive replaced (staging final backup : str) fs : result unit SshMcpError -> dir -> Prop :=
  | replaced_ok fs' : fs' !! final = fs !! staging -> fs' !! staging = None ->
      (forall p, p <> final -> p <> staging -> p <> backup -> fs' !! p = fs !! p) ->
      (is_Some (fs !! backup) -> fs' !! backup = fs !! backup) -> replaced staging final backup fs (Ok tt) fs'
  | replaced_unchanged e fs' : (forall p, fs' !! p = fs !! p) -> replaced staging final backup fs (Err e) fs'
  | replaced_retained m fs' : is_Some (fs !! final) -> fs !! backup = None -> fs' !! final = None -> fs' !! backup = fs !! final ->
      (forall p, p <> final -> p <> backup -> fs' !! p = fs !! p) -> replaced staging final backup fs (Err (Connection m)) fs'.

(** The directory while the old destination is under the backup name. *)
Definition moved_away (final backup : str) (x : node T) fs : dir := <[backup := x]> (delete final fs).

Lemma moved_away_ne final backup x fs p : p <> final -> p <> backup -> moved_away final backup x fs !! p = fs !! p.
Proof. intros P1 P2. unfold moved_away. by rewrite lookup_insert_ne, lookup_delete_ne. Qed.
Lemma moved_away_backup final backup x fs : moved_away final backup x fs !! backup = Some x.
Proof. apply lookup_insert_eq. Qed.
Lemma moved_away_final final backup x fs : backup <> final -> moved_away final backup x fs !! final = None.
Proof. intros N. unfold moved_away. by rewrite lookup_insert_ne, lookup_delete_eq. Qed.

Lemma rollback_spec fault staging final backup x e fs :
  backup <> final -> fs !! final = Some x -> fs !! backup = None ->
  let '(r, fs') := match op fault (rename empty_tree backup final) (moved_away final backup x fs) with
    | (Ok _, fs) => (Err (io_failure e), fs)
    | (Err rollback_error, fs) => (Err (Connection (lit "failed to install staged directory: " ++ e_text e ++
        lit "; rollback failed: " ++ e_text rollback_error ++ lit "; backup retained at " ++ backup)), fs) end in
  replaced staging final backup fs r fs'.
Proof.
  intros N Hf Hb. pose proof (moved_away_backup final backup x fs) as Lb. pose proof (moved_away_final final backup x fs N) as Lf.
  assert (Hret : forall m, replaced staging final backup fs (Err (Connection m)) (moved_away final backup x fs)).
  { intros m. apply replaced_retained; [by eexists|done|done|congruence|apply moved_away_ne]. }
  destruct (op_spec fault (rename empty_tree backup final) (moved_away final backup x fs)) as [(e' & _ & ->)|[_ ->]]; [apply Hret|].
  pose proof (rename_spec backup final (moved_away final backup x fs)) as H.
  destruct (rename _ _ _ _) as [[[]|e'] fs2]; [|destruct H as [-> _]; apply Hret].
  destruct H as (y & Hy & ->). apply replaced_unchanged. intros p.
  destruct (decide (p = final)) as [->|P1]; [rewrite lookup_insert_eq; congruence|]. rewrite lookup_insert_ne by done.
  destruct (decide (p = backup)) as [->|P2]; [by rewrite lookup_delete_eq|]. rewrite lookup_delete_ne by done. by apply moved_away_ne.
Qed.

(** With nothing at the destination. *)
Lemma install_fresh_spec fault staging final backup fs :
  staging <> final -> backup <> final -> staging <> backup ->
  let '(r, fs') := match op fault (rename empty_tree staging final) fs with
    | (Ok _, fs) => (Ok tt, fs)
    | (Err e, fs) => (Err (io_failure e), fs) end in
  replaced staging final backup fs r fs'.
Proof.
  intros N1 N2 N3.
  destruct (op_spec fault (rename empty_tree staging final) fs) as [(e & _ & ->)|[_ ->]]; [by apply replaced_unchanged|].
  pose proof (rename_spec staging final fs) as H. destruct (rename _ _ _ _) as [[[]|e] fs1]; [|destruct H as [-> _]; by apply replaced_unchanged].
  destruct H as (x & Hx & ->). apply replaced_ok.
  - by rewrite lookup_insert_eq.
  - by rewrite lookup_insert_ne, lookup_delete_eq.
  - intros p P1 P2 _. by rewrite lookup_insert_ne, lookup_delete_ne.
  - intros _. by rewrite lookup_insert_ne, lookup_delete_ne.
Qed.

Lemma atomic_replace_dir_spec env staging final backup fs :
  staging <> final -> backup <> final -> staging <> backup -> fs !! backup <> Some (NSymlink true) ->
  let '(r, fs') := atomic_replace_dir empty_tree env staging final backup fs in replaced staging final backup fs r fs'.
Proof.
  intros N1 N2 N3 Hb. unfold atomic_replace_dir. destruct (d_parent env); [by apply replaced_unchanged|].
  destruct (op_spec (d_exists env) (try_exists final) fs) as [(e & _ & ->)|[_ ->]]; [by apply replaced_unchanged|].
  unfold try_exists at 1. set (had := match fs !! final with None => false | _ => _ end).
  destruct had eqn:Eh; [|pose proof (install_fresh_spec (d_install env) staging final backup fs N1 N2 N3) as H; by destruct (op _ _ _) as [[]]].
  assert (exists x, fs !! final = Some x) as [x Hx] by (subst had; destruct (fs !! final); [by eexists|done]). clear had Eh.
  destruct (op_spec (d_backup_exists env) (try_exists backup) fs) as [(e & _ & ->)|[_ ->]]; [by apply replaced_unchanged|].
  unfold try_exists. destruct (fs !! backup) as [[c|t'|[]]|] eqn:Eb; try (by apply replaced_unchanged); [done|].
  destruct (op_spec (d_to_backup env) (rename empty_tree final backup) fs) as [(e & _ & ->)|[_ ->]]; [by apply replaced_unchanged|].
  pose proof (rename_spec final backup fs) as H. destruct (rename _ final _ _) as [[[]|e] fs1]; [|destruct H as [-> _]; by apply replaced_unchanged].
  destruct H as (x' & Hx' & ->). assert (x' = x) as -> by congruence. fold (moved_away final backup x fs).
  pose proof (fun e => rollback_spec (d_rollback env) staging final backup x e fs N2 Hx Eb) as Hfail.
  destruct (op_spec (d_install env) (rename empty_tree staging final) (moved_away final backup x fs)) as [(e & _ & ->)|[_ ->]]; [apply Hfail|].
  pose proof (rename_spec staging final (moved_away final backup x fs)) as H.
  destruct (rename _ staging _ _) as [[[]|e] fs2]; [|destruct H as [-> _]; apply Hfail].
  destruct H as (y & Hy & ->). rewrite moved_away_ne in Hy by done. apply replaced_ok.
  - rewrite remove_dir_all_ne by done. by rewrite lookup_insert_eq.
  - rewrite remove_dir_all_ne by done. by rewrite lookup_insert_ne, lookup_delete_eq.
  - intros p P1 P2 P3. rewrite remove_dir_all_ne, lookup_insert_ne, lookup_delete_ne by done. by apply moved_away_ne.
  - intros [? ?]. congruence.
Qed.

(** What may become of the destination: the received tree, its old content in
    place or under the backup name, or a residue of what this transfer made. *)
Definition dir_outcome (env : get_dir_env) (name id : str) (overwrite : bool) fs (r : result TransferCounts SshMcpError) fs' : Prop :=
  match r with
  | Ok counts => fs' !! name = Some (NDir (h_extracted env).1) /\ (overwrite = false -> fs !! name = None) /\
      receive_failure (h_stream env) (h_extracted env).2 = Ok counts
  | Err _ => fs' !! name = fs !! name \/
      (overwrite = true /\ is_Some (fs !! name) /\ fs' !! name = None /\ fs' !! local_backup_dir_sibling name id = fs !! name) \/
      (overwrite = false /\ fs !! name = None /\ h_residue env <> None)
  end.

Definition others_kept (name : str) fs fs' : Prop := forall p x, p <> name -> fs !! p = Some x -> fs' !! p = Some x.

Lemma get_dir_fresh env name id counts fs :
  fs !! name = None ->
  let fs1 := <[name := NDir (h_extracted env).1]> fs in
  let '(r, fs') := match receive_failure (h_stream env) (h_extracted env).2 with
    | Err e => (Err e, remove_dir_all (h_residue env) name fs1)
    | Ok c => (Ok c, fs1) end in
  counts = r -> others_kept name fs fs' /\ dir_outcome env name id false fs r fs'.
Proof.
  intros Hn. cbn zeta. assert (Hk : others_kept name fs (<[name := NDir (h_extracted env).1]> fs)) by (intros p x Hp Hx; by rewrite lookup_insert_ne).
  destruct (receive_failure _ _) as [c|e] eqn:E; intros _.
  - split; [done|]. split_and!; [by rewrite lookup_insert_eq|done|done].
  - split; [intros p x Hp Hx; rewrite remove_dir_all_ne by done; by apply Hk|].
    destruct (h_residue env) as [t|] eqn:Er; [right; right; by rewrite Er|left].
    rewrite Hn. by eapply remove_dir_all_none; [apply lookup_insert_eq|].
Qed.

(** A staged tree [x] that was put in place, or not. *)
Lemma staged_outcome residue name id a x fs r fs2 :
  let tmp := local_temp_dir_sibling_with_attempt name id a in
  let backup := local_backup_dir_sibling name id in
  let fs' := remove_dir_all residue tmp fs2 in
  fs !! tmp = None -> replaced tmp name backup (<[tmp := x]> fs) r fs2 ->
  match r with
  | Ok _ => others_kept name fs fs2 /\ fs2 !! name = Some x
  | Err _ => others_kept name fs fs' /\
      (fs' !! name = fs !! name \/ (is_Some (fs !! name) /\ fs' !! name = None /\ fs' !! backup = fs !! name))
  end.
Proof.
  intros tmp backup fs' Ht H. pose proof (dir_candidate_ne name id a) as N1. pose proof (backup_ne name id) as N2.
  pose proof (dir_candidate_backup name id a) as N3. fold tmp in N1, N3. fold backup in N2, N3.
  assert (L1 : forall p, p <> tmp -> <[tmp := x]> fs !! p = fs !! p) by (intros p Hp; by rewrite lookup_insert_ne).
  assert (Lx : forall p y, fs !! p = Some y -> p <> tmp) by (intros p y Hy ->; congruence).
  destruct H as [fs2 H1 _ H3 H4|e fs2 H1|m fs2 H0 H1 H2 H3 H4].
  - split; [|rewrite H1; apply lookup_insert_eq]. intros p y Hp Hy. pose proof (Lx p y Hy) as Hpt.
    destruct (decide (p = backup)) as [->|Hpb].
    + rewrite H4; rewrite L1 by done; [done|by eexists].
    + rewrite H3 by done. by rewrite L1.
  - unfold fs'. split; [|left; rewrite remove_dir_all_ne, H1 by done; by apply L1].
    intros p y Hp Hy. pose proof (Lx p y Hy) as Hpt. rewrite remove_dir_all_ne, H1, L1 by done. done.
  - rewrite L1 in H0, H1, H3 by done. unfold fs'. split.
    + intros p y Hp Hy. pose proof (Lx p y Hy) as Hpt. assert (p <> backup) by (intros ->; congruence).
      rewrite remove_dir_all_ne, H4, L1 by done. done.
    + right. rewrite !remove_dir_all_ne by done. done.
Qed.

Lemma get_dir_staged env name id a counts fs :
  let tmp := local_temp_dir_sibling_with_attempt name id a in
  let backup := local_backup_dir_sibling name id in
  fs !! tmp = None -> fs !! backup <> Some (NSymlink true) ->
  let '(r, fs') := match atomic_replace_dir empty_tree (h_replace env) tmp name backup (<[tmp := NDir (h_extracted env).1]> fs) with
    | (Ok _, fs) => (Ok counts, fs)
    | (Err e, fs) => (Err e, remove_dir_all (h_residue env) tmp fs) end in
  receive_failure (h_stream env) (h_extracted env).2 = Ok counts ->
  others_kept name fs fs' /\ dir_outcome env name id true fs r fs'.
Proof.
  intros tmp backup Ht Hb.
  assert (Hb' : <[tmp := NDir (h_extracted env).1]> fs !! backup <> Some (NSymlink true))
    by (rewrite lookup_insert_ne; [done|apply dir_candidate_backup]).
  pose proof (atomic_replace_dir_spec (h_replace env) tmp name backup _ (dir_candidate_ne name id a) (backup_ne name id)
    (dir_candidate_backup name id a) Hb') as H.
  destruct (atomic_replace_dir _ _ _ _ _ _) as [r fs2]. apply (staged_outcome (h_residue env) _ _ _ _ _ _ _ Ht) in H.
  destruct r as [u|e]; intros Hok; [split; [apply H|by split_and!; [apply H|..]]|].
  split; [apply H|]. destruct H as [_ [H|H]]; [by left|right; left; split_and!; [done|apply H..]].
Qed.

Lemma others_refl name fs : others_kept name fs fs.
Proof. by intros p x _ Hx. Qed.

Context (no_entries : T).

(** C21. Getting a directory never loses the destination: on success it is
    exactly the extracted tree of a transfer that succeeded on both sides (and
    with overwrite=false there was nothing before); on failure it is what it
    was, or, when the rollback itself fails, whole under the backup name; with
    overwrite=false a failed removal may leave a residue where there was
    nothing. No other existing entry changes. *)
Theorem get_dir_keeps_destination (env : get_dir_env) (remote_src_dir name id : str) (overwrite : bool)
    (fs : gmap str (node T)) (Hb : fs !! local_backup_dir_sibling name id <> Some (NSymlink true)) :
  let '(r, fs') := get_dir_exec_raw empty_tree no_entries env remote_src_dir name id overwrite fs in
  others_kept name fs fs' /\ dir_outcome env name id overwrite fs r fs'.
Proof.
  unfold get_dir_exec_raw. destruct (validate_remote_user_path _ _); [|split; [apply others_refl|by left]].
  destruct overwrite.
  - unfold create_unique_local_staging_dir.
    pose proof (create_unique_spec (local_temp_dir_sibling_with_attempt name id) (h_invalid env) (h_create env) (NDir no_entries) (lit "directory") MAX_ATTEMPTS 0 fs) as Hc.
    destruct (create_unique _ _ _ _ _ _ _ _) as [[tmp|e] fs1]; [|subst fs1; split; [apply others_refl|by left]].
    destruct Hc as (a & -> & Hn & ->). pose proof (get_dir_staged env name id a) as Hs.
    destruct (h_extracted env) as [tree extracted] eqn:Ee. cbn [fst snd] in Hs. rewrite insert_insert_eq.
    destruct (receive_failure (h_stream env) extracted) as [counts|e] eqn:Er.
    + specialize (Hs counts fs Hn Hb). destruct (atomic_replace_dir _ _ _ _ _ _) as [[[]|e] fs2]; by apply Hs.
    + split; [|left; rewrite remove_dir_all_ne, lookup_insert_ne by apply dir_candidate_ne; done].
      intros p x Hp Hx. assert (p <> local_temp_dir_sibling_with_attempt name id a) by (intros ->; congruence).
      by rewrite remove_dir_all_ne, lookup_insert_ne.
  - destruct (op_spec (h_create env 0%nat) (create_new (NDir no_entries) name) fs) as [(e & _ & ->)|[_ ->]]; [split; [apply others_refl|by left]|].
    unfold create_new. destruct (fs !! name) as [x|] eqn:En; [split; [apply others_refl|by left]|].
    pose proof (get_dir_fresh env name id) as Hf.
    destruct (h_extracted env) as [tree extracted] eqn:Ee. cbn [fst snd] in Hf. rewrite insert_insert_eq.
    destruct (receive_failure (h_stream env) extracted) as [counts|e] eqn:Er; by eapply Hf.
Qed.
End correct.

Definition no_fault : replace_env := {| f_rename := None; f_remove_final := None; f_rename_again := None; f_remove_staging := None |}.
Definition clean_exit : TransferRawOutput := {| stdout_bytes := 3; stdin_bytes := 0; r_stderr := []; r_exit_code := Some 0 |}.
Definition sample_file_env (out : result TransferRawOutput SshMcpError) : get_file_env := {|
  g_invalid := fun _ => None; g_create := fun _ => None; g_stream := (lit "new", out); g_remove := None; g_flush := None;
  g_replace := no_fault; g_link := None; g_unlink := None |}.
Definition sample_dir : gmap str (node nat) := {[ lit "f" := NFile (lit "old") ]}.

(** A file is replaced; with overwrite=false it is kept. *)
Lemma get_file_atomic_witness :
  (let '(r, fs') := get_file_exec_raw (Nat.eqb 0) (sample_file_env (Ok clean_exit)) (lit "/r") (lit "f") (lit "id") true sample_dir in
   r = Ok (file_counts 3) /\ fs' !! lit "f" = Some (NFile (lit "new"))) /\
  (let '(r, fs') := get_file_exec_raw (Nat.eqb 0) (sample_file_env (Ok clean_exit)) (lit "/r") (lit "f") (lit "id") false sample_dir in
   r = Err exists_error /\ fs' !! lit "f" = Some (NFile (lit "old"))).
Proof.
  split.
  - pose proof (get_file_atomic (Nat.eqb 0) (sample_file_env (Ok clean_exit)) (lit "/r") (lit "f") (lit "id") true sample_dir) as H.
    destruct (get_file_exec_raw _ _ _ _ _ _ _) as [r fs'] eqn:E. apply (f_equal fst) in E as E1. vm_compute in E1.
    subst r. split; [reflexivity|]. apply H.
  - pose proof (get_file_atomic (Nat.eqb 0) (sample_file_env (Ok clean_exit)) (lit "/r") (lit "f") (lit "id") false sample_dir) as H.
    destruct (get_file_exec_raw _ _ _ _ _ _ _) as [r fs'] eqn:E. apply (f_equal fst) in E as E1. vm_compute in E1.
    subst r. split; [reflexivity|]. destruct H as [_ [H|[[=] _]]]. cbn in H. rewrite H. vm_compute. reflexivity.
Defined.

(** The gap of the replacement is reachable: the old file is gone, and so is the
    received one. *)
Lemma failed_replacement_loses_destination :
  let env := {| f_rename := Some (io AlreadyExists (lit "exists")); f_remove_final := None;
                f_rename_again := Some (io Other (lit "denied")); f_remove_staging := None |} in
  atomic_replace_file (Nat.eqb 0) env (lit "s") (lit "f") {[ lit "s" := NFile (lit "new"); lit "f" := NFile (lit "old") ]} =
    (Err (Io (lit "denied")), ∅).
Proof. vm_compute. reflexivity. Qed.

Definition sample_dir_env : get_dir_env := {|
  h_invalid := fun _ => None; h_create := fun _ => None; h_stream := Ok clean_exit;
  h_extracted := (7%nat, Ok {| c_bytes := 3; c_files := 1; c_directories := 0 |}); h_residue := None;
  h_replace := {| d_parent := None; d_exists := None; d_backup_exists := None; d_to_backup := None;
    d_install := Some (io Other (lit "busy")); d_rollback := None; d_residue := None |} |}.
Definition sample_dirs : gmap str (node nat) := {[ lit "d" := NDir 5%nat ]}.

(** The install fails and the old directory is rolled back. *)
Lemma get_dir_keeps_destination_witness :
  let '(r, fs') := get_dir_exec_raw (Nat.eqb 0) 0%nat sample_dir_env (lit "/r") (lit "d") (lit "id") true sample_dirs in
  r = Err (Io (lit "busy")) /\ fs' !! lit "d" = Some (NDir 5%nat).
Proof.
  pose proof (get_dir_keeps_destination (Nat.eqb 0) 0%nat sample_dir_env (lit "/r") (lit "d") (lit "id") true sample_dirs
    ltac:(vm_compute; discriminate)) as H.
  assert (E1 : (get_dir_exec_raw (Nat.eqb 0) 0%nat sample_dir_env (lit "/r") (lit "d") (lit "id") true sample_dirs).1 =
    Err (Io (lit "busy"))) by (vm_compute; reflexivity).
  assert (E2 : (get_dir_exec_raw (Nat.eqb 0) 0%nat sample_dir_env (lit "/r") (lit "d") (lit "id") true sample_dirs).2 !! lit "d" =
    Some (NDir 5%nat)) by (vm_compute; reflexivity).
  destruct (get_dir_exec_raw _ _ _ _ _ _ _ _) as [r fs']. cbn in E1, E2.
  subst r. split; [reflexivity|]. destruct H as [_ [H|[(_ & _ & H & _)|(H & _)]]].
  - cbn in H. rewrite H. vm_compute. reflexivity.
  - cbn in H. exfalso. rewrite H in E2. discriminate E2.
  - discriminate H.
Defined.
