(* ===== verification/RemoteScript.v ===== *)
(** * Remote scripts

    The commands that the upload scripts of src/transfer use, on the remote
    file system, as POSIX describes them. A script runs command by command;
    between two commands other processes may change the file system, any
    command may fail, and the script may be killed before any command. What
    the script itself changed is recorded. *)
From Stdlib Require Import ZArith String.
From stdpp Require Import base list gmap.
From S2P Require Import Prelude.

Inductive link_target : Type := ToNothing | ToFile | ToDir.

(** A directory entry; the tree below a directory is opaque. *)
Inductive entry (T : Type) : Type :=
  | RegularFile (content : bytes)
  | DirectoryOf (tree : T)
  | Symlink (target : link_target)
  | SpecialFile.
Arguments RegularFile {T} content.
Arguments DirectoryOf {T} tree.
Arguments Symlink {T} target.
Arguments SpecialFile {T}.

Definition is_file_entry {T} (x : entry T) : bool := match x with RegularFile _ => true | _ => false end.

(** The host around a script: what others do before its n-th command, which
    commands fail, before which one it is killed, what a failing command says,
    what a directory looks like after something was put into it ([put_in],
    [None] when that fails) and after a removal that failed half-way, and what
    the evaluation of a trap text with shell characters in it does. *)
Record host (T : Type) : Type := {
  others : nat -> gmap str (entry T) -> gmap str (entry T);
  fault : nat -> bool;
  killed : nat -> bool;
  complaint : nat -> str;
  put_in : str -> entry T -> T -> option T;
  residue : T -> T;
  stray : gmap str (entry T) -> gmap str (entry T)
}.
Arguments others {T} h n fs.
Arguments fault {T} h n.
Arguments killed {T} h n.
Arguments complaint {T} h n.
Arguments put_in {T} h name x t.
Arguments residue {T} h t.
Arguments stray {T} h fs.

Inductive ending (A : Type) : Type :=
  | Done (a : A)
  | Exit (code : Z)
  | Killed.
Arguments Done {A} a.
Arguments Exit {A} code.
Arguments Killed {A}.

(** [own]: the file system before and after each command of the script. *)
Record shell_state (T : Type) : Type := {
  clock : nat;
  files : gmap str (entry T);
  own : list (gmap str (entry T) * gmap str (entry T));
  said : str
}.
Arguments clock {T} s.
Arguments files {T} s.
Arguments own {T} s.
Arguments said {T} s.

Section script.
Context {T : Type} (h : host T).
Notation nodes := (gmap str (entry T)).
Notation state := (shell_state T).

Definition script (A : Type) : Type := state -> ending A * state.

Definition pure {A} (a : A) : script A := fun s => (Done a, s).
Definition bind {A B} (m : script A) (k : A -> script B) : script B := fun s =>
  match m s with
  | (Done a, s) => k a s
  | (Exit c, s) => (Exit c, s)
  | (Killed, s) => (Killed, s)
  end.
Definition exit {A} (code : Z) : script A := fun s => (Exit code, s).
Definition say (line : str) : script unit := fun s =>
  (Done tt, {| clock := clock s; files := files s; own := own s; said := said s ++ line ++ [NL] |}).

(** One command; [failing]: what it does when it fails for a reason of its own. *)
Definition command {A} (run failing : nodes -> A * nodes) : script A := fun s =>
  let before := others h (clock s) (files s) in
  if killed h (clock s) then (Killed, {| clock := clock s; files := before; own := own s; said := said s |})
  else
    let '(a, after) := if fault h (clock s) then failing before else run before in
    (Done a, {| clock := S (clock s); files := after; own := own s ++ [(before, after)]; said := said s |}).

(** A command that reports success or failure. *)
Definition attempt (run : nodes -> option nodes) : script bool :=
  command (fun fs => match run fs with Some fs => (true, fs) | None => (false, fs) end) (fun fs => (false, fs)).

(** A command whose own message is not redirected. *)
Definition complaining (m : script bool) : script bool := fun s =>
  match m s with
  | (Done false, s') => (Done false, {| clock := clock s'; files := files s'; own := own s'; said := said s' ++ complaint h (clock s) |})
  | r => r
  end.

(** [set -e]. *)
Definition must (m : script bool) : script unit := bind m (fun ok => if ok then pure tt else exit 1).

(** [trap cleanup EXIT], removed by [trap - EXIT] when the body ends. *)
Definition with_trap {A} (cleanup : script unit) (body : script A) : script A := fun s =>
  match body s with
  | (Exit c, s) => match cleanup s with (Killed, s) => (Killed, s) | (_, s) => (Exit c, s) end
  | r => r
  end.

(** ** Commands *)

(** The tests are built into the shell and follow links; the paths lie in a
    directory that the script can search. *)
Definition look {A} (f : nodes -> A) : script A := command (fun fs => (f fs, fs)) (fun fs => (f fs, fs)).

Definition exists_entry (x : option (entry T)) : bool := match x with None | Some (Symlink ToNothing) => false | _ => true end.
Definition test_e (p : str) : script bool := look (fun fs => exists_entry (fs !! p)).

Definition is_dir_entry (x : option (entry T)) : bool :=
  match x with Some (DirectoryOf _ | Symlink ToDir) => true | _ => false end.

Definition test_d (p : str) : script bool := look (fun fs => is_dir_entry (fs !! p)).

(** [mkdir -p] of the parent, outside the directory that is modelled. *)
Definition mkdir_parent : script bool := attempt Some.

Definition mkdir (no_entries : T) (p : str) : script bool :=
  attempt (fun fs => match fs !! p with None => Some (<[p := DirectoryOf no_entries]> fs) | Some _ => None end).

(** [(set -C; : > p)]: an existing regular file is not opened. *)
Definition create_noclobber (p : str) : script bool :=
  attempt (fun fs => match fs !! p with
                     | None => Some (<[p := RegularFile []]> fs)
                     | Some SpecialFile => Some fs
                     | Some _ => None
                     end).

(** One chunk of what [cat > p] writes. *)
Definition append_chunk (p : str) (chunk : bytes) : script bool :=
  attempt (fun fs => match fs !! p with
                     | Some (RegularFile c) => Some (<[p := RegularFile (c ++ chunk)]> fs)
                     | None => Some (<[p := RegularFile chunk]> fs)
                     | Some SpecialFile => Some fs
                     | Some _ => None
                     end).

Fixpoint cat_into (p : str) (chunks : list bytes) : script bool :=
  match chunks with
  | [] => pure true
  | chunk :: chunks => bind (append_chunk p chunk) (fun ok => if ok then cat_into p chunks else pure false)
  end.

(** [wc -c < p]. *)
Definition wc (p : str) : script (option Z) :=
  command (fun fs => (match fs !! p with Some (RegularFile c) => Some (Z.of_nat (length c)) | Some SpecialFile => Some 0 | _ => None end, fs))
          (fun fs => (None, fs)).

Definition last_component (p : str) : str := default [] (last (split_char SLASH p)).

(** What [x], named [name], becomes when it is moved or linked to [p]: into a
    directory, or in place of another entry ([over]). *)
Definition place (over : bool) (name : str) (x : entry T) (p : str) (fs : nodes) : option nodes :=
  match fs !! p, x with
  | Some (DirectoryOf t), _ => t ← put_in h name x t; Some (<[p := DirectoryOf t]> fs)
  | Some (Symlink ToDir), _ => Some fs
  | None, _ => Some (<[p := x]> fs)
  | Some _, DirectoryOf _ => None
  | Some _, _ => if over then Some (<[p := x]> fs) else None
  end.

Definition mv (from to : str) : script bool :=
  attempt (fun fs => x ← fs !! from; place true (last_component from) x to (delete from fs)).

Definition ln (from to : str) : script bool :=
  attempt (fun fs => match fs !! from with
                     | None | Some (DirectoryOf _) => None
                     | Some x => place false (last_component from) x to fs
                     end).

Definition rm_f (p : str) : script unit :=
  command (fun fs => (tt, match fs !! p with Some (DirectoryOf _) => fs | _ => delete p fs end)) (fun fs => (tt, fs)).

Definition rm_rf (p : str) : script unit :=
  command (fun fs => (tt, delete p fs))
          (fun fs => (tt, match fs !! p with Some (DirectoryOf t) => <[p := DirectoryOf (residue h t)]> fs | _ => fs end)).

(** The text of a trap is evaluated again: a path is itself there only
    without the characters that are special between double quotes. *)
Definition plain_in_quotes (p : str) : bool :=
  forallb (fun c => negb (existsb (Z.eqb c) [DQ; 36; 96; BSL])) p.

Definition trap_rm (rm : str -> script unit) (p : str) : script unit :=
  if plain_in_quotes p then rm p else command (fun fs => (tt, stray h fs)) (fun fs => (tt, fs)).

(** What [sh -c] reports: its standard error and its exit code, if it ends. *)
Definition report {A} (r : ending A * state) : option Z :=
  match r.1 with Done _ => Some 0 | Exit c => Some c | Killed => None end.

Definition start (fs : nodes) : state := {| clock := 0; files := fs; own := []; said := [] |}.
End script.

Notation "'run!' x := m 'in' k" := (bind m (fun x => k)) (at level 200, x binder, m at level 100, k at level 200, only parsing).

(** ** A logic for scripts

    Assertions speak of the file system and of what the script did so far. A
    triple says what holds when the script is done, when it exits with an
    error and when it was killed; what is asserted before a command must
    survive what others do. *)

Section logic.
Context {T : Type} (h : host T).
Notation nodes := (gmap str (entry T)).
Notation history := (list (nodes * nodes)).
Notation assertion := (nodes -> history -> Prop).

Definition faulty : Prop := exists n, fault h n = true.
Definition mortal : Prop := exists n, killed h n = true.
Definition stable (P : assertion) : Prop := forall n fs own, P fs own -> P (others h n fs) own.

Definition triple {A} (P : assertion) (m : script (T := T) A) (Q : A -> assertion) (X K : assertion) : Prop :=
  forall s, P (files s) (own s) ->
    match m s with
    | (Done a, s') => Q a (files s') (own s')
    | (Exit c, s') => c <> 0 /\ X (files s') (own s')
    | (Killed, s') => mortal /\ K (files s') (own s')
    end.

Lemma triple_weaken {A} (P P' : assertion) (m : script A) (Q Q' : A -> assertion) (X X' K K' : assertion) :
  triple P' m Q' X' K' -> (forall fs own, P fs own -> P' fs own) -> (forall a fs own, Q' a fs own -> Q a fs own) ->
  (forall fs own, X' fs own -> X fs own) -> (forall fs own, K' fs own -> K fs own) -> triple P m Q X K.
Proof.
  intros H HP HQ HX HK s Hs. specialize (H s (HP _ _ Hs)). destruct (m s) as [[a|c|] s']; [by apply HQ|..]; destruct H; split; auto.
Qed.

Lemma triple_pre {A} (P P' : assertion) (m : script A) (Q : A -> assertion) (X K : assertion) :
  (forall fs own, P fs own -> P' fs own) -> triple P' m Q X K -> triple P m Q X K.
Proof. intros HP H s Hs. by apply H, HP. Qed.

Lemma triple_fact {A} (phi : Prop) (P : assertion) (m : script A) (Q : A -> assertion) (X K : assertion) :
  (phi -> triple P m Q X K) -> triple (fun fs own => phi /\ P fs own) m Q X K.
Proof. intros H s [Hphi Hs]. by apply H. Qed.

Lemma triple_pure {A} (a : A) (P : assertion) (Q : A -> assertion) (X K : assertion) :
  (forall fs own, P fs own -> Q a fs own) -> triple P (pure a) Q X K.
Proof. intros H s Hs. by apply H. Qed.

Lemma triple_exit {A} c (P : assertion) (Q : A -> assertion) (X K : assertion) :
  c <> 0 -> (forall fs own, P fs own -> X fs own) -> triple P (exit c) Q X K.
Proof. intros Hc H s Hs. split; [done|by apply H]. Qed.

Lemma triple_say line (P : assertion) (Q : unit -> assertion) (X K : assertion) :
  (forall fs own, P fs own -> Q tt fs own) -> triple P (say line) Q X K.
Proof. intros H s Hs. by apply H. Qed.

Lemma triple_bind {A B} (P : assertion) (m : script A) (R : A -> assertion) (k : A -> script B) (Q : B -> assertion) (X K : assertion) :
  triple P m R X K -> (forall a, triple (R a) (k a) Q X K) -> triple P (bind m k) Q X K.
Proof.
  intros Hm Hk s Hs. specialize (Hm s Hs). unfold bind. destruct (m s) as [[a|c|] s']; [by apply Hk|done|done].
Qed.

Lemma triple_seq {A B} (P : assertion) (m : script A) (R : assertion) (k : script B) (Q : B -> assertion) (X K : assertion) :
  triple P m (fun _ => R) X K -> triple R k Q X K -> triple P (bind m (fun _ => k)) Q X K.
Proof. intros Hm Hk. eapply triple_bind; [exact Hm|]. intros a. exact Hk. Qed.

Lemma triple_command {A} (P : assertion) (run failing : nodes -> A * nodes) (Q : A -> assertion) (X K : assertion) :
  stable P -> (forall fs own, P fs own -> K fs own) ->
  (forall fs own, P fs own -> Q (run fs).1 (run fs).2 (own ++ [(fs, (run fs).2)])) ->
  (forall fs own, faulty -> P fs own -> Q (failing fs).1 (failing fs).2 (own ++ [(fs, (failing fs).2)])) ->
  triple P (command h run failing) Q X K.
Proof.
  intros Hst HK Hr Hf s Hs. unfold command. apply (Hst (clock s)) in Hs. set (before := others _ _ _) in *.
  destruct (killed h (clock s)) eqn:Ek; [split; [by exists (clock s)|by apply HK]|].
  destruct (fault h (clock s)) eqn:E; [specialize (Hf _ _ (ex_intro _ _ E) Hs)|specialize (Hr _ _ Hs)].
  - by destruct (failing before).
  - by destruct (run before).
Qed.

Lemma triple_attempt (P : assertion) (run : nodes -> option nodes) (Q : bool -> assertion) (X K : assertion) :
  stable P -> (forall fs own, P fs own -> K fs own) ->
  (forall fs own, P fs own -> match run fs with Some fs' => Q true fs' (own ++ [(fs, fs')]) | None => Q false fs (own ++ [(fs, fs)]) end) ->
  (forall fs own, faulty -> P fs own -> Q false fs (own ++ [(fs, fs)])) ->
  triple P (attempt h run) Q X K.
Proof. intros Hst HK Hr Hf. apply triple_command; try done. intros fs own HP. specialize (Hr _ _ HP). by destruct (run fs). Qed.

Lemma triple_complaining (P : assertion) (m : script bool) (Q : bool -> assertion) (X K : assertion) :
  triple P m Q X K -> triple P (complaining h m) Q X K.
Proof. intros H s Hs. specialize (H s Hs). unfold complaining. by destruct (m s) as [[[]|c|] s']. Qed.

Lemma triple_must (P : assertion) (m : script bool) (Q : unit -> assertion) (X K : assertion) :
  triple P m (fun ok => if ok then Q tt else X) X K -> triple P (must m) Q X K.
Proof. intros H. eapply triple_bind; [exact H|]. intros []; [by apply triple_pure|by apply triple_exit]. Qed.

(** The cleanup runs after an error only. *)
Lemma triple_trap {A} (P : assertion) (cleanup : script unit) (body : script A) (Q : A -> assertion) (Y X K : assertion) :
  triple P body Q Y K -> triple Y cleanup (fun _ => X) X K -> triple P (with_trap cleanup body) Q X K.
Proof.
  intros Hb Hc s Hs. specialize (Hb s Hs). unfold with_trap. destruct (body s) as [[a|c|] s']; [done| |done].
  destruct Hb as [Hn HY]. specialize (Hc s' HY). destruct (cleanup s') as [[[]|c'|] s'']; [done|by destruct Hc|done].
Qed.

Lemma stable_and (P Q : assertion) : stable P -> stable Q -> stable (fun fs own => P fs own /\ Q fs own).
Proof. intros HP HQ n fs own [H1 H2]. split; [by apply HP|by apply HQ]. Qed.
End logic.
