(* ===== verification/PutRemote.v ===== *)
(** * Uploads (src/transfer/exec_raw.rs, src/transfer/staging.rs, src/transfer/skeleton.rs)

    The remote scripts of the two uploads over exec-raw, the scripts that
    prepare and finalise an upload by an external client, and the functions
    around them. A script acts on the directory that holds the destination,
    its staging sibling and its backup, by path; the three are taken to be
    different entries of it (see the finding on trailing slashes). *)
From Stdlib Require Import ZArith String.
From stdpp Require Import base list gmap.
From S2P Require Import Prelude Errors Validate Output TransferTypes Destination Staging RemoteScript.

(** A run of a script as its caller hears of it: whether it ran at all, what of
    its standard error arrives, whether the server reports an exit status, that
    of a killed script, and an error that replaces the answer. *)
Record transport : Type := {
  not_run : option SshMcpError;
  heard : str -> str;
  status_sent : bool;
  killed_status : option positive;
  lost : option SshMcpError
}.

Section put.
Context {T : Type} (h : host T) (no_entries : T).
Notation nodes := (gmap str (entry T)).
Notation state := (shell_state T).
Notation script := (@script T).

(** The caller's view of a run from [fs], and the state it leaves. *)
Definition exit_status (tr : transport) (e : ending unit) : option Z :=
  if status_sent tr then match e with Done _ => Some 0 | Exit c => Some c | Killed => Zpos <$> killed_status tr end else None.

Definition run_script (tr : transport) (m : script unit) (fs : nodes) : result (str * option Z) SshMcpError * state :=
  match not_run tr with
  | Some e => (Err e, start fs)
  | None =>
      let '(e, s) := m (start fs) in
      (match lost tr with Some err => Err err | None => Ok (heard tr (said s), exit_status tr e) end, s)
  end.

(** ** Files *)

(** [if ! (mkdir -p parent && (set -C; : > sib)); then ...; exit 1; fi] *)
Definition claim_stage_file (sib : str) : script unit :=
  run! made := mkdir_parent h in
  run! created := (if made then create_noclobber h sib else pure false) in
  if created then pure tt
  else
    run! there := test_e h sib in
    run! _ := say (ERR_MARKER ++ (if there then lit "staging_collision" else lit "staging_unwritable")) in
    exit 1.

Definition announce_stage (stage base : str) : script unit :=
  run! _ := say (STAGE_MARKER ++ stage) in
  say (STAGE_BASE_MARKER ++ base).

Definition refuse {A} (name : str) : script A :=
  run! _ := say (ERR_MARKER ++ name) in
  exit 1.

(** [cat > stage], and its size against the expected one. *)
Definition receive_file (stage : str) (expected : Z) (chunks : list bytes) : script unit :=
  run! _ := must (complaining h (cat_into h stage chunks)) in
  run! size := wc h stage in
  match size with
  | None => exit 1
  | Some actual =>
      if negb (actual =? expected) then refuse (lit "size_mismatch:" ++ show_uint actual ++ lit ":" ++ show_uint expected)
      else pure tt
  end.

Definition refuse_directory (dst : str) : script unit :=
  run! directory := test_d h dst in
  if directory then refuse (lit "destination_is_directory") else pure tt.

(** [mv stage dst], or [ln stage dst] when the destination may not exist. *)
Definition install_file (overwrite : bool) (stage dst : str) : script unit :=
  run! _ := refuse_directory dst in
  if overwrite then must (complaining h (mv h stage dst))
  else
    run! linked := ln h stage dst in
    if linked then rm_f h stage
    else
      run! there := test_e h dst in
      refuse (if there then lit "destination_exists" else lit "hardlink_failed").

Definition put_file_script (overwrite : bool) (parent dst sib : str) (expected : Z) (chunks : list bytes) : script unit :=
  run! _ := claim_stage_file sib in
  with_trap (trap_rm h (rm_f h) sib)
    (run! _ := announce_stage sib parent in
     run! _ := receive_file sib expected chunks in
     install_file overwrite sib dst).

(** ** Directories *)

Definition claim_stage_dir (stage : str) : script unit :=
  run! made := mkdir_parent h in
  run! created := (if made then mkdir h no_entries stage else pure false) in
  if created then pure tt
  else
    run! there := test_e h stage in
    run! _ := say (ERR_MARKER ++ (if there then lit "staging_collision" else lit "staging_unwritable")) in
    exit 1.

(** What [tar] (or busybox) makes of the directory as the stream arrives: its
    successive trees; [extracted]: whether one of the two succeeded. *)
Fixpoint tar_extract (p : str) (trees : list T) (extracted : bool) : script bool :=
  match trees with
  | [] => pure extracted
  | t :: trees =>
      run! ok := attempt h (fun fs => match fs !! p with Some (DirectoryOf _) => Some (<[p := DirectoryOf t]> fs) | _ => None end) in
      if ok then tar_extract p trees extracted else pure false
  end.

(** Backup, install, and the backup again when the install fails. [trap - EXIT]
    is part of the upload script only. *)
Definition swap_dir (stage dst backup : str) : script unit :=
  run! had_dst := test_e h dst in
  run! _ :=
    (if had_dst then
       run! there := test_e h backup in
       if there then refuse (lit "backup_collision")
       else
         run! moved := complaining h (mv h dst backup) in
         if moved then pure tt else refuse (lit "backup_failed")
     else pure tt) in
  run! _ := say (BACKUP_MARKER ++ backup) in
  run! installed := complaining h (mv h stage dst) in
  if installed then (if had_dst then rm_rf h backup else pure tt)
  else
    run! restored := (if had_dst then complaining h (mv h backup dst) else pure true) in
    refuse (if restored then lit "install_failed" else lit "rollback_failed:" ++ backup).

Definition put_dir_overwrite_script (parent dst stage backup : str) (trees : list T) (extracted : bool) : script unit :=
  run! _ := claim_stage_dir stage in
  with_trap (trap_rm h (rm_rf h) stage)
    (run! _ := announce_stage stage parent in
     run! _ := must (complaining h (tar_extract stage trees extracted)) in
     swap_dir stage dst backup).

(** The destination itself is the staging directory. *)
Definition claim_destination_dir (dst : str) : script unit :=
  run! _ := mkdir_parent h in
  run! made := mkdir h no_entries dst in
  if made then pure tt
  else
    run! there := test_e h dst in
    refuse (if there then lit "destination_exists" else lit "mkdir_failed").

Definition put_dir_new_script (parent dst : str) (trees : list T) (extracted : bool) : script unit :=
  run! _ := claim_destination_dir dst in
  with_trap (trap_rm h (rm_rf h) dst)
    (run! _ := announce_stage dst parent in
     must (complaining h (tar_extract dst trees extracted))).
End put.

(** ** Uploads over exec-raw *)

(** A local [symlink_metadata] of the source: is it of the kind, and its size. *)
Definition check_source (meta : result (bool * Z) str) (refusal : str) : result Z SshMcpError :=
  let? '(right_kind, size) := rmap_err Io meta in
  if (right_kind : bool) then Ok size else Err (InvalidParams refusal).

Definition remote_staging (stage : str) (backup : option str) (final base : str) : TransferStaging :=
  {| staging_local := None;
     staging_remote := Some {| sr_staging_path := stage; sr_backup_path := backup; sr_final_path := final;
                               sr_staging_base_home := base |} |}.

Definition transfer_output (read : Z) (r : str * option Z) : TransferRawOutput :=
  {| stdout_bytes := 0; stdin_bytes := read; r_stderr := r.1; r_exit_code := r.2 |}.

Definition file_counts (n : Z) : TransferCounts := {| c_bytes := n; c_files := 1; c_directories := 0 |}.

(** [chunks]: what reaches the remote [cat]. *)
Definition put_file_exec_raw {T} (h : host T) (tr : transport) (remote_home remote_dst id : str) (overwrite : bool)
    (meta : result (bool * Z) str) (opened : result unit str) (chunks : list bytes) (fs : gmap str (entry T)) :
    result (TransferStaging * TransferCounts) SshMcpError * shell_state T :=
  let checked :=
    let? _ := validate_remote_user_path remote_home (lit "remote_home") in
    let? _ := validate_remote_user_file_path remote_dst (lit "remote_path") in
    let? size := check_source meta (lit "local_path is not a file") in
    let? _ := rmap_err Io opened in
    Ok size in
  match checked with
  | Err e => (Err e, start fs)
  | Ok size =>
      let sib := remote_temp_sibling remote_dst id in
      let parent := remote_parent_dir remote_dst in
      let '(r, s) := run_script tr (put_file_script h overwrite parent remote_dst sib size chunks) fs in
      ((let? out := r in
        let? _ := ensure_remote_success (lit "put_file") (transfer_output (Z.of_nat (length (concat chunks))) out) in
        Ok (remote_staging (default sib (parse_marker_value out.1 STAGE_MARKER)) None remote_dst
              (default parent (parse_marker_value out.1 STAGE_BASE_MARKER)), file_counts size)), s)
  end.

Definition also_encoder (e encoder : SshMcpError) : SshMcpError :=
  Connection (lit "put_dir failed: " ++ error_display e ++ lit "; additionally tar encoder failed: " ++ error_display encoder).

Definition non_empty (s : str) : option str := match s with [] => None | _ => Some s end.

(** [trees], [extracted]: what the remote [tar] makes of the stream;
    [encoded]: the answer of the local tar writer. *)
Definition put_dir_exec_raw {T} (h : host T) (no_entries : T) (tr : transport) (remote_home remote_dst_dir id : str)
    (overwrite : bool) (meta : result (bool * Z) str) (trees : list T) (extracted : bool) (encoded : result TransferCounts SshMcpError)
    (fs : gmap str (entry T)) : result (TransferStaging * TransferCounts) SshMcpError * shell_state T :=
  let checked :=
    let? _ := validate_remote_user_path remote_home (lit "remote_home") in
    let? _ := validate_remote_user_path remote_dst_dir (lit "remote_path") in
    check_source meta (lit "local_path is not a directory") in
  match checked with
  | Err e => (Err e, start fs)
  | Ok _ =>
      let stage := remote_temp_dir_sibling remote_dst_dir id in
      let backup := remote_backup_dir_sibling remote_dst_dir id in
      let parent := remote_parent_dir remote_dst_dir in
      let '(r, s) := run_script tr
        (if overwrite then put_dir_overwrite_script h no_entries parent remote_dst_dir stage backup trees extracted
         else put_dir_new_script h no_entries parent remote_dst_dir trees extracted) fs in
      let failed e := match encoded with Err encoder => Err (also_encoder e encoder) | Ok _ => Err e end in
      (match r with
       | Err e => failed e
       | Ok out =>
           match ensure_remote_success (lit "put_dir") (transfer_output 0 out) with
           | Err e => failed e
           | Ok _ =>
               let? counts := encoded in
               Ok (remote_staging (default stage (parse_marker_value out.1 STAGE_MARKER))
                     (parse_marker_value out.1 BACKUP_MARKER ≫= non_empty) remote_dst_dir
                     (default parent (parse_marker_value out.1 STAGE_BASE_MARKER)), counts)
           end
       end, s)
  end.

(** ** Uploads by an external client *)

Record RemoteStage : Type := { stage_path : str; stage_base : str; stage_is_destination : bool }.

(** The answer of [exec_command] to a script. *)
Definition command_output (r : str * option Z) : CommandOutput :=
  {| stdout := []; stderr := r.1; exit_code := r.2; stdout_truncated := false; stderr_truncated := false;
     stdout_total_tokens := 0; stderr_total_tokens := 0 |}.

Definition remote_prepare_put_file_stage {T} (h : host T) (tr : transport) (remote_home remote_dst id : str)
    (fs : gmap str (entry T)) : result RemoteStage SshMcpError * shell_state T :=
  let checked :=
    let? _ := validate_remote_user_path remote_home (lit "remote_home") in
    validate_remote_user_file_path remote_dst (lit "remote_path") in
  match checked with
  | Err e => (Err e, start fs)
  | Ok _ =>
      let sib := remote_temp_sibling remote_dst id in
      let parent := remote_parent_dir remote_dst in
      let '(r, s) := run_script tr (run! _ := claim_stage_file h sib in announce_stage sib parent) fs in
      ((let? out := r in
        let? _ := ensure_remote_exec_success (lit "prepare_put_file_stage") (command_output out) in
        Ok {| stage_path := default sib (parse_marker_value out.1 STAGE_MARKER);
              stage_base := default parent (parse_marker_value out.1 STAGE_BASE_MARKER); stage_is_destination := false |}), s)
  end.

Definition remote_finalize_put_file {T} (h : host T) (tr : transport) (remote_dst stage : str) (overwrite : bool)
    (fs : gmap str (entry T)) : result unit SshMcpError * shell_state T :=
  let checked :=
    let? _ := validate_remote_user_file_path remote_dst (lit "remote_path") in
    validate_remote_user_file_path stage (lit "remote_stage") in
  match checked with
  | Err e => (Err e, start fs)
  | Ok _ =>
      let '(r, s) := run_script tr (install_file h overwrite stage remote_dst) fs in
      ((let? out := r in ensure_remote_exec_success (lit "finalize_put_file") (command_output out)), s)
  end.

Definition remote_prepare_put_dir_stage {T} (h : host T) (no_entries : T) (tr : transport) (remote_home remote_dst_dir id : str)
    (overwrite : bool) (fs : gmap str (entry T)) : result RemoteStage SshMcpError * shell_state T :=
  let checked :=
    let? _ := validate_remote_user_path remote_home (lit "remote_home") in
    validate_remote_user_path remote_dst_dir (lit "remote_path") in
  match checked with
  | Err e => (Err e, start fs)
  | Ok _ =>
      let sib := remote_temp_dir_sibling remote_dst_dir id in
      let parent := remote_parent_dir remote_dst_dir in
      let '(r, s) := run_script tr
        (if overwrite then run! _ := claim_stage_dir h no_entries sib in announce_stage sib parent
         else run! _ := claim_destination_dir h no_entries remote_dst_dir in announce_stage remote_dst_dir parent) fs in
      ((let? out := r in
        let? _ := ensure_remote_exec_success (lit "prepare_put_dir_stage") (command_output out) in
        Ok {| stage_path := default sib (parse_marker_value out.1 STAGE_MARKER);
              stage_base := default parent (parse_marker_value out.1 STAGE_BASE_MARKER);
              stage_is_destination := negb overwrite |}), s)
  end.

Definition remote_finalize_put_dir_overwrite_true {T} (h : host T) (tr : transport) (remote_home remote_dst_dir stage id : str)
    (fs : gmap str (entry T)) : result (option str) SshMcpError * shell_state T :=
  let checked :=
    let? _ := validate_remote_user_path remote_home (lit "remote_home") in
    let? _ := validate_remote_user_path remote_dst_dir (lit "remote_path") in
    validate_remote_user_path stage (lit "remote_stage") in
  match checked with
  | Err e => (Err e, start fs)
  | Ok _ =>
      let '(r, s) := run_script tr (swap_dir h stage remote_dst_dir (remote_backup_dir_sibling remote_dst_dir id)) fs in
      ((let? out := r in
        let? _ := ensure_remote_exec_success (lit "finalize_put_dir") (command_output out) in
        Ok (parse_marker_value out.1 BACKUP_MARKER ≫= non_empty)), s)
  end.

(** The removals after a failure; their answer is ignored. *)
Definition best_effort_remote_rm_file {T} (h : host T) (tr : transport) (path : str) (fs : gmap str (entry T)) : gmap str (entry T) :=
  match validate_remote_user_file_path path (lit "remote_stage") with
  | Err _ => fs
  | Ok _ => files (run_script tr (rm_f h path) fs).2
  end.

Definition best_effort_remote_rm_dir {T} (h : host T) (tr : transport) (path : str) (fs : gmap str (entry T)) : gmap str (entry T) :=
  match validate_remote_user_path path (lit "remote_stage") with
  | Err _ => fs
  | Ok _ => files (run_script tr (rm_rf h path) fs).2
  end.

(** The three scripts of an upload, and the client that uploads into the
    staging path it is given. *)
Record client_upload (T : Type) : Type := {
  prepare_host : host T; prepare_tr : transport;
  upload : str -> gmap str (entry T) -> result unit SshMcpError * gmap str (entry T);
  finalize_host : host T; finalize_tr : transport;
  clean_host : host T; clean_tr : transport
}.
Arguments prepare_host {T} c.
Arguments prepare_tr {T} c.
Arguments upload {T} c path fs.
Arguments finalize_host {T} c.
Arguments finalize_tr {T} c.
Arguments clean_host {T} c.
Arguments clean_tr {T} c.

Definition put_file_with_remote_staging {T} (c : client_upload T) (remote_home remote_path id : str) (overwrite : bool)
    (meta : result (bool * Z) str) (fs : gmap str (entry T)) :
    result (TransferStaging * TransferCounts) SshMcpError * gmap str (entry T) :=
  match check_source meta (lit "local_path is not a file") with
  | Err e => (Err e, fs)
  | Ok size =>
      match remote_prepare_put_file_stage (prepare_host c) (prepare_tr c) remote_home remote_path id fs with
      | (Err e, s) => (Err e, files s)
      | (Ok stage, s) =>
          let clean := best_effort_remote_rm_file (clean_host c) (clean_tr c) (stage_path stage) in
          match upload c (stage_path stage) (files s) with
          | (Err e, fs) => (Err e, clean fs)
          | (Ok _, fs) =>
              match remote_finalize_put_file (finalize_host c) (finalize_tr c) remote_path (stage_path stage) overwrite fs with
              | (Err e, s) => (Err e, clean (files s))
              | (Ok _, s) =>
                  (Ok (remote_staging (stage_path stage) None remote_path (stage_base stage), file_counts size), files s)
              end
          end
      end
  end.

Definition put_dir_with_remote_staging {T} (c : client_upload T) (no_entries : T) (remote_home remote_path id : str)
    (overwrite : bool) (counts : TransferCounts) (fs : gmap str (entry T)) :
    result (TransferStaging * TransferCounts) SshMcpError * gmap str (entry T) :=
  match remote_prepare_put_dir_stage (prepare_host c) no_entries (prepare_tr c) remote_home remote_path id overwrite fs with
  | (Err e, s) => (Err e, files s)
  | (Ok stage, s) =>
      let clean := best_effort_remote_rm_dir (clean_host c) (clean_tr c) (stage_path stage) in
      let done backup := Ok (remote_staging (stage_path stage) backup remote_path (stage_base stage), counts) in
      match upload c (stage_path stage) (files s) with
      | (Err e, fs) => (Err e, clean fs)
      | (Ok _, fs) =>
          if overwrite then
            match remote_finalize_put_dir_overwrite_true (finalize_host c) (finalize_tr c) remote_home remote_path
                    (stage_path stage) id fs with
            | (Err e, s) => (Err e, if negb (stage_is_destination stage) then clean (files s) else files s)
            | (Ok backup, s) => (done backup, files s)
            end
          else (done None, fs)
      end
  end.

(** ** Correctness of a file upload *)

Section put_file_correct.
Context {T : Type} (h : host T) (sib dst : str).
Notation nodes := (gmap str (entry T)).
Notation history := (list (nodes * nodes)).
Notation assertion := (nodes -> history -> Prop).
Notation triple := (RemoteScript.triple h).

(** A step that changes nothing but the staging path. *)
Definition spares_all_but (ps : list str) (st : nodes * nodes) : Prop := forall q, q ∉ ps -> st.1 !! q = st.2 !! q.

(** The step that puts the content in place, at once. *)
Definition installs (overwrite : bool) (content : bytes) (st : nodes * nodes) : Prop :=
  st.1 !! sib = Some (RegularFile content) /\ st.2 !! dst = Some (RegularFile content) /\
  (overwrite = false -> st.1 !! dst = None) /\ spares_all_but [sib; dst] st.

(** Someone made the destination a directory after the script looked: the
    file went into it. *)
Definition raced (st : nodes * nodes) : Prop := is_dir_entry (st.1 !! dst) = true /\ spares_all_but [sib; dst] st.

Definition file_step (overwrite : bool) (content : bytes) (st : nodes * nodes) : Prop :=
  spares_all_but [sib] st \/ installs overwrite content st \/ raced st.

Hypothesis spared : forall n fs, others h n fs !! sib = fs !! sib.

Definition staged (x : option (entry T)) : assertion := fun fs own => fs !! sib = x /\ Forall (spares_all_but [sib]) own.
Definition only_stage : assertion := fun _ own => Forall (spares_all_but [sib]) own.
Definition plain (x : option (entry T)) : bool := match x with None | Some (RegularFile _) => true | _ => false end.
Definition some_stage : assertion := fun fs own => exists x, staged x fs own /\ plain x = true.

Lemma staged_stable x : stable h (staged x).
Proof. intros n fs own [Hx Ho]. split; [by rewrite spared|done]. Qed.

Lemma some_stage_stable : stable h some_stage.
Proof. intros n fs own [x [Hx Hp]]. exists x. split; [by apply staged_stable|done]. Qed.

Lemma spares_refl ps (fs : nodes) : spares_all_but ps (fs, fs).
Proof. by intros q _. Qed.

Lemma spares_stage x (fs : nodes) : spares_all_but [sib] (fs, <[sib := x]> fs).
Proof. intros q Hq. cbn. by rewrite lookup_insert_ne by set_solver. Qed.

Lemma staged_snoc x y (fs fs' : nodes) own :
  staged x fs own -> fs' !! sib = y -> spares_all_but [sib] (fs, fs') -> staged y fs' (own ++ [(fs, fs')]).
Proof. intros [_ Ho] Hy Hs. split; [done|]. apply Forall_app. by split; [|constructor]. Qed.

(** A test of the file system changes nothing. *)
Lemma triple_look {A} (run failing : nodes -> A * nodes) x (X : assertion) :
  (forall fs, (run fs).2 = fs /\ (failing fs).2 = fs) ->
  triple (staged x) (command h run failing) (fun _ => staged x) X only_stage.
Proof.
  intros Hr. apply triple_command; [apply staged_stable|by intros fs own []| |].
  - intros fs own Hs. destruct (Hr fs) as [-> _]. eapply staged_snoc; [done|apply Hs|apply spares_refl].
  - intros fs own _ Hs. destruct (Hr fs) as [_ ->]. eapply staged_snoc; [done|apply Hs|apply spares_refl].
Qed.

Lemma triple_refuse {A} x (Q : A -> assertion) name : plain x = true -> triple (staged x) (refuse name) Q some_stage only_stage.
Proof.
  intros Hp. eapply triple_bind; [by apply triple_say with (Q := fun _ => staged x)|]. intros []. apply triple_exit; [done|]. by exists x.
Qed.

Lemma claim_stage_file_spec :
  triple (staged None) (claim_stage_file h sib) (fun _ => staged (Some (RegularFile []))) (staged None) only_stage.
Proof.
  unfold claim_stage_file. eapply triple_bind; [apply triple_look; intros fs; by split|]. intros made.
  eapply triple_bind with (R := fun created => staged (if created : bool then Some (RegularFile []) else None)).
  - destruct made; [|by apply triple_pure].
    apply triple_attempt; [apply staged_stable|by intros fs own []| |].
    + intros fs own Hs. pose proof Hs as [Hn _]. rewrite Hn. eapply staged_snoc; [done|by rewrite lookup_insert_eq|apply spares_stage].
    + intros fs own _ Hs. eapply staged_snoc; [done|apply Hs|apply spares_refl].
  - intros []; [by apply triple_pure|].
    eapply triple_bind; [apply triple_look; intros fs; by split|]. intros there.
    eapply triple_bind; [by apply triple_say with (Q := fun _ => staged None)|]. intros []. by apply triple_exit.
Qed.

Lemma cat_into_spec chunks content :
  triple (staged (Some (RegularFile content))) (cat_into h sib chunks)
    (fun ok => if ok then staged (Some (RegularFile (content ++ concat chunks))) else some_stage) some_stage only_stage.
Proof.
  revert content. induction chunks as [|chunk chunks IH]; intros content; cbn.
  { apply triple_pure. by rewrite app_nil_r. }
  eapply triple_bind with (R := fun ok => staged (Some (RegularFile (if ok : bool then content ++ chunk else content)))).
  - apply triple_attempt; [apply staged_stable|by intros fs own []| |].
    + intros fs own Hs. pose proof Hs as [Hn _]. rewrite Hn. eapply staged_snoc; [done|by rewrite lookup_insert_eq|apply spares_stage].
    + intros fs own _ Hs. eapply staged_snoc; [done|apply Hs|apply spares_refl].
  - intros []; [rewrite app_assoc; apply IH|]. apply triple_pure. intros fs own Hs. by exists (Some (RegularFile content)).
Qed.

Lemma receive_file_spec expected chunks :
  triple (staged (Some (RegularFile []))) (receive_file h sib expected chunks)
    (fun _ fs own => staged (Some (RegularFile (concat chunks))) fs own /\ Z.of_nat (length (concat chunks)) = expected)
    some_stage only_stage.
Proof.
  unfold receive_file. eapply triple_bind with (R := fun _ => staged (Some (RegularFile (concat chunks))));
    [apply triple_must, triple_complaining, (cat_into_spec chunks [])|]. intros _.
  eapply triple_bind with (R := fun size fs own => staged (Some (RegularFile (concat chunks))) fs own /\
      (size = None \/ size = Some (Z.of_nat (length (concat chunks))))).
  - apply triple_command; [apply staged_stable|by intros fs own []| |].
    + intros fs own Hs. cbn. split; [eapply staged_snoc; [done|apply Hs|apply spares_refl]|]. destruct Hs as [-> _]. by right.
    + intros fs own _ Hs. split; [eapply staged_snoc; [done|apply Hs|apply spares_refl]|by left].
  - intros [actual|]; [|apply triple_exit; [done|]; intros fs own [Hs _]; by eexists].
    destruct (actual =? expected) eqn:E; cbn.
    + apply triple_pure. intros fs own [Hs [|[=->]]]; [done|]. split; [done|]. bool_hyps. done.
    + eapply triple_pre; [|by apply (triple_refuse (Some (RegularFile (concat chunks))))]. by intros fs own [Hs _].
Qed.

(** The file is in place, or went into a directory someone made there. *)
Definition placed (overwrite : bool) (content : bytes) : assertion := fun fs own =>
  (exists st, st ∈ own /\ (installs overwrite content st \/ raced st)) /\
  Forall (file_step overwrite content) own /\ (~ faulty h -> fs !! sib = None).

Definition in_order (overwrite : bool) (content : bytes) : assertion := fun _ own => Forall (file_step overwrite content) own.

Lemma only_stage_in_order overwrite content (fs : nodes) own : only_stage fs own -> in_order overwrite content fs own.
Proof. intros H. eapply Forall_impl; [exact H|]. intros st Hst. by left. Qed.

Lemma spares_weaken (ps qs : list str) st : (forall q, q ∈ ps -> q ∈ qs) -> spares_all_but ps st -> spares_all_but qs st.
Proof. intros Hi H q Hq. apply H. auto. Qed.

Hypothesis distinct : sib <> dst.

(** What [place] does with the staged file. *)
Lemma place_file over content name (fs before : nodes) fs' :
  place h over name (RegularFile content) dst fs = Some fs' ->
  before !! sib = Some (RegularFile content) -> spares_all_but [sib] (before, fs) ->
  fs' !! sib = fs !! sib /\ (installs over content (before, fs') \/ raced (before, fs')).
Proof.
  intros H Hb Hs. pose proof (Hs dst ltac:(set_solver)) as Hd. cbn in Hd. unfold place in H.
  assert (Hset : forall x, spares_all_but [sib; dst] (before, <[dst := x]> fs)).
  { intros x q Hq. cbn. rewrite lookup_insert_ne by set_solver. apply (Hs q). set_solver. }
  assert (Hsib : forall x, <[dst := x]> fs !! sib = fs !! sib) by (intros x; by rewrite lookup_insert_ne).
  destruct (fs !! dst) as [[c|t|[| |]|]|] eqn:E.
  all: try (destruct over; [|done]); simplify_eq/=.
  all: try (split; [done|]; left; unfold installs; cbn; rewrite lookup_insert_eq, Hd; split_and!; done).
  - destruct (put_in h name (RegularFile content) t); simplify_eq/=. split; [done|]. right. split; [cbn; by rewrite Hd|done].
  - split; [done|]. right. split; [cbn; by rewrite Hd|]. by eapply spares_weaken; [|exact Hs]; set_solver.
Qed.

(** After the step that puts the file in place. *)
Definition put_now (overwrite : bool) (content : bytes) : assertion := fun _ own =>
  (exists st, st ∈ own /\ (installs overwrite content st \/ raced st)) /\ Forall (file_step overwrite content) own.

Lemma put_now_snoc overwrite content (fs' before : nodes) own :
  Forall (spares_all_but [sib]) own -> installs overwrite content (before, fs') \/ raced (before, fs') ->
  put_now overwrite content fs' (own ++ [(before, fs')]).
Proof.
  intros Ho Hi. split; [eexists; split; [|exact Hi]; set_solver|].
  apply Forall_app. split; [by apply (only_stage_in_order _ _ fs')|]. constructor; [by right|done].
Qed.

Lemma mv_stage_spec content :
  triple (staged (Some (RegularFile content))) (mv h sib dst)
    (fun ok => if ok then placed true content else some_stage) some_stage (in_order true content).
Proof.
  apply triple_attempt; [apply staged_stable|intros fs own [_ Ho]; by apply (only_stage_in_order _ _ fs)| |].
  - intros fs own Hs. pose proof Hs as [Hn Ho]. rewrite Hn. cbn.
    destruct (place _ _ _ _ _ _) as [fs'|] eqn:E; cbn.
    + apply place_file with (before := fs) in E as [Hsib Hi]; [|done|].
      * rewrite lookup_delete_eq in Hsib. destruct (put_now_snoc true content _ _ _ Ho Hi). by split_and!.
      * intros q Hq. cbn. by rewrite lookup_delete_ne by set_solver.
    + exists (Some (RegularFile content)). split; [|done]. eapply staged_snoc; [done|done|apply spares_refl].
  - intros fs own _ Hs. exists (Some (RegularFile content)). split; [|done]. eapply staged_snoc; [done|apply Hs|apply spares_refl].
Qed.

Lemma ln_stage_spec content :
  triple (staged (Some (RegularFile content))) (ln h sib dst)
    (fun ok fs own => if ok then put_now false content fs own /\ fs !! sib = Some (RegularFile content)
                      else staged (Some (RegularFile content)) fs own) some_stage (in_order false content).
Proof.
  apply triple_attempt; [apply staged_stable|intros fs own [_ Ho]; by apply (only_stage_in_order _ _ fs)| |].
  - intros fs own Hs. pose proof Hs as [Hn Ho]. rewrite Hn. cbn.
    destruct (place _ _ _ _ _ _) as [fs'|] eqn:E; cbn.
    + apply place_file with (before := fs) in E as [Hsib Hi]; [|done|apply spares_refl].
      split; [by apply (put_now_snoc false content _ _ _ Ho Hi)|by rewrite Hsib].
    + eapply staged_snoc; [done|done|apply spares_refl].
  - intros fs own _ Hs. eapply staged_snoc; [done|apply Hs|apply spares_refl].
Qed.

Lemma put_now_more overwrite content (fs fs1 fs2 : nodes) own :
  put_now overwrite content fs own -> spares_all_but [sib] (fs1, fs2) -> put_now overwrite content fs2 (own ++ [(fs1, fs2)]).
Proof.
  intros [(st & Hin & Hst) Ho] Hs. split; [exists st; split; [set_solver|done]|].
  apply Forall_app. split; [done|]. constructor; [by left|done].
Qed.

Lemma rm_stage_spec content (X : assertion) :
  triple (fun fs own => put_now false content fs own /\ fs !! sib = Some (RegularFile content)) (rm_f h sib)
    (fun _ => placed false content) X (in_order false content).
Proof.
  apply triple_command.
  - intros n fs own [H1 H2]. split; [done|by rewrite spared].
  - by intros fs own [[_ ?] _].
  - intros fs own [Hp Hs]. cbn. rewrite Hs.
    destruct (put_now_more _ _ _ fs (delete sib fs) _ Hp) as [Hx Ho].
    { intros q Hq. cbn. by rewrite lookup_delete_ne by set_solver. }
    split_and!; [done|done|]. by rewrite lookup_delete_eq.
  - intros fs own Hf [Hp _]. cbn. destruct (put_now_more _ _ _ fs fs _ Hp) as [Hx Ho]; [apply spares_refl|]. by split_and!.
Qed.

Lemma install_script_spec overwrite content :
  triple (staged (Some (RegularFile content))) (install_file h overwrite sib dst)
    (fun _ => placed overwrite content) some_stage (in_order overwrite content).
Proof.
  assert (Hk : forall fs own, only_stage fs own -> in_order overwrite content fs own) by (apply only_stage_in_order).
  assert (Hrefuse : forall A name (Q : A -> assertion),
    triple (staged (Some (RegularFile content))) (refuse name) Q some_stage (in_order overwrite content)).
  { intros. eapply triple_weaken; [by apply (triple_refuse (Some (RegularFile content)) Q)|..]; eauto. }
  assert (Hlook : forall A (run failing : nodes -> A * nodes), (forall fs, (run fs).2 = fs /\ (failing fs).2 = fs) ->
    triple (staged (Some (RegularFile content))) (command h run failing) (fun _ => staged (Some (RegularFile content)))
      some_stage (in_order overwrite content)).
  { intros A run failing Hr. eapply triple_weaken; [by apply (triple_look run failing (Some (RegularFile content)) some_stage)|..]; eauto. }
  eapply triple_bind with (R := fun _ => staged (Some (RegularFile content))).
  { eapply triple_bind; [by apply Hlook|]. intros []; [apply Hrefuse|by apply triple_pure]. }
  intros _. destruct overwrite.
  - apply triple_must, triple_complaining, mv_stage_spec.
  - eapply triple_bind; [apply ln_stage_spec|]. intros []; [apply rm_stage_spec|].
    eapply triple_bind; [by apply Hlook|]. intros there. apply Hrefuse.
Qed.

(** A refusal before the file is in place. *)
Definition refused (fs : nodes) (own : history) : Prop :=
  Forall (spares_all_but [sib]) own /\ (~ faulty h -> fs !! sib = None).

Lemma put_file_script_spec overwrite parent expected chunks :
  plain_in_quotes sib = true ->
  triple (staged None) (put_file_script h overwrite parent dst sib expected chunks)
    (fun _ fs own => placed overwrite (concat chunks) fs own /\ Z.of_nat (length (concat chunks)) = expected)
    refused (in_order overwrite (concat chunks)).
Proof.
  intros Hplain. eapply triple_bind with (R := fun _ => staged (Some (RegularFile []))).
  { eapply triple_weaken; [apply claim_stage_file_spec|done|done| |apply only_stage_in_order]. by intros fs own [Hn Ho]. }
  intros _. eapply triple_trap with (Y := some_stage).
  - eapply triple_bind with (R := fun _ => staged (Some (RegularFile []))); [|intros _].
    { eapply triple_bind with (R := fun _ => staged (Some (RegularFile []))); [by apply triple_say|intros _; by apply triple_say]. }
    eapply triple_bind with (R := fun _ fs own => staged (Some (RegularFile (concat chunks))) fs own /\ Z.of_nat (length (concat chunks)) = expected).
    { eapply triple_weaken; [apply receive_file_spec|done|done|done|apply only_stage_in_order]. }
    intros _ s [Hs He]. pose proof (install_script_spec overwrite (concat chunks) s Hs) as H.
    by destruct (install_file _ _ _ _ _) as [[]].
  - unfold trap_rm. rewrite Hplain. apply triple_command; [apply some_stage_stable| | |].
    + intros fs own [x [[_ Ho] _]]. by apply (only_stage_in_order _ _ fs).
    + intros fs own [x [[Hx Ho] Hp]]. cbn. rewrite Hx. split.
      * apply Forall_app. split; [done|]. constructor; [|done]. intros q Hq. cbn.
        by destruct x as [[]|]; rewrite ?lookup_delete_ne by set_solver.
      * intros _. by destruct x as [[]|]; rewrite ?lookup_delete_eq.
    + intros fs own Hf [x [[Hx Ho] Hp]]. cbn. split; [|done].
      apply Forall_app. split; [done|]. constructor; [apply spares_refl|done].
Qed.
End put_file_correct.

Lemma app_ne (p suffix : str) : suffix <> [] -> p ++ suffix <> p.
Proof. intros Hs E. apply (f_equal length) in E. rewrite length_app in E. destruct suffix; [done|cbn in E; lia]. Qed.

(** The server reports how every script ended, also a killed one. *)
Definition reports (tr : transport) : Prop := status_sent tr = true /\ is_Some (killed_status tr) /\ lost tr = None.

(** A run of a script that satisfies a triple, as its caller hears of it. *)
Lemma run_script_triple {T} (h : host T) (tr : transport) (m : script unit) (fs : gmap str (entry T)) P Q X K :
  triple h P m Q X K -> P fs [] ->
  let '(r, s) := run_script tr m fs in
  (s = start fs /\ exists e, r = Err e) \/
  (exists e, (r = Ok (heard tr (said s), exit_status tr e) \/ exists err, lost tr = Some err /\ r = Err err) /\
     match e with Done _ => Q tt (files s) (own s) | Exit c => c <> 0 /\ X (files s) (own s) | Killed => mortal h /\ K (files s) (own s) end).
Proof.
  intros H HP. unfold run_script. destruct (not_run tr) as [e|]; [left; eauto|].
  specialize (H (start fs) HP). destruct (m (start fs)) as [e s]. right. exists e. split.
  - destruct (lost tr); eauto.
  - by destruct e as [[]|c|].
Qed.

(** An accepted answer of a script that reports its status. *)
Lemma accepted_done tr e : reports tr -> exit_status tr e = Some 0 -> match e with Exit c => c <> 0 | _ => True end -> e = Done tt.
Proof.
  intros (Hs & [k Hk] & _). unfold exit_status. rewrite Hs. destruct e as [[]|c|]; [done|by intros [=->]|]. by rewrite Hk.
Qed.

Lemma ensure_remote_success_ok what out : ensure_remote_success what out = Ok tt -> is_Some (r_exit_code out) -> r_exit_code out = Some 0.
Proof.
  unfold ensure_remote_success. intros H [c Hc]. rewrite Hc in *. destruct c; [done|..]; by destruct (refusal_in _).
Qed.

Lemma ensure_remote_success_zero what out : r_exit_code out = Some 0 -> ensure_remote_success what out = Ok tt.
Proof. unfold ensure_remote_success. by intros ->. Qed.

(** C18. A file upload over exec-raw, whatever other processes do to other
    paths meanwhile, whichever commands fail and wherever the script is killed:
    every command of the script changes the staging path only, or puts the file
    in place at once (over nothing, when it may not overwrite), or puts it into
    a directory that someone made there after the script looked. A success
    means that this happened, with exactly as many bytes as the local file
    had; a reported failure means that it did not, and that the staging file is
    gone unless a command failed. *)
Theorem put_file_whole {T} (h : host T) (tr : transport) (remote_home remote_dst id : str) (overwrite : bool)
    (meta : result (bool * Z) str) (opened : result unit str) (chunks : list bytes) (fs : gmap str (entry T))
    (sib := remote_temp_sibling remote_dst id) (content := concat chunks)
    (Hspared : forall n fs, others h n fs !! sib = fs !! sib)
    (Hplain : plain_in_quotes sib = true) (Hfresh : fs !! sib = None) :
  let '(answer, s) := put_file_exec_raw h tr remote_home remote_dst id overwrite meta opened chunks fs in
  Forall (file_step sib remote_dst overwrite content) (own s) /\
  match answer with
  | Ok (_, counts) =>
      reports tr ->
      (exists st, st ∈ own s /\ (installs sib remote_dst overwrite content st \/ raced sib remote_dst st)) /\
      c_bytes counts = Z.of_nat (length content) /\ (~ faulty h -> files s !! sib = None)
  | Err _ =>
      reports tr -> (forall n, killed h n = false) ->
      Forall (spares_all_but [sib]) (own s) /\ (~ faulty h -> files s !! sib = None)
  end.
Proof.
  unfold put_file_exec_raw. fold sib.
  destruct (let? _ := validate_remote_user_path _ _ in _) as [size|e]; [|by split_and!].
  assert (Hne : sib <> remote_dst) by (by apply app_ne).
  pose proof (run_script_triple h tr _ fs _ _ _ _
    (put_file_script_spec h sib remote_dst Hspared Hne overwrite (remote_parent_dir remote_dst) size chunks Hplain)
    (conj Hfresh (Forall_nil_2 _))) as H.
  destruct (run_script _ _ _) as [r s]. destruct H as [[-> [e ->]]|(e & Hr & H)]; [by split_and!|]. split.
  { destruct e; [by destruct H as [(_ & ? & _) _]| |by destruct H].
    destruct H as [_ [H _]]. eapply Forall_impl; [exact H|]. by left. }
  destruct Hr as [->|(err & Hl & ->)]; [|intros (_ & _ & ?); congruence]. cbn.
  destruct (ensure_remote_success _ _) as [[]|err] eqn:E; cbn.
  - intros Hrep. apply ensure_remote_success_ok in E; cbn in *.
    + apply accepted_done in E as ->; [|done|by destruct e; [|destruct H|]].
      by destruct H as [(? & _ & ?) <-].
    + destruct Hrep as (Hs & Hk & _). unfold exit_status. rewrite Hs. destruct e; [by eexists..|]. by destruct (killed_status tr); [eexists|destruct Hk].
  - intros (Hs & _) Hno. destruct e as [[]|c|]; [|by destruct H as [_ []]|by destruct H as [[n Hn] _]; rewrite Hno in Hn].
    rewrite ensure_remote_success_zero in E; [done|]. cbn. unfold exit_status. by rewrite Hs.
Qed.

(** A host on which nothing goes wrong and nothing else happens. *)
Definition calm_host : host unit :=
  {| others := fun _ fs => fs; fault := fun _ => false; killed := fun _ => false; complaint := fun _ => [];
     put_in := fun _ _ _ => None; residue := fun t => t; stray := fun fs => fs |}.
Definition plain_transport : transport :=
  {| not_run := None; heard := fun s => s; status_sent := true; killed_status := Some 137%positive; lost := None |}.

Lemma put_file_whole_witness :
  let fs : gmap str (entry unit) := {[ lit "/srv/app.conf" := RegularFile [111; 108; 100] ]} in
  let run := put_file_exec_raw calm_host plain_transport (lit "/root") (lit "/srv/app.conf") (lit "00ff") true
               (Ok (true, 3)) (Ok tt) [[110; 101]; [119]] fs in
  (exists counts, snd <$> (match run.1 with Ok x => Some x | Err _ => None end) = Some counts /\ c_bytes counts = 3) /\
  files run.2 !! lit "/srv/app.conf" = Some (RegularFile [110; 101; 119]) /\
  files run.2 !! lit "/srv/app.conf.ssh-mcp-staging-00ff" = None.
Proof.
  intros fs run.
  pose proof (put_file_whole calm_host plain_transport (lit "/root") (lit "/srv/app.conf") (lit "00ff") true
    (Ok (true, 3)) (Ok tt) [[110; 101]; [119]] fs (fun _ _ => eq_refl) eq_refl eq_refl) as H.
  fold run in H. destruct run as [answer s] eqn:E. destruct H as [_ H].
  assert (Hr : reports plain_transport) by (split; [reflexivity|split; [by eexists|reflexivity]]).
  destruct answer as [[staging counts]|e]; [|by vm_compute in E; discriminate E].
  destruct (H Hr) as (_ & Hc & Hn). split; [exists counts; split; [reflexivity|]|split].
  - rewrite Hc. vm_compute. reflexivity.
  - vm_compute in E. injection E as <- <- <-. vm_compute. reflexivity.
  - apply Hn. by intros [n Hf].
Defined.
