(* ===== verification/PutDir.v ===== *)
(** * Directory uploads keep the destination

    The correctness of the directory uploads of PutRemote: the old destination
    is in place or under the backup name until the complete new one is in
    place. *)
From Stdlib Require Import ZArith String.
From stdpp Require Import base list gmap.
From S2P Require Import Prelude Errors TransferTypes Destination Staging RemoteScript PutRemote.

Section swap.
Context {T : Type} (h : host T) (stage dst backup : str) (old : option (entry T)) (t : T).
Notation nodes := (gmap str (entry T)).
Notation history := (list (nodes * nodes)).
Notation assertion := (nodes -> history -> Prop).
Notation triple := (RemoteScript.triple h).

Hypothesis spared : forall n fs p, p ∈ [stage; dst; backup] -> others h n fs !! p = fs !! p.
Hypothesis distinct : NoDup [stage; dst; backup].

Definition own_paths (own : history) : Prop := Forall (spares_all_but [stage; dst; backup]) own.

(** The entries at the three paths. *)
Definition at_paths (x d b : option (entry T)) (fs : nodes) : Prop := fs !! stage = x /\ fs !! dst = d /\ fs !! backup = b.
Definition at3 (x d b : option (entry T)) : assertion := fun fs own => at_paths x d b fs /\ own_paths own.

(** Nothing is lost: the old destination in place, or moved to the backup, or
    the new one in place. *)
Definition kept (d b : option (entry T)) : Prop :=
  (d = old /\ b = None) \/ (d = None /\ b = old) \/ d = Some (DirectoryOf t).

Definition recoverable : assertion := fun fs own => kept (fs !! dst) (fs !! backup) /\ own_paths own.

Lemma at3_recoverable x d b fs own : kept d b -> at3 x d b fs own -> recoverable fs own.
Proof. intros Hk [(_ & Hd & Hb) Ho]. by split; [rewrite Hd, Hb|]. Qed.

Lemma at3_stable x d b : stable h (at3 x d b).
Proof.
  intros n fs own [(Hx & Hd & Hb) Ho]. split; [|done].
  unfold at_paths. by rewrite !spared by set_solver.
Qed.

Lemma at3_snoc x d b x' d' b' (fs fs' : nodes) own :
  at3 x d b fs own -> at_paths x' d' b' fs' -> spares_all_but [stage; dst; backup] (fs, fs') ->
  at3 x' d' b' fs' (own ++ [(fs, fs')]).
Proof. intros [_ Ho] Ha Hs. split; [done|]. apply Forall_app. by split; [|constructor]. Qed.

(** A command that takes the three entries to others when it succeeds. *)
Lemma triple_at3 x d b x' d' b' (run : nodes -> option nodes) (X : assertion) :
  kept d b ->
  (forall fs, at_paths x d b fs -> match run fs with Some fs' => at_paths x' d' b' fs' /\ spares_all_but [stage; dst; backup] (fs, fs') | None => True end) ->
  triple (at3 x d b) (attempt h run) (fun ok => if ok then at3 x' d' b' else at3 x d b) X recoverable.
Proof.
  intros Hk Hr. apply triple_attempt; [apply at3_stable|intros; by eapply at3_recoverable| |].
  - intros fs own Ha. specialize (Hr fs (proj1 Ha)). destruct (run fs) as [fs'|].
    + destruct Hr. by eapply at3_snoc.
    + eapply at3_snoc; [done|apply Ha|by intros q _].
  - intros fs own _ Ha. eapply at3_snoc; [done|apply Ha|by intros q _].
Qed.

Lemma triple_look3 {A} x d b (f : nodes -> A) (a : A) (X : assertion) :
  kept d b -> (forall fs, at_paths x d b fs -> f fs = a) ->
  triple (at3 x d b) (look h f) (fun r fs own => r = a /\ at3 x d b fs own) X recoverable.
Proof.
  intros Hk Hf. apply triple_command; [apply at3_stable|intros; by eapply at3_recoverable|..].
  - intros fs own Ha. split; [apply Hf, Ha|]. eapply at3_snoc; [done|apply Ha|by intros q _].
  - intros fs own _ Ha. split; [apply Hf, Ha|]. eapply at3_snoc; [done|apply Ha|by intros q _].
Qed.

(** A move to a path where nothing is. *)
Lemma mv_free from to (fs : nodes) x :
  from <> to -> from ∈ [stage; dst; backup] -> to ∈ [stage; dst; backup] -> fs !! from = Some x -> fs !! to = None ->
  exists fs', (x ← fs !! from; place h true (last_component from) x to (delete from fs)) = Some fs' /\
    fs' = <[to := x]> (delete from fs) /\ spares_all_but [stage; dst; backup] (fs, fs').
Proof.
  intros Hne Hf Ht Hx Hn. rewrite Hx. cbn. unfold place. rewrite lookup_delete_ne, Hn by done.
  assert (Hs : spares_all_but [stage; dst; backup] (fs, <[to:=x]> (delete from fs))).
  { intros q Hq. cbn. by rewrite lookup_insert_ne, lookup_delete_ne by (intros ->; done). }
  destruct x; eexists; by split_and!.
Qed.

Lemma mv_at3 from to x d b x' d' b' v (X : assertion) :
  kept d b -> from <> to -> from ∈ [stage; dst; backup] -> to ∈ [stage; dst; backup] ->
  (forall fs, at_paths x d b fs -> fs !! from = Some v /\ fs !! to = None /\ at_paths x' d' b' (<[to := v]> (delete from fs))) ->
  triple (at3 x d b) (mv h from to) (fun ok => if ok then at3 x' d' b' else fun fs own => faulty h /\ at3 x d b fs own) X recoverable.
Proof.
  intros Hk Hne Hf Ht Hv. apply triple_attempt; [apply at3_stable|intros; by eapply at3_recoverable| |].
  - intros fs own Ha. destruct (Hv fs (proj1 Ha)) as (H1 & H2 & H3).
    destruct (mv_free from to fs v Hne Hf Ht H1 H2) as (fs' & -> & -> & Hs). by eapply at3_snoc.
  - intros fs own Hfa Ha. split; [done|]. eapply at3_snoc; [done|apply Ha|by intros q _].
Qed.

(** The swap failed: the old destination is in place, or, if a command failed
    in the rollback, under the backup name. *)
Definition undone : assertion := fun fs own =>
  at3 (Some (DirectoryOf t)) old None fs own \/ (faulty h /\ at3 (Some (DirectoryOf t)) None old fs own).

Definition swapped : assertion := fun fs own =>
  fs !! dst = Some (DirectoryOf t) /\ fs !! stage = None /\ (~ faulty h -> fs !! backup = None) /\ own_paths own.

Lemma refuse_undone {A} (P : assertion) (Q : A -> assertion) name :
  (forall fs own, P fs own -> undone fs own) -> triple P (refuse name) Q undone recoverable.
Proof.
  intros H. eapply triple_bind with (R := fun _ => undone); [by apply triple_say|]. intros _. by apply triple_exit.
Qed.

Lemma distinct_ne : stage <> dst /\ stage <> backup /\ dst <> backup.
Proof. apply NoDup_cons in distinct as [H1 H2]. apply NoDup_cons in H2 as [H3 _]. set_solver. Qed.

(** Taking the old destination out of the way. *)
Lemma backup_spec v :
  old = Some v ->
  triple (at3 (Some (DirectoryOf t)) old None)
    (run! there := test_e h backup in
     if there then refuse (lit "backup_collision")
     else run! moved := complaining h (mv h dst backup) in if moved then pure tt else refuse (lit "backup_failed"))
    (fun _ => at3 (Some (DirectoryOf t)) None old) undone recoverable.
Proof.
  intros Ho. destruct distinct_ne as (N1 & N2 & N3).
  eapply triple_bind with (R := fun there fs own => there = false /\ at3 (Some (DirectoryOf t)) old None fs own).
  { apply triple_look3; [by left|]. by intros fs (_ & _ & ->). }
  intros []; [intros s [? _]; done|]. eapply triple_pre; [by intros fs own [_ H]|].
  eapply triple_bind; [apply triple_complaining, (mv_at3 dst backup _ _ _ (Some (DirectoryOf t)) None old v)|].
  - by left.
  - done.
  - set_solver.
  - set_solver.
  - intros fs (Hx & Hd & Hb). rewrite Hd, Hb. split_and!; [done|done|]. unfold at_paths.
    split_and!; by simplify_map_eq.
  - intros []; [by apply triple_pure|]. apply refuse_undone. intros fs own [_ H]. by left.
Qed.

(** The new directory in place; then the backup is removed. *)
Lemma rm_backup_spec (X : assertion) :
  triple (at3 None (Some (DirectoryOf t)) old) (rm_rf h backup) (fun _ => swapped) X recoverable.
Proof.
  destruct distinct_ne as (N1 & N2 & N3). apply triple_command.
  - apply at3_stable.
  - intros. eapply at3_recoverable; [|done]. by right; right.
  - intros fs own [(Hx & Hd & Hb) Ho]. cbn. unfold swapped. rewrite !lookup_delete_ne, lookup_delete_eq by done.
    split_and!; [done..|]. apply Forall_app. split; [done|]. constructor; [|done].
    intros q Hq. cbn. by rewrite lookup_delete_ne by (intros ->; set_solver).
  - intros fs own Hf [(Hx & Hd & Hb) Ho]. cbn. unfold swapped.
    assert (Hs : forall y, own_paths (own ++ [(fs, <[backup:=y]> fs)])).
    { intros y. apply Forall_app. split; [done|]. constructor; [|done]. intros q Hq. cbn.
      by rewrite lookup_insert_ne by (intros ->; set_solver). }
    assert (Hr : own_paths (own ++ [(fs, fs)])) by (apply Forall_app; by split; [|constructor; [intros q _|]]).
    destruct (fs !! backup) as [[]|]; rewrite ?lookup_insert_ne by done; by split_and!.
Qed.

Lemma install_free_spec b (X : assertion) :
  (old = None /\ b = None) \/ b = old ->
  triple (at3 (Some (DirectoryOf t)) None b) (complaining h (mv h stage dst))
    (fun ok => if ok then at3 None (Some (DirectoryOf t)) b else fun fs own => faulty h /\ at3 (Some (DirectoryOf t)) None b fs own) X recoverable.
Proof.
  intros Hb. destruct distinct_ne as (N1 & N2 & N3). apply triple_complaining, (mv_at3 stage dst _ _ _ _ _ _ (DirectoryOf t)).
  - destruct Hb as [[Ho ->]| ->]; [left|right; left]; by split.
  - done.
  - set_solver.
  - set_solver.
  - intros fs (Hx & Hd & Hbk). rewrite Hx, Hd. split_and!; [done..|]. unfold at_paths.
    split_and!; by simplify_map_eq.
Qed.

(** A dangling link is not looked through: the directory cannot replace it. *)
Lemma install_dangling_spec (X : assertion) :
  old = Some (Symlink ToNothing) ->
  triple (at3 (Some (DirectoryOf t)) old None) (complaining h (mv h stage dst))
    (fun ok => if ok then fun _ _ => False else at3 (Some (DirectoryOf t)) old None) X recoverable.
Proof.
  intros Ho. destruct distinct_ne as (N1 & N2 & N3). apply triple_complaining, triple_attempt; [apply at3_stable| | |].
  - intros. eapply at3_recoverable; [|done]. by left.
  - intros fs own Ha. pose proof Ha as [(Hx & Hd & Hb) _]. rewrite Hx. cbn. unfold place.
    rewrite lookup_delete_ne, Hd, Ho by done. eapply at3_snoc; [done|by rewrite <- Ho|by intros q _].
  - intros fs own _ Ha. eapply at3_snoc; [done|apply Ha|by intros q _].
Qed.

Lemma rollback_script_spec v :
  old = Some v ->
  triple (fun fs own => faulty h /\ at3 (Some (DirectoryOf t)) None old fs own)
    (run! restored := complaining h (mv h backup dst) in
     refuse (A := unit) (if restored then lit "install_failed" else lit "rollback_failed:" ++ backup))
    (fun _ => swapped) undone recoverable.
Proof.
  intros Ho. destruct distinct_ne as (N1 & N2 & N3). eapply triple_pre; [by intros fs own [_ H]|].
  eapply triple_bind; [apply triple_complaining, (mv_at3 backup dst _ _ _ (Some (DirectoryOf t)) old None v)|].
  - by right; left.
  - done.
  - set_solver.
  - set_solver.
  - intros fs (Hx & Hd & Hb). rewrite Hd, Hb. split_and!; [done|done|]. unfold at_paths.
    split_and!; by simplify_map_eq.
  - intros []; apply refuse_undone; intros fs own H; [by left|by right].
Qed.

Lemma swap_dir_spec :
  triple (at3 (Some (DirectoryOf t)) old None) (swap_dir h stage dst backup) (fun _ => swapped) undone recoverable.
Proof.
  assert (Hk : kept old None) by (by left).
  eapply triple_bind with (R := fun had fs own => had = exists_entry old /\ at3 (Some (DirectoryOf t)) old None fs own).
  { apply triple_look3; [done|]. by intros fs (_ & -> & _). }
  intros had. apply triple_fact. intros ->. destruct (exists_entry old) eqn:Ee.
  - assert (exists v, old = Some v) as [v Ho] by (destruct old; [by eexists|done]).
    eapply triple_seq; [by apply (backup_spec v)|].
    eapply triple_bind with (R := fun _ => at3 (Some (DirectoryOf t)) None old); [by apply triple_say|]. intros _.
    eapply triple_bind; [apply install_free_spec; by right|].
    intros []; [apply rm_backup_spec|by apply (rollback_script_spec v)].
  - eapply triple_bind with (R := fun _ => at3 (Some (DirectoryOf t)) old None); [by apply triple_pure|]. intros _.
    eapply triple_bind with (R := fun _ => at3 (Some (DirectoryOf t)) old None); [by apply triple_say|]. intros _.
    assert (Hr : triple (at3 (Some (DirectoryOf t)) old None)
      (run! restored := pure true in refuse (A := unit) (if restored : bool then lit "install_failed" else lit "rollback_failed:" ++ backup))
      (fun _ => swapped) undone recoverable).
    { eapply triple_bind with (R := fun _ => at3 (Some (DirectoryOf t)) old None); [by apply triple_pure|].
      intros r. apply refuse_undone. by left. }
    assert (old = None \/ old = Some (Symlink ToNothing)) as [Ho|Ho] by (destruct old as [[| |[]|]|]; auto; done).
    + rewrite Ho at 1. eapply triple_bind; [apply install_free_spec; by left|].
      intros []; [|eapply triple_pre; [|exact Hr]; intros fs own [_ H]; by rewrite Ho].
      apply triple_pure. intros fs own [(Hx & Hd & Hb) Hw]. by split_and!.
    + eapply triple_bind; [by apply install_dangling_spec|]. intros []; [by intros s []|exact Hr].
Qed.

(** ** The upload that may overwrite *)

Lemma at3_same x d b (fs : nodes) own : at3 x d b fs own -> at3 x d b fs (own ++ [(fs, fs)]).
Proof. intros Ha. eapply at3_snoc; [done|apply Ha|by intros q _]. Qed.

Lemma mkdir_parent_at3 x d b (X : assertion) : kept d b -> triple (at3 x d b) (mkdir_parent h) (fun _ => at3 x d b) X recoverable.
Proof.
  intros Hk. apply triple_attempt; [apply at3_stable|intros; by eapply at3_recoverable|..]; intros; by apply at3_same.
Qed.

Lemma test_e_at3 p x d b (X : assertion) : kept d b -> triple (at3 x d b) (test_e h p) (fun _ => at3 x d b) X recoverable.
Proof.
  intros Hk. apply triple_command; [apply at3_stable|intros; by eapply at3_recoverable|..]; intros; by apply at3_same.
Qed.

Lemma claim_stage_dir_spec no_entries :
  triple (at3 None old None) (claim_stage_dir h no_entries stage)
    (fun _ => at3 (Some (DirectoryOf no_entries)) old None) (at3 None old None) recoverable.
Proof.
  destruct distinct_ne as (N1 & N2 & N3). assert (Hk : kept old None) by (by left).
  eapply triple_bind; [by apply mkdir_parent_at3|]. intros made.
  eapply triple_bind with (R := fun ok : bool => if ok then at3 (Some (DirectoryOf no_entries)) old None else at3 None old None).
  { destruct made; [|by apply triple_pure]. apply triple_at3; [done|]. intros fs (Hx & Hd & Hb). rewrite Hx.
    split; [split_and!; by simplify_map_eq|]. intros q Hq. cbn. by rewrite lookup_insert_ne by (intros ->; set_solver). }
  intros []; [by apply triple_pure|].
  eapply triple_bind; [by apply test_e_at3|]. intros there.
  eapply triple_bind with (R := fun _ => at3 None old None); [by apply triple_say|]. intros _. by apply triple_exit.
Qed.

(** Some tree in the staging directory. *)
Definition part_staged : assertion := fun fs own => exists t', at3 (Some (DirectoryOf t')) old None fs own.

Lemma tar_extract_spec trees extracted t0 :
  triple (at3 (Some (DirectoryOf t0)) old None) (tar_extract h stage trees extracted)
    (fun ok fs own => if ok then extracted = true /\ at3 (Some (DirectoryOf (default t0 (last trees)))) old None fs own
                      else part_staged fs own) part_staged recoverable.
Proof.
  destruct distinct_ne as (N1 & N2 & N3). assert (Hk : kept old None) by (by left).
  revert t0. induction trees as [|t1 trees IH]; intros t0; cbn [tar_extract].
  { apply triple_pure. intros fs own Ha. destruct extracted; [by split|by exists t0]. }
  eapply triple_bind; [apply (triple_at3 _ _ _ (Some (DirectoryOf t1)) old None); [done|]|].
  { intros fs (Hx & Hd & Hb). rewrite Hx. split; [split_and!; by simplify_map_eq|].
    intros q Hq. cbn. by rewrite lookup_insert_ne by (intros ->; set_solver). }
  intros [].
  - replace (default t0 (last (t1 :: trees))) with (default t1 (last trees)) by (destruct trees as [|t2 trees]; [done|cbn [last]; by destruct (last (t2 :: trees)) eqn:E; [|apply last_None in E]]).
    apply IH.
  - apply triple_pure. intros fs own Ha. by exists t0.
Qed.

(** The script gave up: the destination is as it was, or at worst moved. *)
Definition gave_up : assertion := fun fs own =>
  ((fs !! dst = old /\ fs !! backup = None) \/ (faulty h /\ fs !! dst = None /\ fs !! backup = old)) /\
  (~ faulty h -> fs !! stage = None) /\ own_paths own.

(** What a failing body leaves, before the staging directory is removed. *)
Definition to_clean : assertion := fun fs own =>
  exists t', at3 (Some (DirectoryOf t')) old None fs own \/ (faulty h /\ at3 (Some (DirectoryOf t')) None old fs own).

Lemma clean_stage_spec : plain_in_quotes stage = true -> triple to_clean (trap_rm h (rm_rf h) stage) (fun _ => gave_up) gave_up recoverable.
Proof.
  intros Hp. destruct distinct_ne as (N1 & N2 & N3). unfold trap_rm. rewrite Hp.
  apply triple_command.
  - intros n fs own [t' [H|[Hf H]]]; exists t'; [left|right; split; [done|]]; by apply at3_stable.
  - intros fs own [t' [H|[_ H]]]; (eapply at3_recoverable; [|exact H]); [by left|by right; left].
  - intros fs own [t' H]. cbn. assert (Ho : own_paths (own ++ [(fs, delete stage fs)])).
    { apply Forall_app. split; [by destruct H as [[_ ?]|[_ [_ ?]]]|]. constructor; [|done].
      intros q Hq. cbn. by rewrite lookup_delete_ne by (intros ->; set_solver). }
    unfold gave_up. rewrite !lookup_delete_ne, lookup_delete_eq by done.
    by destruct H as [[(_ & Hd & Hb) _]|[Hf [(_ & Hd & Hb) _]]]; split_and!; auto.
  - intros fs own Hf [t' H]. cbn.
    assert (fs !! stage = Some (DirectoryOf t')) as -> by (by destruct H as [[(? & _) _]|[_ [(? & _) _]]]).
    assert (Ho : own_paths (own ++ [(fs, <[stage := DirectoryOf (residue h t')]> fs)])).
    { apply Forall_app. split; [by destruct H as [[_ ?]|[_ [_ ?]]]|]. constructor; [|done].
      intros q Hq. cbn. by rewrite lookup_insert_ne by (intros ->; set_solver). }
    unfold gave_up. rewrite !lookup_insert_ne by done.
    by destruct H as [[(_ & Hd & Hb) _]|[_ [(_ & Hd & Hb) _]]]; split_and!; auto.
Qed.

Lemma put_dir_overwrite_spec parent no_entries trees extracted :
  plain_in_quotes stage = true -> t = default no_entries (last trees) ->
  triple (at3 None old None) (put_dir_overwrite_script h no_entries parent dst stage backup trees extracted)
    (fun _ fs own => extracted = true /\ swapped fs own) gave_up recoverable.
Proof.
  intros Hp Ht. eapply triple_seq.
  { eapply triple_weaken; [apply (claim_stage_dir_spec no_entries)|done|done| |done].
    intros fs own [(Hx & Hd & Hb) Ho]. split; [left; by split|by split]. }
  apply triple_trap with (Y := to_clean); [|by apply clean_stage_spec].
  eapply triple_seq with (R := at3 (Some (DirectoryOf no_entries)) old None).
  { eapply triple_seq with (R := at3 (Some (DirectoryOf no_entries)) old None); by apply triple_say. }
  apply triple_seq with (R := fun fs own => extracted = true /\ at3 (Some (DirectoryOf t)) old None fs own).
  - apply triple_must, triple_complaining. eapply triple_weaken; [apply (tar_extract_spec trees extracted no_entries)|done|..].
    + intros [] fs own H; [by rewrite Ht|]. destruct H as [t' H]. exists t'. by left.
    + intros fs own [t' H]. exists t'. by left.
    + done.
  - apply triple_fact. intros He. eapply triple_weaken; [apply swap_dir_spec|done|by intros [] fs own H| |done].
    intros fs own [H|[Hf H]]; exists t; [by left|by right].
Qed.
End swap.

(** ** The upload into a new directory *)

Section fresh.
Context {T : Type} (h : host T) (dst : str) (old : option (entry T)).
Notation nodes := (gmap str (entry T)).
Notation history := (list (nodes * nodes)).
Notation assertion := (nodes -> history -> Prop).
Notation triple := (RemoteScript.triple h).

Hypothesis spared : forall n fs, others h n fs !! dst = fs !! dst.
Notation staged := (staged dst).

(** What was there stays; otherwise only this upload changed the path. *)
Definition old_kept : assertion := fun fs own => (is_Some old -> fs !! dst = old) /\ Forall (spares_all_but [dst]) own.

Definition not_created : assertion := fun fs own =>
  (is_Some old \/ ~ faulty h -> fs !! dst = old) /\ Forall (spares_all_but [dst]) own.

Lemma staged_same x (fs : nodes) own : staged x fs own -> staged x fs (own ++ [(fs, fs)]).
Proof. intros H. eapply staged_snoc; [done|apply H|by intros q _]. Qed.

Lemma claim_destination_spec no_entries :
  triple (staged old) (claim_destination_dir h no_entries dst)
    (fun _ fs own => old = None /\ staged (Some (DirectoryOf no_entries)) fs own) not_created old_kept.
Proof.
  assert (Hk : forall fs own, staged old fs own -> old_kept fs own) by (by intros fs own [H Ho]).
  assert (Hst : stable h (staged old)) by (by apply staged_stable).
  eapply triple_seq with (R := staged old); [apply triple_attempt; [done|done|intros fs own; apply (staged_same old)|intros fs own _; apply (staged_same old)]|].
  eapply triple_bind with (R := fun (made : bool) fs own => if made then old = None /\ staged (Some (DirectoryOf no_entries)) fs own else staged old fs own).
  - apply triple_attempt; [done|done| |intros fs own _; apply (staged_same old)]. intros fs own Hs. pose proof Hs as [Hd Ho].
    destruct (fs !! dst) eqn:E; [by apply staged_same|]. split; [done|].
    eapply staged_snoc; [done|by rewrite lookup_insert_eq|]. intros q Hq. cbn. by rewrite lookup_insert_ne by set_solver.
  - intros []; [by apply triple_pure|]. eapply triple_bind with (R := fun _ => staged old).
    { apply triple_command; [done|done|intros fs own; apply (staged_same old)|intros fs own _; apply (staged_same old)]. }
    intros there. eapply triple_bind with (R := fun _ => staged old); [by apply triple_say|]. intros _.
    apply triple_exit; [done|]. by intros fs own [H Ho].
Qed.

Definition some_tree : assertion := fun fs own => exists t', staged (Some (DirectoryOf t')) fs own.

Lemma tar_into_destination trees extracted t0 (X : assertion) :
  old = None ->
  triple (staged (Some (DirectoryOf t0))) (tar_extract h dst trees extracted)
    (fun ok fs own => if ok then extracted = true /\ staged (Some (DirectoryOf (default t0 (last trees)))) fs own
                      else some_tree fs own) X old_kept.
Proof.
  intros Hold. assert (Hk : forall x fs own, staged x fs own -> old_kept fs own) by (intros x fs own [H Ho]; split; [rewrite Hold; by intros []|done]).
  revert t0. induction trees as [|t1 trees IH]; intros t0; cbn [tar_extract].
  { apply triple_pure. intros fs own Ha. destruct extracted; [by split|by exists t0]. }
  eapply triple_bind with (R := fun ok : bool => staged (Some (DirectoryOf (if ok then t1 else t0)))).
  { apply triple_attempt; [by apply staged_stable|apply Hk| |intros fs own _; apply staged_same]. intros fs own Hs. pose proof Hs as [-> Ho].
    eapply staged_snoc; [done|by rewrite lookup_insert_eq|]. intros q Hq. cbn. by rewrite lookup_insert_ne by set_solver. }
  intros [].
  - replace (default t0 (last (t1 :: trees))) with (default t1 (last trees)) by (destruct trees as [|t2 trees]; [done|cbn [last]; by destruct (last (t2 :: trees)) eqn:E; [|apply last_None in E]]).
    apply IH.
  - apply triple_pure. intros fs own Ha. by exists t0.
Qed.

Lemma clean_destination_spec : plain_in_quotes dst = true -> old = None ->
  triple some_tree (trap_rm h (rm_rf h) dst) (fun _ => not_created) not_created old_kept.
Proof.
  intros Hp Hold. unfold trap_rm. rewrite Hp. apply triple_command.
  - intros n fs own [t' H]. exists t'. by apply (staged_stable h).
  - intros fs own [t' [_ Ho]]. split; [rewrite Hold; by intros []|done].
  - intros fs own [t' [_ Ho]]. cbn. split; [by rewrite lookup_delete_eq|]. apply Forall_app. split; [done|].
    constructor; [|done]. intros q Hq. cbn. by rewrite lookup_delete_ne by set_solver.
  - intros fs own Hf [t' [-> Ho]]. cbn. split; [rewrite Hold; by intros [[]|]|]. apply Forall_app. split; [done|].
    constructor; [|done]. intros q Hq. cbn. by rewrite lookup_insert_ne by set_solver.
Qed.

Lemma put_dir_new_spec parent no_entries trees extracted :
  plain_in_quotes dst = true ->
  triple (staged old) (put_dir_new_script h no_entries parent dst trees extracted)
    (fun _ fs own => old = None /\ extracted = true /\ staged (Some (DirectoryOf (default no_entries (last trees)))) fs own)
    not_created old_kept.
Proof.
  intros Hp. eapply triple_seq; [apply claim_destination_spec|]. apply triple_fact. intros Hold.
  apply triple_trap with (Y := some_tree); [|by apply clean_destination_spec].
  eapply triple_seq with (R := staged (Some (DirectoryOf no_entries))).
  { eapply triple_seq with (R := staged (Some (DirectoryOf no_entries))); by apply triple_say. }
  apply triple_must, triple_complaining. eapply triple_weaken; [by apply (tar_into_destination trees extracted no_entries some_tree)|done| |done|done].
  by intros [] fs own H.
Qed.
End fresh.

(** ** What the caller is told *)

Section answer.
Context {T : Type} (h : host T) (no_entries : T) (tr : transport) (dst id : str) (trees : list T) (extracted : bool).
Notation stage := (remote_temp_dir_sibling dst id).
Notation backup := (remote_backup_dir_sibling dst id).
Notation new := (Some (DirectoryOf (default no_entries (last trees)))).
Implicit Types fs : gmap str (entry T).

Lemma plain_in_quotes_app p q : plain_in_quotes (p ++ q) = plain_in_quotes p && plain_in_quotes q.
Proof. apply forallb_app. Qed.

Lemma dir_names_distinct : NoDup [stage; dst; backup].
Proof.
  assert (H1 : stage <> dst) by (by apply app_ne). assert (H2 : backup <> dst) by (by apply app_ne).
  assert (H3 : stage <> backup).
  { unfold remote_temp_dir_sibling, remote_backup_dir_sibling. intros E. apply app_inv_head in E. by vm_compute in E. }
  repeat constructor; set_solver.
Qed.

Definition upload_script (overwrite : bool) (parent : str) : script unit :=
  if overwrite then put_dir_overwrite_script h no_entries parent dst stage backup trees extracted
  else put_dir_new_script h no_entries parent dst trees extracted.

(** What holds of the directory however the script ends. *)
Definition safe (overwrite : bool) (old : option (entry T)) (s : shell_state T) : Prop :=
  Forall (spares_all_but [stage; dst; backup]) (own s) /\
  (overwrite = true -> kept old (default no_entries (last trees)) (files s !! dst) (files s !! backup)) /\
  (overwrite = false -> is_Some old -> files s !! dst = old).

Definition installed (overwrite : bool) (old : option (entry T)) (s : shell_state T) : Prop :=
  files s !! dst = new /\ extracted = true /\ (overwrite = false -> old = None).

Lemma upload_script_ends overwrite parent fs :
  (forall n fs p, p ∈ [stage; dst; backup] -> others h n fs !! p = fs !! p) ->
  plain_in_quotes stage = true -> fs !! stage = None -> fs !! backup = None ->
  let '(e, s) := upload_script overwrite parent (start fs) in
  safe overwrite (fs !! dst) s /\
  match e with
  | Done _ => installed overwrite (fs !! dst) s
  | Exit c => c <> 0 /\ (~ faulty h -> files s !! dst = fs !! dst)
  | Killed => mortal h
  end.
Proof.
  intros Hsp Hplain Hs Hb. set (old := fs !! dst). unfold upload_script, safe, installed. destruct overwrite.
  - assert (H0 : at3 stage dst backup None old None (files (start fs)) (own (start fs))) by (by split; [|constructor]).
    pose proof (put_dir_overwrite_spec h stage dst backup old _ Hsp dir_names_distinct parent no_entries trees extracted Hplain eq_refl _ H0) as H.
    destruct (put_dir_overwrite_script _ _ _ _ _ _ _ _ _) as [[[]|c|] s].
    + destruct H as (He & Hd & _ & _ & Ho). split_and!; try done. intros _. by right; right.
    + destruct H as (Hc & Hk & _ & Ho). split_and!; try done.
      * intros _. destruct Hk as [[Hd Hb']|(_ & Hd & Hb')]; [by left|by right; left].
      * intros Hf. by destruct Hk as [[Hd _]|[? _]].
    + destruct H as (Hm & Hk & Ho). by split_and!.
  - assert (Hsp' : forall n fs, others h n fs !! dst = fs !! dst) by (intros; apply Hsp; set_solver).
    assert (Hplain' : plain_in_quotes dst = true).
    { unfold remote_temp_dir_sibling in Hplain. rewrite !plain_in_quotes_app in Hplain. by bool_hyps. }
    assert (H0 : staged dst old (files (start fs)) (own (start fs))) by (by split; [|constructor]).
    pose proof (put_dir_new_spec h dst old Hsp' parent no_entries trees extracted Hplain' _ H0) as H.
    assert (Hown : forall l, Forall (spares_all_but (T := T) [dst]) l -> Forall (spares_all_but [stage; dst; backup]) l).
    { intros l Hl. eapply Forall_impl; [exact Hl|]. intros st. apply spares_weaken. set_solver. }
    destruct (put_dir_new_script _ _ _ _ _ _ _) as [[[]|c|] s].
    + destruct H as (Ho & He & Hd & Hw). rewrite Ho. split_and!; auto; try done.
    + destruct H as (Hc & Hk & Hw). split_and!; auto; try done.
    + destruct H as (Hm & Hk & Hw). split_and!; auto; done.
Qed.
End answer.

(** C19. A directory upload over exec-raw, while others leave the destination,
    the staging and the backup path alone: the script changes nothing else.
    However it ends, also when commands fail and when it is killed, the old
    destination is in place, or it is under the backup name with nothing in its
    place, or the complete new directory is in place; without overwrite an
    existing destination is never changed. A success means that the new
    directory is in place. After a reported failure with no failing command the
    destination is as it was, unless it was the local tar writer that failed:
    then the new directory may be in place. *)
Theorem put_dir_nothing_lost {T} (h : host T) (no_entries : T) (tr : transport) (remote_home dst id : str) (overwrite : bool)
    (meta : result (bool * Z) str) (trees : list T) (extracted : bool) (encoded : result TransferCounts SshMcpError)
    (fs : gmap str (entry T)) (stage := remote_temp_dir_sibling dst id) (backup := remote_backup_dir_sibling dst id)
    (Hspared : forall n fs p, p ∈ [stage; dst; backup] -> others h n fs !! p = fs !! p)
    (Hplain : plain_in_quotes stage = true) (Hstage : fs !! stage = None) (Hbackup : fs !! backup = None) :
  let new := default no_entries (last trees) in
  let '(answer, s) := put_dir_exec_raw h no_entries tr remote_home dst id overwrite meta trees extracted encoded fs in
  safe no_entries dst id trees overwrite (fs !! dst) s /\
  match answer with
  | Ok _ => reports tr -> files s !! dst = Some (DirectoryOf new) /\ extracted = true /\ (overwrite = false -> fs !! dst = None)
  | Err _ =>
      reports tr -> ~ mortal h -> ~ faulty h ->
      files s !! dst = fs !! dst \/ ((exists e, encoded = Err e) /\ files s !! dst = Some (DirectoryOf new))
  end.
Proof.
  intros new. unfold put_dir_exec_raw. fold stage backup.
  assert (Hstart : safe no_entries dst id trees overwrite (fs !! dst) (start fs)).
  { split_and!; [constructor|intros _; by left|done]. }
  destruct (let? _ := validate_remote_user_path _ _ in _) as [size|e]; [|split; [done|by intros; left]].
  pose proof (upload_script_ends h no_entries dst id trees extracted overwrite (remote_parent_dir dst) fs Hspared Hplain Hstage Hbackup) as H.
  unfold upload_script, run_script in *. fold stage backup in H. set (m := if overwrite then _ else _) in *.
  destruct (not_run tr) as [e|]; [split; [done|]; destruct encoded; intros; by left|].
  destruct (m (start fs)) as [e s]. destruct H as [Hsafe H].
  assert (Hfail : reports tr -> ~ mortal h -> ~ faulty h -> exit_status tr e <> Some 0 -> files s !! dst = fs !! dst).
  { intros (Hs & _) Hm Hf. unfold exit_status. rewrite Hs. destruct e as [[]|c|]; [done|intros _; by apply H|done]. }
  destruct (lost tr) as [err|] eqn:Hlost; [|destruct (ensure_remote_success _ _) as [[]|err] eqn:E].
  - destruct encoded; (split; [done|]); intros (_ & _ & ?); congruence.
  - assert (Hin : reports tr -> installed no_entries dst trees extracted overwrite (fs !! dst) s).
    { intros Hrep. assert (exit_status tr e = Some 0) as Ex.
      { apply ensure_remote_success_ok in E; [done|]. destruct Hrep as (Hs & Hk & _). cbn. unfold exit_status. rewrite Hs.
        destruct e; [by eexists..|]. by destruct (killed_status tr); [eexists|destruct Hk]. }
      apply accepted_done in Ex as ->; [done|done|by destruct e; [|destruct H|]]. }
    destruct encoded as [counts|encoder]; (split; [done|]); [exact Hin|]. intros Hrep _ _. right. split; [by eexists|]. by apply Hin.
  - assert (Hx : reports tr -> exit_status tr e <> Some 0) by (intros _ Ex; by rewrite ensure_remote_success_zero in E).
    destruct encoded; (split; [done|]); intros Hrep Hm Hf; left; auto.
Qed.

(** A directory with a symbolic link, sent over an existing one: the local
    writer refuses it half-way, the remote side takes the end of the input for
    the end of the archive, and the destination is replaced by the part that
    was sent although an error is reported. *)
Definition tree_host : host (list str) :=
  {| others := fun _ fs => fs; fault := fun _ => false; killed := fun _ => false; complaint := fun _ => [];
     put_in := fun name _ t => Some (name :: t); residue := fun t => t; stray := fun fs => fs |}.

Example put_dir_partial_after_encoder_error :
  let fs : gmap str (entry (list str)) := {[ lit "/srv/www" := DirectoryOf [lit "index.html"; lit "about.html"] ]} in
  let '(answer, s) := put_dir_exec_raw tree_host [] plain_transport (lit "/root") (lit "/srv/www") (lit "00ff") true (Ok (true, 0))
    [[lit "a.html"]] true (Err (InvalidParams (lit "symlinks are not supported by directory transfer"))) fs in
  answer = Err (InvalidParams (lit "symlinks are not supported by directory transfer")) /\
  files s = {[ lit "/srv/www" := DirectoryOf [lit "a.html"] ]}.
Proof. vm_compute. by split. Qed.

Lemma put_dir_nothing_lost_witness :
  let fs : gmap str (entry (list str)) := {[ lit "/srv/www" := DirectoryOf [lit "index.html"] ]} in
  let run := put_dir_exec_raw tree_host [] plain_transport (lit "/root") (lit "/srv/www") (lit "00ff") true (Ok (true, 0))
    [[]; [lit "a.html"]] true (Ok counts_zero) fs in
  files run.2 !! lit "/srv/www" = Some (DirectoryOf [lit "a.html"]).
Proof.
  intros fs run.
  pose proof (put_dir_nothing_lost tree_host [] plain_transport (lit "/root") (lit "/srv/www") (lit "00ff") true (Ok (true, 0))
    [[]; [lit "a.html"]] true (Ok counts_zero) fs (fun _ _ _ _ => eq_refl) eq_refl eq_refl eq_refl) as H.
  cbv zeta in H. fold run in H. destruct run as [answer s] eqn:E. destruct H as [_ H].
  destruct answer as [?|e]; [|by vm_compute in E; discriminate E].
  apply H. split; [reflexivity|split; [by eexists|reflexivity]].
Defined.
