(* ===== verification/Clients.v ===== *)
(** * External clients (src/transfer/openssh.rs, rsync.rs, process.rs, mod.rs)

    The command lines of sftp, scp and rsync, the proxy command for a jump
    host, and what their answers mean. Programs are started without a shell;
    the proxy command is read by a shell and the option [-e] of rsync is split
    into words by rsync: [WordReader] states what both guarantee. *)
From Stdlib Require Import ZArith String.
From stdpp Require Import base list.
From S2P Require Import Prelude Utf8 Errors TransferTypes Config Shell HostKeys Output Staging.

(** ** Options *)

Record TransferJumpOptions : Type := { tj_host : str; tj_port : Z; tj_user : str; tj_key_path : option str }.

Record TransferSshOptions : Type := {
  ts_host : str; ts_port : Z; ts_user : str; ts_key_path : option str; ts_host_key_checking : HostKeyCheckMode;
  ts_known_hosts : option str; ts_jump : option TransferJumpOptions
}.

(** src/server.rs *)
Definition transfer_ssh_options (c : Config) : TransferSshOptions := {|
  ts_host := host c; ts_port := port c; ts_user := user c; ts_key_path := key c;
  ts_host_key_checking := strict_host_key_checking c; ts_known_hosts := known_hosts c;
  ts_jump := (fun j => {| tj_host := j_host j; tj_port := j_port j; tj_user := j_user j; tj_key_path := j_key j |}) <$> jump c
|}.

(** Both endpoints have the same fields but for the type of the key path. *)
Record Endpoint (K : Type) : Type := {
  ep_host : str; ep_port : Z; ep_user : str; ep_key_path : K; ep_host_key_checking : HostKeyCheckMode;
  ep_known_hosts : option str; ep_jump : option TransferJumpOptions
}.
Arguments ep_host {_}. Arguments ep_port {_}. Arguments ep_user {_}. Arguments ep_key_path {_}.
Arguments ep_host_key_checking {_}. Arguments ep_known_hosts {_}. Arguments ep_jump {_}.

Definition OpenSshEndpoint : Type := Endpoint str.
Definition RsyncEndpoint : Type := Endpoint (option str).

Definition quote (value : str) : str := SQ :: escape_for_shell value ++ [SQ].

Definition null_known_hosts_path : str := lit "/dev/null".

(** Unix. *)
Definition openssh_proxy_command (target_host : str) (target_port : Z) (jump : TransferJumpOptions)
    (host_key_checking : HostKeyCheckMode) (known_hosts : option str) : option str :=
  key_path ← tj_key_path jump;
  let parts :=
    [lit "ssh"; lit "-i"; quote key_path; lit "-p"; show_uint (tj_port jump);
     lit "-o"; lit "BatchMode=yes"; lit "-o"; lit "PasswordAuthentication=no";
     lit "-o"; lit "KbdInteractiveAuthentication=no"; lit "-o"; lit "PreferredAuthentications=publickey";
     lit "-o"; lit "IdentitiesOnly=yes"; lit "-o"; lit "StrictHostKeyChecking=" ++ as_openssh_value host_key_checking] ++
    match host_key_checking with
    | No => [lit "-o"; lit "UserKnownHostsFile=/dev/null"]
    | Yes | AcceptNew =>
        match known_hosts with
        | Some path => [lit "-o"; quote (lit "UserKnownHostsFile=" ++ path)]
        | None => []
        end
    end ++
    [lit "-W"; quote (target_host ++ lit ":" ++ show_uint target_port);
     quote (tj_user jump ++ lit "@" ++ tj_host jump)] in
  Some (join [32] parts).

Definition endpoint_proxy {K} (e : Endpoint K) : option str :=
  jump ← ep_jump e;
  openssh_proxy_command (ep_host e) (ep_port e) jump (ep_host_key_checking e) (ep_known_hosts e).

(** ** sftp and scp *)

Definition sftp_quote_token (s : str) : str :=
  DQ :: flat_map (fun ch => if ch =? BSL then [BSL; BSL] else if ch =? DQ then [BSL; DQ] else [ch]) s ++ [DQ].

Definition scp_remote_spec (e : OpenSshEndpoint) (remote_path : str) : str :=
  ep_user e ++ lit "@" ++ ep_host e ++ lit ":'" ++ escape_for_shell remote_path ++ [SQ].

Definition common_ssh_options (e : OpenSshEndpoint) : list str :=
  [lit "-i"; ep_key_path e; lit "-o"; lit "BatchMode=yes"; lit "-o"; lit "PasswordAuthentication=no";
   lit "-o"; lit "KbdInteractiveAuthentication=no"; lit "-o"; lit "PreferredAuthentications=publickey";
   lit "-o"; lit "IdentitiesOnly=yes"; lit "-o"; lit "StrictHostKeyChecking=" ++ as_openssh_value (ep_host_key_checking e)] ++
  match ep_host_key_checking e with
  | No => [lit "-o"; lit "UserKnownHostsFile=" ++ null_known_hosts_path]
  | Yes | AcceptNew =>
      match ep_known_hosts e with Some path => [lit "-o"; lit "UserKnownHostsFile=" ++ path] | None => [] end
  end ++
  [lit "-o"; lit "LogLevel=ERROR"] ++
  match endpoint_proxy e with Some proxy => [lit "-o"; lit "ProxyCommand=" ++ proxy] | None => [] end.

(** The argument vectors, without the program's name. *)
Definition sftp_args (e : OpenSshEndpoint) : list str :=
  [lit "-P"; show_uint (ep_port e)] ++ common_ssh_options e ++ [lit "-b"; lit "-"; ep_user e ++ lit "@" ++ ep_host e].

Definition scp_args (e : OpenSshEndpoint) (args : list str) : list str :=
  [lit "-P"; show_uint (ep_port e)] ++ common_ssh_options e ++ args.

Definition scp_legacy_args (extra : list str) : list str := lit "-O" :: extra.
Definition scp_receive_args (extra : list str) : list str := lit "-T" :: extra.

(** What the four operations run: sftp's batch, or scp's arguments. *)
Definition sftp_put_batch (local remote : str) : str := lit "put " ++ sftp_quote_token local ++ [32] ++ sftp_quote_token remote ++ [NL].
Definition sftp_get_batch (remote local : str) : str := lit "get " ++ sftp_quote_token remote ++ [32] ++ sftp_quote_token local ++ [NL].
Definition sftp_put_dir_batch (local remote : str) : str :=
  lit "put -r " ++ sftp_quote_token (local ++ lit "/.") ++ [32] ++ sftp_quote_token remote ++ [NL].
Definition sftp_get_dir_batch (remote local : str) : str :=
  lit "get -r " ++ sftp_quote_token (remote ++ lit "/.") ++ [32] ++ sftp_quote_token local ++ [NL].
Definition scp_put_args (e : OpenSshEndpoint) (local remote : str) : list str := scp_args e (scp_legacy_args [local; scp_remote_spec e remote]).
Definition scp_get_args (e : OpenSshEndpoint) (remote local : str) : list str :=
  scp_args e (scp_legacy_args (scp_receive_args [scp_remote_spec e remote; local])).
Definition scp_put_dir_args (e : OpenSshEndpoint) (local remote : str) : list str :=
  scp_args e (scp_legacy_args [lit "-r"; local; scp_remote_spec e remote]).
Definition scp_get_dir_args (e : OpenSshEndpoint) (remote local : str) : list str :=
  scp_args e (scp_legacy_args (scp_receive_args [lit "-r"; scp_remote_spec e remote; local])).

(** ** rsync *)

Definition build_ssh_options (e : RsyncEndpoint) : str :=
  join [32]
    ([lit "-o"; lit "BatchMode=yes"; lit "-o"; lit "IdentitiesOnly=yes";
      lit "-o"; lit "StrictHostKeyChecking=" ++ as_openssh_value (ep_host_key_checking e)] ++
     match ep_host_key_checking e with
     | No => [lit "-o"; lit "UserKnownHostsFile=" ++ null_known_hosts_path]
     | Yes | AcceptNew =>
         match ep_known_hosts e with
         | Some path => [lit "-o"; lit "UserKnownHostsFile=" ++ quote path]
         | None => []
         end
     end ++
     [lit "-o"; lit "LogLevel=ERROR"] ++
     (if negb (ep_port e =? 22) then [lit "-p"; show_uint (ep_port e)] else []) ++
     match ep_key_path e with Some key => [lit "-i"; quote key] | None => [] end ++
     match endpoint_proxy e with Some proxy => [lit "-o"; quote (lit "ProxyCommand=" ++ proxy)] | None => [] end).

Definition rsync_remote_spec (e : RsyncEndpoint) (remote_path : str) : str := ep_user e ++ lit "@" ++ ep_host e ++ lit ":" ++ remote_path.

Definition rsync_args (e : RsyncEndpoint) (o : RsyncOptions) (src dst : str) : list str :=
  [lit "--archive"; lit "--checksum"; lit "--inplace"; lit "--partial"; lit "--stats"] ++
  (if compress o then [lit "--compress"] else []) ++
  (if delete_extra o then [lit "--delete"] else []) ++
  [lit "-e"; lit "ssh " ++ build_ssh_options e; src; dst].

(** One line of [--stats]: files, bytes, and whether the transferred files
    were found. *)
Definition stats_line (st : Z * Z * bool) (line : str) : Z * Z * bool :=
  let '(files, bytes, found) := st in
  match strip_prefix (lit "Number of regular files transferred: ") line with
  | Some rest => match parse_uint U64_MAX rest with Some n => (n, bytes, true) | None => st end
  | None =>
      match strip_prefix (lit "Number of files: ") line with
      | Some rest =>
          if found then st
          else match parse_uint U64_MAX (first_field (trim_start rest)) with Some n => (n, bytes, found) | None => st end
      | None =>
          match strip_prefix (lit "Total transferred file size: ") line with
          | Some rest =>
              match parse_uint U64_MAX (List.filter is_ascii_digit rest) with Some n => (files, n, found) | None => st end
          | None => st
          end
      end
  end.

Definition parse_rsync_stats (stdout : str) : TransferCounts :=
  let '(files, bytes, _) := foldl stats_line (0, 0, false) (str_lines stdout) in
  {| c_bytes := bytes; c_files := files; c_directories := 0 |}.

(** ** Running a client (src/transfer/process.rs) *)

(** How the wait for a child ends. *)
Inductive child_end : Type :=
  | ChildExited (status : option Z)
  | ChildWaitFailed (msg : str)
  | ChildTimedOut
  | ChildCancelled.

Record CapturedOutput : Type := { p_status : option Z; p_stdout : bytes; p_stderr : bytes }.

(** The answer, and whether the process group was killed. [out], [err]: the
    results of the tasks that read the pipes ([None]: the task panicked). *)
Definition wait_child_with_timeout (timeout_ms : Z) (e : child_end) (out err : option (result bytes str)) :
    result CapturedOutput SshMcpError * bool :=
  match e with
  | ChildWaitFailed m => (Err (Io m), false)
  | ChildTimedOut => (Err (Timeout timeout_ms), true)
  | ChildCancelled => (Err (Connection (lit "transfer cancelled")), true)
  | ChildExited status =>
      (match out with
       | None => Err (Connection (lit "stdout task join failed"))
       | Some (Err m) => Err (Io m)
       | Some (Ok stdout) =>
           match err with
           | None => Err (Connection (lit "stderr task join failed"))
           | Some (Err m) => Err (Io m)
           | Some (Ok stderr) => Ok {| p_status := status; p_stdout := stdout; p_stderr := stderr |}
           end
       end, false)
  end.

(** How the writing of sftp's batch to its standard input ends. *)
Inductive batch_end : Type := BatchWritten | BatchFailed (msg : str) | BatchTimedOut | BatchCancelled.

(** Anything but success kills the process group. *)
Definition write_batch (timeout_ms : Z) (b : batch_end) : result unit SshMcpError :=
  match b with
  | BatchWritten => Ok tt
  | BatchFailed m => Err (Io m)
  | BatchTimedOut => Err (Timeout timeout_ms)
  | BatchCancelled => Err (Connection (lit "transfer cancelled"))
  end.

(** One run of a program: how starting it failed, if it did (was the program
    missing, and the error's text), the batch, and the rest. *)
Record child_run : Type := {
  start_failure : option (bool * str); batch : batch_end; ended : child_end; read_out : option (result bytes str); read_err : option (result bytes str)
}.

Definition transport_debug (t : TransferTransport) : str :=
  match t with ExecRaw => lit "ExecRaw" | Sftp => lit "Sftp" | Scp => lit "Scp" | Rsync => lit "Rsync" end.

(** A program that could not be started: it is missing, or another error. *)
Definition classify_spawn_error_with_reason (not_found : bool) (msg : str) (transport : TransferTransport) (reason : str) : SshMcpError :=
  if not_found then ConfigError (lit "transport " ++ transport_debug transport ++ lit " unsupported: " ++ reason) else Io msg.

Definition openssh_spawn_error (transport : TransferTransport) (not_found : bool) (msg : str) : SshMcpError :=
  classify_spawn_error_with_reason not_found msg transport
    (lit "missing local OpenSSH binary '" ++ match transport with Sftp => lit "sftp" | _ => lit "scp" end ++ lit "'").

Definition rsync_spawn_error (not_found : bool) (msg : str) : SshMcpError :=
  classify_spawn_error_with_reason not_found msg Rsync (lit "missing local rsync binary").

Definition success_status (status : option Z) : bool := bool_decide (status = Some 0).

Definition classify_openssh_failure (status : option Z) (stderr : str) : SshMcpError :=
  Connection (lit "OpenSSH transport failed: exit_code=" ++ show_exit status ++ lit "; stderr=" ++ trim stderr).

Section run.
Context (timeout_ms : Z).

(** Start, then wait. *)
Definition run_child (spawn_error : bool -> str -> SshMcpError) (r : child_run) : result CapturedOutput SshMcpError :=
  match start_failure r with
  | Some (not_found, msg) => Err (spawn_error not_found msg)
  | None => (wait_child_with_timeout timeout_ms (ended r) (read_out r) (read_err r)).1
  end.

Definition run_sftp_batch (r : child_run) : result CapturedOutput SshMcpError :=
  match start_failure r with
  | Some (not_found, msg) => Err (openssh_spawn_error Sftp not_found msg)
  | None => let? _ := write_batch timeout_ms (batch r) in run_child (openssh_spawn_error Sftp) r
  end.

Definition run_scp (r : child_run) : result CapturedOutput SshMcpError := run_child (openssh_spawn_error Scp) r.

Definition check_openssh (out : CapturedOutput) : result unit SshMcpError :=
  if success_status (p_status out) then Ok tt
  else Err (classify_openssh_failure (p_status out) (from_utf8_lossy (p_stderr out))).

(** What the four operations do with the client: run it once. *)
Definition run_openssh_client (transport : TransferTransport) (r : child_run) : result unit SshMcpError :=
  let? out := match transport with Sftp => run_sftp_batch r | _ => run_scp r end in
  check_openssh out.

(** [str::to_lowercase]. *)
Context (to_lowercase : str -> str).

Definition mentions (stderr : str) (what : list str) : bool := existsb (fun w => contains w (to_lowercase stderr)) what.

Definition classify_rsync_failure (status : option Z) (stderr : str) : SshMcpError :=
  if mentions stderr [lit "rsync: not found"; lit "rsync: command not found"; lit "could not find rsync"] then
    Connection (lit "rsync not found on remote host after preflight")
  else if mentions stderr [lit "connection refused"; lit "connection timed out"; lit "no route to host"; lit "network is unreachable"] then
    Connection (lit "rsync failed: network error; stderr=" ++ trim stderr)
  else if mentions stderr [lit "permission denied"; lit "access denied"] then
    Connection (lit "rsync failed: permission denied; stderr=" ++ trim stderr)
  else Connection (lit "rsync failed: exit_code=" ++ show_exit status ++ lit "; stderr=" ++ trim stderr).

Definition run_rsync (r : child_run) : result TransferCounts SshMcpError :=
  let? out := run_child rsync_spawn_error r in
  if success_status (p_status out) then Ok (parse_rsync_stats (from_utf8_lossy (p_stdout out)))
  else Err (classify_rsync_failure (p_status out) (from_utf8_lossy (p_stderr out))).

(** ** Preflight *)

Definition check_local_ssh (transport : TransferTransport) (r : child_run) : result unit SshMcpError :=
  let? out := run_child (fun not_found msg =>
    classify_spawn_error_with_reason not_found msg transport (lit "missing local OpenSSH binary 'ssh'")) r in
  if success_status (p_status out) then Ok tt
  else Err (ConfigError (lit "transport " ++ transport_debug transport ++ lit " unsupported: local 'ssh -V' failed")).

(** [preflight] of openssh.rs: [ssh -V] for a jump host, then [sftp] with the
    batch [quit], or [scp -V], whose exit status does not matter. *)
Definition openssh_preflight (e : OpenSshEndpoint) (transport : TransferTransport) (ssh client : child_run) : result unit SshMcpError :=
  let? _ := match ep_jump e with Some _ => check_local_ssh transport ssh | None => Ok tt end in
  match transport with
  | Sftp => let? out := run_sftp_batch client in check_openssh out
  | _ => let? _ := run_child (openssh_spawn_error Scp) client in Ok tt
  end.

Definition check_local_rsync (r : child_run) : result unit SshMcpError :=
  let? out := run_child rsync_spawn_error r in
  if success_status (p_status out) then Ok tt else Err (Connection (lit "rsync --version failed")).

(** The answer of [command -v rsync] on the remote host. *)
Definition check_remote_rsync (answer : result CommandOutput SshMcpError) : result bool SshMcpError :=
  let? out := answer in
  Ok (success_status (exit_code out) && negb (str_eqb (trim (stdout out)) [])).

(** The first part of [run_transfer] of rsync.rs. *)
Definition rsync_preflight (e : RsyncEndpoint) (ssh local : child_run) (remote : result CommandOutput SshMcpError) : result unit SshMcpError :=
  let? _ := match ep_jump e with Some _ => check_local_ssh Rsync ssh | None => Ok tt end in
  let? _ := check_local_rsync local in
  let? found := check_remote_rsync remote in
  if (found : bool) then Ok tt else Err (ConfigError (lit "transport Rsync unsupported: rsync not found on remote host")).
End run.

(** ** Reading the command texts

    What POSIX shells and rsync's [-e] have in common: blanks separate words,
    single and double quotes keep what is between them, a quote that follows a
    closed part is not the same character (rsync reads a doubled quote as one),
    and the characters of options and numbers stand for themselves. *)
Definition at_blank (s : str) : Prop := s = [] \/ exists r, s = 32 :: r.
Definition option_char (c : char) : bool := is_ascii_alnum c || existsb (Z.eqb c) [45; 47; 61].

Class WordReader (word : str -> str -> str -> Prop) : Prop := {
  reads_stop s : at_blank s -> word s [] s;
  reads_plain c s v r : option_char c = true -> word s v r -> word (c :: s) (c :: v) r;
  reads_squoted t s v r : SQ ∉ t -> head s <> Some SQ -> word s v r -> word (SQ :: t ++ SQ :: s) (t ++ v) r;
  reads_quote s v r : head s <> Some DQ -> word s v r -> word (DQ :: SQ :: DQ :: s) (SQ :: v) r;
  reads_fun s v r v' r' : word s v r -> word s v' r' -> v = v' /\ r = r'
}.

(** [words word s ws]: the text is the words, separated by blanks. *)
Inductive words (word : str -> str -> str -> Prop) : str -> list str -> Prop :=
  | words_end : words word [] []
  | words_blank s ws : words word s ws -> words word (32 :: s) ws
  | words_word s v r ws : ~ at_blank s -> word s v r -> at_blank r -> words word r ws -> words word s (v :: ws).

Section reader.
Context `{R : WordReader word}.

(** [p] is the text of one word whose value is [v]. *)
Definition word_text (p v : str) : Prop :=
  ~ at_blank p /\ forall rest, at_blank rest -> word (p ++ rest) v rest.

Lemma at_blank_app p rest : p <> [] -> at_blank (p ++ rest) -> at_blank p.
Proof. intros Hp [H|[r H]]; destruct p as [|c p]; simplify_eq/=. by right; eexists. Qed.

Lemma words_join parts values : Forall2 word_text parts values -> words word (join [32] parts) values.
Proof.
  induction 1 as [|p v parts values [Hp Hw] H IH]; [constructor|]. assert (Hne : p <> []) by (intros ->; apply Hp; by left).
  destruct parts as [|q parts].
  - inversion H; subst. cbn [join]. eapply words_word with (r := []); [done|rewrite <- (app_nil_r p); apply Hw; by left|by left|constructor].
  - change (join [32] (p :: q :: parts)) with (p ++ 32 :: join [32] (q :: parts)).
    eapply words_word with (r := 32 :: join [32] (q :: parts)); [by intros ?%at_blank_app|apply Hw; by right; eexists|by right; eexists|].
    by apply words_blank.
Qed.

Lemma plain_app t s v r : forallb option_char t = true -> word s v r -> word (t ++ s) (t ++ v) r.
Proof.
  intros Ht Hs. induction t as [|c t IH]; [done|]. cbn in *. apply andb_true_iff in Ht as [Hc Ht]. apply reads_plain; auto.
Qed.

Lemma at_blank_head s c : at_blank s -> c <> 32 -> head s <> Some c.
Proof. by intros [->|[r ->]] Hc [=]. Qed.

(** A quoted value, whatever characters it holds. *)
Lemma quoted_reads s rest : at_blank rest -> word (SQ :: escape_for_shell s ++ SQ :: rest) s rest.
Proof.
  intros Hr. remember (length s) as n eqn:Hn. revert s Hn. induction n as [n IH] using lt_wf_ind. intros s ->.
  destruct (split_at_char SQ s) as [Hs|(t & u & -> & Ht)].
  - rewrite escape_no_quote by done. rewrite <- (app_nil_r s) at 2.
    apply reads_squoted; [done|by apply at_blank_head|by apply reads_stop].
  - rewrite escape_at_quote by done. rewrite <- app_assoc. cbn [app].
    apply reads_squoted; [done|done|]. change (SQ :: u) with ([SQ] ++ u). apply reads_quote; [done|].
    apply (IH (length u)); [|done]. rewrite length_app. cbn. lia.
Qed.

Lemma plain_text t : forallb option_char t = true -> t <> [] -> word_text t t.
Proof.
  intros Ht Hne. split.
  - intros [->|[r ->]]; [done|]. by cbn in Ht.
  - intros rest Hr. rewrite <- (app_nil_r t) at 2. apply plain_app; [done|by apply reads_stop].
Qed.

Lemma quote_text s : word_text (quote s) s.
Proof.
  split; [by intros [|[]]|]. intros rest Hr. unfold quote. cbn [app]. rewrite <- app_assoc. by apply quoted_reads.
Qed.

Lemma plain_quote_text t s : forallb option_char t = true -> t <> [] -> word_text (t ++ quote s) (t ++ s).
Proof.
  intros Ht Hne. split.
  - intros H%at_blank_app; [|done]. by apply (plain_text t).
  - intros rest Hr. rewrite <- app_assoc. apply plain_app; [done|]. by apply quote_text.
Qed.

Lemma number_text n : 0 <= n -> word_text (show_uint n) (show_uint n).
Proof.
  intros Hn. apply plain_text.
  - apply forallb_forall. intros c Hc%list_elem_of_In. pose proof (show_uint_digits n Hn) as H. rewrite Forall_forall in H.
    specialize (H c Hc). unfold option_char, is_ascii_alnum. by rewrite H, !orb_true_r.
  - unfold show_uint. destruct (show_digits_head (S (Z.to_nat (Z.log2 n))) n [] ltac:(done) Hn) as (d & r & -> & _). done.
Qed.
End reader.

(** A POSIX shell, where an equals sign is ordinary in an argument. *)
Lemma shell_reads word : ShellQuoting word -> (forall s v r, word s v r -> word (61 :: s) (61 :: v) r) -> WordReader word.
Proof.
  intros Q Heq. split.
  - intros s [->|[r ->]]; by apply word_stop.
  - intros c s v r Hc Hs. destruct (bare_char c) eqn:E; [by apply word_bare|].
    assert (c = 61) as ->; [|by apply Heq].
    unfold option_char, bare_char in *. cbn [existsb] in *. destruct (is_ascii_alnum c); [done|].
    rewrite !orb_false_iff, !orb_true_iff, !Z.eqb_eq, !Z.eqb_neq in *. cbn [orb] in *. intuition (try done; lia).
  - intros. by apply word_squote.
  - intros s v r _ Hs. by apply (word_dquote [SQ]).
  - apply word_fun.
Qed.

(** How rsync's manual describes the splitting of [-e], executable. *)
Inductive split_mode : Type := Plain | Quoted (q : char).

Fixpoint split_word (m : split_mode) (s : str) : option (str * str) :=
  match s with
  | [] => match m with Plain => Some ([], []) | Quoted _ => None end
  | c :: s' =>
      let keep m' := '(v, r) ← split_word m' s'; Some (c :: v, r) in
      match m with
      | Plain =>
          if (c =? SQ) || (c =? DQ) then split_word (Quoted c) s'
          else if c =? 32 then Some ([], s) else keep Plain
      | Quoted q =>
          if c =? q then
            match s' with
            | d :: s'' => if d =? q then '(v, r) ← split_word (Quoted q) s''; Some (c :: v, r) else split_word Plain s'
            | [] => Some ([], [])
            end
          else keep (Quoted q)
      end
  end.

Definition rsync_word (s v r : str) : Prop := split_word Plain s = Some (v, r).

Lemma split_closing q t s v r :
  q ∉ t -> head s <> Some q -> split_word Plain s = Some (v, r) -> split_word (Quoted q) (t ++ q :: s) = Some (t ++ v, r).
Proof.
  intros Ht Hq Hs. induction t as [|c t IH]; cbn [split_word app].
  - rewrite Z.eqb_refl. destruct s as [|d s]; [done|]. destruct (d =? q) eqn:E; [|done]. bool_hyps. by subst.
  - apply not_elem_of_cons in Ht as [Hc Ht]. destruct (c =? q) eqn:E; [bool_hyps; congruence|]. by rewrite (IH Ht).
Qed.

#[export] Instance rsync_reads : WordReader rsync_word.
Proof.
  unfold rsync_word. split.
  - by intros s [->|[r ->]].
  - intros c s v r Hc Hs. cbn [split_word].
    assert (forall d, option_char d = false -> (c =? d) = false) as Hne.
    { intros d Hd. destruct (c =? d) eqn:E; [|done]. bool_hyps. subst. congruence. }
    by rewrite (Hne SQ), (Hne DQ), (Hne 32), Hs.
  - intros t s v r Ht Hh Hs. cbn [split_word]. by apply split_closing.
  - intros s v r Hh Hs. cbn [split_word]. by apply (split_closing DQ [SQ]); [by intros ?%list_elem_of_singleton|..].
  - intros; simplify_eq. done.
Qed.

(** ** The command texts *)

(** The values of the words of the proxy command and of rsync's [-e]. *)
Definition known_hosts_option (m : HostKeyCheckMode) (known_hosts : option str) : list str :=
  match m, known_hosts with
  | No, _ => [lit "-o"; lit "UserKnownHostsFile=/dev/null"]
  | _, Some path => [lit "-o"; lit "UserKnownHostsFile=" ++ path]
  | _, None => []
  end.

Definition proxy_argv {K} (e : Endpoint K) (jump : TransferJumpOptions) (key_path : str) : list str :=
  [lit "ssh"; lit "-i"; key_path; lit "-p"; show_uint (tj_port jump);
   lit "-o"; lit "BatchMode=yes"; lit "-o"; lit "PasswordAuthentication=no";
   lit "-o"; lit "KbdInteractiveAuthentication=no"; lit "-o"; lit "PreferredAuthentications=publickey";
   lit "-o"; lit "IdentitiesOnly=yes"; lit "-o"; lit "StrictHostKeyChecking=" ++ as_openssh_value (ep_host_key_checking e)] ++
  known_hosts_option (ep_host_key_checking e) (ep_known_hosts e) ++
  [lit "-W"; ep_host e ++ lit ":" ++ show_uint (ep_port e); tj_user jump ++ lit "@" ++ tj_host jump].

Definition rsync_ssh_argv (e : RsyncEndpoint) : list str :=
  [lit "ssh"; lit "-o"; lit "BatchMode=yes"; lit "-o"; lit "IdentitiesOnly=yes";
   lit "-o"; lit "StrictHostKeyChecking=" ++ as_openssh_value (ep_host_key_checking e)] ++
  known_hosts_option (ep_host_key_checking e) (ep_known_hosts e) ++
  [lit "-o"; lit "LogLevel=ERROR"] ++
  (if negb (ep_port e =? 22) then [lit "-p"; show_uint (ep_port e)] else []) ++
  match ep_key_path e with Some key => [lit "-i"; key] | None => [] end ++
  match endpoint_proxy e with Some proxy => [lit "-o"; lit "ProxyCommand=" ++ proxy] | None => [] end.

Ltac word_texts :=
  repeat first
    [ apply Forall2_app
    | constructor
    | apply quote_text
    | apply plain_quote_text; [vm_compute; reflexivity|discriminate]
    | apply number_text; lia
    | apply plain_text; [vm_compute; reflexivity|discriminate] ].

(** The two command texts for the external clients say what they should,
    whatever characters paths, users and hosts have: read by a POSIX shell (or
    anything that splits words like one), the proxy command is exactly [ssh]
    with the jump host's key, port and user, batch mode without passwords, the
    host key policy, and the target's address; and split by rsync, the value of
    [-e] is exactly [ssh] with the target's key, port and host key policy and
    the proxy command as one option. *)
Theorem client_command_texts word (R : WordReader word) (e : RsyncEndpoint)
    (Hport : 0 <= ep_port e) (Hjump : forall j, ep_jump e = Some j -> 0 <= tj_port j) :
  (forall proxy, endpoint_proxy e = Some proxy ->
     exists jump key_path, ep_jump e = Some jump /\ tj_key_path jump = Some key_path /\
       words word proxy (proxy_argv e jump key_path)) /\
  words word (lit "ssh " ++ build_ssh_options e) (rsync_ssh_argv e).
Proof.
  split.
  - intros proxy Hp. unfold endpoint_proxy in Hp. destruct (ep_jump e) as [jump|]; [|done].
    change (openssh_proxy_command (ep_host e) (ep_port e) jump (ep_host_key_checking e) (ep_known_hosts e) = Some proxy) in Hp.
    specialize (Hjump _ eq_refl). unfold openssh_proxy_command in Hp.
    destruct (tj_key_path jump) as [key_path|] eqn:Ek; [|done]. apply (inj Some) in Hp as <-.
    exists jump, key_path. split_and!; [done|done|]. apply words_join. unfold proxy_argv, known_hosts_option.
    destruct (ep_host_key_checking e), (ep_known_hosts e); word_texts.
  - unfold build_ssh_options, rsync_ssh_argv. match goal with |- words _ (_ ++ join _ (?p ++ ?ps)) _ =>
      change (lit "ssh " ++ join [32] (p ++ ps)) with (join [32] (lit "ssh" :: p ++ ps)) end.
    apply words_join. unfold known_hosts_option.
    destruct (ep_host_key_checking e), (ep_known_hosts e), (negb (ep_port e =? 22)), (ep_key_path e), (endpoint_proxy e); word_texts.
Qed.

Definition example_endpoint : RsyncEndpoint := {|
  ep_host := lit "db"; ep_port := 2222; ep_user := lit "ops"; ep_key_path := Some (lit "/home/o'neil/my key");
  ep_host_key_checking := AcceptNew; ep_known_hosts := Some (lit "/tmp/known hosts");
  ep_jump := Some {| tj_host := lit "bastion"; tj_port := 22; tj_user := lit "jump"; tj_key_path := Some (lit "/k'2") |}
|}.

Lemma client_command_texts_witness :
  words rsync_word (lit "ssh " ++ build_ssh_options example_endpoint) (rsync_ssh_argv example_endpoint).
Proof. refine (proj2 (client_command_texts rsync_word _ example_endpoint _ _)); [vm_compute; discriminate|]. intros j [= <-]. vm_compute. discriminate. Defined.

(** What [--stats] prints, with and without the line of transferred files. *)
Example stats_both :
  parse_rsync_stats (lit "Number of files: 7 (reg: 3, dir: 4)
Number of regular files transferred: 2
Total transferred file size: 1,234,567 bytes
") = {| c_bytes := 1234567; c_files := 2; c_directories := 0 |}.
Proof. vm_compute. reflexivity. Qed.
