(* ===== verification/Walk.v ===== *)
(** * Counting a local tree (src/transfer/walk.rs)

    The walk that counts what a directory holds and refuses links and special
    files, over the trees of Tar, which do not change meanwhile. A directory
    that cannot be listed, or an entry that cannot be examined, is a fault at
    its path. *)
From Stdlib Require Import ZArith String.
From stdpp Require Import base list.
From S2P Require Import Prelude Errors TransferTypes TarHeader Tar TarTree.

Notation TransferCounts := TransferTypes.TransferCounts.
Notation total_of b f d := {| TransferTypes.c_bytes := b; TransferTypes.c_files := f; TransferTypes.c_directories := d |}.

Definition walk_symlink_error : SshMcpError := InvalidParams (lit "symlinks are not supported by directory transfer").
Definition walk_other_error : SshMcpError := InvalidParams (lit "unsupported file type in directory transfer").
Definition not_directory_error : SshMcpError := InvalidParams (lit "local_path is not a directory").

Notation dir_entries := (list (bytes * lnode)) (only parsing).
Notation walk_stack := (list (list bytes * list (bytes * lnode))) (only parsing).

Section walk.
Context (entry_fault list_fault : list bytes -> option str).

(** One entry; a directory is put on the stack. *)
Definition walk_entry (dir : list bytes) (e : bytes * lnode) (st : TransferCounts * walk_stack) :
    result (TransferCounts * walk_stack) SshMcpError :=
  let '(total_of b f d, stack) := st in
  let p := dir ++ [fst e] in
  match entry_fault p with
  | Some m => Err (Io m)
  | None =>
      match snd e with
      | LSymlink => Err walk_symlink_error
      | LDir _ es => Ok (total_of b f (d + 1), (p, es) :: stack)
      | LFile _ len _ => Ok (total_of (b + len) (f + 1) d, stack)
      | LOther => Err walk_other_error
      end
  end.

Fixpoint walk_entries (dir : list bytes) (es : dir_entries) (st : TransferCounts * walk_stack) :
    result (TransferCounts * walk_stack) SshMcpError :=
  match es with
  | [] => Ok st
  | e :: es => let? st := walk_entry dir e st in walk_entries dir es st
  end.

Fixpoint walk_loop (fuel : nat) (stack : walk_stack) (counts : TransferCounts) : option (result TransferCounts SshMcpError) :=
  match stack with
  | [] => Some (Ok counts)
  | (dir, es) :: stack =>
      match fuel with
      | O => None
      | S fuel =>
          match list_fault dir with
          | Some m => Some (Err (Io m))
          | None =>
              match walk_entries dir es (counts, stack) with
              | Err e => Some (Err e)
              | Ok (counts, stack) => walk_loop fuel stack counts
              end
          end
      end
  end.

(** The number of directories, one round of the loop each. *)
Fixpoint directories (x : lnode) : nat :=
  match x with LDir _ es => S (sum_list (map (fun e => directories (snd e)) es)) | _ => 0 end.

Definition count_dir_no_symlinks (root : lnode) : option (result TransferCounts SshMcpError) :=
  match entry_fault [] with
  | Some m => Some (Err (Io m))
  | None =>
      match root with
      | LSymlink => Some (Err walk_symlink_error)
      | LDir _ es => walk_loop (directories root) [([], es)] counts_zero
      | _ => Some (Err not_directory_error)
      end
  end.

(** ** What the counts should be *)

Definition add_counts (a b : TransferCounts) : TransferCounts :=
  total_of (TransferTypes.c_bytes a + TransferTypes.c_bytes b) (TransferTypes.c_files a + TransferTypes.c_files b)
    (TransferTypes.c_directories a + TransferTypes.c_directories b).

(** A tree's files, their bytes and its directories, the root included. *)
Fixpoint total (x : lnode) : TransferCounts :=
  match x with
  | LFile _ len _ => total_of len 1 0
  | LDir _ es => foldr (fun e => add_counts (total (snd e))) (total_of 0 0 1) es
  | _ => counts_zero
  end.

Definition contents (es : dir_entries) : TransferCounts := foldr (fun e => add_counts (total (snd e))) counts_zero es.

(** Files and directories only, all of which can be examined and listed. *)
Fixpoint countable (p : list bytes) (x : lnode) : bool :=
  match entry_fault p with
  | Some _ => false
  | None =>
      match x with
      | LFile _ _ _ => true
      | LDir _ es =>
          match list_fault p with
          | Some _ => false
          | None => forallb (fun e => countable (p ++ [fst e]) (snd e)) es
          end
      | _ => false
      end
  end.

Definition frame_countable (f : list bytes * list (bytes * lnode)) : bool :=
  match list_fault (fst f) with
  | Some _ => false
  | None => forallb (fun e => countable (fst f ++ [fst e]) (snd e)) (snd f)
  end.

Definition frame_dirs (es : dir_entries) : nat := sum_list (map (fun e => directories (snd e)) es).
Definition stack_total (stack : walk_stack) : TransferCounts := foldr (fun f => add_counts (contents (snd f))) counts_zero stack.
Definition stack_dirs (stack : walk_stack) : nat := sum_list (map (fun f => S (frame_dirs (snd f))) stack).

Lemma add_counts_comm a b : add_counts a b = add_counts b a.
Proof. unfold add_counts. f_equal; lia. Qed.
Lemma add_counts_assoc a b c : add_counts a (add_counts b c) = add_counts (add_counts a b) c.
Proof. unfold add_counts. cbn. f_equal; lia. Qed.
Lemma add_counts_zero a : add_counts a counts_zero = a.
Proof. destruct a. unfold add_counts. cbn. f_equal; lia. Qed.

Lemma total_dir m es : total (LDir m es) = add_counts (total_of 0 0 1) (contents es).
Proof.
  rewrite add_counts_comm. unfold contents. cbn [total]. induction es as [|e es IH]; [done|]. cbn [foldr].
  by rewrite IH, add_counts_assoc.
Qed.

Lemma walk_entry_spec dir e b f d stack :
  match walk_entry dir e (total_of b f d, stack) with
  | Ok (c', stack') => exists pushed, stack' = pushed ++ stack /\ stack_dirs pushed = directories (snd e) /\
      forallb frame_countable pushed = countable (dir ++ [fst e]) (snd e) /\
      add_counts c' (stack_total pushed) = add_counts (total_of b f d) (total (snd e))
  | Err _ => countable (dir ++ [fst e]) (snd e) = false
  end.
Proof.
  unfold walk_entry. destruct e as [n x]. cbn [fst snd]. destruct (entry_fault (dir ++ [n])) as [m|] eqn:Ef; [by destruct x; cbn; rewrite Ef|].
  destruct x as [m len ct|m es| |]; try (cbn; by rewrite Ef).
  - exists []. split_and!; [done|done|cbn; by rewrite Ef|cbn; unfold add_counts; cbn; f_equal; lia].
  - exists [(dir ++ [n], es)]. split_and!; [done|cbn; unfold frame_dirs; lia| |].
    + cbn [forallb countable]. unfold frame_countable. cbn [fst snd]. rewrite Ef. destruct (list_fault _); [done|]. by rewrite andb_true_r.
    + rewrite total_dir, add_counts_assoc. cbn [stack_total foldr snd]. rewrite add_counts_zero. f_equal. unfold add_counts. cbn. f_equal; lia.
Qed.

Lemma stack_total_app s t : stack_total (s ++ t) = add_counts (stack_total s) (stack_total t).
Proof. unfold stack_total. induction s as [|f s IH]; cbn [app foldr]; [by rewrite add_counts_comm, add_counts_zero|]. by rewrite IH, add_counts_assoc. Qed.
Lemma stack_dirs_app s t : stack_dirs (s ++ t) = (stack_dirs s + stack_dirs t)%nat.
Proof. unfold stack_dirs. induction s as [|f s IH]; [done|]. cbn in *. lia. Qed.

Lemma walk_entries_spec dir es c stack :
  match walk_entries dir es (c, stack) with
  | Ok (c', stack') => exists pushed, stack' = pushed ++ stack /\ stack_dirs pushed = frame_dirs es /\
      forallb frame_countable pushed = forallb (fun e => countable (dir ++ [fst e]) (snd e)) es /\
      add_counts c' (stack_total pushed) = add_counts c (contents es)
  | Err _ => forallb (fun e => countable (dir ++ [fst e]) (snd e)) es = false
  end.
Proof.
  revert c stack; induction es as [|e es IH]; intros c stack; cbn [walk_entries]; [exists []; by cbn; split_and!|].
  destruct c as [b f d]. pose proof (walk_entry_spec dir e b f d stack) as H. cbn [forallb].
  destruct (walk_entry _ _ _) as [[c1 stack1]|err]; cbn [rbind]; [|by rewrite H].
  destruct H as (p1 & -> & D1 & F1 & T1). specialize (IH c1 (p1 ++ stack)). rewrite <- F1.
  destruct (walk_entries _ _ _) as [[c2 stack2]|err]; [|by rewrite IH, andb_false_r].
  destruct IH as (p2 & -> & D2 & F2 & T2). exists (p2 ++ p1). split_and!.
  - by rewrite app_assoc.
  - rewrite stack_dirs_app, D1, D2. unfold frame_dirs. cbn. lia.
  - rewrite forallb_app, F2. apply andb_comm.
  - rewrite stack_total_app, add_counts_assoc, T2, <- add_counts_assoc, (add_counts_comm (contents es)), add_counts_assoc, T1.
    rewrite <- add_counts_assoc. done.
Qed.

Lemma walk_loop_spec fuel stack c :
  (stack_dirs stack <= fuel)%nat ->
  exists r, walk_loop fuel stack c = Some r /\
    match r with
    | Ok c' => forallb frame_countable stack = true /\ c' = add_counts c (stack_total stack)
    | Err _ => forallb frame_countable stack = false
    end.
Proof.
  revert stack c; induction fuel as [|fuel IH]; intros [|[dir es] stack] c Hf;
    try (eexists; split; [done|]; cbn; by rewrite add_counts_zero); [cbn in Hf; lia|].
  cbn [walk_loop forallb]. unfold frame_countable at 1 3. cbn [fst snd].
  destruct (list_fault dir) as [m|]; [by eexists|].
  pose proof (walk_entries_spec dir es c stack) as H.
  destruct (walk_entries _ _ _) as [[c1 stack1]|e]; [|eexists; split; [done|]; by rewrite H].
  destruct H as (pushed & -> & D & F & T). destruct (IH (pushed ++ stack) c1) as (r & -> & Hr).
  { rewrite stack_dirs_app, D. change (stack_dirs ((dir, es) :: stack)) with (S (frame_dirs es) + stack_dirs stack)%nat in Hf. lia. }
  exists r. split; [done|]. rewrite <- F, <- forallb_app. destruct r as [c'|e]; [|done]. destruct Hr as [Hok ->]. split; [done|].
  rewrite stack_total_app, add_counts_assoc, T. cbn [stack_total foldr snd]. by rewrite add_counts_assoc.
Qed.
End walk.

(** ** The counts of the tar writer *)

Definition of_tar (c : TarCounts) : TransferCounts := total_of (c_bytes c) (c_files c) (c_directories c).

Definition event_total (ev : event) : TransferCounts :=
  match ev with
  | EvDir _ _ => total_of 0 0 1
  | EvFile _ _ len _ => total_of len 1 0
  | EvBad _ => counts_zero
  end.

Definition sum_counts (l : list TransferCounts) : TransferCounts := foldr add_counts counts_zero l.

#[export] Instance sum_counts_proper : Proper ((≡ₚ) ==> eq) sum_counts.
Proof.
  intros l k H. unfold sum_counts. induction H as [|x l k _ IH|x y l|l k m _ IH1 _ IH2]; cbn [foldr]; [done|by rewrite IH| |congruence].
  by rewrite !add_counts_assoc, (add_counts_comm y).
Qed.

Lemma sum_counts_app a b : sum_counts (a ++ b) = add_counts (sum_counts a) (sum_counts b).
Proof.
  unfold sum_counts. induction a as [|x a IH]; cbn [app foldr]; [by rewrite add_counts_comm, add_counts_zero|].
  by rewrite IH, add_counts_assoc.
Qed.

(** Lengths are unsigned. *)
Fixpoint unsigned_lengths (x : lnode) : bool :=
  match x with
  | LFile _ len _ => 0 <=? len
  | LDir _ es => forallb (fun e => unsigned_lengths (snd e)) es
  | _ => true
  end.

Lemma emit_counts ev out c c' out' :
  emit ev out c = (Ok c', out') -> (forall p m len ct, ev = EvFile p m len ct -> 0 <= len) ->
  of_tar c' = add_counts (of_tar c) (event_total ev).
Proof.
  intros H Hl. destruct ev as [p m|p m len ct|e]; cbn [emit] in H; [| |done].
  - unfold write_dir_entry in H. destruct (write_header _ _ _ _ _); simplify_eq. unfold of_tar, add_counts. cbn. f_equal; lia.
  - unfold write_file_entry in H. destruct (write_header _ _ _ _ _); [|done].
    pose proof (read_loop_spec COPY_BUFFER (Z.to_nat len) (Z.to_nat len) ct []) as Hr.
    destruct (read_loop _ _ _ _ _) as [[[] data] rest]; [|done]. destruct Hr as (taken & -> & _ & Hn & _).
    specialize (Hn eq_refl). specialize (Hl _ _ _ _ eq_refl). simplify_eq. unfold of_tar, add_counts. cbn. f_equal; lia.
Qed.

Definition good_event (ev : event) : Prop := match ev with EvFile _ _ len _ => 0 <= len | _ => True end.

Lemma run_events_counts evs out c c' out' :
  run_events evs out c = (Ok c', out') -> Forall good_event evs ->
  of_tar c' = add_counts (of_tar c) (sum_counts (event_total <$> evs)).
Proof.
  revert out c; induction evs as [|ev evs IH]; intros out c; cbn [run_events].
  - intros [= <- _] _. by rewrite add_counts_zero.
  - destruct (emit ev out c) as [[c1|e] o] eqn:E; [|done]. intros H [Hev Hg]%Forall_cons.
    rewrite (IH _ _ H Hg), (emit_counts _ _ _ _ _ E) by (by intros ? ? ? ? ->).
    by rewrite <- add_counts_assoc.
Qed.

Lemma items_good p its :
  Forall (fun it => forall q, Forall good_event (events q (path it))) its -> Forall good_event (concat (item_events p <$> its)).
Proof. induction 1 as [|it its H _ IH]; [done|]. apply Forall_app. split; [apply H|done]. Qed.

Lemma items_total p its :
  Forall (fun it => forall q, sum_counts (event_total <$> events q (path it)) = total (path it)) its ->
  sum_counts (event_total <$> concat (item_events p <$> its)) = sum_counts ((fun it => total (path it)) <$> its).
Proof.
  induction 1 as [|it its H _ IH]; [done|]. cbn [fmap list_fmap concat]. rewrite fmap_app, sum_counts_app, IH.
  unfold item_events. by rewrite H.
Qed.

Lemma contents_sum es : contents es = sum_counts ((fun it => total (path it)) <$> (entry_info <$> es)).
Proof. unfold contents, sum_counts. induction es as [|e es IH]; [done|]. cbn [fmap list_fmap foldr]. by rewrite IH. Qed.

Lemma frame_total p es :
  Forall (fun e => forall q, sum_counts (event_total <$> events q (snd e)) = total (snd e)) es ->
  sum_counts (event_total <$> frame_events {| entries := read_entries es; prefix := p; idx := 0 |}) = contents es.
Proof.
  intros H. unfold frame_events. cbn [entries prefix idx]. rewrite drop_0, items_total by (by apply (Forall_entries (fun x => forall q, sum_counts (event_total <$> events q x) = total x))).
  rewrite contents_sum. by rewrite (read_entries_perm es).
Qed.

Lemma frame_good p es :
  Forall (fun e => forall q, Forall good_event (events q (snd e))) es ->
  Forall good_event (frame_events {| entries := read_entries es; prefix := p; idx := 0 |}).
Proof.
  intros H. unfold frame_events. cbn [entries prefix idx]. rewrite drop_0. apply items_good.
  by apply (Forall_entries (fun x => forall q, Forall good_event (events q x))).
Qed.

Lemma events_total x q : sum_counts (event_total <$> events q x) = total x.
Proof.
  revert q; induction x as [m len ct| | |m es IH] using lnode_tree_ind; intros q; try done.
  - unfold sum_counts. cbn. unfold add_counts. cbn. f_equal; lia.
  - rewrite events_dir, total_dir. cbn [fmap list_fmap]. rewrite <- (frame_total q es IH). done.
Qed.

Lemma events_good x q : unsigned_lengths x = true -> Forall good_event (events q x).
Proof.
  revert q; induction x as [m len ct| | |m es IH] using lnode_tree_ind; intros q Hu; cbn in Hu; try (by repeat constructor).
  - repeat constructor. cbn. lia.
  - rewrite events_dir. constructor; [done|]. apply frame_good. apply Forall_forall. intros e He q'.
    rewrite Forall_forall in IH. apply IH; [done|]. rewrite forallb_forall in Hu. apply Hu. by apply list_elem_of_In.
Qed.

Definition is_directory (x : lnode) : bool := match x with LDir _ _ => true | _ => false end.

Lemma count_dir_spec entry_fault list_fault m es :
  exists r, count_dir_no_symlinks entry_fault list_fault (LDir m es) = Some r /\
    match r with
    | Ok c => countable entry_fault list_fault [] (LDir m es) = true /\ c = contents es
    | Err _ => countable entry_fault list_fault [] (LDir m es) = false
    end.
Proof.
  unfold count_dir_no_symlinks. cbn [countable]. destruct (entry_fault []) as [msg|]; [by eexists|].
  destruct (walk_loop_spec entry_fault list_fault (directories (LDir m es)) [([], es)] counts_zero) as (r & -> & H).
  { cbn. unfold frame_dirs. lia. }
  exists r. split; [done|]. cbn [forallb] in H. unfold frame_countable in H. cbn [fst snd] in H. rewrite andb_true_r in H.
  destruct r as [c|e]; [|done]. destruct H as [Hok ->]. split; [done|].
  rewrite add_counts_comm, add_counts_zero. cbn [stack_total foldr snd]. apply add_counts_zero.
Qed.

(** The walk always ends, and it answers with counts exactly when the root
    is a directory in which everything is a file or a directory that can be
    examined; the counts are then the number of files below it, the sum of
    their lengths and the number of directories below it. They are the counts
    that the tar writer reports when it sends the same tree. *)
Theorem walk_counts (entry_fault list_fault : list bytes -> option str) (root : lnode)
    (Hlen : unsigned_lengths root = true) :
  exists r, count_dir_no_symlinks entry_fault list_fault root = Some r /\
    match r with
    | Ok c => countable entry_fault list_fault [] root = true /\ total root = add_counts (total_of 0 0 1) c /\
        forall sent out, write_dir_as_tar root = Some (Ok sent, out) -> of_tar sent = c
    | Err _ => is_directory root && countable entry_fault list_fault [] root = false
    end.
Proof.
  destruct root as [m len ct|m es| |]; try (unfold count_dir_no_symlinks; destruct (entry_fault []); by eexists).
  destruct (count_dir_spec entry_fault list_fault m es) as (r & Hr & H). exists r. split; [done|].
  destruct r as [c|e]; [|done]. destruct H as [Hok ->]. split_and!; [done|apply total_dir|].
  intros sent out. rewrite write_dir_as_tar_events. intros [= Hrun]. apply run_events_counts in Hrun.
  - rewrite Hrun, frame_total by (apply Forall_forall; intros e _ q; apply events_total).
    destruct (contents es). unfold add_counts. cbn. f_equal; lia.
  - apply frame_good. apply Forall_forall. intros e He q. apply events_good. cbn in Hlen. rewrite forallb_forall in Hlen.
    apply Hlen. by apply list_elem_of_In.
Qed.

Definition sample_tree : lnode :=
  let m := {| perm_mode := 420; modified := None |} in
  LDir m [(lit "a", LFile m 3 [lit "abc"]); (lit "d", LDir m [(lit "b", LFile m 2 [lit "xy"]); (lit "e", LDir m [])])].

Lemma walk_counts_witness :
  count_dir_no_symlinks (fun _ => None) (fun _ => None) sample_tree = Some (Ok (total_of 5 2 2)) /\
  exists r, count_dir_no_symlinks (fun _ => None) (fun _ => None) sample_tree = Some r /\
    match r with Ok c => total sample_tree = add_counts (total_of 0 0 1) c | Err _ => False end.
Proof.
  split; [vm_compute; reflexivity|].
  destruct (walk_counts (fun _ => None) (fun _ => None) sample_tree ltac:(vm_compute; reflexivity)) as (r & Hr & H).
  exists r. split; [exact Hr|]. destruct r as [c|e]; [apply H|]. revert H. vm_compute. discriminate.
Defined.
