(* ===== verification/ClientTransfers.v ===== *)
(** * Transfers by an external client (src/transfer/skeleton.rs, openssh.rs, rsync.rs)

    The four operations around a client: staging next to the destination, the
    client's run into the staging path, the check of what arrived, and the
    installation. A client is what its invocation does to the directory of its
    target, and how it ends. *)
From Stdlib Require Import ZArith String.
From stdpp Require Import base list gmap.
From S2P Require Import Prelude Errors Paths Shell TransferTypes Config Output Tar Destination Staging LocalInstall RemoteScript PutRemote Clients Walk.

Notation TransferCounts := TransferTypes.TransferCounts.
Notation file_counts := LocalInstall.file_counts.

(** ** Dispatch *)

Definition dispatch_transfer {R} (operation : TransferOperation) (kind : TransferKind) (put_file get_file put_dir get_dir : R) : R :=
  match operation, kind with
  | Put, File => put_file
  | Get, File => get_file
  | Put, Directory => put_dir
  | Get, Directory => get_dir
  end.

(** ** Invocations *)

(** A program's arguments, and sftp's batch. *)
Inductive invocation : Type :=
  | RunSftp (args : list str) (batch : str)
  | RunScp (args : list str)
  | RunRsync (args : list str).

(** [transport] is sftp or scp. *)
Definition openssh_invocation (transport : TransferTransport) (e : OpenSshEndpoint) (batch : str) (args : list str) : invocation :=
  match transport with Sftp => RunSftp (sftp_args e) batch | _ => RunScp args end.

Definition openssh_get_file (transport : TransferTransport) (e : OpenSshEndpoint) (remote tmp : str) : invocation :=
  openssh_invocation transport e (sftp_get_batch remote tmp) (scp_get_args e remote tmp).
Definition openssh_get_dir (transport : TransferTransport) (e : OpenSshEndpoint) (remote target : str) : invocation :=
  openssh_invocation transport e (sftp_get_dir_batch remote target) (scp_get_dir_args e remote target).
Definition openssh_put_file (transport : TransferTransport) (e : OpenSshEndpoint) (local stage : str) : invocation :=
  openssh_invocation transport e (sftp_put_batch local stage) (scp_put_args e local stage).

(** [canonical]: the local directory as scp gets it. *)
Definition openssh_put_dir (transport : TransferTransport) (e : OpenSshEndpoint) (local canonical stage : str) : invocation :=
  openssh_invocation transport e (sftp_put_dir_batch local stage) (scp_put_dir_args e canonical stage).

Definition rsync_get_file (e : RsyncEndpoint) (o : RsyncOptions) (remote tmp : str) : invocation :=
  RunRsync (rsync_args e o (rsync_remote_spec e remote) tmp).
Definition rsync_get_dir (e : RsyncEndpoint) (o : RsyncOptions) (remote target : str) : invocation :=
  RunRsync (rsync_args e o (rsync_remote_spec e (remote ++ lit "/.")) target).
Definition rsync_put_file (e : RsyncEndpoint) (o : RsyncOptions) (local stage : str) : invocation :=
  RunRsync (rsync_args e o local (rsync_remote_spec e stage)).
Definition rsync_put_dir (e : RsyncEndpoint) (o : RsyncOptions) (local stage : str) : invocation :=
  RunRsync (rsync_args e o (local ++ lit "/.") (rsync_remote_spec e stage)).

(** ** Downloads *)

(** Local trees are those of Tar: a directory is its entries. *)
Notation tree := (list (bytes * lnode)) (only parsing).
Notation local_dir := (gmap str (node (list (bytes * lnode)))).

Definition empty_tree (es : tree) : bool := match es with [] => true | _ => false end.

Section download.
Context (to_lowercase : str -> str) (timeout_ms : Z).

(** What running a program does to the directory, and how it ended. *)
Context (client : invocation -> local_dir -> child_run * local_dir).

Definition client_result (i : invocation) (r : child_run) : result unit SshMcpError :=
  match i with
  | RunSftp _ _ => run_openssh_client timeout_ms Sftp r
  | RunScp _ => run_openssh_client timeout_ms Scp r
  | RunRsync _ => let? _ := run_rsync timeout_ms to_lowercase r in Ok tt
  end.

Definition run_client (i : invocation) (fs : local_dir) : result unit SshMcpError * local_dir :=
  let '(r, fs) := client i fs in (client_result i r, fs).

(** [remove_local_dir]: a missing directory is fine. A failure may leave a
    part of the tree. *)
Definition remove_local_dir (fault : option (io_err * tree)) (p : str) (fs : local_dir) : result unit SshMcpError * local_dir :=
  match fs !! p with
  | None => (Ok tt, fs)
  | Some (NFile _) => (Err (io_failure (io Other (lit "Not a directory (os error 20)"))), fs)
  | Some (NDir _) =>
      match fault with Some (e, left_over) => (Err (io_failure e), <[p := NDir left_over]> fs) | None => (Ok tt, base.delete p fs) end
  | Some (NSymlink _) => match fault with Some (e, _) => (Err (io_failure e), fs) | None => (Ok tt, base.delete p fs) end
  end.

(** scp creates the directory itself; the others copy into it. *)
Definition download_dir (i : invocation) (fault : option (io_err * tree)) (target : str) (fs : local_dir) :
    result unit SshMcpError * local_dir :=
  match i with
  | RunScp _ =>
      match remove_local_dir fault target fs with
      | (Err e, fs) => (Err e, fs)
      | (Ok _, fs) => run_client i fs
      end
  | _ => run_client i fs
  end.
End download.

(** [stat_other]: the length [metadata] reports for what is not a file, which
    follows a symbolic link. *)
Record get_client_env : Type := {
  c_invalid : str -> option str;
  c_create : nat -> option io_err;
  c_remove : option io_err;
  c_stat : option io_err;
  c_stat_other : node (list (bytes * lnode)) -> result Z io_err;
  c_replace : replace_env;
  c_link : option io_err;
  c_unlink : option io_err
}.

Definition metadata_len (env : get_client_env) (p : str) (fs : local_dir) : result Z io_err :=
  match c_stat env, fs !! p with
  | Some e, _ => Err e
  | None, None => Err (io NotFound (lit "No such file or directory (os error 2)"))
  | None, Some (NFile c) => Ok (Z.of_nat (length c))
  | None, Some x => c_stat_other env x
  end.

Definition local_staging (staging : str) (backup : option str) (final : str) : TransferStaging := {|
  staging_local := Some {| sl_staging_path := staging; sl_backup_path := backup; sl_final_path := final |}; staging_remote := None |}.

(** [path_of]: the path of a name in the directory. *)
Definition get_file_with_local_staging (env : get_client_env) (path_of : str -> str)
    (download : str -> local_dir -> result unit SshMcpError * local_dir) (remote_path name id : str) (overwrite : bool) (fs : local_dir) :
    result (TransferStaging * TransferCounts) SshMcpError * local_dir :=
  match validate_remote_user_file_path remote_path (lit "remote_path") with
  | Err e => (Err e, fs)
  | Ok _ =>
      match create_unique_local_staging_file (c_invalid env) (c_create env) name id fs with
      | (Err e, fs) => (Err e, fs)
      | (Ok tmp, fs) =>
          match download tmp fs with
          | (Err e, fs) => (Err e, (op (c_remove env) (remove_file tmp) fs).2)
          | (Ok _, fs) =>
              match metadata_len env tmp fs with
              | Err e => (Err (io_failure e), fs)
              | Ok bytes =>
                  let '(r, fs) :=
                    if overwrite then atomic_replace_file empty_tree (c_replace env) tmp name fs
                    else atomic_install_file_overwrite_false (c_link env) (c_unlink env) tmp name fs in
                  ((let? _ := r in Ok (local_staging (path_of tmp) None (path_of name), file_counts bytes)), fs)
              end
          end
      end
  end.

Record get_dir_client_env : Type := {
  k_invalid : str -> option str;
  k_create : nat -> option io_err;
  k_residue : option (list (bytes * lnode));
  k_entry_fault : list bytes -> option str;
  k_list_fault : list bytes -> option str;
  k_replace : @replace_dir_env (list (bytes * lnode))
}.

(** [count_dir_no_symlinks] at a name of the directory; the last case is
    unreachable. *)
Definition count_at (env : get_dir_client_env) (p : str) (fs : local_dir) : result TransferCounts SshMcpError :=
  match fs !! p with
  | None => Err (Io (lit "No such file or directory (os error 2)"))
  | Some x =>
      let root := match x with
                  | NFile c => LFile {| perm_mode := 0; modified := None |} (Z.of_nat (length c)) [c]
                  | NDir es => LDir {| perm_mode := 0; modified := None |} es
                  | NSymlink _ => LSymlink
                  end in
      default (Err not_directory_error) (count_dir_no_symlinks (k_entry_fault env) (k_list_fault env) root)
  end.

(** [answer]: what the remote validation of the source answers. *)
Definition get_dir_with_local_staging (env : get_dir_client_env) (path_of : str -> str) (answer : result CommandOutput SshMcpError)
    (download : str -> local_dir -> result unit SshMcpError * local_dir) (remote_path name id : str) (overwrite : bool) (fs : local_dir) :
    result (TransferStaging * TransferCounts) SshMcpError * local_dir :=
  match (let? _ := validate_remote_user_path remote_path (lit "remote_path") in remote_validate_dir_contents remote_path answer) with
  | Err e => (Err e, fs)
  | Ok _ =>
      let '(target, fs) :=
        if overwrite then create_unique_local_staging_dir [] (k_invalid env) (k_create env) name id fs
        else
          match op (k_create env 0%nat) (create_new (NDir []) name) fs with
          | (Ok _, fs) => (Ok name, fs)
          | (Err e, fs) => (Err (match e_kind e with AlreadyExists => exists_error | _ => io_failure e end), fs)
          end in
      match target with
      | Err e => (Err e, fs)
      | Ok target =>
          match download target fs with
          | (Err e, fs) => (Err e, remove_dir_all (k_residue env) target fs)
          | (Ok _, fs) =>
              match count_at env target fs with
              | Err e => (Err e, remove_dir_all (k_residue env) target fs)
              | Ok counts =>
                  if overwrite then
                    let backup := local_backup_dir_sibling name id in
                    match atomic_replace_dir empty_tree (k_replace env) target name backup fs with
                    | (Ok _, fs) => (Ok (local_staging (path_of target) (Some (path_of backup)) (path_of name), counts), fs)
                    | (Err e, fs) => (Err e, remove_dir_all (k_residue env) target fs)
                    end
                  else (Ok (local_staging (path_of name) None (path_of name), counts), fs)
              end
          end
      end
  end.

(** ** Uploads, and the eight operations *)

Record world (T : Type) : Type := { w_local : local_dir; w_remote : gmap str (entry T) }.
Arguments w_local {T} w.
Arguments w_remote {T} w.

Definition on_local {T R} (f : local_dir -> R * local_dir) (w : world T) : R * world T :=
  let '(r, l) := f (w_local w) in (r, {| w_local := l; w_remote := w_remote w |}).
Definition on_remote {T R} (f : gmap str (entry T) -> R * gmap str (entry T)) (w : world T) : R * world T :=
  let '(r, m) := f (w_remote w) in (r, {| w_local := w_local w; w_remote := m |}).

(** What is outside: the programs on both sides, the remote scripts' hosts and
    transports, and the local source. *)
Record client_env (T : Type) : Type := {
  no_entries : T;
  ssh_check : child_run; client_check : child_run; remote_check : result CommandOutput SshMcpError;
  local_client : invocation -> local_dir -> child_run * local_dir;
  remote_client : invocation -> gmap str (entry T) -> child_run * gmap str (entry T);
  file_env : get_client_env; dir_env : get_dir_client_env;
  reset_fault : option (io_err * list (bytes * lnode));
  validation : result CommandOutput SshMcpError;
  scripts : client_upload T;
  reset_host : host T; reset_tr : transport;
  source_meta : result (bool * Z) str;
  source : lnode;
  canonical : result str str
}.
Arguments no_entries {T} c. Arguments ssh_check {T} c. Arguments client_check {T} c. Arguments remote_check {T} c.
Arguments local_client {T} c. Arguments remote_client {T} c. Arguments file_env {T} c. Arguments dir_env {T} c.
Arguments reset_fault {T} c. Arguments validation {T} c. Arguments scripts {T} c. Arguments reset_host {T} c.
Arguments reset_tr {T} c. Arguments source_meta {T} c. Arguments source {T} c. Arguments canonical {T} c.

(** The arguments of both [run_transfer]s; the local path is [path_of name]. *)
Record transfer_args : Type := {
  a_remote_home : str; a_id : str; a_operation : TransferOperation; a_kind : TransferKind;
  a_path_of : str -> str; a_name : str; a_remote_path : str; a_overwrite : bool
}.

Section operations.
Context (to_lowercase : str -> str) (timeout_ms : Z) {T : Type} (env : client_env T) (a : transfer_args).

Definition transfer_result : Type := result (TransferStaging * TransferCounts) SshMcpError.
Definition source_path : str := a_path_of a (a_name a).

Definition run_upload (i : invocation) (fs : gmap str (entry T)) : result unit SshMcpError * gmap str (entry T) :=
  let '(r, fs) := remote_client env i fs in (client_result to_lowercase timeout_ms i r, fs).

(** Before [scp -r], which creates the directory itself. *)
Definition remove_remote_dir (p : str) (fs : gmap str (entry T)) : result unit SshMcpError * gmap str (entry T) :=
  match validate_remote_user_path p (lit "remote_stage") with
  | Err e => (Err e, fs)
  | Ok _ =>
      let '(r, s) := run_script (reset_tr env) (rm_rf (reset_host env) p) fs in
      ((let? out := r in ensure_remote_exec_success (lit "reset scp remote directory") (command_output out)), files s)
  end.

Definition upload_dir (i : str -> invocation) (stage : str) (fs : gmap str (entry T)) : result unit SshMcpError * gmap str (entry T) :=
  match i stage with
  | RunScp _ =>
      match remove_remote_dir stage fs with
      | (Err e, fs) => (Err e, fs)
      | (Ok _, fs) => run_upload (i stage) fs
      end
  | _ => run_upload (i stage) fs
  end.

Definition with_upload (f : str -> gmap str (entry T) -> result unit SshMcpError * gmap str (entry T)) : client_upload T :=
  let c := scripts env in
  {| prepare_host := prepare_host c; prepare_tr := prepare_tr c; upload := f; finalize_host := finalize_host c;
     finalize_tr := finalize_tr c; clean_host := clean_host c; clean_tr := clean_tr c |}.

Definition client_put_file (i : str -> invocation) (w : world T) : transfer_result * world T :=
  on_remote (put_file_with_remote_staging (with_upload (fun stage => run_upload (i stage)))
    (a_remote_home a) (a_remote_path a) (a_id a) (a_overwrite a) (source_meta env)) w.

Definition client_get_file (i : str -> invocation) (w : world T) : transfer_result * world T :=
  on_local (get_file_with_local_staging (file_env env) (a_path_of a)
    (fun tmp => run_client to_lowercase timeout_ms (local_client env) (i (a_path_of a tmp)))
    (a_remote_path a) (a_name a) (a_id a) (a_overwrite a)) w.

Definition count_source : result TransferCounts SshMcpError :=
  default (Err not_directory_error)
    (count_dir_no_symlinks (k_entry_fault (dir_env env)) (k_list_fault (dir_env env)) (source env)).

Definition client_put_dir (i : str -> invocation) (w : world T) : transfer_result * world T :=
  match count_source with
  | Err e => (Err e, w)
  | Ok counts =>
      on_remote (put_dir_with_remote_staging (with_upload (upload_dir i)) (no_entries env)
        (a_remote_home a) (a_remote_path a) (a_id a) (a_overwrite a) counts) w
  end.

Definition client_get_dir (i : str -> invocation) (w : world T) : transfer_result * world T :=
  on_local (get_dir_with_local_staging (dir_env env) (a_path_of a) (validation env)
    (fun target => download_dir to_lowercase timeout_ms (local_client env) (i (a_path_of a target)) (reset_fault env) target)
    (a_remote_path a) (a_name a) (a_id a) (a_overwrite a)) w.

(** [run_transfer] of openssh.rs; its [put_dir] resolves the source first. *)
Definition openssh_run_transfer (t : TransferTransport) (e : OpenSshEndpoint) (w : world T) : transfer_result * world T :=
  match openssh_preflight timeout_ms e t (ssh_check env) (client_check env) with
  | Err err => (Err err, w)
  | Ok _ =>
      dispatch_transfer (a_operation a) (a_kind a)
        (client_put_file (openssh_put_file t e source_path))
        (client_get_file (openssh_get_file t e (a_remote_path a)))
        (fun w => match canonical env with
                  | Err m => (Err (Io m), w)
                  | Ok c => client_put_dir (openssh_put_dir t e source_path c) w
                  end)
        (client_get_dir (openssh_get_dir t e (a_remote_path a))) w
  end.

(** [run_transfer] of rsync.rs. *)
Definition rsync_run_transfer (o : RsyncOptions) (e : RsyncEndpoint) (w : world T) : transfer_result * world T :=
  match rsync_preflight timeout_ms e (ssh_check env) (client_check env) (remote_check env) with
  | Err err => (Err err, w)
  | Ok _ =>
      dispatch_transfer (a_operation a) (a_kind a)
        (client_put_file (rsync_put_file e o source_path))
        (client_get_file (rsync_get_file e o (a_remote_path a)))
        (client_put_dir (rsync_put_dir e o source_path))
        (client_get_dir (rsync_get_dir e o (a_remote_path a))) w
  end.
End operations.

(** ** What the operations do *)

(** A client changes nothing but the path it is told to write. *)
Definition confined (download : str -> local_dir -> result unit SshMcpError * local_dir) : Prop :=
  forall p fs q, q <> p -> (download p fs).2 !! q = fs !! q.

(** Writing to a file, it does not leave a directory there. *)
Definition writes_file (download : str -> local_dir -> result unit SshMcpError * local_dir) : Prop :=
  forall p fs c, fs !! p = Some (NFile c) -> forall es, (download p fs).2 !! p <> Some (NDir es).

Lemma confined_shape download p x (fs : local_dir) :
  confined download -> fs !! p = None ->
  (download p (<[p := x]> fs)).2 = match (download p (<[p := x]> fs)).2 !! p with Some y => <[p := y]> fs | None => fs end.
Proof.
  intros Hc Hp. apply map_eq. intros q. destruct (decide (q = p)) as [->|Hq].
  - destruct ((download p (<[p := x]> fs)).2 !! p) eqn:E; [by rewrite lookup_insert_eq|congruence].
  - rewrite (Hc p _ q Hq), lookup_insert_ne by done.
    destruct ((download p (<[p := x]> fs)).2 !! p); [by rewrite lookup_insert_ne|done].
Qed.

Definition client_may_leave (env : get_client_env) : Prop :=
  c_remove env <> None \/ c_stat env <> None \/ (exists x e, c_stat_other env x = Err e) \/
  f_remove_staging (c_replace env) <> None \/ c_unlink env <> None.

Lemma metadata_len_err env p fs e x : metadata_len env p fs = Err e -> fs !! p = Some x -> client_may_leave env.
Proof.
  unfold metadata_len, client_may_leave. destruct (c_stat env); [by right; left|]. intros H Hx. rewrite Hx in H.
  destruct x as [c|es|d]; [done|..]; right; right; left; eauto.
Qed.

Lemma metadata_len_ok env p fs n : metadata_len env p fs = Ok n -> is_Some (fs !! p).
Proof. unfold metadata_len. destruct (c_stat env), (fs !! p); done. Qed.

(** What the client left at the staging path [tmp], or nothing of it, and the
    outcome. *)
Definition client_file_outcome env
    (download : str -> local_dir -> result unit SshMcpError * local_dir) (name id : str) (overwrite : bool) (fs : local_dir)
    (r : result (TransferStaging * TransferCounts) SshMcpError) (fs' : local_dir) : Prop :=
  staging_frame (client_may_leave env) name id fs fs' /\
  match r with
  | Ok (_, counts) => (overwrite = false -> fs !! name = None) /\
      exists tmp fs1 n, fs !! tmp = None /\ download tmp (<[tmp := NFile []]> fs) = (Ok tt, fs1) /\
        metadata_len env tmp fs1 = Ok n /\ counts = file_counts n /\ is_Some (fs1 !! tmp) /\ fs' !! name = fs1 !! tmp
  | Err _ => fs' !! name = fs !! name \/ (overwrite = true /\ replace_gap (c_replace env) /\ fs' !! name = None)
  end.

(** A file fetched by sftp, scp or rsync replaces the destination at once
    or not at all: on success the destination is exactly what the client left
    at the staging path, and with overwrite=false there was nothing before; on a
    failure the destination is what it was, except on the way out that
    [replace_gap] describes. Nothing else that existed
    changes, whatever the client wrote to its staging path, and a staging file
    is left behind only when examining or removing it fails. *)
Theorem client_get_file_atomic (env : get_client_env) (path_of : str -> str)
    (download : str -> local_dir -> result unit SshMcpError * local_dir) (remote_path name id : str) (overwrite : bool) (fs : local_dir)
    (Hconf : confined download) (Hfile : writes_file download) :
  let '(r, fs') := get_file_with_local_staging env path_of download remote_path name id overwrite fs in
  client_file_outcome env download name id overwrite fs r fs'.
Proof.
  unfold get_file_with_local_staging, client_file_outcome.
  destruct (validate_remote_user_file_path _ _); [|split; [apply frame_refl|by left]].
  unfold create_unique_local_staging_file.
  pose proof (create_unique_spec (local_temp_sibling_with_attempt name id) (c_invalid env) (c_create env) (NFile []) (lit "file") MAX_ATTEMPTS 0 fs) as Hc.
  destruct (create_unique _ _ _ _ _ _ _ _) as [[tmp|e] fs1]; [|subst fs1; split; [apply frame_refl|by left]].
  destruct Hc as (a & -> & Hn & ->). set (tmp := local_temp_sibling_with_attempt name id a) in *.
  pose proof (confined_shape download tmp (NFile []) fs Hconf Hn) as Hshape.
  pose proof (Hfile tmp (<[tmp := NFile []]> fs) [] (lookup_insert_eq _ _ _)) as Hnd.
  destruct (download tmp _) as [dr fs1] eqn:Ed. cbn [snd] in Hshape, Hnd.
  assert (Hne : tmp <> name) by apply candidate_ne.
  destruct (fs1 !! tmp) as [x|] eqn:Ex.
  2:{ subst fs1. destruct dr as [[]|e].
      - destruct (metadata_len env tmp fs) as [n|e] eqn:Em; [|split; [apply frame_refl|by left]].
        apply metadata_len_ok in Em as [y Hy]. congruence.
      - assert ((op (c_remove env) (remove_file tmp) fs).2 = fs) as ->; [|split; [apply frame_refl|by left]].
        unfold op, remove_file. destruct (c_remove env); [done|]. by rewrite Hn. }
  assert (Hx : is_dir_node x = false) by (destruct x as [c|es|d]; [done|by destruct (Hnd es)|done]).
  assert (Hsame : forall (left_over : Prop) fs', (left_over -> client_may_leave env) -> unstaged tmp left_over (<[tmp := x]> fs) fs' ->
            staging_frame (client_may_leave env) name id fs fs' /\
            (fs' !! name = fs !! name \/ (overwrite = true /\ replace_gap (c_replace env) /\ fs' !! name = None))).
  { intros left_over fs' Hl Hu. destruct (frame_same (client_may_leave env) name id a x fs fs' left_over Hn Hl Hu). by split; [|left]. }
  destruct dr as [[]|e].
  2:{ pose proof (remove_file_spec (c_remove env) tmp x fs1 Ex Hx) as Hr. rewrite Hshape in Hr.
      rewrite Hshape. apply (Hsame (c_remove env <> None)); [unfold client_may_leave; tauto|done]. }
  destruct (metadata_len env tmp fs1) as [n|e] eqn:Em.
  2:{ rewrite Hshape. apply (Hsame True); [intros _; by eapply metadata_len_err|by right]. }
  pose proof (install_staged empty_tree (client_may_leave env) (c_replace env) (c_link env) (c_unlink env) overwrite name id a x fs
    Hn Hx ltac:(unfold client_may_leave; tauto)) as H. fold tmp in H. rewrite <- Hshape in H.
  destruct (if overwrite then _ else _) as [[[]|e] fs2]; cbn [rbind]; [|exact H]. destruct H as (F & Hnew & Hname).
  split_and!; [done|done|]. exists tmp, fs1, n. split_and!; [done..|by rewrite Ex|congruence].
Qed.

Lemma count_at_spec env p fs c :
  count_at env p fs = Ok c ->
  exists es, fs !! p = Some (NDir es) /\ c = contents es /\
    countable (k_entry_fault env) (k_list_fault env) [] (LDir {| perm_mode := 0; modified := None |} es) = true.
Proof.
  unfold count_at. destruct (fs !! p) as [[ct|es|d]|]; [| | |done].
  - unfold count_dir_no_symlinks. by destruct (k_entry_fault env []).
  - destruct (count_dir_spec (k_entry_fault env) (k_list_fault env) {| perm_mode := 0; modified := None |} es) as (r & -> & H).
    intros E. change (r = Ok c) in E. subst r. destruct H as [Hok ->]. eauto.
  - unfold count_dir_no_symlinks. by destruct (k_entry_fault env []).
Qed.

(** The counted tree is in place; or the old destination is, or is whole under
    the backup name; or, where there was nothing, something of the client's. *)
Definition client_dir_outcome (env : get_dir_client_env) (name id : str) (overwrite : bool) (fs : local_dir)
    (r : result (TransferStaging * TransferCounts) SshMcpError) (fs' : local_dir) : Prop :=
  others_kept name fs fs' /\
  match r with
  | Ok (_, counts) => (overwrite = false -> fs !! name = None) /\
      exists es, fs' !! name = Some (NDir es) /\ counts = contents es /\
        countable (k_entry_fault env) (k_list_fault env) [] (LDir {| perm_mode := 0; modified := None |} es) = true
  | Err _ => fs' !! name = fs !! name \/
      (overwrite = true /\ is_Some (fs !! name) /\ fs' !! name = None /\ fs' !! local_backup_dir_sibling name id = fs !! name) \/
      (overwrite = false /\ fs !! name = None)
  end.

(** Whatever is done to the target, the rest stays. *)
Lemma others_kept_at name p residue (fs fs1 : local_dir) :
  (p = name -> fs !! name = None) -> (p <> name -> fs !! p = None) -> (forall q, q <> p -> fs1 !! q = fs !! q) ->
  others_kept name fs fs1 /\ others_kept name fs (remove_dir_all residue p fs1) /\
  (p <> name -> remove_dir_all residue p fs1 !! name = fs !! name).
Proof.
  intros Hp Hpn Hc. assert (Hne : forall q y, q <> name -> fs !! q = Some y -> q <> p).
  { intros q y Hq Hy ->. rewrite Hpn in Hy; done. }
  split_and!.
  - intros q y Hq Hy. rewrite Hc; [done|eauto].
  - intros q y Hq Hy. pose proof (Hne q y Hq Hy). rewrite remove_dir_all_ne, Hc by done. done.
  - intros Hn. rewrite remove_dir_all_ne, Hc by done. done.
Qed.

Lemma download_insert download p x (fs : local_dir) q :
  confined download -> q <> p -> (download p (<[p := x]> fs)).2 !! q = fs !! q.
Proof. intros Hc Hq. rewrite Hc, lookup_insert_ne by done. done. Qed.

Lemma client_dir_staged env path_of download name id a (fs : local_dir) :
  let tmp := local_temp_dir_sibling_with_attempt name id a in
  let backup := local_backup_dir_sibling name id in
  confined download -> fs !! tmp = None -> fs !! backup <> Some (NSymlink true) ->
  let '(r, fs') := match download tmp (<[tmp := NDir []]> fs) with
    | (Err e, fs) => (Err e, remove_dir_all (k_residue env) tmp fs)
    | (Ok _, fs) =>
        match count_at env tmp fs with
        | Err e => (Err e, remove_dir_all (k_residue env) tmp fs)
        | Ok counts =>
            match atomic_replace_dir empty_tree (k_replace env) tmp name backup fs with
            | (Ok _, fs) => (Ok (local_staging (path_of tmp) (Some (path_of backup)) (path_of name), counts), fs)
            | (Err e, fs) => (Err e, remove_dir_all (k_residue env) tmp fs)
            end
        end
    end in
  client_dir_outcome env name id true fs r fs'.
Proof.
  intros tmp backup Hconf Hn Hb. pose proof (dir_candidate_ne name id a) as Hne. fold tmp in Hne.
  pose proof (download_insert download tmp (NDir []) fs) as Hd.
  pose proof (confined_shape download tmp (NDir []) fs Hconf Hn) as Hshape.
  destruct (download tmp _) as [dr fs1] eqn:Ed. cbn [snd] in *.
  destruct (others_kept_at name tmp (k_residue env) fs fs1) as (_ & Hk & Hnm); [done|done|by intros; apply Hd|].
  unfold client_dir_outcome. destruct dr as [[]|e]; [|split; [done|left; by apply Hnm]].
  destruct (count_at env tmp fs1) as [counts|e] eqn:Ec; [|split; [done|left; by apply Hnm]].
  apply count_at_spec in Ec as (es & Es & -> & Hok). rewrite Es in Hshape.
  assert (Hb' : fs1 !! backup <> Some (NSymlink true)) by (rewrite Hd; [done|done|apply not_eq_sym, dir_candidate_backup]).
  pose proof (atomic_replace_dir_spec empty_tree (k_replace env) tmp name backup fs1 Hne (backup_ne name id) (dir_candidate_backup name id a) Hb') as H.
  destruct (atomic_replace_dir _ _ _ _ _ _) as [r fs2]. rewrite Hshape in H.
  apply (staged_outcome (k_residue env) _ _ _ _ _ _ _ Hn) in H. destruct r as [u|e].
  - destruct H as [Hk2 Hname]. split_and!; [done|done|]. by exists es.
  - destruct H as [Hk2 [H|H]]; (split; [done|]); [by left|right; left; split_and!; [done|apply H..]].
Qed.

Lemma client_dir_fresh env path_of download name id (fs : local_dir) :
  confined download -> fs !! name = None ->
  let '(r, fs') := match download name (<[name := NDir []]> fs) with
    | (Err e, fs) => (Err e, remove_dir_all (k_residue env) name fs)
    | (Ok _, fs) =>
        match count_at env name fs with
        | Err e => (Err e, remove_dir_all (k_residue env) name fs)
        | Ok counts => (Ok (local_staging (path_of name) None (path_of name), counts), fs)
        end
    end in
  client_dir_outcome env name id false fs r fs'.
Proof.
  intros Hconf Hn. pose proof (download_insert download name (NDir []) fs) as Hd.
  destruct (download name _) as [dr fs1] eqn:Ed. cbn [snd] in *.
  destruct (others_kept_at name name (k_residue env) fs fs1) as (Hk1 & Hk & _); [done|done|by intros; apply Hd|].
  unfold client_dir_outcome. destruct dr as [[]|e]; [|by split; [|right; right]].
  destruct (count_at env name fs1) as [counts|e] eqn:Ec; [|by split; [|right; right]].
  apply count_at_spec in Ec as (es & Es & -> & Hok). split_and!; [done|done|]. by exists es.
Qed.

(** A directory fetched by sftp, scp or rsync never loses the destination:
    on success the destination is a tree of files and directories only, with
    the counts that are reported (and with overwrite=false there was nothing
    before); on failure it is what it was, or whole under the backup name when
    the rollback itself fails. No other existing entry changes, whatever the
    client wrote to its staging directory. *)
Theorem client_get_dir_keeps_destination (env : get_dir_client_env) (path_of : str -> str) (answer : result CommandOutput SshMcpError)
    (download : str -> local_dir -> result unit SshMcpError * local_dir) (remote_path name id : str) (overwrite : bool) (fs : local_dir)
    (Hconf : confined download) (Hb : fs !! local_backup_dir_sibling name id <> Some (NSymlink true)) :
  let '(r, fs') := get_dir_with_local_staging env path_of answer download remote_path name id overwrite fs in
  client_dir_outcome env name id overwrite fs r fs'.
Proof.
  assert (Hsame : forall e, client_dir_outcome env name id overwrite fs (Err e) fs).
  { intros e. split; [apply others_refl|by left]. }
  unfold get_dir_with_local_staging. destruct (let? _ := _ in _) as [[]|e]; [|apply Hsame]. destruct overwrite.
  - unfold create_unique_local_staging_dir.
    pose proof (create_unique_spec (local_temp_dir_sibling_with_attempt name id) (k_invalid env) (k_create env) (NDir []) (lit "directory") MAX_ATTEMPTS 0 fs) as Hc.
    destruct (create_unique _ _ _ _ _ _ _ _) as [[tmp|e] fs1]; [|subst fs1; apply Hsame].
    destruct Hc as (a & -> & Hn & ->). pose proof (client_dir_staged env path_of download name id a fs Hconf Hn Hb) as H.
    cbn zeta in H. destruct (download _ _) as [[[]|e] fs1]; [|exact H]. destruct (count_at _ _ _); exact H.
  - destruct (op_spec (k_create env 0%nat) (create_new (NDir []) name) fs) as [(e & _ & ->)|[_ ->]]; [apply Hsame|].
    unfold create_new. destruct (fs !! name) as [x|] eqn:En; [apply Hsame|].
    pose proof (client_dir_fresh env path_of download name id fs Hconf En) as H.
    destruct (download _ _) as [[[]|e] fs1]; [|exact H]. destruct (count_at _ _ _); exact H.
Qed.

(** ** Examples *)

Lemma last_rsync_args e o src dst : last (rsync_args e o src dst) = Some dst.
Proof. unfold rsync_args. by rewrite !last_app. Qed.

(** A client that puts [x] at its last argument, and exits with [status]. *)
Definition sample_client (x : node (list (bytes * lnode))) (status : Z) (i : invocation) (fs : local_dir) : child_run * local_dir :=
  ({| start_failure := None; batch := BatchWritten; ended := ChildExited (Some status);
      read_out := Some (Ok (lit "Number of files: 1")); read_err := Some (Ok (lit "denied")) |},
   match i with
   | RunRsync args => match last args with Some dst => <[dst := x]> fs | None => fs end
   | _ => fs
   end).

Definition sample_download (x : node (list (bytes * lnode))) (status : Z) (tmp : str) : local_dir -> result unit SshMcpError * local_dir :=
  run_client (fun s => s) 1000 (sample_client x status) (rsync_get_file example_endpoint rsync_options_default (lit "/r/f") tmp).

Lemma sample_download_confined x status : confined (sample_download x status).
Proof. intros p fs q Hq. unfold sample_download, run_client, rsync_get_file, sample_client. rewrite last_rsync_args. by apply lookup_insert_ne. Qed.

Lemma sample_download_writes c status : writes_file (sample_download (NFile c) status).
Proof. intros p fs c' _ es. unfold sample_download, run_client, rsync_get_file, sample_client. rewrite last_rsync_args. cbn [snd]. by rewrite lookup_insert_eq. Qed.

Definition sample_get_env : get_client_env := {|
  c_invalid := fun _ => None; c_create := fun _ => None; c_remove := None; c_stat := None; c_stat_other := fun _ => Ok 0;
  c_replace := no_fault; c_link := None; c_unlink := None |}.
Definition sample_local : local_dir := {[ lit "f" := NFile (lit "old") ]}.

(** rsync succeeds and the file is replaced; it fails and the file is kept. *)
Lemma client_get_file_atomic_witness :
  (let '(r, fs') := get_file_with_local_staging sample_get_env (fun n => n) (sample_download (NFile (lit "new")) 0) (lit "/r/f") (lit "f") (lit "id") true sample_local in
   match r with Ok (_, c) => c = file_counts 3 | Err _ => False end /\ is_Some (fs' !! lit "f")) /\
  (let '(r, fs') := get_file_with_local_staging sample_get_env (fun n => n) (sample_download (NFile (lit "ne")) 23) (lit "/r/f") (lit "f") (lit "id") true sample_local in
   r = Err (Connection (lit "rsync failed: exit_code=Some(23); stderr=denied")) /\ fs' !! lit "f" = Some (NFile (lit "old"))).
Proof.
  split.
  - pose proof (client_get_file_atomic sample_get_env (fun n => n) (sample_download (NFile (lit "new")) 0) (lit "/r/f") (lit "f") (lit "id") true
      sample_local (sample_download_confined _ _) (sample_download_writes _ _)) as H.
    destruct (get_file_with_local_staging _ _ _ _ _ _ _ _) as [r fs'] eqn:E. apply (f_equal fst) in E as E1. vm_compute in E1.
    subst r. split; [reflexivity|]. destruct H as (_ & _ & tmp & fs1 & n & _ & _ & _ & _ & Hs & ->). exact Hs.
  - pose proof (client_get_file_atomic sample_get_env (fun n => n) (sample_download (NFile (lit "ne")) 23) (lit "/r/f") (lit "f") (lit "id") true
      sample_local (sample_download_confined _ _) (sample_download_writes _ _)) as H.
    destruct (get_file_with_local_staging _ _ _ _ _ _ _ _) as [r fs'] eqn:E. apply (f_equal fst) in E as E1. vm_compute in E1.
    subst r. split; [reflexivity|]. destruct H as [_ [->|(_ & [(e & [=] & _) _] & _)]]. vm_compute. reflexivity.
Defined.

Definition sample_get_dir_env : get_dir_client_env := {|
  k_invalid := fun _ => None; k_create := fun _ => None; k_residue := None; k_entry_fault := fun _ => None; k_list_fault := fun _ => None;
  k_replace := {| d_parent := None; d_exists := None; d_backup_exists := None; d_to_backup := None;
    d_install := None; d_rollback := None; d_residue := None |} |}.
Definition sample_local_dirs : local_dir := {[ lit "d" := NDir [(lit "old", LOther)] ]}.
Definition sample_answer : result CommandOutput SshMcpError :=
  Ok {| stdout := []; stderr := []; exit_code := Some 0; stdout_truncated := false; stderr_truncated := false;
        stdout_total_tokens := 0; stderr_total_tokens := 0 |}.

(** A tree with a link in it is refused, and the old directory stays. *)
Lemma client_get_dir_keeps_destination_witness :
  let '(r, fs') := get_dir_with_local_staging sample_get_dir_env (fun n => n) sample_answer
    (sample_download (NDir [(lit "link", LSymlink)]) 0) (lit "/r/d") (lit "d") (lit "id") true sample_local_dirs in
  r = Err walk_symlink_error /\ (fs' !! lit "d" = sample_local_dirs !! lit "d" \/ fs' !! lit "d" = None).
Proof.
  pose proof (client_get_dir_keeps_destination sample_get_dir_env (fun n => n) sample_answer (sample_download (NDir [(lit "link", LSymlink)]) 0)
    (lit "/r/d") (lit "d") (lit "id") true sample_local_dirs (sample_download_confined _ _) ltac:(vm_compute; discriminate)) as H.
  destruct (get_dir_with_local_staging _ _ _ _ _ _ _ _ _) as [r fs'] eqn:E. apply (f_equal fst) in E as E1. vm_compute in E1.
  subst r. split; [reflexivity|]. destruct H as [_ [H|[(_ & _ & H & _)|[[=] _]]]]; [by left|by right].
Defined.
