(* ===== verification/Engine.v ===== *)
(** * The transfer engine (src/transfer/mod.rs)

    One run of a transfer: what is checked, in which order, before a transport
    is started; which transport is started with what; and the response. The
    transports are an interface ([TransportOps]) over a world [W]: exec-raw,
    sftp and scp, and rsync are in the files LocalInstall, PutRemote, PutDir and
    ClientTransfers, the local paths in LocalRoot. *)
From Stdlib Require Import ZArith String.
From stdpp Require Import base list gmap.
From S2P Require Import Prelude Errors Shell Config Output TransferTypes LocalRoot Destination Staging Clients.

Notation TransferCounts := TransferTypes.TransferCounts.

(** ** The transports *)

(** What every transport is given. *)
Record request : Type := {
  q_remote_home : str; q_id : str; q_operation : TransferOperation; q_kind : TransferKind;
  q_local_path : str; q_remote_path : str; q_overwrite : bool
}.

Definition transferred : Type := result (TransferStaging * TransferCounts) SshMcpError.

Class TransportOps (W : Type) : Type := {
  resolve_local : TransferOperation -> str -> W -> result str SshMcpError * W;
  put_file_raw : request -> W -> transferred * W;
  put_dir_raw : request -> W -> transferred * W;
  get_file_raw : request -> W -> transferred * W;
  get_dir_raw : request -> W -> transferred * W;
  openssh_transfer : TransferTransport -> OpenSshEndpoint -> request -> W -> transferred * W;
  rsync_transfer : RsyncEndpoint -> RsyncOptions -> request -> W -> transferred * W
}.

(** ** The response, field by field *)

Definition with_kind (k : TransferKind) (r : TransferResponse) : TransferResponse := {|
  ok := ok r; error := error r; params := params r; r_kind := Some k; transport_used := transport_used r;
  remote_home := remote_home r; local_root := local_root r; resolved_local_path := resolved_local_path r;
  staging := staging r; counts := counts r; elapsed_ms := elapsed_ms r; semantics := semantics r |}.
Definition with_resolved (path : str) (r : TransferResponse) : TransferResponse := {|
  ok := ok r; error := error r; params := params r; r_kind := r_kind r; transport_used := transport_used r;
  remote_home := remote_home r; local_root := local_root r; resolved_local_path := Some path;
  staging := staging r; counts := counts r; elapsed_ms := elapsed_ms r; semantics := semantics r |}.
Definition with_transferred (s : TransferStaging) (c : TransferCounts) (text : option str) (r : TransferResponse) : TransferResponse := {|
  ok := ok r; error := error r; params := params r; r_kind := r_kind r; transport_used := transport_used r;
  remote_home := remote_home r; local_root := local_root r; resolved_local_path := resolved_local_path r;
  staging := Some s; counts := Some c; elapsed_ms := elapsed_ms r; semantics := text |}.
Definition with_elapsed (ms : Z) (r : TransferResponse) : TransferResponse := {|
  ok := ok r; error := error r; params := params r; r_kind := r_kind r; transport_used := transport_used r;
  remote_home := remote_home r; local_root := local_root r; resolved_local_path := resolved_local_path r;
  staging := staging r; counts := counts r; elapsed_ms := Some ms; semantics := semantics r |}.
Definition with_ok (r : TransferResponse) : TransferResponse := {|
  ok := true; error := error r; params := params r; r_kind := r_kind r; transport_used := transport_used r;
  remote_home := remote_home r; local_root := local_root r; resolved_local_path := resolved_local_path r;
  staging := staging r; counts := counts r; elapsed_ms := elapsed_ms r; semantics := semantics r |}.

Definition put_dir_semantics : str := lit "directory transfer behavior depends on overwrite: if overwrite=true, it uses an exclusively created sibling staging directory and rollback-protected rename; if overwrite=false, it creates the destination directory and writes directly into it (no atomic swap)".
Definition put_dir_raw_semantics : str := put_dir_semantics ++ lit "; on upload error it attempts to remove the stage directory (best-effort; for overwrite=false this is the created destination directory, and partial contents may remain)".
Definition get_dir_semantics : str := lit "directory transfer writes into an exclusively created sibling staging directory under local_root, then installs it with rollback-protected rename; local_path must not normalize to '.'".

(** ** One run *)

(** What the world answers: the remote home, the probe of the remote path, the
    metadata of a local source (is it a directory), and random bytes. *)
Record answers : Type := {
  home_answer : result CommandOutput SshMcpError;
  probe_answer : result CommandOutput SshMcpError;
  source_is_dir : result bool str;
  random_bytes : result bytes str
}.

Section engine.
Context {W : Type} `{TransportOps W} (root : str) (env : answers) (ssh : TransferSshOptions).

Definition resolve_kind (p : TransferParams) : result TransferKind SshMcpError :=
  match kind p with
  | Some k => Ok k
  | None =>
      match t_operation p with
      | Put =>
          let? _ := rmap_err InvalidParams (safe_join_local_root root (local_path p)) in
          match source_is_dir env with
          | Err m => Err (Io m)
          | Ok is_dir => Ok (if (is_dir : bool) then Directory else File)
          end
      | Get => probe_remote_kind (remote_path p) (probe_answer env)
      end
  end.

Definition next_attempt_token : result str SshMcpError :=
  match random_bytes env with
  | Err m => Err (Connection (lit "failed to create staging token: " ++ m))
  | Ok b => Ok (attempt_token b)
  end.

(** A kind the caller gave is checked against the remote path before a get. *)
Definition check_remote_kind (k : TransferKind) (p : TransferParams) : result unit SshMcpError :=
  match t_operation p, kind p with
  | Get, Some _ =>
      let? remote := probe_remote_kind (remote_path p) (probe_answer env) in
      if bool_decide (remote = k) then Ok tt
      else Err (InvalidParams match k with File => lit "remote_path is not a file" | Directory => lit "remote_path is not a directory" end)
  | _, _ => Ok tt
  end.

Definition request_of (home id : str) (k : TransferKind) (path : str) (p : TransferParams) : request := {|
  q_remote_home := home; q_id := id; q_operation := t_operation p; q_kind := k; q_local_path := path;
  q_remote_path := remote_path p; q_overwrite := overwrite p |}.

(** [?] on a transport's result, then the assignments to the response. *)
Definition record_transfer (text : option str) (resp : TransferResponse) (r : transferred * W) : result unit SshMcpError * TransferResponse * W :=
  match r with
  | (Ok (s, c), w) => (Ok tt, with_transferred s c text resp, w)
  | (Err e, w) => (Err e, resp, w)
  end.

Definition run_exec_raw (home id : str) (k : TransferKind) (resp : TransferResponse) (w : W) : result unit SshMcpError * TransferResponse * W :=
  let p := params resp in
  match resolve_local (t_operation p) (local_path p) w with
  | (Err e, w) => (Err e, resp, w)
  | (Ok path, w) =>
      let resp := with_resolved path resp in
      let q := request_of home id k path p in
      match t_operation p with
      | Put =>
          match k with
          | File => record_transfer None resp (put_file_raw q w)
          | Directory => record_transfer (Some put_dir_raw_semantics) resp (put_dir_raw q w)
          end
      | Get =>
          match check_remote_kind k p with
          | Err e => (Err e, resp, w)
          | Ok _ =>
              match k with
              | File => record_transfer None resp (get_file_raw q w)
              | Directory => record_transfer (Some get_dir_semantics) resp (get_dir_raw q w)
              end
          end
      end
  end.

Definition client_semantics (op : TransferOperation) (k : TransferKind) : option str :=
  match k, op with
  | File, _ => None
  | Directory, Put => Some put_dir_semantics
  | Directory, Get => Some get_dir_semantics
  end.

(** The jump host's key, on Unix. *)
Definition jump_unsupported (reason : str) : option str :=
  match ts_jump ssh with
  | Some jump => match tj_key_path jump with None => Some reason | Some _ => None end
  | None => None
  end.

Definition unsupported (t : TransferTransport) (reason : str) : SshMcpError :=
  ConfigError (lit "transport " ++ transport_debug t ++ lit " unsupported: " ++ reason).

(** What both client transports do once the keys are there. *)
Definition run_client_transport (home id : str) (k : TransferKind) (start : request -> W -> transferred * W) (resp : TransferResponse) (w : W) :
    result unit SshMcpError * TransferResponse * W :=
  let p := params resp in
  match resolve_local (t_operation p) (local_path p) w with
  | (Err e, w) => (Err e, resp, w)
  | (Ok path, w) =>
      let resp := with_resolved path resp in
      match check_remote_kind k p with
      | Err e => (Err e, resp, w)
      | Ok _ => record_transfer (client_semantics (t_operation p) k) resp (start (request_of home id k path p) w)
      end
  end.

(** [t] is sftp or scp. *)
Definition run_openssh (t : TransferTransport) (home id : str) (k : TransferKind) (resp : TransferResponse) (w : W) :
    result unit SshMcpError * TransferResponse * W :=
  match ts_key_path ssh with
  | None => (Err (unsupported t (lit "SSH key required for OpenSSH transports (sftp/scp)")), resp, w)
  | Some key =>
      match jump_unsupported (lit "jump host key required for OpenSSH transports") with
      | Some reason => (Err (unsupported t reason), resp, w)
      | None =>
          run_client_transport home id k
            (openssh_transfer t {| ep_host := ts_host ssh; ep_port := ts_port ssh; ep_user := ts_user ssh; ep_key_path := key;
               ep_host_key_checking := ts_host_key_checking ssh; ep_known_hosts := ts_known_hosts ssh; ep_jump := ts_jump ssh |}) resp w
      end
  end.

Definition run_rsync (home id : str) (k : TransferKind) (resp : TransferResponse) (w : W) : result unit SshMcpError * TransferResponse * W :=
  match ts_key_path ssh with
  | None => (Err (unsupported Rsync (lit "SSH key required for rsync transport")), resp, w)
  | Some key =>
      match jump_unsupported (lit "jump host key required for rsync") with
      | Some reason => (Err (unsupported Rsync reason), resp, w)
      | None =>
          run_client_transport home id k
            (rsync_transfer {| ep_host := ts_host ssh; ep_port := ts_port ssh; ep_user := ts_user ssh; ep_key_path := Some key;
               ep_host_key_checking := ts_host_key_checking ssh; ep_known_hosts := ts_known_hosts ssh; ep_jump := ts_jump ssh |}
               (rsync_options (params resp))) resp w
      end
  end.

(** The keys in use, the world, and the progress events. [meanwhile]: what
    other transfers do to the keys while the transport runs. *)
Record engine_state : Type := { active : gset str; world : W; emitted : list TransferEvent }.

Definition run_inner (meanwhile : gset str -> gset str) (elapsed : Z) (p : TransferParams) (s : engine_state) : TransferResponse * engine_state :=
  let stop resp evs := (with_elapsed elapsed resp, {| active := active s; world := world s; emitted := emitted s ++ evs |}) in
  match resolve_remote_home (home_answer env) with
  | Err e =>
      (response_error p root (lit "failed to resolve remote HOME: " ++ error_display e),
       {| active := active s; world := world s; emitted := emitted s ++ [EvPreparing] |})
  | Ok home =>
      let resp := response_ok_stub p (transport p) home root in
      match resolve_kind p with
      | Err e => stop (set_error resp (lit "failed to resolve transfer kind: " ++ error_display e)) [EvPreparing]
      | Ok k =>
          let resp := with_kind k resp in
          match reserve_destination root (t_operation p) (local_path p) (remote_path p) (active s) with
          | (Err e, _) => stop (set_error resp (error_display e)) [EvPreparing]
          | (Ok key, held) =>
              let release w evs := {| active := release_destination key (meanwhile held); world := w; emitted := emitted s ++ evs |} in
              match next_attempt_token with
              | Err e => (with_elapsed elapsed (set_error resp (error_display e)), release (world s) [EvPreparing])
              | Ok id =>
                  let '(result, resp, w) :=
                    match transport p with
                    | ExecRaw => run_exec_raw home id k resp (world s)
                    | Sftp => run_openssh Sftp home id k resp (world s)
                    | Scp => run_openssh Scp home id k resp (world s)
                    | Rsync => run_rsync home id k resp (world s)
                    end in
                  let resp := match result with Ok _ => with_ok resp | Err e => set_error resp (error_display e) end in
                  (with_elapsed elapsed resp, release w [EvPreparing; EvTransferring (transport p)])
              end
          end
      end
  end.

(** ** What a run does *)

(** The transport a request goes to, with its endpoint. *)
Inductive launch : Type :=
  | LaunchRaw
  | LaunchOpenSsh (t : TransferTransport) (e : OpenSshEndpoint)
  | LaunchRsync (e : RsyncEndpoint) (o : RsyncOptions).

Definition perform (l : launch) (q : request) (w : W) : transferred * W :=
  match l with
  | LaunchRaw =>
      match q_operation q, q_kind q with
      | Put, File => put_file_raw q w
      | Put, Directory => put_dir_raw q w
      | Get, File => get_file_raw q w
      | Get, Directory => get_dir_raw q w
      end
  | LaunchOpenSsh t e => openssh_transfer t e q w
  | LaunchRsync e o => rsync_transfer e o q w
  end.

(** The endpoint is the configured one, and no key is missing. *)
Definition endpoint_of {K} (key : K) (e : Endpoint K) : Prop :=
  e = {| ep_host := ts_host ssh; ep_port := ts_port ssh; ep_user := ts_user ssh; ep_key_path := key;
         ep_host_key_checking := ts_host_key_checking ssh; ep_known_hosts := ts_known_hosts ssh; ep_jump := ts_jump ssh |} /\
  forall jump, ts_jump ssh = Some jump -> is_Some (tj_key_path jump).

Definition launches (t : TransferTransport) (o : RsyncOptions) (l : launch) : Prop :=
  match l with
  | LaunchRaw => t = ExecRaw
  | LaunchOpenSsh t' e => t = t' /\ (t = Sftp \/ t = Scp) /\ exists key, ts_key_path ssh = Some key /\ endpoint_of key e
  | LaunchRsync e o' => t = Rsync /\ o' = o /\ exists key, ts_key_path ssh = Some key /\ endpoint_of (Some key) e
  end.

(** Nothing was started: an error, and at most the parent directories of a
    local target were made. *)
Definition refused_before (p : TransferParams) (resp : TransferResponse) (w w' : W) : Prop :=
  ok resp = false /\ is_Some (error resp) /\ counts resp = None /\ staging resp = None /\
  (w' = w \/ w' = (resolve_local (t_operation p) (local_path p) w).2).

(** One transport ran, once, and the response is its outcome. *)
Definition ran (p : TransferParams) (home id : str) (k : TransferKind) (resp : TransferResponse) (w w' : W) : Prop :=
  exists path l, let q := request_of home id k path p in
    (resolve_local (t_operation p) (local_path p) w).1 = Ok path /\ check_remote_kind k p = Ok tt /\
    launches (transport p) (rsync_options p) l /\
    let '(r, w2) := perform l q (resolve_local (t_operation p) (local_path p) w).2 in
    w' = w2 /\ resolved_local_path resp = Some path /\
    match r with
    | Ok (st, c) => ok resp = true /\ error resp = None /\ staging resp = Some st /\ counts resp = Some c
    | Err e => ok resp = false /\ error resp = Some (error_display e) /\ staging resp = None /\ counts resp = None
    end.

Definition blank (p : TransferParams) (k : TransferKind) (resp : TransferResponse) : Prop :=
  ok resp = false /\ error resp = None /\ counts resp = None /\ staging resp = None /\ params resp = p /\ r_kind resp = Some k.

Definition finish_response (x : result unit SshMcpError * TransferResponse * W) : TransferResponse * W :=
  let '(result, resp, w) := x in
  (match result with Ok _ => with_ok resp | Err e => set_error resp (error_display e) end, w).

Definition transport_outcome (p : TransferParams) (home id : str) (k : TransferKind) (w : W)
    (x : result unit SshMcpError * TransferResponse * W) : Prop :=
  let '(resp, w') := finish_response x in
  params resp = p /\ r_kind resp = Some k /\ (refused_before p resp w w' \/ ran p home id k resp w w').

Lemma outcome_refused p home id k w e resp w' :
  params resp = p -> r_kind resp = Some k -> counts resp = None -> staging resp = None ->
  w' = w \/ w' = (resolve_local (t_operation p) (local_path p) w).2 ->
  transport_outcome p home id k w (Err e, resp, w').
Proof. intros. unfold transport_outcome. cbn. split_and!; [done..|]. left. by split_and!. Qed.

Lemma outcome_ran p home id k w path l text resp w1 :
  blank p k resp -> resolve_local (t_operation p) (local_path p) w = (Ok path, w1) -> check_remote_kind k p = Ok tt ->
  launches (transport p) (rsync_options p) l ->
  transport_outcome p home id k w (record_transfer text (with_resolved path resp) (perform l (request_of home id k path p) w1)).
Proof.
  intros (Hok & He & Hc & Hs & Hp & Hk) Hr Hkind Hl. unfold transport_outcome.
  destruct (perform l _ w1) as [[[st c]|e] w2] eqn:E; cbn; (split_and!; [done..|]); right;
    exists path, l; rewrite Hr; cbn [fst snd]; (split_and!; [done..|]); rewrite E; by split_and!.
Qed.

Lemma run_exec_raw_outcome p home id k resp w :
  transport p = ExecRaw -> blank p k resp -> transport_outcome p home id k w (run_exec_raw home id k resp w).
Proof.
  intros Ht Hb. pose proof Hb as (_ & _ & Hc & Hs & Hp & Hk). unfold run_exec_raw. rewrite Hp.
  destruct (resolve_local _ _ w) as [[path|e] w1] eqn:Er; [|apply outcome_refused; [done..|right; by rewrite Er]].
  set (q := request_of home id k path p).
  assert (Hran : forall text, check_remote_kind k p = Ok tt ->
    transport_outcome p home id k w (record_transfer text (with_resolved path resp)
      match t_operation p, k with
      | Put, File => put_file_raw q w1 | Put, Directory => put_dir_raw q w1
      | Get, File => get_file_raw q w1 | Get, Directory => get_dir_raw q w1
      end)) by (intros; by apply (outcome_ran p home id k w path LaunchRaw)).
  destruct (t_operation p) eqn:Eo.
  - assert (check_remote_kind k p = Ok tt) as Hkind by (unfold check_remote_kind; by rewrite Eo).
    destruct k; by apply Hran.
  - destruct (check_remote_kind k p) as [[]|e] eqn:Hkind; [|apply outcome_refused; [done..|right; by rewrite Eo, Er]].
    destruct k; by apply Hran.
Qed.

Lemma run_client_outcome p home id k start l resp w :
  (forall q w, start q w = perform l q w) -> launches (transport p) (rsync_options p) l -> blank p k resp ->
  transport_outcome p home id k w (run_client_transport home id k start resp w).
Proof.
  intros Hst Hl Hb. pose proof Hb as (_ & _ & Hc & Hs & Hp & Hk). unfold run_client_transport. rewrite Hp.
  destruct (resolve_local _ _ w) as [[path|e] w1] eqn:Er; [|apply outcome_refused; [done..|right; by rewrite Er]].
  destruct (check_remote_kind k p) as [[]|e] eqn:Hkind; [|apply outcome_refused; [done..|right; by rewrite Er]].
  rewrite Hst. by apply outcome_ran.
Qed.

Lemma jump_keys reason : jump_unsupported reason = None -> forall jump, ts_jump ssh = Some jump -> is_Some (tj_key_path jump).
Proof. unfold jump_unsupported. intros Hj jump E. rewrite E in Hj. by destruct (tj_key_path jump); [eexists|]. Qed.

Lemma run_openssh_outcome p t home id k resp w :
  transport p = t -> t = Sftp \/ t = Scp -> blank p k resp -> transport_outcome p home id k w (run_openssh t home id k resp w).
Proof.
  intros Ht Ht2 Hb. pose proof Hb as (_ & _ & Hc & Hs & Hp & Hk). unfold run_openssh.
  destruct (ts_key_path ssh) as [key|] eqn:Ek; [|apply outcome_refused; [done..|by left]].
  destruct (jump_unsupported _) as [reason|] eqn:Ej; [apply outcome_refused; [done..|by left]|].
  eapply run_client_outcome with (l := LaunchOpenSsh t _); [done| |done].
  split_and!; [done|by rewrite Ht|]. exists key. split; [done|]. split; [done|by eapply jump_keys].
Qed.

Lemma run_rsync_outcome p home id k resp w :
  transport p = Rsync -> blank p k resp -> transport_outcome p home id k w (run_rsync home id k resp w).
Proof.
  intros Ht Hb. pose proof Hb as (_ & _ & Hc & Hs & Hp & Hk). unfold run_rsync.
  destruct (ts_key_path ssh) as [key|] eqn:Ek; [|apply outcome_refused; [done..|by left]].
  destruct (jump_unsupported _) as [reason|] eqn:Ej; [apply outcome_refused; [done..|by left]|].
  rewrite Hp. eapply run_client_outcome with (l := LaunchRsync _ (rsync_options p)); [done| |done].
  split_and!; [done|done|]. exists key. split; [done|]. split; [done|by eapply jump_keys].
Qed.

Definition sent_events (p : TransferParams) (s s' : engine_state) : Prop :=
  emitted s' = emitted s ++ [EvPreparing] \/ emitted s' = emitted s ++ [EvPreparing; EvTransferring (transport p)].

(** The run held its destination's key, free until then, and freed it. *)
Definition held_and_freed (meanwhile : gset str -> gset str) (p : TransferParams) (s s' : engine_state) : Prop :=
  exists key, destination_key root (t_operation p) (local_path p) (remote_path p) = Ok key /\ key ∉ active s /\
    active s' = release_destination key (meanwhile ({[key]} ∪ active s)).

Ltac refused_here := split; [done|]; split; [by left|]; left; split; [split_and!; [done..|by left]|by left].

(** What a run that was left to end comes to: nothing was started and the key,
    if it was taken, is free again; or one transport ran while the key was held. *)
Definition run_outcome (meanwhile : gset str -> gset str) (p : TransferParams) (resp : TransferResponse) (s s' : engine_state) : Prop :=
  sent_events p s s' /\
  ((refused_before p resp (world s) (world s') /\ (active s' = active s \/ held_and_freed meanwhile p s s')) \/
   exists home id k,
     resolve_remote_home (home_answer env) = Ok home /\ resolve_kind p = Ok k /\ next_attempt_token = Ok id /\
     r_kind resp = Some k /\ held_and_freed meanwhile p s s' /\ ran p home id k resp (world s) (world s')).

Lemma run_inner_outcome meanwhile elapsed p s :
  let '(resp, s') := run_inner meanwhile elapsed p s in params resp = p /\ run_outcome meanwhile p resp s s'.
Proof.
  unfold run_inner. destruct (resolve_remote_home _) as [home|e] eqn:Eh; [|refused_here].
  destruct (resolve_kind p) as [k|e] eqn:Ekind; [|refused_here].
  unfold reserve_destination. destruct (destination_key _ _ _ _) as [key|e] eqn:Ekey; [|refused_here].
  destruct (decide (key ∈ active s)) as [Hin|Hin]; [refused_here|].
  destruct next_attempt_token as [id|e] eqn:Eid.
  2:{ split; [done|]. split; [by left|]. left. split; [split_and!; [done..|by left]|]. right. by exists key. }
  set (resp := with_kind k _). assert (Hb : blank p k resp) by done.
  set (x := match transport p with ExecRaw => _ | Sftp => _ | Scp => _ | Rsync => _ end).
  assert (Hx : transport_outcome p home id k (world s) x).
  { subst x. destruct (transport p) eqn:Et; [by apply run_exec_raw_outcome|apply run_openssh_outcome; auto..|by apply run_rsync_outcome]. }
  destruct x as [[result resp1] w]. unfold transport_outcome, finish_response in Hx. destruct Hx as (Hp & Hk & Hx).
  split; [exact Hp|]. split; [by right|].
  destruct Hx as [Hx|Hx]; [left; split; [exact Hx|right; by exists key]|right].
  exists home, id, k. split_and!; [done..|by exists key|exact Hx].
Qed.
End engine.

Arguments engine_state : clear implicits.
Arguments active {W} _. Arguments world {W} _. Arguments emitted {W} _.

(** ** Cancellation and the timeout *)

(** Why the run was stopped before it ended. *)
Inductive StopReason : Type := Cancelled | TimedOut.

(** A stopped run is cancelled, given a grace period and then dropped: while it
    asks the remote host for its home or for the kind of the path, before
    anything is reserved; or later, when [cut] is what its transport's
    operations still did until they saw the cancellation, ended or were dropped
    (dropping the run drops the guard of the destination). *)
Inductive StopPoint (W : Type) : Type :=
  | BeforeReservation
  | AtTransport (cut : TransportOps W).
Arguments BeforeReservation {W}.
Arguments AtTransport {W} cut.

Section controlled.
Context {W : Type} `{TransportOps W} (root : str) (env : answers) (ssh : TransferSshOptions).

Definition stop_message (timeout_ms : Z) (reason : StopReason) : str :=
  match reason with
  | Cancelled => lit "transfer cancelled"
  | TimedOut => lit "transfer timeout after " ++ show_uint timeout_ms ++ lit "ms"
  end.

(** The response of a stopped run, if it gave one, is not used. *)
Definition run_controlled (meanwhile : gset str -> gset str) (timeout_ms elapsed : Z) (stopped : option (StopReason * StopPoint W))
    (p : TransferParams) (s : engine_state W) : TransferResponse * engine_state W :=
  match stopped with
  | None => run_inner root env ssh meanwhile elapsed p s
  | Some (reason, point) =>
      (with_elapsed elapsed (response_error p root (stop_message timeout_ms reason)),
       match point with
       | BeforeReservation => {| active := active s; world := world s; emitted := emitted s ++ [EvPreparing] |}
       | AtTransport cut => (run_inner (H := cut) root env ssh meanwhile elapsed p s).2
       end)
  end.

(** C30. A run of a transfer starts at most one transport, once, and only after
    the remote home, the kind and the local path are resolved, the kind the
    caller gave is what the remote path is, the keys the transport needs are
    configured, and the destination is reserved; the transport gets the
    configured endpoint and the resolved paths, and runs while the key is held,
    which is freed on every way out. The response says exactly what the
    transport answered: its counts and staging paths on success, its error
    otherwise; a run that started nothing is an error. A run that is cancelled
    or times out answers with that error and no counts, whatever it did; what it
    did is nothing, or what such a run does with the operations of its transport
    cut short: at most one transport, under the same conditions, with the
    destination held until then and free afterwards. *)
Theorem engine_run (meanwhile : gset str -> gset str) (timeout_ms elapsed : Z) (stopped : option (StopReason * StopPoint W))
    (p : TransferParams) (s : engine_state W) :
  let '(resp, s') := run_controlled meanwhile timeout_ms elapsed stopped p s in
  params resp = p /\
  match stopped with
  | None => run_outcome root env ssh meanwhile p resp s s'
  | Some (reason, point) =>
      ok resp = false /\ error resp = Some (stop_message timeout_ms reason) /\ counts resp = None /\ staging resp = None /\
      match point with
      | BeforeReservation => active s' = active s /\ world s' = world s /\ emitted s' = emitted s ++ [EvPreparing]
      | AtTransport cut => exists discarded, params discarded = p /\ run_outcome (H := cut) root env ssh meanwhile p discarded s s'
      end
  end.
Proof.
  unfold run_controlled. destruct stopped as [[reason [|cut]]|]; [by split_and!| |].
  - split_and!; [done..|]. pose proof (run_inner_outcome (H := cut) root env ssh meanwhile elapsed p s) as Ho.
    destruct (run_inner _ _ _ _ _ _ _) as [discarded s']. by exists discarded.
  - apply run_inner_outcome.
Qed.
End controlled.

(** ** An example: a world that records what it is asked *)

Definition no_staging : TransferStaging := {| staging_local := None; staging_remote := None |}.
Definition recorded (q : request) (w : list request) : transferred * list request := (Ok (no_staging, counts_zero), w ++ [q]).

#[export] Instance recording_ops : TransportOps (list request) := {|
  resolve_local := fun _ p w => (Ok (lit "/root/" ++ p), w);
  put_file_raw := recorded; put_dir_raw := recorded; get_file_raw := recorded; get_dir_raw := recorded;
  openssh_transfer := fun _ _ => recorded; rsync_transfer := fun _ _ => recorded |}.

Definition sample_ssh : TransferSshOptions := {|
  ts_host := lit "db"; ts_port := 22; ts_user := lit "ops"; ts_key_path := Some (lit "/k"); ts_host_key_checking := AcceptNew;
  ts_known_hosts := None; ts_jump := None |}.

Definition answer_text (t : str) : result CommandOutput SshMcpError :=
  Ok {| stdout := t; stderr := []; exit_code := Some 0; stdout_truncated := false; stderr_truncated := false;
        stdout_total_tokens := 0; stderr_total_tokens := 0 |}.

Definition sample_answers (probe : str) : answers := {|
  home_answer := answer_text (lit "/home/ops"); probe_answer := answer_text probe; source_is_dir := Ok false;
  random_bytes := Ok (replicate 16 7) |}.

Definition get_params (k : TransferKind) : TransferParams := {|
  t_operation := Get; local_path := lit "f"; remote_path := lit "/r/f"; transport := Sftp; kind := Some k; overwrite := false;
  timeout_ms := None; background := false; verbose := false; rsync_options := rsync_options_default |}.

Definition empty_state : engine_state (list request) := {| active := ∅; world := ([] : list request); emitted := [] |}.

(** A transport that is cut before it does anything. *)
Definition cut_short : TransportOps (list request) := {|
  resolve_local := resolve_local;
  put_file_raw := fun _ w => (Err (Io []), w); put_dir_raw := fun _ w => (Err (Io []), w);
  get_file_raw := fun _ w => (Err (Io []), w); get_dir_raw := fun _ w => (Err (Io []), w);
  openssh_transfer := fun _ _ _ w => (Err (Io []), w); rsync_transfer := fun _ _ _ w => (Err (Io []), w) |}.

(** The kind is right and one transport runs; it is wrong and none does; a
    cancelled run says so and leaves no key behind. *)
Lemma engine_run_witness :
  (let '(resp, s') := run_controlled (lit "/root") (sample_answers (lit "file")) sample_ssh (fun a => a) 1000 5 None (get_params File) empty_state in
   params resp = get_params File /\ ok resp = true /\ length (world s') = 1%nat) /\
  (let '(resp, s') := run_controlled (lit "/root") (sample_answers (lit "dir")) sample_ssh (fun a => a) 1000 5 None (get_params File) empty_state in
   params resp = get_params File /\ error resp = Some (lit "Invalid parameters: remote_path is not a file") /\ world s' = []) /\
  (let '(resp, s') := run_controlled (lit "/root") (sample_answers (lit "file")) sample_ssh (fun a => a) 1000 5 (Some (TimedOut, AtTransport cut_short)) (get_params File) empty_state in
   error resp = Some (lit "transfer timeout after 1000ms") /\ world s' = [] /\ active s' = ∅).
Proof.
  split_and!.
  - pose proof (engine_run (lit "/root") (sample_answers (lit "file")) sample_ssh (fun a => a) 1000 5 None (get_params File) empty_state) as H.
    destruct (run_controlled _ _ _ _ _ _ _ _ _) as [resp s'] eqn:E. split; [apply H|]. clear H. vm_compute in E. injection E as <- <-. by split.
  - pose proof (engine_run (lit "/root") (sample_answers (lit "dir")) sample_ssh (fun a => a) 1000 5 None (get_params File) empty_state) as H.
    destruct (run_controlled _ _ _ _ _ _ _ _ _) as [resp s'] eqn:E. split; [apply H|]. clear H. vm_compute in E. injection E as <- <-. by split.
  - pose proof (engine_run (lit "/root") (sample_answers (lit "file")) sample_ssh (fun a => a) 1000 5 (Some (TimedOut, AtTransport cut_short)) (get_params File) empty_state) as H.
    destruct (run_controlled _ _ _ _ _ _ _ _ _) as [resp s'] eqn:E. split; [apply H|]. clear H. vm_compute in E. injection E as <- <-. by split.
Defined.
