(* ===== verification/Environment.v ===== *)
(** * The host environment (src/ssh/environment.rs)

    The answer of the start-up probe: records in a fixed order, each an id, a
    payload and an exit status, all ended by NUL; the parser of each field;
    and the loops that read the answer from the channel within their limits.
    The probe itself is a shell script that runs on the remote host. *)
From Stdlib Require Import ZArith String Sorted.
From stdpp Require Import base list gmap.
From S2P Require Import Prelude Errors Utf8 Channel Identification Connection Tar TarTree.

Definition STDOUT_LIMIT : nat := Z.to_nat 65536.
Definition STDERR_LIMIT : Z := 4096.
Definition SCALAR_LIMIT : Z := 1024.
Definition FILE_LIMIT : Z := 16384.
Definition PATH_LIMIT : Z := 4096.
Definition CPU_MODEL_LIMIT : Z := 256.

(** [None] is unknown. *)
Record Virtualization : Type := { container : option str; vm : option str }.

Record HostEnvironment : Type := {
  hostname : option str; os : option str; distribution : option str; kernel_release : option str;
  machine_architecture : option str; process_architecture : option str; pointer_width : option Z;
  available_cpu_parallelism : option Z; effective_uid : option Z; effective_gid : option Z; running_as_root : option bool;
  shell_executable : option str; cpu_models : option (list str); virtualization : Virtualization
}.

Definition unknown : HostEnvironment := {|
  hostname := None; os := None; distribution := None; kernel_release := None; machine_architecture := None;
  process_architecture := None; pointer_width := None; available_cpu_parallelism := None; effective_uid := None;
  effective_gid := None; running_as_root := None; shell_executable := None; cpu_models := None;
  virtualization := {| container := None; vm := None |} |}.

Definition bytes_len (l : bytes) : Z := Z.of_nat (length l).
Definition text (payload : bytes) : option str := match from_utf8 payload with Ok s => Some s | Err _ => None end.
Definition keep_if (f : str -> bool) (o : option str) : option str := s ← o; if f s then Some s else None.

(** ** Fields *)

Definition presentable (s : str) : bool := negb (str_eqb s []) && negb (existsb is_control s).

Definition scalar (payload : bytes) (limit : Z) : option str :=
  if limit <? bytes_len payload then None
  else keep_if presentable (trim <$> text payload).

Definition cpu_model (payload : bytes) : option str :=
  keep_if (fun value => presentable value && (str_len value <=? CPU_MODEL_LIMIT)) (trim <$> text payload).

(** A [u64]. *)
Definition decimal (payload : bytes) : option Z :=
  if SCALAR_LIMIT <? bytes_len payload then None
  else
    t ← trim <$> text payload;
    if negb (str_eqb t []) && forallb is_ascii_digit t then parse_uint U64_MAX t else None.

(** [u32::try_from] *)
Definition to_u32 (n : Z) : option Z := if n <=? U32_MAX then Some n else None.

Definition is_ascii_whitespace (c : char) : bool := (c =? 32) || (c =? 9) || (c =? 10) || (c =? 12) || (c =? 13).

(** [str::split_ascii_whitespace]; [word] is the word being read, reversed. *)
Fixpoint split_ws (word s : str) : list str :=
  let done := match word with [] => [] | _ => [rev word] end in
  match s with
  | [] => done
  | c :: s => if is_ascii_whitespace c then done ++ split_ws [] s else split_ws (c :: word) s
  end.
Definition split_ascii_whitespace (s : str) : list str := split_ws [] s.

(** The effective id is the second of the four on its line. *)
Definition effective_id (payload : bytes) (label : str) : option Z :=
  t ← text payload;
  line ← head (omap (strip_prefix label) (str_lines t));
  ids ← mapM (fun value => decimal (utf8_encode value) ≫= to_u32) (split_ascii_whitespace line);
  match ids with [_; effective; _; _] => Some effective | _ => None end.

(** *** The distribution's name *)

Definition comment_or_end (rest : str) : bool := match rest with [] => true | c :: _ => c =? 35 end.
Definition bare_release_char (c : char) : bool := is_ascii_alnum c || contains_char c (lit "-_.:/+@").

Fixpoint release_loop (quote : option char) (s result : str) : option str :=
  match s with
  | [] => match quote with None => Some result | Some _ => None end
  | c :: s' =>
      if bool_decide (Some c = quote) then if comment_or_end (trim_start s') then Some result else None
      else if (c =? BSL) && negb (bool_decide (quote = Some SQ)) then
        match s' with
        | [] => None
        | next :: s'' =>
            let kept := if bool_decide (quote = Some DQ) && negb (contains_char next (36 :: 96 :: DQ :: [BSL])) then [BSL] else [] in
            release_loop quote s'' (result ++ kept ++ [next])
        end
      else if bool_decide (is_Some quote) || bare_release_char c then
        if bool_decide (quote = Some DQ) && ((c =? 36) || (c =? 96)) then None else release_loop quote s' (result ++ [c])
      else if is_ascii_whitespace c then if comment_or_end (trim_start s) then Some result else None
      else None
  end.

Definition release_value (value : str) : option str :=
  match trim value with
  | c :: body => if (c =? SQ) || (c =? DQ) then release_loop (Some c) body [] else release_loop None (c :: body) []
  | [] => release_loop None [] []
  end.

Definition release_keys : list str := [lit "PRETTY_NAME"; lit "NAME"; lit "VERSION"; lit "VERSION_ID"; lit "ID"].

(** The last assignment of a key counts, also an unusable one. *)
Definition release_line (fields : gmap str (option str)) (line : str) : gmap str (option str) :=
  match split_once_char 61 (trim line) with
  | Some (key, value) =>
      if existsb (str_eqb key) release_keys then <[key := keep_if (fun v => negb (str_eqb v [])) (release_value value)]> fields
      else fields
  | None => fields
  end.

Definition release_name (fields : gmap str (option str)) : option str :=
  let field key := mjoin (fields !! key) in
  match field (lit "PRETTY_NAME") with
  | Some pretty => Some pretty
  | None =>
      match field (lit "NAME") with
      | Some name =>
          match field (lit "VERSION") with
          | Some version => Some (name ++ [32] ++ version)
          | None =>
              match field (lit "VERSION_ID") with Some version => Some (name ++ [32] ++ version) | None => Some name end
          end
      | None => field (lit "ID")
      end
  end.

Definition distribution_name (payload : bytes) : option str :=
  t ← text payload;
  name ← release_name (foldl release_line ∅ (str_lines t));
  scalar (utf8_encode name) SCALAR_LIMIT.

(** *** The probe's own executable *)

Definition byte_at (header : bytes) (i : nat) : Z := nth i header 0.
Definition le (l : bytes) : Z := foldr (fun b n => b + 256 * n) 0 l.
Definition be (l : bytes) : Z := le (rev l).

Definition elf_machine (machine class endian : Z) : option (str * Z) :=
  match machine, class, endian with
  | 3, 1, 1 => Some (lit "x86", 32)
  | 62, 1, 1 => Some (lit "x86_64", 32)
  | 62, 2, 1 => Some (lit "x86_64", 64)
  | 40, 1, (1 | 2) => Some (lit "arm", 32)
  | 183, 2, (1 | 2) => Some (lit "aarch64", 64)
  | 20, 1, (1 | 2) => Some (lit "powerpc", 32)
  | 21, 2, (1 | 2) => Some (lit "powerpc64", 64)
  | 22, 1, 2 => Some (lit "s390", 32)
  | 22, 2, 2 => Some (lit "s390x", 64)
  | 243, 1, (1 | 2) => Some (lit "riscv32", 32)
  | 243, 2, (1 | 2) => Some (lit "riscv64", 64)
  | 258, 2, 1 => Some (lit "loongarch64", 64)
  | _, _, _ => None
  end.

Definition elf_abi (header : bytes) : option (str * Z) :=
  if negb (length header =? 64)%nat || negb (str_eqb (take 4 header) (127 :: lit "ELF")) || negb (byte_at header 6 =? 1) ||
     negb ((byte_at header 7 =? 0) || (byte_at header 7 =? 3)) then None
  else
    let endian := byte_at header 5 in
    if negb ((endian =? 1) || (endian =? 2)) then None
    else
      let read off n := (if endian =? 1 then le else be) (take n (drop off header)) in
      if negb (read 20%nat 4%nat =? 1) || negb ((read 16%nat 2%nat =? 2) || (read 16%nat 2%nat =? 3)) then None
      else elf_machine (read 18%nat 2%nat) (byte_at header 4) endian.

(** *** Containers and virtual machines *)

Definition one_of (l : list str) (s : str) : bool := existsb (str_eqb s) l.

Definition declaration_ok (value : str) : bool :=
  (str_len value <=? 64) && negb (str_eqb value []) &&
  forallb (fun c => is_ascii_lower c || is_ascii_digit c || (c =? 45) || (c =? 95)) value.

Definition container_kind (declaration marker : option str) : option str :=
  let known_marker := keep_if (one_of [lit "podman"; lit "docker"]) marker in
  match keep_if declaration_ok declaration with
  | Some d =>
      if one_of [lit "docker"; lit "podman"; lit "lxc"; lit "systemd-nspawn"; lit "openvz"] d then Some d
      else if str_eqb d (lit "lxc-libvirt") then Some (lit "lxc")
      else if str_eqb d (lit "oci") then Some (default (lit "unknown") known_marker)
      else Some (lit "unknown")
  | None => known_marker
  end.

Definition dmi_kind (value : str) : option str :=
  if str_eqb value (lit "KVM") then Some (lit "kvm")
  else if str_eqb value (lit "QEMU") then Some (lit "qemu")
  else if one_of [lit "VMware"; lit "VMware, Inc."; lit "VMware Virtual Platform"] value then Some (lit "vmware")
  else if one_of [lit "VirtualBox"; lit "innotek GmbH"] value then Some (lit "virtualbox")
  else if one_of [lit "Xen"; lit "HVM domU"] value then Some (lit "xen")
  else None.

Definition vm_kind (hypervisor_type product vendor : option str) (cpu_hypervisor : bool) : option str :=
  if bool_decide (hypervisor_type = Some (lit "xen")) then Some (lit "xen")
  else
    let product_kind :=
      if bool_decide (product = Some (lit "Virtual Machine")) && bool_decide (vendor = Some (lit "Microsoft Corporation"))
      then Some (lit "hyperv") else product ≫= dmi_kind in
    match product_kind, vendor ≫= dmi_kind with
    | Some p, Some v =>
        if (str_eqb p (lit "kvm") && str_eqb v (lit "qemu")) || (str_eqb p (lit "qemu") && str_eqb v (lit "kvm")) then Some (lit "kvm")
        else if negb (str_eqb p v) then Some (lit "unknown") else Some p
    | Some kind, None | None, Some kind => Some kind
    | None, None => if cpu_hypervisor || bool_decide (is_Some hypervisor_type) then Some (lit "unknown") else None
    end.

(** ** The snapshot *)

(** What the loop over the records keeps; [models] in the order of arrival. *)
Record probe_state : Type := {
  snapshot : HostEnvironment; models : list str; cpu_hypervisor : bool; container_decl : option str;
  container_marker : option str; hypervisor_type : option str; dmi_product : option str; dmi_vendor : option str
}.

Definition initial : probe_state := {|
  snapshot := unknown; models := []; cpu_hypervisor := false; container_decl := None; container_marker := None;
  hypervisor_type := None; dmi_product := None; dmi_vendor := None |}.

Inductive probe_id : Type :=
  | IdHostname (proc : bool) | IdOs (proc : bool) | IdDistribution | IdKernel (proc : bool) | IdMachine | IdUid | IdGid | IdStatus
  | IdShell | IdCpu | IdCpuModel (n : Z) | IdCpuHypervisor | IdContainerDecl | IdContainerMarker | IdHypervisorType | IdDmiProduct
  | IdDmiVendor | IdElf.

Definition id_text (i : probe_id) : str :=
  let proc (b : bool) := if b then lit "_proc" else [] in
  match i with
  | IdHostname b => lit "hostname" ++ proc b
  | IdOs b => lit "os" ++ proc b
  | IdDistribution => lit "distribution"
  | IdKernel b => lit "kernel" ++ proc b
  | IdMachine => lit "machine"
  | IdUid => lit "uid"
  | IdGid => lit "gid"
  | IdStatus => lit "status"
  | IdShell => lit "shell"
  | IdCpu => lit "cpu"
  | IdCpuModel n => lit "cpu_model" ++ show_uint n
  | IdCpuHypervisor => lit "cpu_hypervisor"
  | IdContainerDecl => lit "container_decl"
  | IdContainerMarker => lit "container_marker"
  | IdHypervisorType => lit "hypervisor_type"
  | IdDmiProduct => lit "dmi_product"
  | IdDmiVendor => lit "dmi_vendor"
  | IdElf => lit "elf"
  end.

Definition PROBE_IDS : list probe_id :=
  [IdHostname false; IdHostname true; IdOs false; IdOs true; IdDistribution; IdKernel false; IdKernel true; IdMachine; IdUid; IdGid;
   IdStatus; IdShell; IdCpu; IdCpuModel 1; IdCpuModel 2; IdCpuModel 3; IdCpuModel 4; IdCpuHypervisor; IdContainerDecl;
   IdContainerMarker; IdHypervisorType; IdDmiProduct; IdDmiVendor; IdElf].

Definition on_snapshot (f : HostEnvironment -> HostEnvironment) (s : probe_state) : probe_state := {|
  snapshot := f (snapshot s); models := models s; cpu_hypervisor := cpu_hypervisor s; container_decl := container_decl s;
  container_marker := container_marker s; hypervisor_type := hypervisor_type s; dmi_product := dmi_product s; dmi_vendor := dmi_vendor s |}.

(** The fields of the snapshot by name. *)
Inductive text_field : Type := FHostname | FOs | FDistribution | FKernel | FMachine | FShell.

Definition get_text (f : text_field) (e : HostEnvironment) : option str :=
  match f with
  | FHostname => hostname e | FOs => os e | FDistribution => distribution e | FKernel => kernel_release e
  | FMachine => machine_architecture e | FShell => shell_executable e
  end.

Definition set_text (f : text_field) (v : option str) (e : HostEnvironment) : HostEnvironment :=
  let pick g old := match f, g with
                    | FHostname, FHostname | FOs, FOs | FDistribution, FDistribution | FKernel, FKernel
                    | FMachine, FMachine | FShell, FShell => v
                    | _, _ => old
                    end in {|
  hostname := pick FHostname (hostname e); os := pick FOs (os e); distribution := pick FDistribution (distribution e);
  kernel_release := pick FKernel (kernel_release e); machine_architecture := pick FMachine (machine_architecture e);
  process_architecture := process_architecture e; pointer_width := pointer_width e;
  available_cpu_parallelism := available_cpu_parallelism e; effective_uid := effective_uid e; effective_gid := effective_gid e;
  running_as_root := running_as_root e; shell_executable := pick FShell (shell_executable e); cpu_models := cpu_models e;
  virtualization := virtualization e |}.

Definition set_ids (uid gid : option Z) (e : HostEnvironment) : HostEnvironment := {|
  hostname := hostname e; os := os e; distribution := distribution e; kernel_release := kernel_release e;
  machine_architecture := machine_architecture e; process_architecture := process_architecture e; pointer_width := pointer_width e;
  available_cpu_parallelism := available_cpu_parallelism e; effective_uid := uid; effective_gid := gid;
  running_as_root := running_as_root e; shell_executable := shell_executable e; cpu_models := cpu_models e;
  virtualization := virtualization e |}.

Definition set_cpu (n : option Z) (e : HostEnvironment) : HostEnvironment := {|
  hostname := hostname e; os := os e; distribution := distribution e; kernel_release := kernel_release e;
  machine_architecture := machine_architecture e; process_architecture := process_architecture e; pointer_width := pointer_width e;
  available_cpu_parallelism := n; effective_uid := effective_uid e; effective_gid := effective_gid e;
  running_as_root := running_as_root e; shell_executable := shell_executable e; cpu_models := cpu_models e;
  virtualization := virtualization e |}.

Definition set_abi (a : str * Z) (e : HostEnvironment) : HostEnvironment := {|
  hostname := hostname e; os := os e; distribution := distribution e; kernel_release := kernel_release e;
  machine_architecture := machine_architecture e; process_architecture := Some (fst a); pointer_width := Some (snd a);
  available_cpu_parallelism := available_cpu_parallelism e; effective_uid := effective_uid e; effective_gid := effective_gid e;
  running_as_root := running_as_root e; shell_executable := shell_executable e; cpu_models := cpu_models e;
  virtualization := virtualization e |}.

Definition or_else {A} (a b : option A) : option A := match a with Some _ => a | None => b end.

(** A field that is known already is not asked again. *)
Definition first_text (f : text_field) (payload : bytes) (s : probe_state) : probe_state :=
  match get_text f (snapshot s) with
  | None => on_snapshot (set_text f (scalar payload SCALAR_LIMIT)) s
  | Some _ => s
  end.

Definition set_evidence (hyp : bool) (decl marker htype product vendor : option str) (ms : list str) (s : probe_state) : probe_state := {|
  snapshot := snapshot s; models := ms; cpu_hypervisor := hyp; container_decl := decl; container_marker := marker;
  hypervisor_type := htype; dmi_product := product; dmi_vendor := vendor |}.

(** The [match id] of the loop, for a record whose status is 0. *)
Definition use_record (i : probe_id) (payload : bytes) (s : probe_state) : probe_state :=
  let e := snapshot s in
  let short := scalar payload SCALAR_LIMIT in
  match i with
  | IdHostname _ => first_text FHostname payload s
  | IdOs _ => first_text FOs payload s
  | IdKernel _ => first_text FKernel payload s
  | IdDistribution =>
      if bytes_len payload <=? FILE_LIMIT then on_snapshot (set_text FDistribution (distribution_name payload)) s else s
  | IdMachine => on_snapshot (set_text FMachine short) s
  | IdUid => on_snapshot (set_ids (decimal payload ≫= to_u32) (effective_gid e)) s
  | IdGid => on_snapshot (set_ids (effective_uid e) (decimal payload ≫= to_u32)) s
  | IdStatus =>
      if bytes_len payload <=? FILE_LIMIT then
        on_snapshot (set_ids (or_else (effective_uid e) (effective_id payload (lit "Uid:")))
                             (or_else (effective_gid e) (effective_id payload (lit "Gid:")))) s
      else s
  | IdShell => on_snapshot (set_text FShell (keep_if (starts_with [SLASH]) (scalar payload PATH_LIMIT))) s
  | IdCpu => on_snapshot (set_cpu (n ← decimal payload; if 0 <? n then Some n else None)) s
  | IdCpuModel _ =>
      match cpu_model payload with
      | Some m => set_evidence (cpu_hypervisor s) (container_decl s) (container_marker s) (hypervisor_type s) (dmi_product s) (dmi_vendor s) (models s ++ [m]) s
      | None => s
      end
  | IdCpuHypervisor => set_evidence (str_eqb payload (lit "1")) (container_decl s) (container_marker s) (hypervisor_type s) (dmi_product s) (dmi_vendor s) (models s) s
  | IdContainerDecl => set_evidence (cpu_hypervisor s) short (container_marker s) (hypervisor_type s) (dmi_product s) (dmi_vendor s) (models s) s
  | IdContainerMarker => set_evidence (cpu_hypervisor s) (container_decl s) short (hypervisor_type s) (dmi_product s) (dmi_vendor s) (models s) s
  | IdHypervisorType => set_evidence (cpu_hypervisor s) (container_decl s) (container_marker s) short (dmi_product s) (dmi_vendor s) (models s) s
  | IdDmiProduct => set_evidence (cpu_hypervisor s) (container_decl s) (container_marker s) (hypervisor_type s) short (dmi_vendor s) (models s) s
  | IdDmiVendor => set_evidence (cpu_hypervisor s) (container_decl s) (container_marker s) (hypervisor_type s) (dmi_product s) short (models s) s
  | IdElf => match elf_abi payload with Some a => on_snapshot (set_abi a) s | None => s end
  end.

Definition apply_record (i : probe_id) (r : bytes * bytes) (s : probe_state) : probe_state :=
  if str_eqb (snd r) (lit "0") then use_record i (fst r) s else s.

(** ** Framing *)

Fixpoint nul_value (input : bytes) : option (bytes * bytes) :=
  match input with
  | [] => None
  | c :: input => if c =? NUL then Some ([], input) else '(v, rest) ← nul_value input; Some (c :: v, rest)
  end.

Definition take_payload (i : probe_id) (input : bytes) : option (bytes * bytes) :=
  match i with
  | IdElf =>
      if (length input <? 65)%nat || negb (byte_at input 64 =? NUL) then None else Some (take 64 input, drop 65 input)
  | _ => nul_value input
  end.

(** One record: payload and status. *)
Definition next_record (i : probe_id) (input : bytes) : option ((bytes * bytes) * bytes) :=
  '(name, input) ← nul_value input;
  if negb (str_eqb name (id_text i)) then None
  else
    '(payload, input) ← take_payload i input;
    '(status, input) ← nul_value input;
    Some ((payload, status), input).

(** The first record that is not there ends the loop. *)
Fixpoint read_records (ids : list probe_id) (input : bytes) (s : probe_state) : probe_state :=
  match ids with
  | [] => s
  | i :: ids =>
      match next_record i input with
      | None => s
      | Some (r, input) => read_records ids input (apply_record i r s)
      end
  end.

(** [Vec::dedup] *)
Fixpoint dedup (l : list str) : list str :=
  match l with
  | x :: t => match t with y :: _ => if str_eqb x y then dedup t else x :: dedup t | [] => [x] end
  | [] => []
  end.

Definition sorted_models (l : list str) : option (list str) :=
  match dedup (sort_by (fun m => m) l) with [] => None | ms => Some ms end.

Definition finish (s : probe_state) : HostEnvironment :=
  let e := snapshot s in {|
  hostname := hostname e; os := os e; distribution := distribution e; kernel_release := kernel_release e;
  machine_architecture := machine_architecture e; process_architecture := process_architecture e; pointer_width := pointer_width e;
  available_cpu_parallelism := available_cpu_parallelism e; effective_uid := effective_uid e; effective_gid := effective_gid e;
  running_as_root := (fun uid => uid =? 0) <$> effective_uid e; shell_executable := shell_executable e;
  cpu_models := sorted_models (models s);
  virtualization := {| container := container_kind (container_decl s) (container_marker s);
                       vm := vm_kind (hypervisor_type s) (dmi_product s) (dmi_vendor s) (cpu_hypervisor s) |} |}.

Definition PROBE_HEADER : bytes := lit "SE1" ++ [NUL].

Definition parse_snapshot (raw : bytes) : HostEnvironment :=
  match strip_prefix PROBE_HEADER raw with
  | None => unknown
  | Some input => finish (read_records PROBE_IDS input initial)
  end.

(** ** Reading the channel *)

(** At most the room that is left; [true] when bytes were dropped. *)
Definition append_bounded (output data : bytes) (limit : nat) : bytes * bool :=
  let remaining := (limit - length output)%nat in
  (output ++ take (Nat.min (length data) remaining) data, (remaining <? length data)%nat).

(** The messages until the channel ends, a limit is passed, or the deadline
    (the end of the list): whatever arrived is used. *)
Fixpoint collect_loop (ms : list (option ChannelMsg)) (stdout : bytes) (stderr_bytes : Z) : bytes :=
  match ms with
  | [] => stdout
  | Some (Data data) :: ms =>
      let '(stdout, dropped) := append_bounded stdout data STDOUT_LIMIT in
      if (dropped : bool) then stdout else collect_loop ms stdout stderr_bytes
  | Some (ExtendedData _ data) :: ms =>
      let n := saturating_add USIZE_MAX stderr_bytes (bytes_len data) in
      if STDERR_LIMIT <? n then stdout else collect_loop ms stdout n
  | Some (Failure | Close) :: _ | None :: _ => stdout
  | Some _ :: ms => collect_loop ms stdout stderr_bytes
  end.

(** [executed]: a failure of the exec request; the deadline may come first. *)
Definition collect (executed : option str) (ms : list (option ChannelMsg)) : result HostEnvironment SshMcpError :=
  match executed with
  | Some e => Err (Connection (lit "Environment exec failed: " ++ e))
  | None => Ok (parse_snapshot (collect_loop ms [] 0))
  end.

Definition ECHO_PAYLOAD : bytes := lit "SeSSHion" ++ [0; 255; 128; 13; 10].

Fixpoint echo_loop (ms : list (option ChannelMsg)) (stdout : bytes) (stderr_bytes : Z) (exit : option Z) : bool :=
  match ms with
  | [] => false
  | Some (Data data) :: ms =>
      let '(stdout, dropped) := append_bounded stdout data (length ECHO_PAYLOAD) in
      if (dropped : bool) then false else echo_loop ms stdout stderr_bytes exit
  | Some (ExtendedData _ data) :: ms =>
      let n := saturating_add USIZE_MAX stderr_bytes (bytes_len data) in
      if STDERR_LIMIT <? n then false else echo_loop ms stdout n exit
  | Some (ExitStatus code) :: ms => echo_loop ms stdout stderr_bytes (Some code)
  | Some (Failure | ExitSignal _) :: _ => false
  | Some Close :: _ | None :: _ => str_eqb stdout ECHO_PAYLOAD && bool_decide (exit = Some 0)
  | Some _ :: ms => echo_loop ms stdout stderr_bytes exit
  end.

(** The three requests may fail; a deadline is a negative answer. *)
Definition collect_binary_echo (executed sent eof : option str) (ms : list (option ChannelMsg)) : result bool SshMcpError :=
  match executed, sent, eof with
  | Some e, _, _ => Err (Connection (lit "Raw preflight exec failed: " ++ e))
  | None, Some e, _ => Err (Connection (lit "Raw preflight stdin failed: " ++ e))
  | None, None, Some e => Err (Connection (lit "Raw preflight EOF failed: " ++ e))
  | None, None, None => Ok (echo_loop ms [] 0 None)
  end.

(** The route the answer came over is still the manager's, and open. *)
Definition still_on (m : manager) (g : Z) : bool :=
  match session m with Some r => (generation r =? g) && negb (r_closed r) && negb (shutting_down m) | None => false end.

(** What happens before the operation ends, if anything: the [select] is biased
    towards these, in this order. *)
Inductive interruption : Type := ByCancellation | ByShutdown | ByDeadline.

Definition BOOTSTRAP_BUDGET_MS : Z := 3000.

Definition interrupted (what : str) (i : interruption) : SshMcpError :=
  match i with
  | ByCancellation => Connection (what ++ lit " cancelled")
  | ByShutdown => shutting_down_error
  | ByDeadline => Timeout BOOTSTRAP_BUDGET_MS
  end.

(** [opened]: connecting, waiting for a slot and opening the channel on the
    route of a generation; [m]: the manager when the answer is there. *)
Definition collect_startup_environment (interrupt : option interruption) (opened : result Z SshMcpError)
    (answer : result HostEnvironment SshMcpError) (cancelled : bool) (m : manager) : result HostEnvironment SshMcpError :=
  match interrupt with
  | Some i => Err (interrupted (lit "Startup environment collection") i)
  | None =>
      let? g := opened in
      let? e := answer in
      if (cancelled : bool) then Err (Connection (lit "Startup environment collection cancelled"))
      else if negb (still_on m g) then Err (Connection (lit "SSH route changed during startup environment collection"))
      else Ok e
  end.

Definition probe_startup_exec_raw (interrupt : option interruption) (opened : result Z SshMcpError)
    (passed : result bool SshMcpError) (cancelled : bool) (m : manager) : result bool SshMcpError :=
  match interrupt with
  | Some i => Err (interrupted (lit "Startup raw preflight") i)
  | None =>
      let? g := opened in
      let? ok := passed in
      Ok ((ok : bool) && negb cancelled && still_on m g)
  end.

(** ** A cut answer *)

Definition enc_record (i : probe_id) (r : bytes * bytes) : bytes := id_text i ++ NUL :: fst r ++ NUL :: snd r ++ [NUL].
Definition enc_records (ids : list probe_id) (rs : list (bytes * bytes)) : bytes := concat (zip_with enc_record ids rs).

(** What the script prints: the executable's header is 64 bytes, everything
    else has no NUL. *)
Definition record_ok (i : probe_id) (r : bytes * bytes) : Prop :=
  NUL ∉ id_text i /\ NUL ∉ snd r /\ match i with IdElf => length (fst r) = 64%nat | _ => NUL ∉ fst r end.

#[export] Instance record_ok_dec i r : Decision (record_ok i r).
Proof. unfold record_ok. destruct i; apply _. Defined.

Definition apply_records (ids : list probe_id) (rs : list (bytes * bytes)) (s : probe_state) : probe_state :=
  foldl (fun s ir => apply_record (fst ir) (snd ir) s) s (zip ids rs).

Lemma nul_value_stop v rest : NUL ∉ v -> nul_value (v ++ NUL :: rest) = Some (v, rest).
Proof.
  intros Hv. induction v as [|c v IH]; [done|]. cbn [app nul_value]. apply not_elem_of_cons in Hv as [Hc Hv].
  destruct (c =? NUL) eqn:E; [bool_hyps; congruence|]. by rewrite IH.
Qed.

Lemma nul_value_none v : NUL ∉ v -> nul_value v = None.
Proof.
  intros Hv. induction v as [|c v IH]; [done|]. cbn [nul_value]. apply not_elem_of_cons in Hv as [Hc Hv].
  destruct (c =? NUL) eqn:E; [bool_hyps; congruence|]. by rewrite IH.
Qed.

Lemma not_elem_take (v : bytes) k : NUL ∉ v -> NUL ∉ take k v.
Proof. intros Hv Hin. apply Hv. rewrite <- (take_drop k v). apply elem_of_app. by left. Qed.

(** The first [k] bytes of a value and what follows it. *)
Lemma nul_value_cut v rest k :
  NUL ∉ v -> nul_value (take k (v ++ NUL :: rest)) = if (k <=? length v)%nat then None else Some (v, take (k - S (length v)) rest).
Proof.
  intros Hv. destruct (Nat.leb_spec k (length v)).
  - rewrite take_app_le by done. by apply nul_value_none, not_elem_take.
  - rewrite take_app_ge by lia. replace (k - length v)%nat with (S (k - S (length v))) by lia. cbn [take]. by apply nul_value_stop.
Qed.

Lemma take_payload_elf v rest k :
  length v = 64%nat ->
  take_payload IdElf (take k (v ++ NUL :: rest)) = if (k <=? 64)%nat then None else Some (v, take (k - 65) rest).
Proof.
  intros Hv. unfold take_payload, byte_at. rewrite length_take, length_app. cbn [length].
  destruct (Nat.leb_spec k 64).
  - destruct (Nat.ltb_spec (k `min` (length v + S (length rest))) 65); [done|lia].
  - destruct (Nat.ltb_spec (k `min` (length v + S (length rest))) 65); [lia|].
    rewrite take_app_ge by lia. replace (k - length v)%nat with (S (k - 65)) by lia. cbn [take].
    rewrite app_nth2 by lia. rewrite Hv. cbn [nth Nat.sub orb negb].
    rewrite take_app_length' by done. rewrite drop_app_ge by lia. by rewrite Hv.
Qed.

Lemma take_payload_cut i v rest k :
  match i with IdElf => length v = 64%nat | _ => NUL ∉ v end ->
  take_payload i (take k (v ++ NUL :: rest)) = if (k <=? length v)%nat then None else Some (v, take (k - S (length v)) rest).
Proof. intros Hv. destruct i; try by apply nul_value_cut. rewrite Hv. by apply take_payload_elf. Qed.

Lemma next_record_cut i r rest k :
  record_ok i r ->
  next_record i (take k (enc_record i r ++ rest)) =
  if (k <? length (enc_record i r))%nat then None else Some (r, take (k - length (enc_record i r)) rest).
Proof.
  intros (Hi & Hs & Hp). destruct r as [payload status]. unfold enc_record, next_record. cbn [fst snd] in *.
  assert (Hlen : length (id_text i ++ NUL :: payload ++ NUL :: status ++ [NUL]) =
    (length (id_text i) + S (length payload + S (length status + 1)))%nat) by (rewrite !length_app; cbn; rewrite !length_app; cbn; rewrite length_app; done).
  rewrite Hlen, <- !app_assoc. cbn [app]. rewrite <- !app_assoc. cbn [app]. rewrite <- !app_assoc. cbn [app].
  rewrite nul_value_cut by done. destruct (Nat.leb_spec k (length (id_text i))).
  { destruct (Nat.ltb_spec k (length (id_text i) + S (length payload + S (length status + 1)))); [done|lia]. }
  cbn [mbind option_bind]. rewrite str_eqb_refl. cbn [negb]. rewrite take_payload_cut by done.
  destruct (Nat.leb_spec (k - S (length (id_text i))) (length payload)).
  { destruct (Nat.ltb_spec k (length (id_text i) + S (length payload + S (length status + 1)))); [done|lia]. }
  cbn [mbind option_bind]. rewrite nul_value_cut by done.
  destruct (Nat.leb_spec (k - S (length (id_text i)) - S (length payload)) (length status)).
  { destruct (Nat.ltb_spec k (length (id_text i) + S (length payload + S (length status + 1)))); [done|lia]. }
  destruct (Nat.ltb_spec k (length (id_text i) + S (length payload + S (length status + 1)))); [lia|].
  cbn [mbind option_bind]. do 3 f_equal. lia.
Qed.

Lemma read_records_cut ids rs tail k n s :
  Forall2 record_ok ids rs -> (length (enc_records ids (take n rs)) <= k)%nat ->
  (length rs <= n)%nat \/ (k < length (enc_records ids (take (S n) rs)))%nat ->
  read_records ids (take k (enc_records ids rs ++ tail)) s = apply_records ids (take n rs) s.
Proof.
  intros H. revert k n s. unfold enc_records. induction H as [|i r ids rs Hir H IH]; intros k n s Hn Hk; [by rewrite take_nil|].
  cbn [zip_with concat read_records]. rewrite <- app_assoc, next_record_cut by done. destruct n as [|n].
  - destruct Hk as [Hk|Hk]; [cbn in Hk; lia|]. cbn [take zip_with concat] in Hk. rewrite take_0 in Hk.
    replace (zip_with enc_record ids []) with ([] : list bytes) in Hk by by destruct ids. cbn in Hk. rewrite app_nil_r in Hk.
    destruct (Nat.ltb_spec k (length (enc_record i r))); [done|lia].
  - cbn [take zip_with concat] in Hn. rewrite length_app in Hn.
    destruct (Nat.ltb_spec k (length (enc_record i r))); [lia|]. cbn [take]. unfold apply_records. cbn [zip zip_with foldl fst snd].
    apply IH; [lia|]. destruct Hk as [Hk|Hk]; [left; cbn in Hk; lia|right].
    change (take (S (S n)) (r :: rs)) with (r :: take (S n) rs) in Hk. cbn [zip_with concat] in Hk. rewrite length_app in Hk. lia.
Qed.

Definition probe_answer (rs : list (bytes * bytes)) : bytes := PROBE_HEADER ++ enc_records PROBE_IDS rs.

(** C33. Whatever is cut off at the end of the probe's answer (a limit, the
    deadline, a lost channel) and whatever else follows it, the snapshot is
    that of the records that arrived completely: every field of a complete
    record is used, in the fixed order, and nothing of a broken one. *)
Theorem parse_snapshot_cut (rs : list (bytes * bytes)) (tail : bytes) (k n : nat)
    (Hok : Forall2 record_ok PROBE_IDS rs)
    (Hn : n = O \/ (length (probe_answer (take n rs)) <= k)%nat)
    (Hk : (length rs <= n)%nat \/ (k < length (probe_answer (take (S n) rs)))%nat) :
  parse_snapshot (take k (probe_answer rs ++ tail)) = finish (apply_records PROBE_IDS (take n rs) initial).
Proof.
  unfold parse_snapshot, probe_answer in *. rewrite <- app_assoc. destruct (Nat.lt_ge_cases k (length PROBE_HEADER)) as [Hlt|Hge].
  - rewrite take_app_le by lia. destruct (strip_prefix PROBE_HEADER (take k PROBE_HEADER)) as [r|] eqn:E.
    { apply strip_prefix_Some, (f_equal length) in E. rewrite length_app, length_take in E. lia. }
    destruct Hn as [->|Hn]; [done|]. rewrite length_app in Hn. lia.
  - rewrite take_app_ge, strip_prefix_app by lia. f_equal. apply read_records_cut; [done| |].
    + destruct Hn as [->|Hn]; [|rewrite length_app in Hn; lia].
      assert (length (enc_records PROBE_IDS (take 0 rs)) = 0%nat) as -> by done. lia.
    + destruct Hk as [Hk|Hk]; [by left|right]. rewrite length_app in Hk. lia.
Qed.

(** A host that answered its name, then failed every other record; the answer
    was cut inside the second record. *)
Definition cut_records : list (bytes * bytes) :=
  (lit "box", lit "0") :: replicate 22 ([], lit "127") ++ [(replicate 64 0, lit "127")].

Lemma parse_snapshot_cut_witness :
  Forall2 record_ok PROBE_IDS cut_records /\
  parse_snapshot (take 30 (probe_answer cut_records ++ lit "done")) = finish (apply_records PROBE_IDS (take 1 cut_records) initial) /\
  hostname (parse_snapshot (take 30 (probe_answer cut_records ++ lit "done"))) = Some (lit "box").
Proof.
  assert (Hok : Forall2 record_ok PROBE_IDS cut_records).
  { apply (bool_decide_unpack _). vm_compute. exact I. }
  split; [exact Hok|]. split; [|vm_compute; reflexivity].
  apply (parse_snapshot_cut cut_records (lit "done") 30 1 Hok); right; apply Nat.leb_le; vm_compute; reflexivity.
Defined.

(** ** What a snapshot holds *)

Definition clean_text (max : Z) (s : str) : Prop := s <> [] /\ Forall (fun c => is_control c = false) s /\ str_len s <= max.

Definition opt_all {A} (P : A -> Prop) (o : option A) : Prop := match o with Some x => P x | None => True end.

Lemma opt_all_keep (P : str -> Prop) f o : (forall s, o = Some s -> f s = true -> P s) -> opt_all P (keep_if f o).
Proof. intros H. unfold keep_if. destruct o as [s|]; [|done]. cbn. destruct (f s) eqn:E; [by apply H|done]. Qed.

Lemma presentable_spec s : presentable s = true <-> s <> [] /\ Forall (fun c => is_control c = false) s.
Proof.
  unfold presentable. rewrite andb_true_iff, !negb_true_iff. split; intros [H1 H2]; split.
  - intros ->. by rewrite str_eqb_refl in H1.
  - apply Forall_forall. intros c Hc. apply not_true_iff_false. intros Ht. apply not_true_iff_false in H2. apply H2.
    apply existsb_exists. exists c. split; [by apply list_elem_of_In|done].
  - apply not_true_iff_false. intros E%str_eqb_spec. done.
  - apply not_true_iff_false. intros (c & Hc & E)%existsb_exists. rewrite Forall_forall in H2. rewrite H2 in E; [done|by apply list_elem_of_In].
Qed.

Lemma str_len_trim s : str_len (trim s) <= str_len s.
Proof.
  destruct (trim_decompose s) as (a & b & Hs & _). rewrite Hs at 2. rewrite !str_len_app.
  pose proof (str_len_nonneg a). pose proof (str_len_nonneg b). lia.
Qed.

Lemma text_len payload s : text payload = Some s -> str_len s = bytes_len payload.
Proof.
  unfold text. destruct (from_utf8 payload) as [t|e] eqn:E; [|done]. intros [= ->].
  apply utf8_encode_from in E. rewrite <- E. unfold bytes_len. by rewrite utf8_encode_length.
Qed.

Lemma scalar_clean payload limit : opt_all (clean_text limit) (scalar payload limit).
Proof.
  unfold scalar. destruct (limit <? bytes_len payload) eqn:El; [done|]. apply opt_all_keep. intros s Hs Hp.
  destruct (text payload) as [t|] eqn:Et; [|done]. injection Hs as <-. apply presentable_spec in Hp as [Hne Hc].
  split_and!; [done|done|]. apply text_len in Et. pose proof (str_len_trim t). bool_hyps. lia.
Qed.

Lemma cpu_model_clean payload : opt_all (clean_text CPU_MODEL_LIMIT) (cpu_model payload).
Proof.
  unfold cpu_model. apply opt_all_keep. intros s _ H. apply andb_true_iff in H as [Hp Hl]. apply presentable_spec in Hp as [Hne Hc].
  bool_hyps. by split_and!.
Qed.

Lemma decimal_bounds payload : opt_all (fun n => 0 <= n <= U64_MAX) (decimal payload).
Proof.
  unfold decimal. destruct (_ <? _); [done|]. destruct (text payload) as [t|]; [|done]. cbn.
  destruct (_ && _); [|done]. destruct (parse_uint U64_MAX (trim t)) eqn:E; [|done]. cbn. by eapply parse_uint_bounds.
Qed.

Definition id_ok (o : option Z) : Prop := opt_all (fun n => 0 <= n <= U32_MAX) o.

Lemma to_u32_ok payload : id_ok (decimal payload ≫= to_u32).
Proof.
  pose proof (decimal_bounds payload) as H. destruct (decimal payload) as [n|]; [|done]. cbn in *. unfold to_u32.
  destruct (n <=? U32_MAX) eqn:E; [|done]. bool_hyps. cbn. lia.
Qed.

Lemma mapM_ids (l : list str) ids :
  mapM (fun value => decimal (utf8_encode value) ≫= to_u32) l = Some ids -> Forall (fun n => 0 <= n <= U32_MAX) ids.
Proof.
  revert ids; induction l as [|x l IH]; intros ids; cbn; [by intros [= <-]|].
  pose proof (to_u32_ok (utf8_encode x)) as Hx. destruct (decimal (utf8_encode x) ≫= to_u32) as [n|]; [|done]. cbn.
  destruct (mapM _ l) as [r|]; [|done]. intros [= <-]. constructor; [done|by apply IH].
Qed.

Lemma effective_id_ok payload label : id_ok (effective_id payload label).
Proof.
  unfold effective_id. destruct (text payload) as [t|]; [|done]. cbn. destruct (head _) as [line|]; [|done]. cbn.
  destruct (mapM _ _) as [ids|] eqn:E; [|done]. cbn. apply mapM_ids in E.
  destruct ids as [|a [|b [|c [|d [|]]]]]; try done. cbn. inversion E as [|? ? _ E2]; subst. by inversion E2.
Qed.

Lemma distribution_clean payload : opt_all (clean_text SCALAR_LIMIT) (distribution_name payload).
Proof.
  unfold distribution_name. destruct (text payload) as [t|]; [|done]. cbn. destruct (release_name _) as [name|]; [|done]. apply scalar_clean.
Qed.

Definition known_containers : list str := [lit "docker"; lit "podman"; lit "lxc"; lit "systemd-nspawn"; lit "openvz"; lit "unknown"].
Definition known_vms : list str := [lit "xen"; lit "hyperv"; lit "kvm"; lit "qemu"; lit "vmware"; lit "virtualbox"; lit "unknown"].
Definition known_abis : list (str * Z) :=
  [(lit "x86", 32); (lit "x86_64", 32); (lit "x86_64", 64); (lit "arm", 32); (lit "aarch64", 64); (lit "powerpc", 32);
   (lit "powerpc64", 64); (lit "s390", 32); (lit "s390x", 64); (lit "riscv32", 32); (lit "riscv64", 64); (lit "loongarch64", 64)].

Lemma one_of_spec l s : one_of l s = true -> s ∈ l.
Proof. intros (x & Hx & E)%existsb_exists. apply str_eqb_spec in E as ->. by apply list_elem_of_In. Qed.

Lemma container_known d m : opt_all (fun k => k ∈ known_containers) (container_kind d m).
Proof.
  assert (Hm : opt_all (fun k => k ∈ known_containers) (keep_if (one_of [lit "podman"; lit "docker"]) m)).
  { apply opt_all_keep. intros s _ H%one_of_spec. unfold known_containers. set_solver. }
  unfold container_kind. destruct (keep_if declaration_ok d) as [s|]; [|done]. unfold known_containers in *.
  destruct (one_of _ s) eqn:E1; [apply one_of_spec in E1; cbn; set_solver|].
  destruct (str_eqb s _); [cbn; set_solver|]. destruct (str_eqb s _); [|cbn; set_solver].
  destruct (keep_if _ m); cbn in *; set_solver.
Qed.

Lemma dmi_known v : opt_all (fun k => k ∈ known_vms) (dmi_kind v).
Proof. unfold dmi_kind, known_vms. repeat case_match; cbn; set_solver. Qed.

Lemma vm_known h p v c : opt_all (fun k => k ∈ known_vms) (vm_kind h p v c).
Proof.
  unfold vm_kind. case_bool_decide; [cbn; unfold known_vms; set_solver|].
  assert (Hv : opt_all (fun k => k ∈ known_vms) (v ≫= dmi_kind)) by (destruct v; [apply dmi_known|done]).
  assert (Hp : opt_all (fun k => k ∈ known_vms) (if bool_decide (p = Some (lit "Virtual Machine")) && bool_decide (v = Some (lit "Microsoft Corporation"))
      then Some (lit "hyperv") else p ≫= dmi_kind)).
  { destruct (_ && _); [cbn; unfold known_vms; set_solver|]. destruct p; [apply dmi_known|done]. }
  set (pk := if bool_decide (p = Some (lit "Virtual Machine")) && bool_decide (v = Some (lit "Microsoft Corporation"))
    then Some (lit "hyperv") else p ≫= dmi_kind) in *. clearbody pk.
  destruct pk as [a|], (v ≫= dmi_kind) as [b|]; cbn in Hv, Hp; repeat case_match; cbn; try done; unfold known_vms; set_solver.
Qed.

Lemma elf_known header : opt_all (fun a => a ∈ known_abis) (elf_abi header).
Proof.
  unfold elf_abi. destruct (_ || _); [done|]. destruct (negb _); [done|]. destruct (_ || _); [done|].
  unfold elf_machine. repeat case_match; try done; cbn; unfold known_abis; set_solver.
Qed.

(** *** CPU models *)

Lemma bytes_leb_total a b : bytes_leb a b = true \/ bytes_leb b a = true.
Proof.
  revert b; induction a as [|x a IH]; intros [|y b]; cbn; auto. destruct (x =? y) eqn:E.
  - rewrite Z.eqb_sym, E. apply IH.
  - rewrite Z.eqb_sym, E. bool_hyps. destruct (Z.lt_ge_cases x y); [left|right]; apply Z.ltb_lt; lia.
Qed.

Lemma bytes_leb_antisym a b : bytes_leb a b = true -> bytes_leb b a = true -> a = b.
Proof.
  revert b; induction a as [|x a IH]; intros [|y b]; cbn; try done. destruct (x =? y) eqn:E.
  - rewrite Z.eqb_sym, E. bool_hyps. subst. intros H1 H2. f_equal. by apply IH.
  - rewrite Z.eqb_sym, E. intros H1 H2. bool_hyps. lia.
Qed.

Lemma bytes_leb_trans a b c : bytes_leb a b = true -> bytes_leb b c = true -> bytes_leb a c = true.
Proof.
  revert b c; induction a as [|x a IH]; intros [|y b] [|z c]; cbn; try done.
  destruct (x =? y) eqn:E1, (y =? z) eqn:E2; bool_hyps; subst; rewrite ?Z.eqb_refl.
  - apply IH.
  - by destruct (y =? z) eqn:E; [bool_hyps; lia|].
  - by destruct (x =? z) eqn:E; [bool_hyps; lia|].
  - intros H1 H2. bool_hyps. destruct (x =? z) eqn:E; bool_hyps; [lia|apply Z.ltb_lt; lia].
Qed.

Definition ordered (a b : str) : Prop := bytes_leb (utf8_encode a) (utf8_encode b) = true.

Lemma insert_by_sorted x l : StronglySorted ordered l -> StronglySorted ordered (insert_by (fun m => m) x l).
Proof.
  induction 1 as [|y l Hl IH Hy]; cbn; [by repeat constructor|]. destruct (bytes_leb _ _) eqn:E.
  - constructor; [by constructor|]. constructor; [done|]. eapply Forall_impl; [exact Hy|]. intros z Hz. by eapply bytes_leb_trans.
  - constructor; [done|]. rewrite (insert_by_perm (fun m => m) x l). constructor; [|done].
    destruct (bytes_leb_total (utf8_encode x) (utf8_encode y)) as [H|H]; [by unfold utf8_encode in H; rewrite H in E|done].
Qed.

Lemma sort_by_sorted l : StronglySorted ordered (sort_by (fun m => m) l).
Proof. unfold sort_by. induction l as [|x l IH]; cbn; [constructor|]. by apply insert_by_sorted. Qed.

Lemma dedup_in l x : x ∈ dedup l -> x ∈ l.
Proof.
  induction l as [|y l IH]; [done|]. cbn [dedup]. destruct l as [|z l]; [done|]. destruct (str_eqb y z).
  - intros H. right. by apply IH.
  - rewrite !elem_of_cons in *. intros [->|H]; [by left|right]. by apply IH.
Qed.

Lemma dedup_length l : (length (dedup l) <= length l)%nat.
Proof. induction l as [|y l IH]; [done|]. cbn [dedup]. destruct l as [|z l]; [done|]. destruct (str_eqb y z); cbn [length] in *; lia. Qed.


Lemma dedup_NoDup (P : str -> Prop) l :
  (forall a b, P a -> P b -> utf8_encode a = utf8_encode b -> a = b) -> Forall P l -> StronglySorted ordered l -> NoDup (dedup l).
Proof.
  intros Hinj HP Hs. induction Hs as [|y l Hl IH Hy]; [constructor|]. apply Forall_cons in HP as [Py HP]. cbn [dedup].
  destruct l as [|z l]; [by apply NoDup_singleton|]. destruct (str_eqb y z) eqn:E; [by apply IH|].
  constructor; [|by apply IH]. intros Hin%dedup_in. apply elem_of_cons in Hin as [->|Hin]; [by rewrite str_eqb_refl in E|].
  apply Forall_cons in HP as [Pz HP]. apply Forall_cons in Hy as [Hyz Hy]. inversion Hl as [|? ? _ Hz]; subst.
  rewrite Forall_forall in Hz. specialize (Hz _ Hin). assert (y = z) as -> by (apply Hinj; [done..|by apply bytes_leb_antisym]).
  by rewrite str_eqb_refl in E.
Qed.

Lemma valid_trim s : forallb valid_char s = true -> forallb valid_char (trim s) = true.
Proof.
  destruct (trim_decompose s) as (a & b & Hs & _). rewrite Hs at 1. rewrite !forallb_app. intros H. bool_hyps. done.
Qed.

(** *** The loop *)

Definition model_ok (m : str) : Prop := clean_text CPU_MODEL_LIMIT m /\ forallb valid_char m = true.

Lemma cpu_model_ok payload : opt_all model_ok (cpu_model payload).
Proof.
  pose proof (cpu_model_clean payload) as H. destruct (cpu_model payload) as [m|] eqn:E; [|done]. split; [exact H|].
  unfold cpu_model, keep_if, text in E. destruct (from_utf8 payload) as [t|] eqn:Et; [|done]. cbn in E.
  destruct (_ && _); [|done]. injection E as <-. by eapply valid_trim, from_utf8_valid.
Qed.

Definition limit_of (f : text_field) : Z := match f with FShell => PATH_LIMIT | _ => SCALAR_LIMIT end.

Record environment_ok (e : HostEnvironment) : Prop := {
  ok_texts : forall f, opt_all (clean_text (limit_of f)) (get_text f e);
  ok_shell : opt_all (fun p => head p = Some SLASH) (shell_executable e);
  ok_uid : id_ok (effective_uid e);
  ok_gid : id_ok (effective_gid e);
  ok_cpu : opt_all (fun n => 0 < n <= U64_MAX) (available_cpu_parallelism e);
  ok_abi : match process_architecture e, pointer_width e with
           | Some a, Some w => (a, w) ∈ known_abis | None, None => True | _, _ => False end
}.

Definition state_ok (s : probe_state) : Prop := environment_ok (snapshot s) /\ Forall model_ok (models s).

Lemma initial_ok : state_ok initial.
Proof. split; [|constructor]. split; try done. by intros []. Qed.

Lemma set_text_ok f v e :
  environment_ok e -> opt_all (clean_text (limit_of f)) v -> (f = FShell -> opt_all (fun p => head p = Some SLASH) v) ->
  environment_ok (set_text f v e).
Proof.
  intros [H1 H2 H3 H4 H5 H6] Hv Hs. split; try done.
  - intros g. pose proof (H1 g). by destruct f, g.
  - destruct f; try done. by apply Hs.
Qed.

Lemma on_snapshot_ok f s : (environment_ok (snapshot s) -> environment_ok (f (snapshot s))) -> state_ok s -> state_ok (on_snapshot f s).
Proof. intros Hf [He Hm]. split; [by apply Hf|done]. Qed.

Lemma set_ids_ok uid gid e : environment_ok e -> id_ok uid -> id_ok gid -> environment_ok (set_ids uid gid e).
Proof. intros [H1 H2 H3 H4 H5 H6] Hu Hg. split; try done. all: intros f; by pose proof (H1 f); destruct f. Qed.

Lemma set_cpu_ok n e : environment_ok e -> opt_all (fun n => 0 < n <= U64_MAX) n -> environment_ok (set_cpu n e).
Proof. intros [H1 H2 H3 H4 H5 H6] Hn. split; try done. all: intros f; by pose proof (H1 f); destruct f. Qed.

Lemma set_abi_ok a e : environment_ok e -> a ∈ known_abis -> environment_ok (set_abi a e).
Proof. intros [H1 H2 H3 H4 H5 H6] Ha. split; try done. cbn. by destruct a. Qed.

Lemma first_text_ok f payload s : f <> FShell -> limit_of f = SCALAR_LIMIT -> state_ok s -> state_ok (first_text f payload s).
Proof.
  intros Hf Hl Hs. unfold first_text. destruct (get_text f (snapshot s)); [done|]. apply on_snapshot_ok; [|done]. intros He.
  apply set_text_ok; [done|rewrite Hl; apply scalar_clean|done].
Qed.

Lemma or_else_ok a b : id_ok a -> id_ok b -> id_ok (or_else a b).
Proof. by destruct a. Qed.

Lemma use_record_ok i payload s : state_ok s -> state_ok (use_record i payload s).
Proof.
  intros Hs. pose proof Hs as [He Hm]. destruct i; cbn [use_record]; try (by split); try (by apply first_text_ok).
  - destruct (_ <=? _); [|done]. apply on_snapshot_ok; [|done]. intros _. apply set_text_ok; [done|apply distribution_clean|done].
  - apply on_snapshot_ok; [|done]. intros _. apply set_text_ok; [done|apply scalar_clean|done].
  - apply on_snapshot_ok; [|done]. intros _. apply set_ids_ok; [done|apply to_u32_ok|apply He].
  - apply on_snapshot_ok; [|done]. intros _. apply set_ids_ok; [done|apply He|apply to_u32_ok].
  - destruct (_ <=? _); [|done]. apply on_snapshot_ok; [|done]. intros _.
    apply set_ids_ok; [done|apply or_else_ok; [apply He|apply effective_id_ok]..].
  - apply on_snapshot_ok; [|done]. intros _. apply set_text_ok; [done| |].
    + apply opt_all_keep. intros p Hp _. pose proof (scalar_clean payload PATH_LIMIT) as H. by rewrite Hp in H.
    + intros _. apply opt_all_keep. intros p _ Hp. apply starts_with_spec in Hp as [r ->]. done.
  - apply on_snapshot_ok; [|done]. intros _. apply set_cpu_ok; [done|].
    pose proof (decimal_bounds payload) as H. destruct (decimal payload) as [n|]; [|done]. cbn in *.
    destruct (0 <? n) eqn:E; [|done]. bool_hyps. cbn. lia.
  - pose proof (cpu_model_ok payload) as H. destruct (cpu_model payload) as [m|]; [|done]. split; [done|]. cbn.
    apply Forall_app. by split; [|constructor].
  - pose proof (elf_known payload) as H. destruct (elf_abi payload) as [a|]; [|done]. apply on_snapshot_ok; [|done].
    intros _. by apply set_abi_ok.
Qed.

Definition is_model (i : probe_id) : bool := match i with IdCpuModel _ => true | _ => false end.

Lemma use_record_models i payload s :
  (length (models (use_record i payload s)) <= length (models s) + if is_model i then 1 else 0)%nat.
Proof.
  destruct i; cbn [use_record is_model]; unfold first_text; repeat case_match; cbn; rewrite ?length_app; cbn; lia.
Qed.

Lemma read_records_ok ids input s :
  state_ok s ->
  state_ok (read_records ids input s) /\
  (length (models (read_records ids input s)) <= length (models s) + length (filter (fun i => is_model i = true) ids))%nat.
Proof.
  revert input s; induction ids as [|i ids IH]; intros input s Hs; cbn [read_records]; [cbn; split; [done|lia]|].
  destruct (next_record i input) as [[[payload status] rest]|]; [|split; [done|lia]].
  unfold apply_record. cbn [fst snd]. pose proof (use_record_models i payload s) as Hm. rewrite filter_cons.
  destruct (str_eqb status _).
  - destruct (IH rest _ (use_record_ok i payload s Hs)) as [H1 H2]. split; [done|].
    destruct (is_model i); case_decide; cbn [length]; try done; lia.
  - destruct (IH rest s Hs) as [H1 H2]. split; [done|]. case_decide; cbn [length]; lia.
Qed.

(** C34. Whatever bytes the remote host answers, the snapshot holds data only:
    every text is non-empty, within its limit and free of control characters,
    the shell is an absolute path, ids and widths are numbers of their range,
    the CPU models are at most four different texts, container, virtual
    machine and architecture are among the known names, and the probe runs as
    root exactly when its effective user id is known to be 0. *)
Theorem parse_snapshot_safe (raw : bytes) :
  let e := parse_snapshot raw in
  environment_ok e /\
  running_as_root e = (fun uid => uid =? 0) <$> effective_uid e /\
  opt_all (fun ms => ms <> [] /\ (length ms <= 4)%nat /\ NoDup ms /\ Forall (clean_text CPU_MODEL_LIMIT) ms) (cpu_models e) /\
  opt_all (fun k => k ∈ known_containers) (container (virtualization e)) /\
  opt_all (fun k => k ∈ known_vms) (vm (virtualization e)).
Proof.
  cbn zeta. unfold parse_snapshot. destruct (strip_prefix _ raw) as [input|]; [|split_and!; try done; apply initial_ok].
  destruct (read_records_ok PROBE_IDS input initial initial_ok) as [[[H1 H2 H3 H4 H5 H6] Hm] Hl].
  set (s := read_records _ _ _) in *. change (length (models s) <= 4)%nat in Hl. split_and!.
  - split; try done.
  - done.
  - cbn [finish cpu_models]. unfold sorted_models. pose proof (sort_by_perm (fun m : str => m) (models s)) as Hp.
    pose proof (dedup_length (sort_by (fun m => m) (models s))) as Hd. rewrite (Permutation_length Hp) in Hd.
    assert (Hall : Forall model_ok (sort_by (fun m => m) (models s))) by (by rewrite Hp).
    assert (Hnd : NoDup (dedup (sort_by (fun m => m) (models s)))).
    { apply (dedup_NoDup model_ok); [|done|apply sort_by_sorted]. intros a b [_ Ha] [_ Hb]. by apply utf8_encode_inj. }
    assert (Hin : Forall (clean_text CPU_MODEL_LIMIT) (dedup (sort_by (fun m => m) (models s)))).
    { apply Forall_forall. intros m Hmin%dedup_in. rewrite Forall_forall in Hall. by apply Hall. }
    destruct (dedup _) as [|m ms]; [done|]. cbn [opt_all]. split_and!; [done|lia|done|done].
  - apply container_known.
  - apply vm_known.
Qed.

(** ** The raw channel *)

(** What a channel's messages carry until it ends: the standard output, and the
    last exit status. *)
Fixpoint stdout_of (ms : list (option ChannelMsg)) : bytes :=
  match ms with
  | Some (Data data) :: ms => data ++ stdout_of ms
  | Some Close :: _ | None :: _ | [] => []
  | Some _ :: ms => stdout_of ms
  end.

Fixpoint exit_of (exit : option Z) (ms : list (option ChannelMsg)) : option Z :=
  match ms with
  | Some (ExitStatus code) :: ms => exit_of (Some code) ms
  | Some Close :: _ | None :: _ | [] => exit
  | Some _ :: ms => exit_of exit ms
  end.

Lemma append_bounded_kept output data limit :
  snd (append_bounded output data limit) = false -> fst (append_bounded output data limit) = output ++ data.
Proof.
  cbn. intros H%Nat.ltb_ge. by rewrite firstn_all2 by lia.
Qed.

Lemma echo_loop_exact ms out n exit :
  echo_loop ms out n exit = true -> out ++ stdout_of ms = ECHO_PAYLOAD /\ exit_of exit ms = Some 0.
Proof.
  revert out n exit. induction ms as [|m ms IH]; intros out n exit; [done|]. cbn [echo_loop stdout_of exit_of].
  assert (Hend : str_eqb out ECHO_PAYLOAD && bool_decide (exit = Some 0) = true -> out ++ [] = ECHO_PAYLOAD /\ exit = Some 0).
  { intros [H1%str_eqb_spec H2%bool_decide_eq_true]%andb_true_iff. by rewrite app_nil_r. }
  destruct m as [m|]; [|exact Hend]. destruct m as [data|ext data|code|sig| | | |]; try done; try apply IH; try exact Hend.
  - pose proof (append_bounded_kept out data (length ECHO_PAYLOAD)) as Hk.
    destruct (append_bounded out data _) as [out' dropped]. destruct dropped; [done|]. cbn in Hk. rewrite (Hk eq_refl).
    intros H%IH. by rewrite <- app_assoc in H.
  - destruct (_ <? _); [done|]. apply IH.
Qed.

(** The start-up check of the raw channel answers yes only when the remote
    [cat] returned exactly the bytes sent, NUL and invalid UTF-8 included,
    ended with status 0, and the manager still has the route it was asked on,
    open, with no shutdown or cancellation. *)
Theorem raw_preflight_sound (interrupt : option interruption) (opened : result Z SshMcpError) (executed sent eof : option str)
    (ms : list (option ChannelMsg)) (cancelled : bool) (m : manager)
    (H : probe_startup_exec_raw interrupt opened (collect_binary_echo executed sent eof ms) cancelled m = Ok true) :
  stdout_of ms = ECHO_PAYLOAD /\ exit_of None ms = Some 0 /\ cancelled = false /\ shutting_down m = false /\
  exists r, session m = Some r /\ opened = Ok (generation r) /\ r_closed r = false.
Proof.
  unfold probe_startup_exec_raw, collect_binary_echo in H. destruct interrupt; [done|]. destruct opened as [g|]; [|done].
  destruct executed, sent, eof; try done. cbn in H. injection H as H. apply andb_true_iff in H as [H Hs].
  apply andb_true_iff in H as [H Hc]. apply echo_loop_exact in H as [Hd He]. unfold still_on in Hs.
  destruct (session m) as [r|]; [|done]. apply andb_true_iff in Hs as [Hs Hd']. apply andb_true_iff in Hs as [Hg Ht].
  rewrite negb_true_iff in Hc, Ht, Hd'. bool_hyps. split_and!; try done. exists r. by subst.
Qed.

Definition live_manager : manager := {|
  session := Some {| generation := 3; platform := Posix; auto_elevation_attempted := false; r_closed := false |}; next_generation := 4; is_connecting := false; shutting_down := false;
  su_channel := None; su_generation := 0; is_elevated := false; has_timeout_cmd := false; last_health_probe_ok_at := None;
  remote_platform := None |}.

Lemma raw_preflight_sound_witness :
  let ms := [Some (Data (take 4 ECHO_PAYLOAD)); Some Eof; Some (Data (drop 4 ECHO_PAYLOAD)); Some (ExitStatus 0); Some Close] in
  probe_startup_exec_raw None (Ok 3) (collect_binary_echo None None None ms) false live_manager = Ok true /\ stdout_of ms = ECHO_PAYLOAD.
Proof.
  split; [vm_compute; reflexivity|].
  refine (proj1 (raw_preflight_sound None (Ok 3) None None None _ false live_manager _)). vm_compute. reflexivity.
Defined.
