(* ===== verification/Response.v ===== *)
(** * Answers of the tools (src/background/response.rs)

    What a tool call returns to the client: an error flag and one block of
    text. A JSON body is kept as a value; serde_json writes it. *)
From Stdlib Require Import ZArith String.
From stdpp Require Import base list.
From S2P Require Import Prelude Output RouterOs ToolArgs CheckProcess.

(** The text block of [CallToolResult]. *)
Inductive content : Type :=
  | Text (text : str)
  | Body (value : json).

Record CallToolResult : Type := { is_error : bool; block : content }.

Definition tool_success (c : content) : CallToolResult := {| is_error := false; block := c |}.
Definition tool_error (c : content) : CallToolResult := {| is_error := true; block := c |}.

(** [rmcp::ErrorData]: the protocol errors used. *)
Inductive McpError : Type :=
  | McpInvalidParams (msg : str)
  | McpInternal (msg : str).

Definition jnum (n : Z) : json := JNumber (if 0 <=? n then PosInt n else NegInt n).
Definition jopt {A} (f : A -> json) (o : option A) : json := match o with Some a => f a | None => JNull end.

(** ** Background jobs *)

Definition BACKGROUND_JSON_SNIPPET_LIMIT_CHARS : nat := 2048.

Definition truncate_with_flag (input : str) (limit_chars : nat) : str * bool :=
  (take limit_chars input, (limit_chars <? length input)%nat).

Definition background_json_ok (job_id : str) (pid : Z) (local_log_path : str) : CallToolResult :=
  tool_success (Body (JObject
    [(lit "ok", JBool true); (lit "background", JBool true); (lit "job_id", JString job_id); (lit "pid", jnum pid);
     (lit "log_path", JString local_log_path); (lit "log_exists", JBool true)])).

Record BackgroundTimeoutSnapshot : Type := {
  still_running : bool;
  state : str;
  bt_exit_code : option Z;
  bt_state_reason : option str;
  bt_elapsed_time : str;
  bt_log_exists : bool;
  bt_log_tail : str;
  tail_lines_used : Z
}.

Definition deadline_guidance : str :=
  lit "MCP client deadlines may be shorter than timeout_ms; start potentially long commands with background=true.".

Definition timeout_hint (job_id : str) (s : BackgroundTimeoutSnapshot) : str :=
  (if still_running s then
     lit "TIMEOUT_RECOVERY: Process still running in background. DO NOT restart the command! Use check_process tool with job_id=" ++ job_id ++
     lit " to retrieve output. "
   else if str_eqb (state s) (lit "state_lost") then
     lit "TIMEOUT_RECOVERY: Background job state is lost after handoff. Inspect log_path/log_tail and use check_process with job_id=" ++ job_id ++
     lit " before deciding whether to retry. "
   else
     lit "TIMEOUT_RECOVERY: Foreground timeout elapsed after handoff, but the background job is no longer running. Inspect exit_code/log_tail or use check_process tool with job_id=" ++ job_id ++
     lit " before retrying. ") ++ deadline_guidance.

Definition background_json_timeout (job_id : str) (pid : Z) (local_log_path : str) (s : BackgroundTimeoutSnapshot) : CallToolResult :=
  tool_success (Body (JObject
    [(lit "ok", JBool false); (lit "timeout", JBool true); (lit "background", JBool true); (lit "job_id", JString job_id);
     (lit "pid", jnum pid); (lit "state", JString (state s)); (lit "still_running", JBool (still_running s));
     (lit "exit_code", jopt jnum (bt_exit_code s)); (lit "state_reason", jopt JString (bt_state_reason s));
     (lit "elapsed_time", JString (bt_elapsed_time s)); (lit "log_exists", JBool (bt_log_exists s));
     (lit "log_tail", JString (bt_log_tail s)); (lit "tail_lines_used", jnum (tail_lines_used s));
     (lit "log_path", JString local_log_path); (lit "hint", JString (timeout_hint job_id s))])).

Definition background_json_err (error stderr : str) : CallToolResult :=
  let '(error_snippet, error_truncated) := truncate_with_flag error BACKGROUND_JSON_SNIPPET_LIMIT_CHARS in
  let '(stderr_snippet, stderr_truncated) := truncate_with_flag stderr BACKGROUND_JSON_SNIPPET_LIMIT_CHARS in
  tool_error (Body (JObject
    [(lit "ok", JBool false); (lit "background", JBool true); (lit "error", JString error_snippet);
     (lit "stderr", JString stderr_snippet); (lit "truncated", JBool (error_truncated || stderr_truncated));
     (lit "truncated_fields", JObject [(lit "error", JBool error_truncated); (lit "stderr", JBool stderr_truncated)])])).

(** ** Commands *)

(** "Error: ..." as a tool error. *)
Definition error_text (e : str) : CallToolResult := tool_error (Text (lit "Error: " ++ e)).

(** The answer of [calltool_from_command_output]. *)
Definition of_output (o : CommandOutput) : CallToolResult :=
  let '(ok, text) := calltool_from_command_output o in {| is_error := negb ok; block := Text text |}.

(** ** check_process (src/server/handlers/check_process.rs) *)

Definition process_body (s : ProcessStatus) : json :=
  JObject [(lit "pid", jnum (ps_pid s)); (lit "state", JString (ps_state s)); (lit "running", JBool (ps_running s));
           (lit "exit_code", jopt jnum (ps_exit_code s)); (lit "state_reason", jopt JString (ps_state_reason s));
           (lit "elapsed_time", JString (ps_elapsed_time s)); (lit "command", JString (ps_command s));
           (lit "log_path", JString (ps_log_path s)); (lit "log_exists", JBool (ps_log_exists s));
           (lit "log_tail", JString (ps_log_tail s))].

(** What a client reads of a body. *)
Definition field (k : str) (r : CallToolResult) : option json :=
  match block r with Body (JObject m) => get k m | _ => None end.
