(* ===== verification/Launch.v ===== *)
(** * Starting commands (src/server/exec.rs, src/server.rs)

    A command of the [shell] tools runs under a wrapper on an exec channel of
    its own: prepare a local log file, connect, take a command slot, queue the
    wrapper, read its markers, register and persist the job, give the slot
    back, and stream the channel into the log. In the background the tool
    answers at once; in the foreground it waits for the stream until the
    timeout. The answers of the connection, of the channel and of the local
    file system are arguments; the actions on the connection are recorded. *)
From Stdlib Require Import ZArith String.
From stdpp Require Import base list gmap fin_maps.
From S2P Require Import Prelude Trace Errors Paths Shell Validate Job Registry Utf8 Channel Marker Stream Spooler Output RouterOs CheckProcess ToolArgs Response.

Notation sanitize_command := Shell.sanitize_command.

(** [format!("{}-{}", epoch_ms, counter)] *)
Definition make_job_id (epoch_ms counter : Z) : str := show_uint epoch_ms ++ lit "-" ++ show_uint counter.

(** Such an id stands for itself between double quotes, as the wrapper has it
    (Shell). *)
Lemma make_job_id_plain epoch_ms counter : 0 <= epoch_ms -> 0 <= counter -> forallb dq_char (make_job_id epoch_ms counter) = true.
Proof.
  intros He Hc. assert (Hd : forall n, 0 <= n -> forallb dq_char (show_uint n) = true).
  { intros n Hn. apply forallb_forall. intros c Hin. apply show_uint_digits in Hn. rewrite List.Forall_forall in Hn.
    specialize (Hn c Hin). unfold is_ascii_digit in Hn. unfold dq_char, DQ, BSL. cbn [existsb].
    rewrite negb_true_iff, !orb_false_iff, !Z.eqb_neq. lia. }
  unfold make_job_id. by rewrite !forallb_app, !Hd.
Qed.

(** What the server keeps: the spool directory, the job registry and the shared
    job states it refers to. *)
Record local_state : Type := { disk : spool_fs; registry : JobRegistry; states : gmap nat JobState }.

Definition with_disk (d : spool_fs) (st : local_state) : local_state := {| disk := d; registry := registry st; states := states st |}.
Definition with_states (s : gmap nat JobState) (st : local_state) : local_state := {| disk := disk st; registry := registry st; states := s |}.

Inductive launch_action : Type :=
  | Connecting
  | Elevating
  | SlotTaken
  | WrapperQueued (payload : str) (generation : Z)
  | RouteInvalidated (generation : Z) (reason : str)
  | Reconnecting
  | SlotFreed.

(** One attempt: opening the channel answers its generation, or the failure
    with the generation it was tried on; then the exec request. *)
Definition attempt : Type := result (Z * result unit str) (option Z * SshMcpError).

Record launch_env : Type := {
  l_job_id : str;
  l_now : Z;
  l_meta_error : option str;
  l_before_open : spool_fs -> spool_fs;
  l_open_error : option str;
  l_sync : result unit str;
  l_connected : result unit SshMcpError;
  l_elevated : result unit SshMcpError;
  l_slot : result unit str;
  l_first : attempt;
  l_reconnected : result unit SshMcpError;
  l_second : attempt;
  l_events : list (Z * option ChannelMsg);
  l_arrived : nat
}.

Definition BACKGROUND_START_TIMEOUT_MS : Z := 20000.

Section Launch.
Context (to_json : PersistedJobState -> option bytes) (of_json : bytes -> option PersistedJobState).
Context (base_dir : str) (euid umask : Z) (connection_id : str).

(** ** The log file *)

Definition default_local_log_path (job_id : str) : result str str :=
  rmap_err (fun e => lit "failed to generate local log path for job_id='" ++ job_id ++ lit "': " ++ background_error_display e)
    (log_path_for base_dir job_id).

Definition log_symlink : SshMcpError := InvalidParams (lit "log_path is a symlink (refusing to follow it)").

(** [symlink_metadata] of the log path. *)
Definition check_log_entry (env : launch_env) (name : str) (fs : spool_fs) : result unit SshMcpError :=
  match l_meta_error env with
  | Some e => Err (Io e)
  | None =>
      match f_kind <$> fs_files fs !! name with
      | Some FkSymlink => Err log_symlink
      | Some FkDir | Some FkOther => Err (InvalidParams (lit "log_path exists but is not a regular file"))
      | Some FkFile | None => Ok tt
      end
  end.

(** [open] with [O_NOFOLLOW], creating and truncating, and the second look at
    the path when it fails. *)
Definition open_log_truncated (env : launch_env) (name : str) (fs : spool_fs) : result spool_fs SshMcpError :=
  let is_link := bool_decide (f_kind <$> fs_files fs !! name = Some FkSymlink) in
  match l_open_error env with
  | Some e => if (is_link : bool) then Err log_symlink else Err (Io e)
  | None =>
      match open_spool_write_no_symlink (l_now env) name fs with
      | Ok fs => Ok fs
      | Err e => if (is_link : bool) then Err log_symlink else Err (Io (background_error_display e))
      end
  end.

(** The directory as it is afterwards, also when there is an error. *)
Definition ensure_local_log_file (env : launch_env) (log_path : str) (fs : spool_fs) : result unit SshMcpError * spool_fs :=
  match ensure_dir euid umask fs with
  | Err e => (Err (ConfigError (lit "failed to ensure local log spool dir " ++ base_dir ++ lit ": " ++ background_error_display e)), fs)
  | Ok fs =>
      if bool_decide (parent_components log_path <> Some (components base_dir)) then
        (Err (InvalidParams (lit "log_path must be directly under " ++ base_dir)), fs)
      else
        let name := default [] (file_name log_path) in
        match check_log_entry env name fs with
        | Err e => (Err e, fs)
        | Ok _ =>
            let fs := l_before_open env fs in
            match open_log_truncated env name fs with
            | Err e => (Err e, fs)
            | Ok fs => (rmap_err Io (l_sync env), fs)
            end
        end
  end.

(** ** The job *)

(** The new shared state and its entry; that persisting it fails is only
    logged. *)
Definition register_running_job (now : Z) (job_id : str) (pid : Z) (log_path command : str) (st : local_state) : local_state :=
  let job := new_running {| n_job_id := job_id; n_pid := pid; n_log_path := log_path; n_command := command;
                            n_connection_id := connection_id |} now in
  let ref := fresh (dom (states st)) in
  let '(disk, _) := persist_job_state to_json base_dir euid umask now job (disk st) in
  {| disk := disk; registry := registry_insert (registry st) job_id ref; states := <[ref := job]> (states st) |}.

(** ** The wrapper's channel *)

Definition try_open_and_exec_background_wrapper (a : attempt) (wrapped_wrapper : str) :
    traced launch_action (result Z (option Z * str)) :=
  match a with
  | Err (generation, e) => tret (Err (generation, lit "failed to open background channel: " ++ error_display e))
  | Ok (generation, Err e) => tret (Err (Some generation, lit "failed to send background exec request: " ++ e))
  | Ok (generation, Ok _) => let! _ := act (WrapperQueued wrapped_wrapper generation) in tret (Ok generation)
  end.

Definition open_background_wrapper_channel_with_retry (env : launch_env) (wrapped_wrapper : str) :
    traced launch_action (result Z str) :=
  let! r := try_open_and_exec_background_wrapper (l_first env) wrapped_wrapper in
  match r with
  | Ok channel => tret (Ok channel)
  | Err (generation, first_err) =>
      let! _ := match generation with
                | Some g => act (RouteInvalidated g (lit "background pre-exec failed"))
                | None => tret tt
                end in
      let! _ := act Reconnecting in
      match l_reconnected env with
      | Err e => tret (Err (lit "background pre-exec failed (" ++ first_err ++ lit "); reconnect failed: " ++ error_display e))
      | Ok _ =>
          let! r := try_open_and_exec_background_wrapper (l_second env) wrapped_wrapper in
          tret (rmap_err (fun x => lit "background pre-exec failed (" ++ first_err ++ lit "); retry failed: " ++ snd x) r)
      end
  end.

(** A started job: its process id, the output that followed the markers, and
    what the channel delivers from then on. *)
Record started : Type := { s_pid : Z; s_initial : bytes; s_events : list (Z * option ChannelMsg) }.

(** From taking the slot to giving it back; it is also given back when the
    start fails. *)
Definition start_job (env : launch_env) (command_for_exec log_path command_for_registry : str) (st : local_state) :
    traced launch_action (result started str * local_state) :=
  let job_id := l_job_id env in
  let remote_log_path := remote_job_log_path job_id in
  let wrapper := build_background_wrapper_script job_id command_for_exec remote_log_path in
  match l_slot env with
  | Err e => tret (Err (lit "Failed to acquire command slot: " ++ e), st)
  | Ok _ =>
      let! _ := act SlotTaken in
      let! opened := open_background_wrapper_channel_with_retry env (wrap_in_posix_shell wrapper false) in
      match opened with
      | Err e => let! _ := act SlotFreed in tret (Err e, st)
      | Ok _ =>
          match read_background_markers_from_channel (snd <$> take (l_arrived env) (l_events env)) job_id remote_log_path
                  BACKGROUND_START_TIMEOUT_MS with
          | Err e => let! _ := act SlotFreed in tret (Err e, st)
          | Ok (markers, initial_stdout, unread) =>
              let st := register_running_job (l_now env) job_id (m_pid markers) log_path command_for_registry st in
              let! _ := act SlotFreed in
              tret (Ok {| s_pid := m_pid markers; s_initial := initial_stdout;
                          s_events := drop (l_arrived env `min` length (l_events env) - length unread) (l_events env) |}, st)
          end
      end
  end.

(** ** Background *)

Inductive BackgroundPrivilege : Type := Normal | Sudo (password : option str).

(** The command for the wrapper, the one for the registry, and whether [su] is
    tried. *)
Definition privileged (privilege : BackgroundPrivilege) (sanitized : str) : str * str * bool :=
  match privilege with
  | Normal => (sanitized, sanitized, true)
  | Sudo password => (wrap_sudo_command sanitized password, lit "sudo " ++ sanitized, false)
  end.

(** The stream of a background job runs on as a task of its own: the answer
    comes with what the task was given. *)
Definition execute_background_impl (env : launch_env) (max_chars : option Z) (su_password_set : bool) (command : str)
    (log_path : option str) (privilege : BackgroundPrivilege) (st : local_state) :
    traced launch_action (CallToolResult * option started * local_state) :=
  let job_id := l_job_id env in
  let refuse e st := tret (background_json_err e [], None, st) in
  match (match log_path with Some p => Ok p | None => default_local_log_path job_id end) with
  | Err e => refuse e st
  | Ok final_log_path =>
      match (match log_path with Some p => validate_background_log_path base_dir p | None => Ok tt end) with
      | Err e => refuse e st
      | Ok _ =>
          let '(prepared, d) := ensure_local_log_file env final_log_path (disk st) in
          let st := with_disk d st in
          match prepared with
          | Err e => refuse (error_display e) st
          | Ok _ =>
              match sanitize_command command max_chars with
              | Err e => refuse (error_display e) st
              | Ok sanitized =>
                  let! _ := act Connecting in
                  match l_connected env with
                  | Err e => refuse (error_display e) st
                  | Ok _ =>
                      let '(command_for_exec, command_for_registry, attempt_su_elevation) := privileged privilege sanitized in
                      let! _ := if attempt_su_elevation && su_password_set then act Elevating else tret tt in
                      let! '(r, st) := start_job env command_for_exec final_log_path command_for_registry st in
                      match r with
                      | Err e => refuse e st
                      | Ok s => tret (background_json_ok job_id (s_pid s) final_log_path, Some s, st)
                      end
                  end
              end
          end
      end
  end.

(** The task of a started job: the log it leaves and the shared state it
    updates. [None]: it never ends. A log that fails in the middle of the
    stream keeps some bytes; they are not followed here. *)
Definition stream_task (append : bytes -> bytes -> result bytes str) (sync : bytes -> result unit str) (now : Z) (job_id log_path : str)
    (opened : result unit BackgroundError) (s : started) (st : local_state) :
    option (result (option Z) BackgroundError * local_state) :=
  let name := default [] (file_name log_path) in
  let content := match fs_files (disk st) !! name with Some e => f_content e | None => [] end in
  let opened := match opened with Ok _ => Ok content | Err e => Err e end in
  match stream_channel append sync (registry st) job_id now (states st) opened (s_events s) (s_initial s),
        stream_channel_inner append sync opened (s_events s) (s_initial s) with
  | Some (answer, states', persisted), Some inner =>
      let d := match inner with Ok (_, file, _) => write_file now name file (disk st) | Err _ => disk st end in
      let d := match persisted with Some j => fst (persist_job_state to_json base_dir euid umask now j d) | None => d end in
      Some (answer, {| disk := d; registry := registry st; states := states' |})
  | _, _ => None
  end.

(** ** Foreground *)

Definition FOREGROUND_TAIL_BYTES : Z := 512.

Definition truncation_notice (file_len : Z) : str :=
  [NL] ++ lit "[Output truncated: " ++ show_uint (file_len / 4) ++ lit " tokens total]" ++
  [NL] ++ lit "[Tip: Use 'head -n 100' for first lines, 'tail -n 100' for last lines]" ++
  [NL] ++ lit "[Tip: For large output use SFTP/SCP tools to download files]".

(** The answer's text from the log: [file_len] is the length [metadata] gave. *)
Definition foreground_text (max_output_tokens : option Z) (file_len : Z) (content : bytes) : str :=
  match (fun t => saturating_mul USIZE_MAX t 4) <$> max_output_tokens with
  | None => from_utf8_lossy content
  | Some limit =>
      if file_len <=? limit then from_utf8_lossy content
      else
        let head := take (Z.to_nat limit) content in
        let tail_len := Z.min FOREGROUND_TAIL_BYTES file_len in
        let tail := take (Z.to_nat tail_len) (drop (Z.to_nat (saturating_sub file_len tail_len)) content) in
        from_utf8_lossy head ++ truncation_notice file_len ++
        (if bool_decide (tail = []) then [] else [NL] ++ from_utf8_lossy tail)
  end.

(** [u32::try_from(code).ok().map(|code| code.min(255))] *)
Definition reported_code (code : option Z) : option Z :=
  c ← code; if (0 <=? c) && (c <=? U32_MAX) then Some (Z.min c 255) else None.

(** How the wait for the stream ends, and what is found afterwards. [fg_check]
    and the [fg_fallback] fields are for the snapshot after a timeout: of
    [check_process], and of the direct look when that fails. *)
Record foreground_env : Type := {
  fg_append : bytes -> bytes -> result bytes str;
  fg_sync : bytes -> result unit str;
  fg_stream_opened : result unit BackgroundError;
  fg_stream_now : Z;
  fg_timed_out : bool;
  fg_panicked : option str;
  fg_settled : local_state -> local_state;
  fg_log_opened : result unit str;
  fg_read_error : option str;
  fg_check : check_env;
  fg_fallback_now : Z;
  fg_fallback_meta : log_meta;
  fg_fallback_tail : result str SshMcpError
}.

Definition command_output (stdout : str) (exit_code : option Z) : CommandOutput := {|
  Output.stdout := stdout; stderr := []; Output.exit_code := exit_code; stdout_truncated := false; stderr_truncated := false;
  stdout_total_tokens := 0; stderr_total_tokens := 0 |}.

(** The job's shared state as the registry knows it. *)
Definition registered_job (job_id : str) (st : local_state) : option JobState :=
  ref ← registry_get (registry st) job_id; states st !! ref.

(** *** The snapshot after a timeout *)

Definition DEFAULT_CHECK_PROCESS_TAIL_LINES : Z := 50.

Definition snapshot_of_status (s : ProcessStatus) : BackgroundTimeoutSnapshot := {|
  still_running := ps_running s; state := ps_state s; bt_exit_code := ps_exit_code s; bt_state_reason := ps_state_reason s;
  bt_elapsed_time := ps_elapsed_time s; bt_log_exists := ps_log_exists s; bt_log_tail := ps_log_tail s;
  tail_lines_used := DEFAULT_CHECK_PROCESS_TAIL_LINES |}.

Definition u32_code (code : option Z) : option Z := c ← code; if (0 <=? c) && (c <=? U32_MAX) then Some c else None.

(** From the registry alone; a job that is not running and has no exit code is
    reported as lost. *)
Definition snapshot_of_registry (job : option JobState) (now : Z) (meta : log_meta) (tail : result str SshMcpError) : BackgroundTimeoutSnapshot :=
  let running := match job with Some j => bool_decide (Job.status j = Running) | None => true end in
  let code := match job with
              | Some j => if bool_decide (Job.status j = Job.Completed \/ Job.status j = Job.Failed) then u32_code (Job.exit_code j) else None
              | None => None
              end in
  let reason := job ≫= Job.state_reason in
  let lost := negb running && bool_decide (code = None) in
  {| still_running := running;
     state := if lost then status_as_str StateLost else match job with Some j => status_as_str (Job.status j) | None => status_as_str Running end;
     bt_exit_code := if running then None else code;
     bt_state_reason := if lost then Some (default (lit "timeout_recovery_missing_terminal_exit_code") reason) else reason;
     bt_elapsed_time := match job with Some j => Job.elapsed_time j now | None => [] end;
     bt_log_exists := match meta with LmFile => true | _ => false end;
     bt_log_tail := match tail with Ok t => t | Err _ => [] end;
     tail_lines_used := DEFAULT_CHECK_PROCESS_TAIL_LINES |}.

(** [SshConnectionManager::check_process] on what the server keeps: a job that
    is not registered is recovered from the spool directory and registered; a
    job that is not as it was recorded is updated and persisted. The answer
    always exists (see [check_process_total]). *)
Definition check_job (id : str) (tail_lines : Z) (env : check_env) (st : local_state) :
    option (result ProcessStatus SshMcpError) * local_state :=
  let '(st, load) :=
    match registry_get (registry st) id with
    | Some _ => (st, Ok None)
    | None => let '(d, loaded) := load_job_state of_json base_dir euid umask id (disk st) in
              (with_disk d st, rmap_err background_error_display loaded)
    end in
  let before := registered_job id st in
  match check_process id tail_lines before load env with
  | (answer, None) => (answer, st)
  | (answer, Some j) =>
      let '(ref, registry) :=
        match registry_get (registry st) id with
        | Some ref => (ref, registry st)
        | None => let ref := fresh (dom (states st)) in (ref, registry_insert (registry st) id ref)
        end in
      let d := if reconciles id before load env then fst (persist_job_state to_json base_dir euid umask (ck_now env) j (disk st)) else disk st in
      (answer, {| disk := d; registry := registry; states := <[ref := j]> (states st) |})
  end.

Definition build_timeout_recovery_snapshot (fg : foreground_env) (job_id : str) (st : local_state) : BackgroundTimeoutSnapshot * local_state :=
  match check_job job_id DEFAULT_CHECK_PROCESS_TAIL_LINES (fg_check fg) st with
  | (Some (Ok status), st) => (snapshot_of_status status, st)
  | (Some (Err _), st) | (None, st) =>
      (snapshot_of_registry (registered_job job_id st) (fg_fallback_now fg) (fg_fallback_meta fg) (fg_fallback_tail fg), st)
  end.

Definition foreground_answer (max_output_tokens : option Z) (fg : foreground_env) (job_id log_path : str) (join_exit_code : option Z)
    (st : local_state) : result CallToolResult McpError :=
  let registry_exit_code := registered_job job_id st ≫= Job.exit_code in
  let exit_code := reported_code (match registry_exit_code with Some c => Some c | None => join_exit_code end) in
  let name := default [] (file_name log_path) in
  match fg_log_opened fg with
  | Err e => Ok (error_text (lit "failed to read local log: " ++ e))
  | Ok _ =>
      match fg_read_error fg with
      | Some e => Err (McpInternal e)
      | None =>
          let content := match fs_files (disk st) !! name with Some e => f_content e | None => [] end in
          Ok (of_output (command_output (foreground_text max_output_tokens (Z.of_nat (length content)) content) exit_code))
      end
  end.

Definition execute_detachable_foreground_impl (env : launch_env) (fg : foreground_env) (max_output_tokens : option Z)
    (command_for_exec command_for_registry : str) (st : local_state) :
    traced launch_action (result CallToolResult McpError * option started * local_state) :=
  let job_id := l_job_id env in
  match default_local_log_path job_id with
  | Err e => tret (Ok (error_text e), None, st)
  | Ok final_log_path =>
      let '(prepared, d) := ensure_local_log_file env final_log_path (disk st) in
      let st := with_disk d st in
      match prepared with
      | Err e => tret (Ok (error_text (error_display e)), None, st)
      | Ok _ =>
          let! '(r, st) := start_job env command_for_exec final_log_path command_for_registry st in
          match r with
          | Err e => tret (Ok (error_text e), None, st)
          | Ok s =>
              let stream := stream_task (fg_append fg) (fg_sync fg) (fg_stream_now fg) job_id final_log_path (fg_stream_opened fg) s st in
              match fg_timed_out fg, fg_panicked fg, stream with
              | true, _, _ | _, None, None =>
                  let '(snapshot, st) := build_timeout_recovery_snapshot fg job_id st in
                  tret (Ok (background_json_timeout job_id (s_pid s) final_log_path snapshot), Some s, st)
              | false, Some e, _ => tret (Ok (error_text (lit "streaming task join failed: " ++ e)), None, st)
              | false, None, Some (Err e, st) =>
                  tret (Ok (error_text (lit "streaming failed: " ++ background_error_display e)), None, st)
              | false, None, Some (Ok code, st) =>
                  let st := fg_settled fg st in
                  tret (foreground_answer max_output_tokens fg job_id final_log_path code st, None, st)
              end
          end
      end
  end.
(** ** What reaches the connection *)

Definition queued (t : list launch_action) : list str := omap (fun a => match a with WrapperQueued p _ => Some p | _ => None end) t.

(** The slots taken and not given back. *)
Definition held (t : list launch_action) : Z :=
  foldr (fun a n => match a with SlotTaken => 1 | SlotFreed => -1 | _ => 0 end + n) 0 t.

(** The one exec request of a start. *)
Definition wrapper_payload (job_id command_for_exec : str) : str :=
  wrap_in_posix_shell (build_background_wrapper_script job_id command_for_exec (remote_job_log_path job_id)) false.

(** The markers were read; what follows them goes to the log. *)
Definition started_by (env : launch_env) (s : started) : Prop :=
  exists markers unread,
    read_background_markers_from_channel (snd <$> take (l_arrived env) (l_events env)) (l_job_id env)
      (remote_job_log_path (l_job_id env)) BACKGROUND_START_TIMEOUT_MS = Ok (markers, s_initial s, unread) /\
    s_pid s = m_pid markers /\
    s_events s = drop (l_arrived env `min` length (l_events env) - length unread) (l_events env).

Definition running_job (env : launch_env) (s : started) (path command : str) : JobState :=
  new_running {| n_job_id := l_job_id env; n_pid := s_pid s; n_log_path := path; n_command := command; n_connection_id := connection_id |}
    (l_now env).

Lemma queued_app a b : queued (a ++ b) = queued a ++ queued b.
Proof. apply omap_app. Qed.

Lemma held_app a b : held (a ++ b) = held a + held b.
Proof. unfold held. induction a as [|x a IH]; [done|]. cbn [app foldr]. rewrite IH. lia. Qed.

Lemma held_cons a t : held (a :: t) = held [a] + held t.
Proof. exact (held_app [a] t). Qed.

Lemma queued_cons a t : queued (a :: t) = queued [a] ++ queued t.
Proof. exact (queued_app [a] t). Qed.

(** Running [m] adds actions that [Q] relates to its answer. *)
Definition adds {A} (m : traced launch_action A) (Q : A -> list launch_action -> Prop) : Prop :=
  forall t, exists a u, m t = (a, t ++ u) /\ Q a u.

Lemma adds_ret {A} (a : A) Q : Q a [] -> adds (tret a) Q.
Proof. intros H t. exists a, []. by rewrite app_nil_r. Qed.

Lemma adds_act {A} e (k : traced launch_action A) (Q : A -> list launch_action -> Prop) :
  adds k (fun a u => Q a (e :: u)) -> adds (tbind (act e) (fun _ => k)) Q.
Proof.
  intros H t. destruct (H (t ++ [e])) as (a & u & Hk & HQ). exists a, (e :: u). unfold tbind, act.
  by rewrite Hk, <- app_assoc.
Qed.

Lemma adds_bind {A B} (m : traced launch_action A) (k : A -> traced launch_action B) (P : A -> list launch_action -> Prop) Q :
  adds m P -> (forall a u, P a u -> adds (k a) (fun b v => Q b (u ++ v))) -> adds (tbind m k) Q.
Proof.
  intros Hm Hk t. destruct (Hm t) as (a & u & E & HP). destruct (Hk a u HP (t ++ u)) as (b & v & E' & HQ).
  exists b, (u ++ v). unfold tbind. by rewrite E, E', <- app_assoc.
Qed.

Lemma adds_mono {A} (m : traced launch_action A) (P Q : A -> list launch_action -> Prop) :
  adds m P -> (forall a u, P a u -> Q a u) -> adds m Q.
Proof. intros H HPQ t. destruct (H t) as (a & u & ? & ?). exists a, u. auto. Qed.

Lemma adds_if {A} (b : bool) e (k : traced launch_action A) Q :
  adds k Q -> adds k (fun a u => Q a (e :: u)) -> adds (tbind (if b then act e else tret tt) (fun _ => k)) Q.
Proof. destruct b; intros H1 H2; [by apply adds_act|exact H1]. Qed.

Lemma attempt_adds a w :
  adds (try_open_and_exec_background_wrapper a w)
    (fun r u => held u = 0 /\ queued u = if is_ok r then [w] else []).
Proof. destruct a as [[g [[]|e]]|[g e]]; cbn; [apply adds_act|..]; by apply adds_ret. Qed.

Lemma retry_adds env w :
  adds (open_background_wrapper_channel_with_retry env w)
    (fun r u => held u = 0 /\ queued u = if is_ok r then [w] else []).
Proof.
  unfold open_background_wrapper_channel_with_retry. eapply adds_bind; [apply attempt_adds|]. intros r u [Hh Hq].
  destruct r as [g|[g e]]; [apply adds_ret; rewrite app_nil_r; done|].
  assert (Hrest : forall pre, held pre = 0 -> queued pre = [] ->
    adds (tbind (act Reconnecting) (fun _ =>
      match l_reconnected env with
      | Err e' => tret (Err (lit "background pre-exec failed (" ++ e ++ lit "); reconnect failed: " ++ error_display e'))
      | Ok _ => tbind (try_open_and_exec_background_wrapper (l_second env) w) (fun r =>
          tret (rmap_err (fun x => lit "background pre-exec failed (" ++ e ++ lit "); retry failed: " ++ snd x) r))
      end))
    (fun r v => held (pre ++ v) = 0 /\ queued (pre ++ v) = if is_ok r then [w] else [])).
  { intros pre H1 H2. apply adds_act. destruct (l_reconnected env) as [[]|e'].
    - eapply adds_bind; [apply attempt_adds|]. intros r v [Hv Hw]. apply adds_ret. rewrite app_nil_r.
      rewrite held_app, queued_app, H1, H2. cbn [held foldr queued omap list_omap]. split; [exact Hv|].
      destruct r; exact Hw.
    - apply adds_ret. rewrite held_app, queued_app, H1, H2. done. }
  destruct g as [g|]; [|by apply Hrest].
  apply adds_act. eapply adds_mono; [apply (Hrest (u ++ [RouteInvalidated g (lit "background pre-exec failed")]))|].
  - by rewrite held_app, Hh.
  - by rewrite queued_app, Hq.
  - intros r v. cbn beta. rewrite <- app_assoc. by intros H.
Qed.

Lemma start_job_adds env command_for_exec log_path command_for_registry st :
  adds (start_job env command_for_exec log_path command_for_registry st)
    (fun a u => let '(r, st') := a in
       held u = 0 /\
       match r with
       | Err _ => st' = st /\ (queued u = [] \/ queued u = [wrapper_payload (l_job_id env) command_for_exec])
       | Ok s => queued u = [wrapper_payload (l_job_id env) command_for_exec] /\ started_by env s /\
           st' = register_running_job (l_now env) (l_job_id env) (s_pid s) log_path command_for_registry st
       end).
Proof.
  unfold start_job. destruct (l_slot env); [|apply adds_ret; cbn; split_and!; [done..|by left]]. apply adds_act.
  eapply adds_bind; [apply retry_adds|]. intros r u [Hh Hq].
  assert (Hheld : held (SlotTaken :: u ++ [SlotFreed]) = 0) by (rewrite held_cons, held_app, Hh; done).
  assert (Hqueued : queued (SlotTaken :: u ++ [SlotFreed]) = queued u) by (rewrite queued_cons, queued_app; apply app_nil_r).
  assert (Hle : queued u = [] \/ queued u = [wrapper_payload (l_job_id env) command_for_exec]) by (rewrite Hq; destruct (is_ok r); auto).
  destruct r as [g|e]; [|apply adds_act, adds_ret; by rewrite Hqueued].
  destruct (read_background_markers_from_channel _ _ _ _) as [[[m i] unread]|e] eqn:Em; apply adds_act, adds_ret; rewrite Hqueued; [|done].
  split_and!; [done|done| |done]. by exists m, unread.
Qed.
(** ** What the server keeps of a start *)

(** The registry's entries are references into the store. *)
Definition refs_ok (st : local_state) : Prop := forall id ref, registry_get (registry st) id = Some ref -> ref ∈ dom (states st).

Lemma register_running_job_spec now id pid path command st (st' := register_running_job now id pid path command st) :
  registered_job id st' = Some (new_running {| n_job_id := id; n_pid := pid; n_log_path := path; n_command := command;
                                               n_connection_id := connection_id |} now) /\
  (refs_ok st -> refs_ok st' /\ forall other, other <> id -> registered_job other st' = registered_job other st).
Proof.
  subst st'. unfold register_running_job. destruct (persist_job_state _ _ _ _ _ _ _) as [d ok].
  unfold registered_job, registry_get, registry_insert. cbn. split.
  - rewrite lookup_insert_eq. cbn. apply lookup_insert_eq.
  - intros H. split.
    + intros other ref Ho. unfold registry_get in Ho. cbn in *. rewrite dom_insert. apply elem_of_union.
      apply lookup_insert_Some in Ho as [[_ <-]|[_ Ho]]; [left; by apply elem_of_singleton_2|right; by eapply H].
    + intros other Ho. rewrite lookup_insert_ne by done. destruct (jobs (registry st) !! other) as [ref|] eqn:E; [|done]. cbn.
      apply lookup_insert_ne. intros <-. apply (is_fresh (dom (states st))). by eapply H.
Qed.

Lemma ensure_log_direct env path fs : fst (ensure_local_log_file env path fs) = Ok tt -> parent_components path = Some (components base_dir).
Proof.
  unfold ensure_local_log_file. destruct (ensure_dir _ _ _); [|done]. destruct (bool_decide _) eqn:E; [done|]. intros _.
  apply bool_decide_eq_false in E. by apply dec_stable.
Qed.

(** What a call for a background job may come to, with the actions it took. *)
Definition background_outcome (env : launch_env) (max_chars : option Z) (command : str) (log_path : option str)
    (privilege : BackgroundPrivilege) (st : local_state) (a : CallToolResult * option started * local_state) (t : list launch_action) : Prop :=
  let '(r, task, st') := a in
  held t = 0 /\
  (queued t = [] \/ exists sanitized, sanitize_command command max_chars = Ok sanitized /\
     queued t = [wrapper_payload (l_job_id env) (privileged privilege sanitized).1.1]) /\
  match task with
  | None => is_error r = true /\ registry st' = registry st /\ states st' = states st
  | Some s => exists sanitized path,
      sanitize_command command max_chars = Ok sanitized /\
      r = background_json_ok (l_job_id env) (s_pid s) path /\
      parent_components path = Some (components base_dir) /\
      (forall p, log_path = Some p -> path = p /\ validate_background_log_path base_dir p = Ok tt) /\
      started_by env s /\
      (let '(for_exec, for_registry, _) := privileged privilege sanitized in
       queued t = [wrapper_payload (l_job_id env) for_exec] /\
       registered_job (l_job_id env) st' = Some (running_job env s path for_registry)) /\
      (refs_ok st -> refs_ok st' /\ forall other, other <> l_job_id env -> registered_job other st' = registered_job other st)
  end.

Lemma background_adds env max_chars su_password_set command log_path privilege st :
  adds (execute_background_impl env max_chars su_password_set command log_path privilege st)
    (background_outcome env max_chars command log_path privilege st).
Proof.
  set (Q := background_outcome env max_chars command log_path privilege st).
  assert (Hskip : forall u e st', queued u = [] -> held u = 0 -> registry st' = registry st -> states st' = states st ->
    Q (background_json_err e [], None, st') u).
  { intros u e st' Hq Hh Hr Hs. unfold Q, background_outcome. rewrite Hq. cbn. split_and!; [done|by left|done..]. }
  assert (Hrefuse : forall e st', registry st' = registry st -> states st' = states st -> adds (tret (background_json_err e [], None, st')) Q).
  { intros e st' Hr Hs. apply adds_ret. by apply Hskip. }
  unfold execute_background_impl. cbv zeta.
  destruct (match log_path with Some p => Ok p | None => _ end) as [path|e] eqn:Ep; [|by apply Hrefuse].
  destruct (match log_path with Some p => validate_background_log_path base_dir p | None => Ok tt end) as [[]|e] eqn:Ev; [|by apply Hrefuse].
  pose proof (ensure_log_direct env path (disk st)) as Hdirect. destruct (ensure_local_log_file env path (disk st)) as [[[]|e] d]; [|by apply Hrefuse].
  specialize (Hdirect eq_refl). destruct (sanitize_command command max_chars) as [sanitized|e] eqn:Es; [|by apply Hrefuse].
  apply adds_act. destruct (l_connected env) as [[]|e]; [|apply adds_ret; by apply Hskip].
  destruct (privileged privilege sanitized) as [[for_exec for_registry] elevate] eqn:Epr.
  assert (Hstart : forall pre, queued pre = [] -> held pre = 0 ->
    adds (tbind (start_job env for_exec path for_registry (with_disk d st)) (fun '(r, st) =>
      match r with
      | Err e => tret (background_json_err e [], None, st)
      | Ok s => tret (background_json_ok (l_job_id env) (s_pid s) path, Some s, st)
      end)) (fun a u => Q a (pre ++ u))).
  { intros pre Hq Hh. eapply adds_bind; [apply start_job_adds|]. intros [r st'] u [Hu Hr].
    destruct r as [s|e]; apply adds_ret; rewrite app_nil_r; unfold Q, background_outcome; rewrite queued_app, held_app, Hq, Hh; cbn [app].
    - destruct Hr as (Hqu & Hs & ->). rewrite Hqu. split; [lia|]. split; [right; exists sanitized; by rewrite Epr|]. exists sanitized, path.
      rewrite Epr. destruct (register_running_job_spec (l_now env) (l_job_id env) (s_pid s) path for_registry (with_disk d st)) as [Hreg Hothers].
      split_and!; try done. intros p ->. by injection Ep as <-.
    - destruct Hr as [-> Hle]. split_and!; [lia| |done..]. destruct Hle as [->| ->]; [by left|right; exists sanitized; by rewrite Epr]. }
  apply adds_if; [by apply (Hstart [Connecting])|by apply (Hstart [Connecting; Elevating])].
Qed.

(** C27. Starting a background job is all or nothing, and truthful. Whatever the
    connection, the channel and the disk do, the command slot is given back,
    the wrapper is queued at most once, and: either the answer is an error and
    no job appears; or the answer names a job that is registered as running
    with the process id the wrapper printed and a log directly under the spool
    directory, the wrapper of exactly the sanitized command was queued once,
    and no other job changes. *)
Theorem background_launch (env : launch_env) (max_chars : option Z) (su_password_set : bool) (command : str)
    (log_path : option str) (privilege : BackgroundPrivilege) (st : local_state) :
  let '(a, t) := execute_background_impl env max_chars su_password_set command log_path privilege st [] in
  background_outcome env max_chars command log_path privilege st a t.
Proof.
  destruct (background_adds env max_chars su_password_set command log_path privilege st []) as (a & u & E & HQ). by rewrite E.
Qed.
(** ** The log of a job *)

Definition log_entry (path : str) (st : local_state) : option file_entry := fs_files (disk st) !! default [] (file_name path).

Lemma ensure_log_empty env path fs fs' :
  l_before_open env = (fun fs => fs) -> ensure_local_log_file env path fs = (Ok tt, fs') ->
  fs_files fs' !! default [] (file_name path) = Some {| f_kind := FkFile; f_content := []; f_mtime := l_now env |}.
Proof.
  intros Hb. unfold ensure_local_log_file. rewrite Hb. destruct (ensure_dir _ _ fs) as [fs1|] eqn:E; [|done].
  destruct (bool_decide _); [done|]. set (name := default [] (file_name path)). unfold check_log_entry.
  destruct (l_meta_error env); [done|]. unfold open_log_truncated, open_spool_write_no_symlink.
  destruct (fs_files fs1 !! name) as [e|] eqn:En; cbn; [destruct (f_kind e); try done|];
    (destruct (l_open_error env); [by try destruct (bool_decide _)|]); cbn; intros [= _ <-]; apply lookup_insert_eq.
Qed.

Lemma persist_keeps now j fs name :
  (forall q, state_path_for base_dir (Job.job_id j) = Ok q -> default [] (file_name q) <> name) ->
  fs_files (fst (persist_job_state to_json base_dir euid umask now j fs)) !! name = fs_files fs !! name.
Proof.
  intros Hn. unfold persist_job_state. destruct (ensure_dir _ _ fs) as [fs1|] eqn:E; [|done].
  apply ensure_dir_ok in E as (_ & <- & _). destruct (bool_decide _); [done|].
  destruct (state_path_for _ _) as [q|] eqn:Eq; [|done]. specialize (Hn q eq_refl).
  destruct (to_json _); [|done]. unfold open_spool_write_no_symlink.
  destruct (fs_files fs1 !! default [] (file_name q)) as [e|] eqn:En; [destruct (f_kind e); try done|]; cbn;
    by rewrite lookup_alter_ne, ?lookup_insert_ne.
Qed.

(** A job's persisted state is not its log. *)
Lemma state_not_log id path :
  is_absolute base_dir = true -> default_local_log_path id = Ok path ->
  forall q, state_path_for base_dir id = Ok q -> default [] (file_name q) <> default [] (file_name path).
Proof.
  intros Hb Hp q Hq. unfold default_local_log_path, log_path_for in Hp. unfold state_path_for in Hq.
  destruct (validate_job_id id) as [[]|] eqn:Ev; [|done]. cbn in Hp, Hq. injection Hp as <-. injection Hq as <-.
  destruct (log_name_plain id Ev) as [H1 H2]. unfold file_name.
  rewrite !components_join_plain, !rev_app_distr by done. cbn. intros E. by apply app_inv_head in E.
Qed.

Lemma stream_task_end append sync now id path s st code log rest e ref j :
  registry_get (registry st) id = Some ref -> states st !! ref = Some j -> Job.job_id j = id ->
  log_entry path st = Some e -> f_kind e = FkFile ->
  (forall q, state_path_for base_dir id = Ok q -> default [] (file_name q) <> default [] (file_name path)) ->
  stream_channel_inner append sync (Ok (f_content e)) (s_events s) (s_initial s) = Some (Ok (code, log, rest)) ->
  exists st', stream_task append sync now id path (Ok tt) s st = Some (Ok code, st') /\
    registered_job id st' = Some (apply_update (terminal_update (Ok (code, log, rest))) now j) /\
    f_content <$> log_entry path st' = Some log.
Proof.
  intros Hreg Hj Hid He Hk Hname Hinner. unfold stream_task, stream_channel. unfold log_entry in *. rewrite He, Hinner.
  unfold update_job_terminal. rewrite Hreg, Hj. cbn [fmap option_fmap option_map]. eexists. split; [reflexivity|]. split.
  - unfold registered_job. cbn [registry]. rewrite Hreg. cbn. by rewrite lookup_alter_eq, Hj.
  - cbn [disk]. rewrite persist_keeps.
    + cbn. rewrite lookup_alter_eq, He. cbn. by rewrite Hk.
    + intros q. rewrite <- Hid in Hname. replace (Job.job_id (apply_update _ now j)) with (Job.job_id j); [apply Hname|].
      by destruct code.
Qed.
(** Exit statuses are unsigned. *)
Definition statuses_ok (events : list (Z * option ChannelMsg)) : Prop :=
  Forall (fun e => match snd e with Some (ExitStatus n) => 0 <= n | _ => True end) events.

Lemma exit_of_reported init events :
  statuses_ok events -> reported_code init = init -> reported_code (exit_of init events) = exit_of init events.
Proof.
  intros H. revert init. induction H as [|[delay m] events Hm H IH]; intros init Hi; [done|]. cbn [exit_of foldl].
  apply IH. destruct (reported_exit m) as [c|] eqn:E; [|done]. cbn [snd] in Hm.
  assert (Hc : 0 <= c <= 255).
  { destruct m as [[| |n|sg| | | |]|]; try done; injection E as <-.
    - unfold clamp_exit_status. destruct (255 <? n) eqn:En; bool_hyps; lia.
    - destruct sg; cbn; lia. }
  unfold reported_code. cbn. replace ((0 <=? c) && (c <=? U32_MAX)) with true by (unfold U32_MAX; lia). f_equal. lia.
Qed.

Lemma of_output_success text code : is_error (of_output (command_output text code)) = false <-> code = Some 0.
Proof. split; [by destruct code as [[|c|c]|]|by intros ->]. Qed.

(** C29. A command that runs to its end before the timeout is answered with its
    own output and status. Let the log be prepared, the job started, the log
    take every write, and nothing else touch the job or its log. The stream's
    events are consumed up to its end ([stream_end]: the channel's end, Close or
    Eof once the status is known, or the grace period after the status). Then
    the answer's text is made from exactly the bytes that followed the markers
    up to there, in the order of arrival (all of the output, when the channel
    is [orderly]); its status is the last one reported, and "success" is said
    exactly for status 0; the job is recorded as ended with it. *)
Theorem foreground_end_to_end (env : launch_env) (fg : foreground_env) (max_output_tokens : option Z)
    (command_for_exec command_for_registry path : str) (st st1 : local_state) (d : spool_fs) (s : started) (t : list launch_action)
    (used rest : list (Z * option ChannelMsg))
    (Hbase : is_absolute base_dir = true) (Hpath : default_local_log_path (l_job_id env) = Ok path)
    (Hprep : ensure_local_log_file env path (disk st) = (Ok tt, d)) (Hrace : l_before_open env = fun fs => fs)
    (Hstart : start_job env command_for_exec path command_for_registry (with_disk d st) [] = ((Ok s, st1), t))
    (Happend : forall file data, fg_append fg file data = Ok (file ++ data)) (Hsync : forall file, fg_sync fg file = Ok tt)
    (Hstatuses : statuses_ok (s_events s)) (Hevents : s_events s = used ++ rest) (Hend : stream_end used rest)
    (Hquiet : fg_stream_opened fg = Ok tt /\ fg_timed_out fg = false /\ fg_panicked fg = None /\ fg_settled fg = (fun st => st) /\
              fg_log_opened fg = Ok tt /\ fg_read_error fg = None) :
  let log := s_initial s ++ output_of used in
  let code := exit_of None used in
  let answer := of_output (command_output (foreground_text max_output_tokens (Z.of_nat (length log)) log) code) in
  (exists st' j,
    execute_detachable_foreground_impl env fg max_output_tokens command_for_exec command_for_registry st [] = ((Ok answer, None, st'), t) /\
    registered_job (l_job_id env) st' = Some j /\ Job.is_terminal j = true /\ Job.exit_code j = code) /\
  (is_error answer = false <-> code = Some 0) /\
  (orderly (s_events s) -> log = s_initial s ++ output_of (s_events s)).
Proof.
  intros log code answer. split; [|split; [apply of_output_success|intros Hor; unfold log; rewrite Hevents in *; by rewrite (orderly_output _ _ Hor Hend)]].
  destruct Hquiet as (Ho & Ht & Hpk & Hse & Hl & Hre).
  destruct (start_job_adds env command_for_exec path command_for_registry (with_disk d st) []) as ([r st2] & u & E & _ & HQ).
  rewrite Hstart in E. injection E as <- <- _. destruct HQ as (_ & _ & Hst1).
  destruct (register_running_job_spec (l_now env) (l_job_id env) (s_pid s) path command_for_registry (with_disk d st)) as [Hreg _].
  rewrite <- Hst1 in Hreg. unfold registered_job in Hreg. destruct (registry_get (registry st1) (l_job_id env)) as [ref|] eqn:Er; [|done].
  pose proof (state_not_log _ _ Hbase Hpath) as Hname.
  assert (He : log_entry path st1 = Some {| f_kind := FkFile; f_content := []; f_mtime := l_now env |}).
  { rewrite <- (ensure_log_empty _ _ _ _ Hrace Hprep). unfold log_entry. rewrite Hst1. unfold register_running_job.
    pose proof (persist_keeps (l_now env) (new_running {| n_job_id := l_job_id env; n_pid := s_pid s; n_log_path := path;
      n_command := command_for_registry; n_connection_id := connection_id |} (l_now env)) d (default [] (file_name path)) Hname) as H.
    destruct (persist_job_state _ _ _ _ _ _ _) as [d' ok] in *. exact H. }
  assert (Hstream : stream_channel_inner (fg_append fg) (fg_sync fg) (Ok []) (s_events s) (s_initial s) = Some (Ok (code, log, rest))).
  { rewrite Hevents. by apply (stream_inner_reaches _ _ []). }
  destruct (stream_task_end _ _ (fg_stream_now fg) _ path s st1 code log rest _ ref _ Er Hreg eq_refl He eq_refl Hname Hstream)
    as (st' & Hrun & Hjob & Hlog).
  assert (Hrc : reported_code code = code).
  { apply exit_of_reported; [|done]. rewrite Hevents in Hstatuses. by apply Forall_app in Hstatuses as [? _]. }
  eexists st', _. split; [|split_and!; [exact Hjob| |]].
  - unfold execute_detachable_foreground_impl. rewrite Hpath, Hprep. unfold tbind. rewrite Hstart, Ho, Ht, Hpk, Hrun, Hse.
    unfold foreground_answer. rewrite Hl, Hre, Hjob. unfold log_entry in Hlog.
    destruct (fs_files (disk st') !! _) as [e|]; [|done]. injection Hlog as ->. cbn [tret].
    unfold answer. do 6 f_equal. etrans; [|exact Hrc]. f_equal. by destruct code.
  - destruct code as [c|]; [apply (job_step_terminal _ (Exited c _))|done].
  - by destruct code.
Qed.
(** What a foreground call may come to. A success without a job means that the
    stream ended, and that the status recorded for the job when the answer is
    made (or, when none is, the one the stream reported) is 0; that is the
    command's own status when no other task touched the job. *)
Definition foreground_outcome (env : launch_env) (fg : foreground_env) (command_for_exec : str)
    (a : result CallToolResult McpError * option started * local_state) (t : list launch_action) : Prop :=
  let '(r, task, st') := a in
  held t = 0 /\ (queued t = [] \/ queued t = [wrapper_payload (l_job_id env) command_for_exec]) /\
  forall c, r = Ok c -> is_error c = false ->
    queued t = [wrapper_payload (l_job_id env) command_for_exec] /\
    exists s, started_by env s /\
      ((task = Some s /\ exists path snapshot, c = background_json_timeout (l_job_id env) (s_pid s) path snapshot) \/
       (task = None /\ (exists text, c = of_output (command_output text (Some 0))) /\
        exists used rest, s_events s = used ++ rest /\ stream_end used rest /\
          match registered_job (l_job_id env) st' ≫= Job.exit_code with Some code => code = 0 | None => exit_of None used = Some 0 end /\
          ((forall st, registered_job (l_job_id env) (fg_settled fg st) = registered_job (l_job_id env) st) -> exit_of None used = Some 0))).

Lemma reported_zero code : reported_code code = Some 0 <-> code = Some 0.
Proof.
  unfold reported_code. split; [|by intros ->]. destruct code as [c|]; [|done]. cbn. destruct (_ && _) eqn:E; [|done].
  intros [= H]. bool_hyps. f_equal. lia.
Qed.

Lemma foreground_answer_success max fg id path join st c :
  foreground_answer max fg id path join st = Ok c -> is_error c = false ->
  (exists text, c = of_output (command_output text (Some 0))) /\
  match registered_job id st ≫= Job.exit_code with Some code => code = 0 | None => join = Some 0 end.
Proof.
  unfold foreground_answer. destruct (fg_log_opened fg); [|by intros [= <-]]. destruct (fg_read_error fg); [done|].
  intros [= <-] H. apply of_output_success in H. rewrite H. split; [eauto|]. apply (proj1 (reported_zero _)) in H.
  destruct (_ ≫= _); [by injection H|done].
Qed.

(** The stream's task records the status it returns. *)
Lemma stream_task_records append sync now id path opened s st code st' :
  stream_task append sync now id path opened s st = Some (Ok code, st') -> is_Some (registered_job id st) ->
  (exists used rest, s_events s = used ++ rest /\ stream_end used rest /\ code = exit_of None used) /\
  registered_job id st' ≫= Job.exit_code = code.
Proof.
  unfold stream_task. set (o := match opened with Ok _ => _ | Err e => Err e end). unfold stream_channel.
  destruct (stream_channel_inner append sync o (s_events s) (s_initial s)) as [inner|] eqn:Ei; [|done].
  unfold update_job_terminal, registered_job. destruct (registry_get (registry st) id) as [ref|] eqn:Er; [|by intros _ [? ?]].
  intros [= Hi <-] [j Hj]. cbn in Hj. destruct inner as [[[c log] rest]|e]; [|done]. injection Hi as ->. split.
  - apply stream_inner_end in Ei as (before & used & _ & Hev & He & Hc & _). by exists used, rest.
  - cbn [registry]. rewrite Er. cbn. rewrite lookup_alter_eq, Hj. by destruct code.
Qed.

Lemma foreground_adds env fg max_output_tokens command_for_exec command_for_registry st :
  adds (execute_detachable_foreground_impl env fg max_output_tokens command_for_exec command_for_registry st)
    (foreground_outcome env fg command_for_exec).
Proof.
  set (Q := foreground_outcome env fg command_for_exec).
  assert (Herr : forall text task st' u, held u = 0 -> (queued u = [] \/ queued u = [wrapper_payload (l_job_id env) command_for_exec]) -> adds (tret (Ok (error_text text), task, st')) (fun a v => Q a (u ++ v))).
  { intros text task st' u Hh Hq. apply adds_ret. rewrite app_nil_r. unfold Q, foreground_outcome. split_and!; [done..|]. by intros c [= <-]. }
  unfold execute_detachable_foreground_impl. cbv zeta.
  destruct (default_local_log_path _) as [path|e]; [|apply (Herr _ _ _ []); [done|by left]].
  destruct (ensure_local_log_file _ _ _) as [[[]|e] d]; [|apply (Herr _ _ _ []); [done|by left]].
  eapply adds_bind; [apply start_job_adds|]. intros [r st1] u [Hh Hr]. destruct r as [s|e]; [|by apply Herr; [|apply Hr]].
  destruct Hr as (Hq & Hs & Hst1). assert (Hle : queued u = [] \/ queued u = [wrapper_payload (l_job_id env) command_for_exec]) by by right.
  assert (Hhand : adds (let '(snapshot, st2) := build_timeout_recovery_snapshot fg (l_job_id env) st1 in
    tret (Ok (background_json_timeout (l_job_id env) (s_pid s) path snapshot), Some s, st2)) (fun a v => Q a (u ++ v))).
  { destruct (build_timeout_recovery_snapshot _ _ _) as [snapshot st2]. apply adds_ret. rewrite app_nil_r. unfold Q, foreground_outcome.
    split_and!; [done..|]. intros c [= <-] _. split; [done|]. exists s. split; [done|]. left. eauto. }
  destruct (fg_timed_out fg); [exact Hhand|]. destruct (fg_panicked fg); [by apply Herr|].
  destruct (stream_task _ _ _ _ _ _ _ _) as [[[code|e] st2]|] eqn:Est; [|by apply Herr|exact Hhand].
  apply adds_ret. rewrite app_nil_r. unfold Q, foreground_outcome. split_and!; [done..|]. intros c Hc Hok. split; [done|].
  exists s. split; [done|]. right. split; [done|]. apply foreground_answer_success in Hc as [Htext Hcode]; [|done].
  apply stream_task_records in Est as [(used & rest & Hev & He & ->) Hrec].
  - split; [done|]. exists used, rest. split_and!; [done|done|exact Hcode|]. intros Hset. rewrite Hset, Hrec in Hcode.
    by destruct (exit_of None used); [f_equal|].
  - rewrite Hst1. destruct (register_running_job_spec (l_now env) (l_job_id env) (s_pid s) path command_for_registry (with_disk d st)) as [-> _]. by eexists.
Qed.

(** C28. A foreground call never replays the command, never keeps its slot, and
    never says success lightly: the wrapper is queued at most once; a
    successful answer means that it was queued once and that either the
    timeout handed the command over and it goes on as a job of the answered id
    and process id, or its stream ended ([stream_end]) and the exit status
    recorded for the job (the one its stream reported, when none is recorded)
    is 0; and when no other task touches the job, that is the status the
    command itself reported last. *)
Theorem foreground_launch (env : launch_env) (fg : foreground_env) (max_output_tokens : option Z)
    (command_for_exec command_for_registry : str) (st : local_state) :
  let '(a, t) := execute_detachable_foreground_impl env fg max_output_tokens command_for_exec command_for_registry st [] in
  foreground_outcome env fg command_for_exec a t.
Proof.
  destruct (foreground_adds env fg max_output_tokens command_for_exec command_for_registry st []) as (a & u & E & HQ). by rewrite E.
Qed.
End Launch.

(** ** The size of an answer *)

(** C32. A foreground answer's text is bounded by the configured limit. It is the
    whole log, decoded, when the log is within the limit; otherwise it is the
    first bytes of the log up to the limit, the notices and the last 512 bytes,
    at most three bytes for each (an undecodable byte grows). *)
Theorem foreground_text_bounded (tokens file_len : Z) (content : bytes) (Ht : 0 <= tokens) (Hl : 0 <= file_len) :
  let limit := Z.min USIZE_MAX (tokens * 4) in
  let text := foreground_text (Some tokens) file_len content in
  (file_len <= limit -> text = from_utf8_lossy content) /\
  (limit < file_len ->
     (exists tail, text = from_utf8_lossy (take (Z.to_nat limit) content) ++ truncation_notice file_len ++ tail) /\
     str_len text <= 3 * (limit + FOREGROUND_TAIL_BYTES) + str_len (truncation_notice file_len) + 1).
Proof.
  cbn zeta. unfold foreground_text, saturating_mul. cbn [fmap option_fmap option_map].
  set (limit := Z.min USIZE_MAX (tokens * 4)). assert (Hlim : 0 <= limit) by (unfold limit, USIZE_MAX, U64_MAX; lia).
  destruct (file_len <=? limit) eqn:E; bool_hyps; (split; [|intros H]); try done; try lia.
  set (tail := take _ (drop _ content)). split; [by eexists|].
  rewrite !str_len_app. pose proof (from_utf8_lossy_len (take (Z.to_nat limit) content)) as H1.
  assert (H3 : str_len (if bool_decide (tail = []) then [] else [NL] ++ from_utf8_lossy tail) <= 1 + 3 * FOREGROUND_TAIL_BYTES).
  { case_bool_decide; [done|]. rewrite str_len_app. change (str_len [NL]) with 1. pose proof (from_utf8_lossy_len tail) as H4.
    assert (H5 : (length tail <= Z.to_nat FOREGROUND_TAIL_BYTES)%nat).
    { unfold tail. rewrite length_take. unfold FOREGROUND_TAIL_BYTES. lia. }
    unfold FOREGROUND_TAIL_BYTES in *. lia. }
  rewrite length_take in H1. lia.
Qed.

Lemma foreground_text_bounded_witness :
  foreground_text (Some 1) 6 (lit "abcdef") = lit "abcd" ++ truncation_notice 6 ++ [NL] ++ lit "abcdef" /\
  str_len (foreground_text (Some 1) 6 (lit "abcdef")) <= 3 * (4 + 512) + str_len (truncation_notice 6) + 1.
Proof.
  split; [vm_compute; reflexivity|].
  refine (proj2 (proj2 (foreground_text_bounded 1 6 (lit "abcdef") _ _) _)); vm_compute; try done; congruence.
Defined.

(** ** A run *)

Module LaunchExample.
Definition empty_spool : local_state := {|
  disk := {| fs_dir := None; fs_files := ∅ |}; registry := registry_new 0; states := ∅ |}.

Definition log : str := lit "/s/1-0.log".

(** The markers and the first output arrive in one event. *)
Definition env : launch_env := {|
  l_job_id := make_job_id 1 0; l_now := 5; l_meta_error := None; l_before_open := fun fs => fs; l_open_error := None; l_sync := Ok tt;
  l_connected := Ok tt; l_elevated := Ok tt; l_slot := Ok tt;
  l_first := Err (Some 6, Connection (lit "closed")); l_reconnected := Ok tt; l_second := Ok (7, Ok tt);
  l_events := [(0, Some (Data (utf8_encode (marker_text (lit "1-0") 42 (remote_job_log_path (lit "1-0"))) ++ lit "h")));
               (1, Some (Data (lit "i"))); (2, Some (ExitStatus 0)); (3, Some Close)];
  l_arrived := 1 |}.

Definition fg : foreground_env := {|
  fg_append := fun file data => Ok (file ++ data); fg_sync := fun _ => Ok tt; fg_stream_opened := Ok tt; fg_stream_now := 9;
  fg_timed_out := false; fg_panicked := None; fg_settled := fun st => st; fg_log_opened := Ok tt; fg_read_error := None;
  fg_check := {| ck_connected := Ok tt; ck_pid_running := Ok true; ck_while_settling := fun j => j; ck_before_update := fun j => j;
                 ck_now := 9; ck_elapsed_now := 9; ck_log_meta := LmFile; ck_log_opened := Ok (Some []); ck_log_len := 0 |};
  fg_fallback_now := 9; fg_fallback_meta := LmFile; fg_fallback_tail := Ok [] |}.

Definition to_json (p : PersistedJobState) : option bytes := Some (lit "{}").
Definition of_json (b : bytes) : option PersistedJobState := None.
Definition prepared : spool_fs := snd (ensure_local_log_file (lit "/s") 1000 18 env log (disk empty_spool)).
Definition start := start_job to_json (lit "/s") 1000 18 (lit "u@h:22") env (lit "echo hi") log (lit "echo hi") (with_disk prepared empty_spool) [].
Definition job : started := {| s_pid := 42; s_initial := lit "h"; s_events := drop 1 (l_events env) |}.
End LaunchExample.

Lemma foreground_end_to_end_witness :
  exists st' t, execute_detachable_foreground_impl LaunchExample.to_json LaunchExample.of_json (lit "/s") 1000 18 (lit "u@h:22") LaunchExample.env LaunchExample.fg
    (Some 100) (lit "echo hi") (lit "echo hi") LaunchExample.empty_spool [] =
    ((Ok {| is_error := false; block := Text (lit "hi") |}, None, st'), t) /\ queued t <> [].
Proof.
  pose (st1 := snd (fst LaunchExample.start)).
  destruct (foreground_end_to_end LaunchExample.to_json LaunchExample.of_json (lit "/s") 1000 18 (lit "u@h:22") LaunchExample.env LaunchExample.fg (Some 100)
    (lit "echo hi") (lit "echo hi") LaunchExample.log LaunchExample.empty_spool st1 LaunchExample.prepared LaunchExample.job
    (snd LaunchExample.start) (s_events LaunchExample.job) []) as [(st' & j & Hrun & _) _].
  all: try (vm_compute; reflexivity).
  - repeat constructor; done.
  - split; [right; exists [(1, Some (Data (lit "i"))); (2, Some (ExitStatus 0))], 3, (Some Close); split; [reflexivity|by right; split; [|eexists]]|].
    intros before delay m after E. destruct before as [|e1 [|e2 [|e3 [|e4 before]]]]; cbn in E; simplify_eq.
    + split; [intros [[c Hc] _]; done|intros [?|[? _]]; done].
    + split; [intros [[c Hc] _]; done|intros [?|[? _]]; done].
    + split; [|done]. intros (_ & _ & Hd). vm_compute in Hd. done.
  - split_and!; reflexivity.
  - exists st', (snd LaunchExample.start). split; [exact Hrun|vm_compute; congruence].
Defined.
