(* ===== verification/Jobs.v ===== *)
(** * The life of the command jobs (src/server/exec.rs, src/ssh/command.rs, src/background)

    What the server keeps of its command jobs changes only in a few critical
    sections: files of the spool directory change, a started job is registered,
    a lost one is recovered from its file, a shared state is updated. This file
    shows that launching, streaming and checking are runs of these sections,
    whatever other tasks do in between, and what every such run keeps. *)
From Stdlib Require Import ZArith String.
From stdpp Require Import base list gmap relations.
From S2P Require Import Prelude Trace Errors Paths Shell Validate Job Registry Stream Spooler CheckProcess Response Launch.

(** What never changes of a job. *)
Definition same_job (a b : JobState) : Prop :=
  Job.job_id b = Job.job_id a /\ Job.pid b = Job.pid a /\ Job.log_path b = Job.log_path a /\ Job.command b = Job.command a /\
  Job.connection_id b = Job.connection_id a /\ Job.start_time b = Job.start_time a.

#[global] Instance same_job_preorder : PreOrder same_job.
Proof. split; [by intros j; split_and!|]. intros a b c (?&?&?&?&?&?) (?&?&?&?&?&?). split_and!; congruence. Qed.

Lemma step_same_job j e : same_job j (job_step j e).
Proof. by destruct e; split_and!. Qed.

Lemma reconcile_same_job now j v guard : same_job guard (reconcile now j v guard).
Proof.
  unfold reconcile. destruct (differs j v); [|done]. destruct (v_status v); [by split_and!| | |apply (step_same_job guard (Lost _ now))];
    (destruct (v_exit_code v) as [c|]; [apply (step_same_job guard (Exited c now))|done]).
Qed.

Lemma update_same_job u now j : same_job j (apply_update u now j).
Proof. by destruct u; split_and!. Qed.

(** The last component of a path under any directory. *)
Lemma file_name_join base n : plain_name n -> file_name (path_join base n) = Some n.
Proof.
  intros Hn. destruct (is_absolute base) eqn:Hb.
  { unfold file_name. rewrite components_join_plain by done. by rewrite rev_app_distr. }
  pose proof Hn as (H1 & H2 & _ & H4).
  assert (Hrel : is_absolute n = false) by (apply not_true_iff_false; intros [r ->]%starts_with_spec; apply H4; by left).
  assert (Hcat : forall pre, pre <> [] -> is_absolute pre = false -> file_name (pre ++ SLASH :: n) = Some n).
  { intros pre Hne Hp. unfold file_name, components.
    assert (is_absolute (pre ++ SLASH :: n) = false) as -> by (by destruct pre).
    rewrite split_char_cat, (split_char_id SLASH n) by done.
    destruct (split_char SLASH pre) as [|f rest] eqn:Ef; [by destruct (split_char_ne SLASH pre)|]. cbn [app].
    rewrite omap_app. simpl. rewrite (body_component_plain n) by done. by rewrite app_assoc, rev_app_distr. }
  unfold path_join. rewrite Hrel. destruct (str_eqb base []) eqn:E.
  - unfold file_name, components. rewrite Hrel, (split_char_id SLASH n) by done.
    unfold str_eqb at 1. rewrite bool_decide_eq_false_2 by done. by rewrite body_component_plain.
  - assert (base <> []) by (intros ->; done). destruct (ends_with [SLASH] base) eqn:F; [|by apply Hcat].
    apply ends_with_spec in F as [r ->]. rewrite <- app_assoc. apply Hcat; [by intros ->|by destruct r].
Qed.

Section jobs.
Context (to_json : PersistedJobState -> option bytes) (of_json : bytes -> option PersistedJobState).
Context (base_dir : str) (euid umask : Z) (connection_id : str).

Notation register := (register_running_job to_json base_dir euid umask connection_id).
Notation direct path := (parent_components path = Some (components base_dir)).

(** ** Names

    Transfers have ids [transfer-...] (see [TransferJob]); a command job has
    another one, and no file of the spool directory is the state of a job with
    such an id. *)

Definition TRANSFER_PREFIX : str := lit "transfer-".
Definition command_id (id : str) : Prop := starts_with TRANSFER_PREFIX id = false.
Definition transfer_state (name : str) : Prop := exists id, starts_with TRANSFER_PREFIX id = true /\ name = id ++ lit ".state".
Definition spool_ok (d : spool_fs) : Prop := forall name, transfer_state name -> fs_files d !! name = None.

Lemma log_not_state stem : ~ transfer_state (stem ++ lit ".log").
Proof.
  intros (id & _ & E). apply (f_equal last) in E. change (lit ".log") with (lit ".lo" ++ [103]) in E.
  change (lit ".state") with (lit ".stat" ++ [101]) in E. by rewrite !app_assoc, !last_snoc in E.
Qed.

(** The state file of a command job is not that of a transfer. *)
Lemma command_not_transfer_state id : command_id id -> ~ transfer_state (id ++ lit ".state").
Proof. intros Hc (id' & Ht & E). apply app_inv_tail in E as ->. unfold command_id in Hc. congruence. Qed.

Lemma state_file_name id path : state_path_for base_dir id = Ok path -> file_name path = Some (id ++ lit ".state").
Proof.
  unfold state_path_for. intros H. res_inv. by apply file_name_join, log_name_plain.
Qed.

Lemma log_file_name id path : log_path_for base_dir id = Ok path -> file_name path = Some (id ++ lit ".log").
Proof.
  unfold log_path_for. intros H. res_inv. by apply file_name_join, log_name_plain.
Qed.

Lemma ensure_dir_spool fs fs' : ensure_dir euid umask fs = Ok fs' -> spool_ok fs -> spool_ok fs'.
Proof. intros (_ & Hf & _)%ensure_dir_ok H name Hn. rewrite Hf. by apply H. Qed.

Lemma write_file_spool now name payload fs : spool_ok fs -> spool_ok (write_file now name payload fs).
Proof.
  intros H n Hn. unfold write_file. cbn [fs_files]. destruct (decide (name = n)) as [->|]; [|rewrite lookup_alter_ne by done; by apply H].
  by rewrite lookup_alter_eq, (H n Hn).
Qed.

Lemma open_spool_spool now name fs fs' : open_spool_write_no_symlink now name fs = Ok fs' -> ~ transfer_state name -> spool_ok fs -> spool_ok fs'.
Proof.
  intros Ho Hname H.
  assert (Hput : spool_ok {| fs_dir := fs_dir fs; fs_files := <[name := {| f_kind := FkFile; f_content := []; f_mtime := now |}]> (fs_files fs) |}).
  { intros n Hn. cbn. rewrite lookup_insert_ne by (intros ->; done). by apply H. }
  unfold open_spool_write_no_symlink in Ho. destruct (fs_files fs !! name) as [e|]; [destruct (f_kind e)|]; by simplify_eq.
Qed.

Lemma persist_spool now j fs : command_id (Job.job_id j) -> spool_ok fs -> spool_ok (persist_job_state to_json base_dir euid umask now j fs).1.
Proof.
  intros Hc H. unfold persist_job_state. destruct (ensure_dir euid umask fs) as [fs1|] eqn:E1; [|done].
  assert (H1 : spool_ok fs1) by by eapply ensure_dir_spool. case_bool_decide; [done|].
  destruct (state_path_for base_dir (Job.job_id j)) as [path|] eqn:Ep; [|done]. destruct (to_json _); [|done].
  apply state_file_name in Ep. rewrite Ep.
  destruct (open_spool_write_no_symlink _ _ fs1) as [fs2|] eqn:Eo; [|done].
  eapply write_file_spool, open_spool_spool; [exact Eo| |done]. by apply command_not_transfer_state.
Qed.

Lemma load_spool id fs d loaded : load_job_state of_json base_dir euid umask id fs = (d, loaded) -> spool_ok fs ->
  spool_ok d /\ (is_Some (match loaded with Ok o => o | Err _ => None end) -> command_id id).
Proof.
  unfold load_job_state. destruct (ensure_dir euid umask fs) as [fs1|] eqn:E1; [|by intros [= <- <-] H; split; [|intros []]].
  intros [= <- <-] H. assert (H1 : spool_ok fs1) by by eapply ensure_dir_spool. split; [done|].
  destruct (state_path_for base_dir id) as [path|] eqn:Ep; cbn [rbind]; [|by intros []]. apply state_file_name in Ep. rewrite Ep.
  change (default [] (Some (id ++ lit ".state"))) with (id ++ lit ".state").
  unfold open_spool_read_no_symlink, command_id. destruct (starts_with TRANSFER_PREFIX id) eqn:Et; [|done].
  rewrite (H1 (id ++ lit ".state")) by (by exists id). by intros [].
Qed.

(** The names of the logs. *)
Lemma validated_log_name p name : validate_background_log_path base_dir p = Ok tt -> file_name p = Some name -> ~ transfer_state name.
Proof.
  unfold validate_background_log_path. intros Hv Hn. res_inv. repeat (case_match; [done|]).
  match goal with H : bool_decide (extension p <> _) = false |- _ => apply bool_decide_eq_false in H; apply dec_stable in H; rename H into He end.
  apply extension_file_name in He as (n & stem & Hn' & -> & _). rewrite Hn' in Hn. assert (stem ++ [46] ++ lit "log" = name) as <- by congruence.
  apply (log_not_state stem).
Qed.

Lemma default_log_name id p name : default_local_log_path base_dir id = Ok p -> file_name p = Some name -> ~ transfer_state name.
Proof.
  unfold default_local_log_path. destruct (log_path_for base_dir id) as [q|] eqn:E; [|done]. intros [= <-].
  rewrite (log_file_name _ _ E). intros [= <-]. apply log_not_state.
Qed.

(** What other tasks do to the directory before the log is opened. *)
Definition quiet_launch (env : launch_env) : Prop := forall fs, spool_ok fs -> spool_ok (l_before_open env fs).

Lemma ensure_log_spool env path fs :
  quiet_launch env -> (forall name, file_name path = Some name -> ~ transfer_state name) -> spool_ok fs ->
  spool_ok (ensure_local_log_file base_dir euid umask env path fs).2.
Proof.
  intros Hq Hn H. unfold ensure_local_log_file. destruct (ensure_dir euid umask fs) as [fs1|] eqn:E1; [|done].
  assert (H1 : spool_ok fs1) by by eapply ensure_dir_spool. case_bool_decide; [done|]. cbv zeta.
  destruct (check_log_entry _ _ _); [|done]. specialize (Hq fs1 H1). unfold open_log_truncated.
  destruct (l_open_error env); [by destruct (bool_decide _)|].
  destruct (open_spool_write_no_symlink _ _ _) as [fs2|] eqn:Eo; [|by destruct (bool_decide _)].
  eapply open_spool_spool; [exact Eo| |done]. destruct (file_name path) as [name|]; [by apply Hn|].
  intros (id & _ & E). by destruct id.
Qed.

(** ** Critical sections *)

Definition with_new_job (id : str) (j : JobState) (st : local_state) : local_state :=
  let ref := fresh (dom (states st)) in
  {| disk := disk st; registry := registry_insert (registry st) id ref; states := <[ref := j]> (states st) |}.

(** The job id is new. An id carries a counter of the process (see
    [make_job_id]). *)
Definition unknown_job (id : str) (st : local_state) : Prop := registry_get (registry st) id = None.

(** The look, the load and the insertion of a recovery are taken to be one
    section. *)
Inductive section (st : local_state) : local_state -> Prop :=
  | sec_disk d : (spool_ok (disk st) -> spool_ok d) -> section st (with_disk d st)
  | sec_register now id pid path command : direct path -> unknown_job id st -> command_id id -> section st (register now id pid path command st)
  | sec_recover j : direct (Job.log_path j) -> unknown_job (Job.job_id j) st -> command_id (Job.job_id j) ->
      section st (with_new_job (Job.job_id j) j st)
  | sec_update ref j j' : states st !! ref = Some j -> same_job j j' -> section st (with_states (<[ref := j']> (states st)) st).

Notation sections := (rtc section).

(** ** What they keep *)

Record jobs_ok (st : local_state) : Prop := {
  jo_refs : refs_ok st;
  jo_id : forall id ref j, registry_get (registry st) id = Some ref -> states st !! ref = Some j -> Job.job_id j = id;
  jo_log : forall ref j, states st !! ref = Some j -> direct (Job.log_path j);
  jo_commands : forall id ref, registry_get (registry st) id = Some ref -> command_id id;
  jo_spool : spool_ok (disk st)
}.

Definition kept (st st' : local_state) : Prop :=
  (forall ref j, states st !! ref = Some j -> exists j', states st' !! ref = Some j' /\ same_job j j') /\
  (forall id ref, registry_get (registry st) id = Some ref -> registry_get (registry st') id = Some ref).

#[global] Instance kept_preorder : PreOrder kept.
Proof.
  split; [by intros st; split; [intros ref j Hj; exists j|]|]. intros a b c [H1 H2] [H3 H4]. split; [|auto].
  intros ref j Hj. destruct (H1 ref j Hj) as (j1 & Hj1 & E1). destruct (H3 ref j1 Hj1) as (j2 & Hj2 & E2). exists j2. split; [done|by etrans].
Qed.

Lemma new_job_ok id j st : jobs_ok st -> Job.job_id j = id -> direct (Job.log_path j) -> command_id id -> jobs_ok (with_new_job id j st).
Proof.
  intros [H1 H2 H3 H4 H5] Hid Hl Hcmd. pose proof (is_fresh (dom (states st))) as Hf. split; unfold with_new_job; cbn.
  - intros id' ref. cbn. unfold registry_get, registry_insert. cbn. rewrite dom_insert. intros [[_ <-]|[_ H]]%lookup_insert_Some; [set_solver|].
    apply elem_of_union. right. by eapply H1.
  - intros id' ref j'. unfold registry_get, registry_insert. cbn. intros [[<- <-]|[Hne Hr]]%lookup_insert_Some.
    + rewrite lookup_insert_eq. by intros [= <-].
    + rewrite lookup_insert_ne; [by apply H2|]. intros <-. apply Hf. by eapply H1.
  - intros ref j' [[_ <-]|[_ H]]%lookup_insert_Some; [done|by eapply H3].
  - intros id' ref. unfold registry_get, registry_insert. cbn. intros [[<- _]|[_ H]]%lookup_insert_Some; [done|by eapply H4].
  - exact H5.
Qed.

Lemma new_job_kept id j st : unknown_job id st -> kept st (with_new_job id j st).
Proof.
  intros Hn. split.
  - intros ref j' Hj. exists j'. split; [|done]. cbn. rewrite lookup_insert_ne; [done|]. intros <-.
    apply (is_fresh (dom (states st))). by apply elem_of_dom.
  - intros id' ref Hr. unfold with_new_job, unknown_job, registry_get, registry_insert in *. cbn.
    rewrite lookup_insert_ne; [done|]. intros ->. congruence.
Qed.

Lemma kept_registered st st' id j :
  kept st st' -> registered_job id st = Some j -> exists j', registered_job id st' = Some j' /\ same_job j j'.
Proof.
  intros [H1 H2]. unfold registered_job. destruct (registry_get (registry st) id) as [ref|] eqn:Er; [|done]. cbn. intros Hj.
  rewrite (H2 _ _ Er). cbn. by apply H1.
Qed.

Lemma with_disk_ok d st : jobs_ok st -> spool_ok d -> jobs_ok (with_disk d st).
Proof. intros [H1 H2 H3 H4 _] H5. by split. Qed.

(** Registering is a new job and a change of its files. *)
Lemma register_new now id pid path command st : exists d j,
  register now id pid path command st = with_disk d (with_new_job id j st) /\ Job.job_id j = id /\ Job.log_path j = path /\
  (command_id id -> spool_ok (disk st) -> spool_ok d).
Proof.
  unfold register_running_job. set (j := new_running _ _). pose proof (persist_spool now j (disk st)) as Hd.
  destruct (persist_job_state _ _ _ _ _ _ _) as [d ok]. by exists d, j.
Qed.

Lemma section_ok st st' : section st st' -> jobs_ok st -> jobs_ok st' /\ kept st st'.
Proof.
  intros Hs Hok. destruct Hs as [d Hd|now id pid path command Hp Hn Hc|j Hp Hn Hc|ref j j' Hj Hsame].
  - split; [by apply with_disk_ok; [|apply Hd, Hok]|exact (reflexivity (R:=kept) st)].
  - destruct (register_new now id pid path command st) as (d & j & -> & Hid & Hl & Hd). split.
    + apply with_disk_ok; [apply new_job_ok; congruence|by apply Hd, Hok].
    + by apply (new_job_kept id j st).
  - split; [by apply new_job_ok|by apply new_job_kept].
  - destruct Hok as [H1 H2 H3 H4 H5]. split; [split; cbn; [| | |exact H4|exact H5]|split; cbn; [|done]].
    + intros id r Hr. cbn. rewrite dom_insert. apply elem_of_union. right. by eapply H1.
    + intros id r k Hr [[<- <-]|[_ Hk]]%lookup_insert_Some; [|by eapply H2]. rewrite <- (H2 id ref j Hr Hj). apply Hsame.
    + intros r k [[<- <-]|[_ Hk]]%lookup_insert_Some; [|by eapply H3]. destruct Hsame as (_ & _ & -> & _). by eapply H3.
    + intros r k Hk. destruct (decide (ref = r)) as [<-|]; [|exists k; by rewrite lookup_insert_ne].
      exists j'. rewrite lookup_insert_eq. split; [done|]. congruence.
Qed.

Lemma sections_ok st st' : sections st st' -> jobs_ok st -> jobs_ok st' /\ kept st st'.
Proof.
  induction 1 as [st|st1 st2 st3 Hs _ IH]; [done|]. intros Hok. destruct (section_ok _ _ Hs Hok) as [Hok2 Hk].
  destruct (IH Hok2) as [Hok3 Hk3]. split; [done|by etrans].
Qed.

(** Two job ids never share a state. *)
Lemma jobs_ok_distinct st id1 id2 ref :
  jobs_ok st -> registry_get (registry st) id1 = Some ref -> registry_get (registry st) id2 = Some ref -> id1 = id2.
Proof.
  intros [H1 H2 _ _ _] E1 E2. destruct (states st !! ref) as [j|] eqn:Ej.
  - by rewrite <- (H2 _ _ _ E1 Ej), <- (H2 _ _ _ E2 Ej).
  - apply not_elem_of_dom in Ej. destruct Ej. by eapply H1.
Qed.

(** ** Runs of the sections *)

Lemma alter_lookup (f : JobState -> JobState) ref j (m : gmap nat JobState) : m !! ref = Some j -> alter f ref m = <[ref := f j]> m.
Proof. intros Hj. rewrite <- (insert_id m ref j Hj) at 1. by rewrite alter_insert_eq. Qed.

(** What other tasks report of a job meanwhile does not change its identity. *)
Definition quiet_check (env : check_env) : Prop :=
  (forall j, same_job j (ck_while_settling env j)) /\ (forall j, same_job j (ck_before_update env j)).

Lemma check_process_after id n registered load env j recovered :
  quiet_check env -> find_job id registered load = Ok (j, recovered) ->
  exists answer final, check_process id n registered load env = (answer, Some final) /\ same_job j final.
Proof.
  intros [Hq1 Hq2] Hf. unfold check_process. rewrite Hf. destruct (judge _ _ _ _) as [v|e]; [|by eexists _, j].
  eexists _, _. split; [reflexivity|]. etrans; [apply Hq1|]. etrans; [apply Hq2|]. apply reconcile_same_job.
Qed.

Lemma update_disk ref j j' d st : states st !! ref = Some j -> same_job j j' -> (spool_ok (disk st) -> spool_ok d) ->
  sections st {| disk := d; registry := registry st; states := <[ref := j']> (states st) |}.
Proof. intros Hj Hs Hd. eapply rtc_l; [by eapply sec_update|]. by apply rtc_once, (sec_disk (with_states _ st) d). Qed.

Lemma check_job_sections id n env st :
  jobs_ok st -> quiet_check env -> sections st (check_job to_json of_json base_dir euid umask id n env st).2.
Proof.
  intros Hok Hq. unfold check_job. destruct (registry_get (registry st) id) as [ref|] eqn:Er.
  - destruct (registered_job id st) as [j|] eqn:Ej.
    + destruct (check_process_after id n (Some j) (Ok None) env j false Hq eq_refl) as (a & f & -> & Hs). rewrite Er.
      assert (Hj : states st !! ref = Some j) by (unfold registered_job in Ej; by rewrite Er in Ej).
      eapply update_disk; [exact Hj|exact Hs|]. destruct (reconciles _ _ _ _); [|done]. apply persist_spool.
      destruct Hs as [-> _]. rewrite (jo_id _ Hok _ _ _ Er Hj). by apply (jo_commands _ Hok id ref).
    + unfold check_process, find_job. done.
  - destruct (load_job_state of_json base_dir euid umask id (disk st)) as [d loaded] eqn:El.
    assert (Hn : registered_job id (with_disk d st) = None) by (unfold registered_job; cbn; by rewrite Er).
    rewrite Hn. change (registry (with_disk d st)) with (registry st). rewrite Er.
    destruct (load_spool _ _ _ _ El (jo_spool _ Hok)) as [Hd Hcmd].
    eapply rtc_l; [by apply (sec_disk st d)|].
    destruct loaded as [[j|]|e]; cbn [rmap_err]; [|done..]. specialize (Hcmd ltac:(by eexists)).
    apply load_job_state_checked in El as (Hid & Hl & _).
    destruct (check_process_after id n None (Ok (Some j)) env j true Hq eq_refl) as (a & f & -> & Hs). cbn [snd].
    eapply rtc_l; [apply (sec_recover (with_disk d st) j); [done|unfold unknown_job; by rewrite Hid|by rewrite Hid]|]. rewrite Hid.
    set (d' := if reconciles _ _ _ _ then _ else _). set (ref := fresh _).
    assert (Hd' : spool_ok d').
    { subst d'. destruct (reconciles _ _ _ _); [|done]. apply persist_spool; [|done]. destruct Hs as [-> _]. by rewrite Hid. }
    pose proof (update_disk ref j f d' (with_new_job id j (with_disk d st))) as H.
    unfold with_new_job in *. cbn [states disk registry with_disk] in *. rewrite insert_insert_eq in H.
    apply H; [by rewrite lookup_insert_eq|done|done].
Qed.

Lemma stream_task_sections append sync now id path opened s st answer st' : jobs_ok st ->
  stream_task to_json base_dir euid umask append sync now id path opened s st = Some (answer, st') -> sections st st'.
Proof.
  intros Hok. unfold stream_task. set (o := match opened with Ok _ => _ | Err e => Err e end). unfold stream_channel.
  destruct (stream_channel_inner append sync o (s_events s) (s_initial s)) as [inner|]; [|done].
  set (d := match inner with Ok (_, file, _) => write_file now (default [] (file_name path)) file (disk st) | Err _ => disk st end).
  assert (Hd : spool_ok (disk st) -> spool_ok d) by (subst d; destruct inner as [[[? ?] ?]|]; [apply write_file_spool|done]).
  clearbody d. unfold update_job_terminal. set (u := terminal_update inner).
  destruct (registry_get (registry st) id) as [ref|] eqn:Er; intros [= _ <-].
  - destruct (states st !! ref) as [j|] eqn:Ej.
    + rewrite (alter_lookup _ ref j) by done. pose proof (update_same_job u now j) as Hs. eapply update_disk; [exact Ej|exact Hs|].
      intros H. apply persist_spool; [|by apply Hd]. destruct Hs as [-> _]. rewrite (jo_id _ Hok _ _ _ Er Ej). by apply (jo_commands _ Hok id ref).
    + rewrite alter_id' by done. by apply rtc_once, sec_disk.
  - by apply rtc_once, sec_disk.
Qed.

(** Starting a job under a direct log path only registers it. *)
Lemma start_job_sections env for_exec path for_registry st : direct path -> unknown_job (l_job_id env) st -> command_id (l_job_id env) ->
  adds (start_job to_json base_dir euid umask connection_id env for_exec path for_registry st) (fun a _ => sections st a.2).
Proof.
  intros Hp Hn Hc. eapply adds_mono; [apply start_job_adds|]. intros [[s|e] st'] u [_ H]; cbn.
  - destruct H as (_ & _ & ->). by apply rtc_once, sec_register.
  - by destruct H as [-> _].
Qed.

Lemma background_sections env max_chars su_set command log_path privilege st :
  quiet_launch env -> unknown_job (l_job_id env) st -> command_id (l_job_id env) ->
  adds (execute_background_impl to_json base_dir euid umask connection_id env max_chars su_set command log_path privilege st)
    (fun a _ => sections st a.2).
Proof.
  intros Hq Hn Hc. unfold execute_background_impl. cbv zeta.
  destruct (match log_path with Some p => Ok p | None => _ end) as [path|] eqn:Ep; [|by apply adds_ret].
  destruct (match log_path with Some p => validate_background_log_path base_dir p | None => Ok tt end) as [v|] eqn:Ev; [|by apply adds_ret].
  assert (Hlog : spool_ok (disk st) -> spool_ok (ensure_local_log_file base_dir euid umask env path (disk st)).2).
  { apply ensure_log_spool; [done|]. intros name.
    destruct log_path as [p|]; [destruct v; injection Ep as ->; by apply validated_log_name|by apply (default_log_name (l_job_id env))]. }
  pose proof (ensure_log_direct base_dir euid umask env path (disk st)) as Hd.
  destruct (ensure_local_log_file _ _ _ env path (disk st)) as [prepared d].
  assert (L : sections st (with_disk d st)) by by apply rtc_once, sec_disk.
  destruct prepared as [[]|]; [|by apply adds_ret]. specialize (Hd eq_refl).
  destruct (Shell.sanitize_command command max_chars) as [sanitized|]; [|by apply adds_ret].
  apply adds_act. destruct (l_connected env); [|by apply adds_ret].
  destruct (privileged privilege sanitized) as [[for_exec for_registry] elevate].
  assert (H : adds (let! '(r, st0) := start_job to_json base_dir euid umask connection_id env for_exec path for_registry (with_disk d st) in
      match r with
      | Ok s0 => tret (background_json_ok (l_job_id env) (s_pid s0) path, Some s0, st0)
      | Err e => tret (background_json_err e [], None, st0)
      end) (fun a _ => sections st a.2)).
  { eapply adds_bind; [by apply start_job_sections|]. intros [[s0|e] st0] u Hs; apply adds_ret; cbn in *; by etrans. }
  by apply adds_if.
Qed.

(** What other tasks do during a foreground call. *)
Definition quiet_foreground (fg : foreground_env) : Prop := quiet_check (fg_check fg) /\ forall st, sections st (fg_settled fg st).

Lemma foreground_sections env fg max_output_tokens for_exec for_registry st :
  jobs_ok st -> quiet_launch env -> quiet_foreground fg -> unknown_job (l_job_id env) st -> command_id (l_job_id env) ->
  adds (execute_detachable_foreground_impl to_json of_json base_dir euid umask connection_id env fg max_output_tokens for_exec for_registry st)
    (fun a _ => sections st a.2).
Proof.
  intros Hok Hq [Hc Hsettled] Hn Hcmd. unfold execute_detachable_foreground_impl. cbv zeta.
  destruct (default_local_log_path _ _) as [path|] eqn:Ep; [|by apply adds_ret].
  assert (Hlog : spool_ok (disk st) -> spool_ok (ensure_local_log_file base_dir euid umask env path (disk st)).2)
    by (apply ensure_log_spool; [done|intros name; by apply (default_log_name (l_job_id env))]).
  pose proof (ensure_log_direct base_dir euid umask env path (disk st)) as Hd.
  destruct (ensure_local_log_file _ _ _ env path (disk st)) as [prepared d].
  assert (L : sections st (with_disk d st)) by by apply rtc_once, sec_disk.
  destruct prepared as [[]|]; [|by apply adds_ret]. specialize (Hd eq_refl).
  eapply adds_bind; [by apply start_job_sections|]. intros [[s|e] st1] u Hs; cbn in Hs; [|apply adds_ret; cbn; by etrans].
  assert (L1 : sections st st1) by by etrans. destruct (sections_ok _ _ L1 Hok) as [Hok1 _].
  assert (Hhand : adds (let '(snapshot, st2) := build_timeout_recovery_snapshot to_json of_json base_dir euid umask fg (l_job_id env) st1 in
    tret (Ok (background_json_timeout (l_job_id env) (s_pid s) path snapshot) : result CallToolResult McpError, Some s, st2))
    (fun a _ => sections st a.2)).
  { unfold build_timeout_recovery_snapshot.
    pose proof (check_job_sections (l_job_id env) DEFAULT_CHECK_PROCESS_TAIL_LINES (fg_check fg) st1 Hok1 Hc) as H.
    destruct (check_job _ _ _ _ _ _ _ _ _) as [[[]|] st2]; apply adds_ret; cbn in *; by etrans. }
  destruct (fg_timed_out fg); [exact Hhand|]. destruct (fg_panicked fg); [by apply adds_ret|].
  destruct (stream_task _ _ _ _ _ _ _ _ _ _ _ _) as [[[code|e] st2]|] eqn:E; [| |exact Hhand];
    (apply stream_task_sections in E; [|done]); apply adds_ret; cbn; [etrans; [exact L1|]; etrans; [exact E|apply Hsettled]|by etrans].
Qed.

(** ** What a check of a registered job reports *)

Lemma check_job_identity id n env st ps st' j :
  registered_job id st = Some j -> check_job to_json of_json base_dir euid umask id n env st = (Some (Ok ps), st') ->
  ps_pid ps = Job.pid j /\ ps_command ps = Job.command j /\ ps_log_path ps = Job.log_path j.
Proof.
  intros Hj H. assert (Hr : is_Some (registry_get (registry st) id)).
  { unfold registered_job in Hj. destruct (registry_get _ _); [by eexists|done]. }
  destruct Hr as [ref Hr]. unfold check_job in H. rewrite Hr, Hj in H. unfold check_process, find_job in H.
  destruct (judge _ _ _ _) as [v|e]; cbn [rbind] in H; rewrite Hr in H; [|done]. injection H as H _.
  destruct (log_file_exists _); [|done]. destruct (read_local_log_tail _ _ _) as [[tail|]|]; [|done..]. cbn in H. by injection H as <-.
Qed.

(** It fails only for the connection, the look at the process or the log. *)
Lemma check_job_answers id n env st j :
  registered_job id st = Some j -> ck_connected env = Ok tt -> is_ok (ck_pid_running env) = true ->
  ck_log_meta env = LmFile -> is_ok (ck_log_opened env) = true -> 0 <= ck_log_len env ->
  exists ps st', check_job to_json of_json base_dir euid umask id n env st = (Some (Ok ps), st').
Proof.
  intros Hj Hc Hp Hm Ho Hlen. assert (Hr : is_Some (registry_get (registry st) id)).
  { unfold registered_job in Hj. destruct (registry_get _ _); [by eexists|done]. }
  destruct Hr as [ref Hr]. unfold check_job. rewrite Hr, Hj.
  pose proof (check_process_total id n (Some j) (Ok None) env Hlen) as Ht. unfold check_process, find_job in *. rewrite Hm in *.
  assert (Hv : exists v, judge j (ck_connected env) (ck_pid_running env) (ck_while_settling env j) = Ok v).
  { unfold judge. rewrite Hc. destruct (ck_pid_running env) as [[]|]; [| |done]; destruct (Job.status j); cbn; try (by eexists).
    destruct (Job.exit_code j); by eexists. }
  destruct Hv as [v Hv]. rewrite Hv in Ht |- *. rewrite Hr. cbn in *.
  destruct (read_local_log_tail (ck_log_opened env) (ck_log_len env) n) as [t|] eqn:Et; [|by destruct Ht].
  assert (Hok : exists tail, t = Ok tail).
  { unfold read_local_log_tail in Et. destruct (n =? 0); [injection Et as <-; by eexists|].
    destruct (ck_log_opened env) as [[c|]|]; [|injection Et as <-; by eexists|done].
    destruct (tail_loop _ _ _ _ _ _); [|done]. injection Et as <-. by eexists. }
  destruct Hok as [tail ->]. cbn. by eexists _, _.
Qed.
End jobs.
