(* ===== verification/Startup.v ===== *)
(** * Transfer advice at start-up (src/transfer/startup.rs)

    Which transports are advised before the first transfer: the gates that
    need no I/O, and one run of the [sftp] client, in a process group of its
    own that is signalled while its leader is still unreaped. Linux and
    macOS. *)
From Stdlib Require Import ZArith String.
From stdpp Require Import base list sets.
From S2P Require Import Prelude Trace Errors TransferTypes Clients Engine.

Inductive StartupProbeStatus : Type := ProbeOk | Blocked | ProbeUnknown.
#[global] Instance StartupProbeStatus_eq_dec : EqDecision StartupProbeStatus.
Proof. solve_decision. Defined.

Record StartupTransferPreflight : Type := {
  rsync : StartupProbeStatus;
  sftp : StartupProbeStatus;
  scp : StartupProbeStatus;
  exec_raw : StartupProbeStatus
}.

(** [Default] *)
Definition preflight_default : StartupTransferPreflight :=
  {| rsync := ProbeUnknown; sftp := ProbeUnknown; scp := ProbeUnknown; exec_raw := ProbeUnknown |}.

Definition for_options (options : TransferSshOptions) : StartupTransferPreflight :=
  let blocked := bool_decide (ts_key_path options = None) ||
                 match ts_jump options with Some jump => bool_decide (tj_key_path jump = None) | None => false end in
  let external := if blocked then Blocked else ProbeUnknown in
  {| rsync := external; sftp := external; scp := external; exec_raw := ProbeUnknown |}.

Definition preferred_transport (p : StartupTransferPreflight) : option str :=
  if bool_decide (sftp p = ProbeOk) then Some (lit "sftp")
  else if bool_decide (exec_raw p = ProbeOk) then Some (lit "exec-raw")
  else None.

Definition transports (p : StartupTransferPreflight) : list (str * StartupProbeStatus) :=
  [(lit "rsync", rsync p); (lit "sftp", sftp p); (lit "scp", scp p); (lit "exec-raw", exec_raw p)].

(** The transports of a status, as one part of the hint. *)
Definition status_list (p : StartupTransferPreflight) (l : str * StartupProbeStatus) : option str :=
  match fst <$> filter (fun t => snd t = snd l) (transports p) with
  | [] => None
  | names => Some (fst l ++ lit "=" ++ join (lit ",") names)
  end.

Definition hint (p : StartupTransferPreflight) : str :=
  if forallb (fun t => bool_decide (snd t = ProbeUnknown)) (transports p) then
    lit "Transfer: startup preflight unknown; choose transport explicitly."
  else
    let advice := match preferred_transport p with
                  | Some transport => lit "prefer " ++ transport
                  | None => lit "choose transport explicitly"
                  end in
    let lists := omap (status_list p) [(lit "ok", ProbeOk); (lit "blocked", Blocked); (lit "unknown", ProbeUnknown)] in
    lit "Transfer: " ++ advice ++ lit "; startup preflight (may be stale): " ++ join (lit "; ") lists ++ lit ".".

(** ** The child *)

(** [GroupKilled] and [ChildKilled]: SIGKILL to the process group, and to the
    leader through its handle; [Reaped]: the leader's id is released. *)
Inductive probe_action : Type := Spawned (program : str) (args : list str) | GroupKilled | ChildKilled | Reaped.

(** [ProbeChild::kill]; the answer is the new [kill_group_on_drop]. *)
Definition probe_kill (kill_group_on_drop : bool) : traced probe_action bool :=
  let! _ := if kill_group_on_drop then act GroupKilled else tret tt in
  let! _ := act ChildKilled in
  tret false.

(** [Drop] kills again. *)
Definition probe_drop (kill_group_on_drop : bool) : traced probe_action unit :=
  let! _ := probe_kill kill_group_on_drop in tret tt.

(** What happens to one probe. [p_work]: how writing "quit", waiting for the
    exit and reading both pipes end; [p_waited]: the exit status, unless the
    deadline passes first. *)
Record probe_env : Type := {
  p_cancelled_before : bool;
  p_late_before : bool;
  p_cancelled : bool;
  p_late : bool;
  p_spawned : result unit (bool * str);
  p_pipes : result unit str;
  p_cancelled_during : bool;
  p_late_during : bool;
  p_work : result unit str;
  p_waited : option (result bool str)
}.

Definition run_child (env : probe_env) : traced probe_action (result bool str) :=
  match p_pipes env with
  | Err e => let! _ := probe_drop true in tret (Err e)
  | Ok _ =>
      let result := if p_cancelled_during env then Err (lit "startup probe cancelled")
                    else if p_late_during env then Err (lit "startup probe deadline expired")
                    else p_work env in
      let! kill_group_on_drop := probe_kill true in
      let! reaped := match p_waited env with
                     | Some r => let! _ := act Reaped in tret r
                     | None => tret (Err (lit "startup probe reap deadline expired"))
                     end in
      let! _ := probe_drop kill_group_on_drop in
      tret (let? _ := result in reaped)
  end.

(** The error of a spawn says whether the program was not found. *)
Definition run_command (env : probe_env) (program : str) (args : list str) : traced probe_action StartupProbeStatus :=
  if p_cancelled env || p_late env then tret ProbeUnknown
  else
    match p_spawned env with
    | Err (true, _) => tret Blocked
    | Err (false, _) => tret ProbeUnknown
    | Ok _ =>
        let! _ := act (Spawned program args) in
        let! r := run_child env in
        tret (match r with Ok true => ProbeOk | _ => ProbeUnknown end)
    end.

Definition endpoint_for (options : TransferSshOptions) (key_path : str) : OpenSshEndpoint := {|
  ep_host := ts_host options; ep_port := ts_port options; ep_user := ts_user options; ep_key_path := key_path;
  ep_host_key_checking := ts_host_key_checking options; ep_known_hosts := ts_known_hosts options; ep_jump := ts_jump options |}.

(** The arguments are those of a transfer with the [sftp] client. *)
Definition sftp_command (endpoint : OpenSshEndpoint) : str * list str :=
  (lit "sftp", [lit "-P"; show_uint (ep_port endpoint)] ++ common_ssh_options endpoint ++ [lit "-b"; lit "-"] ++
               [ep_user endpoint ++ lit "@" ++ ep_host endpoint]).

Definition probe_sftp (env : probe_env) (options : TransferSshOptions) : traced probe_action StartupProbeStatus :=
  if bool_decide (sftp (for_options options) = Blocked) then tret Blocked
  else if p_cancelled_before env || p_late_before env then tret ProbeUnknown
  else
    match ts_key_path options with
    | None => tret Blocked
    | Some key_path => let '(program, args) := sftp_command (endpoint_for options key_path) in run_command env program args
    end.

(** ** Draining the pipes *)

Definition CAPTURE_LIMIT : nat := 4096.

(** The chunks that the reads deliver, each of at most 4096 bytes; the first
    4096 bytes are kept. *)
Fixpoint drain_output (chunks : list bytes) (captured : bytes) : bytes :=
  match chunks with
  | [] => captured
  | [] :: _ => captured
  | chunk :: chunks => drain_output chunks (captured ++ take (Nat.min (length chunk) (CAPTURE_LIMIT - length captured)) chunk)
  end.

(** ** Properties *)

(** The leader of the process group: not spawned, running or a zombie (its id
    is not reused), and whether the group was signalled; reaped. *)
Inductive leader : Type := NoLeader | Unreaped (signalled : bool) | Released.

Definition leader_step (s : leader) (a : probe_action) : option leader :=
  match s, a with
  | NoLeader, Spawned _ _ => Some (Unreaped false)
  | Unreaped false, GroupKilled => Some (Unreaped true)
  | Unreaped true, Reaped => Some Released
  | Unreaped true, ChildKilled => Some (Unreaped true)
  | Released, ChildKilled => Some Released
  | _, _ => None
  end.

(** C26. The probe never signals a process group whose id may have been reused,
    and leaves none behind: whatever happens to the child (missing pipes,
    cancellation, the deadline, a failed wait), a spawned group is signalled
    exactly once, before its leader is reaped and never after. Only an exit
    with status 0 is an "ok"; the answer is "blocked" only when nothing was
    spawned. *)
Theorem probe_sftp_safe (env : probe_env) (options : TransferSshOptions) :
  obeys leader_step NoLeader (probe_sftp env options) (fun status s =>
    (s = NoLeader /\ status <> ProbeOk \/
     (s = Unreaped true \/ s = Released) /\ status <> Blocked /\
     (status = ProbeOk -> p_work env = Ok tt /\ p_waited env = Some (Ok true) /\ s = Released))).
Proof.
  unfold probe_sftp. case_bool_decide; [by apply obeys_ret; left|]. destruct (_ || _); [by apply obeys_ret; left|].
  destruct (ts_key_path options) as [key|]; [|by apply obeys_ret; left]. unfold sftp_command, run_command.
  destruct (p_cancelled env || p_late env); [by apply obeys_ret; left|].
  destruct (p_spawned env) as [[]|[[] e]]; [|by apply obeys_ret; left..].
  eapply obeys_act; [reflexivity|]. apply obeys_bind. unfold run_child.
  destruct (p_pipes env) as [[]|e].
  - apply obeys_bind. eapply obeys_act; [reflexivity|]. eapply obeys_act; [reflexivity|]. apply obeys_ret. apply obeys_bind.
    destruct (p_waited env) as [r|].
    + eapply obeys_act; [reflexivity|]. apply obeys_ret. apply obeys_bind. apply obeys_bind. apply obeys_bind. apply obeys_ret.
      eapply obeys_act; [reflexivity|]. do 4 apply obeys_ret. right. split; [by right|].
      destruct (p_cancelled_during env), (p_late_during env), (p_work env) as [[]|], r as [[]|]; cbn; by split.
    + apply obeys_ret. apply obeys_bind. apply obeys_bind. apply obeys_bind. apply obeys_ret.
      eapply obeys_act; [reflexivity|]. do 4 apply obeys_ret. right. split; [by left|].
      destruct (p_cancelled_during env), (p_late_during env), (p_work env) as [[]|]; cbn; by split.
  - apply obeys_bind. apply obeys_bind. apply obeys_bind. eapply obeys_last; [reflexivity|]. eapply obeys_act; [reflexivity|]. 
    do 4 apply obeys_ret. right. split; [by left|]. by split.
Qed.

(** The advice agrees with the engine. "Blocked" is said of sftp, scp and
    rsync together, exactly when the engine refuses every such transfer without
    starting anything; otherwise the engine starts the client with the endpoint
    the probe used. A transport is preferred only when its probe succeeded. *)
Theorem advice_matches_engine {W : Type} `{TransportOps W} (env : answers) (options : TransferSshOptions)
    (t : TransferTransport) (home id : str) (k : TransferKind) (resp : TransferResponse) (w : W)
    (p := for_options options) :
  rsync p = sftp p /\ scp p = sftp p /\
  (sftp p = Blocked ->
     (exists reason, run_openssh env options t home id k resp w = (Err (unsupported t reason), resp, w)) /\
     (exists reason, run_rsync env options home id k resp w = (Err (unsupported Rsync reason), resp, w))) /\
  (sftp p <> Blocked ->
     exists key, ts_key_path options = Some key /\
       run_openssh env options t home id k resp w =
         run_client_transport env home id k (openssh_transfer t (endpoint_for options key)) resp w) /\
  (forall name q, preferred_transport q = Some name -> (name, ProbeOk) ∈ transports q).
Proof.
  subst p. split_and!; [done|done|..].
  - unfold for_options, run_openssh, run_rsync, jump_unsupported. cbn [sftp].
    destruct (ts_key_path options) as [key|]; cbn; [|by eauto].
    destruct (ts_jump options) as [jump|]; [|done]. destruct (tj_key_path jump); [done|by eauto].
  - unfold endpoint_for, for_options, run_openssh, jump_unsupported. cbn [sftp].
    destruct (ts_key_path options) as [key|]; cbn [option_bind orb bool_decide decide_rel]; [|intros Hb; by destruct Hb]. intros Hb. exists key. split; [done|].
    destruct (ts_jump options) as [jump|]; [|done]. destruct (tj_key_path jump); [done|]. by destruct Hb.
  - intros name q. unfold preferred_transport, transports. 
    destruct (bool_decide (sftp q = ProbeOk)) eqn:E1; [apply bool_decide_eq_true in E1; intros [= <-]; rewrite E1; set_solver|].
    destruct (bool_decide (exec_raw q = ProbeOk)) eqn:E2; [apply bool_decide_eq_true in E2; intros [= <-]; rewrite E2; set_solver|done].
Qed.

(** What is kept of a pipe is the beginning of what it carried. *)
Lemma drain_output_prefix chunks captured :
  Forall (fun c => c <> []) chunks -> (length captured <= CAPTURE_LIMIT)%nat ->
  drain_output chunks captured = take CAPTURE_LIMIT (captured ++ concat chunks).
Proof.
  intros H. revert captured. induction H as [|c chunks Hc H IH]; intros captured Hl.
  - cbn. by rewrite app_nil_r, firstn_all2.
  - destruct c as [|x c]; [done|]. cbn [drain_output concat]. rewrite IH.
    + rewrite !app_assoc. rewrite !(take_app _ (concat chunks)). f_equal.
      * rewrite take_app. rewrite (firstn_all2 captured) by done. rewrite take_app, (firstn_all2 captured) by done. f_equal.
        rewrite take_take. set (n := (CAPTURE_LIMIT - length captured)%nat).
        destruct (Nat.le_ge_cases (length (x :: c)) n); [rewrite !firstn_all2 by lia; done|f_equal; lia].
      * rewrite !length_app, length_take. destruct (Nat.le_gt_cases (length (x :: c)) (CAPTURE_LIMIT - length captured)).
        -- f_equal. lia.
        -- rewrite !(proj2 (Nat.sub_0_le _ _)); [done|lia..].
    + rewrite length_app, length_take. lia.
Qed.
