(* ===== verification/Handlers.v ===== *)
(** * Tool handlers (src/server.rs, src/server/handlers/)

    The handlers of the command tools, of check_process and of transfer: what
    each does around the component it calls, and the answer it makes. *)
From Stdlib Require Import ZArith String.
From stdpp Require Import base list gmap.
From S2P Require Import Prelude Trace Errors Shell Validate Job CheckProcess Output RouterOs ToolArgs TransferTypes TransferJob Response Launch.

(** ** Commands (src/server.rs) *)

(** [resolve_timeout]; milliseconds. *)
Definition resolve_timeout (server_timeout : Z) (timeout_ms : option Z) : Z := default server_timeout timeout_ms.

Section commands.
Context (to_json : PersistedJobState -> option bytes) (of_json : bytes -> option PersistedJobState).
Context (base_dir : str) (euid umask : Z) (connection_id : str).
Context (max_chars max_output_tokens : option Z) (su_password sudo_password : option str).

Notation launch_answer := (result CallToolResult McpError * option started * local_state)%type.

Definition sanitize_or_tool_error (command : str) : result str CallToolResult :=
  rmap_err (fun e => error_text (error_display e)) (Shell.sanitize_command command max_chars).

Definition execute_command_with_timeout (env : launch_env) (fg : foreground_env) (command : str) (st : local_state) :
    traced launch_action launch_answer :=
  match sanitize_or_tool_error command with
  | Err answer => tret (Ok answer, None, st)
  | Ok sanitized =>
      let requires_elevation := bool_decide (is_Some su_password) in
      let! _ := act Connecting in
      match l_connected env with
      | Err e => tret (Ok (tool_error (Text (error_display e))), None, st)
      | Ok _ =>
          let! _ := if requires_elevation then act Elevating else tret tt in
          execute_detachable_foreground_impl to_json of_json base_dir euid umask connection_id env fg max_output_tokens sanitized sanitized st
      end
  end.

Definition execute_sudo_command_with_timeout (env : launch_env) (fg : foreground_env) (command : str) (st : local_state) :
    traced launch_action launch_answer :=
  match sanitize_or_tool_error command with
  | Err answer => tret (Ok answer, None, st)
  | Ok sanitized =>
      let wrapped_command := wrap_sudo_command sanitized sudo_password in
      let! _ := act Connecting in
      match l_connected env with
      | Err e => tret (Ok (tool_error (Text (error_display e))), None, st)
      | Ok _ =>
          execute_detachable_foreground_impl to_json of_json base_dir euid umask connection_id env fg max_output_tokens wrapped_command
            (lit "sudo " ++ sanitized) st
      end
  end.

Definition execute_background_command (env : launch_env) (command : str) (log_path : option str) (st : local_state) :=
  execute_background_impl to_json base_dir euid umask connection_id env max_chars (bool_decide (is_Some su_password)) command log_path
    Normal st.

Definition execute_background_sudo_command (env : launch_env) (command : str) (log_path : option str) (st : local_state) :=
  execute_background_impl to_json base_dir euid umask connection_id env max_chars (bool_decide (is_Some su_password)) command log_path
    (Sudo sudo_password) st.
End commands.

(** ** RouterOS (handlers/routeros.rs) *)

(** [run] is [exec_routeros_command] with its timeout. *)
Definition execute_routeros_tool (max_chars : option Z) (server_timeout : Z) (run : str -> Z -> NativeResult) (arguments : members) :
    result CallToolResult McpError :=
  let? parsed := rmap_err McpInvalidParams (parse_routeros_tool_args arguments max_chars) in
  let '(ok, text) := routeros_answer (run (r_command parsed) (resolve_timeout server_timeout (r_timeout_ms parsed))) in
  Ok {| is_error := negb ok; block := Text text |}.

(** ** check_process *)

Definition operation_str (o : TransferOperation) : str := match o with Put => lit "put" | Get => lit "get" end.
Definition transport_str (t : TransferTransport) : str :=
  match t with ExecRaw => lit "exec-raw" | Sftp => lit "sftp" | Scp => lit "scp" | Rsync => lit "rsync" end.
Definition kind_str (k : TransferKind) : str := match k with File => lit "file" | Directory => lit "directory" end.

(** The derived [Serialize] of the compact response: absent error, counts and
    time are left out. *)
Definition counts_json (c : TransferCounts) : json :=
  JObject [(lit "bytes", jnum (c_bytes c)); (lit "files", jnum (c_files c)); (lit "directories", jnum (c_directories c))].

Definition compact_json (r : CompactTransferResponse) : json :=
  let present {A} (k : str) (f : A -> json) (o : option A) := match o with Some a => [(k, f a)] | None => [] end in
  JObject ([(lit "ok", JBool (co_ok r))] ++ present (lit "error") JString (co_error r) ++
    [(lit "kind", jopt (fun k => JString (kind_str k)) (co_kind r));
     (lit "transport_used", JString (transport_str (co_transport_used r)));
     (lit "local_path", JString (co_local_path r)); (lit "remote_path", JString (co_remote_path r))] ++
    present (lit "counts") counts_json (co_counts r) ++ present (lit "elapsed_ms") jnum (co_elapsed_ms r)).

(** The size of a remote staging file is asked with the file as an argument of
    a fixed script. *)
Definition progress_script : str :=
  lit "if [ -f " ++ [DQ] ++ lit "$1" ++ [DQ] ++ lit " ]; then wc -c < " ++ [DQ] ++ lit "$1" ++ [DQ] ++ lit "; else printf 0; fi".
Definition progress_command (path : str) : str :=
  lit "sh -c '" ++ progress_script ++ lit "' sh '" ++ escape_for_shell path ++ lit "'".

(** A transfer's progress: [local_len] is the length of a local file,
    [remote_exec] the output of a remote command. *)
Definition transfer_bytes_done (local_len : str -> option Z) (remote_exec : str -> option CommandOutput) (s : TransferJobSnapshot) : option Z :=
  match s_result s with
  | Some r => c_bytes <$> co_counts r
  | None =>
      match s_progress_target s with
      | Some (Local path) => local_len path
      | Some (Remote path) => output ← remote_exec (progress_command path); parse_u64 (trim (Output.stdout output))
      | None => None
      end
  end.

Definition transfer_body (s : TransferJobSnapshot) (bytes_done : option Z) : json :=
  JObject [(lit "job_id", JString (s_job_id s)); (lit "job_type", JString (lit "transfer")); (lit "state", JString (s_state s));
           (lit "running", JBool (s_running s)); (lit "phase", JString (phase_as_str (s_phase s)));
           (lit "elapsed_ms", jnum (s_elapsed_ms s)); (lit "current_transport", jopt (fun t => JString (transport_str t)) (s_transport s));
           (lit "bytes_done", jopt jnum bytes_done); (lit "bytes_total", jopt jnum (s_total_bytes s));
           (lit "result", jopt compact_json (s_result s))].

Section check.
Context {W : Type} (check : str -> Z -> W -> result ProcessStatus SshMcpError * W).

(** What happens around one call. [c_meanwhile]: other tasks during the wait. *)
Record check_call : Type := {
  c_cancelled : bool;
  c_meanwhile : W -> W;
  c_now : Z;
  c_later : Z;
  c_transfers_meanwhile : TransferJobRegistry -> TransferJobRegistry;
  c_local_len : str -> option Z;
  c_remote_exec : str -> option CommandOutput
}.

Definition process_answer (status : result ProcessStatus SshMcpError) : CallToolResult :=
  match status with
  | Ok s => tool_success (Body (process_body s))
  | Err e => tool_error (Text (lit "Error checking process: " ++ error_display e))
  end.

Definition execute_check_transfer (env : check_call) (job_id : str) (wait_for : Z) (r : TransferJobRegistry) : CallToolResult * TransferJobRegistry :=
  match registry_snapshot r job_id (c_now env) with
  | (r, None) => (tool_error (Text (lit "Error checking process: job not found: " ++ job_id)), r)
  | (r, Some first) =>
      let '(snapshot, r) :=
        if (0 <? wait_for) && s_running first then
          if c_cancelled env then (first, r)
          else
            let '(r, updated) := registry_snapshot (c_transfers_meanwhile env r) job_id (c_later env) in
            (default first updated, r)
        else (first, r) in
      (tool_success (Body (transfer_body snapshot (transfer_bytes_done (c_local_len env) (c_remote_exec env) snapshot))), r)
  end.

Definition execute_check_process (env : check_call) (job_id : str) (tail_lines wait_for : Z) (w : W) (r : TransferJobRegistry) :
    CallToolResult * W * TransferJobRegistry :=
  let '(r, is_transfer) := registry_contains r job_id (c_now env) in
  if (is_transfer : bool) then let '(answer, r) := execute_check_transfer env job_id wait_for r in (answer, w, r)
  else
    let '(initial, w) := check job_id tail_lines w in
    match initial with
    | Ok status =>
        if (wait_for =? 0) || negb (ps_running status) || c_cancelled env then (process_answer (Ok status), w, r)
        else let '(later, w) := check job_id tail_lines (c_meanwhile env w) in (process_answer later, w, r)
    | Err e => (process_answer (Err e), w, r)
    end.
End check.

(** ** transfer *)

Section transfer.
(** serde_json on a response: the text, unless serialization fails. *)
Context (response_text : TransferResponse -> bool -> option str).

Definition transfer_answer (resp : TransferResponse) (verbose : bool) : CallToolResult :=
  match response_text resp verbose with
  | Some body => if TransferTypes.ok resp then tool_success (Text body) else tool_error (Text body)
  | None => tool_error (Text (lit "{" ++ [DQ] ++ lit "ok" ++ [DQ] ++ lit ":false," ++ [DQ] ++ lit "error" ++ [DQ] ++ lit ":" ++
                              [DQ] ++ lit "serialization_error" ++ [DQ] ++ lit "}"))
  end.

(** The foreground: [run] is [run_controlled] with the resolved timeout. *)
Definition execute_transfer {S : Type} (run : TransferParams -> Z -> S -> TransferResponse * S) (server_timeout : Z)
    (p : TransferParams) (s : S) : CallToolResult * S :=
  let '(resp, s) := run p (resolve_timeout server_timeout (TransferTypes.timeout_ms p)) s in
  (transfer_answer resp (verbose p), s).
End transfer.

(** The background: the job is registered, the task spawned (its body is
    [TransferJob.transfer_task]) and added to the tasks that are not finished. *)
Record spawned_transfer : Type := { sp_job : nat; sp_params : TransferParams; sp_fallback : TransferResponse }.

Definition queued_body (job_id : str) : json :=
  JObject [(lit "ok", JBool true); (lit "background", JBool true); (lit "job_id", JString job_id);
           (lit "job_type", JString (lit "transfer")); (lit "state", JString (lit "running")); (lit "phase", JString (lit "queued"))].

Definition execute_background_transfer (root id : str) (now : Z) (finished : spawned_transfer -> bool) (p : TransferParams)
    (r : TransferJobRegistry) (tasks : list spawned_transfer) : CallToolResult * TransferJobRegistry * list spawned_transfer :=
  let job_id := lit "transfer-" ++ id in
  let '(r, job) := TransferJob.register r job_id now in
  let task := {| sp_job := job; sp_params := p;
                 sp_fallback := response_error p root (lit "background transfer stopped unexpectedly") |} in
  (tool_success (Body (queued_body job_id)), r, List.filter (fun t => negb (finished t)) tasks ++ [task]).

(** ** Properties *)

(** What a command tool may come to: the payload is the wrapper of the
    sanitized command, as [wrap] makes it, once or not at all. *)
Definition queues_sanitized (env : launch_env) (max_chars : option Z) (command : str) (wrap : str -> str) (t : list launch_action) : Prop :=
  held t = 0 /\
  (queued t = [] \/ exists sanitized, Shell.sanitize_command command max_chars = Ok sanitized /\
     queued t = [wrapper_payload (l_job_id env) (wrap sanitized)]).

Section command_properties.
Context (to_json : PersistedJobState -> option bytes) (of_json : bytes -> option PersistedJobState).
Context (base_dir : str) (euid umask : Z) (connection_id : str).
Context (max_chars max_output_tokens : option Z) (su_password sudo_password : option str).

Lemma foreground_queues env fg command sanitized for_registry (wrap : str -> str) st pre :
  Shell.sanitize_command command max_chars = Ok sanitized -> held pre = 0 -> queued pre = [] ->
  adds (execute_detachable_foreground_impl to_json of_json base_dir euid umask connection_id env fg max_output_tokens (wrap sanitized) for_registry st)
    (fun _ u => queues_sanitized env max_chars command wrap (pre ++ u)).
Proof.
  intros Hs Hh Hq. eapply adds_mono; [apply foreground_adds|]. intros [[r task] st'] u (H1 & H2 & _). unfold queues_sanitized.
  rewrite held_app, queued_app, Hh, Hq. split; [exact H1|]. destruct H2 as [->| ->]; [by left|right]. by exists sanitized.
Qed.

(** C22. The four command tools send the user's command and nothing else, at
    most once. Each queues nothing, or exactly one wrapper, of the sanitized
    command for [shell], and of the sudo wrapping of the sanitized command for
    [sudo_shell], in the foreground and in the background; a command that is
    refused by the sanitizer never reaches the connection; and no slot is kept. *)
Theorem command_tools_run_sanitized (env : launch_env) (fg : foreground_env) (command : str) (log_path : option str) (st : local_state) :
  let shell := execute_command_with_timeout to_json of_json base_dir euid umask connection_id max_chars max_output_tokens su_password env fg command st [] in
  let sudo := execute_sudo_command_with_timeout to_json of_json base_dir euid umask connection_id max_chars max_output_tokens sudo_password env fg command st [] in
  let shell_bg := execute_background_command to_json base_dir euid umask connection_id max_chars su_password env command log_path st [] in
  let sudo_bg :=
    execute_background_sudo_command to_json base_dir euid umask connection_id max_chars su_password sudo_password env command log_path st [] in
  queues_sanitized env max_chars command (fun c => c) (snd shell) /\
  queues_sanitized env max_chars command (fun c => wrap_sudo_command c sudo_password) (snd sudo) /\
  queues_sanitized env max_chars command (fun c => c) (snd shell_bg) /\
  queues_sanitized env max_chars command (fun c => wrap_sudo_command c sudo_password) (snd sudo_bg) /\
  (is_ok (Shell.sanitize_command command max_chars) = false -> snd shell = [] /\ snd sudo = [] /\ snd shell_bg = [] /\ snd sudo_bg = []).
Proof.
  cbn zeta.
  assert (Hadds : forall (m : traced launch_action (result CallToolResult McpError * option started * local_state)) wrap,
    adds m (fun _ u => queues_sanitized env max_chars command wrap u) -> queues_sanitized env max_chars command wrap (snd (m []))).
  { intros m wrap H. destruct (H []) as (a & u & E & HQ). by rewrite E. }
  assert (Hnone : forall A (a : A) wrap, adds (tret a) (fun _ u => queues_sanitized env max_chars command wrap u)).
  { intros A a wrap. apply adds_ret. split; [done|by left]. }
  split_and!.
  - apply Hadds. unfold execute_command_with_timeout, sanitize_or_tool_error.
    destruct (Shell.sanitize_command command max_chars) as [sanitized|] eqn:E; [|apply Hnone]. cbn. apply adds_act.
    destruct (l_connected env); [|apply adds_ret; split; [done|by left]].
    apply adds_if; [by apply (foreground_queues env fg command sanitized sanitized (fun c => c) st [Connecting])|].
    by apply (foreground_queues env fg command sanitized sanitized (fun c => c) st [Connecting; Elevating]).
  - apply Hadds. unfold execute_sudo_command_with_timeout, sanitize_or_tool_error.
    destruct (Shell.sanitize_command command max_chars) as [sanitized|] eqn:E; [|apply Hnone]. cbn. apply adds_act.
    destruct (l_connected env); [|apply adds_ret; split; [done|by left]].
    by apply (foreground_queues env fg command sanitized _ (fun c => wrap_sudo_command c sudo_password) st [Connecting]).
  - unfold execute_background_command. edestruct background_adds as ([[r task] st'] & u & E & H1 & H2 & _). rewrite E. by split.
  - unfold execute_background_sudo_command. edestruct background_adds as ([[r task] st'] & u & E & H1 & H2 & _). rewrite E. by split.
  - unfold execute_command_with_timeout, execute_sudo_command_with_timeout, execute_background_command, execute_background_sudo_command,
      execute_background_impl, sanitize_or_tool_error.
    destruct (Shell.sanitize_command command max_chars) as [|e]; [done|]. intros _. cbn. split_and!; [done..| |];
      (destruct (match log_path with Some p => Ok p | None => _ end); [|done]);
      (destruct (match log_path with Some p => validate_background_log_path base_dir p | None => _ end); [|done]);
      by destruct (ensure_local_log_file _ _ _ _ _ _) as [[] ?].
Qed.
End command_properties.

(** The question for a staging file's size has the path as one argument of a
    fixed script. *)
Lemma progress_command_argv word (Q : ShellQuoting word) path :
  argv word (progress_command path) [lit "sh"; lit "-c"; progress_script; lit "sh"; path] [].
Proof.
  unfold progress_command. apply (argv_space (lit "sh")); [done..|]. apply (argv_space (lit "-c")); [done..|].
  apply (argv_squoted progress_script); [by apply contains_char_false|done|]. apply argv_blank, (argv_space (lit "sh")); [done..|].
  apply argv_last_quoted.
Qed.

Lemma transfer_task_store job fb events e now st j :
  st !! job = Some j -> completed_at j = None ->
  transfer_task job fb events e now st !! job =
    Some (TransferJob.finish (foldl apply_event j events) (match e with Responds r => r | Dies => fb end) now).
Proof.
  intros Hj Hc. destruct (apply_events_running events j Hc) as [Hc' _].
  unfold transfer_task, guard_drop. destruct e as [r|]; cbn; rewrite !lookup_alter_eq, Hj; cbn; [done|].
  unfold TransferJob.is_terminal. rewrite Hc'. by rewrite bool_decide_eq_false_2 by (by intros []).
Qed.

(** C25. A background transfer can be followed to its end by the job id of the
    answer. Whatever its task does, also when it dies, check_process then
    reports the job as no longer running, with the task's response (or the
    prepared failure) as the result and the response's byte count as the bytes
    done, for as long as the job is retained. *)
Theorem background_transfer_reported {W : Type} (check : str -> Z -> W -> result ProcessStatus SshMcpError * W)
    (root id : str) (now done_at : Z) (finished : spawned_transfer -> bool) (p : TransferParams) (r : TransferJobRegistry)
    (tasks : list spawned_transfer) (events : list TransferEvent) (e : task_end) (env : check_call (W := W)) (tail_lines wait_for : Z) (w : W)
    (Hretained : c_now env - done_at <= retention r) :
  let '(answer, r1, tasks') := execute_background_transfer root id now finished p r tasks in
  exists task, last tasks' = Some task /\ sp_params task = p /\
  is_error answer = false /\ field (lit "job_id") answer = Some (JString (lit "transfer-" ++ id)) /\
  let response := match e with Responds resp => resp | Dies => sp_fallback task end in
  let r2 := {| TransferJob.jobs := TransferJob.jobs r1; store := transfer_task (sp_job task) (sp_fallback task) events e done_at (store r1);
               retention := retention r1 |} in
  exists snapshot r3,
    execute_check_process check env (lit "transfer-" ++ id) tail_lines wait_for w r2 =
      (tool_success (Body (transfer_body snapshot (c_bytes <$> TransferTypes.counts response))), w, r3) /\
    s_job_id snapshot = lit "transfer-" ++ id /\ s_running snapshot = false /\ s_result snapshot = Some (to_compact response) /\
    s_state snapshot = (if TransferTypes.ok response then lit "completed" else lit "failed").
Proof.
  unfold execute_background_transfer, TransferJob.register. set (jid := lit "transfer-" ++ id). set (ref := fresh _).
  eexists. split; [apply last_snoc|]. split_and!; [done..|]. cbn [sp_job sp_fallback].
  set (fb := response_error _ _ _). set (response := match e with Responds resp => resp | Dies => fb end).
  set (j := TransferJob.finish (foldl apply_event (new jid now) events) response done_at).
  pose proof (transfer_task_store ref fb events e done_at (<[ref := new jid now]> (store (prune_expired r now))) (new jid now)
    (lookup_insert_eq _ _ _) eq_refl) as Hstore. fold response in Hstore. fold j in Hstore.
  cbn [TransferJob.jobs store retention]. set (st2 := transfer_task _ _ _ _ _ _) in *.
  set (r2 := {| TransferJob.jobs := _; store := st2; retention := _ |}).
  assert (Hkept : TransferJob.jobs (prune_expired r2 (c_now env)) !! jid = Some ref).
  { apply prune_lookup. split; [apply lookup_insert_eq|]. apply keep_spec. intros j' t Hj Ht. cbn in Hj. rewrite Hstore in Hj.
    injection Hj as <-. cbn in Ht. injection Ht as <-. exact Hretained. }
  assert (Hagain : TransferJob.jobs (prune_expired (prune_expired r2 (c_now env)) (c_now env)) !! jid = Some ref).
  { apply prune_lookup. split; [exact Hkept|]. by apply prune_lookup in Hkept as [_ ?]. }
  eexists (TransferJob.snapshot j (c_now env)), _. split; [|split_and!; [|done..|]].
  - unfold execute_check_process, registry_contains. cbv zeta. rewrite Hkept. rewrite bool_decide_eq_true_2 by done.
    unfold execute_check_transfer, registry_snapshot. cbv zeta. rewrite Hagain. cbn [mbind option_bind].
    change (store (prune_expired (prune_expired r2 (c_now env)) (c_now env))) with st2. rewrite Hstore. cbn [mbind option_bind].
    replace (s_running (TransferJob.snapshot j (c_now env))) with false by done. rewrite andb_false_r. reflexivity.
  - cbn. by destruct (apply_events_running events (new jid now) eq_refl) as [_ ->].
  - cbn. by destruct (TransferTypes.ok response).
Qed.

Lemma background_transfer_reported_witness :
  let r := {| TransferJob.jobs := ∅; store := ∅; retention := 100 |} in
  let env := {| c_cancelled := false; c_meanwhile := fun w : unit => w; c_now := 20; c_later := 20; c_transfers_meanwhile := fun r => r;
                c_local_len := fun _ => None; c_remote_exec := fun _ => None |} in
  let '(answer, r1, tasks') := execute_background_transfer (lit "/root") (lit "1-0") 5 (fun _ => false) transfer_params_default r [] in
  field (lit "job_id") answer = Some (JString (lit "transfer-1-0")) /\ exists task, last tasks' = Some task /\ sp_job task = 0%nat.
Proof.
  intros r env.
  pose proof (background_transfer_reported (fun _ _ w => (Err (Connection []), w)) (lit "/root") (lit "1-0") 5 9 (fun _ => false)
    transfer_params_default r [] [] Dies env 0 0 tt ltac:(vm_compute; congruence)) as H.
  destruct (execute_background_transfer _ _ _ _ _ _ _) as [[answer r1] tasks'] eqn:E. destruct H as (task & H1 & _ & _ & H2 & _).
  split; [exact H2|]. exists task. split; [exact H1|]. vm_compute in E. injection E as <- <- <-. vm_compute in H1. injection H1 as <-. reflexivity.
Defined.
