(* ===== verification/Service.v ===== *)
(** * The whole server (src/server.rs, src/server/)

    The handlers put together: one state for the jobs, the transfers, the
    transfer engine and the remote files; the implementation of the interface
    [ToolHandlers] of Server by the handlers of Handlers, Launch, RouterOs,
    Engine and ApplyPatch, with the job ids that the calls draw; and what calls, in any order, make of the state.
    What happens around a call is part of the state and changes freely between
    calls. *)
From Stdlib Require Import ZArith String.
From stdpp Require Import base list gmap relations.
From S2P Require Import Prelude Trace Errors Shell Identification Job Registry Stream Spooler Output RouterOs CheckProcess ToolArgs TransferTypes TransferJob Patch FileEdit ApplyPatch Clients Engine Response Launch Jobs Handlers Server.

(** ** The answer of the patch tools (handlers/apply_patch.rs) *)

Definition edit_status_str (s : edit_status) : str :=
  match s with
  | NotAttempted => lit "not_attempted"
  | Unchanged => lit "unchanged"
  | Applied => lit "applied"
  | EditFailed => lit "failed"
  | Unknown => lit "unknown"
  end.

Definition files_json (files : list file_report) : json :=
  JArray ((fun f => JObject [(lit "path", JString (r_path f)); (lit "operation", JString (r_operation f));
                             (lit "status", JString (edit_status_str (r_status f)))]) <$> files).

Definition patch_error_body (kind message : str) : members :=
  [(lit "ok", JBool false); (lit "error", JString kind); (lit "message", JString message)].

Definition patch_failure_body (kind message path phase : str) (files : list file_report) : members :=
  [(lit "ok", JBool false); (lit "error", JString kind); (lit "message", JString message); (lit "path", JString path);
   (lit "phase", JString phase); (lit "files", files_json files)].

(** A success names the only file, or all of them. *)
Definition patch_body (a : patch_answer) : json :=
  JObject match a with
  | APError kind message => patch_error_body kind message
  | APFailure kind message path phase files => patch_failure_body kind message path phase files
  | APSingle path operation => [(lit "ok", JBool true); (lit "path", JString path); (lit "operation", JString operation)]
  | APFiles files => [(lit "ok", JBool true); (lit "files", files_json files)]
  end.

Definition apply_patch_result (a : patch_answer) : CallToolResult :=
  {| is_error := answer_is_error a; block := Body (patch_body a) |}.

(** ** Job ids (server.rs) *)

(** [JOB_COUNTER.fetch_add], once and several times. *)
Definition next_counter (c : Z) : Z := (c + 1) mod (U64_MAX + 1).
Definition advance (n : nat) (c : Z) : Z := Nat.iter n next_counter c.

(** ** The state *)

Section state.
Context (E F : Type).

(** What happens around the next call: the clock of the next job id, which is not
    before the epoch; for the command tools (where the job id is not used: a call
    draws it), for the two looks of check_process, for the native shell, for a
    transfer, and how many ids an edit draws for its temporary names. *)
Record call_env : Type := {
  ce_epoch_ms : Z;
  ce_launch : launch_env;
  ce_fg : foreground_env;
  ce_check : check_call (W := local_state * check_env);
  ce_check_env : check_env;
  ce_native : str -> Z -> NativeResult;
  ce_answers : Engine.answers;
  ce_meanwhile : gset str -> gset str;
  ce_elapsed : Z;
  ce_stopped : option (StopReason * StopPoint E);
  ce_edit_ids : nat;
  ce_transfer_now : Z;
  ce_finished : spawned_transfer -> bool
}.

(** [w_streams]: the jobs whose stream runs on as a task; [w_trace]: what was
    done on the connection for command tools; [w_counter]: JOB_COUNTER. *)
Record world : Type := {
  w_jobs : local_state;
  w_streams : list (str * started);
  w_trace : list launch_action;
  w_transfers : TransferJobRegistry;
  w_tasks : list spawned_transfer;
  w_engine : engine_state E;
  w_files : F;
  w_counter : Z;
  w_now : call_env
}.
End state.
Arguments ce_epoch_ms {E}. Arguments ce_launch {E}. Arguments ce_fg {E}. Arguments ce_check {E}. Arguments ce_check_env {E}. Arguments ce_native {E}.
Arguments ce_answers {E}. Arguments ce_meanwhile {E}. Arguments ce_elapsed {E}. Arguments ce_stopped {E}.
Arguments ce_edit_ids {E}. Arguments ce_transfer_now {E}. Arguments ce_finished {E}.
Arguments w_jobs {E F}. Arguments w_streams {E F}. Arguments w_trace {E F}. Arguments w_transfers {E F}. Arguments w_tasks {E F}.
Arguments w_engine {E F}. Arguments w_files {E F}. Arguments w_counter {E F}. Arguments w_now {E F}.

Section updates.
Context {E F : Type}.
Implicit Types w : world E F.

Definition with_launched (st : local_state) (task : option (str * started)) (trace : list launch_action) (counter : Z) w : world E F := {|
  w_jobs := st; w_streams := w_streams w ++ option_list task; w_trace := trace; w_transfers := w_transfers w; w_tasks := w_tasks w;
  w_engine := w_engine w; w_files := w_files w; w_counter := counter; w_now := w_now w |}.

Definition with_checked (st : local_state) (r : TransferJobRegistry) w : world E F := {|
  w_jobs := st; w_streams := w_streams w; w_trace := w_trace w; w_transfers := r; w_tasks := w_tasks w; w_engine := w_engine w;
  w_files := w_files w; w_counter := w_counter w; w_now := w_now w |}.

Definition with_spawned (r : TransferJobRegistry) (tasks : list spawned_transfer) (counter : Z) w : world E F := {|
  w_jobs := w_jobs w; w_streams := w_streams w; w_trace := w_trace w; w_transfers := r; w_tasks := tasks; w_engine := w_engine w;
  w_files := w_files w; w_counter := counter; w_now := w_now w |}.

Definition with_engine (s : engine_state E) w : world E F := {|
  w_jobs := w_jobs w; w_streams := w_streams w; w_trace := w_trace w; w_transfers := w_transfers w; w_tasks := w_tasks w; w_engine := s;
  w_files := w_files w; w_counter := w_counter w; w_now := w_now w |}.

Definition with_files (f : F) w : world E F := {|
  w_jobs := w_jobs w; w_streams := w_streams w; w_trace := w_trace w; w_transfers := w_transfers w; w_tasks := w_tasks w;
  w_engine := w_engine w; w_files := f; w_counter := w_counter w; w_now := w_now w |}.

Definition with_streams (streams : list (str * started)) w : world E F := {|
  w_jobs := w_jobs w; w_streams := streams; w_trace := w_trace w; w_transfers := w_transfers w; w_tasks := w_tasks w;
  w_engine := w_engine w; w_files := w_files w; w_counter := w_counter w; w_now := w_now w |}.

Definition with_jobs (st : local_state) w : world E F := {|
  w_jobs := st; w_streams := w_streams w; w_trace := w_trace w; w_transfers := w_transfers w; w_tasks := w_tasks w;
  w_engine := w_engine w; w_files := w_files w; w_counter := w_counter w; w_now := w_now w |}.

Definition with_now (now : call_env E) w : world E F := {|
  w_jobs := w_jobs w; w_streams := w_streams w; w_trace := w_trace w; w_transfers := w_transfers w; w_tasks := w_tasks w;
  w_engine := w_engine w; w_files := w_files w; w_counter := w_counter w; w_now := now |}.

Definition with_counter (counter : Z) w : world E F := {|
  w_jobs := w_jobs w; w_streams := w_streams w; w_trace := w_trace w; w_transfers := w_transfers w; w_tasks := w_tasks w;
  w_engine := w_engine w; w_files := w_files w; w_counter := counter; w_now := w_now w |}.

(** The id that [make_job_id] answers now. *)
Definition drawn_id w : str := make_job_id (ce_epoch_ms (w_now w)) (w_counter w).
End updates.

(** What happens around the launch of the job [id]. *)
Definition with_job_id (id : str) (env : launch_env) : launch_env := {|
  l_job_id := id; l_now := l_now env; l_meta_error := l_meta_error env; l_before_open := l_before_open env;
  l_open_error := l_open_error env; l_sync := l_sync env; l_connected := l_connected env; l_elevated := l_elevated env;
  l_slot := l_slot env; l_first := l_first env; l_reconnected := l_reconnected env; l_second := l_second env;
  l_events := l_events env; l_arrived := l_arrived env |}.

(** ** The handlers *)

(** What a server is made with: the configuration's settings, and the parts of
    it that belong to libraries. *)
Record settings : Type := {
  g_to_json : PersistedJobState -> option bytes;
  g_of_json : bytes -> option PersistedJobState;
  g_base_dir : str;
  g_euid : Z;
  g_umask : Z;
  g_connection_id : str;
  g_max_chars : option Z;
  g_max_output_tokens : option Z;
  g_su_password : option str;
  g_sudo_password : option str;
  g_timeout : Z;
  g_disable_sudo : bool;
  g_root : str;
  g_ssh : TransferSshOptions;
  g_response_text : TransferResponse -> bool -> option str;
  g_transfer_params : members -> result TransferParams str;
  g_check_params : members -> result CheckProcessToolArgs str;
  g_patch_params : members -> result str str
}.

Section service.
Context {E F : Type} `{TransportOps E} `{RemoteFiles F} (g : settings).
Implicit Types w : world E F.

Notation answer := (result CallToolResult McpError * world E F)%type.

(** A command tool acts on the jobs and on the connection; whether its timeout
    passes is part of what happens around the call. The job whose stream
    goes on is kept. [draws]: whether the call comes as far as the id. *)
Definition run_command (draws : launch_env -> bool) (m : launch_env -> foreground_env -> local_state ->
    traced launch_action (result CallToolResult McpError * option started * local_state)) w : answer :=
  let env := with_job_id (drawn_id w) (ce_launch (w_now w)) in
  let '(r, task, st, trace) := m env (ce_fg (w_now w)) (w_jobs w) (w_trace w) in
  let counter := if draws env then next_counter (w_counter w) else w_counter w in
  (r, with_launched st ((fun s => (l_job_id env, s)) <$> task) trace counter w).

(** In the foreground the id is drawn once the command is accepted and the
    connection is up; in the background it is drawn first. *)
Definition foreground_draws (command : str) (env : launch_env) : bool :=
  is_ok (sanitize_or_tool_error (g_max_chars g) command) && is_ok (l_connected env).

Definition run_background (m : launch_env -> local_state -> traced launch_action (CallToolResult * option started * local_state)) w : answer :=
  run_command (fun _ => true) (fun env _ st => let! '(r, task, st) := m env st in tret (Ok r, task, st)) w.

(** One look of check_process. The answer always exists. *)
Definition check_once (id : str) (tail_lines : Z) (x : local_state * check_env) : result ProcessStatus SshMcpError * (local_state * check_env) :=
  let '(st, env) := x in
  let '(r, st) := check_job (g_to_json g) (g_of_json g) (g_base_dir g) (g_euid g) (g_umask g) id tail_lines env st in
  (default (Err (Io [])) r, (st, env)).

Definition run_check (p : CheckProcessToolArgs) w : answer :=
  let '(r, (st, _), transfers) :=
    Handlers.execute_check_process check_once (ce_check (w_now w)) (cp_job_id p) (cp_tail_lines p) (cp_wait_for p)
      (w_jobs w, ce_check_env (w_now w)) (w_transfers w) in
  (Ok r, with_checked st transfers w).

Definition run_transfer (p : TransferParams) (verbose : bool) w : answer :=
  let now := w_now w in
  let '(r, s) :=
    Handlers.execute_transfer (g_response_text g) (fun p timeout s =>
      run_controlled (g_root g) (ce_answers now) (g_ssh g) (ce_meanwhile now) timeout (ce_elapsed now) (ce_stopped now) p s)
      (g_timeout g) p (w_engine w) in
  (Ok r, with_engine s w).

Definition run_background_transfer (p : TransferParams) w : answer :=
  let now := w_now w in
  let '(r, transfers, tasks) :=
    Handlers.execute_background_transfer (g_root g) (drawn_id w) (ce_transfer_now now) (ce_finished now) p (w_transfers w) (w_tasks w) in
  (Ok r, with_spawned transfers tasks (next_counter (w_counter w)) w).

Definition run_patch (patch : str) (privilege : FileEditPrivilege) w : answer :=
  let '(a, f) := ApplyPatch.execute_apply_patch patch None privilege (w_files w) in (Ok (apply_patch_result a), with_counter (advance (ce_edit_ids (w_now w)) (w_counter w)) (with_files f w)).

#[export] Instance server_handlers : ToolHandlers (world E F) := {|
  Server.execute_routeros_tool := fun args w =>
    (Handlers.execute_routeros_tool (g_max_chars g) (g_timeout g) (ce_native (w_now w)) args, w);
  Server.execute_command_with_timeout := fun command _ =>
    run_command (foreground_draws command) (fun env fg => Handlers.execute_command_with_timeout (g_to_json g) (g_of_json g) (g_base_dir g) (g_euid g) (g_umask g)
      (g_connection_id g) (g_max_chars g) (g_max_output_tokens g) (g_su_password g) env fg command);
  Server.execute_background_command := fun command log_path =>
    run_background (fun env => Handlers.execute_background_command (g_to_json g) (g_base_dir g) (g_euid g) (g_umask g) (g_connection_id g)
      (g_max_chars g) (g_su_password g) env command log_path);
  Server.execute_sudo_command_with_timeout := fun command _ =>
    run_command (foreground_draws command) (fun env fg => Handlers.execute_sudo_command_with_timeout (g_to_json g) (g_of_json g) (g_base_dir g) (g_euid g) (g_umask g)
      (g_connection_id g) (g_max_chars g) (g_max_output_tokens g) (g_sudo_password g) env fg command);
  Server.execute_background_sudo_command := fun command log_path =>
    run_background (fun env => Handlers.execute_background_sudo_command (g_to_json g) (g_base_dir g) (g_euid g) (g_umask g) (g_connection_id g)
      (g_max_chars g) (g_su_password g) (g_sudo_password g) env command log_path);
  Server.execute_transfer := run_transfer;
  Server.execute_background_transfer := run_background_transfer;
  Server.execute_check_process := run_check;
  Server.execute_apply_patch := run_patch;
  transfer_params := g_transfer_params g;
  check_process_params := g_check_params g;
  apply_patch_params := g_patch_params g |}.

(** A call on the server. *)
Definition call (resolved : result RemotePlatform McpError) (name : str) (args : members) w : answer :=
  call_tool (g_disable_sudo g) (g_timeout g) resolved name args w.
End service.

(** ** What a call may do *)

(** The cases of the dispatch: a refusal, or one handler. *)
Lemma call_tool_cases {W} `{ToolHandlers W} disable_sudo timeout resolved name args (w : W)
    (P : result CallToolResult McpError * W -> Prop) :
  (forall e, P (Err e, w)) ->
  (forall m, P (Server.execute_routeros_tool m w)) ->
  (forall c t, P (Server.execute_command_with_timeout c t w)) ->
  (forall c l, P (Server.execute_background_command c l w)) ->
  (forall c t, P (Server.execute_sudo_command_with_timeout c t w)) ->
  (forall c l, P (Server.execute_background_sudo_command c l w)) ->
  (forall p v, P (Server.execute_transfer p v w)) ->
  (forall p, P (Server.execute_background_transfer p w)) ->
  (forall p, P (Server.execute_check_process p w)) ->
  (forall t p, P (Server.execute_apply_patch t p w)) ->
  P (call_tool disable_sudo timeout resolved name args w).
Proof.
  intros He Hr Hc Hb Hsc Hsb Ht Hbt Hp Ha.
  assert (Hposix : P (call_posix_tool disable_sudo timeout name args w)).
  { unfold call_posix_tool, call_command, call_patch, with_params. repeat case_match; auto. }
  unfold call_tool. destruct resolved as [[]|e]; [exact Hposix| |apply He]. repeat case_match; auto.
Qed.

Lemma adds_and {A} (m : traced launch_action A) P Q : adds m P -> adds m Q -> adds m (fun a u => P a u /\ Q a u).
Proof.
  intros HP HQ t. destruct (HP t) as (a & u & E1 & H1). destruct (HQ t) as (b & v & E2 & H2).
  rewrite E1 in E2. injection E2 as <- E2. apply app_inv_head in E2 as <-. by exists a, u.
Qed.

Section effects.
Context {E F : Type} `{TransportOps E} `{RemoteFiles F} (g : settings).
Implicit Types w : world E F.

Notation sections := (rtc (section (g_to_json g) (g_base_dir g) (g_euid g) (g_umask g) (g_connection_id g))).

(** Transfers have ids of their own. *)
Definition transfer_ids (r : TransferJobRegistry) : Prop :=
  forall id, is_Some (TransferJob.jobs r !! id) -> starts_with (lit "transfer-") id = true.

(** What happens around a call is what other tasks may do; the clock is not
    before the epoch; and the id that a new job gets is not registered (the
    counter makes the ids of one process distinct until it wraps). *)
Record quiet (w : world E F) : Prop := {
  qu_foreground : quiet_foreground (g_to_json g) (g_base_dir g) (g_euid g) (g_umask g) (g_connection_id g) (ce_fg (w_now w));
  qu_check : quiet_check (ce_check_env (w_now w));
  qu_meanwhile : forall st env, quiet_check env ->
    sections st (c_meanwhile (ce_check (w_now w)) (st, env)).1 /\ quiet_check (c_meanwhile (ce_check (w_now w)) (st, env)).2;
  qu_transfers : forall r, transfer_ids r -> transfer_ids (c_transfers_meanwhile (ce_check (w_now w)) r);
  qu_epoch : 0 <= ce_epoch_ms (w_now w);
  qu_launch : quiet_launch (ce_launch (w_now w));
  qu_unknown : unknown_job (drawn_id w) (w_jobs w)
}.

Lemma job_id_not_transfer epoch counter : 0 <= epoch -> command_id (make_job_id epoch counter).
Proof.
  intros He. unfold command_id. destruct (starts_with _ _) eqn:Hp; [|done]. apply starts_with_spec in Hp as [r Hp].
  pose proof (show_uint_digits epoch He) as Hd. unfold make_job_id in Hp.
  destruct (show_uint epoch) as [|c l]; [done|]. injection Hp as -> _. inversion Hd as [|? ? Hc]; done.
Qed.

Definition in_u64 (c : Z) : Prop := 0 <= c <= U64_MAX.

(** Between two calls: runs of the sections, at most one wrapper queued and no
    slot kept, no stream forgotten. *)
Record effect (w w' : world E F) : Prop := {
  ef_jobs : sections (w_jobs w) (w_jobs w');
  ef_trace : exists u, w_trace w' = w_trace w ++ u /\ held u = 0 /\ (length (queued u) <= 1)%nat;
  ef_transfers : transfer_ids (w_transfers w) -> transfer_ids (w_transfers w');
  ef_streams : exists more, w_streams w' = w_streams w ++ more;
  ef_counter : in_u64 (w_counter w) -> in_u64 (w_counter w')
}.

Lemma next_u64 c : in_u64 (next_counter c).
Proof. unfold in_u64, next_counter. pose proof (Z.mod_pos_bound (c + 1) (U64_MAX + 1) eq_refl). lia. Qed.

Lemma advance_u64 n c : in_u64 c -> in_u64 (advance n c).
Proof. intros Hc. destruct n as [|n]; [done|apply next_u64]. Qed.

Lemma effect_refl w : effect w w.
Proof. split; [done| |done|exists []; by rewrite app_nil_r|done]. exists []. rewrite app_nil_r. cbn. split_and!; [done..|lia]. Qed.

(** What a command tool's part does. *)
Definition command_adds (st : local_state) (m : traced launch_action (result CallToolResult McpError * option started * local_state)) : Prop :=
  adds m (fun a u => sections st a.2 /\ held u = 0 /\ (length (queued u) <= 1)%nat).

Lemma run_command_effect draws m w :
  command_adds (w_jobs w) (m (with_job_id (drawn_id w) (ce_launch (w_now w))) (ce_fg (w_now w)) (w_jobs w)) ->
  effect w (run_command draws m w).2.
Proof.
  intros Hm. unfold run_command. destruct (Hm (w_trace w)) as ([[r task] st] & u & -> & Hs & Hh & Hq). cbn in Hs.
  split; cbn; [exact Hs|by exists u|done|by eexists|]. intros Hc. destruct (draws _); [apply next_u64|done].
Qed.

Lemma queued_le u x : queued u = [] \/ queued u = [x] -> (length (queued u) <= 1)%nat.
Proof. intros [->| ->]; cbn; lia. Qed.

Lemma foreground_effect env fg max_tokens for_exec for_registry st pre :
  jobs_ok (g_base_dir g) st -> quiet_launch env ->
  quiet_foreground (g_to_json g) (g_base_dir g) (g_euid g) (g_umask g) (g_connection_id g) fg ->
  unknown_job (l_job_id env) st -> command_id (l_job_id env) ->
  held pre = 0 -> queued pre = [] ->
  adds (execute_detachable_foreground_impl (g_to_json g) (g_of_json g) (g_base_dir g) (g_euid g) (g_umask g) (g_connection_id g)
    env fg max_tokens for_exec for_registry st)
    (fun a u => sections st a.2 /\ held (pre ++ u) = 0 /\ (length (queued (pre ++ u)) <= 1)%nat).
Proof.
  intros Hok Hql Hfg Hn Hcmd Hh Hq. eapply adds_mono; [apply adds_and; [by apply foreground_sections|apply foreground_adds]|].
  intros [[r task] st'] u [Hs (Hh' & Hq' & _)]. rewrite held_app, queued_app, Hh, Hq. cbn [app]. split_and!; [done|done|by eapply queued_le].
Qed.

Lemma background_effect env max_chars su_set command log_path privilege st :
  quiet_launch env -> unknown_job (l_job_id env) st -> command_id (l_job_id env) ->
  adds (execute_background_impl (g_to_json g) (g_base_dir g) (g_euid g) (g_umask g) (g_connection_id g) env max_chars su_set command
    log_path privilege st) (fun a u => sections st a.2 /\ held u = 0 /\ (length (queued u) <= 1)%nat).
Proof.
  intros Hql Hn Hcmd. eapply adds_mono; [apply adds_and; [by apply background_sections|apply background_adds]|].
  intros [[r task] st'] u [Hs (Hh & Hq & _)]. split_and!; [done|done|].
  destruct Hq as [->|(s & _ & ->)]; cbn; lia.
Qed.

Lemma command_refused st (r : result CallToolResult McpError) : command_adds st (tret (r, None, st)).
Proof. apply adds_ret. cbn. split_and!; [done..|lia]. Qed.

Lemma background_command_adds st (m : traced launch_action (CallToolResult * option started * local_state)) :
  adds m (fun a u => sections st a.2 /\ held u = 0 /\ (length (queued u) <= 1)%nat) ->
  command_adds st (let! '(r, task, st) := m in tret (Ok r, task, st)).
Proof.
  intros Hm. eapply adds_bind; [exact Hm|]. intros [[r task] st'] u Hu. apply adds_ret. by rewrite app_nil_r.
Qed.

(** The two foreground handlers. *)
Lemma foreground_handler_adds env fg max_tokens for_exec for_registry st pre err :
  jobs_ok (g_base_dir g) st -> quiet_launch env ->
  quiet_foreground (g_to_json g) (g_base_dir g) (g_euid g) (g_umask g) (g_connection_id g) fg ->
  unknown_job (l_job_id env) st -> command_id (l_job_id env) ->
  held pre = 0 -> queued pre = [] ->
  adds (match l_connected env with
        | Err e => tret (err e, None, st)
        | Ok _ => execute_detachable_foreground_impl (g_to_json g) (g_of_json g) (g_base_dir g) (g_euid g) (g_umask g) (g_connection_id g)
            env fg max_tokens for_exec for_registry st
        end) (fun a u => sections st a.2 /\ held (pre ++ u) = 0 /\ (length (queued (pre ++ u)) <= 1)%nat).
Proof.
  intros Hok Hql Hfg Hn Hcmd Hh Hq. destruct (l_connected env); [by apply foreground_effect|]. apply adds_ret. rewrite app_nil_r, Hh, Hq. cbn.
  split_and!; [done..|lia].
Qed.

Lemma if_elevating_adds {A} (b : bool) (k : traced launch_action A) (Q : A -> Prop) pre :
  (forall pre, held pre = 0 -> queued pre = [] ->
     adds k (fun a u => Q a /\ held (pre ++ u) = 0 /\ (length (queued (pre ++ u)) <= 1)%nat)) ->
  held pre = 0 -> queued pre = [] ->
  adds (let! _ := if b then act Elevating else tret tt in k)
    (fun a u => Q a /\ held (pre ++ u) = 0 /\ (length (queued (pre ++ u)) <= 1)%nat).
Proof.
  intros Hk Hh Hq. apply adds_if; [by apply Hk|]. eapply adds_mono; [apply (Hk (pre ++ [Elevating])); by rewrite ?held_app, ?queued_app, ?Hh, ?Hq|].
  intros a u. cbn beta. rewrite <- app_assoc. done.
Qed.

(** ** Every call *)

Section call_effect.
Context (w : world E F) (Hjobs : jobs_ok (g_base_dir g) (w_jobs w)) (Hq : quiet w).

Lemma drawn_command : command_id (drawn_id w).
Proof. apply job_id_not_transfer, Hq. Qed.

Lemma command_effect command t : effect w (Server.execute_command_with_timeout (ToolHandlers := server_handlers g) command t w).2.
Proof.
  pose proof drawn_command as Hcmd. destruct Hq as [Hfg _ _ _ _ Hql Hn]. apply run_command_effect. unfold Handlers.execute_command_with_timeout.
  destruct (sanitize_or_tool_error _ command) as [sanitized|]; [|apply command_refused]. apply adds_act.
  destruct (l_connected _); [|by apply adds_ret; split_and!; [..|cbn; lia]].
  apply (if_elevating_adds _ _ _ [Connecting]); [|done..]. intros pre Hh Hqu. by apply foreground_effect.
Qed.

Lemma sudo_command_effect command t : effect w (Server.execute_sudo_command_with_timeout (ToolHandlers := server_handlers g) command t w).2.
Proof.
  pose proof drawn_command as Hcmd. destruct Hq as [Hfg _ _ _ _ Hql Hn]. apply run_command_effect. unfold Handlers.execute_sudo_command_with_timeout.
  destruct (sanitize_or_tool_error _ command) as [sanitized|]; [|apply command_refused]. apply adds_act.
  by apply (foreground_handler_adds _ _ _ _ _ _ [Connecting]).
Qed.

Lemma background_command_effect command log_path :
  effect w (Server.execute_background_command (ToolHandlers := server_handlers g) command log_path w).2.
Proof.
  pose proof drawn_command as Hcmd. destruct Hq as [_ _ _ _ _ Hql Hn]. apply run_command_effect, background_command_adds.
  by apply background_effect.
Qed.

Lemma background_sudo_command_effect command log_path :
  effect w (Server.execute_background_sudo_command (ToolHandlers := server_handlers g) command log_path w).2.
Proof.
  pose proof drawn_command as Hcmd. destruct Hq as [_ _ _ _ _ Hql Hn]. apply run_command_effect, background_command_adds.
  by apply background_effect.
Qed.

(** The registry of transfers loses what has expired and gains only ids of its own. *)
Lemma prune_ids r now : transfer_ids r -> transfer_ids (TransferJob.prune_expired r now).
Proof.
  intros Hr id [ref Hi]. apply Hr. unfold TransferJob.prune_expired in Hi. cbn in Hi. apply map_lookup_filter_Some in Hi as [Hi _]. by eexists.
Qed.

Lemma register_ids r id now : transfer_ids r -> transfer_ids (TransferJob.register r (lit "transfer-" ++ id) now).1.
Proof.
  intros Hr id' [ref Hi]. unfold TransferJob.register in Hi. cbn [fst TransferJob.jobs] in Hi.
  apply lookup_insert_Some in Hi as [[<- _]|[_ Hi]]; [done|]. apply (prune_ids r now Hr). by eexists.
Qed.

Lemma check_once_sections id n st env : jobs_ok (g_base_dir g) st -> quiet_check env ->
  sections st (check_once g id n (st, env)).2.1 /\ (check_once g id n (st, env)).2.2 = env.
Proof.
  intros Hok He. unfold check_once.
  pose proof (check_job_sections (g_to_json g) (g_of_json g) (g_base_dir g) (g_euid g) (g_umask g) (g_connection_id g) id n env st Hok He) as Hs.
  by destruct (check_job _ _ _ _ _ _ _ _ _).
Qed.

Lemma check_effect p : effect w (run_check g p w).2.
Proof.
  destruct Hq as [_ Hc Hm Ht _ _ _].
  enough (Hx : forall r st e tr, Handlers.execute_check_process (check_once g) (ce_check (w_now w)) (cp_job_id p) (cp_tail_lines p) (cp_wait_for p)
      (w_jobs w, ce_check_env (w_now w)) (w_transfers w) = (r, (st, e), tr) ->
      sections (w_jobs w) st /\ (transfer_ids (w_transfers w) -> transfer_ids tr)).
  { unfold run_check. destruct (Handlers.execute_check_process _ _ _ _ _ _ _) as [[r [st e]] tr].
    destruct (Hx r st e tr eq_refl) as [Hs Htr]. split; cbn; [done|exists []; rewrite app_nil_r; cbn; split_and!; [done..|lia]|done|exists []; by rewrite app_nil_r|done]. }
  intros r st e tr. unfold Handlers.execute_check_process, registry_contains. cbv zeta.
  pose proof (prune_ids (w_transfers w) (c_now (ce_check (w_now w)))) as Hp. set (pruned := TransferJob.prune_expired _ _) in *.
  destruct (bool_decide _).
  - destruct (execute_check_transfer _ _ _ pruned) as [a tr'] eqn:Ea. intros [= <- <- <- <-]. split; [done|]. intros Hw.
    enough (Hr : transfer_ids pruned -> transfer_ids tr') by auto. clear Hp. clearbody pruned. revert Ea.
    unfold execute_check_transfer, registry_snapshot. cbv zeta. intros Ea Hr.
    repeat case_match; simplify_eq; eauto using prune_ids.
  - destruct (check_once_sections (cp_job_id p) (cp_tail_lines p) (w_jobs w) (ce_check_env (w_now w)) Hjobs Hc) as [H1 H2].
    destruct (check_once g _ _ (w_jobs w, _)) as [[status|err] [st1 e1]]; cbn in H1, H2; subst e1; [|by intros [= <- <- <- <-]].
    destruct (_ || _); [by intros [= <- <- <- <-]|]. destruct (Hm st1 _ Hc) as [H3 H4].
    destruct (c_meanwhile _ (st1, _)) as [st2 e2]; cbn in H3, H4.
    assert (Hok2 : jobs_ok (g_base_dir g) st2).
    { assert (H13 : sections (w_jobs w) st2) by by etrans. by apply (sections_ok _ (g_of_json g) _ _ _ _ _ _ H13). }
    destruct (check_once_sections (cp_job_id p) (cp_tail_lines p) st2 e2 Hok2 H4) as [H5 _].
    destruct (check_once g _ _ (st2, e2)) as [later [st3 e3]]; cbn in H5. intros [= <- <- <- <-]. split; [|done].
    etrans; [exact H1|]. by etrans.
Qed.

Lemma untouched_effect w' :
  w_jobs w' = w_jobs w -> w_trace w' = w_trace w -> w_streams w' = w_streams w ->
  (transfer_ids (w_transfers w) -> transfer_ids (w_transfers w')) -> (in_u64 (w_counter w) -> in_u64 (w_counter w')) -> effect w w'.
Proof.
  intros E1 E2 E3 Ht Hc. split; [by rewrite E1| |done|exists []; by rewrite E3, app_nil_r|done].
  exists []. rewrite E2, app_nil_r. cbn. split_and!; [done..|lia].
Qed.

Lemma call_effect resolved name args : effect w (call g resolved name args w).2.
Proof.
  unfold call. apply (call_tool_cases _ _ _ _ _ _ (fun x => effect w x.2)).
  - intros e. apply effect_refl.
  - intros m. apply effect_refl.
  - apply command_effect.
  - apply background_command_effect.
  - apply sudo_command_effect.
  - apply background_sudo_command_effect.
  - intros p v. cbn. unfold run_transfer. destruct (Handlers.execute_transfer _ _ _ _ _) as [r s]. by apply untouched_effect.
  - intros p. apply untouched_effect; [done..| |intros _; apply next_u64].
    exact (register_ids (w_transfers w) (drawn_id w) (ce_transfer_now (w_now w))).
  - apply check_effect.
  - intros t p. cbn. unfold run_patch. destruct (ApplyPatch.execute_apply_patch _ _ _ _) as [a f]. apply untouched_effect; [done..|apply advance_u64].
Qed.
End call_effect.
End effects.

(** ** The server over time *)

Section time.
Context {E F : Type} `{TransportOps E} `{RemoteFiles F} (g : settings).
Implicit Types w : world E F.

Notation sections := (rtc (section (g_to_json g) (g_base_dir g) (g_euid g) (g_umask g) (g_connection_id g))).

(** A call; what is around the next call changes; other requests draw ids;
    another task works on the jobs; a stream ends; the task of a background transfer ends. *)
Inductive server_step w : world E F -> Prop :=
  | sv_call resolved name args : quiet g w -> server_step w (call g resolved name args w).2
  | sv_around now : server_step w (with_now now w)
  | sv_draw n : server_step w (with_counter (advance n (w_counter w)) w)
  | sv_jobs st : sections (w_jobs w) st -> server_step w (with_jobs st w)
  | sv_stream i id s append sync now path opened answer st :
      w_streams w !! i = Some (id, s) ->
      stream_task (g_to_json g) (g_base_dir g) (g_euid g) (g_umask g) append sync now id path opened s (w_jobs w) = Some (answer, st) ->
      server_step w (with_streams (delete i (w_streams w)) (with_jobs st w))
  | sv_transfer task events e now :
      task ∈ w_tasks w ->
      server_step w (with_checked (w_jobs w)
        {| TransferJob.jobs := TransferJob.jobs (w_transfers w);
           store := transfer_task (sp_job task) (sp_fallback task) events e now (store (w_transfers w));
           retention := retention (w_transfers w) |} w).

Record server_ok w : Prop := {
  so_jobs : jobs_ok (g_base_dir g) (w_jobs w);
  so_transfers : transfer_ids (w_transfers w);
  so_slots : held (w_trace w) = 0;
  so_counter : in_u64 (w_counter w)
}.

(** What one step adds. *)
Lemma server_step_ok w w' : server_step w w' -> server_ok w ->
  server_ok w' /\ kept (w_jobs w) (w_jobs w') /\ (length (queued (w_trace w')) <= S (length (queued (w_trace w))))%nat.
Proof.
  intros Hs [Hj Ht Hh Hc].
  assert (Hjobs : forall st, sections (w_jobs w) st -> jobs_ok (g_base_dir g) st /\ kept (w_jobs w) st)
    by (intros st Hst; exact (sections_ok _ (g_of_json g) _ _ _ _ _ _ Hst Hj)).
  destruct Hs as [resolved name args Hq|now|k|st Hst|i id s append sync now path opened answer st Hi Hst|task events e now Hin].
  - destruct (call_effect g w Hj Hq resolved name args) as [H1 (u & E1 & Hu & Hl) H3 _ Hcount]. destruct (Hjobs _ H1) as [Hok Hk].
    split; [split; [done|by apply H3| |by apply Hcount]|split; [done|]].
    + by rewrite E1, held_app, Hh, Hu.
    + rewrite E1, queued_app, length_app. lia.
  - split; [done|]. split; [reflexivity|exact (Nat.le_succ_diag_r _)].
  - split; [split; try done; by apply advance_u64|]. split; [reflexivity|exact (Nat.le_succ_diag_r _)].
  - destruct (Hjobs _ Hst) as [Hok Hk]. split; [done|]. split; [done|exact (Nat.le_succ_diag_r _)].
  - apply stream_task_sections with (connection_id := g_connection_id g) in Hst; [|done]. destruct (Hjobs _ Hst) as [Hok Hk].
    split; [done|]. split; [done|exact (Nat.le_succ_diag_r _)].
  - split; [done|]. split; [reflexivity|exact (Nat.le_succ_diag_r _)].
Qed.

(** C7. The server keeps its state sound forever. Whatever calls arrive, in any
    order and for any tool, while streams, background transfers and other
    tasks go on: every registered command job has its shared state, under its
    own id and with a log directly in the spool directory; no two jobs share a
    state; no id is both a registered command job and a registered transfer
    (a transfer's id starts with [transfer-], a command's does not, whether it was
    drawn by a call or loaded from the spool directory, which never holds the
    state of a job with such an id); every command slot is given back; a registered job is never forgotten and never changes its
    process, log or command; and there are at most as many command wrappers on
    the connection as there were steps. *)
Theorem server_invariant (n : nat) (w0 w : world E F) (Hok : server_ok w0) (Hrun : nsteps server_step n w0 w) :
  server_ok w /\
  (forall id1 id2 ref, registry_get (registry (w_jobs w)) id1 = Some ref -> registry_get (registry (w_jobs w)) id2 = Some ref -> id1 = id2) /\
  (forall id, is_Some (registry_get (registry (w_jobs w)) id) -> TransferJob.jobs (w_transfers w) !! id = None) /\
  (forall id j, registered_job id (w_jobs w0) = Some j -> exists j', registered_job id (w_jobs w) = Some j' /\ same_job j j') /\
  (length (queued (w_trace w)) <= length (queued (w_trace w0)) + n)%nat.
Proof.
  enough (Hx : server_ok w /\ kept (w_jobs w0) (w_jobs w) /\ (length (queued (w_trace w)) <= length (queued (w_trace w0)) + n)%nat).
  { destruct Hx as (Hw & Hk & Hl). split_and!; [done| | | |done].
    - intros id1 id2 ref. by apply jobs_ok_distinct with (base_dir := g_base_dir g), Hw.
    - intros id [ref Hr]. apply eq_None_not_Some. intros Ht. apply (so_transfers _ Hw) in Ht.
      apply (jo_commands _ _ (so_jobs _ Hw)) in Hr. unfold command_id, TRANSFER_PREFIX in Hr. congruence.
    - intros id j. by apply kept_registered. }
  induction Hrun as [w|n w1 w2 w3 Hs Hrun IH]; [split; [done|]; split; [reflexivity|lia]|].
  destruct (server_step_ok _ _ Hs Hok) as (Hok2 & Hk & Hl). destruct (IH Hok2) as (Hok3 & Hk3 & Hl3).
  split; [done|]. split; [by etrans|lia].
Qed.

(** *** A job, from its start to a check *)

Lemma run_ok w w' : rtc server_step w w' -> server_ok w -> server_ok w' /\ kept (w_jobs w) (w_jobs w').
Proof.
  induction 1 as [w|w1 w2 w3 Hs _ IH]; [done|]. intros Hok. destruct (server_step_ok _ _ Hs Hok) as (Hok2 & Hk & _).
  destruct (IH Hok2) as [Hok3 Hk3]. split; [done|by etrans].
Qed.

(** What a client reads of a job in the answer of a check. *)
Definition reports (pid : Z) (path command : str) (a : CallToolResult) : Prop :=
  field (lit "pid") a = Some (jnum pid) /\ field (lit "log_path") a = Some (JString path) /\
  field (lit "command") a = Some (JString command).

(** One look, and what it leaves registered. *)
Lemma check_once_reports id n st env j :
  jobs_ok (g_base_dir g) st -> quiet_check env -> registered_job id st = Some j ->
  let '(r, (st', env')) := check_once g id n (st, env) in
  (is_error (process_answer r) = false -> reports (Job.pid j) (Job.log_path j) (Job.command j) (process_answer r)) /\
  jobs_ok (g_base_dir g) st' /\ env' = env /\ exists j', registered_job id st' = Some j' /\ same_job j j'.
Proof.
  intros Hok Hq Hj. destruct (check_once_sections g id n st env Hok Hq) as [Hs He].
  destruct (sections_ok _ (g_of_json g) _ _ _ _ _ _ Hs Hok) as [Hok' Hk]. destruct (kept_registered _ _ _ _ Hk Hj) as (j' & Hj' & Hsame).
  unfold check_once in *. destruct (check_job _ _ _ _ _ _ _ _ _) as [r st'] eqn:Hr. cbn in *. split_and!; [|done|done|by exists j'].
  destruct r as [[ps|e]|]; cbn; [|done..]. intros _.
  destruct (check_job_identity _ _ _ _ _ _ _ _ _ _ _ _ Hj Hr) as (<- & <- & <-). by split_and!.
Qed.

Lemma run_check_reports p w j :
  server_ok w -> quiet g w -> starts_with (lit "transfer-") (cp_job_id p) = false ->
  registered_job (cp_job_id p) (w_jobs w) = Some j ->
  exists a, (run_check g p w).1 = Ok a /\ (is_error a = false -> reports (Job.pid j) (Job.log_path j) (Job.command j) a).
Proof.
  intros [Hok Htr _ _] [_ Hc Hm _ _ _ _] Hid Hj. unfold run_check, Handlers.execute_check_process, registry_contains. cbv zeta.
  rewrite bool_decide_eq_false_2 by (intros Hin; by rewrite (prune_ids _ _ Htr _ Hin) in Hid).
  pose proof (check_once_reports (cp_job_id p) (cp_tail_lines p) (w_jobs w) _ j Hok Hc Hj) as H1.
  destruct (check_once g _ _ (w_jobs w, _)) as [[s|e] [st1 e1]]; destruct H1 as (H1 & Hok1 & -> & j1 & Hj1 & S1); [|by eexists].
  destruct (_ || _); [by eexists|]. destruct (Hm st1 _ Hc) as [H3 H4].
  destruct (c_meanwhile _ (st1, _)) as [st2 e2]. cbn in H3, H4.
  destruct (sections_ok _ (g_of_json g) _ _ _ _ _ _ H3 Hok1) as [Hok2 Hk2]. destruct (kept_registered _ _ _ _ Hk2 Hj1) as (j2 & Hj2 & S2).
  pose proof (check_once_reports (cp_job_id p) (cp_tail_lines p) st2 e2 j2 Hok2 H4 Hj2) as H5.
  destruct (check_once g _ _ (st2, e2)) as [later [st3 e3]]. destruct H5 as [H5 _]. eexists. split; [done|].
  assert (S3 : same_job j j2) by by etrans. destruct S3 as (_ & <- & <- & <- & _). done.
Qed.

(** With the connection up and the log a regular file, a check without a wait
    is not an error. *)
Lemma run_check_answers p w j :
  server_ok w -> starts_with (lit "transfer-") (cp_job_id p) = false -> registered_job (cp_job_id p) (w_jobs w) = Some j ->
  (let env := ce_check_env (w_now w) in
   ck_connected env = Ok tt /\ is_ok (ck_pid_running env) = true /\ ck_log_meta env = LmFile /\ is_ok (ck_log_opened env) = true /\
   0 <= ck_log_len env) ->
  cp_wait_for p = 0 -> exists a, (run_check g p w).1 = Ok a /\ is_error a = false.
Proof.
  intros [_ Htr _ _] Hid Hj (Hc & Hp & Hm & Ho & Hl) Hw. unfold run_check, Handlers.execute_check_process, registry_contains. cbv zeta.
  rewrite bool_decide_eq_false_2 by (intros Hin; by rewrite (prune_ids _ _ Htr _ Hin) in Hid).
  destruct (check_job_answers (g_to_json g) (g_of_json g) (g_base_dir g) (g_euid g) (g_umask g) _ (cp_tail_lines p)
    _ _ j Hj Hc Hp Hm Ho Hl) as (ps & st' & Hr).
  unfold check_once. rewrite Hr. cbn. rewrite Hw. cbn. by eexists.
Qed.

(** The dispatch of the two tools. *)
Lemma call_background_shell args parsed w : parse_common_tool_args args = Ok parsed -> ToolArgs.background parsed = true ->
  call g (Ok Posix) (lit "shell") args w =
    (Server.execute_background_command (ToolHandlers := server_handlers g) (ToolArgs.command parsed) (ToolArgs.log_path parsed) w).
Proof.
  intros Ha Hb. unfold call, call_tool, call_posix_tool, call_command.
  change (str_eqb (lit "shell") (lit "shell")) with true. cbv iota. rewrite Ha. cbn [rmap_err with_params]. by rewrite Hb.
Qed.

Lemma call_check_process args p w : g_check_params g args = Ok p ->
  call g (Ok Posix) (lit "check_process") args w = run_check g p w.
Proof.
  intros Hp. unfold call, call_tool, call_posix_tool, parse_tool_params.
  repeat match goal with |- context [str_eqb (lit ?a) (lit ?b)] =>
    let r := eval vm_compute in (str_eqb (lit a) (lit b)) in change (str_eqb (lit a) (lit b)) with r; cbv iota
  end.
  cbn [check_process_params server_handlers]. by rewrite Hp.
Qed.

(** What the background tool leaves when it does not fail. *)
Lemma background_started cmd path_arg w answer w' :
  Server.execute_background_command (ToolHandlers := server_handlers g) cmd path_arg w = (Ok answer, w') -> is_error answer = false ->
  exists pid path sanitized j, sanitize_command cmd (g_max_chars g) = Ok sanitized /\
    answer = background_json_ok (drawn_id w) pid path /\ registered_job (drawn_id w) (w_jobs w') = Some j /\
    Job.pid j = pid /\ Job.log_path j = path /\ Job.command j = sanitized.
Proof.
  cbn [Server.execute_background_command server_handlers]. unfold run_background, run_command, Handlers.execute_background_command.
  match goal with |- context [execute_background_impl ?a ?b ?c ?d ?e ?f ?m ?x ?y ?z ?p ?st] =>
    destruct (background_adds a b c d e f m x y z p st (w_trace w)) as ([[r task] st'] & u & Hr & Hout) end.
  unfold tbind at 1. rewrite Hr. cbn. intros [= <- <-] Hne. destruct Hout as (_ & _ & Hout). destruct task as [s|]; [|by rewrite Hne in Hout; destruct Hout].
  destruct Hout as (sanitized & path & Hs & -> & _ & _ & _ & [_ Hreg] & _). by eexists _, _, _, _.
Qed.

(** C8. A started job can be found again. When the shell tool answers that a
    background job runs, its answer names the job under the id that the call drew, its process and its log;
    and however many calls and other steps later, check_process with that job
    id finds this very job: an answer that is not an error carries the same
    process id, the same log and the sanitized command, and with the connection
    up and the log in place a check without a wait is not an error. *)
Theorem started_job_reported (w0 w1 w2 : world E F) (args : members) (parsed : CommonToolArgs) (answer : CallToolResult)
    (Hok : server_ok w0) (Hq : quiet g w0) (Hargs : parse_common_tool_args args = Ok parsed) (Hbg : ToolArgs.background parsed = true)
    (Hcall : call g (Ok Posix) (lit "shell") args w0 = (Ok answer, w1)) (Hstarted : is_error answer = false)
    (Hrun : rtc server_step w1 w2) (Hq2 : quiet g w2) :
  exists pid path sanitized,
    sanitize_command (ToolArgs.command parsed) (g_max_chars g) = Ok sanitized /\
    answer = background_json_ok (make_job_id (ce_epoch_ms (w_now w0)) (w_counter w0)) pid path /\
    forall args2 p, g_check_params g args2 = Ok p -> cp_job_id p = make_job_id (ce_epoch_ms (w_now w0)) (w_counter w0) ->
      exists a w3, call g (Ok Posix) (lit "check_process") args2 w2 = (Ok a, w3) /\
        (is_error a = false -> reports pid path sanitized a) /\
        (let env := ce_check_env (w_now w2) in
         ck_connected env = Ok tt -> is_ok (ck_pid_running env) = true -> ck_log_meta env = LmFile ->
         is_ok (ck_log_opened env) = true -> 0 <= ck_log_len env -> cp_wait_for p = 0 -> is_error a = false).
Proof.
  assert (Hok1 : server_ok w1).
  { change w1 with (@snd (result CallToolResult McpError) _ (Ok answer, w1)). rewrite <- Hcall. by eapply (server_step_ok w0), Hok; constructor. }
  destruct (run_ok _ _ Hrun Hok1) as [Hok2 Hk].
  rewrite (call_background_shell _ _ _ Hargs Hbg) in Hcall.
  destruct (background_started _ _ _ _ _ Hcall Hstarted) as (pid & path & sanitized & j & Hs & -> & Hj & <- & <- & <-).
  fold (drawn_id w0). eexists _, _, _. split; [exact Hs|]. split; [done|]. intros args2 p Hp Hpid.
  destruct (kept_registered _ _ _ _ Hk Hj) as (j2 & Hj2 & (_ & E1 & E2 & E3 & _)). rewrite <- Hpid in Hj2.
  assert (Hnt : starts_with (lit "transfer-") (cp_job_id p) = false) by (rewrite Hpid; apply job_id_not_transfer, Hq).
  rewrite (call_check_process _ _ _ Hp).
  destruct (run_check_reports p w2 j2 Hok2 Hq2 Hnt Hj2) as (a & Ha & Hrep).
  exists a, (run_check g p w2).2. split; [rewrite <- Ha; by destruct (run_check g p w2)|]. split; [by rewrite <- E1, <- E2, <- E3|].
  cbv zeta. intros Hc1 Hc2 Hc3 Hc4 Hc5 Hw. destruct (run_check_answers p w2 j2 Hok2 Hnt Hj2) as (a' & Ha' & Hne); [by split_and!|done|].
  rewrite Ha in Ha'. by injection Ha' as <-.
Qed.
End time.

(** ** A concrete run *)

Import PlainStore.

Module ServiceExample.

(** A calm surrounding. *)
Definition launch : launch_env := {|
  l_job_id := []; l_now := 5; l_meta_error := None; l_before_open := fun fs => fs; l_open_error := None; l_sync := Ok tt;
  l_connected := Ok tt; l_elevated := Ok tt; l_slot := Ok tt; l_first := l_first LaunchExample.env; l_reconnected := Ok tt;
  l_second := l_second LaunchExample.env; l_events := l_events LaunchExample.env; l_arrived := 1 |}.

Definition around : call_env (list request) := {|
  ce_epoch_ms := 1; ce_launch := launch; ce_fg := LaunchExample.fg;
  ce_check := {| c_cancelled := false; c_meanwhile := fun x => x; c_now := 9; c_later := 10; c_transfers_meanwhile := fun r => r;
                 c_local_len := fun _ => None; c_remote_exec := fun _ => None |};
  ce_check_env := fg_check LaunchExample.fg; ce_native := fun _ _ => not_started []; ce_answers := sample_answers (lit "file");
  ce_meanwhile := fun a => a; ce_elapsed := 5; ce_stopped := None; ce_edit_ids := 0; ce_transfer_now := 9;
  ce_finished := fun _ => false |}.

Definition check_params (args : members) : result CheckProcessToolArgs str :=
  match get (lit "job_id") args with
  | Some (JString id) => Ok {| cp_job_id := id; cp_tail_lines := 20; cp_wait_for := 0 |}
  | _ => Err (lit "missing field `job_id`")
  end.

Definition g : settings := {|
  g_to_json := LaunchExample.to_json; g_of_json := LaunchExample.of_json; g_base_dir := lit "/s"; g_euid := 1000; g_umask := 18;
  g_connection_id := lit "u@h:22"; g_max_chars := Some 1000; g_max_output_tokens := Some 100; g_su_password := None;
  g_sudo_password := None; g_timeout := 60000; g_disable_sudo := false; g_root := lit "/root"; g_ssh := sample_ssh;
  g_response_text := fun _ _ => None; g_transfer_params := fun _ => Err []; g_check_params := check_params; g_patch_params := fun _ => Err [] |}.

Definition w0 : world (list request) (gmap str str) := {|
  w_jobs := LaunchExample.empty_spool; w_streams := []; w_trace := []; w_transfers := {| TransferJob.jobs := ∅; TransferJob.store := ∅; retention := 60 |};
  w_tasks := []; w_engine := Engine.empty_state; w_files := ∅; w_counter := 0; w_now := around |}.

Definition start_args : members := [(lit "command", JString (lit "echo hi")); (lit "background", JBool true)].
Definition check_args : members := [(lit "job_id", JString (make_job_id 1 0))].
Definition started_call := call g (Ok Posix) (lit "shell") start_args w0.
Definition w1 := started_call.2.
Definition w2 := with_now around w1.

Lemma w0_ok : server_ok g w0.
Proof.
  split; [split|intros id [ref H]|done|by split].
  - intros id ref H. by cbn in H.
  - intros id ref j H. by cbn in H.
  - intros ref j H. by cbn in H.
  - intros id ref H. by cbn in H.
  - intros name _. apply lookup_empty.
  - by cbn in H.
Qed.

Lemma around_quiet (w : world (list request) (gmap str str)) : w_now w = around -> unknown_job (drawn_id w) (w_jobs w) -> quiet g w.
Proof.
  intros Hw Hn. split; rewrite ?Hw; [split; [by split|intros st; apply rtc_refl]|by split|by intros st env He|done|done|by intros fs|done].
Qed.
End ServiceExample.

Lemma server_invariant_witness :
  server_ok ServiceExample.g ServiceExample.w2 /\ length (queued (w_trace ServiceExample.w2)) = 1%nat.
Proof.
  split; [|vm_compute; reflexivity].
  refine (proj1 (server_invariant ServiceExample.g 2 ServiceExample.w0 ServiceExample.w2 ServiceExample.w0_ok _)).
  eapply nsteps_l; [apply (sv_call _ _ (Ok Posix) (lit "shell") ServiceExample.start_args), ServiceExample.around_quiet; reflexivity|].
  eapply nsteps_l; [apply (sv_around _ _ ServiceExample.around)|apply nsteps_O].
Defined.

Lemma started_job_reported_witness :
  exists a w3, call ServiceExample.g (Ok Posix) (lit "check_process") ServiceExample.check_args ServiceExample.w2 = (Ok a, w3) /\
    is_error a = false /\ reports 42 (lit "/s/1-0.log") (lit "echo hi") a.
Proof.
  assert (Hq : quiet ServiceExample.g ServiceExample.w0) by (apply ServiceExample.around_quiet; reflexivity).
  assert (Hq2 : quiet ServiceExample.g ServiceExample.w2)
    by (apply ServiceExample.around_quiet; vm_compute; reflexivity).
  assert (Hargs : parse_common_tool_args ServiceExample.start_args =
    Ok {| ToolArgs.command := lit "echo hi"; ToolArgs.background := true; ToolArgs.timeout_ms := None; ToolArgs.log_path := None |})
    by (vm_compute; reflexivity).
  assert (Hcall : ServiceExample.started_call = (Ok (background_json_ok (make_job_id 1 0) 42 (lit "/s/1-0.log")), ServiceExample.w1))
    by (vm_compute; reflexivity).
  destruct (started_job_reported ServiceExample.g _ _ ServiceExample.w2 _ _ _ ServiceExample.w0_ok Hq Hargs eq_refl
    Hcall eq_refl (rtc_once _ _ (sv_around _ _ ServiceExample.around)) Hq2) as (pid & path & sanitized & Hs & Ha & Hcheck).
  destruct (Hcheck ServiceExample.check_args {| cp_job_id := make_job_id 1 0; cp_tail_lines := 20; cp_wait_for := 0 |} eq_refl eq_refl)
    as (a & w3 & Hc & Hr & He).
  assert (Hne : is_error a = false) by (apply He; vm_compute; congruence).
  exists a, w3. split; [exact Hc|]. split; [exact Hne|].
  vm_compute in Hs. injection Hs as <-. injection Ha as Hpid <-. specialize (Hr Hne).
  unfold reports, jnum in *. rewrite <- Hpid in Hr. exact Hr.
Defined.
