(* ===== verification/Elevation.v ===== *)
(** * Channels and elevation (src/ssh/connection.rs)

    What is done on an established route: opening a channel within a budget,
    detecting the [timeout] utility, and making the elevated [su] shell. The
    manager's critical sections are those of Connection; what other tasks do
    between them is an argument, and so are the answers of the SSH library.
    The actions on channels are recorded. *)
From Stdlib Require Import ZArith String.
From stdpp Require Import base list relations.
From S2P Require Import Prelude Trace Errors Utf8 Channel Identification Connection Route RouterOs.

(** ** Opening a channel *)

Definition not_established : SshMcpError := Connection (lit "SSH connection not established").
Definition acquisition_timed_out (budget_ms : Z) : SshMcpError :=
  Connection (lit "SSH transport acquisition timed out after " ++ show_uint budget_ms ++ lit "ms").

(** How a wait ends before the awaited thing happens. *)
Inductive wait_end : Type := ByShutdown | ByBudget.

(** What other tasks do before the gate and before the session is locked, how
    the wait for the lock and the wait for the answer end, and the answer. *)
Record open_env : Type := {
  op_gate : manager -> manager;
  op_lock_wait : option wait_end;
  op_lock : manager -> manager;
  op_open_wait : option wait_end;
  op_answer : result unit str
}.

(** A shutdown ends a wait only if the caller lets it. *)
Definition ended (interrupt_on_shutdown : bool) (w : option wait_end) : option wait_end :=
  match w with
  | Some ByShutdown => if interrupt_on_shutdown then w else None
  | _ => w
  end.

(** The channel is named by the generation it is opened on. *)
Definition open_channel_attempt_detailed (budget_ms : Z) (interrupt_on_shutdown : bool) (env : open_env) (m : manager) :
    result Z ChannelOpenAttemptFailure * manager :=
  let failed generation e elapsed :=
    Err {| failure_generation := generation; failure_error := e; budget_elapsed := elapsed |} in
  let cut generation w :=
    match w with
    | ByShutdown => failed generation shutting_down_error false
    | ByBudget => failed generation (acquisition_timed_out budget_ms) true
    end in
  let m := op_gate env m in
  match ensure_not_shutting_down m with
  | Err e => (failed None e false, m)
  | Ok _ =>
      match ended interrupt_on_shutdown (op_lock_wait env) with
      | Some w => (cut None w, m)
      | None =>
          let m := op_lock env m in
          match session m with
          | None => (failed None not_established false, m)
          | Some route =>
              let g := Some (generation route) in
              if r_closed route then (failed g (Connection (lit "SSH transport closed before channel open")) false, m)
              else
                match ended interrupt_on_shutdown (op_open_wait env) with
                | Some w => (cut g w, m)
                | None =>
                    match op_answer env with
                    | Err e => (failed g (Connection (lit "Failed to open channel: " ++ e)) false, m)
                    | Ok _ => (Ok (generation route), m)
                    end
                end
          end
      end
  end.

Definition open_channel_attempt (env : open_env) (m : manager) : result Z (option Z * SshMcpError) * manager :=
  let '(r, m) := open_channel_attempt_detailed (CONNECTION_TIMEOUT_SECS * 1000) true env m in
  (rmap_err (fun f => (failure_generation f, failure_error f)) r, m).

Definition open_channel_with_generation (env : open_env) (m : manager) : result Z SshMcpError * manager :=
  let '(r, m) := open_channel_attempt env m in (rmap_err snd r, m).

(** ** The [timeout] utility *)

(** The first look at the flag, the channel, the answer to EXEC, what the
    channel delivers, and what other tasks do before the flag is stored. *)
Record detection_env : Type := {
  dt_open : open_env;
  dt_exec : result unit str;
  dt_messages : list (option ChannelMsg);
  dt_store : manager -> manager
}.

(** The loop over the messages: the output; [None] while the channel stays
    silent, which nothing bounds. *)
Fixpoint detection_output (output : str) (messages : list (option ChannelMsg)) : option str :=
  match messages with
  | [] => None
  | None :: _ | Some (Close | Eof) :: _ => Some output
  | Some (Data data) :: messages => detection_output (output ++ from_utf8_lossy data) messages
  | Some _ :: messages => detection_output output messages
  end.

(** The answer, and the command that was sent. *)
Definition check_timeout_availability (env : detection_env) (m : manager) : traced str (option (bool * manager)) :=
  if has_timeout_cmd m then tret (Some (true, m))
  else
    let '(opened, m) := open_channel_with_generation (dt_open env) m in
    match opened with
    | Err _ => tret (Some (false, m))
    | Ok _ =>
        let! _ := act (lit "sh -c 'command -v timeout'") in
        match dt_exec env with
        | Err _ => tret (Some (false, m))
        | Ok _ =>
            tret (output ← detection_output [] (dt_messages env);
                  let available := negb (str_eqb output []) in
                  Some (available, set_timeout_cmd available (dt_store env m)))
        end
    end.

(** [after] is what other tasks do before the flag is read again. *)
Definition determine_timeout_wrapper_usage (env : detection_env) (after : manager -> manager) (m : manager) :
    traced str (option (bool * manager)) :=
  if has_timeout_cmd m then tret (Some (true, m))
  else
    let! checked := check_timeout_availability env m in
    tret ('(_, m) ← checked; let m := after m in Some (has_timeout_cmd m, m)).

(** ** The elevated shell *)

Inductive su_action : Type :=
  | ChannelOpened (g : Z)
  | PtyRequested
  | ShellRequested
  | SuTyped
  | Payload (data : str)
  | ChannelClosed (g : Z)
  | ChannelStored (g : Z)
  | OldShellEof (g : Z).

(** What other tasks do before each critical section, and the answers. *)
Record elevation_env : Type := {
  el_gate : manager -> manager;
  el_route : manager -> manager;
  el_flag : manager -> manager;
  el_channel : manager -> manager;
  el_open : open_env;
  el_pty : result unit str;
  el_shell : result unit str;
  el_su : result unit str;
  el_send : result unit str;
  el_dialogue : list (bool * su_step);
  el_end : manager -> manager
}.

Section elevation.
(** [str::to_lowercase], which needs the Unicode tables. *)
Context (to_lowercase : str -> str).

Definition route_changed_before : SshMcpError := ElevationFailed (lit "SSH route changed before elevation").

(** The end of the elevation after the dialogue on a channel of generation
    [g]. Nothing closes the channel of a dialogue that failed. *)
Definition finish_elevation (g : Z) (answer : result unit SshMcpError) (m : manager) :
    traced su_action (result unit SshMcpError * manager) :=
  match answer with
  | Ok _ =>
      match store_elevated g m with
      | (Ok _, m) => let! _ := act (ChannelStored g) in tret (Ok tt, m)
      | (Err e, m) => let! _ := act (ChannelClosed g) in tret (Err e, m)
      end
  | Err e =>
      let! _ := match su_channel m with
        | Some old => if bool_decide (current_generation m = Some g) then act (OldShellEof old) else tret tt
        | None => tret tt
        end in
      tret (Err e, reset_su_state_for_generation g m)
  end.

(** A request on the channel, and what follows if it was sent. *)
Definition request (a : su_action) (answer : result unit str) (what : string) (m : manager)
    (k : traced su_action (option (result unit SshMcpError * manager))) :
    traced su_action (option (result unit SshMcpError * manager)) :=
  let! _ := act a in
  match answer with
  | Err e => tret (Some (Err (ElevationFailed (lit what ++ lit ": " ++ e)), m))
  | Ok _ => k
  end.

(** After the dialogue's events its deadline passes. *)
Definition elevate_on (g : Z) (password : str) (env : elevation_env) (m : manager) :
    traced su_action (option (result unit SshMcpError * manager)) :=
  request PtyRequested (el_pty env) "Failed to request PTY" m
  (request ShellRequested (el_shell env) "Failed to request shell" m
  (request SuTyped (el_su env) "Failed to send su command" m
   (match handle_su_elevation to_lowercase password (el_send env) [] false (el_dialogue env ++ [(true, SuQuiet)]) [] with
    | None => tret None
    | Some (answer, written) =>
        let! _ := foldr (fun p rest => let! _ := act (Payload p) in rest) (tret tt) written in
        let! r := finish_elevation g answer (el_end env m) in
        tret (Some r)
    end))).

Definition ensure_elevated_for_generation (su_password : option str) (expected : option Z) (env : elevation_env) (m : manager) :
    traced su_action (option (result unit SshMcpError * manager)) :=
  let answer r m : traced su_action (option (result unit SshMcpError * manager)) := tret (Some (r, m)) in
  let m := el_gate env m in
  match ensure_not_shutting_down m with
  | Err e => answer (Err e) m
  | Ok _ =>
      let m := match expected with Some _ => el_route env m | None => m end in
      if bool_decide (is_Some expected) && bool_decide (current_generation m <> expected) then answer (Err route_changed_before) m
      else
        let m := el_flag env m in
        let elevated := is_elevated m in
        let m := if elevated then el_channel env m else m in
        if elevated && bool_decide (is_Some (su_channel m)) then answer (Ok tt) m
        else
          match su_password with
          | None => answer (Err (ElevationFailed (lit "No su_password configured"))) m
          | Some password =>
              let '(opened, m) := open_channel_with_generation (el_open env) m in
              match opened with
              | Err e => answer (Err (ElevationFailed (lit "Failed to open channel: " ++ error_display e))) m
              | Ok g =>
                  let! _ := act (ChannelOpened g) in
                  if bool_decide (is_Some expected) && bool_decide (expected <> Some g) then
                    let! _ := act (ChannelClosed g) in answer (Err route_changed_before) m
                  else elevate_on g password env m
              end
          end
  end.

Definition ensure_elevated (su_password : option str) := ensure_elevated_for_generation su_password None.

(** The error is logged and dropped: commands then run as the login user. *)
Definition initialize_auto_elevation (su_password : option str) (env : elevation_env) (m : manager) :
    traced su_action (option manager) :=
  match begin_auto_elevation (bool_decide (is_Some su_password)) m with
  | (None, m) => tret (Some m)
  | (Some g, m) => let! r := ensure_elevated_for_generation su_password (Some g) env m in tret (snd <$> r)
  end.

(** The password given is not used: the configured one is. *)
Definition set_su_password (su_password : option str) (password : option str) (env : elevation_env) (m : manager) :
    traced su_action (option (result unit SshMcpError * manager)) :=
  match password with
  | Some _ => ensure_elevated su_password env m
  | None =>
      let! _ := match su_channel m with Some old => act (OldShellEof old) | None => tret tt end in
      tret (Some (Ok tt, clear_su m))
  end.
End elevation.

(** ** Bounded work on the transport *)

(** What other tasks do before the gate; and, when the work is cut, by what
    and the state it had reached. *)
Record bounded_env : Type := { bd_gate : manager -> manager; bd_cut : option (wait_end * manager) }.

Definition bounded_transport {T} (budget_ms : Z) (env : bounded_env) (operation : manager -> option (result T SshMcpError * manager))
    (m : manager) : option (result T SshMcpError * manager) :=
  let m := bd_gate env m in
  match ensure_not_shutting_down m with
  | Err e => Some (Err e, m)
  | Ok _ =>
      match bd_cut env with
      | Some (ByShutdown, m) => Some (Err shutting_down_error, m)
      | Some (ByBudget, m) => Some (Err (acquisition_timed_out budget_ms), m)
      | None => operation m
      end
  end.

Section transport.
Context (to_lowercase : str -> str) (su_password : option str) (probe_timeout_ms : Z)
  (retry : manager -> result unit SshMcpError * manager).

Definition ensure_connected_transport_only (env : bounded_env) (turns : list turn) (m : manager) :
    option (result unit SshMcpError * manager) :=
  bounded_transport (CONNECTION_TIMEOUT_SECS * 1000) env (ensure_transport_inner probe_timeout_ms retry turns) m.

(** A failed elevation is not an error of the connection. *)
Definition then_elevate (connected : option (result unit SshMcpError * manager)) (before : manager -> manager) (env : elevation_env) :
    traced su_action (option (result unit SshMcpError * manager)) :=
  match connected with
  | Some (Ok _, m) =>
      let! m := initialize_auto_elevation to_lowercase su_password env (before m) in
      tret ((fun m => (Ok tt, m)) <$> m)
  | other => tret other
  end.

Definition ensure_connected (env : bounded_env) (turns : list turn) (before : manager -> manager) (el : elevation_env) (m : manager) :=
  then_elevate (ensure_connected_transport_only env turns m) before el.

(** [during] is what other tasks do between the two halves. *)
Definition reconnect (env : bounded_env) (during before : manager -> manager) (el : elevation_env) (m : manager) :=
  then_elevate (bounded_transport (CONNECTION_TIMEOUT_SECS * 1000) env
    (fun m => Some (retry (during (invalidate_session_inner None m)))) m) before el.
End transport.

(** ** Runs of the manager *)

(** Wherever the manager is [m], its tasks can bring it to [m']. *)
Definition leads (m m' : manager) : Prop := forall s, mgr s = m -> exists s', rtc step s s' /\ mgr s' = m'.

#[global] Instance leads_preorder : PreOrder leads.
Proof.
  split; [by intros m s Hs; exists s|]. intros m1 m2 m3 H12 H23 s Hs.
  destruct (H12 s Hs) as (s2 & Hs2 & E2). destruct (H23 s2 E2) as (s3 & Hs3 & E3). exists s3. split; [by etrans|done].
Qed.

Lemma step_leads m m' : (forall s, mgr s = m -> step s (with_mgr s m')) -> leads m m'.
Proof. intros H s Hs. exists (with_mgr s m'). split; [by apply rtc_once, H|done]. Qed.

Lemma store_leads g m : leads m (store_elevated g m).2.
Proof. apply step_leads. intros s <-. apply step_elevated. Qed.
Lemma reset_leads g m : leads m (reset_su_state_for_generation g m).
Proof. apply step_leads. intros s <-. apply step_reset_su. Qed.
Lemma auto_leads b m : leads m (begin_auto_elevation b m).2.
Proof. apply step_leads. intros s <-. apply step_auto_elevation. Qed.

(** What other tasks do is a run of the manager. *)
Definition tasks (f : manager -> manager) : Prop := forall m, leads m (f m).

Record open_tasks (env : open_env) : Prop := { ot_gate : tasks (op_gate env); ot_lock : tasks (op_lock env) }.
Record elevation_tasks (env : elevation_env) : Prop := {
  et_gate : tasks (el_gate env);
  et_route : tasks (el_route env);
  et_flag : tasks (el_flag env);
  et_channel : tasks (el_channel env);
  et_open : open_tasks (el_open env);
  et_end : tasks (el_end env)
}.

Lemma open_leads budget b env m : open_tasks env -> leads m (open_channel_attempt_detailed budget b env m).2.
Proof.
  intros [Hg Hl]. unfold open_channel_attempt_detailed. cbn zeta.
  repeat case_match; cbn [snd]; first [done | apply Hg | etrans; [apply Hg|apply Hl]].
Qed.

Lemma open_with_generation_snd env m :
  (open_channel_with_generation env m).2 = (open_channel_attempt_detailed (CONNECTION_TIMEOUT_SECS * 1000) true env m).2.
Proof. unfold open_channel_with_generation, open_channel_attempt. by destruct (open_channel_attempt_detailed _ _ _ _). Qed.

(** ** The protocol of an elevation *)

Inductive su_state : Type :=
  | Idle
  | HasChannel (g : Z)
  | HasPty (g : Z)
  | HasShell (g : Z)
  | Typed (g : Z)
  | Entered (g : Z)
  | Refused
  | Held (g : Z).

(** One channel; a terminal, a shell and [su] only on the generation asked
    for; the password once, after them; and the shell is kept only after it. *)
Definition su_proto (password : str) (expected : option Z) (s : su_state) (a : su_action) : option su_state :=
  match s, a with
  | Idle, ChannelOpened g => Some (HasChannel g)
  | HasChannel g, ChannelClosed g' => if g =? g' then Some Refused else None
  | HasChannel g, PtyRequested => if bool_decide (expected = None \/ expected = Some g) then Some (HasPty g) else None
  | HasPty g, ShellRequested => Some (HasShell g)
  | HasShell g, SuTyped => Some (Typed g)
  | Typed g, Payload p => if str_eqb p (password ++ [NL]) then Some (Entered g) else None
  | Entered g, ChannelStored g' => if g =? g' then Some (Held g) else None
  | Entered g, ChannelClosed g' => if g =? g' then Some Refused else None
  | Typed g, OldShellEof _ | Entered g, OldShellEof _ => Some Refused
  | _, _ => None
  end.

Section guarded.
Context (to_lowercase : str -> str) (password : str) (expected : option Z).

(** What an elevation leaves: a new shell on the current route, or an error
    and no new shell. *)
Definition left (r : result unit SshMcpError) (m : manager) (s : su_state) : Prop :=
  match r with
  | Ok _ => exists g, s = Held g /\ (expected = None \/ expected = Some g) /\
      su_channel m = Some g /\ su_generation m = g /\ is_elevated m = true /\
      current_generation m = Some g /\ shutting_down m = false
  | Err _ => forall g, s <> Held g
  end.

Definition left_after (m : manager) (x : option (result unit SshMcpError * manager)) (s : su_state) : Prop :=
  exists r m', x = Some (r, m') /\ leads m m' /\ left r m' s.

Notation guarded := (obeys (su_proto password expected)).

Lemma finish_guarded g answer m (written := match answer with Ok _ => Entered g | Err _ => Typed g end) s :
  (s = written \/ s = Entered g) -> (expected = None \/ expected = Some g) ->
  guarded s (finish_elevation g answer m) (fun x s => leads m x.2 /\ left x.1 x.2 s).
Proof.
  intros Hs He. destruct answer as [u|e]; cbn [finish_elevation].
  - assert (s = Entered g) as -> by (by destruct Hs). pose proof (store_leads g m) as Hl. unfold store_elevated in *.
    destruct (_ || _) eqn:E; cbn [snd] in *.
    + eapply obeys_act; [cbn; by rewrite Z.eqb_refl|]. apply obeys_ret. by split.
    + apply orb_false_iff in E as [Hsd E]. apply bool_decide_eq_false in E. apply dec_stable in E.
      eapply obeys_act; [cbn; by rewrite Z.eqb_refl|]. apply obeys_ret. split; [done|]. exists g. by split_and!.
  - apply obeys_bind. eapply (obeys_mono _ _ _ (fun _ s => forall g, s <> Held g)).
    + assert (Hn : forall g', s <> Held g') by (by destruct Hs as [->| ->]).
      destruct (su_channel m); [|apply obeys_ret; exact Hn]. case_bool_decide; [|apply obeys_ret; exact Hn].
      apply (obeys_last _ _ Refused); [by destruct Hs as [->| ->]|done].
    + intros [] s' Hs'. apply obeys_ret. split; [apply reset_leads|done].
Qed.

Lemma request_guarded s s' a answer what m k :
  su_proto password expected s a = Some s' -> (forall g, s' <> Held g) -> guarded s' k (left_after m) ->
  guarded s (request a answer what m k) (left_after m).
Proof.
  intros Hs Hh Hk. unfold request. eapply obeys_act; [exact Hs|]. destruct answer; [done|].
  apply obeys_ret. eexists _, _. split_and!; [done|done|]. exact Hh.
Qed.

(** The dialogue ends by its deadline. *)
Lemma dialogue_ends send buffer sent events written :
  is_Some (handle_su_elevation to_lowercase password send buffer sent (events ++ [(true, SuQuiet)]) written).
Proof.
  revert buffer sent written; induction events as [|[late e] events IH]; intros buffer sent written; [by eexists|].
  cbn [app handle_su_elevation]. destruct late; [by eexists|]. destruct e as [data| | | |]; try (by eexists); try apply IH.
  cbv zeta. case_match; [|by eexists]. destruct (_ && contains_char _ _); [by eexists|].
  destruct (existsb _ _); [by eexists|apply IH].
Qed.

Lemma elevate_guarded g env m : elevation_tasks env -> expected = None \/ expected = Some g ->
  guarded (HasChannel g) (elevate_on to_lowercase g password env m) (left_after m).
Proof.
  intros Ht He. unfold elevate_on.
  eapply request_guarded; [cbn; by rewrite bool_decide_eq_true_2|done|].
  eapply request_guarded; [done|done|]. eapply request_guarded; [done|done|].
  destruct (dialogue_ends (el_send env) [] false (el_dialogue env) []) as [[answer written] Hd]. rewrite Hd.
  apply su_password_once in Hd as [_ Hd]. specialize (Hd eq_refl).
  assert (Hend : forall s, s = match answer with Ok _ => Entered g | Err _ => Typed g end \/ s = Entered g ->
    guarded s (let! r := finish_elevation g answer (el_end env m) in tret (Some r)) (left_after m)).
  { intros s Hs. apply obeys_bind. eapply obeys_mono; [by apply finish_guarded|]. intros [r m'] s' [Hl Hx].
    apply obeys_ret. exists r, m'. split_and!; [done| |done]. etrans; [apply (et_end _ Ht)|exact Hl]. }
  destruct Hd as [[-> Hf] | ->]; cbn [foldr app].
  - destruct answer; [done|]. apply Hend. by left.
  - eapply obeys_act; [cbn; by rewrite str_eqb_refl|]. apply Hend. by right.
Qed.
End guarded.

(** Opening a channel: what it is opened on. *)
Lemma open_channel_spec budget b env m g m' :
  open_channel_attempt_detailed budget b env m = (Ok g, m') ->
  current_generation m' = Some g /\ open_on m' g = true /\ op_answer env = Ok tt.
Proof.
  unfold open_channel_attempt_detailed, current_generation, open_on. cbn zeta.
  destruct (ensure_not_shutting_down _); [|done]. destruct (ended b (op_lock_wait env)) as [[]|]; [done..|].
  destruct (session _) as [r|] eqn:Es; [|done]. destruct (r_closed r) eqn:Ec; [done|].
  destruct (ended b (op_open_wait env)) as [[]|]; [done..|]. destruct (op_answer env) as [[]|]; [|done].
  intros [= <- <-]. rewrite Es. cbn. by rewrite Z.eqb_refl, Ec.
Qed.

(** C13. Elevation never exposes the password and never keeps the wrong shell.
    It always ends. It opens at most one channel, asks for a terminal only if
    the channel is on the generation it was asked to elevate, and writes the
    configured password at most once, after a terminal, a shell and [su]; a
    password is written only if one is configured. On success it found a shell
    in place, or it wrote the password and stored its shell on the route that
    is current, which it has marked elevated, before any shutdown; otherwise
    no new shell is stored. Whatever other tasks do in between, what it does to
    the shared state is a run of the connection manager. *)
Theorem elevation_guarded (to_lowercase : str -> str) (su_password : option str) (expected : option Z) (env : elevation_env)
    (m : manager) (Htasks : elevation_tasks env) :
  exists r m' trace s,
    ensure_elevated_for_generation to_lowercase su_password expected env m [] = (Some (r, m'), trace) /\
    run (su_proto (default [] su_password) expected) Idle trace = Some s /\
    leads m m' /\
    (su_password = None -> trace = []) /\
    match r with
    | Ok _ => (s = Idle /\ trace = [] /\ is_Some (su_channel m')) \/
        exists g, s = Held g /\ (expected = None \/ expected = Some g) /\ su_channel m' = Some g /\ su_generation m' = g /\
          is_elevated m' = true /\ current_generation m' = Some g /\ shutting_down m' = false
    | Err _ => forall g, s <> Held g
    end.
Proof.
  destruct Htasks as [Hgate Hroute Hflag Hchannel Hopen Hend].
  unfold ensure_elevated_for_generation. cbn zeta.
  set (m1 := el_gate env m). assert (L1 : leads m m1) by apply Hgate.
  destruct (ensure_not_shutting_down m1); [|by exists (Err e), m1, [], Idle].
  set (m2 := match expected with Some _ => _ | None => _ end).
  assert (L2 : leads m m2) by (etrans; [exact L1|]; subst m2; destruct expected; [apply Hroute|done]).
  destruct (_ && bool_decide (current_generation m2 <> expected)); [by exists (Err route_changed_before), m2, [], Idle|].
  set (m3 := el_flag env m2). set (m4 := if is_elevated m3 then el_channel env m3 else m3).
  assert (L4 : leads m m4) by (etrans; [exact L2|]; etrans; [apply Hflag|]; subst m4; destruct (is_elevated m3); [apply Hchannel|done]).
  destruct (is_elevated m3 && _) eqn:E.
  { bool_hyps. exists (Ok tt), m4, [], Idle. split_and!; try done. left. by split_and!. }
  destruct su_password as [password|];
    [|by exists (Err (ElevationFailed (lit "No su_password configured"))), m4, [], Idle].
  destruct (open_channel_with_generation (el_open env) m4) as [opened m5] eqn:Eo.
  assert (L5 : leads m m5).
  { etrans; [exact L4|]. pose proof (open_leads (CONNECTION_TIMEOUT_SECS * 1000) true (el_open env) m4 Hopen) as H.
    rewrite <- open_with_generation_snd, Eo in H. exact H. }
  destruct opened as [g|e]; [|by exists (Err (ElevationFailed (lit "Failed to open channel: " ++ error_display e))), m5, [], Idle].
  enough (H : obeys (su_proto password expected) (HasChannel g)
    (if bool_decide (is_Some expected) && bool_decide (expected <> Some g) then
       let! _ := act (ChannelClosed g) in tret (Some (Err route_changed_before, m5))
     else elevate_on to_lowercase g password env m5) (left_after expected m5)).
  { destruct (H [ChannelOpened g]) as (x & u & s & Hx & Hu & r & m' & -> & Hl & Hr).
    exists r, m', (ChannelOpened g :: u), s. split_and!; [exact Hx|exact Hu|by etrans|done|]. destruct r; [by right|done]. }
  clear E. destruct (bool_decide (is_Some expected) && _) eqn:Ee.
  - eapply obeys_act; [cbn; by rewrite Z.eqb_refl|]. apply obeys_ret. exists (Err route_changed_before), m5. by split_and!.
  - apply elevate_guarded; [by split|]. destruct expected as [x|]; [|by left]. right. cbn in Ee.
    by apply bool_decide_eq_false, dec_stable in Ee.
Qed.

Module ElevationExample.

Definition quiet : open_env :=
  {| op_gate := id; op_lock_wait := None; op_lock := id; op_open_wait := None; op_answer := Ok tt |}.

(** A prompt, a root prompt, and meanwhile another task that marks a probe. *)
Definition env : elevation_env := {|
  el_gate := id; el_route := id; el_flag := id; el_channel := id; el_open := quiet; el_pty := Ok tt; el_shell := Ok tt;
  el_su := Ok tt; el_send := Ok tt; el_dialogue := [(false, SuData (lit "password: ")); (false, SuQuiet); (false, SuData (lit "root# "))];
  el_end := fun m => (mark_health_probe_ok 5 1 m).2 |}.

Lemma id_tasks : tasks id.
Proof. intros m. reflexivity. Qed.
Lemma env_tasks : elevation_tasks env.
Proof. split; try apply id_tasks; [split; apply id_tasks|]. intros m. apply step_leads. intros s <-. apply step_probe. Qed.

End ElevationExample.

Lemma elevation_guarded_witness :
  exists m' trace,
    ensure_elevated_for_generation id (Some (lit "pw")) (Some 1) ElevationExample.env (mgr ConnectionExample.s4) [] = (Some (Ok tt, m'), trace) /\
    trace = [ChannelOpened 1; PtyRequested; ShellRequested; SuTyped; Payload (lit "pw" ++ [NL]); ChannelStored 1] /\
    leads (mgr ConnectionExample.s4) m'.
Proof.
  destruct (elevation_guarded id (Some (lit "pw")) (Some 1) ElevationExample.env (mgr ConnectionExample.s4) ElevationExample.env_tasks)
    as (r & m' & trace & s & E & _ & Hl & _ & _).
  vm_compute in E. injection E as <- <- <-. eexists _, _. split; [vm_compute; reflexivity|]. split; [reflexivity|exact Hl].
Defined.

(** The answer about the [timeout] utility: from the cached flag without any
    command, and otherwise from one command's standard output. *)
Lemma timeout_detection env after m :
  (has_timeout_cmd m = true -> determine_timeout_wrapper_usage env after m [] = (Some (true, m), [])) /\
  (has_timeout_cmd m = false ->
   match (open_channel_with_generation (dt_open env) m).1, dt_exec env with
   | Ok _, Ok _ =>
       forall output, detection_output [] (dt_messages env) = Some output ->
       (determine_timeout_wrapper_usage env id m []).1 =
         Some (negb (str_eqb output []), set_timeout_cmd (negb (str_eqb output [])) (dt_store env (open_channel_with_generation (dt_open env) m).2))
   | _, _ =>
       exists m', (determine_timeout_wrapper_usage env after m []).1 = Some (has_timeout_cmd (after m'), after m') /\
         m' = (open_channel_with_generation (dt_open env) m).2
   end).
Proof.
  unfold determine_timeout_wrapper_usage, check_timeout_availability. split; intros ->; [done|].
  unfold tbind, act. destruct (open_channel_with_generation _ _) as [[g|e] m1]; cbn; [|by eexists].
  destruct (dt_exec env); cbn; [|by eexists]. intros output ->. done.
Qed.
