(* ===== verification/Main.v ===== *)
(** * The process (src/main.rs, src/logging.rs, src/server.rs)

    From the command line to the exit: logging, the configuration, the new
    server, readiness, preparation, serving, the recovery of the connection in
    the background, and the one way out through the server's shutdown. The
    command line is parsed by clap; what the system, the connection and the MCP
    library answer is an argument; the actions are recorded in order. *)
From Stdlib Require Import ZArith String.
From stdpp Require Import base list gmap.
From S2P Require Import Prelude Trace Errors Paths Config SshConfig Environment Spooler Startup Route Server.

(** ** Logging (logging.rs) *)

Inductive Appender : Type :=
  | Rolling (daily : bool) (dir : list component) (name : str)
  | AppendTo (file : str).

Inductive Layer : Type :=
  | StderrText
  | FileText (a : Appender)
  | FileJson (a : Appender).

Section logging.
(** Whether a directory exists, what creating it and opening a file to append
    answer, and whether a file name is valid UTF-8. *)
Context (exists_dir : list component -> bool) (create_dir_all : list component -> result unit str)
  (open_append : str -> result unit str) (utf8_name : str -> bool) (display : list component -> str).

Definition setup_file_logging (log_file rotation : str) : result Appender SshMcpError :=
  let log_dir := default [CurDir] (parent_components log_file) in
  let? _ := if negb (bool_decide (log_dir = [])) && negb (exists_dir log_dir)
            then rmap_err (fun e => ConfigError (lit "Failed to create log directory " ++ display log_dir ++ lit ": " ++ e))
                   (create_dir_all log_dir)
            else Ok tt in
  let? log_name := ok_or (file_name log_file) (ConfigError (lit "Log file path has no file name")) in
  let? _ := reject (negb (utf8_name log_name)) (ConfigError (lit "Log file name is not valid UTF-8")) in
  if str_eqb rotation (lit "hourly") then Ok (Rolling false log_dir log_name)
  else if str_eqb rotation (lit "never") then
    let? _ := rmap_err (fun e => ConfigError (lit "Failed to open log file " ++ log_file ++ lit ": " ++ e)) (open_append log_file) in
    Ok (AppendTo log_file)
  else Ok (Rolling true log_dir log_name).

(** The layers, the file's last; the guard is kept exactly when there is one. *)
Definition init_logging (args : Args) : result (list Layer) SshMcpError :=
  match a_log_file args with
  | Some log_file =>
      let? writer := setup_file_logging log_file (a_log_rotation args) in
      Ok [StderrText; if str_eqb (a_log_format args) (lit "json") then FileJson writer else FileText writer]
  | None => Ok [StderrText]
  end.
End logging.

(** ** A new server (server.rs) *)

Record new_server_env : Type := {
  ns_current_dir : result str str;
  ns_default_spool : str;
  ns_euid : Z;
  ns_umask : Z;
  ns_spool : spool_fs;
  ns_read_to_string : str -> result str str
}.

Record started : Type := {
  sv_local_root : str;
  sv_spool_dir : str;
  sv_spool : spool_fs;
  sv_ssh_config : SshConfig;
  sv_server : server
}.

Definition new_with_spool_dir (c : Config) (spool_dir : option str) (env : new_server_env) : result started SshMcpError :=
  let? local_root := rmap_err Io (ns_current_dir env) in
  let? base_dir := resolve_local_spooler (ns_default_spool env) spool_dir in
  let? fs := rmap_err (fun e => ConfigError (lit "failed to initialize local log spool dir " ++ base_dir ++ lit ": " ++
                                            background_error_display e))
               (ensure_dir (ns_euid env) (ns_umask env) (ns_spool env)) in
  let? ssh_config := build_ssh_config (ns_read_to_string env) c in
  Ok {| sv_local_root := local_root; sv_spool_dir := base_dir; sv_spool := fs; sv_ssh_config := ssh_config; sv_server := server_new c |}.

(** ** The run (main.rs) *)

(** [T]: a background transfer the server may still have. *)
Inductive main_action (T : Type) : Type :=
  | LoggingReady (layers : list Layer)
  | SignalsWatched
  | ReadinessTried
  | Prepared (s : server)
  | RecoverySpawned
  | RecoveryTried
  | Serving
  | LifecycleCancelled
  | RecoveryJoined
  | SignalsStopped
  | Ending (a : shutdown_action T).
Arguments LoggingReady {_} layers. Arguments SignalsWatched {_}. Arguments ReadinessTried {_}. Arguments Prepared {_} s.
Arguments RecoverySpawned {_}. Arguments RecoveryTried {_}. Arguments Serving {_}. Arguments LifecycleCancelled {_}.
Arguments RecoveryJoined {_}. Arguments SignalsStopped {_}. Arguments Ending {_} a.

(** One round of the recovery: the lifecycle ends during the sleep or during
    the attempt, or the attempt answers. *)
Inductive recovery_round : Type :=
  | CancelledAsleep
  | CancelledTrying
  | TriedRecovery (r : result unit SshMcpError).

(** How serving ends: the service ran (and its last wait answered), it could
    not start because of the cancellation, or it failed. *)
Inductive service_end : Type :=
  | Served (waited : result unit str)
  | NotStarted (cancelled : bool) (e : str).

(** [m_cancelled_ready]: the lifecycle is cancelled before readiness is known;
    [m_cancelled_prepared]: before serving. *)
Record main_env (T : Type) : Type := {
  m_logging : Args -> result (list Layer) SshMcpError;
  m_config : Args -> result Config SshMcpError;
  m_new_server : new_server_env;
  m_cancelled_ready : bool;
  m_readiness : timed (result unit SshMcpError);
  m_startup : startup_env;
  m_cancelled_prepared : bool;
  m_recovery : list recovery_round;
  m_service : service_end;
  m_in_time : T -> bool;
  m_tasks : list T
}.
Arguments m_logging {T}. Arguments m_config {T}. Arguments m_new_server {T}. Arguments m_cancelled_ready {T}.
Arguments m_readiness {T}. Arguments m_startup {T}. Arguments m_cancelled_prepared {T}. Arguments m_recovery {T}.
Arguments m_service {T}. Arguments m_in_time {T}. Arguments m_tasks {T}.

(** The actions of a part, among those of the whole. *)
Definition lift {E F A} (f : E -> F) (m : traced E A) : traced F A := fun t => let '(a, u) := m [] in (a, t ++ (f <$> u)).

Section run.
Context {T : Type} (version : str) (environment_json : HostEnvironment -> str).

Fixpoint recovery_loop (rounds : list recovery_round) : traced (main_action T) (option unit) :=
  match rounds with
  | [] => tret None
  | CancelledAsleep :: _ => tret (Some tt)
  | CancelledTrying :: _ => let! _ := act RecoveryTried in tret (Some tt)
  | TriedRecovery _ :: rounds => let! _ := act RecoveryTried in recovery_loop rounds
  end.

(** The block whose result is the process's: whether the recovery was started,
    and the result. The recovery runs beside the service until the lifecycle is
    cancelled, which it sees at the latest when it next sleeps: every attempt it
    makes starts before. *)
Definition service_block (env : main_env T) (s : server) : traced (main_action T) (bool * result unit SshMcpError) :=
  if m_cancelled_ready env then tret (false, Ok tt)
  else
    let! _ := act ReadinessTried in
    match m_readiness env with
    | Elapsed => tret (false, Err (Connection (lit "Initial SSH readiness timed out after 10000ms")))
    | Within (Err e) => tret (false, Err e)
    | Within (Ok _) =>
        let s := with_startup_environment version environment_json (m_startup env) s in
        let! _ := act (Prepared s) in
        if m_cancelled_prepared env then tret (false, Ok tt)
        else
          let! _ := act RecoverySpawned in
          let! _ := act Serving in
          let! _ := recovery_loop (m_recovery env ++ [CancelledAsleep]) in
          tret (true, match m_service env with
                      | Served _ => Ok tt
                      | NotStarted cancelled e => if cancelled then Ok tt else Err (Connection e)
                      end)
    end.

(** By then a signal may already have cancelled the lifecycle. *)
Definition run_server (env : main_env T) (s : server) : traced (main_action T) (result unit SshMcpError) :=
  let! _ := act SignalsWatched in
  let! '(recovering, service_result) := service_block env s in
  let! _ := act LifecycleCancelled in
  let! _ := if recovering then act RecoveryJoined else tret tt in
  let! _ := act SignalsStopped in
  let! _ := lift Ending (shutdown (m_in_time env) (m_tasks env)) in
  tret service_result.

Definition without_spool_dir (a : Args) : Args := {|
  a_host := a_host a; a_port := a_port a; a_user := a_user a; a_password := a_password a; a_key := a_key a; a_jump := a_jump a;
  a_jump_key := a_jump_key a; a_jump_password := a_jump_password a; a_spool_dir := None; a_su_password := a_su_password a;
  a_sudo_password := a_sudo_password a; a_timeout := a_timeout a; a_max_chars := a_max_chars a; a_disable_sudo := a_disable_sudo a;
  a_max_output_tokens := a_max_output_tokens a; a_log_level := a_log_level a; a_log_file := a_log_file a;
  a_log_format := a_log_format a; a_log_rotation := a_log_rotation a; a_keepalive_interval := a_keepalive_interval a;
  a_keepalive_max := a_keepalive_max a; a_reconnect_retries := a_reconnect_retries a;
  a_reconnect_backoff_ms := a_reconnect_backoff_ms a; a_health_probe_timeout_ms := a_health_probe_timeout_ms a;
  a_strict_host_key_checking := a_strict_host_key_checking a; a_known_hosts := a_known_hosts a |}.

Definition run_process (args : Args) (env : main_env T) : traced (main_action T) (result unit SshMcpError) :=
  match m_logging env args with
  | Err e => tret (Err e)
  | Ok layers =>
      let! _ := act (LoggingReady layers) in
      match (let? c := m_config env (without_spool_dir args) in new_with_spool_dir c (a_spool_dir args) (m_new_server env)) with
      | Err e => tret (Err e)
      | Ok started => run_server env (sv_server started)
      end
  end.
End run.

(** ** The log file *)

(** An accepted log file is the one named: its name in its own directory. *)
Lemma setup_file_logging_names exists_dir create_dir_all open_append utf8_name display log_file rotation a :
  setup_file_logging exists_dir create_dir_all open_append utf8_name display log_file rotation = Ok a ->
  match a with
  | Rolling daily dir name => components log_file = dir ++ [Normal name] /\ (daily = false <-> rotation = lit "hourly")
  | AppendTo file => file = log_file /\ rotation = lit "never"
  end.
Proof.
  unfold setup_file_logging. destruct (file_name log_file) as [name|] eqn:En; cbn [ok_or rbind];
    [|by destruct (if _ : bool then _ else _)].
  assert (Hp : is_Some (parent_components log_file)).
  { unfold file_name, parent_components in *. destruct (rev (components log_file)) as [|[] ?]; first [discriminate En|by eexists]. }
  destruct Hp as [dir Hp]. rewrite Hp. cbn [default]. pose proof (parent_components_Some _ _ _ Hp En) as Hc.
  destruct (if _ : bool then _ else _); [|done]. cbn [rbind]. destruct (utf8_name name); [|done]. cbn [negb reject rbind].
  destruct (str_eqb rotation (lit "hourly")) eqn:Eh; [intros [= <-]; apply str_eqb_spec in Eh; by split|].
  destruct (str_eqb rotation (lit "never")) eqn:Ev.
  - destruct (open_append log_file); [|done]. intros [= <-]. by apply str_eqb_spec in Ev.
  - intros [= <-]. split; [done|]. split; [done|]. intros ->. by rewrite str_eqb_refl in Eh.
Qed.

(** ** The order of a run *)

Inductive phase : Type := Start | Logged | Watching | Trying | Ready | Recovering | Up | Draining (joined : bool) | Quiet | Settling | Closed.

Definition lifecycle {T} (p : phase) (a : main_action T) : option phase :=
  match p, a with
  | Start, LoggingReady _ => Some Logged
  | Logged, SignalsWatched => Some Watching
  | Watching, ReadinessTried => Some Trying
  | Trying, Prepared _ => Some Ready
  | Ready, RecoverySpawned => Some Recovering
  | Recovering, Serving => Some Up
  | Up, RecoveryTried => Some Up
  | Watching, LifecycleCancelled | Trying, LifecycleCancelled | Ready, LifecycleCancelled => Some (Draining true)
  | Up, LifecycleCancelled => Some (Draining false)
  | Draining false, RecoveryJoined => Some (Draining true)
  | Draining true, SignalsStopped => Some Quiet
  | Quiet, Ending CancelTransfers => Some Settling
  | Settling, Ending (TaskEnded _) | Settling, Ending (TaskAborted _) => Some Settling
  | Settling, Ending CloseConnection => Some Closed
  | _, _ => None
  end.

(** The connection is ready, and nothing ended the lifecycle before serving. *)
Definition serves {T} (env : main_env T) : bool :=
  negb (m_cancelled_ready env) && match m_readiness env with Within (Ok _) => true | _ => false end && negb (m_cancelled_prepared env).

(** The error the process ends with, once it has a server. *)
Definition fatal {T} (env : main_env T) : option SshMcpError :=
  if m_cancelled_ready env then None
  else match m_readiness env with
       | Elapsed => Some (Connection (lit "Initial SSH readiness timed out after 10000ms"))
       | Within (Err e) => Some e
       | Within (Ok _) =>
           match serves env, m_service env with true, NotStarted false e => Some (Connection e) | _, _ => None end
       end.

Definition endings {T} (t : list (main_action T)) : list (shutdown_action T) :=
  omap (fun a => match a with Ending a => Some a | _ => None end) t.

Section correct.
Context {T : Type} (version : str) (environment_json : HostEnvironment -> str).
Implicit Types (env : main_env T).

Definition answer (o : option SshMcpError) : result unit SshMcpError := match o with Some e => Err e | None => Ok tt end.

(** The recovery only tries, and ends. *)
Lemma recovery_ends rounds t : exists n,
  recovery_loop (T:=T) (rounds ++ [CancelledAsleep]) t = (Some tt, t ++ replicate n RecoveryTried).
Proof.
  revert t; induction rounds as [|[| |r] rounds IH]; intros t; cbn [app recovery_loop].
  - exists O. by rewrite app_nil_r.
  - exists O. by rewrite app_nil_r.
  - by exists 1%nat.
  - unfold tbind, act. destruct (IH (t ++ [RecoveryTried])) as (n & ->). exists (S n). by rewrite <- app_assoc.
Qed.

Lemma run_attempts n : run (lifecycle (T:=T)) Up (replicate n RecoveryTried) = Some Up.
Proof. by induction n. Qed.

Lemma endings_app (t u : list (main_action T)) : endings (t ++ u) = endings t ++ endings u.
Proof. apply omap_app. Qed.
Lemma endings_attempts n : endings (replicate n (RecoveryTried (T:=T))) = [].
Proof. by induction n. Qed.

(** The block, up to the cancellation of the lifecycle. *)
Lemma block_trace env s t : exists u,
  service_block version environment_json env s t = ((serves env, answer (fatal env)), t ++ u) /\
  run lifecycle Watching (u ++ [LifecycleCancelled]) = Some (Draining (negb (serves env))) /\
  (Serving ∈ u <-> serves env = true) /\ endings u = [] /\ Ending CloseConnection ∉ u.
Proof.
  unfold service_block, serves, fatal, serves. destruct (m_cancelled_ready env).
  { exists []. rewrite app_nil_r. split_and!; try done; set_solver. }
  unfold tbind at 1, act at 1. destruct (m_readiness env) as [[v|e]|].
  2, 3: exists [ReadinessTried]; split_and!; try done; set_solver.
  unfold tbind at 1, act at 1. cbn [negb andb]. set (s' := with_startup_environment _ _ _ _).
  destruct (m_cancelled_prepared env).
  { exists [ReadinessTried; Prepared s']. rewrite <- app_assoc. split_and!; try done; set_solver. }
  unfold tbind, act. destruct (recovery_ends (m_recovery env) ((((t ++ [ReadinessTried]) ++ [Prepared s']) ++ [RecoverySpawned]) ++ [Serving]))
    as (n & ->).
  exists ([ReadinessTried; Prepared s'; RecoverySpawned; Serving] ++ replicate n RecoveryTried). rewrite <- !app_assoc. split_and!.
  - destruct (m_service env) as [|[] ?]; done.
  - rewrite run_app. cbn [run lifecycle mbind option_bind app]. by rewrite run_app, run_attempts.
  - split; [done|]. intros _. set_solver.
  - by rewrite endings_app, endings_attempts.
  - rewrite elem_of_app. intros [H|H]; [set_solver|]. apply elem_of_replicate in H as [H _]. done.
Qed.

Definition settled (in_time : T -> bool) (x : T) : shutdown_action T := if in_time x then TaskEnded x else TaskAborted x.

Lemma shutdown_trace in_time (tasks : list T) :
  shutdown in_time tasks [] = (tt, CancelTransfers :: (settled in_time <$> tasks) ++ [CloseConnection]).
Proof.
  unfold shutdown, tbind at 1, act at 1. cbn [app].
  enough (H : forall t, foldr (fun x rest => let! _ := act (settled in_time x) in rest) (tret tt) tasks t = (tt, t ++ (settled in_time <$> tasks))).
  { unfold settled in H. unfold tbind at 1. rewrite H. done. }
  induction tasks as [|x tasks IH]; intros t; cbn; [by rewrite app_nil_r|]. unfold tbind, act. rewrite IH. by rewrite <- app_assoc.
Qed.

Lemma shutdown_lifecycle in_time (tasks : list T) :
  run lifecycle Quiet (Ending <$> (CancelTransfers :: (settled in_time <$> tasks) ++ [CloseConnection])) = Some Closed.
Proof.
  cbn. rewrite fmap_app, run_app.
  assert (H : run lifecycle Settling (Ending <$> (settled in_time <$> tasks)) = Some Settling).
  { induction tasks as [|x tasks IH]; [done|]. cbn. unfold settled at 2. destruct (in_time x); exact IH. }
  by rewrite H.
Qed.

Lemma endings_Ending (l : list (shutdown_action T)) : endings (Ending <$> l) = l.
Proof. induction l as [|a l IH]; [done|]. cbn. by f_equal. Qed.

(** C15. One way in and one way out. Tools are served exactly when the
    connection was ready and nothing ended the process before; whatever
    happens once there is a server, the run goes through its phases in order:
    the lifecycle is cancelled, the recovery has made its last attempt and is
    awaited, the signals are no longer watched, every transfer that was left
    ended or was aborted, and last of all the connection is closed. The
    process fails exactly for a readiness or a start of the service that
    failed, and not for a signal. Without a server nothing is done but
    logging. *)
Theorem process_lifecycle (args : Args) (env : main_env T) :
  let '(r, trace) := run_process version environment_json args env [] in
  match m_logging env args with
  | Err e => r = Err e /\ trace = []
  | Ok layers =>
      match (let? c := m_config env (without_spool_dir args) in new_with_spool_dir c (a_spool_dir args) (m_new_server env)) with
      | Err e => r = Err e /\ trace = [LoggingReady layers]
      | Ok _ =>
          run lifecycle Start trace = Some Closed /\
          r = answer (fatal env) /\
          (Serving ∈ trace <-> serves env = true) /\
          endings trace = CancelTransfers :: (settled (m_in_time env) <$> m_tasks env) ++ [CloseConnection]
      end
  end.
Proof.
  destruct (run_process _ _ _ _ _) as [r trace] eqn:Hrun. unfold run_process in Hrun. destruct (m_logging env args) as [layers|e]; [|by injection Hrun as <- <-].
  unfold tbind at 1, act at 1 in Hrun. destruct (rbind _ _) as [st|e]; [|by injection Hrun as <- <-].
  unfold run_server, tbind at 1, act at 1 in Hrun. cbn [app] in Hrun.
  unfold tbind at 1 in Hrun. destruct (block_trace env (sv_server st) [LoggingReady layers; SignalsWatched]) as (u & Hb & Hl & Hs & He & _).
  rewrite Hb in Hrun. unfold tbind at 1, act at 1 in Hrun.
  set (joined := if serves env then [RecoveryJoined (T:=T)] else []).
  assert (Hj : forall t, (if serves env then act RecoveryJoined else tret tt) t = (tt, t ++ joined))
    by (intros t; subst joined; destruct (serves env); [done|by rewrite app_nil_r]).
  unfold tbind at 1 in Hrun. rewrite Hj in Hrun. unfold tbind, act, tret, lift in Hrun. rewrite shutdown_trace in Hrun.
  pose proof (shutdown_lifecycle (m_in_time env) (m_tasks env)) as Hd. pose proof endings_Ending as Hends.
  set (l := CancelTransfers :: (settled _ <$> _) ++ _) in *. specialize (Hends l). set (ending := Ending <$> l) in *.
  assert (Hn : forall a, a ∈ ending -> a <> Serving) by (intros a (x & -> & _)%list_elem_of_fmap; done). clearbody ending.
  injection Hrun as <- <-. rewrite <- !app_assoc. split_and!; [|done| |].
  - change (run lifecycle Watching (u ++ [LifecycleCancelled] ++ joined ++ [SignalsStopped] ++ ending) = Some Closed).
    rewrite (app_assoc u), run_app, Hl. subst joined. by destruct (serves env).
  - rewrite <- Hs. subst joined. rewrite !elem_of_cons, !elem_of_app. split; [|by intros H; right; right; left].
    intros [H|[H|[H|[H|[H|[H|H]]]]]]; [done|done|done|set_solver|destruct (serves env); set_solver|set_solver|by apply Hn in H].
  - change (endings (u ++ [LifecycleCancelled] ++ joined ++ [SignalsStopped] ++ ending) = l).
    rewrite !endings_app, He, Hends. subst joined. by destruct (serves env).
Qed.
End correct.

(** A run that serves until a signal arrives, with one attempt of the recovery
    and a transfer that does not end in time. *)
Module MainExample.

Definition args : Args := {|
  a_host := lit "t"; a_port := 22; a_user := lit "u"; a_password := Some (lit "pw"); a_key := None; a_jump := None; a_jump_key := None;
  a_jump_password := None; a_spool_dir := Some (lit "/spool"); a_su_password := None; a_sudo_password := None; a_timeout := 1000;
  a_max_chars := None; a_disable_sudo := true; a_max_output_tokens := None; a_log_level := lit "info"; a_log_file := Some (lit "/l/x.log");
  a_log_format := lit "json"; a_log_rotation := lit "daily"; a_keepalive_interval := 30; a_keepalive_max := 3; a_reconnect_retries := 3;
  a_reconnect_backoff_ms := 250; a_health_probe_timeout_ms := 1500; a_strict_host_key_checking := Yes; a_known_hosts := None |}.

Definition env : main_env nat := {|
  m_logging := init_logging (fun _ => false) (fun _ => Ok tt) (fun _ => Ok tt) (fun _ => true) (fun _ => []);
  m_config := fun a => Ok (config_of id a None);
  m_new_server := {| ns_current_dir := Ok (lit "/w"); ns_default_spool := lit "/tmp/s"; ns_euid := 0; ns_umask := 18;
                     ns_spool := {| fs_dir := None; fs_files := ∅ |}; ns_read_to_string := fun _ => Err (lit "none") |};
  m_cancelled_ready := false; m_readiness := Within (Ok tt);
  m_startup := {| su_cancelled_before := true; su_platform := None; su_environment := Err (Timeout 1); su_raw := Ok true;
                  su_sftp := ProbeOk; su_cancelled_after := false; su_cancelled_last := false |};
  m_cancelled_prepared := false; m_recovery := [TriedRecovery (Err (Timeout 2)); CancelledAsleep];
  m_service := Served (Ok tt); m_in_time := fun _ => false; m_tasks := [7%nat] |}.

Example served :
  let s := server_new (config_of id (without_spool_dir args) None) in
  run_process (lit "1") (fun _ => []) args env [] =
    (Ok tt, [LoggingReady [StderrText; FileJson (Rolling true [RootDir; Normal (lit "l")] (lit "x.log"))]; SignalsWatched; ReadinessTried;
             Prepared s; RecoverySpawned; Serving; RecoveryTried; LifecycleCancelled; RecoveryJoined; SignalsStopped;
             Ending CancelTransfers; Ending (TaskAborted 7%nat); Ending CloseConnection]).
Proof. vm_compute. reflexivity. Qed.

End MainExample.
